(* ===== verification/_CoqProject ===== *)
-Q . S2P
Prelude.v
NumberTheory.v
RpoField.v
RpoPermutation.v
RpoSve.v
RpoSponge.v
Bits.v
CodecFixed.v
CodecComp.v
Mq.v
Polynomial.v
Pass.v
Butterfly.v
Poly.v
Ntt.v
Norm.v
Vrfy.v
Keccak.v
Shake.v
Sponge.v
HashToPoint.v
Sha2.v
Sha2Spec.v
Sp800.v
Aes.v
AesBits.v
AesRound.v
AesCipher.v
AesKey.v
AesModes.v
SeedExpander.v
Prng.v
Rounding.v
Fpr.v
FprPack.v
FprArith.v
FprAdd.v
FprConv.v
FprExpm.v
FprSpec.v
Sampler.v
Modp.v
Primes.v
ModpNtt.v
Zint.v
Crt.v
Bezout.v
Fft.v
FftSpec.v
FftTable.v
FftAccuracy.v
PolyBig.v
Ntru.v
NtruSpec.v
Gauss.v
Keygen.v
Sign.v
SignSpec.v
Falcon.v
FalconDemo.v
FalconRpo.v
Pqclean.v
FalconSystem.v
