(* ===== verification/Prelude.v ===== *)
(** * A verification of RPO-Falcon512, the C signature library of the Miden VM

    The virtual machine of this repository is written in Rust; the C program it links is the signature
    scheme that [src/crypto/build.rs] compiles: [falcon.c] and [rpo.c] (under
    [src/crypto/src/dsa/rpo_falcon512/falcon_c/]), the reference Falcon-512 of PQClean
    ([src/crypto/PQClean/crypto_sign/falcon-512/clean/]), its common hash functions
    ([src/crypto/PQClean/common/]), and, on some processors, a vector back end
    ([src/crypto/arch/arm64-sve/rpo/]).  That program is what is modelled here.

    ** Parts, and the files that model them

    - [Prelude], [NumberTheory]: machine integers, loops, arrays, error outcomes, congruences;
      primality and Fermat's theorem.
    - [RpoField], [RpoPermutation], [RpoSponge] ([rpo.c], [rpo.h]): the field Z/p with p = 2^64 - 2^32 + 1,
      the seven-round permutation with its tables, the byte-oriented sponge and the hash to a point of
      the Falcon ring.  The union of bytes and words in [rpo128_context] is a list of bytes that the
      permutation reads and writes as little-endian words.
    - [RpoSve] ([rpo_hash.h], [library.c]): half rounds on two vectors and four scalars; the intrinsics
      are a class [Sve] with lane-wise laws [SveLaws], instantiated by vectors of [n] lanes.
    - [Bits], [CodecFixed], [CodecComp] ([codec.c]): bit strings; the modulo-q and fixed-width codecs; the
      compressed codec of signatures.
    - [Polynomial], [Pass], [Butterfly]: coefficient lists modulo an integer, roots, interpolation, the ring
      Z[X]/(X^n + 1); passes of butterflies over an array of any type; the transforms made of them, for a
      table of twiddles over any prime.
    - [Mq], [Poly], [Ntt], [Vrfy] ([vrfy.c]): Montgomery arithmetic modulo q = 12289; the ring modulo q; the
      two number-theoretic transforms; verification, public key, completion of the private key, public
      key recovery.
    - [Norm], [HashToPoint] ([common.c]): the norm tests with saturation; the two hash-to-point routines.
    - [Keccak], [Shake] ([fips202.c]): the permutation on 25 lanes; the incremental and one-shot sponges.
      [Sponge]: the sponge of FIPS 202 on padded blocks of bytes, and the program against it.
    - [Sha2] ([sha2.c]), [Sp800] ([sp800-185.c]): the SHA-2 family, block by block and in one call; cSHAKE over the
      sponge of [Shake].  The library exports them; the signature scheme does not call them, nor the next two.
      [Sha2Spec]: FIPS 180-4, written without anything of the program (its constants are computed from the
      roots of primes), and the program against it.
    - [Aes], [AesBits], [AesRound], [AesCipher], [AesKey], [AesModes] ([aes.c]): AES on bit slices, four blocks in
      eight words of 64 bits; the words seen as bits; the rounds, the key schedule and the modes against
      FIPS 197.  [SeedExpander] ([nistseedexpander.c]): AES-256 in counter mode behind a buffer.
    - [Prng] ([rng.c] and the accessors of [inner.h]): the ChaCha20 generator that feeds the sampler.
    - [Rounding], [Fpr], [FprPack], [FprArith], [FprAdd], [FprConv], [FprExpm], [FprSpec] ([fpr.h], [fpr.c]):
      binary64 values as multiples of 2^-1074 and correct rounding, the specification; the operations on
      64-bit encodings; their proofs by group; the promises of every operation.
    - [Fft], [FftTable] ([fft.c], tables of [fpr.c]): the Fast Fourier transform and the operations on
      transformed polynomials, over a class of arithmetic [Reals]; its instance on 64-bit encodings.
      [FftSpec]: the instance on the real numbers of the Standard Library, and what the transform computes
      there; [FftAccuracy]: how close the tables of the program are to those of that instance.
    - [Sampler], [Sign], [SignSpec] ([sign.c]): the half-Gaussian table, the Bernoulli trial, the integer
      sampler; the Falcon tree, Fast Fourier sampling and the two signing functions; what verification
      makes of their results.
    - [Modp], [Primes], [ModpNtt], [Zint], [Crt], [Bezout] ([keygen.c], to line 1868): arithmetic modulo
      31-bit primes, the table of primes and their transform; big integers as 31-bit words; their
      reconstruction from residues; the extended GCD.
    - [PolyBig], [Ntru], [NtruSpec], [Gauss], [Keygen] ([keygen.c], from line 1881): polynomials with big
      coefficients; the recursion that solves f G - g F = 12289, and what its result satisfies; the random
      polynomials; one turn of key generation and its loop.
    - [Falcon], [FalconRpo] ([falcon.c]) and [Pqclean] ([pqclean.c]): keys, signatures, verification.  The
      two files of the repository differ in the hash of nonce and message only, so [Falcon] is written
      against the interface [PointHash] that [FalconRpo] (RPO) and [Pqclean] (SHAKE256) implement.
      [FalconDemo] holds the concrete keys of the examples.
    - [FalconSystem]: [falcon_core], the interface [Core] of [Falcon] implemented by [Keygen] and [Sign],
      and the system as a whole.

    A call of the API goes through [Falcon] to the codecs, to the point hash and to [Vrfy]; [Vrfy] uses
    [Ntt], which uses [Mq]; the sampler reads [Prng], which reads a [Shake] context.  [Falcon] calls key
    generation and signing through the class [Core], so that its theorems hold of any implementation.

    ** Conventions

    A C integer is a [Z] with its conversions written out ([u8], [u32], [i16], ...); an array is a list,
    [a !!! i] reads and [<[i := v]> a] writes; a loop is [for_up] or a [Fixpoint].  Arrays are values: a
    function returns the arrays it writes, and overlapping arguments are not modelled.  The target is
    little-endian with 64-bit pointers.  A function that can report an error returns an [outcome]:
    [Fail] is the error value, [Stuck] a read out of bounds or a loop that ran out of fuel, and the
    theorems about the API exclude [Stuck].  Functions without an error value return an [option], [None]
    playing the part of [Stuck].

    Fuel: [absorb_loop], [squeeze_loop], [inc_absorb_loop], [inc_squeeze_loop] and [get_bytes_loop] get one
    unit per byte, and each turn consumes a byte at least (they are proved total),
    and so do the blocks of [blocks_loop]; [size_loop] has the eight turns of its bound,
    [ecb_loop] one unit per block, [ctr_loop] and [expand_loop] one per byte at least;
    [hash_to_point_vartime], [sign_loop] and [sampler] loop until the random data is accepted, and the
    theorems give the number of turns that suffices in terms of that data.  [ber_loop] gets one unit for
    each of the eight bytes of its threshold, [Rx_loop] one for each bit of its exponent, [gcd_loop] one for each
    turn of the C loop, which counts down from 62 per word of the operands (62 len + 30): all are total.
    [babai_loop] gets one unit more than the scale of its quotient, which decreases by 25 down to 0, and
    [pow_loop] one for each bit of a 32-bit exponent: the NTRU solver is total.  [mkgauss_loop],
    [keygen_loop] and [sign_turns] are rejection loops, with the number of draws, candidates or attempts
    as fuel; the theorems say that they return the first success.

    ** What the theorems show

    - API: verification decides the Falcon relation on encoded keys and signatures, and nothing else is
      accepted ([verify_rpo_correct], [open_correct]); signing succeeds exactly when the sampler yields a
      short enough vector, and what it returns verifies ([sign_rpo_terminates], [sign_then_verify_rpo],
      [sign_open_roundtrip]); malformed private keys are refused ([sign_rpo_error]); generated keys are
      read back ([keypair_rpo_correct]), and come from the generator that SHAKE256 makes of the first eight bytes
      of the seed, the other forty being unused ([keypair_seed_truncated]).
    - The system ([system_correct]): with the models of key generation and of signing in place of the
      interface, a key pair made from a seed always encodes, signing with it never reports an error, and a
      signature verifies whenever the sampled point, rounded, is in the lattice.
    - Key generation: the NTRU solver always returns, and its check modulo one prime decides the equation
      over the integers ([solve_NTRU_correct]); the candidates kept are exactly those that pass the tests
      of the source, and they are key pairs ([keygen_try_correct], [keygen_correct]); the draws invert
      their table ([mkgauss_correct]).  That the solver succeeds on most candidates (its numeric quality)
      is not proved: nothing depends on it but the number of turns.
    - Signing: a vector is returned by the first attempt that is short enough, is the rounding of the
      sampled point, and is within the verifier's bound ([sign_correct]); it verifies as soon as the point
      is exact ([signature_verifies]).  How far the floating-point point is from the lattice (the error
      of the transforms) is not bounded here.
    - Lattice arithmetic: [verify_raw], [compute_public], [complete_private] and [verify_recover] against
      the ring; the transforms against evaluation and against the product of the ring.
    - Fast Fourier transform, in exact arithmetic: it is the evaluation at roots of X^n + 1, the inverse
      undoes it ([fft_correct]; the points are in the order of the code, which its comment gets wrong,
      [fft_order_differs]); sums, products, adjoints, quotients and the LDL decomposition are those of
      R[X]/(X^n + 1) ([fft_ring_correct]); split and merge separate even and odd coefficients
      ([fft_split_correct]).  The tables of the program are within 2^-51 of the exact ones
      ([fft_tables_accurate]); how rounding errors add up along a transform is not bounded.
    - Hashing: the RPO permutation refines matrix products and power maps over Z/p, is a bijection, and is
      what the vector back end computes in Montgomery form; absorbing and squeezing do not depend on how
      the data is cut; the constant-time and the variable-time hash to a point agree; Keccak-f against
      the definition of FIPS 202, and SHAKE and SHA-3 against its sponge ([shake256_correct],
      [sha3_correct]); SHA-2 against FIPS 180-4 ([sha2_correct]) and cSHAKE against SP 800-185
      ([cshake_correct]), from which the code departs when name and customization string are both empty
      ([cshake_empty_strings]).
    - AES: the bit-sliced program, key schedule included, computes FIPS 197 for the three key sizes
      ([aes_correct]); the seed expander returns its key stream however requests are cut, and refuses the
      others ([seedexpander_correct]).
    - Codecs: every encoding decodes, and every accepted string is the encoding of what it decodes to.
    - Norm tests: no overflow goes unnoticed.  Generator: it is ChaCha20 (RFC 8439), its reads stay inside
      the buffer.
    - Emulated floating point: every operation is correctly rounded in the sense of IEEE 754, results below
      the normal range being flushed to zero ([fpr_arith_correct], [fpr_convert_correct]).  Operands are
      zeros or normal numbers and overflow is excluded by hypothesis, as [fpr.h] does.
    - Sampler: the table is inverted exactly ([gaussian0_correct]), a trial accepts with probability exactly
      its threshold over 2^64 and the threshold is an exponential to a stated precision
      ([ber_exp_correct]), the first accepted candidate is returned ([sampler_correct]).  That the accepted
      candidates follow a discrete Gaussian law is not stated.
    - Key generation integers: modular arithmetic for every prime of the table, the transform against
      evaluation at the roots of X^n + 1 for every stride ([modp_ntt_correct]), residues determine the
      integers that are rebuilt from them, and the GCD returns valid cofactors whenever it returns 1; that
      it does return 1 for coprime operands (its convergence) is not proved.

    ** Not modelled

    The temporary buffers that hold several arrays one after the other are separate lists, so the moves
    that make room in them and the alignment of pointers ([align_fpr], [align_u32]) have no counterpart.
    Also outside: [randombytes.c] (system calls: its bytes are the state [entropy]), the allocation of contexts in
    [fips202.c], [sha2.c] and [aes.c], and every file that [build.rs] does not compile. *)

From Stdlib Require Import ZArith Lia.
From stdpp Require Import base numbers list.

#[global] Open Scope Z_scope.

(** * Machine integers

    A [w]-bit unsigned C integer is a [Z]; [wrap w] is the reduction C performs when a value is
    converted to (or an arithmetic result is stored in) an unsigned type of [w] bits. *)

Definition wrap (w z : Z) : Z := Z.land z (Z.ones w).

Declare Scope machine_scope.
Delimit Scope machine_scope with machine.
Abbreviation u8 := (wrap 8).
Abbreviation u16 := (wrap 16).
Abbreviation u32 := (wrap 32).
Abbreviation u64 := (wrap 64).
Abbreviation u128 := (wrap 128).

(** Two's complement reading of the [w] low bits: the conversion to a signed type. *)
Definition sext (w z : Z) : Z :=
  let v := wrap w z in if v <? 2 ^ (w - 1) then v else v - 2 ^ w.

Abbreviation i8 := (sext 8).
Abbreviation i16 := (sext 16).
Abbreviation i32 := (sext 32).
Abbreviation i64 := (sext 64).

Notation "x .<< n" := (Z.shiftl x n) (at level 36, left associativity) : machine_scope.
Notation "x .>> n" := (Z.shiftr x n) (at level 36, left associativity) : machine_scope.
Notation "x .& y" := (Z.land x y) (at level 37, left associativity) : machine_scope.
Notation "x .^ y" := (Z.lxor x y) (at level 38, left associativity) : machine_scope.
Notation "x .| y" := (Z.lor x y) (at level 39, left associativity) : machine_scope.
#[global] Open Scope machine_scope.

(** [in_width w z]: [z] is a value of an unsigned [w]-bit type. *)
Definition in_width (w z : Z) : Prop := 0 <= z < 2 ^ w.

(** Truth value of a C comparison. *)
Definition bit (b : bool) : Z := if b then 1 else 0.

Lemma wrap_mod w z : 0 <= w -> wrap w z = z mod 2 ^ w.
Proof. intros; unfold wrap; now apply Z.land_ones. Qed.

Lemma wrap_small w z : in_width w z -> wrap w z = z.
Proof.
  intros [H0 H1]. destruct (Z.le_gt_cases 0 w).
  - rewrite wrap_mod by lia. now apply Z.mod_small.
  - rewrite Z.pow_neg_r in H1 by lia. lia.
Qed.

Lemma in_width_le w w' z : w <= w' -> in_width w z -> in_width w' z.
Proof. intros Hw [H0 H1]. split; [done|]. eapply Z.lt_le_trans; [exact H1 | apply Z.pow_le_mono_r; lia]. Qed.

Lemma wrap_range w z : 0 <= w -> in_width w (wrap w z).
Proof. intros; rewrite wrap_mod by lia. apply Z.mod_pos_bound. apply Z.pow_pos_nonneg; lia. Qed.

Lemma wrap_idem w z : 0 <= w -> wrap w (wrap w z) = wrap w z.
Proof. intros; apply wrap_small, wrap_range; lia. Qed.

Lemma wrap_add_l w a b : 0 <= w -> wrap w (wrap w a + b) = wrap w (a + b).
Proof. intros; rewrite !wrap_mod by lia. apply Zplus_mod_idemp_l. Qed.

Lemma wrap_testbit w z k : 0 <= k -> 0 <= w -> Z.testbit (wrap w z) k = (k <? w) && Z.testbit z k.
Proof.
  intros. unfold wrap. rewrite Z.land_spec.
  destruct (Z.ltb_spec k w).
  - rewrite Z.ones_spec_low by lia. now rewrite andb_true_r.
  - rewrite Z.ones_spec_high by lia. now rewrite andb_false_r.
Qed.

Lemma lxor_width w a b : 0 <= w -> in_width w a -> in_width w b -> in_width w (a .^ b).
Proof.
  intros Hw Ha Hb. rewrite <- (wrap_small w a), <- (wrap_small w b) by done.
  replace (wrap w a .^ wrap w b) with (wrap w (a .^ b)); [now apply wrap_range|].
  apply Z.bits_inj'. intros k Hk. rewrite wrap_testbit, !Z.lxor_spec, !wrap_testbit by done.
  now destruct (k <? w).
Qed.

Lemma lor_width w a b : 0 <= w -> in_width w a -> in_width w b -> in_width w (a .| b).
Proof.
  intros Hw Ha Hb. rewrite <- (wrap_small w a), <- (wrap_small w b) by done.
  replace (wrap w a .| wrap w b) with (wrap w (a .| b)); [now apply wrap_range|].
  apply Z.bits_inj'. intros k Hk. rewrite wrap_testbit, !Z.lor_spec, !wrap_testbit by done.
  now destruct (k <? w).
Qed.

(** Flipping the [w] low bits. *)
Lemma lxor_ones w x : 0 <= w -> in_width w x -> x .^ Z.ones w = 2 ^ w - 1 - x.
Proof.
  unfold in_width. intros Hw Hx. assert (x .^ Z.ones w = Z.lnot x mod 2 ^ w) as ->.
  { rewrite <- Z.land_ones by lia. apply Z.bits_inj'. intros k Hk. rewrite Z.lxor_spec, Z.land_spec, Z.lnot_spec by done.
    destruct (Z.ltb_spec k w).
    - rewrite Z.ones_spec_low by lia. now destruct (Z.testbit x k).
    - rewrite Z.ones_spec_high by lia. rewrite xorb_false_r, andb_false_r. destruct (decide (x = 0)) as [->|Hx0]; [apply Z.bits_0|].
      apply Z.bits_above_log2; [lia|]. apply Z.log2_lt_pow2; [lia|]. eapply Z.lt_le_trans; [apply Hx | apply Z.pow_le_mono_r; lia]. }
  unfold Z.lnot. rewrite <- (Z.mod_unique (Z.pred (- x)) (2 ^ w) (-1) (2 ^ w - 1 - x)); lia.
Qed.

Lemma land_pow2 x i : 0 <= i -> x .& 2 ^ i = if Z.testbit x i then 2 ^ i else 0.
Proof.
  intros Hi. apply Z.bits_inj'. intros k Hk. rewrite Z.land_spec, Z.pow2_bits_eqb by done.
  destruct (Z.eqb_spec i k) as [->|Hne].
  - rewrite andb_true_r. destruct (Z.testbit x k); [now rewrite Z.pow2_bits_true | now rewrite Z.bits_0].
  - rewrite andb_false_r. destruct (Z.testbit x i); [now rewrite Z.pow2_bits_false | now rewrite Z.bits_0].
Qed.

(** Masks: all ones or zero, built from a bit. *)
Lemma mask_on w x c : 0 <= w -> in_width w x -> x .& wrap w (- bit c) = if c then x else 0.
Proof.
  intros Hw Hx. destruct c; cbn [bit].
  - assert (wrap w (Z.opp 1) = Z.ones w) as -> by apply Z.land_m1_l. now apply wrap_small.
  - change (- 0) with 0. unfold wrap. rewrite Z.land_0_l. apply Z.land_0_r.
Qed.

Lemma mask_off w x c : 0 <= w -> in_width w x -> x .& wrap w (bit c - 1) = if c then 0 else x.
Proof. intros Hw Hx. replace (bit c - 1) with (- bit (negb c)) by now destruct c. rewrite mask_on by done. now destruct c. Qed.

Lemma select_on w x y c : 0 <= w -> in_width w x -> in_width w y -> x .^ ((x .^ y) .& wrap w (- bit c)) = if c then y else x.
Proof.
  intros Hw Hx Hy. rewrite mask_on by (try apply lxor_width; done). destruct c; [|apply Z.lxor_0_r].
  now rewrite <- Z.lxor_assoc, Z.lxor_nilpotent, Z.lxor_0_l.
Qed.

Lemma select_off w x y c : 0 <= w -> in_width w x -> in_width w y -> x .^ ((x .^ y) .& wrap w (bit c - 1)) = if c then x else y.
Proof.
  intros Hw Hx Hy. replace (bit c - 1) with (- bit (negb c)) by now destruct c. rewrite select_on by done. now destruct c.
Qed.

(** The top bit of [x | -x] tells zero from the rest. *)
Lemma nonzero_flag w x : 0 < w -> in_width w x -> (x .| wrap w (- x)) .>> (w - 1) = bit (negb (x =? 0)).
Proof.
  intros Hw Hx. destruct (Z.eqb_spec x 0) as [->|Hne]; cbn [negb bit].
  - change (- 0) with 0. unfold wrap. rewrite Z.land_0_l, Z.lor_0_l. apply Z.shiftr_0_l.
  - unfold in_width in Hx. assert (2 ^ w = 2 * 2 ^ (w - 1)) as E by (rewrite <- Z.pow_succ_r by lia; f_equal; lia).
    assert (wrap w (- x) = 2 ^ w - x) as ->.
    { rewrite wrap_mod by lia. symmetry. apply (Z.mod_unique _ _ (-1)); lia. }
    assert (forall y, 0 <= y < 2 ^ w -> y .>> (w - 1) = 0 \/ y .>> (w - 1) = 1) as Hs.
    { intros y Hy. rewrite Z.shiftr_div_pow2 by lia. assert (0 <= y / 2 ^ (w - 1) < 2); [|lia].
      split; [apply Z.div_pos | apply Z.div_lt_upper_bound]; lia. }
    rewrite Z.shiftr_lor. assert (x .>> (w - 1) = 1 \/ (2 ^ w - x) .>> (w - 1) = 1) as H1.
    { rewrite !Z.shiftr_div_pow2 by lia. destruct (Z.lt_ge_cases x (2 ^ (w - 1))).
      - right. symmetry. apply (Z.div_unique _ _ _ (2 ^ w - x - 2 ^ (w - 1))); lia.
      - left. symmetry. apply (Z.div_unique _ _ _ (x - 2 ^ (w - 1))); lia. }
    pose proof (Hs x ltac:(lia)) as H2. pose proof (Hs (2 ^ w - x) ltac:(lia)) as H3.
    destruct H1 as [H1|H1]; rewrite H1; [destruct H3 as [->| ->] | destruct H2 as [->| ->]]; reflexivity.
Qed.

(** A condition on the top bit. *)
Lemma top_bit_flag w x : 0 < w -> in_width w x -> x .>> (w - 1) = bit (2 ^ (w - 1) <=? x).
Proof.
  intros Hw Hx. unfold in_width in Hx. rewrite Z.shiftr_div_pow2 by lia.
  assert (2 ^ w = 2 * 2 ^ (w - 1)) as E by (rewrite <- Z.pow_succ_r by lia; f_equal; lia). destruct (Z.leb_spec (2 ^ (w - 1)) x); cbn [bit].
  - symmetry. apply (Z.div_unique _ _ _ (x - 2 ^ (w - 1))); lia.
  - apply Z.div_small. lia.
Qed.

Lemma sext_range w z : 0 < w -> - 2 ^ (w - 1) <= sext w z < 2 ^ (w - 1).
Proof.
  intros Hw. unfold sext. pose proof (wrap_range w z ltac:(lia)) as H. unfold in_width in H.
  assert (2 ^ w = 2 * 2 ^ (w - 1)) as E by (rewrite <- Z.pow_succ_r by lia; f_equal; lia).
  destruct (Z.ltb_spec (wrap w z) (2 ^ (w - 1))); lia.
Qed.

Lemma sext_small w z : 0 < w -> - 2 ^ (w - 1) <= z < 2 ^ (w - 1) -> sext w z = z.
Proof.
  intros Hw Hz. unfold sext. rewrite wrap_mod by lia.
  assert (2 ^ w = 2 * 2 ^ (w - 1)) as Hp by (rewrite <- Z.pow_succ_r by lia; f_equal; lia).
  destruct (Z.le_gt_cases 0 z).
  - rewrite Z.mod_small by lia. destruct (Z.ltb_spec z (2 ^ (w - 1))); lia.
  - rewrite <- (Z.mod_unique z (2 ^ w) (-1) (z + 2 ^ w)) by lia.
    destruct (Z.ltb_spec (z + 2 ^ w) (2 ^ (w - 1))); lia.
Qed.

(** [widths]: turn every [wrap] into [mod] with the power of two evaluated. *)
Ltac widths :=
  repeat match goal with
         | H : in_width _ _ |- _ => unfold in_width in H
         | |- context [in_width _ _] => unfold in_width
         end;
  rewrite ?wrap_mod in * by lia;
  repeat match goal with
         | |- context [2 ^ ?n] => let v := eval vm_compute in (2 ^ n) in change (2 ^ n) with v
         | H : context [2 ^ ?n] |- _ => let v := eval vm_compute in (2 ^ n) in change (2 ^ n) with v in H
         end.

(** [word_lia]: linear goals about wrapped values, by Euclidean division. *)
Ltac word_lia := widths; Z.div_mod_to_equations; lia.
Ltac word_nia := widths; Z.div_mod_to_equations; nia.

(** Disjoint bit fields: [x << n | y] is a sum. *)
Lemma lor_shiftl_add x n y : 0 <= n -> 0 <= y < 2 ^ n -> (x .<< n) .| y = x * 2 ^ n + y.
Proof.
  intros Hn Hy. rewrite <- Z.shiftl_mul_pow2 by done. symmetry.
  rewrite <- (Z.mod_small y (2 ^ n)) by done. rewrite <- Z.land_ones by done.
  rewrite <- Z.add_lor_land. replace ((x .<< n) .& (y .& Z.ones n)) with 0; [lia|].
  symmetry. apply Z.bits_inj'. intros k Hk.
  rewrite !Z.land_spec, Z.shiftl_spec, Z.bits_0 by lia. destruct (Z.ltb_spec k n).
  - rewrite Z.testbit_neg_r by lia. done.
  - rewrite Z.ones_spec_high by lia. now rewrite !andb_false_r.
Qed.

#[export] Instance in_width_dec w z : Decision (in_width w z).
Proof. unfold in_width. apply _. Defined.

(** [by_decide]: a closed decidable statement, by evaluation. *)
Ltac by_decide := apply (bool_decide_eq_true_1 _); vm_compute; reflexivity.

(** * Counted loops

    [for_up lo hi body s] is [for (i = lo; i < hi; i ++) s = body(i, s)]. *)

Fixpoint for_loop {St} (n i : nat) (body : nat -> St -> St) (s : St) : St :=
  match n with
  | O => s
  | S n' => for_loop n' (S i) body (body i s)
  end.

Definition for_up {St} (lo hi : nat) (body : nat -> St -> St) (s : St) : St :=
  for_loop (hi - lo) lo body s.

Section Loops.
  Context {St : Type}.
  Implicit Types (body : nat -> St -> St) (P : nat -> St -> Prop).

Lemma for_loop_inv body P n : forall i s,
  P i s -> (forall k s, (i <= k < i + n)%nat -> P k s -> P (S k) (body k s)) ->
  P (i + n)%nat (for_loop n i body s).
Proof.
  induction n as [|n IH]; intros i s Hi Hs; simpl.
  - now rewrite Nat.add_0_r.
  - replace (i + S n)%nat with (S i + n)%nat by lia.
    apply IH; [apply Hs; [lia | done] | intros; apply Hs; [lia | done]].
Qed.

(** The loop rule: an invariant indexed by the loop variable. *)
Lemma for_up_inv body P lo hi s :
  (lo <= hi)%nat -> P lo s ->
  (forall k s, (lo <= k < hi)%nat -> P k s -> P (S k) (body k s)) ->
  P hi (for_up lo hi body s).
Proof.
  intros Hle Hlo Hstep. unfold for_up.
  replace hi with (lo + (hi - lo))%nat at 1 by lia.
  apply for_loop_inv; [done | intros; apply Hstep; [lia | done]].
Qed.

Lemma for_loop_ext body body' n : forall i s,
  (forall k s, (i <= k < i + n)%nat -> body k s = body' k s) ->
  for_loop n i body s = for_loop n i body' s.
Proof.
  induction n as [|n IH]; intros i s H; simpl; [done|].
  rewrite H by lia. apply IH. intros; apply H; lia.
Qed.

Lemma for_loop_snoc body n : forall i s,
  for_loop (S n) i body s = body (i + n)%nat (for_loop n i body s).
Proof.
  induction n as [|n IH]; intros i s; simpl; [now rewrite Nat.add_0_r|].
  change (for_loop (S n) (S i) body (body i s) = body (i + S n)%nat (for_loop n (S i) body (body i s))).
  rewrite IH. f_equal; lia.
Qed.

Lemma for_up_snoc body lo hi s :
  (lo <= hi)%nat -> for_up lo (S hi) body s = body hi (for_up lo hi body s).
Proof.
  intros. unfold for_up. replace (S hi - lo)%nat with (S (hi - lo)) by lia.
  rewrite for_loop_snoc. f_equal; lia.
Qed.

Lemma for_up_add body a b s :
  for_up 0 (a + b) body s = for_up 0 b (fun j s => body (a + j)%nat s) (for_up 0 a body s).
Proof.
  induction b as [|b IH]; [now rewrite Nat.add_0_r|].
  replace (a + S b)%nat with (S (a + b)) by lia. now rewrite !for_up_snoc, IH by lia.
Qed.

(** [foldl] over the indices is the loop. *)
Lemma for_up_foldl body n s : for_up 0 n body s = foldl (fun s i => body i s) s (seq 0 n).
Proof. induction n as [|n IH]; [done|]. rewrite for_up_snoc by lia. rewrite seq_S, foldl_app, IH. done. Qed.

Lemma for_up_ext body body' lo hi s :
  (forall k s, (lo <= k < hi)%nat -> body k s = body' k s) ->
  for_up lo hi body s = for_up lo hi body' s.
Proof. intros HE. apply for_loop_ext. intros; apply HE; lia. Qed.

(** Two loops of the same length stay related. *)
Lemma for_up_sim {St'} body (body' : nat -> St' -> St') (Rel : nat -> St -> St' -> Prop) lo lo' n s s' :
  Rel 0%nat s s' ->
  (forall k s s', (k < n)%nat -> Rel k s s' -> Rel (S k) (body (lo + k)%nat s) (body' (lo' + k)%nat s')) ->
  Rel n (for_up lo (lo + n) body s) (for_up lo' (lo' + n) body' s').
Proof.
  intros Hs Hb. unfold for_up. replace (lo + n - lo)%nat with n by lia. replace (lo' + n - lo')%nat with n by lia.
  enough (forall m i s s', (i + m = n)%nat -> Rel i s s' -> Rel n (for_loop m (lo + i) body s) (for_loop m (lo' + i) body' s')) as H.
  { specialize (H n 0%nat s s' ltac:(lia) Hs). now rewrite !Nat.add_0_r in H. }
  clear s s' Hs. induction m as [|m IH]; intros i s s' Hi Hs; simpl; [now replace i with n in Hs by lia|].
  rewrite <- !Nat.add_succ_r. apply IH; [lia|]. apply Hb; [lia | exact Hs].
Qed.

(** Two loops run side by side. *)
Lemma for_up_pair {St'} body (body' : nat -> St' -> St') lo hi s s' :
  for_up lo hi (fun u '(a, b) => (body u a, body' u b)) (s, s') = (for_up lo hi body s, for_up lo hi body' s').
Proof.
  unfold for_up. generalize (hi - lo)%nat as k. intros k. revert lo s s'.
  induction k as [|k IH]; intros lo s s'; simpl; [done | apply IH].
Qed.
End Loops.

(** [for_down n body s] is [for (i = n; i -- > 0;) s = body(i, s)]. *)
Fixpoint for_down {St} (n : nat) (body : nat -> St -> St) (s : St) : St :=
  match n with
  | O => s
  | S n => for_down n body (body n s)
  end.

Lemma for_down_inv {St} (body : nat -> St -> St) (P : nat -> St -> Prop) n : forall s,
  P n s -> (forall k s, (k < n)%nat -> P (S k) s -> P k (body k s)) -> P 0%nat (for_down n body s).
Proof.
  induction n as [|n IH]; intros s Hn Hs; simpl; [done|].
  apply IH; [apply Hs; [lia | done] | intros; apply Hs; [lia | done]].
Qed.

(** * Arrays

    C arrays are lists; [a !!! i] reads, [<[i := v]> a] writes.  The loops below stay in bounds,
    and the length lemmas of each component say so. *)

Section Arrays.
  Context {A : Type} `{Inhabited A}.
  Implicit Types (a b : list A) (f : nat -> A -> A).

Lemma list_eq_total a b :
  length a = length b -> (forall k, (k < length a)%nat -> a !!! k = b !!! k) -> a = b.
Proof.
  intros Hl Hk. apply (list_eq_same_length _ _ (length b)); [done | done |].
  intros i x y Hi Hx Hy.
  apply list_lookup_total_correct in Hx, Hy. subst. apply Hk. lia.
Qed.

(** The elementwise loop [for (u = 0; u < n; u ++) a[u] = f(u, a[u])]. *)
Lemma for_up_elementwise f n a :
  let r := for_up 0 n (fun u a => <[u := f u (a !!! u)]> a) a in
  length r = length a /\
  forall k, (k < length a)%nat -> r !!! k = if (k <? n)%nat then f k (a !!! k) else a !!! k.
Proof.
  cbv zeta. apply (for_up_inv _ (fun i r => length r = length a /\
    forall k, (k < length a)%nat -> r !!! k = if (k <? i)%nat then f k (a !!! k) else a !!! k)).
  - lia.
  - split; [done|]. intros k _. now destruct (Nat.ltb_spec k 0); [lia|].
  - intros i r Hi [Hl Hr]. split; [now rewrite length_insert|]. intros k Hk.
    destruct (decide (i = k)) as [->|Hne].
    + rewrite list_lookup_total_insert_eq by lia. rewrite Hr by lia.
      now destruct (Nat.ltb_spec k k), (Nat.ltb_spec k (S k)); try lia.
    + rewrite list_lookup_total_insert_ne, Hr by lia.
      destruct (Nat.ltb_spec k i), (Nat.ltb_spec k (S i)); try lia; done.
Qed.

Lemma lookup_total_imap f a k : (k < length a)%nat -> imap f a !!! k = f k (a !!! k).
Proof.
  intros Hk. apply list_lookup_total_correct. rewrite list_lookup_imap.
  now rewrite list_lookup_lookup_total_lt.
Qed.

Lemma for_up_imap f n a :
  length a = n -> for_up 0 n (fun u a => <[u := f u (a !!! u)]> a) a = imap f a.
Proof.
  intros Hn. destruct (for_up_elementwise f n a) as [Hl Hk]. apply list_eq_total.
  - now rewrite Hl, length_imap.
  - intros k Hlt. rewrite Hk, lookup_total_imap by lia.
    destruct (Nat.ltb_spec k n); [done | lia].
Qed.

Lemma for_up_length (body : nat -> list A -> list A) lo hi a :
  (forall k s, length (body k s) = length s) -> length (for_up lo hi body a) = length a.
Proof.
  intros HB. unfold for_up. generalize (hi - lo)%nat as n. intros n. revert lo a.
  induction n as [|n IH]; intros lo a; simpl; [done|]. now rewrite IH, HB.
Qed.

(** A loop that only updates the cell [i] is a loop on its value. *)
Lemma for_up_cell (h : nat -> A -> A) i n a :
  for_up 0 n (fun j a => <[i := h j (a !!! i)]> a) a = <[i := for_up 0 n h (a !!! i)]> a.
Proof.
  induction n as [|n IH].
  - change (a = <[i := a !!! i]> a). destruct (decide (i < length a)%nat) as [Hi|Hi].
    + symmetry. apply list_insert_id. now apply list_lookup_lookup_total_lt.
    + now rewrite list_insert_ge by lia.
  - rewrite !for_up_snoc by lia. rewrite IH. destruct (decide (i < length a)%nat) as [Hi|Hi].
    + rewrite list_lookup_total_insert_eq by done. now rewrite list_insert_insert_eq.
    + now rewrite !list_insert_ge by (rewrite ?length_insert; lia).
Qed.
End Arrays.

Lemma Forall_lookup_total {A} `{Inhabited A} (P : A -> Prop) (l : list A) :
  Forall P l <-> forall k, (k < length l)%nat -> P (l !!! k).
Proof.
  rewrite Forall_lookup. split.
  - intros HP k Hk. apply (HP k). now apply list_lookup_lookup_total_lt.
  - intros HP k x Hx. rewrite <- (list_lookup_total_correct _ _ _ Hx).
    apply HP. now apply lookup_lt_Some in Hx.
Qed.

(** * Outcomes of a C function that can reject its input

    [Fail]: the function returned its error value.  [Stuck]: the run left defined behaviour (a read
    past the end of the input) or a fuelled loop ran out; the safety theorems exclude it. *)

Inductive outcome (A : Type) :=
  | Done (a : A)
  | Fail
  | Stuck.
Arguments Done {A} a.
Arguments Fail {A}.
Arguments Stuck {A}.

#[global] Instance outcome_ret : MRet outcome := @Done.
#[global] Instance outcome_bind : MBind outcome := fun A B f o =>
  match o with Done a => f a | Fail => Fail | Stuck => Stuck end.

(** [if (b) return -1;]. *)
Definition fail_if (b : bool) : outcome unit := if b then Fail else Done tt.

(** A call without an error value: [None] is a run that leaves defined behaviour or its fuel. *)
Definition no_fail {A} (o : option A) : outcome A := match o with Some a => Done a | None => Stuck end.

Lemma bind_Done {A B} (o : outcome A) (f : A -> outcome B) b :
  (o ≫= f) = Done b <-> exists a, o = Done a /\ f a = Done b.
Proof. destruct o; simpl; naive_solver. Qed.

Lemma no_fail_Done {A} (o : option A) a : no_fail o = Done a <-> o = Some a.
Proof. destruct o; simpl; naive_solver. Qed.

(** A composition is defined when each part is. *)
Lemma bind_defined {A B} (o : outcome A) (f : A -> outcome B) :
  o <> Stuck -> (forall a, o = Done a -> f a <> Stuck) -> (o ≫= f) <> Stuck.
Proof. destruct o; simpl; naive_solver. Qed.

Lemma fail_if_defined {A} b (o : outcome A) : o <> Stuck -> (fail_if b ;; o) <> Stuck.
Proof. now destruct b. Qed.

Lemma fail_if_Done b : fail_if b = Done tt <-> b = false.
Proof. now destruct b. Qed.

Lemma pow2_nat_pos k : (0 < 2 ^ k)%nat.
Proof. apply Nat.neq_0_lt_0, Nat.pow_nonzero. lia. Qed.

(** * Congruence modulo [m], as a setoid *)

Definition cong (m a b : Z) : Prop := (m | a - b).

Notation "a ≡[ m ] b" := (cong m a b) (at level 70, m at level 200, no associativity, format "a  ≡[ m ]  b") : Z_scope.

Lemma cong_mod_iff m a b : 0 < m -> a ≡[m] b <-> a mod m = b mod m.
Proof.
  intros Hm. unfold cong. split.
  - intros [k Hk]. replace a with (b + k * m) by lia. apply Z_mod_plus_full.
  - intros H. exists (a / m - b / m). pose proof (Z.div_mod a m). pose proof (Z.div_mod b m). nia.
Qed.

(** A multiple of the modulus witnesses a congruence, and conversely. *)
Lemma cong_intro m a b k : a = b + m * k -> a ≡[m] b.
Proof. intros ->. exists k. ring. Qed.

Lemma cong_elim m a b : a ≡[m] b -> exists k, a = b + m * k.
Proof. intros [k Hk]. exists k. lia. Qed.

#[global] Instance cong_equiv m : Equivalence (cong m).
Proof.
  split.
  - intros a. apply (cong_intro _ _ _ 0). ring.
  - intros a b [k ->]%cong_elim. apply (cong_intro _ _ _ (- k)). ring.
  - intros a b c [k ->]%cong_elim [l ->]%cong_elim. apply (cong_intro _ _ _ (k + l)). ring.
Qed.

#[global] Instance cong_add m : Proper (cong m ==> cong m ==> cong m) Z.add.
Proof. intros a b [k ->]%cong_elim c d [l ->]%cong_elim. apply (cong_intro _ _ _ (k + l)). ring. Qed.

#[global] Instance cong_sub m : Proper (cong m ==> cong m ==> cong m) Z.sub.
Proof. intros a b [k ->]%cong_elim c d [l ->]%cong_elim. apply (cong_intro _ _ _ (k - l)). ring. Qed.

#[global] Instance cong_mul m : Proper (cong m ==> cong m ==> cong m) Z.mul.
Proof.
  intros a b [k ->]%cong_elim c d [l ->]%cong_elim.
  apply (cong_intro _ _ _ (b * l + k * d + m * k * l)). ring.
Qed.

#[global] Instance cong_opp m : Proper (cong m ==> cong m) Z.opp.
Proof. intros a b [k ->]%cong_elim. apply (cong_intro _ _ _ (- k)). ring. Qed.

#[global] Instance cong_pow m : Proper (cong m ==> eq ==> cong m) Z.pow.
Proof.
  intros a b Hab n ? <-. destruct (Z.le_gt_cases 0 n) as [Hn|Hn].
  - pattern n. apply natlike_ind; [reflexivity | | done].
    intros k Hk IH. rewrite !Z.pow_succ_r by done. now apply cong_mul.
  - rewrite !Z.pow_neg_r by done. reflexivity.
Qed.

Lemma cong_mod m a : 0 < m -> a mod m ≡[m] a.
Proof. intros Hm. apply cong_mod_iff; [done|]. apply Zmod_mod. Qed.

Lemma cong_eq m a b : 0 <= a < m -> 0 <= b < m -> a ≡[m] b -> a = b.
Proof.
  intros Ha Hb H%cong_mod_iff; [|lia]. rewrite <- (Z.mod_small a m), <- (Z.mod_small b m); lia.
Qed.

(** A canonical representative is the residue. *)
Lemma cong_canonical m a b : 0 <= a < m -> a ≡[m] b -> a = b mod m.
Proof.
  intros Ha H. apply (cong_eq m); [done | apply Z.mod_pos_bound; lia |].
  rewrite cong_mod by lia. done.
Qed.

Lemma cong_add_mul m a k : a + m * k ≡[m] a.
Proof. now apply (cong_intro _ _ _ k). Qed.

Create HintDb machine.
Create Rewrite HintDb len.
#[export] Hint Resolve wrap_range cong_mod : machine.
#[export] Hint Rewrite @length_insert @length_imap @length_fmap @length_app @length_replicate : len.
