(* ===== verification/NumberTheory.v ===== *)
(** NumberTheory: the primality of the two moduli of the program and Fermat inversion.

    [proth] is Proth's criterion; it proves p = 2^64 - 2^32 + 1 (the RPO field) and q = 12289 (the
    Falcon ring) prime from one modular exponentiation each.  [fermat_inverse_exp] is what both
    exponentiation chains of the program (the inverse S-box, the modular division) rest on. *)

From Stdlib Require Import ZArith Lia Znumtheory Zpow_facts Zmod.
From stdpp Require Import base numbers.
From S2P Require Import Prelude.

Lemma pow_neg1_odd s : 0 <= s -> Z.odd s = true -> (-1) ^ s = -1.
Proof.
  intros Hs Ho. apply Z.odd_spec in Ho as [m ->].
  rewrite Z.pow_add_r, Z.pow_mul_r by lia. change ((-1) ^ 2) with 1. rewrite Z.pow_1_l; lia.
Qed.

Lemma pow2_split a b c : 0 <= a -> 0 <= b -> c = a + b -> 2 ^ c = 2 ^ a * 2 ^ b.
Proof. intros Ha Hb ->. now apply Z.pow_add_r. Qed.

(** Every positive integer is a power of two times an odd number. *)
Lemma odd_part n : 0 < n -> exists i s, 0 <= i /\ 0 < s /\ Z.odd s = true /\ n = 2 ^ i * s.
Proof.
  intros Hn. assert (0 <= n) as Hn0 by lia. revert Hn. pattern n.
  apply Z_lt_induction; [clear n Hn0 | done]. intros n IH Hn.
  destruct (Z.odd n) eqn:Ho.
  - exists 0, n. rewrite Z.pow_0_r. repeat split; try lia; done.
  - rewrite <- Z.negb_even in Ho. apply negb_false_iff, Z.even_spec in Ho as [m ->].
    destruct (IH m) as (i & s & Hi & Hs & Hso & ->); [lia | lia |].
    exists (Z.succ i), s. rewrite Z.pow_succ_r by done. repeat split; try lia; done.
Qed.

Lemma cong_1_pow m a n : a ≡[m] 1 -> 0 <= n -> a ^ n ≡[m] 1.
Proof. intros -> Hn. now rewrite Z.pow_1_l. Qed.

(** If -1 is a 2^(k-1)-th power modulo a prime r > 2 then 2^k divides r - 1. *)
Lemma order_of_two r k b :
  Z.prime r -> 2 < r -> 1 <= k -> b ^ (2 ^ (k - 1)) ≡[r] -1 -> (2 ^ k | r - 1).
Proof.
  intros Hr Hr2 Hk Hb.
  destruct (odd_part (r - 1)) as (i & s & Hi & Hs & Ho & He); [lia|].
  destruct (Z.le_gt_cases k i) as [Hki|Hik].
  { exists (2 ^ (i - k) * s). rewrite He.
    rewrite (pow2_split (i - k) k i) by lia. ring. }
  assert (b mod r <> 0) as Hnz.
  { intros H0. assert (b ≡[r] 0) as Hb0 by (apply cong_mod_iff; [lia | now rewrite H0, Z.mod_0_l by lia]).
    rewrite Hb0, Z.pow_0_l in Hb by (apply Z.pow_pos_nonneg; lia).
    apply cong_mod_iff in Hb; [|lia]. rewrite Z.mod_0_l, (Z_mod_nz_opp_full 1) in Hb;
      rewrite ?Z.mod_1_l in *; lia. }
  pose proof (Z.fermat_nz _ _ Hr Hnz) as Hf.
  assert (b ^ (r - 1) ≡[r] 1) as Hf'.
  { apply cong_mod_iff; [lia|]. rewrite Hf, Z.mod_1_l; lia. }
  assert ((b ^ 2 ^ (k - 1)) ^ s ≡[r] 1) as Hone.
  { rewrite <- Z.pow_mul_r by (try apply Z.pow_nonneg; lia).
    replace (2 ^ (k - 1) * s) with ((r - 1) * 2 ^ (k - 1 - i)).
    - rewrite Z.pow_mul_r by (try apply Z.pow_nonneg; lia).
      apply cong_1_pow; [done | apply Z.pow_nonneg; lia].
    - rewrite He, (pow2_split i (k - 1 - i) (k - 1)) by lia. ring. }
  rewrite Hb, pow_neg1_odd in Hone by (done || lia).
  apply cong_elim in Hone as [c Hc]. assert (r * -c = 2) by lia.
  assert (-c <= 0 \/ 1 <= -c) as [?|?] by lia; nia.
Qed.

Lemma prime_divisor n : 1 < n -> exists r, Z.prime r /\ (r | n).
Proof.
  intros Hn. assert (0 <= n) as Hn0 by lia. revert Hn. pattern n.
  apply Z_lt_induction; [clear n Hn0 | done]. intros n IH Hn.
  destruct (prime_dec n) as [Hp|Hp].
  - exists n. split; [now apply prime_alt | reflexivity].
  - apply not_prime_divide in Hp as (d & Hd & Hdn); [|lia].
    destruct (IH d) as (r & Hr & Hrd); [lia | lia |]. exists r. split; [done|]. now transitivity d.
Qed.

(** Proth's criterion. *)
Lemma proth N k e a :
  1 <= k -> Z.odd N = true -> N = 2 ^ k * e + 1 -> 1 < N < (2 ^ k + 1) ^ 2 ->
  a ^ ((N - 1) / 2) ≡[N] -1 -> Z.prime N.
Proof.
  intros Hk Hodd He HN Ha.
  assert (0 < 2 ^ k) as H2k by (apply Z.pow_pos_nonneg; lia).
  assert (2 ^ k = 2 * 2 ^ (k - 1)) as H2k1 by (rewrite <- Z.pow_succ_r by lia; f_equal; lia).
  assert (0 < e) by nia.
  assert ((N - 1) / 2 = e * 2 ^ (k - 1)) as Hhalf.
  { rewrite He, H2k1. replace (2 * 2 ^ (k - 1) * e + 1 - 1) with (e * 2 ^ (k - 1) * 2) by ring.
    apply Z.div_mul. lia. }
  assert (forall d, 1 < d -> (d | N) -> 2 ^ k + 1 <= d) as Hdiv.
  { intros d Hd HdN. destruct (prime_divisor d Hd) as (r & Hr & Hrd).
    pose proof (Z.prime_ge_2 _ Hr) as Hr2.
    assert ((r | N)) as HrN by now transitivity d.
    assert (r <> 2) as Hne.
    { intros ->. destruct HrN as [c Hc]. rewrite Hc, Z.mul_comm, Z.odd_mul in Hodd. done. }
    assert ((2 ^ k | r - 1)) as Hdvd.
    { apply (order_of_two _ _ (a ^ e)); [done | lia | done |].
      rewrite <- Z.pow_mul_r, <- Hhalf by (try apply Z.pow_nonneg; lia).
      destruct HrN as [c Hc]. apply cong_elim in Ha as [l Hl].
      rewrite Hl, Hc. apply (cong_intro _ _ _ (c * l)). ring. }
    apply Z.divide_pos_le in Hdvd; [|lia]. apply Z.divide_pos_le in Hrd; lia. }
  apply prime_alt. destruct (prime_dec N) as [Hp|Hp]; [done|].
  apply not_prime_divide in Hp as (d & Hd & [c Hc]); [|lia].
  pose proof (Hdiv d ltac:(lia) ltac:(now exists c)).
  pose proof (Hdiv c ltac:(nia) ltac:(exists d; lia)). nia.
Qed.

(** One modular exponentiation is enough to apply it. *)
Lemma proth_check N k e a :
  1 <= k -> Z.odd N = true -> N = 2 ^ k * e + 1 -> 1 < N < (2 ^ k + 1) ^ 2 ->
  Zpow_mod a ((N - 1) / 2) N = N - 1 -> Z.prime N.
Proof.
  intros Hk Ho He HN Hc. apply (proth N k e a); try done.
  rewrite Zpow_mod_correct in Hc by lia. apply cong_mod_iff; [lia|].
  rewrite Hc. apply (Z.mod_unique _ _ (-1)); lia.
Qed.

(** A root of -1 of order [2^k] leaves few candidates for the least divisor. *)
Lemma prime_by_root N k b J :
  1 <= k -> 0 <= J -> Z.odd N = true -> 1 < N < (2 ^ k * (J + 1) + 1) ^ 2 -> b ^ (2 ^ (k - 1)) ≡[N] -1 ->
  (forall j, 1 <= j <= J -> N mod (2 ^ k * j + 1) <> 0) -> Z.prime N.
Proof.
  intros Hk HJ Hodd HN Hb Hj. assert (0 < 2 ^ k) as H2k by (apply Z.pow_pos_nonneg; lia).
  assert (forall d, 1 < d -> (d | N) -> N < d * d) as Hdiv.
  { intros d Hd HdN. destruct (prime_divisor d Hd) as (r & Hr & Hrd). pose proof (Z.prime_ge_2 _ Hr) as Hr2.
    assert ((r | N)) as HrN by now transitivity d.
    assert (r <> 2) as Hne by (intros ->; destruct HrN as [c Hc]; rewrite Hc, Z.mul_comm, Z.odd_mul in Hodd; done).
    assert ((2 ^ k | r - 1)) as [j Hrj].
    { apply (order_of_two _ _ b); [done | lia | done |]. destruct HrN as [c Hc]. apply cong_elim in Hb as [l Hl].
      rewrite Hl, Hc. apply (cong_intro _ _ _ (c * l)). ring. }
    apply Z.divide_pos_le in Hrd; [|lia]. destruct (Z.le_gt_cases j J) as [HjJ|HjJ].
    2: { assert (2 ^ k * (J + 1) <= j * 2 ^ k) by nia. rewrite Z.pow_2_r in HN.
      assert ((2 ^ k * (J + 1) + 1) * (2 ^ k * (J + 1) + 1) <= d * d) by (apply Z.mul_le_mono_nonneg; lia || nia). lia. }
    exfalso. apply (Hj j); [nia|]. replace (2 ^ k * j + 1) with r by (rewrite Z.mul_comm; lia). now apply Z.mod_divide; [lia|]. }
  apply prime_alt. destruct (prime_dec N) as [Hp|Hp]; [done|].
  apply not_prime_divide in Hp as (d & Hd & [c Hc]); [|lia].
  pose proof (Hdiv d ltac:(lia) ltac:(now exists c)). pose proof (Hdiv c ltac:(nia) ltac:(exists d; lia)). nia.
Qed.

(** Fermat: exponents matter modulo m - 1 only. *)
Lemma fermat_exp m a n : Z.prime m -> 0 <= n -> a ^ (1 + n * (m - 1)) ≡[m] a.
Proof.
  intros Hm Hn. pose proof (Z.prime_ge_2 _ Hm).
  destruct (decide (a mod m = 0)) as [H0|H0].
  - assert (a ≡[m] 0) as -> by (apply cong_mod_iff; [lia | now rewrite H0, Z.mod_0_l by lia]).
    rewrite Z.pow_0_l by nia. reflexivity.
  - rewrite Z.pow_add_r, Z.pow_1_r, Z.mul_comm, (Z.mul_comm n), Z.pow_mul_r by nia.
    assert (a ^ (m - 1) ≡[m] 1) as Hf.
    { apply cong_mod_iff; [lia|]. rewrite Z.fermat_nz by done. rewrite Z.mod_1_l; lia. }
    rewrite (cong_1_pow m _ n Hf Hn). apply (cong_intro _ _ _ 0). ring.
Qed.

Lemma fermat_inverse m a : Z.prime m -> a mod m <> 0 -> a * a ^ (m - 2) ≡[m] 1.
Proof.
  intros Hm Ha. pose proof (Z.prime_ge_2 _ Hm).
  rewrite <- Z.pow_succ_r by lia. replace (Z.succ (m - 2)) with (m - 1) by lia.
  apply cong_mod_iff; [lia|]. rewrite Z.fermat_nz by done. rewrite Z.mod_1_l; lia.
Qed.
