(* ===== verification/RpoField.v ===== *)
(** RpoField: the 64-bit prime field of [rpo.c] (p = 2^64 - 2^32 + 1).

    [add_mod_p], [sub_mod_p], [reduce_mod_p] and [mult_mod_p] are the four static functions of the
    file, on 64-bit words with their carries written out.  The specification lemmas say what each
    computes in Z/p and on which inputs; the point of [mult_mod_p_spec] is that both operands range
    over every 64-bit word, canonical or not. *)

From Stdlib Require Import ZArith Lia.
From stdpp Require Import base numbers list.
From S2P Require Import Prelude.

(** [#define P], the prime modulus. *)
Definition P : Z := 0xFFFFFFFF00000001.

Definition add_mod_p (a b : Z) : Z :=
  let a := u64 (P - a) in
  let res := u64 (b - a) in
  if b <? a then u64 (res + P) else res.

Definition sub_mod_p (a b : Z) : Z :=
  let r := u64 (a - b) in
  if a <? b then u64 (r + P) else r.

Definition reduce_mod_p (b a : Z) : Z :=
  let d := u32 (b .>> 32) in
  let c := u32 b in
  let a := if P <=? a then u64 (a - P) else a in
  let a := sub_mod_p a c in
  let a := sub_mod_p a d in
  add_mod_p a (u64 (c .<< 32)).

Definition mult_mod_p (x y : Z) : Z :=
  let a := u32 x in
  let b := u32 (x .>> 32) in
  let c := u32 y in
  let d := u32 (y .>> 32) in
  (* first synthesize the product using 32*32 -> 64 bit multiplies *)
  let x := u64 (b * c) in
  let y := u64 (a * d) in
  let e := u64 (a * c) in
  let f := u64 (b * d) in
  let x := u64 (x + y) in
  let f := if x <? y then u64 (f + (1 .<< 32)) else f in
  let t := u64 (x .<< 32) in
  let e := u64 (e + t) in
  let f := if e <? t then u64 (f + 1) else f in
  let t := x .>> 32 in
  let f := u64 (f + t) in
  reduce_mod_p f e.

(** A canonical residue. *)
Definition canonical (x : Z) : Prop := 0 <= x < P.

#[export] Instance canonical_dec x : Decision (canonical x).
Proof. unfold canonical. apply _. Defined.

Lemma P_pos : 0 < P.
Proof. reflexivity. Qed.
#[export] Hint Resolve P_pos : machine.

Lemma P_value : P = 18446744069414584321.
Proof. reflexivity. Qed.

Lemma canonical_width x : canonical x -> in_width 64 x.
Proof. unfold canonical, in_width. rewrite P_value. lia. Qed.
#[export] Hint Resolve canonical_width : machine.

Lemma canonical_mod x : canonical (x mod P).
Proof. apply Z.mod_pos_bound, P_pos. Qed.
#[export] Hint Resolve canonical_mod : machine.

Lemma sub_mod_p_spec a b : canonical a -> canonical b -> sub_mod_p a b = (a - b) mod P.
Proof.
  unfold canonical, sub_mod_p. rewrite P_value. intros Ha Hb.
  destruct (Z.ltb_spec a b); word_lia.
Qed.

Lemma add_mod_p_spec a b : canonical a -> canonical b -> add_mod_p a b = (a + b) mod P.
Proof.
  unfold canonical, add_mod_p. rewrite P_value. intros Ha Hb.
  rewrite (wrap_small 64 (_ - a)) by (unfold in_width; lia).
  destruct (Z.ltb_spec b (18446744069414584321 - a)); word_lia.
Qed.

Lemma shiftl32 x : x .<< 32 = x * 2 ^ 32.
Proof. now rewrite Z.shiftl_mul_pow2. Qed.

Lemma shiftr32 x : x .>> 32 = x / 2 ^ 32.
Proof. now rewrite Z.shiftr_div_pow2. Qed.

(** A 64-bit word is the pair of its 32-bit halves. *)
Lemma halves x : in_width 64 x ->
  x = u32 (x .>> 32) * 2 ^ 32 + u32 x /\ in_width 32 (u32 (x .>> 32)) /\ in_width 32 (u32 x).
Proof. intros Hx. rewrite shiftr32. repeat split; word_lia. Qed.

(** 2^64 = 2^32 - 1 and 2^96 = -1 modulo p: the reduction of a 128-bit value. *)
Lemma reduce_mod_p_spec b a :
  in_width 64 b -> in_width 64 a -> reduce_mod_p b a = (b * 2 ^ 64 + a) mod P.
Proof.
  intros Hb Ha. unfold reduce_mod_p. destruct (halves b Hb) as (Hbe & Hd & Hc).
  set (d := u32 (b .>> 32)) in *. set (c := u32 b) in *.
  set (a1 := if P <=? a then u64 (a - P) else a).
  assert (canonical a1 /\ a1 ≡[P] a) as [Ha1 Hc1].
  { unfold a1, canonical. destruct (Z.leb_spec P a) as [H|H].
    - rewrite wrap_small; [| revert H Ha; unfold in_width; rewrite P_value; lia].
      split; [revert H Ha; unfold in_width; rewrite P_value; lia |].
      apply (cong_intro _ _ _ (-1)). ring.
    - split; [unfold in_width in Ha; lia | reflexivity]. }
  assert (forall x, in_width 32 x -> canonical x) as Hcan.
  { unfold in_width, canonical. intros. rewrite P_value. lia. }
  assert (canonical (c * 2 ^ 32)) as Hc32.
  { unfold in_width in Hc. unfold canonical. rewrite P_value. lia. }
  rewrite shiftl32, (wrap_small 64 (c * _)) by auto with machine.
  rewrite (sub_mod_p_spec a1 c), sub_mod_p_spec, add_mod_p_spec by auto with machine.
  apply cong_mod_iff; [apply P_pos|]. rewrite !cong_mod by apply P_pos. rewrite Hc1, Hbe.
  apply (cong_intro _ _ _ (- d * (2 ^ 32 + 1) - c)). rewrite P_value. ring.
Qed.

(** The four partial products recombine to the exact 128-bit product. *)
Lemma mult_mod_p_spec x y :
  in_width 64 x -> in_width 64 y -> mult_mod_p x y = (x * y) mod P.
Proof.
  intros Hx Hy. unfold mult_mod_p.
  destruct (halves x Hx) as (Hxe & Hb & Ha). destruct (halves y Hy) as (Hye & Hd & Hc).
  set (a := u32 x) in *. set (b := u32 (x .>> 32)) in *.
  set (c := u32 y) in *. set (d := u32 (y .>> 32)) in *.
  clearbody a b c d. clear Hx Hy. unfold in_width in Ha, Hb, Hc, Hd.
  assert (0 <= a * c <= (2 ^ 32 - 1) ^ 2) by nia. assert (0 <= b * c <= (2 ^ 32 - 1) ^ 2) by nia.
  assert (0 <= a * d <= (2 ^ 32 - 1) ^ 2) by nia. assert (0 <= b * d <= (2 ^ 32 - 1) ^ 2) by nia.
  assert (x * y = b * d * 2 ^ 64 + (b * c + a * d) * 2 ^ 32 + a * c) as -> by (subst; ring).
  assert (0 <= b * d * 2 ^ 64 + (b * c + a * d) * 2 ^ 32 + a * c < 2 ^ 128) as Hprod.
  { replace (b * d * 2 ^ 64 + (b * c + a * d) * 2 ^ 32 + a * c)
      with ((b * 2 ^ 32 + a) * (d * 2 ^ 32 + c)) by ring. nia. }
  set (ac := a * c) in *. set (bc := b * c) in *. set (ad := a * d) in *. set (bd := b * d) in *.
  clearbody ac bc ad bd.
  rewrite (wrap_small 64 bc), (wrap_small 64 ad), (wrap_small 64 ac), (wrap_small 64 bd)
    by (unfold in_width; lia).
  rewrite !shiftl32, shiftr32.
  match goal with |- reduce_mod_p ?f ?e = _ =>
    assert (in_width 64 f /\ in_width 64 e /\ f * 2 ^ 64 + e = bd * 2 ^ 64 + (bc + ad) * 2 ^ 32 + ac)
      as (Hf & He & <-) end.
  2: now apply reduce_mod_p_spec.
  destruct (Z.ltb_spec (u64 (bc + ad)) ad);
    destruct (Z.ltb_spec (u64 (ac + u64 (u64 (bc + ad) * 2 ^ 32))) (u64 (u64 (bc + ad) * 2 ^ 32)));
    repeat split; word_lia.
Qed.

Lemma mult_mod_p_canonical x y :
  in_width 64 x -> in_width 64 y -> canonical (mult_mod_p x y).
Proof. intros. rewrite mult_mod_p_spec by done. auto with machine. Qed.
#[export] Hint Resolve mult_mod_p_canonical : machine.

(** The field operations compute in Z/p: [mult_mod_p] and [reduce_mod_p] reduce
    every pair of 64-bit words exactly (no carry is lost), [add_mod_p] and [sub_mod_p] are exact on
    canonical residues, and every result is canonical. *)
Theorem field_ops_correct (x y : Z) :
  in_width 64 x -> in_width 64 y ->
  mult_mod_p x y = (x * y) mod P /\ reduce_mod_p x y = (x * 2 ^ 64 + y) mod P /\
  (canonical x -> canonical y -> add_mod_p x y = (x + y) mod P /\ sub_mod_p x y = (x - y) mod P).
Proof.
  intros Hx Hy. split; [now apply mult_mod_p_spec|]. split; [now apply reduce_mod_p_spec|].
  intros Hcx Hcy. split; [now apply add_mod_p_spec | now apply sub_mod_p_spec].
Qed.

Lemma field_ops_correct_witness :
  in_width 64 (2 ^ 64 - 1) /\ mult_mod_p (2 ^ 64 - 1) (2 ^ 64 - 1) = ((2 ^ 64 - 1) * (2 ^ 64 - 1)) mod P.
Proof.
  assert (in_width 64 (2 ^ 64 - 1)) as H by by_decide.
  split; [exact H|]. exact (proj1 (field_ops_correct _ _ H H)).
Defined.
