(* ===== verification/RpoPermutation.v ===== *)
(** RpoPermutation: the RPO permutation of [rpo.c] on a state of twelve 64-bit words.

    The operations are the static functions [apply_mds], [apply_constants], [apply_sbox],
    [exp_acc], [apply_inv_sbox], [apply_round] and [apply_permutation], loop for loop.  The
    reference they refine is [Spec]: matrix product, constant addition and the two power maps on
    residues modulo p.  [Inverse] gives the inverse permutation explicitly. *)

From Stdlib Require Import ZArith Lia Zpow_facts.
From stdpp Require Import base numbers list.
From S2P Require Import Prelude NumberTheory RpoField.

Definition STATE_WIDTH : nat := 12.
Definition NUM_ROUNDS : nat := 7.

Definition MDS : list (list Z) :=
  [ [7; 23; 8; 26; 13; 10; 9; 7; 6; 22; 21; 8];
    [8; 7; 23; 8; 26; 13; 10; 9; 7; 6; 22; 21];
    [21; 8; 7; 23; 8; 26; 13; 10; 9; 7; 6; 22];
    [22; 21; 8; 7; 23; 8; 26; 13; 10; 9; 7; 6];
    [6; 22; 21; 8; 7; 23; 8; 26; 13; 10; 9; 7];
    [7; 6; 22; 21; 8; 7; 23; 8; 26; 13; 10; 9];
    [9; 7; 6; 22; 21; 8; 7; 23; 8; 26; 13; 10];
    [10; 9; 7; 6; 22; 21; 8; 7; 23; 8; 26; 13];
    [13; 10; 9; 7; 6; 22; 21; 8; 7; 23; 8; 26];
    [26; 13; 10; 9; 7; 6; 22; 21; 8; 7; 23; 8];
    [8; 26; 13; 10; 9; 7; 6; 22; 21; 8; 7; 23];
    [23; 8; 26; 13; 10; 9; 7; 6; 22; 21; 8; 7] ].

Definition ARK1 : list (list Z) :=
  [ [5789762306288267392; 6522564764413701783; 17809893479458208203; 107145243989736508;
     6388978042437517382; 15844067734406016715; 9975000513555218239; 3344984123768313364;
     9959189626657347191; 12960773468763563665; 9602914297752488475; 16657542370200465908];
    [12987190162843096997; 653957632802705281; 4441654670647621225; 4038207883745915761;
     5613464648874830118; 13222989726778338773; 3037761201230264149; 16683759727265180203;
     8337364536491240715; 3227397518293416448; 8110510111539674682; 2872078294163232137];
    [18072785500942327487; 6200974112677013481; 17682092219085884187; 10599526828986756440;
     975003873302957338; 8264241093196931281; 10065763900435475170; 2181131744534710197;
     6317303992309418647; 1401440938888741532; 8884468225181997494; 13066900325715521532];
    [5674685213610121970; 5759084860419474071; 13943282657648897737; 1352748651966375394;
     17110913224029905221; 1003883795902368422; 4141870621881018291; 8121410972417424656;
     14300518605864919529; 13712227150607670181; 17021852944633065291; 6252096473787587650];
    [4887609836208846458; 3027115137917284492; 9595098600469470675; 10528569829048484079;
     7864689113198939815; 17533723827845969040; 5781638039037710951; 17024078752430719006;
     109659393484013511; 7158933660534805869; 2955076958026921730; 7433723648458773977];
    [16308865189192447297; 11977192855656444890; 12532242556065780287; 14594890931430968898;
     7291784239689209784; 5514718540551361949; 10025733853830934803; 7293794580341021693;
     6728552937464861756; 6332385040983343262; 13277683694236792804; 2600778905124452676];
    [7123075680859040534; 1034205548717903090; 7717824418247931797; 3019070937878604058;
     11403792746066867460; 10280580802233112374; 337153209462421218; 13333398568519923717;
     3596153696935337464; 8104208463525993784; 14345062289456085693; 17036731477169661256] ].

Definition ARK2 : list (list Z) :=
  [ [6077062762357204287; 15277620170502011191; 5358738125714196705; 14233283787297595718;
     13792579614346651365; 11614812331536767105; 14871063686742261166; 10148237148793043499;
     4457428952329675767; 15590786458219172475; 10063319113072092615; 14200078843431360086];
    [6202948458916099932; 17690140365333231091; 3595001575307484651; 373995945117666487;
     1235734395091296013; 14172757457833931602; 707573103686350224; 15453217512188187135;
     219777875004506018; 17876696346199469008; 17731621626449383378; 2897136237748376248];
    [8023374565629191455; 15013690343205953430; 4485500052507912973; 12489737547229155153;
     9500452585969030576; 2054001340201038870; 12420704059284934186; 355990932618543755;
     9071225051243523860; 12766199826003448536; 9045979173463556963; 12934431667190679898];
    [18389244934624494276; 16731736864863925227; 4440209734760478192; 17208448209698888938;
     8739495587021565984; 17000774922218161967; 13533282547195532087; 525402848358706231;
     16987541523062161972; 5466806524462797102; 14512769585918244983; 10973956031244051118];
    [6982293561042362913; 14065426295947720331; 16451845770444974180; 7139138592091306727;
     9012006439959783127; 14619614108529063361; 1394813199588124371; 4635111139507788575;
     16217473952264203365; 10782018226466330683; 6844229992533662050; 7446486531695178711];
    [3736792340494631448; 577852220195055341; 6689998335515779805; 13886063479078013492;
     14358505101923202168; 7744142531772274164; 16135070735728404443; 12290902521256031137;
     12059913662657709804; 16456018495793751911; 4571485474751953524; 17200392109565783176];
    [17130398059294018733; 519782857322261988; 9625384390925085478; 1664893052631119222;
     7629576092524553570; 3485239601103661425; 9755891797164033838; 15218148195153269027;
     16460604813734957368; 9643968136937729763; 3611348709641382851; 18256379591337759196] ].

(** * The operations *)

Definition apply_sbox (state : list Z) : list Z :=
  for_up 0 STATE_WIDTH (fun i state =>
    let t2 := mult_mod_p (state !!! i) (state !!! i) in
    let t4 := mult_mod_p t2 t2 in
    <[i := mult_mod_p (state !!! i) (mult_mod_p t2 t4)]> state) state.

Definition apply_mds (state : list Z) : list Z :=
  let res := for_up 0 STATE_WIDTH (fun i res => <[i := 0]> res) (replicate STATE_WIDTH 0) in
  let res := for_up 0 STATE_WIDTH (fun i res =>
    for_up 0 STATE_WIDTH (fun j res =>
      <[i := add_mod_p (res !!! i) (mult_mod_p ((MDS !!! i) !!! j) (state !!! j))]> res) res) res in
  for_up 0 STATE_WIDTH (fun i state => <[i := res !!! i]> state) state.

Definition apply_constants (state ark : list Z) : list Z :=
  for_up 0 STATE_WIDTH (fun i state => <[i := add_mod_p (state !!! i) (ark !!! i)]> state) state.

Definition exp_acc (m : nat) (base tail res : list Z) : list Z :=
  let res := for_up 0 m (fun i res =>
    for_up 0 STATE_WIDTH (fun j res =>
      if (i =? 0)%nat
      then <[j := mult_mod_p (base !!! j) (base !!! j)]> res
      else <[j := mult_mod_p (res !!! j) (res !!! j)]> res) res) res in
  for_up 0 STATE_WIDTH (fun i res => <[i := mult_mod_p (res !!! i) (tail !!! i)]> res) res.

(** The zeroing loop in front of each temporary of [apply_inv_sbox]. *)
Definition zero_state : list Z :=
  for_up 0 STATE_WIDTH (fun i t => <[i := 0]> t) (replicate STATE_WIDTH 0).

Definition apply_inv_sbox (state : list Z) : list Z :=
  let t1 := zero_state in
  let t1 := for_up 0 STATE_WIDTH (fun i t1 =>
    <[i := mult_mod_p (state !!! i) (state !!! i)]> t1) t1 in
  let t2 := zero_state in
  let t2 := for_up 0 STATE_WIDTH (fun i t2 => <[i := mult_mod_p (t1 !!! i) (t1 !!! i)]> t2) t2 in
  let t3 := exp_acc 3 t2 t2 zero_state in
  let t4 := exp_acc 6 t3 t3 zero_state in
  let tmp := exp_acc 12 t4 t4 zero_state in
  let t5 := exp_acc 6 tmp t3 zero_state in
  let t6 := exp_acc 31 t5 t5 zero_state in
  for_up 0 STATE_WIDTH (fun i state =>
    let a := mult_mod_p (mult_mod_p (t6 !!! i) (t6 !!! i)) (t5 !!! i) in
    let a := mult_mod_p a a in
    let a := mult_mod_p a a in
    let b := mult_mod_p (mult_mod_p (t1 !!! i) (t2 !!! i)) (state !!! i) in
    <[i := mult_mod_p a b]> state) state.

Definition apply_round (state : list Z) (round : nat) : list Z :=
  let state := apply_mds state in
  let state := apply_constants state (ARK1 !!! round) in
  let state := apply_sbox state in
  let state := apply_mds state in
  let state := apply_constants state (ARK2 !!! round) in
  apply_inv_sbox state.

Definition apply_permutation (state : list Z) : list Z :=
  for_up 0 NUM_ROUNDS (fun i state => apply_round state i) state.

(** * The reference: the permutation on residues modulo p *)

Module Spec.

(** 1/7 modulo p - 1. *)
Definition INV_ALPHA : Z := 10540996611094048183.

Definition dot (row s : list Z) : Z := foldr Z.add 0 (zip_with Z.mul row s).
Definition mds (s : list Z) : list Z := (fun row => dot row s mod P) <$> MDS.
Definition constants (ark s : list Z) : list Z := zip_with (fun x k => (x + k) mod P) s ark.
Definition sbox (s : list Z) : list Z := (fun x => x ^ 7 mod P) <$> s.
Definition inv_sbox (s : list Z) : list Z := (fun x => x ^ INV_ALPHA mod P) <$> s.

Definition round (s : list Z) (r : nat) : list Z :=
  inv_sbox (constants (ARK2 !!! r) (mds (sbox (constants (ARK1 !!! r) (mds s))))).

Definition permutation (s : list Z) : list Z := foldl round s (seq 0 NUM_ROUNDS).

End Spec.

(** A state is twelve 64-bit words; [field_state] has all of them canonical. *)
Definition word_state (s : list Z) : Prop := length s = STATE_WIDTH /\ Forall (in_width 64) s.
Definition field_state (s : list Z) : Prop := length s = STATE_WIDTH /\ Forall canonical s.

Lemma field_word_state s : field_state s -> word_state s.
Proof. intros [Hl Hs]. split; [done|]. eapply Forall_impl; [done|]. auto with machine. Qed.
#[export] Hint Resolve field_word_state : machine.

(** A table of the program, by evaluation. *)
Lemma ARK1_field r : (r < NUM_ROUNDS)%nat -> field_state (ARK1 !!! r).
Proof.
  intros Hr. assert (Forall (fun t => length t = STATE_WIDTH /\ Forall canonical t) ARK1) as HF.
  { by_decide. }
  rewrite Forall_lookup_total in HF. apply HF. done.
Qed.

Lemma ARK2_field r : (r < NUM_ROUNDS)%nat -> field_state (ARK2 !!! r).
Proof.
  intros Hr. assert (Forall (fun t => length t = STATE_WIDTH /\ Forall canonical t) ARK2) as HF.
  { by_decide. }
  rewrite Forall_lookup_total in HF. apply HF. done.
Qed.

Lemma MDS_field i : (i < STATE_WIDTH)%nat -> field_state (MDS !!! i).
Proof.
  intros Hr. assert (Forall (fun t => length t = STATE_WIDTH /\ Forall canonical t) MDS) as HF.
  { by_decide. }
  rewrite Forall_lookup_total in HF. apply HF. done.
Qed.

(** * Power chains

    [cpow x e v]: the word [v] is canonical and holds x^e. *)

Definition cpow (x e v : Z) : Prop := canonical v /\ v ≡[P] x ^ e.

Lemma cpow_mul x e1 e2 v1 v2 :
  0 <= e1 -> 0 <= e2 -> cpow x e1 v1 -> cpow x e2 v2 -> cpow x (e1 + e2) (mult_mod_p v1 v2).
Proof.
  intros He1 He2 [Hv1 H1] [Hv2 H2]. split; [auto with machine|].
  rewrite mult_mod_p_spec by auto with machine. rewrite cong_mod by apply P_pos.
  rewrite Z.pow_add_r by done. now apply cong_mul.
Qed.

Lemma cpow_sqr x e v : 0 <= e -> cpow x e v -> cpow x (2 * e) (mult_mod_p v v).
Proof. intros. replace (2 * e) with (e + e) by lia. now apply cpow_mul. Qed.

(** The first product of a chain takes the input word itself, canonical or not. *)
Lemma cpow_base_sqr x : in_width 64 x -> cpow x 2 (mult_mod_p x x).
Proof.
  intros Hx. split; [auto with machine|]. rewrite mult_mod_p_spec by done.
  rewrite cong_mod by apply P_pos. now rewrite Z.pow_2_r.
Qed.

Lemma cpow_mul_base x e v :
  in_width 64 x -> 0 <= e -> cpow x e v -> cpow x (e + 1) (mult_mod_p v x).
Proof.
  intros Hx He [Hv H]. split; [auto with machine|]. rewrite mult_mod_p_spec by auto with machine.
  rewrite cong_mod by apply P_pos. rewrite Z.pow_add_r, Z.pow_1_r by lia. now rewrite H.
Qed.

Lemma cpow_value x e v : cpow x e v -> v = x ^ e mod P.
Proof. intros [Hv H]. now apply cong_canonical. Qed.

(** [m] squarings. *)
Definition sqn (m : nat) (v : Z) : Z := Nat.iter m (fun v => mult_mod_p v v) v.

Lemma cpow_sqn x e v m : 0 <= e -> cpow x e v -> cpow x (2 ^ Z.of_nat m * e) (sqn m v).
Proof.
  intros He Hv. induction m as [|m IH]; simpl.
  - now rewrite Z.mul_1_l.
  - rewrite Nat2Z.inj_succ, Z.pow_succ_r, <- Z.mul_assoc by lia. apply cpow_sqr; [nia | done].
Qed.

(** One [exp_acc] step: x^e and x^f to x^(2^m e + f). *)
Lemma cpow_exp_acc x e f m v w k :
  0 <= e -> 0 <= f -> k = 2 ^ Z.of_nat m * e + f -> cpow x e v -> cpow x f w ->
  cpow x k (mult_mod_p (sqn m v) w).
Proof. intros He Hf -> Hv Hw. apply cpow_mul; [nia | done | now apply cpow_sqn | done]. Qed.

(** * The loops, lane by lane *)

Lemma exp_acc_lookup m base tail res j :
  (0 < m)%nat -> length res = STATE_WIDTH -> (j < STATE_WIDTH)%nat ->
  exp_acc m base tail res !!! j = mult_mod_p (sqn m (base !!! j)) (tail !!! j).
Proof.
  intros Hm Hl Hj. unfold exp_acc.
  set (loop := for_up 0 m _ res).
  assert (length loop = STATE_WIDTH /\
          forall j, (j < STATE_WIDTH)%nat -> loop !!! j = sqn m (base !!! j)) as [Hll Hlj].
  { assert (length loop = STATE_WIDTH /\ forall j, (j < STATE_WIDTH)%nat -> (0 < m)%nat ->
      loop !!! j = sqn m (base !!! j)) as [? Hk]; [| split; [done | intros; now apply Hk]].
    unfold loop. apply (for_up_inv _ (fun i r => length r = STATE_WIDTH /\
      forall j, (j < STATE_WIDTH)%nat -> (0 < i)%nat -> r !!! j = sqn i (base !!! j))).
    - lia.
    - split; [done | lia].
    - intros i r _ [Hr Hi]. destruct (Nat.eqb_spec i 0) as [->|Hne].
      + destruct (for_up_elementwise (fun j _ => mult_mod_p (base !!! j) (base !!! j)) STATE_WIDTH r)
          as [Hr' Hj']. split; [now rewrite Hr'|]. intros k Hk _. rewrite Hj' by lia.
        destruct (Nat.ltb_spec k STATE_WIDTH); [done | lia].
      + destruct (for_up_elementwise (fun j v => mult_mod_p v v) STATE_WIDTH r) as [Hr' Hj'].
        split; [now rewrite Hr'|]. intros k Hk _. rewrite Hj' by lia.
        destruct (Nat.ltb_spec k STATE_WIDTH); [|lia]. rewrite Hi by lia. done. }
  rewrite (for_up_imap (fun i v => mult_mod_p v (tail !!! i)) STATE_WIDTH loop) by done.
  rewrite lookup_total_imap by lia. now rewrite Hlj.
Qed.

(** A loop that writes every cell independently of what was there. *)
Lemma write_all_lookup (f : nat -> Z) j :
  (j < STATE_WIDTH)%nat ->
  for_up 0 STATE_WIDTH (fun i t => <[i := f i]> t) zero_state !!! j = f j.
Proof.
  intros Hj. rewrite (for_up_imap (fun i _ => f i) STATE_WIDTH zero_state) by reflexivity.
  now rewrite lookup_total_imap by (cbn; unfold STATE_WIDTH in Hj; lia).
Qed.

Lemma fmap_imap {A B} (f : A -> B) (g : nat -> A -> B) l :
  (forall i x, l !! i = Some x -> g i x = f x) -> imap g l = f <$> l.
Proof.
  intros H. apply list_eq. intros i. rewrite list_lookup_imap, list_lookup_fmap.
  destruct (l !! i) eqn:E; [simpl; f_equal; now apply H | done].
Qed.

Lemma apply_sbox_spec s : word_state s -> apply_sbox s = Spec.sbox s.
Proof.
  intros [Hl Hs]. unfold apply_sbox, Spec.sbox.
  rewrite (for_up_imap (fun i v => let t2 := mult_mod_p v v in let t4 := mult_mod_p t2 t2 in
    mult_mod_p v (mult_mod_p t2 t4)) STATE_WIDTH s) by done.
  apply fmap_imap. intros i x Hx. rewrite Forall_lookup in Hs. apply Hs in Hx.
  cbv zeta. pose proof (cpow_base_sqr x Hx) as H2. pose proof (cpow_sqr x 2 _ ltac:(lia) H2) as H4.
  pose proof (cpow_mul x 2 4 _ _ ltac:(lia) ltac:(lia) H2 H4) as H6.
  apply cpow_value. split; [destruct H6; auto with machine|].
  rewrite mult_mod_p_spec by (destruct H6; auto with machine). rewrite cong_mod by apply P_pos.
  destruct H6 as [_ ->]. change (2 + 4) with 6. apply (cong_intro _ _ _ 0). ring.
Qed.

(** The addition chain of the inverse S-box is the exponent 1/7. *)
Lemma apply_inv_sbox_spec s : word_state s -> apply_inv_sbox s = Spec.inv_sbox s.
Proof.
  intros [Hl Hs]. unfold apply_inv_sbox, Spec.inv_sbox. cbv zeta.
  set (T1 := for_up 0 STATE_WIDTH (fun i t1 => <[i := mult_mod_p (s !!! i) (s !!! i)]> t1) zero_state).
  set (T2 := for_up 0 STATE_WIDTH (fun i t2 => <[i := mult_mod_p (T1 !!! i) (T1 !!! i)]> t2) zero_state).
  set (T3 := exp_acc 3 T2 T2 zero_state). set (T4 := exp_acc 6 T3 T3 zero_state).
  set (T5 := exp_acc 6 (exp_acc 12 T4 T4 zero_state) T3 zero_state).
  set (T6 := exp_acc 31 T5 T5 zero_state).
  rewrite (for_up_imap (fun i v =>
    let a := mult_mod_p (mult_mod_p (T6 !!! i) (T6 !!! i)) (T5 !!! i) in
    let a := mult_mod_p a a in let a := mult_mod_p a a in
    mult_mod_p a (mult_mod_p (mult_mod_p (T1 !!! i) (T2 !!! i)) v)) STATE_WIDTH s) by done.
  apply fmap_imap. intros i x Hx.
  assert (i < STATE_WIDTH)%nat as Hi by (rewrite <- Hl; now apply lookup_lt_Some in Hx).
  pose proof (list_lookup_total_correct _ _ _ Hx) as Hsx.
  rewrite Forall_lookup in Hs. apply Hs in Hx.
  assert (cpow x 2 (T1 !!! i)) as H1.
  { unfold T1. rewrite write_all_lookup, Hsx by done. now apply cpow_base_sqr. }
  assert (cpow x 4 (T2 !!! i)) as H2.
  { unfold T2. rewrite write_all_lookup by done. now apply (cpow_sqr x 2). }
  assert (cpow x 36 (T3 !!! i)) as H3.
  { unfold T3. rewrite exp_acc_lookup by (done || lia). now apply (cpow_exp_acc x 4 4 3). }
  assert (cpow x 2340 (T4 !!! i)) as H4.
  { unfold T4. rewrite exp_acc_lookup by (done || lia). now apply (cpow_exp_acc x 36 36 6). }
  assert (cpow x 613566756 (T5 !!! i)) as H5.
  { unfold T5. rewrite !exp_acc_lookup by (done || lia).
    apply (cpow_exp_acc x 9586980 36 6); [done | done | done | | done].
    now apply (cpow_exp_acc x 2340 2340 12). }
  assert (cpow x 1317624576079972644 (T6 !!! i)) as H6.
  { unfold T6. rewrite exp_acc_lookup by (done || lia). now apply (cpow_exp_acc x 613566756 613566756 31). }
  cbv zeta. apply cpow_value.
  replace Spec.INV_ALPHA with (2 * (2 * (2 * 1317624576079972644 + 613566756)) + (2 + 4 + 1)) by reflexivity.
  apply cpow_mul; [lia | lia | |].
  - do 2 (apply cpow_sqr; [lia|]). apply cpow_mul; [lia | lia | | exact H5]. apply cpow_sqr; [lia | exact H6].
  - apply cpow_mul_base; [exact Hx | lia|]. apply cpow_mul; [lia | lia | exact H1 | exact H2].
Qed.

Lemma dot_snoc row s x y :
  length row = length s -> Spec.dot (row ++ [x]) (s ++ [y]) = Spec.dot row s + x * y.
Proof.
  intros Hl. unfold Spec.dot. rewrite zip_with_app by done. rewrite foldr_app. simpl.
  generalize (zip_with Z.mul row s). intros l. rewrite Z.add_0_r.
  induction l as [|z l IH]; simpl; lia.
Qed.

(** The accumulation loop of one row of the MDS product. *)
Lemma mds_row_loop row s n :
  length row = STATE_WIDTH -> Forall canonical row -> word_state s -> (n <= STATE_WIDTH)%nat ->
  let acc := for_up 0 n (fun j v => add_mod_p v (mult_mod_p (row !!! j) (s !!! j))) 0 in
  canonical acc /\ acc ≡[P] Spec.dot (take n row) (take n s).
Proof.
  intros Hr Hrow [Hl Hs] Hn. cbv zeta. rewrite Forall_lookup_total in Hrow, Hs.
  induction n as [|n IH]; [now split|]. rewrite for_up_snoc by lia.
  destruct IH as [Hc Hv]; [lia|]. set (acc := for_up 0 n _ 0) in *.
  assert (canonical (mult_mod_p (row !!! n) (s !!! n))) as Hm.
  { apply mult_mod_p_canonical; [apply canonical_width, Hrow; lia | apply Hs; lia]. }
  rewrite add_mod_p_spec by done. split; [auto with machine|]. rewrite cong_mod by apply P_pos.
  rewrite (take_S_r _ _ (row !!! n)), (take_S_r _ _ (s !!! n))
    by (apply list_lookup_lookup_total_lt; lia).
  rewrite dot_snoc by (rewrite !length_take; lia).
  rewrite Hv, mult_mod_p_spec by ((apply canonical_width, Hrow; lia) || (apply Hs; lia)).
  now rewrite cong_mod by apply P_pos.
Qed.

Lemma apply_mds_spec s : word_state s -> apply_mds s = Spec.mds s.
Proof.
  intros Hws. pose proof Hws as [Hl Hs]. unfold apply_mds.
  change (for_up 0 STATE_WIDTH (fun i res => <[i := 0]> res) (replicate STATE_WIDTH 0)) with zero_state.
  set (R := for_up 0 STATE_WIDTH _ zero_state).
  assert (length R = STATE_WIDTH /\ forall i, (i < STATE_WIDTH)%nat -> R !!! i = Spec.dot (MDS !!! i) s mod P)
    as [HRl HR].
  { unfold R. rewrite (for_up_ext _ (fun i res => <[i := for_up 0 STATE_WIDTH
      (fun j v => add_mod_p v (mult_mod_p ((MDS !!! i) !!! j) (s !!! j))) (res !!! i)]> res)).
    - rewrite (for_up_imap (fun i v => for_up 0 STATE_WIDTH
        (fun j v => add_mod_p v (mult_mod_p ((MDS !!! i) !!! j) (s !!! j))) v)) by done.
      split; [done|]. intros i Hi. rewrite lookup_total_imap by done.
      replace (zero_state !!! i) with 0
        by (do 12 (destruct i as [|i]; [reflexivity|]); unfold STATE_WIDTH in Hi; lia).
      destruct (MDS_field i Hi) as [Hml Hmf].
      destruct (mds_row_loop (MDS !!! i) s STATE_WIDTH) as [Hc Hv]; try done.
      rewrite (take_ge (MDS !!! i)), (take_ge s) in Hv by lia. now apply cong_canonical.
    - intros i r Hi. apply (for_up_cell (fun j v =>
        add_mod_p v (mult_mod_p ((MDS !!! i) !!! j) (s !!! j)))). }
  rewrite (for_up_imap (fun i _ => R !!! i)) by done.
  apply list_eq_total; [now rewrite length_imap, Hl|]. rewrite length_imap, Hl. intros k Hk.
  rewrite lookup_total_imap by lia. unfold Spec.mds. rewrite (@list_lookup_total_fmap (list Z) Z (fun row => Spec.dot row s mod P) _ _) by done.
  now apply HR.
Qed.

Lemma apply_constants_spec s ark :
  field_state s -> field_state ark -> apply_constants s ark = Spec.constants ark s.
Proof.
  intros [Hl Hs] [Hla Ha]. unfold apply_constants.
  rewrite (for_up_imap (fun i v => add_mod_p v (ark !!! i))) by done.
  unfold Spec.constants. rewrite Forall_lookup in Hs, Ha. apply list_eq. intros i.
  rewrite list_lookup_imap, lookup_zip_with.
  destruct (s !! i) as [x|] eqn:Hx; [|done]. destruct (ark !! i) as [k|] eqn:Hk; simpl.
  - rewrite (list_lookup_total_correct _ _ _ Hk). f_equal.
    apply add_mod_p_spec; [now apply (Hs i) | now apply (Ha i)].
  - apply lookup_lt_Some in Hx. apply lookup_ge_None in Hk. lia.
Qed.

Lemma fmap_field {A} (f : A -> Z) (l : list A) :
  length l = STATE_WIDTH -> field_state ((fun x => f x mod P) <$> l).
Proof.
  intros Hl. split; [now rewrite length_fmap|]. rewrite Forall_fmap. apply Forall_true.
  intros; simpl; auto with machine.
Qed.

Lemma mds_field s : field_state (Spec.mds s).
Proof. now apply fmap_field. Qed.

Lemma sbox_field s : length s = STATE_WIDTH -> field_state (Spec.sbox s).
Proof. apply (fmap_field (fun x => x ^ 7)). Qed.

Lemma inv_sbox_field s : length s = STATE_WIDTH -> field_state (Spec.inv_sbox s).
Proof. apply (fmap_field (fun x => x ^ Spec.INV_ALPHA)). Qed.

Lemma constants_field ark s :
  length s = STATE_WIDTH -> length ark = STATE_WIDTH -> field_state (Spec.constants ark s).
Proof.
  intros Hl Ha. split.
  - unfold Spec.constants. rewrite length_zip_with. unfold STATE_WIDTH in *. lia.
  - apply Forall_lookup. unfold Spec.constants. intros i x Hx.
    apply lookup_zip_with_Some in Hx as (? & ? & -> & _). auto with machine.
Qed.
#[export] Hint Resolve mds_field sbox_field inv_sbox_field constants_field : machine.

Lemma field_length s : field_state s -> length s = STATE_WIDTH.
Proof. now intros [? _]. Qed.
Lemma word_length s : word_state s -> length s = STATE_WIDTH.
Proof. now intros [? _]. Qed.
#[export] Hint Resolve field_length word_length ARK1_field ARK2_field : machine.

Lemma round_field s r : (r < NUM_ROUNDS)%nat -> length s = STATE_WIDTH -> field_state (Spec.round s r).
Proof. intros Hr Hl. unfold Spec.round. auto 12 with machine. Qed.

Lemma apply_round_spec s r :
  word_state s -> (r < NUM_ROUNDS)%nat -> apply_round s r = Spec.round s r.
Proof.
  intros Hs Hr. unfold apply_round, Spec.round. cbv zeta.
  rewrite (apply_mds_spec s) by done.
  rewrite (apply_constants_spec (Spec.mds s)) by auto with machine.
  set (s1 := Spec.constants (ARK1 !!! r) (Spec.mds s)).
  assert (field_state s1) as H1 by (unfold s1; auto with machine).
  rewrite (apply_sbox_spec s1), (apply_mds_spec (Spec.sbox s1)) by auto with machine.
  rewrite apply_constants_spec by auto with machine.
  apply apply_inv_sbox_spec. auto with machine.
Qed.

Lemma permutation_rounds s n :
  word_state s -> (n <= NUM_ROUNDS)%nat ->
  for_up 0 n (fun i s => apply_round s i) s = foldl Spec.round s (seq 0 n) /\
  word_state (foldl Spec.round s (seq 0 n)) /\
  ((0 < n)%nat -> field_state (foldl Spec.round s (seq 0 n))).
Proof.
  intros Hs. induction n as [|n IH]; intros Hn.
  - repeat split; try apply Hs. lia.
  - destruct IH as (He & Hw & _); [lia|]. rewrite for_up_snoc by lia.
    rewrite seq_S, foldl_app, He. simpl. rewrite apply_round_spec by (done || lia).
    assert (field_state (Spec.round (foldl Spec.round s (seq 0 n)) n)) as Hf
      by (apply round_field; [lia | auto with machine]).
    repeat split; try apply Hf. apply field_word_state in Hf. apply Hf.
Qed.

Lemma apply_permutation_spec s :
  word_state s -> apply_permutation s = Spec.permutation s /\ field_state (apply_permutation s).
Proof.
  intros Hs. destruct (permutation_rounds s NUM_ROUNDS Hs) as (He & _ & Hf); [done|].
  unfold apply_permutation. rewrite He. split; [done | apply Hf; unfold NUM_ROUNDS; lia].
Qed.

(** * Congruent states *)

Definition state_eqm : list Z -> list Z -> Prop := Forall2 (cong P).

Lemma dot_eqm row row' s s' :
  state_eqm row row' -> state_eqm s s' -> Spec.dot row s ≡[P] Spec.dot row' s'.
Proof.
  intros Hr. revert s s'. induction Hr as [|x x' row row' Hx Hr IH]; intros s s' Hs.
  - reflexivity.
  - destruct Hs as [|y y' s s' Hy Hs]; [reflexivity|]. unfold Spec.dot in *. simpl.
    apply cong_add; [now apply cong_mul | now apply IH].
Qed.

#[export] Instance state_eqm_refl : Reflexive state_eqm.
Proof. intros s. apply Forall2_same_length_lookup. split; [done|]. intros i x y Hx Hy.
  assert (x = y) as -> by congruence. reflexivity. Qed.

(** The first operation of a round already erases the choice of representatives. *)
Lemma mds_eqm s s' : state_eqm s s' -> Spec.mds s = Spec.mds s'.
Proof.
  intros Hs. unfold Spec.mds. apply list_fmap_ext. intros _ row _.
  apply cong_mod_iff; [apply P_pos|]. now apply dot_eqm.
Qed.

Lemma permutation_eqm s s' : state_eqm s s' -> Spec.permutation s = Spec.permutation s'.
Proof.
  intros Hs. unfold Spec.permutation, NUM_ROUNDS. simpl. do 6 f_equal.
  unfold Spec.round. now rewrite (mds_eqm s s').
Qed.

(** * The inverse permutation *)

Module Inverse.

(** First row of the inverse MDS matrix, which is circulant like [MDS]. *)
Definition mds_inv_row : list Z :=
  [14868391535953158196; 13278298489594233127; 389999932707070822; 9782021734907796003;
   4829905704463175582; 7567822018949214430; 14205019324568680367; 15489674211196160593;
   17636013826542227504; 16254215311946436093; 3641486184877122796; 11069068059762973582].

Definition MDS_INV : list (list Z) :=
  (fun i => drop (STATE_WIDTH - i) mds_inv_row ++ take (STATE_WIDTH - i) mds_inv_row)
    <$> seq 0 STATE_WIDTH.

Definition mds (s : list Z) : list Z := (fun row => Spec.dot row s mod P) <$> MDS_INV.
Definition constants (ark s : list Z) : list Z := zip_with (fun x k => (x - k) mod P) s ark.

Definition round (s : list Z) (r : nat) : list Z :=
  mds (constants (ARK1 !!! r) (Spec.inv_sbox (mds (constants (ARK2 !!! r) (Spec.sbox s))))).

Definition permutation (s : list Z) : list Z := foldl round s (reverse (seq 0 NUM_ROUNDS)).

End Inverse.

(** Row vector times matrix. *)
Fixpoint vecmat (row : list Z) (m : list (list Z)) : list Z :=
  match row, m with
  | c :: row, r :: m => zip_with Z.add (Z.mul c <$> r) (vecmat row m)
  | _, _ => replicate STATE_WIDTH 0
  end.

Lemma dot_add a b s : length a = length b -> Spec.dot (zip_with Z.add a b) s = Spec.dot a s + Spec.dot b s.
Proof.
  unfold Spec.dot. revert b s. induction a as [|x a IH]; intros [|y b] [|z s] Hl; simpl in *; try lia.
  rewrite IH by lia. ring.
Qed.

Lemma dot_scale c a s : Spec.dot (Z.mul c <$> a) s = c * Spec.dot a s.
Proof.
  unfold Spec.dot. revert s. induction a as [|x a IH]; intros [|z s]; simpl; [ring | ring | ring |].
  rewrite IH. ring.
Qed.

Lemma dot_zero n s : Spec.dot (replicate n 0) s = 0.
Proof. unfold Spec.dot. revert s. induction n as [|n IH]; intros [|z s]; simpl; [done | done | done |]. now rewrite IH. Qed.

Lemma dot_nil_r row : Spec.dot row [] = 0.
Proof. now destruct row. Qed.

Lemma vecmat_length row m :
  Forall (fun r => length r = STATE_WIDTH) m -> length (vecmat row m) = STATE_WIDTH.
Proof.
  intros Hm. revert row. induction Hm as [|r m Hr Hm IH]; intros [|c row]; try done. simpl.
  rewrite length_zip_with, length_fmap, IH, Hr. apply Nat.min_id.
Qed.

(** Associativity of the two products. *)
Lemma dot_vecmat row m s :
  Forall (fun r => length r = STATE_WIDTH) m ->
  Spec.dot (vecmat row m) s = Spec.dot row ((fun r => Spec.dot r s) <$> m).
Proof.
  intros Hm. revert row. induction Hm as [|r m Hr Hm IH]; intros [|c row]; cbn [vecmat].
  - apply dot_zero.
  - rewrite dot_zero. symmetry. apply dot_nil_r.
  - apply dot_zero.
  - rewrite dot_add by (now rewrite length_fmap, vecmat_length).
    rewrite dot_scale, IH. reflexivity.
Qed.

Definition unit_row (i : nat) : list Z := <[i := 1]> (replicate STATE_WIDTH 0).

Lemma dot_unit i s : (i < STATE_WIDTH)%nat -> length s = STATE_WIDTH -> Spec.dot (unit_row i) s = s !!! i.
Proof.
  intros Hi Hl. do 12 (destruct s as [|? s]; [done|]). destruct s; [|done].
  do 12 (destruct i as [|i]; [vm_compute (unit_row _); unfold Spec.dot; cbn -[Z.mul Z.add]; lia|]).
  unfold STATE_WIDTH in Hi. lia.
Qed.

(** [m'] is the inverse of [m] modulo p: every row of the product is a unit vector. *)
Definition inverse_of (m' m : list (list Z)) : Prop :=
  Forall (fun r => length r = STATE_WIDTH) m /\ length m' = STATE_WIDTH /\
  Forall (fun i => Forall2 (fun a b => a mod P = b mod P) (vecmat (m' !!! i) m) (unit_row i))
    (seq 0 STATE_WIDTH).

Lemma MDS_inverse_l : inverse_of Inverse.MDS_INV MDS.
Proof. unfold inverse_of. by_decide. Qed.

Lemma MDS_inverse_r : inverse_of MDS Inverse.MDS_INV.
Proof. unfold inverse_of. by_decide. Qed.

Definition residues (s : list Z) : list Z := (fun x => x mod P) <$> s.

Lemma residues_field s : field_state s -> residues s = s.
Proof.
  intros [_ Hs]. unfold residues. rewrite <- (list_fmap_id s) at 2. apply list_fmap_ext.
  intros i x Hx. rewrite Forall_lookup in Hs. apply Z.mod_small. now apply (Hs i).
Qed.

Lemma fmap_mod_eqm {A} (f : A -> Z) l : state_eqm ((fun x => f x mod P) <$> l) (f <$> l).
Proof. apply Forall2_fmap_2, Forall_Forall2_diag, Forall_true. intros; now apply cong_mod. Qed.

Lemma matrix_inverse m' m s :
  inverse_of m' m -> length s = STATE_WIDTH ->
  (fun row => Spec.dot row ((fun r => Spec.dot r s mod P) <$> m) mod P) <$> m' = residues s.
Proof.
  intros (Hm & Hm' & Hi) Hl. apply list_eq_total; unfold residues.
  { rewrite !length_fmap. congruence. }
  rewrite length_fmap, Hm'. intros i Hlt.
  rewrite (@list_lookup_total_fmap Z Z (fun x => x mod P) _ _) by lia.
  rewrite (@list_lookup_total_fmap (list Z) Z
    (fun row => Spec.dot row ((fun r => Spec.dot r s mod P) <$> m) mod P) _ _) by lia.
  apply cong_mod_iff; [apply P_pos|].
  rewrite (dot_eqm (m' !!! i) (m' !!! i) _ _ (state_eqm_refl _) (fmap_mod_eqm _ _)).
  rewrite <- dot_vecmat by done.
  rewrite <- (dot_unit i s) by done. apply dot_eqm; [|apply state_eqm_refl].
  rewrite Forall_forall in Hi.
  eapply Forall2_impl; [apply Hi, list_elem_of_In, in_seq; lia|].
  intros x y Hxy. now apply cong_mod_iff.
Qed.

Lemma P_prime : Z.prime P.
Proof. apply (proth_check P 32 (2 ^ 32 - 1) 7); vm_compute; repeat split; congruence. Qed.

(** The two S-boxes are inverse to each other. *)
Lemma pow_inverse e f n x :
  0 <= e -> 0 <= f -> 0 <= n -> e * f = 1 + n * (P - 1) -> (x ^ e mod P) ^ f mod P = x mod P.
Proof.
  intros He Hf Hn Hef. apply cong_mod_iff; [apply P_pos|].
  transitivity ((x ^ e) ^ f); [apply cong_pow; [now apply cong_mod | done]|].
  rewrite <- Z.pow_mul_r, Hef by done. apply fermat_exp; [apply P_prime | done].
Qed.

Lemma inv_sbox_sbox s : Spec.inv_sbox (Spec.sbox s) = residues s.
Proof.
  unfold Spec.inv_sbox, Spec.sbox, residues. rewrite <- list_fmap_compose. apply list_fmap_ext.
  intros _ x _. simpl. now apply (pow_inverse 7 Spec.INV_ALPHA 4).
Qed.

Lemma sbox_inv_sbox s : Spec.sbox (Spec.inv_sbox s) = residues s.
Proof.
  unfold Spec.inv_sbox, Spec.sbox, residues. rewrite <- list_fmap_compose. apply list_fmap_ext.
  intros _ x _. simpl. now apply (pow_inverse Spec.INV_ALPHA 7 4).
Qed.

Lemma mds_inverse s : field_state s -> Inverse.mds (Spec.mds s) = s.
Proof.
  intros Hs. rewrite <- (residues_field s) at 2 by done.
  apply (matrix_inverse _ _ _ MDS_inverse_l). now apply field_length.
Qed.

Lemma inverse_mds s : field_state s -> Spec.mds (Inverse.mds s) = s.
Proof.
  intros Hs. rewrite <- (residues_field s) at 2 by done.
  apply (matrix_inverse _ _ _ MDS_inverse_r). now apply field_length.
Qed.

Lemma constants_inverse ark s :
  length ark = STATE_WIDTH -> field_state s ->
  Inverse.constants ark (Spec.constants ark s) = s /\ Spec.constants ark (Inverse.constants ark s) = s.
Proof.
  intros Ha [Hl Hs]. unfold Inverse.constants, Spec.constants. rewrite Forall_lookup in Hs.
  split; apply list_eq; intros i; rewrite !lookup_zip_with;
    (destruct (s !! i) as [x|] eqn:Hx; [|done]);
    (destruct (ark !! i) as [k|] eqn:Hk;
      [| apply lookup_lt_Some in Hx; apply lookup_ge_None in Hk; lia]); simpl; f_equal;
    symmetry; (apply cong_canonical; [now apply (Hs i)|]); rewrite cong_mod by apply P_pos;
    apply (cong_intro _ _ _ 0); ring.
Qed.

Lemma inv_constants_field ark s :
  length s = STATE_WIDTH -> length ark = STATE_WIDTH -> field_state (Inverse.constants ark s).
Proof.
  intros Hl Ha. split.
  - unfold Inverse.constants. rewrite length_zip_with. unfold STATE_WIDTH in *. lia.
  - apply Forall_lookup. unfold Inverse.constants. intros i x Hx.
    apply lookup_zip_with_Some in Hx as (? & ? & -> & _). auto with machine.
Qed.

Lemma inv_mds_field s : field_state (Inverse.mds s).
Proof. now apply fmap_field. Qed.
#[export] Hint Resolve inv_constants_field inv_mds_field : machine.

Lemma inv_round_field s r : field_state (Inverse.round s r).
Proof. unfold Inverse.round. auto with machine. Qed.

Lemma round_inverse s r :
  field_state s -> (r < NUM_ROUNDS)%nat ->
  Inverse.round (Spec.round s r) r = s /\ Spec.round (Inverse.round s r) r = s.
Proof.
  intros Hs Hr. unfold Inverse.round, Spec.round.
  pose proof (field_length _ (ARK1_field r Hr)). pose proof (field_length _ (ARK2_field r Hr)).
  split.
  - set (s1 := Spec.constants (ARK1 !!! r) (Spec.mds s)).
    assert (field_state s1) by (unfold s1; auto with machine).
    rewrite sbox_inv_sbox, (residues_field (Spec.constants _ _)) by auto with machine.
    rewrite (proj1 (constants_inverse (ARK2 !!! r) _ ltac:(done) (mds_field _))).
    rewrite mds_inverse by auto with machine. rewrite inv_sbox_sbox, residues_field by done.
    unfold s1. rewrite (proj1 (constants_inverse (ARK1 !!! r) _ ltac:(done) (mds_field _))).
    now apply mds_inverse.
  - set (s1 := Inverse.constants (ARK2 !!! r) (Spec.sbox s)).
    assert (field_state s1) by (unfold s1; auto 8 with machine).
    rewrite inverse_mds by auto 8 with machine.
    rewrite (proj2 (constants_inverse (ARK1 !!! r) _ ltac:(done) (inv_sbox_field _ (field_length _ (inv_mds_field _))))).
    rewrite sbox_inv_sbox, residues_field by auto with machine.
    rewrite inverse_mds by done. unfold s1.
    rewrite (proj2 (constants_inverse (ARK2 !!! r) _ ltac:(done) (sbox_field _ (field_length _ Hs)))).
    rewrite inv_sbox_sbox. now apply residues_field.
Qed.

Lemma rounds_inverse n s :
  field_state s -> (n <= NUM_ROUNDS)%nat ->
  let fwd s := foldl Spec.round s (seq 0 n) in
  let bwd s := foldl Inverse.round s (reverse (seq 0 n)) in
  bwd (fwd s) = s /\ fwd (bwd s) = s /\ field_state (fwd s) /\ field_state (bwd s).
Proof.
  cbv zeta. revert s. induction n as [|n IH]; intros s Hs Hn; [done|].
  rewrite seq_S, reverse_snoc, !foldl_app. simpl.
  destruct (IH s Hs ltac:(lia)) as (Hbf & Hfb & Hf & Hb).
  assert (field_state (Spec.round (foldl Spec.round s (seq 0 n)) n)) as Hf'
    by (apply round_field; [lia | now apply field_length]).
  rewrite (proj1 (round_inverse _ n Hf ltac:(lia))).
  pose proof (inv_round_field s n) as Hi. destruct (IH _ Hi ltac:(lia)) as (_ & Hfb' & _ & Hb').
  rewrite Hfb', (proj2 (round_inverse _ n Hs ltac:(lia))). done.
Qed.

(** C5 (refinement).  On every state of twelve 64-bit words, canonical or not, the permutation of
    [rpo.c] computes the reference permutation of the residues modulo p, and its result is
    canonical. *)
Theorem apply_permutation_refines (s : list Z) :
  word_state s ->
  apply_permutation s = Spec.permutation (residues s) /\ field_state (apply_permutation s).
Proof.
  intros Hs. destruct (apply_permutation_spec s Hs) as [-> Hf]. split; [|done].
  symmetry. apply permutation_eqm. unfold residues.
  rewrite <- (list_fmap_id s) at 2. apply fmap_mod_eqm.
Qed.

Lemma apply_permutation_refines_witness :
  word_state (Z.of_nat <$> seq 0 12) /\ field_state (apply_permutation (Z.of_nat <$> seq 0 12)).
Proof.
  assert (word_state (Z.of_nat <$> seq 0 12)) as H by (unfold word_state; by_decide).
  split; [exact H|]. exact (proj2 (apply_permutation_refines _ H)).
Defined.

(** The S-box x^7 and the addition chain of [apply_inv_sbox] are inverse to each
    other on every state of 64-bit words, up to reduction modulo p: the chain computes the
    exponent 1/7 modulo p - 1. *)
Lemma sbox_roundtrip (s : list Z) :
  word_state s ->
  apply_inv_sbox (apply_sbox s) = residues s /\ apply_sbox (apply_inv_sbox s) = residues s.
Proof.
  intros Hs. split.
  - rewrite apply_sbox_spec, apply_inv_sbox_spec by auto with machine. apply inv_sbox_sbox.
  - rewrite apply_inv_sbox_spec, apply_sbox_spec by auto with machine. apply sbox_inv_sbox.
Qed.

(** C40 (invariant).  The permutation is a bijection of the canonical states: [Inverse.permutation]
    (inverse MDS matrix, constants subtracted, S-boxes exchanged, rounds backwards) undoes it on
    both sides. *)
Theorem apply_permutation_bijective (s : list Z) :
  field_state s ->
  field_state (Inverse.permutation s) /\
  Inverse.permutation (apply_permutation s) = s /\ apply_permutation (Inverse.permutation s) = s.
Proof.
  intros Hs. destruct (rounds_inverse NUM_ROUNDS s Hs ltac:(done)) as (Hbf & Hfb & Hf & Hb).
  change (field_state (Inverse.permutation s)) in Hb.
  split; [exact Hb|]. rewrite (proj1 (apply_permutation_spec s (field_word_state _ Hs))).
  rewrite (proj1 (apply_permutation_spec _ (field_word_state _ Hb))).
  split; [exact Hbf | exact Hfb].
Qed.

Lemma apply_permutation_bijective_witness :
  field_state (replicate 12 0) /\ Inverse.permutation (apply_permutation (replicate 12 0)) = replicate 12 0.
Proof.
  assert (field_state (replicate 12 0)) as H by (unfold field_state; by_decide).
  split; [exact H|]. exact (proj1 (proj2 (apply_permutation_bijective _ H))).
Defined.
