(* ===== verification/RpoSve.v ===== *)
(** RpoSve: the vector back end of the RPO rounds, [arch/arm64-sve/rpo/rpo_hash.h] and [library.c].

    The SVE intrinsics are compiler built-ins: an interface, [Sve], with the laws of the ARM C language
    extensions for the lanes a predicate selects ([SveLaws]; an [_x] form leaves the other lanes
    unspecified).  The words of the state are in Montgomery form, the representation of the caller; the
    theorem relates the two entry points to the scalar functions of [rpo.c]. *)

From Stdlib Require Import ZArith Lia.
From stdpp Require Import base numbers list.
From S2P Require Import Prelude NumberTheory RpoField RpoPermutation.

(** * The intrinsics *)

Class Sve := {
  svuint64_t : Type;
  svbool_t : Type;
  svcntd : nat;
  svptrue_b64 : svbool_t;
  svld1 : svbool_t -> list Z -> nat -> svuint64_t;
  svst1 : svbool_t -> list Z -> nat -> svuint64_t -> list Z;
  svindex_u64 : Z -> Z -> svuint64_t;
  svadd_x : svbool_t -> svuint64_t -> svuint64_t -> svuint64_t;
  svsub_x : svbool_t -> svuint64_t -> svuint64_t -> svuint64_t;
  svmul_x : svbool_t -> svuint64_t -> svuint64_t -> svuint64_t;
  svmulh_x : svbool_t -> svuint64_t -> svuint64_t -> svuint64_t;
  svlsl_x : svbool_t -> svuint64_t -> Z -> svuint64_t;
  svlsr_x : svbool_t -> svuint64_t -> Z -> svuint64_t;
  svsub_m : svbool_t -> svuint64_t -> Z -> svuint64_t;
  svcmplt_u64 : svbool_t -> svuint64_t -> svuint64_t -> svbool_t
}.

(** What the lanes hold: [active pg i] when the predicate selects lane [i]. *)
Class SveLaws (SV : Sve) := {
  lane : svuint64_t -> nat -> Z;
  active : svbool_t -> nat -> bool;
  active_ptrue i : (i < svcntd)%nat -> active svptrue_b64 i = true;
  lane_ld1 pg mem off i : (i < svcntd)%nat -> active pg i = true -> lane (svld1 pg mem off) i = mem !!! (off + i)%nat;
  st1_length pg mem off v : length (svst1 pg mem off v) = length mem;
  st1_lookup pg mem off v k :
    (k < length mem)%nat ->
    svst1 pg mem off v !!! k =
      if ((off <=? k) && (k <? off + svcntd))%nat && active pg (k - off) then lane v (k - off) else mem !!! k;
  lane_index b s i : (i < svcntd)%nat -> lane (svindex_u64 b s) i = u64 (b + s * Z.of_nat i);
  lane_add pg x y i : (i < svcntd)%nat -> active pg i = true -> lane (svadd_x pg x y) i = u64 (lane x i + lane y i);
  lane_sub pg x y i : (i < svcntd)%nat -> active pg i = true -> lane (svsub_x pg x y) i = u64 (lane x i - lane y i);
  lane_mul pg x y i : (i < svcntd)%nat -> active pg i = true -> lane (svmul_x pg x y) i = u64 (lane x i * lane y i);
  lane_mulh pg x y i : (i < svcntd)%nat -> active pg i = true -> lane (svmulh_x pg x y) i = (lane x i * lane y i) .>> 64;
  lane_lsl pg x n i : (i < svcntd)%nat -> active pg i = true -> lane (svlsl_x pg x n) i = u64 (lane x i .<< n);
  lane_lsr pg x n i : (i < svcntd)%nat -> active pg i = true -> lane (svlsr_x pg x n) i = lane x i .>> n;
  lane_sub_m pg x s i : (i < svcntd)%nat -> lane (svsub_m pg x s) i = if active pg i then u64 (lane x i - s) else lane x i;
  active_cmplt pg x y i : (i < svcntd)%nat -> active (svcmplt_u64 pg x y) i = active pg i && (lane x i <? lane y i)
}.

(** [__builtin_sub_overflow] and [__builtin_add_overflow] on [uint64_t]. *)
Definition sub_overflow (a b : Z) : Z * bool := (u64 (a - b), a <? b).
Definition add_overflow (a b : Z) : Z * bool := (u64 (a + b), 2 ^ 64 <=? a + b).

Section Operations.
Context {SV : Sve}.

(** Two vectors and four scalars: the twelve words of a state. *)
Definition regs : Type := svuint64_t * svuint64_t * list Z.

(** The statements of [add_constants] for one scalar, and for one vector. *)
Definition add_scalar (state const : Z) : Z :=
  let p := u64 (P - const) in
  let '(x, o) := sub_overflow state p in
  let adj := u32 (- bit o) in
  u64 (x - adj).

Definition add_vector (pg : svbool_t) (state const : svuint64_t) : svuint64_t :=
  let Mv := svindex_u64 P 0 in
  let p := svsub_x pg Mv const in
  let x := svsub_x pg state p in
  let pt := svcmplt_u64 pg state p in
  svsub_m pt x (u32 (-1)).

Definition add_constants (pg : svbool_t) (state const : regs) : regs :=
  let '(state1, state2, state3) := state in
  let '(const1, const2, const3) := const in
  let state3 := [add_scalar (state3 !!! 0%nat) (const3 !!! 0%nat); add_scalar (state3 !!! 1%nat) (const3 !!! 1%nat);
                 add_scalar (state3 !!! 2%nat) (const3 !!! 2%nat); add_scalar (state3 !!! 3%nat) (const3 !!! 3%nat)] in
  (add_vector pg state1 const1, add_vector pg state2 const2, state3).

(** The statements of [mul] for one scalar, and for one vector. *)
Definition mul_scalar (r op : Z) : Z :=
  let x := u128 (r * op) in
  let x0 := u64 x in
  let x1 := u64 (x .>> 64) in
  let '(a, e) := add_overflow x0 (u64 (x0 .<< 32)) in
  let b := u64 (u64 (a - (a .>> 32)) - bit e) in
  let '(r, c) := sub_overflow x1 b in
  let minus1 := u32 (0 - bit c) in
  u64 (r - minus1).

Definition mul_vector (pg : svbool_t) (r op : svuint64_t) : svuint64_t :=
  let l := svmul_x pg r op in
  let ls := svlsl_x pg l 32 in
  let a := svadd_x pg l ls in
  let e := svcmplt_u64 pg a l in
  let as_ := svlsr_x pg a 32 in
  let b := svsub_x pg a as_ in
  let b := svsub_m e b 1 in
  let h := svmulh_x pg r op in
  let tr := svsub_x pg h b in
  let c := svcmplt_u64 pg h b in
  svsub_m c tr (u32 (-1)).

Definition mul (pg : svbool_t) (r op : regs) : regs :=
  let '(r1, r2, r3) := r in
  let '(op1, op2, op3) := op in
  let r3 := [mul_scalar (r3 !!! 0%nat) (op3 !!! 0%nat); mul_scalar (r3 !!! 1%nat) (op3 !!! 1%nat);
             mul_scalar (r3 !!! 2%nat) (op3 !!! 2%nat); mul_scalar (r3 !!! 3%nat) (op3 !!! 3%nat)] in
  (mul_vector pg r1 op1, mul_vector pg r2 op2, r3).

(** [mul(pg, a, a, b, b, c, c)]: every operand is read before the result that replaces it is written. *)
Definition sq (pg : svbool_t) (a : regs) : regs := mul pg a a.

Definition POW_ACC (pg : svbool_t) (name : regs) (cnt : nat) (tail : regs) : regs :=
  mul pg (for_up 0 cnt (fun _ name => sq pg name) name) tail.

Definition apply_sbox (pg : svbool_t) (state : regs) : regs :=
  let x := state in
  let x := sq pg x in
  let state := mul pg state x in
  let x := sq pg x in
  mul pg state x.

Definition apply_inv_sbox (pg : svbool_t) (state : regs) : regs :=
  let t1 := sq pg state in
  let t2 := sq pg t1 in
  let t3 := POW_ACC pg t2 3 t2 in
  let t4 := POW_ACC pg t3 6 t3 in
  let t5 := POW_ACC pg t4 12 t4 in
  let t6 := POW_ACC pg t5 6 t3 in
  let t7 := POW_ACC pg t6 31 t6 in
  let t7 := sq pg t7 in
  let t7 := mul pg t7 t6 in
  let t7 := sq pg t7 in
  let t7 := sq pg t7 in
  let t7 := mul pg t7 t1 in
  let t7 := mul pg t7 t2 in
  mul pg state t7.

(** The loads, the scalars used in place, and the stores of the two entry points. *)
Definition load (state : list Z) : regs :=
  (svld1 svptrue_b64 state (0 * svcntd), svld1 svptrue_b64 state (1 * svcntd), drop 8 state).

Definition store (state : list Z) (r : regs) : list Z :=
  let '(state1, state2, state3) := r in
  let state := take 8 state ++ state3 in
  svst1 svptrue_b64 (svst1 svptrue_b64 state (0 * svcntd) state1) (1 * svcntd) state2.

Definition add_constants_and_apply_sbox (state constants : list Z) : bool * list Z :=
  if negb (svcntd =? 4)%nat then (false, state)
  else
    let r := add_constants svptrue_b64 (load state) (load constants) in
    (true, store state (apply_sbox svptrue_b64 r)).

Definition add_constants_and_apply_inv_sbox (state constants : list Z) : bool * list Z :=
  if negb (svcntd =? 4)%nat then (false, state)
  else
    let r := add_constants svptrue_b64 (load state) (load constants) in
    (true, store state (apply_inv_sbox svptrue_b64 r)).
End Operations.

(** * One word *)

(** Montgomery form. *)
Definition mont (x : Z) : Z := x * 2 ^ 64 mod P.

Lemma mont_canonical x : canonical (mont x).
Proof. apply canonical_mod. Qed.

(** 2^64 is invertible. *)
Lemma cancel_two64 a b : a * 2 ^ 64 ≡[P] b * 2 ^ 64 -> a ≡[P] b.
Proof.
  intros H. assert (forall x, x ≡[P] x * 2 ^ 64 * - 2 ^ 32) as Hinv.
  { intros x. apply (cong_intro _ _ _ (x * (2 ^ 32 + 1))). rewrite P_value. ring. }
  rewrite (Hinv a), (Hinv b). now rewrite H.
Qed.

Lemma add_scalar_spec x c : canonical x -> canonical c -> add_scalar x c = (x + c) mod P.
Proof.
  unfold add_scalar, sub_overflow, canonical. rewrite P_value. intros Hx Hc.
  rewrite (wrap_small 64 (_ - c)) by (unfold in_width; lia).
  destruct (Z.ltb_spec x (18446744069414584321 - c)); cbn [bit]; word_lia.
Qed.

(** The middle of the reduction: with [hi] and [lo] the halves of the low word, [b] is
    [(hi + lo) 2^32 - hi], brought below p. *)
Lemma mont_middle hi lo :
  in_width 32 hi -> in_width 32 lo ->
  let x0 := hi * 2 ^ 32 + lo in
  let t := u64 (x0 .<< 32) in
  let a := u64 (x0 + t) in
  let e := 2 ^ 64 <=? x0 + t in
  let b := u64 (u64 (a - (a .>> 32)) - bit e) in
  canonical b /\ b = (hi + lo) * 2 ^ 32 - hi - bit e * P.
Proof.
  unfold in_width, canonical. intros Hh Hl. cbv zeta. rewrite shiftl32, !shiftr32.
  assert (u64 ((hi * 2 ^ 32 + lo) * 2 ^ 32) = lo * 2 ^ 32) as ->.
  { rewrite wrap_mod by lia. replace ((hi * 2 ^ 32 + lo) * 2 ^ 32) with (lo * 2 ^ 32 + hi * 2 ^ 64) by ring.
    rewrite Z_mod_plus_full. apply Z.mod_small. lia. }
  rewrite P_value. destruct (Z.leb_spec (2 ^ 64) (hi * 2 ^ 32 + lo + lo * 2 ^ 32)) as [He|He]; cbn [bit].
  - assert (u64 (hi * 2 ^ 32 + lo + lo * 2 ^ 32) = (hi + lo - 2 ^ 32) * 2 ^ 32 + lo) as -> by word_lia.
    assert (((hi + lo - 2 ^ 32) * 2 ^ 32 + lo) / 2 ^ 32 = hi + lo - 2 ^ 32) as ->
      by (rewrite Z.div_add_l, Z.div_small by lia; lia).
    rewrite (wrap_small 64 ((hi + lo - 2 ^ 32) * 2 ^ 32 + lo - _)), wrap_small by (unfold in_width; lia). lia.
  - rewrite (wrap_small 64 (hi * 2 ^ 32 + lo + lo * 2 ^ 32)) by (unfold in_width; lia).
    replace (hi * 2 ^ 32 + lo + lo * 2 ^ 32) with ((hi + lo) * 2 ^ 32 + lo) by ring.
    assert (((hi + lo) * 2 ^ 32 + lo) / 2 ^ 32 = hi + lo) as -> by (rewrite Z.div_add_l, Z.div_small by lia; lia).
    rewrite (wrap_small 64 ((hi + lo) * 2 ^ 32 + lo - _)), wrap_small by (unfold in_width; lia). lia.
Qed.

(** The reduction of a product below p * 2^64: exact division by 2^64 modulo p. *)
Lemma mul_scalar_spec x y :
  canonical x -> canonical y -> canonical (mul_scalar x y) /\ mul_scalar x y * 2 ^ 64 ≡[P] x * y.
Proof.
  intros Hx Hy. unfold mul_scalar, add_overflow, sub_overflow.
  assert (0 <= x * y < P * P) as Hp by (unfold canonical in *; nia). rewrite P_value in Hp.
  rewrite (wrap_small 128 (x * y)) by (unfold in_width; lia).
  set (p := x * y) in *. clearbody p. clear x y Hx Hy.
  set (hi := u32 (u64 p .>> 32)). set (lo := u32 (u64 p)). set (x1 := u64 (p .>> 64)).
  destruct (halves (u64 p) (wrap_range 64 p ltac:(lia))) as (Hx0 & Hh & Hl). fold hi lo in Hx0, Hh, Hl.
  assert (p = x1 * 2 ^ 64 + u64 p /\ 0 <= x1 < 18446744069414584320) as (Hpe & H1).
  { subst x1. rewrite Z.shiftr_div_pow2 by lia. clear - Hp. split; word_lia. }
  pose proof (mont_middle hi lo Hh Hl) as Hb. cbv zeta in Hb. rewrite <- Hx0 in Hb. cbv zeta.
  set (b := u64 (u64 _ - bit _)) in *. set (e := bit _) in Hb. destruct Hb as [Hb Hbe]. clearbody b x1. 
  assert (b * 2 ^ 64 ≡[P] - u64 p) as Hcb.
  { rewrite Hbe, Hx0. apply (cong_intro _ _ _ ((hi + lo) * (2 ^ 32 + 1) - hi - e * 2 ^ 64)). rewrite P_value. ring. }
  clear Hbe Hx0 Hh Hl. clearbody hi lo e.
  assert (forall r, canonical r -> r ≡[P] x1 - b -> canonical r /\ r * 2 ^ 64 ≡[P] p) as Hr.
  { intros r Hr Hcr. split; [done|]. rewrite Hcr, Z.mul_sub_distr_r, Hcb. apply (cong_intro _ _ _ 0). lia. }
  unfold canonical in *. rewrite P_value in *. destruct (Z.ltb_spec x1 b); cbn [bit].
  - apply Hr; [word_lia | apply (cong_intro _ _ _ 1)]. word_lia.
  - apply Hr; [word_lia | apply (cong_intro _ _ _ 0)]. word_lia.
Qed.

Lemma mont_mul a b : mul_scalar (mont a) (mont b) = mont (a * b).
Proof.
  destruct (mul_scalar_spec (mont a) (mont b) (mont_canonical a) (mont_canonical b)) as [Hc Hm].
  apply cong_canonical; [done|]. apply cancel_two64. rewrite Hm. unfold mont. rewrite !cong_mod by apply P_pos.
  apply (cong_intro _ _ _ 0). ring.
Qed.

Lemma mont_add a b : (mont a + mont b) mod P = mont ((a + b) mod P).
Proof.
  apply cong_mod_iff; [apply P_pos|]. unfold mont. rewrite !cong_mod by apply P_pos. apply (cong_intro _ _ _ 0). ring.
Qed.

(** * Twelve words *)

Section Lanes.
Context {SV : Sve} {L : SveLaws SV} (Hvl : svcntd = 4%nat).

(** The twelve words that the registers hold. *)
Definition words (r : regs) : list Z :=
  let '(r1, r2, r3) := r in
  [lane r1 0; lane r1 1; lane r1 2; lane r1 3; lane r2 0; lane r2 1; lane r2 2; lane r2 3;
   r3 !!! 0%nat; r3 !!! 1%nat; r3 !!! 2%nat; r3 !!! 3%nat].

Abbreviation pg := svptrue_b64.

Lemma lane_add_vector x c i : (i < 4)%nat -> lane (add_vector pg x c) i = add_scalar (lane x i) (lane c i).
Proof using L Hvl.
  rewrite <- Hvl. intros Hi. pose proof (active_ptrue i Hi) as Ha. unfold add_vector, add_scalar, sub_overflow. cbv zeta.
  rewrite lane_sub_m, active_cmplt, Ha by done. rewrite !lane_sub, lane_index by done. rewrite Z.mul_0_l, Z.add_0_r.
  change (u64 P) with P. cbn [andb]. destruct (_ <? _); cbn [bit]; [done|]. change (u32 (- 0)) with 0.
  now rewrite Z.sub_0_r, wrap_idem by lia.
Qed.

Lemma lane_mul_vector x y i :
  (i < 4)%nat -> in_width 64 (lane x i) -> in_width 64 (lane y i) ->
  lane (mul_vector pg x y) i = mul_scalar (lane x i) (lane y i).
Proof using L Hvl.
  rewrite <- Hvl. intros Hi Hx Hy. pose proof (active_ptrue i Hi) as Ha. unfold mul_vector, mul_scalar, add_overflow, sub_overflow.
  cbv zeta. rewrite lane_sub_m, active_cmplt, Ha by done.
  rewrite !(lane_sub _ (svmulh_x _ _ _)), lane_mulh by done. rewrite !lane_sub_m, active_cmplt, Ha by done.
  rewrite !lane_sub, lane_lsr, !lane_add, !lane_lsl, !lane_mul by done. cbn [andb].
  set (p := lane x i * lane y i).
  assert (0 <= p < 2 ^ 128) as Hp by (unfold p, in_width in *; nia).
  rewrite (wrap_small 128 p) by done. rewrite (wrap_small 64 (p .>> 64)).
  2: { rewrite Z.shiftr_div_pow2 by lia. split; [apply Z.div_pos; lia | apply Z.div_lt_upper_bound; lia]. }
  set (h := p .>> 64). pose proof (wrap_range 64 p ltac:(lia)) as H0. set (x0 := u64 p) in *.
  pose proof (wrap_range 64 (x0 .<< 32) ltac:(lia)) as Ht. set (t := u64 (x0 .<< 32)) in *.
  assert ((u64 (x0 + t) <? x0) = (2 ^ 64 <=? x0 + t)) as ->.
  { clear - H0 Ht. clearbody x0 t. apply eq_true_iff_eq. rewrite Z.ltb_lt, Z.leb_le. word_lia. }
  set (a := u64 (x0 + t)). assert ((if 2 ^ 64 <=? x0 + t then u64 (u64 (a - (a .>> 32)) - 1) else u64 (a - (a .>> 32)))
    = u64 (u64 (a - (a .>> 32)) - bit (2 ^ 64 <=? x0 + t))) as ->.
  { destruct (_ <=? _); cbn [bit]; [done|]. now rewrite Z.sub_0_r, wrap_idem by lia. }
  set (b := u64 (u64 _ - bit _)). destruct (h <? b); cbn [bit]; [done|]. change (u32 (0 - 0)) with 0.
  now rewrite Z.sub_0_r, wrap_idem by lia.
Qed.

Lemma words_add r c : words (add_constants pg r c) = zip_with add_scalar (words r) (words c).
Proof using L Hvl.
  destruct r as [[r1 r2] r3], c as [[c1 c2] c3]. unfold add_constants. cbn [words lookup_total list_lookup_total zip_with].
  now rewrite !lane_add_vector by lia.
Qed.

Lemma words_mul x y :
  Forall canonical (words x) -> Forall canonical (words y) -> words (mul pg x y) = zip_with mul_scalar (words x) (words y).
Proof using L Hvl.
  destruct x as [[x1 x2] x3], y as [[y1 y2] y3]. unfold mul. cbn [words lookup_total list_lookup_total zip_with].
  rewrite !Forall_cons_iff. intros Hx Hy. rewrite !lane_mul_vector; [reflexivity | try lia.. ];
    apply canonical_width; tauto.
Qed.

(** * Powers in Montgomery form *)

Context (xs : list Z).

(** The registers hold the words of [xs] to the power [e], in Montgomery form. *)
Definition holds_power (e : Z) (r : regs) : Prop := words r = (fun x => mont (x ^ e)) <$> xs.

Lemma holds_power_mul e e' a b :
  0 <= e -> 0 <= e' -> holds_power e a -> holds_power e' b -> holds_power (e + e') (mul pg a b).
Proof using L Hvl.
  unfold holds_power. intros He He' Ha Hb. rewrite words_mul by (rewrite ?Ha, ?Hb; apply Forall_fmap, Forall_true; intros; apply mont_canonical).
  rewrite Ha, Hb. clear Ha Hb. induction xs as [|x l IH]; [done|]. cbn [fmap list_fmap zip_with]. f_equal; [|exact IH].
  now rewrite mont_mul, Z.pow_add_r.
Qed.

Lemma holds_power_sq e r : 0 <= e -> holds_power e r -> holds_power (2 * e) (sq pg r).
Proof using L Hvl. intros He Hr. unfold sq. rewrite <- Z.add_diag. now apply holds_power_mul. Qed.

Lemma holds_power_acc e e' cnt r tail :
  0 <= e -> 0 <= e' -> holds_power e r -> holds_power e' tail -> holds_power (e * 2 ^ Z.of_nat cnt + e') (POW_ACC pg r cnt tail).
Proof using L Hvl.
  intros He He' Hr Ht. unfold POW_ACC. apply holds_power_mul; [nia | done | | done].
  induction cnt as [|cnt IH]; [now rewrite Z.mul_1_r|]. rewrite for_up_snoc by lia.
  replace (e * 2 ^ Z.of_nat (S cnt)) with (2 * (e * 2 ^ Z.of_nat cnt)) by (rewrite Nat2Z.inj_succ, Z.pow_succ_r by lia; ring).
  apply holds_power_sq; [nia | exact IH].
Qed.

Lemma sbox_power r : holds_power 1 r -> holds_power 7 (apply_sbox pg r).
Proof using L Hvl.
  intros Hr. unfold apply_sbox. cbv zeta. pose proof (holds_power_sq 1 r ltac:(lia) Hr) as H2.
  apply (holds_power_mul 3 4); [lia | lia | apply (holds_power_mul 1 2); [lia | lia | exact Hr | exact H2]|].
  exact (holds_power_sq 2 _ ltac:(lia) H2).
Qed.

(** The addition chain reaches 1/7 modulo p - 1. *)
Lemma inv_sbox_power r : holds_power 1 r -> holds_power Spec.INV_ALPHA (apply_inv_sbox pg r).
Proof using L Hvl.
  intros Hr. unfold apply_inv_sbox. cbv zeta. pose proof (holds_power_sq 1 r ltac:(lia) Hr) as H1.
  pose proof (holds_power_sq 2 _ ltac:(lia) H1) as H2. set (t1 := sq pg r) in *. set (t2 := sq pg t1) in *.
  set (t3 := POW_ACC pg t2 3 t2). set (t4 := POW_ACC pg t3 6 t3). set (t5 := POW_ACC pg t4 12 t4).
  set (t6 := POW_ACC pg t5 6 t3). set (t7 := POW_ACC pg t6 31 t6).
  assert (holds_power 36 t3) as Ht3 by exact (holds_power_acc 4 4 3 t2 t2 ltac:(lia) ltac:(lia) H2 H2).
  assert (holds_power 2340 t4) as Ht4 by exact (holds_power_acc 36 36 6 t3 t3 ltac:(lia) ltac:(lia) Ht3 Ht3).
  assert (holds_power 9586980 t5) as Ht5 by exact (holds_power_acc 2340 2340 12 t4 t4 ltac:(lia) ltac:(lia) Ht4 Ht4).
  assert (holds_power 613566756 t6) as Ht6 by exact (holds_power_acc 9586980 36 6 t5 t3 ltac:(lia) ltac:(lia) Ht5 Ht3).
  assert (holds_power 1317624576079972644 t7) as Ht7 by exact (holds_power_acc 613566756 613566756 31 t6 t6 ltac:(lia) ltac:(lia) Ht6 Ht6).
  assert (holds_power 2635249152773512044 (mul pg (sq pg t7) t6)) as H9
    by exact (holds_power_mul 2635249152159945288 613566756 _ _ ltac:(lia) ltac:(lia) (holds_power_sq 1317624576079972644 t7 ltac:(lia) Ht7) Ht6).
  pose proof (holds_power_sq 5270498305547024088 _ ltac:(lia) (holds_power_sq 2635249152773512044 _ ltac:(lia) H9)) as H11.
  pose proof (holds_power_mul 10540996611094048176 2 _ _ ltac:(lia) ltac:(lia) H11 H1) as H12.
  exact (holds_power_mul 1 10540996611094048182 _ _ ltac:(lia) ltac:(lia) Hr (holds_power_mul 10540996611094048178 4 _ _ ltac:(lia) ltac:(lia) H12 H2)).
Qed.

(** * Loads and stores *)

Lemma words_load (state : list Z) : length state = 12%nat -> words (load state) = state.
Proof using L Hvl.
  intros Hl. unfold load. rewrite Hvl. cbn [words].
  rewrite !lane_ld1 by (try apply active_ptrue; rewrite Hvl; lia). rewrite !lookup_total_drop.
  do 12 (destruct state as [|? state]; [discriminate Hl|]). destruct state; [reflexivity | discriminate Hl].
Qed.

Lemma store_words (state : list Z) r1 r2 r3 :
  length state = 12%nat -> length r3 = 4%nat -> store state (r1, r2, r3) = words (r1, r2, r3).
Proof using L Hvl.
  intros Hl H3. unfold store. cbn [words]. set (m := take 8 state ++ r3).
  assert (length m = 12%nat) as Hm by (subst m; rewrite length_app, length_take; lia).
  apply list_eq_total; [now rewrite !st1_length|]. intros k Hk. rewrite !st1_length in Hk.
  rewrite !st1_lookup by (rewrite ?st1_length; exact Hk). rewrite Hvl.
  destruct (Nat.leb_spec 4 k), (Nat.ltb_spec k 8); try lia.
  - replace ((1 * 4 <=? k) && (k <? 1 * 4 + 4))%nat with true by (symmetry; apply andb_true_iff; rewrite Nat.leb_le, Nat.ltb_lt; lia).
    rewrite active_ptrue by (rewrite Hvl; lia). cbn [andb]. assert (k = 4 \/ k = 5 \/ k = 6 \/ k = 7)%nat as Hc by lia.
    destruct Hc as [-> | [-> | [-> | ->]]]; reflexivity.
  - replace ((1 * 4 <=? k) && (k <? 1 * 4 + 4))%nat with false by (symmetry; apply andb_false_iff; rewrite Nat.leb_gt, Nat.ltb_ge; lia).
    replace ((0 * 4 <=? k) && (k <? 0 * 4 + 4))%nat with false by (symmetry; apply andb_false_iff; rewrite Nat.leb_gt, Nat.ltb_ge; lia).
    cbn [andb]. unfold m. rewrite lookup_total_app_r by (rewrite length_take; lia). rewrite length_take, Hl.
    assert (k = 8 \/ k = 9 \/ k = 10 \/ k = 11)%nat as Hc by lia. destruct Hc as [-> | [-> | [-> | ->]]]; reflexivity.
  - replace ((1 * 4 <=? k) && (k <? 1 * 4 + 4))%nat with false by (symmetry; apply andb_false_iff; rewrite Nat.leb_gt, Nat.ltb_ge; lia).
    replace ((0 * 4 <=? k) && (k <? 0 * 4 + 4))%nat with true by (symmetry; apply andb_true_iff; rewrite Nat.leb_le, Nat.ltb_lt; lia).
    cbn [andb]. rewrite active_ptrue by (rewrite Hvl; lia). assert (k = 0 \/ k = 1 \/ k = 2 \/ k = 3)%nat as Hc by lia.
    destruct Hc as [-> | [-> | [-> | ->]]]; reflexivity.
Qed.

End Lanes.

(** The registers after the constants hold the sums. *)
Lemma constants_words {SV : Sve} {L : SveLaws SV} (s c : list Z) :
  svcntd = 4%nat -> field_state s -> field_state c ->
  holds_power (RpoPermutation.apply_constants s c) 1 (add_constants svptrue_b64 (load (mont <$> s)) (load (mont <$> c))).
Proof.
  intros Hvl Hs Hc. rewrite apply_constants_spec by done. destruct Hs as [Hls Hs], Hc as [Hlc Hc].
  unfold holds_power. rewrite words_add, !words_load by (assumption || now rewrite length_fmap).
  clear Hls Hlc. unfold Spec.constants. revert c Hc. induction Hs as [|x l Hx Hl IH]; intros c Hc; [done|].
  destruct Hc as [|k c Hk Hc]; [done|]. cbn [fmap list_fmap zip_with]. rewrite IH by done. f_equal.
  rewrite add_scalar_spec, mont_add, Z.pow_1_r by apply mont_canonical. reflexivity.
Qed.

(** A result of the register code, stored. *)
Lemma store_power {SV : Sve} {L : SveLaws SV} (state xs : list Z) e (r : regs) :
  svcntd = 4%nat -> length state = 12%nat -> length r.2 = 4%nat -> holds_power xs e r ->
  store state r = mont <$> ((fun x => x ^ e mod P) <$> xs).
Proof.
  intros Hvl Hl H3 Hr. destruct r as [[r1 r2] r3]. rewrite store_words by assumption. rewrite Hr, <- list_fmap_compose. apply list_fmap_ext.
  intros _ x _. unfold compose. apply cong_mod_iff; [apply P_pos|]. now rewrite (cong_mod P (x ^ e)) by apply P_pos.
Qed.

Lemma mul_scalars {SV : Sve} pg (a b : regs) : length (mul pg a b).2 = 4%nat.
Proof. destruct a as [[a1 a2] a3], b as [[b1 b2] b3]. reflexivity. Qed.

(** Either entry point, for a power [e] computed by [op]. *)
Lemma entry_correct {SV : Sve} {L : SveLaws SV} (s c : list Z) e (op : regs -> regs) :
  svcntd = 4%nat -> field_state s -> field_state c ->
  (forall xs r, holds_power xs 1 r -> holds_power xs e (op r)) -> (forall r, length (op r).2 = 4%nat) ->
  (if negb (svcntd =? 4)%nat then (false, mont <$> s)
   else (true, store (mont <$> s) (op (add_constants svptrue_b64 (load (mont <$> s)) (load (mont <$> c)))))) =
  (true, mont <$> ((fun x => x ^ e mod P) <$> RpoPermutation.apply_constants s c)).
Proof.
  intros Hvl Hs Hc Hop Hlen. pose proof (constants_words s c Hvl Hs Hc) as H1.
  rewrite (proj2 (Nat.eqb_eq _ _) Hvl). change (negb true) with false. cbv match.
  rewrite (store_power (mont <$> s) (RpoPermutation.apply_constants s c) e); [reflexivity | exact Hvl | | apply Hlen | now apply Hop].
  rewrite length_fmap. apply Hs.
Qed.

Lemma constants_word_state s c : field_state s -> field_state c -> word_state (RpoPermutation.apply_constants s c).
Proof.
  intros Hs Hc. rewrite apply_constants_spec by done. apply field_word_state, constants_field; [apply Hs | apply Hc].
Qed.

(** C36 (equivalence).  The vector back end computes what [rpo.c] computes: on processors with 256-bit vectors,
    [add_constants_and_apply_sbox] and [add_constants_and_apply_inv_sbox] applied to a state and constants in
    Montgomery form give the Montgomery form of [apply_constants] followed by [apply_sbox], respectively
    [apply_inv_sbox], and report [true]; with any other vector length they report [false] and leave the
    state as it was, for the caller to run the scalar code. *)
Theorem sve_equivalent {SV : Sve} {L : SveLaws SV} (s c : list Z) :
  field_state s -> field_state c ->
  (svcntd = 4%nat ->
    add_constants_and_apply_sbox (mont <$> s) (mont <$> c) =
      (true, mont <$> RpoPermutation.apply_sbox (RpoPermutation.apply_constants s c)) /\
    add_constants_and_apply_inv_sbox (mont <$> s) (mont <$> c) =
      (true, mont <$> RpoPermutation.apply_inv_sbox (RpoPermutation.apply_constants s c))) /\
  (svcntd <> 4%nat -> forall state constants,
    add_constants_and_apply_sbox state constants = (false, state) /\
    add_constants_and_apply_inv_sbox state constants = (false, state)).
Proof.
  intros Hs Hc. split.
  - intros Hvl. pose proof (constants_word_state s c Hs Hc) as Ht.
    rewrite (apply_sbox_spec _ Ht), (apply_inv_sbox_spec _ Ht). split.
    + apply (entry_correct s c 7 (apply_sbox svptrue_b64) Hvl Hs Hc); [intros; now apply sbox_power | intros; apply mul_scalars].
    + apply (entry_correct s c Spec.INV_ALPHA (apply_inv_sbox svptrue_b64) Hvl Hs Hc);
        [intros; now apply inv_sbox_power | intros; apply mul_scalars].
  - intros Hvl%Nat.eqb_neq state constants. unfold add_constants_and_apply_sbox, add_constants_and_apply_inv_sbox.
    now rewrite Hvl.
Qed.

(** * Vectors of [n] lanes *)

(** The predicated operations, with zero in the lanes that an [_x] form leaves unspecified. *)
Definition sve_lanes (n : nat) : Sve := {|
  svuint64_t := nat -> Z;
  svbool_t := nat -> bool;
  svcntd := n;
  svptrue_b64 := fun _ => true;
  svld1 := fun pg mem off i => if pg i then mem !!! (off + i)%nat else 0;
  svst1 := fun pg mem off v => imap (fun k w => if ((off <=? k) && (k <? off + n))%nat && pg (k - off)%nat then v (k - off)%nat else w) mem;
  svindex_u64 := fun b s i => u64 (b + s * Z.of_nat i);
  svadd_x := fun pg x y i => if pg i then u64 (x i + y i) else 0;
  svsub_x := fun pg x y i => if pg i then u64 (x i - y i) else 0;
  svmul_x := fun pg x y i => if pg i then u64 (x i * y i) else 0;
  svmulh_x := fun pg x y i => if pg i then (x i * y i) .>> 64 else 0;
  svlsl_x := fun pg x k i => if pg i then u64 (x i .<< k) else 0;
  svlsr_x := fun pg x k i => if pg i then x i .>> k else 0;
  svsub_m := fun pg x s i => if pg i then u64 (x i - s) else x i;
  svcmplt_u64 := fun pg x y i => pg i && (x i <? y i)
|}.

#[export] Instance sve_lanes_laws n : SveLaws (sve_lanes n).
Proof.
  refine (Build_SveLaws (sve_lanes n) (fun v i => v i) (fun p i => p i) _ _ _ _ _ _ _ _ _ _ _ _ _); cbn.
  all: try (intros * _; intros ->; reflexivity); try reflexivity; try (intros; reflexivity).
  - intros. apply length_imap.
  - intros pg mem off v k Hk. now rewrite lookup_total_imap.
Defined.

Lemma sve_equivalent_witness :
  field_state (ARK1 !!! 0%nat) /\ field_state (ARK1 !!! 1%nat) /\
  add_constants_and_apply_inv_sbox (SV := sve_lanes 4) (mont <$> ARK1 !!! 0%nat) (mont <$> ARK1 !!! 1%nat) =
    (true, mont <$> RpoPermutation.apply_inv_sbox (RpoPermutation.apply_constants (ARK1 !!! 0%nat) (ARK1 !!! 1%nat))).
Proof.
  assert (field_state (ARK1 !!! 0%nat)) as H0 by (apply ARK1_field; unfold NUM_ROUNDS; lia).
  assert (field_state (ARK1 !!! 1%nat)) as H1 by (apply ARK1_field; unfold NUM_ROUNDS; lia).
  split; [exact H0|]. split; [exact H1|].
  exact (proj2 (proj1 (sve_equivalent (SV := sve_lanes 4) (ARK1 !!! 0%nat) (ARK1 !!! 1%nat) H0 H1) eq_refl)).
Defined.
