(* ===== verification/RpoSponge.v ===== *)
(** RpoSponge: the RPO128 sponge of [rpo.c] and the hash-to-point of the signature scheme.

    [rpo128_context] is the C structure: the union [st] as its 96 bytes (the view [st.A] reads them
    as twelve little-endian words, the byte order of every target of the build) and [dptr].  The
    loops that depend on a byte count run on fuel, return [None] when it runs out or when they would
    write or read outside [st.dbuf], and are shown never to do so.  The reference is the byte-wise
    sponge [absorb_byte] / [squeeze_byte]. *)

From Stdlib Require Import ZArith Lia.
From stdpp Require Import base numbers list option.
From S2P Require Import Prelude NumberTheory RpoField RpoPermutation.

(** [#define M] of rpo.c, the Falcon modulus. *)
Definition M : Z := 12289.

(** * The union: bytes and words *)

(** Little-endian load of the bytes, least significant first. *)
Fixpoint le_load (bs : list Z) : Z :=
  match bs with
  | [] => 0
  | b :: bs => b + 256 * le_load bs
  end.

(** Little-endian store of [n] bytes. *)
Fixpoint le_store (n : nat) (w : Z) : list Z :=
  match n with
  | O => []
  | S n => u8 w :: le_store n (w .>> 8)
  end.

Fixpoint load_words (n : nat) (bs : list Z) : list Z :=
  match n with
  | O => []
  | S n => le_load (take 8 bs) :: load_words n (drop 8 bs)
  end.

Definition store_words (ws : list Z) : list Z := ws ≫= le_store 8.

Record rpo128_context := mk_rpo128 { dbuf : list Z; dptr : Z }.

(** [st.A] of the union. *)
Definition st_A (rc : rpo128_context) : list Z := load_words STATE_WIDTH (dbuf rc).

(** [apply_permutation(rc->st.A)], on the bytes of the union. *)
Definition permute_union (bs : list Z) : list Z :=
  store_words (apply_permutation (load_words STATE_WIDTH bs)).

(** * The operations *)

(** The state [rpo128_init] finds is irrelevant: both fields are overwritten. *)
Definition rpo128_init : rpo128_context := mk_rpo128 (replicate 96 0) 32.

(** The [while (len > 0)] loop of [rpo128_absorb]; [inp] is the unread part of the input. *)
Fixpoint absorb_loop (fuel : nat) (dbuf : list Z) (dptr : Z) (inp : list Z) : option (list Z * Z) :=
  let len := Z.of_nat (length inp) in
  if len =? 0 then Some (dbuf, dptr)
  else match fuel with
  | O => None
  | S fuel =>
      let clen := u64 (96 - dptr) in
      let clen := if len <? clen then len else clen in
      if 96 <? dptr + clen then None
      else
        let dbuf := for_up 0 (Z.to_nat clen)
          (fun u dbuf => <[(Z.to_nat dptr + u)%nat := inp !!! u]> dbuf) dbuf in
        let dptr := u64 (dptr + clen) in
        let inp := drop (Z.to_nat clen) inp in
        if dptr =? 96 then absorb_loop fuel (permute_union dbuf) 32 inp
        else absorb_loop fuel dbuf dptr inp
  end.

Definition rpo128_absorb (rc : rpo128_context) (inp : list Z) : option rpo128_context :=
  '(b, p) ← absorb_loop (2 + length inp) (dbuf rc) (dptr rc) inp; Some (mk_rpo128 b p).

Definition rpo128_finalize (rc : rpo128_context) : rpo128_context := mk_rpo128 (dbuf rc) 96.

(** The [while (len > 0)] loop of [rpo128_squeeze]; [out] is what was written so far. *)
Fixpoint squeeze_loop (fuel : nat) (dbuf : list Z) (dptr len : Z) (out : list Z) :
    option (list Z * Z * list Z) :=
  if len =? 0 then Some (dbuf, dptr, out)
  else match fuel with
  | O => None
  | S fuel =>
      let '(dbuf, dptr) := if dptr =? 96 then (permute_union dbuf, 32) else (dbuf, dptr) in
      let clen := u64 (96 - dptr) in
      let clen := if len <? clen then len else clen in
      let len := u64 (len - clen) in
      if 96 <? dptr + clen then None
      else
        let out := out ++ take (Z.to_nat clen) (drop (Z.to_nat dptr) dbuf) in
        squeeze_loop fuel dbuf (u64 (dptr + clen)) len out
  end.

Definition rpo128_squeeze (rc : rpo128_context) (len : Z) : option (rpo128_context * list Z) :=
  '(b, p, out) ← squeeze_loop (Z.to_nat len) (dbuf rc) (dptr rc) len [];
  Some (mk_rpo128 b p, out).

Definition rpo128_release (rc : rpo128_context) : rpo128_context := mk_rpo128 (replicate 96 0) 32.

(** The [while (n > 0)] loop of the hash-to-point: one 8-byte little-endian word per coefficient. *)
Fixpoint hash_to_point_loop (n : nat) (rc : rpo128_context) (x : list Z) :
    option (rpo128_context * list Z) :=
  match n with
  | O => Some (rc, x)
  | S n =>
      '(rc, buf) ← rpo128_squeeze rc 8;
      let w := u64 ((buf !!! 7%nat) .<< 56) .| u64 ((buf !!! 6%nat) .<< 48)
            .| u64 ((buf !!! 5%nat) .<< 40) .| u64 ((buf !!! 4%nat) .<< 32)
            .| u64 ((buf !!! 3%nat) .<< 24) .| u64 ((buf !!! 2%nat) .<< 16)
            .| u64 ((buf !!! 1%nat) .<< 8) .| (buf !!! 0%nat) in
      let w := w mod M in
      hash_to_point_loop n rc (x ++ [u16 w])
  end.

Definition hash_to_point_rpo (rc : rpo128_context) (logn : nat) : option (rpo128_context * list Z) :=
  hash_to_point_loop (2 ^ logn) rc [].

(** * Well-formed contexts *)

Record wf (rc : rpo128_context) : Prop := {
  wf_len : length (dbuf rc) = 96%nat;
  wf_bytes : Forall (in_width 8) (dbuf rc);
  wf_dptr : 32 <= dptr rc <= 96
}.

(** * The byte-wise reference *)

Definition absorb_byte (s : list Z * Z) (b : Z) : list Z * Z :=
  let '(d, p) := if s.2 =? 96 then (permute_union s.1, 32) else s in
  let d := <[Z.to_nat p := b]> d in
  if p + 1 =? 96 then (permute_union d, 32) else (d, p + 1).

Definition squeeze_byte (s : list Z * Z) : list Z * Z * Z :=
  let '(d, p) := if s.2 =? 96 then (permute_union s.1, 32) else s in
  (d, p + 1, d !!! Z.to_nat p).

Fixpoint squeeze_bytes (n : nat) (s : list Z * Z) : list Z * Z * list Z :=
  match n with
  | O => (s, [])
  | S n => let '(s, b) := squeeze_byte s in let '(s, bs) := squeeze_bytes n s in (s, b :: bs)
  end.

(** * Little-endian words *)

Lemma le_store_length n w : length (le_store n w) = n.
Proof. revert w. induction n; simpl; auto. Qed.

Lemma le_store_bytes n w : Forall (in_width 8) (le_store n w).
Proof. revert w. induction n; simpl; constructor; auto. apply wrap_range. lia. Qed.

Lemma le_load_store n w : in_width (8 * Z.of_nat n) w -> le_load (le_store n w) = w.
Proof.
  revert w. induction n as [|n IH]; intros w Hw; cbn [le_store le_load].
  - unfold in_width in Hw. change (2 ^ (8 * Z.of_nat 0)) with 1 in Hw. lia.
  - rewrite IH.
    + rewrite Z.shiftr_div_pow2 by lia. rewrite wrap_mod by lia. change (2 ^ 8) with 256.
      pose proof (Z.div_mod w 256). lia.
    + unfold in_width in *. rewrite Z.shiftr_div_pow2 by lia.
      rewrite (pow2_split 8 (8 * Z.of_nat n)) in Hw by lia.
      split; [apply Z.div_pos; lia | apply Z.div_lt_upper_bound; lia].
Qed.

Lemma le_load_range bs : Forall (in_width 8) bs -> in_width (8 * Z.of_nat (length bs)) (le_load bs).
Proof.
  induction 1 as [|b bs Hb Hbs IH]; cbn [le_load length]; [done|].
  unfold in_width in *. rewrite (pow2_split 8 (8 * Z.of_nat (length bs))) by lia.
  change (2 ^ 8) with 256 in *. nia.
Qed.

Lemma le_store_load bs : Forall (in_width 8) bs -> le_store (length bs) (le_load bs) = bs.
Proof.
  induction 1 as [|b bs Hb Hbs IH]; cbn [le_load length le_store]; [done|].
  pose proof (le_load_range _ Hbs) as [Hr _]. unfold in_width in Hb. f_equal.
  - rewrite wrap_mod by lia. rewrite Z.mul_comm, Z_mod_plus_full. now apply Z.mod_small.
  - rewrite Z.shiftr_div_pow2 by lia. rewrite Z.mul_comm, Z.div_add by lia.
    rewrite Z.div_small by lia. exact IH.
Qed.

Lemma load_words_length n bs : length (load_words n bs) = n.
Proof. revert bs. induction n; simpl; auto. Qed.

Lemma store_words_cons w ws : store_words (w :: ws) = le_store 8 w ++ store_words ws.
Proof. done. Qed.

Lemma store_words_length ws : length (store_words ws) = (8 * length ws)%nat.
Proof.
  induction ws as [|w ws IH]; [done|].
  rewrite store_words_cons, length_app, le_store_length, IH. simpl. lia.
Qed.

Lemma store_words_bytes ws : Forall (in_width 8) (store_words ws).
Proof. apply Forall_bind, Forall_true. intros. apply le_store_bytes. Qed.

Lemma load_store_words ws : Forall (in_width 64) ws -> load_words (length ws) (store_words ws) = ws.
Proof.
  induction 1 as [|w ws Hw Hws IH]; [done|]. rewrite store_words_cons. cbn [length load_words].
  rewrite take_app_length' by (symmetry; apply le_store_length).
  rewrite drop_app_length' by (symmetry; apply le_store_length). rewrite IH. f_equal.
  now apply (le_load_store 8).
Qed.

Lemma load_words_range n bs :
  length bs = (8 * n)%nat -> Forall (in_width 8) bs -> Forall (in_width 64) (load_words n bs).
Proof.
  revert bs. induction n as [|n IH]; intros bs Hl Hb; cbn [load_words]; constructor.
  - pose proof (le_load_range (take 8 bs) ltac:(now apply Forall_take)) as H.
    rewrite length_take, Nat.min_l in H by lia. exact H.
  - apply IH; [rewrite length_drop; lia | now apply Forall_drop].
Qed.

Lemma store_load_words n bs :
  length bs = (8 * n)%nat -> Forall (in_width 8) bs -> store_words (load_words n bs) = bs.
Proof.
  revert bs. induction n as [|n IH]; intros bs Hl Hb; cbn [load_words].
  - destruct bs; [done | simpl in Hl; lia].
  - rewrite store_words_cons, IH by (rewrite ?length_drop; auto using Forall_drop; lia).
    replace 8%nat with (length (take 8 bs)) at 1 by (rewrite length_take; lia).
    rewrite le_store_load by now apply Forall_take. apply take_drop.
Qed.

(** * The union stays a union of bytes *)

Definition bytes96 (d : list Z) : Prop := length d = 96%nat /\ Forall (in_width 8) d.

Lemma load_words_word_state d : bytes96 d -> word_state (load_words STATE_WIDTH d).
Proof.
  intros [Hl Hb]. split; [apply load_words_length|]. now apply load_words_range.
Qed.

Lemma permute_union_bytes d : bytes96 d -> bytes96 (permute_union d).
Proof.
  intros Hd. destruct (apply_permutation_spec _ (load_words_word_state d Hd)) as [_ [Hl _]].
  split; [| apply store_words_bytes]. unfold permute_union. now rewrite store_words_length, Hl.
Qed.

(** Reading the words back after the permutation gives the permuted words. *)
Lemma load_permute_union d :
  bytes96 d ->
  load_words STATE_WIDTH (permute_union d) = apply_permutation (load_words STATE_WIDTH d).
Proof.
  intros Hd. destruct (apply_permutation_spec _ (load_words_word_state d Hd)) as [_ Hf].
  unfold permute_union. rewrite <- (field_length _ Hf). apply load_store_words.
  apply field_word_state in Hf. apply Hf.
Qed.

Definition wf_state (s : list Z * Z) : Prop := bytes96 s.1 /\ 32 <= s.2 <= 96.

Lemma wf_wf_state rc : wf rc <-> wf_state (dbuf rc, dptr rc).
Proof. split; [intros [? ? ?] | intros [[? ?] ?]]; repeat split; simpl in *; lia || done. Qed.

(** Both byte steps begin by bringing the pointer back inside the rate. *)
Definition refill (s : list Z * Z) : list Z * Z :=
  if s.2 =? 96 then (permute_union s.1, 32) else s.

Lemma refill_wf s : wf_state s -> bytes96 (refill s).1 /\ 32 <= (refill s).2 < 96.
Proof.
  intros [Hb Hp]. unfold refill. destruct (Z.eqb_spec s.2 96); simpl; split; try done; try lia.
  now apply permute_union_bytes.
Qed.

Lemma absorb_byte_refill s b :
  absorb_byte s b =
  let '(d, p) := refill s in
  let d := <[Z.to_nat p := b]> d in
  if p + 1 =? 96 then (permute_union d, 32) else (d, p + 1).
Proof. done. Qed.

Lemma absorb_byte_wf s b : in_width 8 b -> wf_state s -> wf_state (absorb_byte s b).
Proof.
  intros Hb Hs. rewrite absorb_byte_refill. destruct (refill_wf s Hs) as [[Hl Hd] Hp].
  destruct (refill s) as [d p]. simpl in *.
  assert (bytes96 (<[Z.to_nat p := b]> d)) as Hd'.
  { split; [now rewrite length_insert | now apply Forall_insert]. }
  destruct (Z.eqb_spec (p + 1) 96); split; simpl; try done; try lia. now apply permute_union_bytes.
Qed.

Lemma absorb_bytes_wf s bs : Forall (in_width 8) bs -> wf_state s -> wf_state (foldl absorb_byte s bs).
Proof.
  intros Hbs. revert s. induction Hbs as [|b bs Hb Hbs IH]; intros s Hs; simpl; [done|].
  apply IH. now apply absorb_byte_wf.
Qed.

(** * The loops compute the byte-wise sponge *)

(** One iteration of the absorbing loop is [k] byte steps. *)
Lemma absorb_block inp k d p :
  (k <= length inp)%nat -> 32 <= p < 96 -> p + Z.of_nat k <= 96 ->
  foldl absorb_byte (d, p) (take k inp) =
  let d' := for_up 0 k (fun u d => <[(Z.to_nat p + u)%nat := inp !!! u]> d) d in
  if p + Z.of_nat k =? 96 then (permute_union d', 32) else (d', p + Z.of_nat k).
Proof.
  intros Hk Hp. induction k as [|k IH]; intros Hpk.
  - rewrite take_0. simpl. rewrite Z.add_0_r. destruct (Z.eqb_spec p 96); [lia | done].
  - rewrite (take_S_r _ _ (inp !!! k)) by (apply list_lookup_lookup_total_lt; lia).
    rewrite foldl_app, IH by lia. cbv zeta. destruct (Z.eqb_spec (p + Z.of_nat k) 96); [lia|].
    rewrite for_up_snoc by lia. cbn [foldl]. rewrite absorb_byte_refill. unfold refill. simpl snd.
    destruct (Z.eqb_spec (p + Z.of_nat k) 96); [lia|].
    replace (Z.to_nat (p + Z.of_nat k)) with (Z.to_nat p + k)%nat by lia.
    replace (p + Z.of_nat (S k)) with (p + Z.of_nat k + 1) by lia. done.
Qed.

(** Absorbing at the end of the buffer permutes first. *)
Lemma absorb_at_end d inp :
  inp <> [] -> foldl absorb_byte (d, 96) inp = foldl absorb_byte (permute_union d, 32) inp.
Proof. destruct inp; [done|]. intros _. simpl. f_equal. Qed.

Lemma u64_small z : 0 <= z < 2 ^ 64 -> u64 z = z.
Proof. apply wrap_small. Qed.

Lemma absorb_loop_spec fuel : forall inp d p,
  (length inp + (if (p =? 96)%Z then 1 else 0) < fuel)%nat ->
  Forall (in_width 8) inp -> wf_state (d, p) ->
  absorb_loop fuel d p inp = Some (foldl absorb_byte (d, p) inp).
Proof.
  induction fuel as [|fuel IH]; intros inp d p Hf Hb Hs; [lia|].
  pose proof Hs as [Hd Hp]. simpl in Hd, Hp. cbn [absorb_loop].
  destruct (Z.eqb_spec (Z.of_nat (length inp)) 0) as [Hn|Hn].
  { destruct inp; [done | simpl in Hn; lia]. }
  rewrite u64_small by lia.
  set (clen := if Z.of_nat (length inp) <? 96 - p then Z.of_nat (length inp) else 96 - p).
  assert (0 <= clen <= 96 - p /\ clen <= Z.of_nat (length inp) /\ (p < 96 -> 0 < clen))
    as (Hc & Hcl & Hpos).
  { unfold clen. destruct (Z.ltb_spec (Z.of_nat (length inp)) (96 - p)); lia. }
  clearbody clen. destruct (Z.ltb_spec 96 (p + clen)); [lia|]. rewrite (u64_small (p + clen)) by lia.
  destruct (Z.eqb_spec p 96) as [He|Hne].
  - subst p. replace clen with 0 by lia. change (Z.to_nat 0) with 0%nat.
    rewrite drop_0. change (96 + 0 =? 96) with true. cbv iota.
    rewrite IH; [| simpl; lia | done | split; [now apply permute_union_bytes | simpl; lia]].
    rewrite absorb_at_end; [done|]. intros ->. now simpl in Hn.
  - pose proof (absorb_block inp (Z.to_nat clen) d p ltac:(lia) ltac:(lia) ltac:(lia)) as Hblk.
    rewrite Z2Nat.id in Hblk by lia. cbv zeta in Hblk.
    pose proof (absorb_bytes_wf _ _ (Forall_take _ (Z.to_nat clen) _ Hb) Hs) as Hw.
    rewrite <- (take_drop (Z.to_nat clen) inp) at 3. rewrite foldl_app.
    rewrite Hblk in Hw |- *. set (d' := for_up 0 (Z.to_nat clen) _ d) in *.
    destruct (Z.eqb_spec (p + clen) 96) as [He|He].
    + apply IH; [rewrite length_drop; simpl; lia | now apply Forall_drop | done].
    + apply IH; [rewrite length_drop | now apply Forall_drop | done].
      destruct (Z.eqb_spec (p + clen) 96); lia.
Qed.

Lemma squeeze_bytes_add a b s :
  squeeze_bytes (a + b) s =
  let '(s1, x) := squeeze_bytes a s in let '(s2, y) := squeeze_bytes b s1 in (s2, x ++ y).
Proof.
  revert s. induction a as [|a IH]; intros s; simpl; [now destruct (squeeze_bytes b s)|].
  destruct (squeeze_byte s) as [s1 c]. rewrite IH.
  destruct (squeeze_bytes a s1) as [s2 x]. now destruct (squeeze_bytes b s2).
Qed.

(** One iteration of the squeezing loop is [k] byte steps. *)
Lemma squeeze_block k : forall d p,
  length d = 96%nat -> 0 <= p < 96 -> p + Z.of_nat k <= 96 ->
  squeeze_bytes k (d, p) = ((d, p + Z.of_nat k), take k (drop (Z.to_nat p) d)).
Proof.
  induction k as [|k IH]; intros d p Hd Hp Hk; [now rewrite Z.add_0_r, take_0|].
  cbn [squeeze_bytes]. unfold squeeze_byte. simpl snd. destruct (Z.eqb_spec p 96); [lia|].
  rewrite (drop_S d (d !!! Z.to_nat p)) by (apply list_lookup_lookup_total_lt; lia).
  cbn [take]. destruct k as [|k'].
  - done.
  - rewrite IH by lia. replace (Z.to_nat (p + 1)) with (S (Z.to_nat p)) by lia.
    replace (p + Z.of_nat (S (S k'))) with (p + 1 + Z.of_nat (S k')) by lia. done.
Qed.

Lemma squeeze_bytes_length n s : length (squeeze_bytes n s).2 = n.
Proof.
  revert s. induction n as [|n IH]; intros s; [done|]. cbn [squeeze_bytes].
  destruct (squeeze_byte s) as [s1 b]. specialize (IH s1).
  destruct (squeeze_bytes n s1). simpl in *. lia.
Qed.

Lemma squeeze_bytes_refill n s : (0 < n)%nat -> squeeze_bytes n s = squeeze_bytes n (refill s).
Proof.
  destruct n as [|n]; [lia|]. intros _. cbn [squeeze_bytes]. unfold squeeze_byte, refill.
  destruct (Z.eqb_spec s.2 96) as [H|H]; [done|]. destruct (Z.eqb_spec s.2 96); done.
Qed.

Lemma squeeze_loop_spec fuel : forall d p len out,
  0 <= len < 2 ^ 64 -> (Z.to_nat len <= fuel)%nat -> wf_state (d, p) ->
  squeeze_loop fuel d p len out =
  let '(s, bs) := squeeze_bytes (Z.to_nat len) (d, p) in Some (s.1, s.2, out ++ bs).
Proof.
  induction fuel as [|fuel IH]; intros d p len out Hlen Hf Hs.
  - replace len with 0 by lia. simpl. now rewrite app_nil_r.
  - cbn [squeeze_loop]. destruct (Z.eqb_spec len 0) as [->|Hn]; [simpl; now rewrite app_nil_r|].
    rewrite squeeze_bytes_refill by lia.
    destruct (refill_wf _ Hs) as [[Hd Hb] Hp]. unfold refill in *. simpl in *.
    destruct (if p =? 96 then _ else _) as [d' p']. simpl in *. clear Hs d p.
    rewrite u64_small by lia.
    set (clen := if len <? 96 - p' then len else 96 - p').
    assert (0 < clen <= 96 - p' /\ clen <= len) as [Hc Hcl]
      by (unfold clen; destruct (Z.ltb_spec len (96 - p')); lia).
    clearbody clen. destruct (Z.ltb_spec 96 (p' + clen)); [lia|].
    rewrite !u64_small by lia.
    rewrite IH by (repeat split; simpl; lia || done).
    replace (Z.to_nat len) with (Z.to_nat clen + Z.to_nat (len - clen))%nat by lia.
    rewrite squeeze_bytes_add, (squeeze_block (Z.to_nat clen)), Z2Nat.id by lia.
    destruct (squeeze_bytes (Z.to_nat (len - clen)) (d', p' + clen)). now rewrite app_assoc.
Qed.

Lemma squeeze_bytes_wf n : forall s, wf_state s -> wf_state (squeeze_bytes n s).1.
Proof.
  induction n as [|n IH]; intros s Hs; [done|]. cbn [squeeze_bytes].
  destruct (refill_wf s Hs) as [Hb Hp]. unfold squeeze_byte, refill in *.
  destruct (if s.2 =? 96 then _ else _) as [d p]. simpl in *.
  specialize (IH (d, p + 1)). destruct (squeeze_bytes n (d, p + 1)). apply IH.
  split; [done | simpl; lia].
Qed.

Lemma absorb_spec rc inp :
  wf rc -> Forall (in_width 8) inp ->
  let s := foldl absorb_byte (dbuf rc, dptr rc) inp in
  rpo128_absorb rc inp = Some (mk_rpo128 s.1 s.2) /\ wf (mk_rpo128 s.1 s.2).
Proof.
  cbv zeta. intros Hrc Hb. apply wf_wf_state in Hrc as Hs. unfold rpo128_absorb.
  rewrite absorb_loop_spec; [| destruct (Z.eqb_spec (dptr rc) 96); lia | done | done].
  pose proof (absorb_bytes_wf _ _ Hb Hs) as Hw. cbn.
  destruct (foldl absorb_byte _ _) as [d p]. split; [done|]. now apply wf_wf_state.
Qed.

Lemma squeeze_spec rc len :
  wf rc -> 0 <= len < 2 ^ 64 ->
  let r := squeeze_bytes (Z.to_nat len) (dbuf rc, dptr rc) in
  rpo128_squeeze rc len = Some (mk_rpo128 r.1.1 r.1.2, r.2) /\ wf (mk_rpo128 r.1.1 r.1.2).
Proof.
  cbv zeta. intros Hrc Hb. apply wf_wf_state in Hrc as Hs. unfold rpo128_squeeze.
  rewrite squeeze_loop_spec by (done || lia).
  pose proof (squeeze_bytes_wf (Z.to_nat len) _ Hs) as Hw.
  destruct (squeeze_bytes _ _) as [[d p] bs]. split; [done|]. now apply wf_wf_state.
Qed.

(** * Words out of the sponge *)

(** The seven shifts and disjunctions of the hash-to-point are a little-endian load. *)
Lemma le_load_lor b0 b1 b2 b3 b4 b5 b6 b7 :
  Forall (in_width 8) [b0; b1; b2; b3; b4; b5; b6; b7] ->
  u64 (b7 .<< 56) .| u64 (b6 .<< 48) .| u64 (b5 .<< 40) .| u64 (b4 .<< 32)
    .| u64 (b3 .<< 24) .| u64 (b2 .<< 16) .| u64 (b1 .<< 8) .| b0
  = le_load [b0; b1; b2; b3; b4; b5; b6; b7].
Proof.
  intros Hb. rewrite !Forall_cons_iff in Hb. unfold in_width in Hb. change (2 ^ 8) with 256 in Hb.
  destruct Hb as (H0&H1&H2&H3&H4&H5&H6&H7&_).
  rewrite !u64_small by (rewrite Z.shiftl_mul_pow2 by lia; lia).
  rewrite <- !Z.lor_assoc.
  rewrite (lor_shiftl_add b1), (lor_shiftl_add b2), (lor_shiftl_add b3), (lor_shiftl_add b4),
    (lor_shiftl_add b5), (lor_shiftl_add b6), (lor_shiftl_add b7) by lia.
  cbn [le_load]. lia.
Qed.

Lemma load_words_lookup n bs j :
  (j < n)%nat -> load_words n bs !!! j = le_load (take 8 (drop (8 * j) bs)).
Proof.
  revert bs j. induction n as [|n IH]; intros bs j Hj; [lia|]. cbn [load_words].
  destruct j as [|j]; [done|]. change (load_words n (drop 8 bs) !!! j = le_load (take 8 (drop (8 * S j) bs))).
  rewrite IH, drop_drop by lia. do 3 f_equal. lia.
Qed.

(** Squeezing eight bytes at a word boundary yields the next word of the rate. *)
Lemma squeeze_word d j :
  bytes96 d -> (4 <= j < 12)%nat ->
  exists b0 b1 b2 b3 b4 b5 b6 b7,
    squeeze_bytes 8 (d, Z.of_nat (8 * j)) =
      ((d, Z.of_nat (8 * S j)), [b0; b1; b2; b3; b4; b5; b6; b7]) /\
    Forall (in_width 8) [b0; b1; b2; b3; b4; b5; b6; b7] /\
    le_load [b0; b1; b2; b3; b4; b5; b6; b7] = load_words STATE_WIDTH d !!! j.
Proof.
  intros [Hl Hb] Hj. rewrite squeeze_block by lia. rewrite load_words_lookup by (unfold STATE_WIDTH; lia).
  rewrite Nat2Z.id. set (w := take 8 (drop (8 * j) d)).
  assert (length w = 8%nat) as Hw by (unfold w; rewrite length_take, length_drop; lia).
  assert (Forall (in_width 8) w) as Hwb by (unfold w; now apply Forall_take, Forall_drop).
  clearbody w. do 8 (destruct w as [|? w]; [done|]). destruct w; [|done].
  do 8 eexists. split; [|split; [exact Hwb | reflexivity]]. do 2 f_equal. lia.
Qed.

#[global] Arguments load_words : simpl never.
#[global] Arguments permute_union : simpl never.
#[global] Arguments apply_permutation : simpl never.
#[global] Opaque apply_permutation.


(** The [i]-th word a finalized sponge with words [A] yields: eight words of the rate (4..11) per
    permutation. *)
Definition sponge_word (A : list Z) (i : nat) : Z :=
  Nat.iter (S (i / 8)) apply_permutation A !!! (4 + i mod 8)%nat.

(** Where the context stands after [i] words were squeezed from a finalized context over [A]. *)
Definition squeezed (A : list Z) (i : nat) (rc : rpo128_context) : Prop :=
  wf rc /\ st_A rc = Nat.iter ((i + 7) / 8) apply_permutation A /\
  dptr rc = if (i mod 8 =? 0)%nat then 96 else Z.of_nat (8 * (4 + i mod 8)).

Lemma squeezed_refill A i rc :
  squeezed A i rc ->
  let s := refill (dbuf rc, dptr rc) in
  bytes96 s.1 /\ load_words STATE_WIDTH s.1 = Nat.iter (S (i / 8)) apply_permutation A /\
  s.2 = Z.of_nat (8 * (4 + i mod 8)).
Proof.
  intros (Hwf & HA & Hp). cbv zeta. apply wf_wf_state in Hwf as [Hd _]. cbn [fst snd] in Hd.
  unfold st_A in HA. unfold refill. cbn [fst snd]. rewrite Hp.
  pose proof (Nat.mod_upper_bound i 8 ltac:(lia)). pose proof (Nat.div_mod_eq i 8).
  destruct (Nat.eqb_spec (i mod 8) 0) as [Hz|Hz].
  - rewrite Z.eqb_refl. cbn [fst snd]. split; [now apply permute_union_bytes|]. split; [|lia].
    rewrite load_permute_union, HA by done.
    rewrite Nat.iter_succ. do 2 f_equal. symmetry. apply (Nat.div_unique _ _ _ 7); lia.
  - destruct (Z.eqb_spec (Z.of_nat (8 * (4 + i mod 8))) 96); [lia|]. cbn [fst snd].
    split; [done|]. split; [|done]. rewrite HA. f_equal.
    symmetry. apply (Nat.div_unique _ _ _ (i mod 8 - 1)); lia.
Qed.

Lemma squeeze_one A i rc :
  squeezed A i rc ->
  exists rc' b0 b1 b2 b3 b4 b5 b6 b7,
    rpo128_squeeze rc 8 = Some (rc', [b0; b1; b2; b3; b4; b5; b6; b7]) /\
    squeezed A (S i) rc' /\
    Forall (in_width 8) [b0; b1; b2; b3; b4; b5; b6; b7] /\
    le_load [b0; b1; b2; b3; b4; b5; b6; b7] = sponge_word A i.
Proof.
  intros Hsq. pose proof Hsq as (Hwf & _ & _). destruct (squeezed_refill A i rc Hsq) as (Hd & HA & Hp).
  destruct (squeeze_spec rc 8 Hwf ltac:(lia)) as [He Hwf']. revert He Hwf'.
  rewrite squeeze_bytes_refill by lia.
  destruct (refill (dbuf rc, dptr rc)) as [d p]. cbn [fst snd] in Hd, HA, Hp.
  pose proof (Nat.mod_upper_bound i 8 ltac:(lia)). pose proof (Nat.div_mod_eq i 8).
  destruct (squeeze_word d (4 + i mod 8) Hd ltac:(lia)) as (b0&b1&b2&b3&b4&b5&b6&b7&Hb&Hr&Hl).
  change (Z.to_nat 8) with 8%nat. subst p. rewrite Hb. cbn [fst snd]. intros He Hwf'.
  eexists; do 8 eexists. split; [exact He|]. split; [|split; [exact Hr | now rewrite Hl, HA]].
  split; [exact Hwf'|]. unfold st_A. cbn [dbuf dptr]. split.
  - rewrite HA. f_equal. apply (Nat.div_unique _ _ _ (i mod 8)); lia.
  - destruct (Nat.eqb_spec (S i mod 8) 0) as [Hz|Hz].
    + pose proof (Nat.div_mod_eq (S i) 8). lia.
    + assert (S i mod 8 = S (i mod 8))%nat as ->; [|lia].
      symmetry. apply (Nat.mod_unique _ _ (i / 8)); [|lia].
      destruct (decide (i mod 8 = 7)%nat); [|lia]. exfalso. apply Hz.
      symmetry. apply (Nat.mod_unique _ _ (S (i / 8))); lia.
Qed.

Lemma hash_to_point_loop_spec A n : forall i rc x,
  squeezed A i rc ->
  exists rc', hash_to_point_loop n rc x = Some (rc', x ++ ((fun k => sponge_word A k mod M) <$> seq i n)) /\
    squeezed A (i + n) rc'.
Proof.
  induction n as [|n IH]; intros i rc x Hsq.
  - exists rc. simpl. rewrite app_nil_r, Nat.add_0_r. done.
  - cbn [hash_to_point_loop]. destruct (squeeze_one A i rc Hsq)
      as (rc1&b0&b1&b2&b3&b4&b5&b6&b7&He&Hsq1&Hr&Hl). rewrite He. cbn [mbind option_bind].
    change ([b0; b1; b2; b3; b4; b5; b6; b7] !!! 0%nat) with b0.
    change ([b0; b1; b2; b3; b4; b5; b6; b7] !!! 1%nat) with b1.
    change ([b0; b1; b2; b3; b4; b5; b6; b7] !!! 2%nat) with b2.
    change ([b0; b1; b2; b3; b4; b5; b6; b7] !!! 3%nat) with b3.
    change ([b0; b1; b2; b3; b4; b5; b6; b7] !!! 4%nat) with b4.
    change ([b0; b1; b2; b3; b4; b5; b6; b7] !!! 5%nat) with b5.
    change ([b0; b1; b2; b3; b4; b5; b6; b7] !!! 6%nat) with b6.
    change ([b0; b1; b2; b3; b4; b5; b6; b7] !!! 7%nat) with b7.
    rewrite le_load_lor, Hl by done.
    assert (in_width 16 (sponge_word A i mod M)) as H16.
    { unfold in_width, M. pose proof (Z.mod_pos_bound (sponge_word A i) 12289). lia. }
    rewrite (wrap_small 16) by done.
    destruct (IH (S i) rc1 (x ++ [sponge_word A i mod M]) Hsq1) as (rc2 & -> & Hsq2).
    exists rc2. rewrite <- app_assoc. split; [done|]. now rewrite Nat.add_succ_comm in Hsq2.
Qed.

Lemma finalize_squeezed rc : wf rc -> squeezed (st_A rc) 0 (rpo128_finalize rc).
Proof. intros [Hl Hb Hp]. repeat split; simpl; try done; lia. Qed.

Lemma hash_to_point_spec rc logn :
  wf rc ->
  exists rc', hash_to_point_rpo (rpo128_finalize rc) logn =
    Some (rc', (fun k => sponge_word (st_A rc) k mod M) <$> seq 0 (2 ^ logn)).
Proof.
  intros Hwf. destruct (hash_to_point_loop_spec (st_A rc) (2 ^ logn) 0 _ [] (finalize_squeezed rc Hwf))
    as (rc' & He & _). exists rc'. exact He.
Qed.

Lemma wf_init : wf rpo128_init.
Proof. split; [done | unfold rpo128_init; simpl; by_decide | simpl; lia]. Qed.

(** * The word-level sponge: absorbing field-element-sized words *)

(** One eight-byte word absorbed at rate position [j] of the state words [A]. *)
Definition absorb_word (s : list Z * nat) (w : Z) : list Z * nat :=
  let A := <[s.2 := w]> s.1 in
  if (S s.2 =? 12)%nat then (apply_permutation A, 4%nat) else (A, S s.2).

(** The writing loop of [rpo128_absorb] replaces a slice. *)
Lemma write_slice (d inp : list Z) off k :
  (off + k <= length d)%nat -> (k <= length inp)%nat ->
  for_up 0 k (fun u d => <[(off + u)%nat := inp !!! u]> d) d =
  take off d ++ take k inp ++ drop (off + k) d.
Proof.
  induction k as [|k IH]; intros Hd Hi.
  - rewrite take_0, Nat.add_0_r. symmetry. apply take_drop.
  - rewrite for_up_snoc, IH by lia.
    rewrite (take_S_r inp k (inp !!! k)) by (apply list_lookup_lookup_total_lt; lia).
    rewrite (drop_S d (d !!! (off + k)%nat)) by (apply list_lookup_lookup_total_lt; lia).
    rewrite insert_app_r_alt by (rewrite length_take; lia).
    rewrite length_take, Nat.min_l by lia. replace (off + k - off)%nat with k by lia.
    rewrite insert_app_r_alt by (rewrite length_take; lia).
    rewrite length_take, Nat.min_l, Nat.sub_diag by lia. cbn [list_insert insert].
    rewrite <- app_assoc. do 3 f_equal. f_equal. lia.
Qed.

Lemma load_words_slice n (d w : list Z) j :
  length d = (8 * n)%nat -> length w = 8%nat -> (j < n)%nat ->
  load_words n (take (8 * j) d ++ w ++ drop (8 * j + 8) d) = <[j := le_load w]> (load_words n d).
Proof.
  intros Hd Hw Hj. apply list_eq_total.
  { now rewrite length_insert, !load_words_length. }
  rewrite load_words_length. intros k Hk. rewrite load_words_lookup by done.
  destruct (decide (j = k)) as [->|Hne].
  - rewrite list_lookup_total_insert_eq by now rewrite load_words_length.
    rewrite drop_app_length' by (rewrite length_take; lia).
    now rewrite take_app_length' by done.
  - rewrite list_lookup_total_insert_ne, load_words_lookup by done. f_equal.
    destruct (decide (k < j)%nat).
    + rewrite drop_app_le by (rewrite length_take; lia).
      rewrite take_app_le by (rewrite length_drop, length_take; lia).
      rewrite !take_drop_commute, take_take. do 2 f_equal. lia.
    + rewrite drop_app_ge by (rewrite length_take; lia). rewrite length_take.
      rewrite drop_app_ge by lia. rewrite drop_drop. do 2 f_equal. lia.
Qed.

Lemma absorb_word_spec d w j :
  bytes96 d -> Forall (in_width 8) w -> length w = 8%nat -> (4 <= j < 12)%nat ->
  let s := foldl absorb_byte (d, Z.of_nat (8 * j)) w in
  let t := absorb_word (load_words STATE_WIDTH d, j) (le_load w) in
  bytes96 s.1 /\ load_words STATE_WIDTH s.1 = t.1 /\ s.2 = Z.of_nat (8 * t.2) /\ (4 <= t.2 < 12)%nat.
Proof.
  intros Hd Hb Hw Hj. cbv zeta. pose proof Hd as [Hl Hdb].
  pose proof (absorb_block w 8 d (Z.of_nat (8 * j)) ltac:(lia) ltac:(lia) ltac:(lia)) as He.
  rewrite take_ge in He by lia. rewrite He. cbv zeta. clear He.
  rewrite Nat2Z.id, write_slice, (take_ge w) by lia.
  set (d' := take (8 * j) d ++ w ++ drop (8 * j + 8) d).
  assert (bytes96 d') as Hd'.
  { split; [unfold d'; rewrite !length_app, length_take, length_drop; lia|].
    unfold d'. rewrite !Forall_app. auto using Forall_take, Forall_drop. }
  assert (load_words STATE_WIDTH d' = <[j := le_load w]> (load_words STATE_WIDTH d)) as HA
    by (apply load_words_slice; done || (unfold STATE_WIDTH; lia)).
  clearbody d'. unfold absorb_word. cbn [fst snd].
  destruct (Nat.eqb_spec (S j) 12) as [E|E];
    destruct (Z.eqb_spec (Z.of_nat (8 * j) + Z.of_nat 8) 96); try lia; cbn [fst snd].
  - split; [now apply permute_union_bytes|]. rewrite load_permute_union, HA by done. repeat split; lia.
  - split; [done|]. rewrite HA. repeat split; lia.
Qed.

(** Absorbing a whole number of words from a word boundary: the bytes of the code's sponge and the
    words of the reference stay in step. *)
Lemma absorb_words_spec n : forall d j inp,
  bytes96 d -> (4 <= j < 12)%nat -> length inp = (8 * n)%nat -> Forall (in_width 8) inp ->
  let s := foldl absorb_byte (d, Z.of_nat (8 * j)) inp in
  let t := foldl absorb_word (load_words STATE_WIDTH d, j) (load_words n inp) in
  bytes96 s.1 /\ load_words STATE_WIDTH s.1 = t.1 /\ s.2 = Z.of_nat (8 * t.2) /\ (4 <= t.2 < 12)%nat.
Proof.
  induction n as [|n IH]; intros d j inp Hd Hj Hl Hb.
  - destruct inp; [done | simpl in Hl; lia].
  - cbv zeta.
    assert (forall s, foldl absorb_byte s inp = foldl absorb_byte (foldl absorb_byte s (take 8 inp)) (drop 8 inp))
      as Happ by (intros; now rewrite <- foldl_app, take_drop).
    rewrite Happ. clear Happ.
    change (load_words (S n) inp) with (le_load (take 8 inp) :: load_words n (drop 8 inp)).
    cbn [foldl].
    destruct (absorb_word_spec d (take 8 inp) j) as (Hd' & HA & Hp & Hj');
      [done | now apply Forall_take | rewrite length_take; lia | done |].
    destruct (foldl absorb_byte _ (take 8 inp)) as [d' p].
    destruct (absorb_word _ _) as [A' j']. cbn [fst snd] in *. subst p A'.
    apply IH; [done | done | rewrite length_drop; lia | now apply Forall_drop].
Qed.

(** * Properties *)

(** The whole hash of a byte string: initialise, absorb, finalize, draw 2^logn coefficients. *)
Definition hash_message (logn : nat) (m : list Z) : option (list Z) :=
  rc ← rpo128_absorb rpo128_init m;
  '(_, x) ← hash_to_point_rpo (rpo128_finalize rc) logn;
  Some x.

(** [rpo128_absorb] is total and memory-safe on well-formed contexts, keeps them
    well formed, and absorbing a string in two calls is absorbing it in one. *)
Lemma absorb_app (rc : rpo128_context) (a b : list Z) :
  wf rc -> Forall (in_width 8) a -> Forall (in_width 8) b ->
  exists rc1 rc2, rpo128_absorb rc a = Some rc1 /\ rpo128_absorb rc1 b = Some rc2 /\
    rpo128_absorb rc (a ++ b) = Some rc2 /\ wf rc1 /\ wf rc2.
Proof.
  intros Hrc Ha Hb. destruct (absorb_spec rc a Hrc Ha) as [He1 Hw1].
  destruct (absorb_spec _ b Hw1 Hb) as [He2 Hw2].
  destruct (absorb_spec rc (a ++ b) Hrc ltac:(now apply Forall_app)) as [He _].
  do 2 eexists. split; [exact He1|]. split; [exact He2|]. split; [|now split].
  rewrite He, foldl_app. cbn [dbuf dptr]. now destruct (foldl absorb_byte _ a).
Qed.

(** [rpo128_squeeze] is total and memory-safe, returns exactly the bytes asked
    for, and two squeezes return the concatenation one squeeze would. *)
Lemma squeeze_add (rc : rpo128_context) (n m : Z) :
  wf rc -> 0 <= n -> 0 <= m -> n + m < 2 ^ 64 ->
  exists rc1 rc2 x y, rpo128_squeeze rc n = Some (rc1, x) /\ rpo128_squeeze rc1 m = Some (rc2, y) /\
    rpo128_squeeze rc (n + m) = Some (rc2, x ++ y) /\ wf rc1 /\ wf rc2 /\ Z.of_nat (length x) = n.
Proof.
  intros Hrc Hn Hm Hnm. destruct (squeeze_spec rc n Hrc ltac:(lia)) as [He1 Hw1].
  destruct (squeeze_spec _ m Hw1 ltac:(lia)) as [He2 Hw2].
  destruct (squeeze_spec rc (n + m) Hrc ltac:(lia)) as [He _].
  do 4 eexists. split; [exact He1|]. split; [exact He2|]. split; [|split; [exact Hw1 | split; [exact Hw2|]]].
  - rewrite He, Z2Nat.inj_add, squeeze_bytes_add by lia.
    destruct (squeeze_bytes (Z.to_nat n) _) as [[d p] x]. cbn [dbuf dptr fst snd].
    now destruct (squeeze_bytes (Z.to_nat m) (d, p)).
  - pose proof (squeeze_bytes_length (Z.to_nat n) (dbuf rc, dptr rc)). lia.
Qed.

(** The incremental interface of the sponge is total and memory-safe on well-formed
    contexts and independent of the splitting of its calls: absorbing a string in two calls is absorbing
    it in one, [rpo128_squeeze] returns exactly the bytes asked for and two squeezes return the
    concatenation that one would; every context on the way is well formed. *)
Theorem sponge_incremental (rc : rpo128_context) (a b : list Z) (n m : Z) :
  wf rc -> Forall (in_width 8) a -> Forall (in_width 8) b -> 0 <= n -> 0 <= m -> n + m < 2 ^ 64 ->
  (exists rc1 rc2, rpo128_absorb rc a = Some rc1 /\ rpo128_absorb rc1 b = Some rc2 /\
    rpo128_absorb rc (a ++ b) = Some rc2 /\ wf rc1 /\ wf rc2) /\
  (exists rc1 rc2 x y, rpo128_squeeze rc n = Some (rc1, x) /\ rpo128_squeeze rc1 m = Some (rc2, y) /\
    rpo128_squeeze rc (n + m) = Some (rc2, x ++ y) /\ wf rc1 /\ wf rc2 /\ Z.of_nat (length x) = n).
Proof. intros. split; [now apply absorb_app | now apply squeeze_add]. Qed.

Lemma sponge_incremental_witness :
  wf rpo128_init /\ exists rc1 rc2, rpo128_absorb rpo128_init [1; 2; 3] = Some rc1 /\
    rpo128_absorb rc1 [255] = Some rc2 /\ rpo128_absorb rpo128_init [1; 2; 3; 255] = Some rc2 /\
    wf rc1 /\ wf rc2.
Proof.
  split; [exact wf_init|].
  exact (proj1 (sponge_incremental rpo128_init [1; 2; 3] [255] 5 7 wf_init ltac:(by_decide) ltac:(by_decide)
    ltac:(lia) ltac:(lia) ltac:(lia))).
Defined.

(** C8 (refinement).  Absorbing a whole number of 8-byte words from a word boundary of the rate is
    the word-level RPO sponge on the state words: each word overwrites its position of the rate and
    a full rate is permuted. *)
Theorem absorb_refines_words (rc : rpo128_context) (j n : nat) (inp : list Z) :
  wf rc -> (4 <= j < 12)%nat -> dptr rc = Z.of_nat (8 * j) ->
  length inp = (8 * n)%nat -> Forall (in_width 8) inp ->
  exists rc', rpo128_absorb rc inp = Some rc' /\
    let t := foldl absorb_word (st_A rc, j) (load_words n inp) in
    st_A rc' = t.1 /\ dptr rc' = Z.of_nat (8 * t.2).
Proof.
  intros Hrc Hj Hp Hl Hb. destruct (absorb_spec rc inp Hrc Hb) as [He _].
  eexists. split; [exact He|]. unfold st_A. cbn [dbuf dptr]. rewrite Hp.
  destruct Hrc as [Hd Hdb _].
  destruct (absorb_words_spec n (dbuf rc) j inp (conj Hd Hdb) Hj Hl Hb) as (_ & HA & Hp' & _).
  now split.
Qed.

Lemma absorb_refines_words_witness :
  wf rpo128_init /\ exists rc', rpo128_absorb rpo128_init (replicate 16 7) = Some rc' /\
    let t := foldl absorb_word (st_A rpo128_init, 4%nat) (load_words 2 (replicate 16 7)) in
    st_A rc' = t.1 /\ dptr rc' = Z.of_nat (8 * t.2).
Proof.
  split; [exact wf_init|].
  apply (absorb_refines_words rpo128_init 4 2 (replicate 16 7));
    [exact wf_init | lia | reflexivity | reflexivity | by_decide].
Defined.

(** C9 (functional).  The hash-to-point of a finalized context always returns, and its i-th
    coefficient is the residue modulo 12289 of the i-th word the RPO sponge yields: word 4 + i mod 8
    of the state after i / 8 + 1 permutations. *)
Theorem hash_to_point_words (rc : rpo128_context) (logn : nat) :
  wf rc ->
  exists rc' x, hash_to_point_rpo (rpo128_finalize rc) logn = Some (rc', x) /\
    length x = (2 ^ logn)%nat /\
    forall i, (i < 2 ^ logn)%nat ->
      x !!! i = (Nat.iter (S (i / 8)) apply_permutation (st_A rc) !!! (4 + i mod 8)%nat) mod 12289 /\ 0 <= x !!! i < 12289.
Proof.
  intros Hrc. destruct (hash_to_point_spec rc logn Hrc) as [rc' He].
  do 2 eexists. split; [exact He|]. split; [now rewrite length_fmap, length_seq|].
  intros i Hi. rewrite (@list_lookup_total_fmap nat Z (fun k => sponge_word (st_A rc) k mod M) _ _)
    by now rewrite length_seq.
  rewrite lookup_total_seq_lt by done. split; [done|]. apply Z.mod_pos_bound. done.
Qed.

Lemma hash_to_point_words_witness :
  wf rpo128_init /\ exists rc' x, hash_to_point_rpo (rpo128_finalize rpo128_init) 9 = Some (rc', x) /\
    length x = 512%nat.
Proof.
  split; [exact wf_init|]. destruct (hash_to_point_words rpo128_init 9 wf_init) as (rc' & x & He & Hl & _).
  exists rc', x. split; [exact He | exact Hl].
Defined.

(** Word states that agree modulo p, up to the words about to be overwritten. *)
Definition words_agree (s t : list Z * nat) : Prop :=
  s.2 = t.2 /\ state_eqm s.1 t.1 /\ word_state s.1 /\ word_state t.1.

Lemma permutation_congruent A B :
  word_state A -> word_state B -> state_eqm A B -> apply_permutation A = apply_permutation B.
Proof.
  intros HA HB He. rewrite (proj1 (apply_permutation_spec A HA)), (proj1 (apply_permutation_spec B HB)).
  now apply permutation_eqm.
Qed.

Lemma absorb_word_agree s t v w :
  words_agree s t -> in_width 64 v -> in_width 64 w -> v ≡[P] w ->
  words_agree (absorb_word s v) (absorb_word t w).
Proof.
  destruct s as [A i], t as [B j]. intros (Hij & He & HA & HB) Hv Hw Hvw. cbn [fst snd] in *. subst j.
  assert (word_state (<[i := v]> A) /\ word_state (<[i := w]> B)) as [HA' HB'].
  { destruct HA, HB. split; split; rewrite ?length_insert; auto using Forall_insert. }
  assert (state_eqm (<[i := v]> A) (<[i := w]> B)) as He' by now apply Forall2_insert.
  unfold absorb_word. cbn [fst snd]. destruct (S i =? 12)%nat; repeat split; cbn [fst snd];
    try apply HA'; try apply HB'; try done.
  - rewrite (permutation_congruent _ _ HA' HB' He'). reflexivity.
  - apply field_word_state, (proj2 (apply_permutation_spec _ HA')).
  - apply field_word_state, (proj2 (apply_permutation_spec _ HA')).
  - apply field_word_state, (proj2 (apply_permutation_spec _ HB')).
  - apply field_word_state, (proj2 (apply_permutation_spec _ HB')).
Qed.

Lemma absorb_words_agree ws ws' s t :
  Forall2 (fun v w => in_width 64 v /\ in_width 64 w /\ v ≡[P] w) ws ws' ->
  words_agree s t -> words_agree (foldl absorb_word s ws) (foldl absorb_word t ws').
Proof.
  intros Hf. revert s t. induction Hf as [|v w ws ws' (Hv & Hw & Hvw) Hf IH]; intros s t Hst; [done|].
  cbn [foldl]. apply IH. now apply absorb_word_agree.
Qed.

Lemma sponge_word_congruent A B i :
  word_state A -> word_state B -> state_eqm A B -> sponge_word A i = sponge_word B i.
Proof.
  intros HA HB He. unfold sponge_word. rewrite !Nat.iter_succ_r.
  now rewrite (permutation_congruent A B).
Qed.

(** The hash depends on the message words modulo p only: two messages of whole
    words that agree modulo p word by word have the same point.  Adding p to a word below 2^32 - 1
    therefore changes the bytes and not the hash. *)
Theorem hash_message_residues (logn n : nat) (m m' : list Z) :
  length m = (8 * n)%nat -> length m' = (8 * n)%nat ->
  Forall (in_width 8) m -> Forall (in_width 8) m' ->
  residues (load_words n m) = residues (load_words n m') ->
  hash_message logn m = hash_message logn m'.
Proof.
  intros Hl Hl' Hb Hb' He. unfold hash_message.
  destruct (absorb_spec rpo128_init m wf_init Hb) as [-> Hw].
  destruct (absorb_spec rpo128_init m' wf_init Hb') as [-> Hw'].
  pose proof wf_init as [Hi Hib _].
  destruct (absorb_words_spec n _ 4 m (conj Hi Hib) ltac:(lia) Hl Hb) as (_ & HA & Hp & _).
  destruct (absorb_words_spec n _ 4 m' (conj Hi Hib) ltac:(lia) Hl' Hb') as (_ & HA' & Hp' & _).
  change (Z.of_nat (8 * 4)) with (dptr rpo128_init) in HA, HA', Hp, Hp'.
  set (s := foldl absorb_byte _ m) in *. set (s' := foldl absorb_byte _ m') in *.
  assert (Forall2 (fun v w => in_width 64 v /\ in_width 64 w /\ v ≡[P] w) (load_words n m) (load_words n m'))
    as Hf.
  { pose proof (load_words_range n m Hl Hb) as Hr. pose proof (load_words_range n m' Hl' Hb') as Hr'.
    rewrite Forall_lookup in Hr, Hr'. apply Forall2_same_length_lookup.
    split; [now rewrite !load_words_length|]. intros i x y Hx Hy.
    split; [now apply (Hr i)|]. split; [now apply (Hr' i)|]. apply cong_mod_iff; [apply P_pos|].
    apply (f_equal (fun l => l !! i)) in He. unfold residues in He.
    rewrite !list_lookup_fmap, Hx, Hy in He. now injection He. }
  pose proof (load_words_word_state _ (conj Hi Hib)) as HS.
  pose proof (absorb_words_agree _ _ (load_words STATE_WIDTH (dbuf rpo128_init), 4%nat)
    (load_words STATE_WIDTH (dbuf rpo128_init), 4%nat) Hf) as Hag.
  destruct Hag as (_ & Hs & Hws & Hws'); [split; [exact eq_refl | split; [exact (state_eqm_refl _) | split; exact HS]]|].
  rewrite <- HA in Hs, Hws. rewrite <- HA' in Hs, Hws'.
  destruct (hash_to_point_spec _ logn Hw) as [rc He1]. destruct (hash_to_point_spec _ logn Hw') as [rc' He2].
  cbn [mbind option_bind]. rewrite He1, He2. cbn [mbind option_bind].
  apply (f_equal Some), list_fmap_ext. intros _ k _. apply (f_equal (fun w => w mod M)).
  now apply sponge_word_congruent.
Qed.

Lemma hash_message_residues_witness :
  residues (load_words 1 (le_store 8 5)) = residues (load_words 1 (le_store 8 (5 + P))) /\
  le_store 8 5 <> le_store 8 (5 + P) /\
  hash_message 9 (le_store 8 5) = hash_message 9 (le_store 8 (5 + P)).
Proof.
  assert (residues (load_words 1 (le_store 8 5)) = residues (load_words 1 (le_store 8 (5 + P)))) as H
    by (vm_compute; reflexivity).
  split; [exact H|]. split; [by_decide|].
  apply (hash_message_residues 9 1); [reflexivity | reflexivity | apply le_store_bytes | apply le_store_bytes | exact H].
Defined.

(** Zero bytes written over a zero rate leave only the pointer moved. *)
Lemma absorb_zeros k : forall d p,
  length d = 96%nat -> 0 <= p -> p + Z.of_nat k < 96 ->
  (forall i, (Z.to_nat p <= i < 96)%nat -> d !!! i = 0) ->
  foldl absorb_byte (d, p) (replicate k 0) = (d, p + Z.of_nat k).
Proof.
  induction k as [|k IH]; intros d p Hl Hp Hk Hz; [simpl; f_equal; lia|].
  cbn [replicate foldl]. rewrite absorb_byte_refill. unfold refill. cbn [fst snd].
  destruct (Z.eqb_spec p 96); [lia|]. destruct (Z.eqb_spec (p + 1) 96); [lia|].
  rewrite list_insert_id.
  - rewrite IH; [f_equal; lia | done | lia | lia |]. intros i Hi. apply Hz. lia.
  - rewrite <- (Hz (Z.to_nat p)) by lia. apply list_lookup_lookup_total_lt. lia.
Qed.

(** There is no padding: appending zero bytes to a message that stays within one
    rate block does not change its hash, so the lengths of what is absorbed must be fixed by the
    caller (as the signature code does: a 64-byte nonce block, then the message). *)
Lemma hash_message_no_padding (logn k : nat) (m : list Z) :
  Forall (in_width 8) m -> (length m + k < 64)%nat ->
  hash_message logn (m ++ replicate k 0) = hash_message logn m.
Proof.
  intros Hb Hlen. unfold hash_message.
  assert (Forall (in_width 8) (m ++ replicate k 0)) as Hb'.
  { apply Forall_app. split; [done|]. apply Forall_replicate. by_decide. }
  rewrite (proj1 (absorb_spec _ _ wf_init Hb)), (proj1 (absorb_spec _ _ wf_init Hb')).
  rewrite foldl_app. cbn [mbind option_bind].
  pose proof (absorb_block m (length m) (dbuf rpo128_init) 32 ltac:(lia) ltac:(lia) ltac:(lia)) as Hm.
  rewrite take_ge in Hm by lia. change (dptr rpo128_init) with 32. rewrite Hm. cbv zeta. clear Hm.
  destruct (Z.eqb_spec (32 + Z.of_nat (length m)) 96); [lia|].
  rewrite write_slice by (simpl; lia). rewrite absorb_zeros; [done | | lia | lia |].
  - rewrite !length_app, !length_take, length_drop. simpl. lia.
  - intros i Hi. rewrite (take_ge m) by lia.
    rewrite !lookup_total_app_r by (rewrite ?length_take; simpl; lia).
    rewrite lookup_total_drop. change (dbuf rpo128_init) with (replicate 96 0).
    apply list_lookup_total_correct, lookup_replicate. split; [done|]. rewrite length_take, length_replicate. lia.
Qed.

