(* ===== verification/Bits.v ===== *)
(** Bits: integers and bytes as bit strings, most significant bit first.

    The encoders of [codec.c] push values into a 32-bit accumulator and flush whole bytes; the
    decoders do the reverse.  Both are specified on the list of bits that passes through the
    accumulator. *)

From Stdlib Require Import ZArith Lia.
From stdpp Require Import base numbers list.
From S2P Require Import Prelude NumberTheory.

(** The [n] low bits of [z], most significant first, and back. *)
Fixpoint bits_of (n : nat) (z : Z) : list bool :=
  match n with
  | O => []
  | S n => Z.testbit z (Z.of_nat n) :: bits_of n z
  end.

Fixpoint Z_of_bits (l : list bool) : Z :=
  match l with
  | [] => 0
  | b :: l => (if b then 2 ^ Z.of_nat (length l) else 0) + Z_of_bits l
  end.

Definition bytes_bits (bs : list Z) : list bool := bs ≫= bits_of 8.

Lemma bits_of_length n z : length (bits_of n z) = n.
Proof. induction n; simpl; auto. Qed.

Lemma bits_of_ext n z z' :
  (forall k, 0 <= k < Z.of_nat n -> Z.testbit z k = Z.testbit z' k) -> bits_of n z = bits_of n z'.
Proof.
  induction n as [|n IH]; intros H; cbn [bits_of]; [done|]. rewrite H by lia.
  f_equal. apply IH. intros k Hk. apply H. lia.
Qed.

Lemma bits_of_wrap w n z : Z.of_nat n <= w -> bits_of n (wrap w z) = bits_of n z.
Proof.
  intros Hw. apply bits_of_ext. intros k Hk. rewrite wrap_testbit by lia.
  destruct (Z.ltb_spec k w); [done | lia].
Qed.

(** Splitting a field. *)
Lemma bits_of_app m n z : bits_of (m + n) z = bits_of m (z .>> Z.of_nat n) ++ bits_of n z.
Proof.
  induction m as [|m IH]; [done|]. cbn [Nat.add bits_of app]. rewrite IH.
  rewrite Z.shiftr_spec by lia. do 2 f_equal. lia.
Qed.

Lemma in_width_high_bits n v k : in_width (Z.of_nat n) v -> Z.of_nat n <= k -> Z.testbit v k = false.
Proof.
  intros Hv Hk. rewrite <- (wrap_small (Z.of_nat n) v) by done. rewrite wrap_testbit by lia.
  destruct (Z.ltb_spec k (Z.of_nat n)); [lia | done].
Qed.

(** Pushing a field: [acc << n | v]. *)
Lemma bits_of_push m n acc v :
  in_width (Z.of_nat n) v ->
  bits_of (m + n) ((acc .<< Z.of_nat n) .| v) = bits_of m acc ++ bits_of n v.
Proof.
  intros Hv. rewrite bits_of_app. f_equal; apply bits_of_ext; intros k Hk.
  - rewrite Z.shiftr_spec, Z.lor_spec, Z.shiftl_spec by lia.
    rewrite (in_width_high_bits n v) by (done || lia). rewrite orb_false_r. f_equal. lia.
  - rewrite Z.lor_spec, Z.shiftl_spec_low by lia. done.
Qed.

(** The same in a 32-bit accumulator that does not overflow. *)
Lemma bits_of_push32 m n acc v :
  (m + n <= 32)%nat -> in_width (Z.of_nat n) v ->
  bits_of (m + n) (u32 (acc .<< Z.of_nat n) .| v) = bits_of m acc ++ bits_of n v.
Proof.
  intros Hmn Hv. rewrite <- bits_of_push by done. apply bits_of_ext. intros k Hk.
  rewrite !Z.lor_spec, wrap_testbit by lia. destruct (Z.ltb_spec k 32); [done | lia].
Qed.

Lemma Z_of_bits_range l : in_width (Z.of_nat (length l)) (Z_of_bits l).
Proof.
  induction l as [|b l IH]; [done|]. cbn [Z_of_bits length]. unfold in_width in *.
  rewrite (pow2_split 1 (Z.of_nat (length l)) (Z.of_nat (S (length l)))) by lia. destruct b; lia.
Qed.

Lemma Z_of_bits_of n z : Z_of_bits (bits_of n z) = wrap (Z.of_nat n) z.
Proof.
  induction n as [|n IH]; [change (0 = z .& 0); now rewrite Z.land_0_r|].
  cbn [bits_of Z_of_bits]. rewrite bits_of_length, IH. rewrite !wrap_mod by lia.
  rewrite (pow2_split (Z.of_nat n) 1 (Z.of_nat (S n))) by lia.
  pose proof (Z.pow_pos_nonneg 2 (Z.of_nat n) ltac:(lia) ltac:(lia)).
  change (2 ^ 1) with 2. rewrite Z.rem_mul_r by lia.
  rewrite <- Z.testbit_spec' by lia. destruct (Z.testbit z (Z.of_nat n)); cbn [Z.b2z]; lia.
Qed.

Lemma bits_of_Z_of_bits l : bits_of (length l) (Z_of_bits l) = l.
Proof.
  induction l as [|b l IH]; [done|]. cbn [length bits_of Z_of_bits].
  pose proof (Z_of_bits_range l) as Hr. set (z := Z_of_bits l) in *. set (n := Z.of_nat (length l)) in *.
  assert ((if b then 2 ^ n else 0) + z = (Z.b2z b .<< n) .| z) as ->.
  { rewrite lor_shiftl_add by (unfold n; done || lia). destruct b; simpl Z.b2z; lia. }
  f_equal.
  - rewrite Z.lor_spec, Z.shiftl_spec, Z.sub_diag by lia.
    rewrite (in_width_high_bits (length l) z) by (done || lia). now destruct b.
  - rewrite <- IH at 2. apply bits_of_ext. intros k Hk. rewrite Z.lor_spec, Z.shiftl_spec_low by lia. done.
Qed.

Lemma bits_of_inj n a b :
  in_width (Z.of_nat n) a -> in_width (Z.of_nat n) b -> bits_of n a = bits_of n b -> a = b.
Proof.
  intros Ha Hb H. rewrite <- (wrap_small _ a Ha), <- (wrap_small _ b Hb).
  now rewrite <- !Z_of_bits_of, H.
Qed.

Lemma bits_of_0 n : bits_of n 0 = replicate n false.
Proof. induction n as [|n IH]; simpl; [done|]. now rewrite Z.bits_0, IH. Qed.

(** Testing that the [n] low bits are zero. *)
Lemma low_bits_zero n z : (z .& (2 ^ Z.of_nat n - 1) =? 0) = true <-> bits_of n z = replicate n false.
Proof.
  replace (2 ^ Z.of_nat n - 1) with (Z.ones (Z.of_nat n)) by (rewrite Z.ones_equiv; lia).
  change (z .& Z.ones (Z.of_nat n)) with (wrap (Z.of_nat n) z).
  rewrite Z.eqb_eq, <- bits_of_0, <- Z_of_bits_of. split.
  - intros H. rewrite <- (bits_of_Z_of_bits (bits_of n z)), H. now rewrite bits_of_length.
  - intros ->. now rewrite Z_of_bits_of, wrap_small by (unfold in_width; lia).
Qed.

Lemma bytes_bits_cons b bs : bytes_bits (b :: bs) = bits_of 8 b ++ bytes_bits bs.
Proof. done. Qed.

Lemma bytes_bits_app a b : bytes_bits (a ++ b) = bytes_bits a ++ bytes_bits b.
Proof. apply bind_app. Qed.

Lemma bytes_bits_length bs : length (bytes_bits bs) = (8 * length bs)%nat.
Proof.
  induction bs as [|b bs IH]; [done|].
  rewrite bytes_bits_cons, length_app, bits_of_length, IH. simpl. lia.
Qed.

Lemma bytes_bits_inj a b :
  Forall (in_width 8) a -> Forall (in_width 8) b -> bytes_bits a = bytes_bits b -> a = b.
Proof.
  intros Ha. revert b. induction Ha as [|x a Hx Ha IH]; intros b Hb He.
  - destruct b; [done|]. apply (f_equal length) in He. now rewrite !bytes_bits_length in He.
  - destruct Hb as [|y b Hy Hb]; [apply (f_equal length) in He; now rewrite !bytes_bits_length in He|].
    rewrite !bytes_bits_cons in He. apply app_inj_1 in He as [Hxy He]; [|now rewrite !bits_of_length].
    f_equal; [now apply (bits_of_inj 8) | now apply IH].
Qed.

(** All bits clear. *)
Definition all_zero (l : list bool) : bool := forallb negb l.

Lemma all_zero_iff l : all_zero l = true <-> l = replicate (length l) false.
Proof.
  induction l as [|b l IH]; [done|]. simpl. rewrite andb_true_iff, IH. split.
  - intros [Hb Hl]. destruct b; [done|]. now rewrite <- Hl.
  - intros H. injection H as -> Hl. split; [done | exact Hl].
Qed.

Lemma low_bits_all_zero n z : (z .& (2 ^ Z.of_nat n - 1) =? 0) = all_zero (bits_of n z).
Proof.
  apply eq_true_iff_eq. rewrite low_bits_zero, all_zero_iff. now rewrite bits_of_length.
Qed.
