(* ===== verification/CodecFixed.v ===== *)
(** CodecFixed: the fixed-width encoders and decoders of [codec.c].

    [modq_encode]/[modq_decode] (14 bits, public keys), [trim_i8_encode]/[trim_i8_decode] and
    [trim_i16_encode]/[trim_i16_decode] (signed values, private keys).  The packing loop the three
    encoders share is [pack_loop], the unpacking loops of the two signed decoders [trim_outer] over
    [trim_inner].  The reference is [read_fields] on the bit string of the input, and the class
    [FieldCodec] is what a value encoding promises to it. *)

From Stdlib Require Import ZArith Lia.
From stdpp Require Import base numbers list option.
From S2P Require Import Prelude NumberTheory Bits.

(** * Shared loops *)

(** [while (acc_len >= 8) { acc_len -= 8; *buf ++ = (uint8_t)(acc >> acc_len); }]: the bytes
    produced and the bits left.  [acc_len] itself bounds the number of iterations. *)
Fixpoint flush (fuel : nat) (acc : Z) (acc_len : nat) : list Z * nat :=
  match fuel with
  | O => ([], acc_len)
  | S fuel =>
      if (8 <=? acc_len)%nat then
        let acc_len := (acc_len - 8)%nat in
        let '(out, l) := flush fuel acc acc_len in
        (u8 (acc .>> Z.of_nat acc_len) :: out, l)
      else ([], acc_len)
  end.

(** One iteration of an encoder: push [bits] bits, flush whole bytes. *)
Definition pack_step (bits : nat) (v : Z) (st : Z * nat * list Z) : Z * nat * list Z :=
  let '(acc, acc_len, buf) := st in
  let acc := u32 (acc .<< Z.of_nat bits) .| v in
  let acc_len := (acc_len + bits)%nat in
  let '(out, acc_len) := flush acc_len acc acc_len in
  (acc, acc_len, buf ++ out).

(** The output loop of the three encoders; [field u] is the field written for [x[u]]. *)
Definition pack_loop (bits n : nat) (field : nat -> Z) : list Z :=
  let '(acc, acc_len, buf) := for_up 0 n (fun u st => pack_step bits (field u) st) (0, 0%nat, []) in
  if (0 <? acc_len)%nat then buf ++ [u8 (acc .<< (8 - Z.of_nat acc_len))] else buf.

Definition out_len (n bits : nat) : nat := (n * bits + 7) / 8.

(** The destination of an encoder: [None] is a NULL pointer (the length query), [Some max] a buffer
    of [max] bytes.  The result is the return value and the bytes written. *)
Definition encode_into (dst : option nat) (len : nat) (bytes : list Z) : nat * list Z :=
  match dst with
  | None => (len, [])
  | Some max => if (max <? len)%nat then (0%nat, []) else (len, bytes)
  end.

(** * Encoders *)

Definition modq_encode (dst : option nat) (x : list Z) (logn : nat) : nat * list Z :=
  let n := (2 ^ logn)%nat in
  if existsb (fun u => 12289 <=? x !!! u) (seq 0 n) then (0%nat, [])
  else encode_into dst (out_len n 14) (pack_loop 14 n (fun u => x !!! u)).

(** The range test of the two signed encoders. *)
Definition trim_out_of_range (x : list Z) (n bits : nat) : bool :=
  let maxv := (1 .<< (Z.of_nat bits - 1)) - 1 in
  let minv := - maxv in
  existsb (fun u => (x !!! u <? minv) || (maxv <? x !!! u)) (seq 0 n).

Definition trim_i16_encode (dst : option nat) (x : list Z) (logn bits : nat) : nat * list Z :=
  let n := (2 ^ logn)%nat in
  if trim_out_of_range x n bits then (0%nat, [])
  else
    let mask := u32 (u32 (1 .<< Z.of_nat bits) - 1) in
    encode_into dst (out_len n bits) (pack_loop bits n (fun u => u16 (x !!! u) .& mask)).

Definition trim_i8_encode (dst : option nat) (x : list Z) (logn bits : nat) : nat * list Z :=
  let n := (2 ^ logn)%nat in
  if trim_out_of_range x n bits then (0%nat, [])
  else
    let mask := u32 (u32 (1 .<< Z.of_nat bits) - 1) in
    encode_into dst (out_len n bits) (pack_loop bits n (fun u => u8 (x !!! u) .& mask)).

(** * Decoders *)

(** The test on the unused bits of the last byte, shared by the decoders. *)
Definition extra_bits_set (acc : Z) (acc_len : nat) : bool :=
  negb ((acc .& (u32 (1 .<< Z.of_nat acc_len) - 1)) =? 0).

(** The [while (u < n)] loop of [modq_decode]; [x] holds the values decoded so far. *)
Fixpoint modq_loop (n : nat) (buf : list Z) (acc : Z) (acc_len : nat) (x : list Z) :
    outcome (Z * nat * list Z) :=
  if (length x <? n)%nat then
    match buf with
    | [] => Stuck
    | b :: buf =>
        let acc := u32 (acc .<< 8) .| b in
        let acc_len := (acc_len + 8)%nat in
        if (14 <=? acc_len)%nat then
          let acc_len := (acc_len - 14)%nat in
          let w := (acc .>> Z.of_nat acc_len) .& 0x3FFF in
          if 12289 <=? w then Fail else modq_loop n buf acc acc_len (x ++ [u16 w])
        else modq_loop n buf acc acc_len x
    end
  else Done (acc, acc_len, x).

Definition modq_decode (logn : nat) (inp : list Z) (max_in_len : nat) : outcome (nat * list Z) :=
  let n := (2 ^ logn)%nat in
  let in_len := out_len n 14 in
  if (max_in_len <? in_len)%nat then Fail
  else match modq_loop n inp 0 0 [] with
       | Done (acc, acc_len, x) => if extra_bits_set acc acc_len then Fail else Done (in_len, x)
       | Fail => Fail
       | Stuck => Stuck
       end.

(** Sign extension of a field and the forbidden value -2^(bits-1). *)
Definition trim_value (bits : nat) (cast : Z -> Z) (w : Z) : option Z :=
  let mask2 := u32 (1 .<< (Z.of_nat bits - 1)) in
  let w := w .| u32 (- (w .& mask2)) in
  if w =? u32 (- mask2) then None
  else
    let w := w .| u32 (- (w .& mask2)) in
    Some (cast (i32 w)).

(** [while (acc_len >= bits && u < n)]. *)
Fixpoint trim_inner (fuel bits : nat) (cast : Z -> Z) (n : nat) (acc : Z) (acc_len : nat) (x : list Z) :
    outcome (nat * list Z) :=
  match fuel with
  | O => Stuck
  | S fuel =>
      if (bits <=? acc_len)%nat && (length x <? n)%nat then
        let acc_len := (acc_len - bits)%nat in
        let mask1 := u32 (u32 (1 .<< Z.of_nat bits) - 1) in
        let w := (acc .>> Z.of_nat acc_len) .& mask1 in
        match trim_value bits cast w with
        | None => Fail
        | Some v => trim_inner fuel bits cast n acc acc_len (x ++ [v])
        end
      else Done (acc_len, x)
  end.

(** [while (u < n)] of the two signed decoders. *)
Fixpoint trim_outer (bits : nat) (cast : Z -> Z) (n : nat) (buf : list Z) (acc : Z) (acc_len : nat)
    (x : list Z) : outcome (Z * nat * list Z) :=
  if (length x <? n)%nat then
    match buf with
    | [] => Stuck
    | b :: buf =>
        let acc := u32 (acc .<< 8) .| b in
        let acc_len := (acc_len + 8)%nat in
        match trim_inner (S acc_len) bits cast n acc acc_len x with
        | Done (acc_len, x) => trim_outer bits cast n buf acc acc_len x
        | Fail => Fail
        | Stuck => Stuck
        end
    end
  else Done (acc, acc_len, x).

Definition trim_decode (cast : Z -> Z) (logn bits : nat) (inp : list Z) (max_in_len : nat) :
    outcome (nat * list Z) :=
  let n := (2 ^ logn)%nat in
  let in_len := out_len n bits in
  if (max_in_len <? in_len)%nat then Fail
  else match trim_outer bits cast n inp 0 0 [] with
       | Done (acc, acc_len, x) => if extra_bits_set acc acc_len then Fail else Done (in_len, x)
       | Fail => Fail
       | Stuck => Stuck
       end.

Definition trim_i16_decode := trim_decode (fun w => i16 w).
Definition trim_i8_decode := trim_decode (fun w => i8 w).

(** [max_fg_bits], [max_FG_bits], [max_sig_bits]. *)
Definition max_fg_bits : list nat := [0; 8; 8; 8; 8; 8; 7; 7; 6; 6; 5]%nat.
Definition max_FG_bits : list nat := [0; 8; 8; 8; 8; 8; 8; 8; 8; 8; 8]%nat.
Definition max_sig_bits : list nat := [0; 10; 11; 11; 12; 12; 12; 12; 12; 12; 12]%nat.

Example modq_smoke : modq_decode 2 (modq_encode (Some 7%nat) [1; 12288; 0; 77] 2).2 7 = Done (7%nat, [1; 12288; 0; 77]).
Proof. reflexivity. Qed.

Example trim_smoke : trim_i8_decode 3 5 (trim_i8_encode (Some 5%nat) [1; -15; 0; 15; -1; 3; 4; -7] 3 5).2 5
  = Done (5%nat, [1; -15; 0; 15; -1; 3; 4; -7]).
Proof. reflexivity. Qed.

(** * The reference decoder, on bit strings *)

(** [todo] more fields of [bits] bits from the stream [s], appended to [x]. *)
Fixpoint read_fields (bits : nat) (val : Z -> option Z) (todo : nat) (x : list Z) (s : list bool) :
    outcome (list Z * list bool) :=
  match todo with
  | O => Done (x, s)
  | S todo =>
      if (length s <? bits)%nat then Stuck
      else match val (Z_of_bits (take bits s)) with
           | None => Fail
           | Some v => read_fields bits val todo (x ++ [v]) (drop bits s)
           end
  end.

(** The stream of a list of fields. *)
Definition fields_bits (bits : nat) (ws : list Z) : list bool := ws ≫= bits_of bits.

(** What an encoding of values in fields promises. *)
Class FieldCodec (bits : nat) (valid : Z -> Prop) (enc : Z -> Z) (val : Z -> option Z) : Prop := {
  enc_range v : valid v -> in_width (Z.of_nat bits) (enc v);
  val_enc v : valid v -> val (enc v) = Some v;
  val_sound w v : in_width (Z.of_nat bits) w -> val w = Some v -> valid v /\ enc v = w
}.

Section Reference.
  Context {bits : nat} {valid : Z -> Prop} {enc : Z -> Z} {val : Z -> option Z}.
  Context `{!FieldCodec bits valid enc val}.

Lemma read_fields_enc xs : forall x s,
  Forall valid xs ->
  read_fields bits val (length xs) x (fields_bits bits (enc <$> xs) ++ s) = Done (x ++ xs, s).
Proof.
  induction xs as [|v xs IH]; intros x s Hv; cbn [length read_fields].
  - now rewrite app_nil_r.
  - apply Forall_cons_iff in Hv as [Hv Hxs].
    change (fields_bits bits (enc <$> v :: xs)) with (bits_of bits (enc v) ++ fields_bits bits (enc <$> xs)).
    rewrite <- app_assoc. rewrite take_app_length', drop_app_length' by now rewrite bits_of_length.
    rewrite length_app, bits_of_length. destruct (Nat.ltb_spec (bits + length (fields_bits bits (enc <$> xs) ++ s)) bits); [lia|].
    rewrite Z_of_bits_of, wrap_small by now apply enc_range. rewrite val_enc by done.
    rewrite IH by done. now rewrite <- app_assoc.
Qed.

Lemma read_fields_sound n : forall x s y s',
  read_fields bits val n x s = Done (y, s') ->
  exists xs, y = x ++ xs /\ length xs = n /\ Forall valid xs /\ s = fields_bits bits (enc <$> xs) ++ s'.
Proof.
  induction n as [|n IH]; intros x s y s' H; cbn [read_fields] in H.
  - injection H as <- <-. exists []. now rewrite app_nil_r.
  - destruct (Nat.ltb_spec (length s) bits); [done|].
    destruct (val _) as [v|] eqn:Hval; [|done].
    apply IH in H as (xs & -> & Hn & Hxs & Hs).
    pose proof (Z_of_bits_range (take bits s)) as Hr. rewrite length_take, Nat.min_l in Hr by lia.
    destruct (val_sound _ _ Hr Hval) as [Hv He].
    exists (v :: xs). rewrite <- app_assoc. split; [done|]. split; [simpl; lia|].
    split; [now constructor|].
    change (fields_bits bits (enc <$> v :: xs)) with (bits_of bits (enc v) ++ fields_bits bits (enc <$> xs)).
    rewrite He. rewrite <- (take_drop bits s) at 1. rewrite Hs, <- app_assoc. f_equal.
    rewrite <- (bits_of_Z_of_bits (take bits s)) at 1. f_equal. rewrite length_take. lia.
Qed.
End Reference.

Lemma fields_bits_length bits ws : length (fields_bits bits ws) = (length ws * bits)%nat.
Proof.
  induction ws as [|w ws IH]; [done|].
  change (fields_bits bits (w :: ws)) with (bits_of bits w ++ fields_bits bits ws).
  rewrite length_app, bits_of_length, IH. simpl. lia.
Qed.

Lemma read_fields_not_stuck bits val n : forall x s,
  (n * bits <= length s)%nat -> read_fields bits val n x s <> Stuck.
Proof.
  induction n as [|n IH]; intros x s Hs; cbn [read_fields]; [done|].
  destruct (Nat.ltb_spec (length s) bits); [simpl in Hs; lia|].
  destruct (val _); [|done]. apply IH. rewrite length_drop. simpl in Hs. lia.
Qed.

Lemma read_fields_length bits val n : forall x s y s',
  read_fields bits val n x s = Done (y, s') -> (length y = length x + n)%nat /\ (length s = n * bits + length s')%nat.
Proof.
  induction n as [|n IH]; intros x s y s' H; cbn [read_fields] in H.
  - injection H as <- <-. simpl. lia.
  - destruct (Nat.ltb_spec (length s) bits); [done|]. destruct (val _); [|done].
    apply IH in H. rewrite length_app, length_drop in H. simpl in *. lia.
Qed.

(** * Encoders: the bytes written are the fields, zero padded *)

Lemma flush_spec fuel acc : forall acc_len out l,
  (acc_len <= fuel)%nat -> flush fuel acc acc_len = (out, l) ->
  (l < 8)%nat /\ (exists k, acc_len = 8 * k + l)%nat /\ Forall (in_width 8) out /\
  bits_of acc_len acc = bytes_bits out ++ bits_of l acc.
Proof.
  induction fuel as [|fuel IH]; intros acc_len out l Hf H; cbn [flush] in H.
  - injection H as <- <-. repeat split; [lia | exists 0%nat; lia | constructor].
  - destruct (Nat.leb_spec 8 acc_len) as [H8|H8].
    + destruct (flush fuel acc (acc_len - 8)) as [out' l'] eqn:E. injection H as <- <-.
      apply IH in E as (Hl & [k Hk] & Hb & He); [|lia].
      split; [done|]. split; [exists (S k); lia|]. split; [constructor; [apply wrap_range; lia | done]|].
      rewrite bytes_bits_cons, <- app_assoc, <- He, bits_of_wrap by lia.
      rewrite <- bits_of_app. f_equal. lia.
    + injection H as <- <-. repeat split; [lia | exists 0%nat; lia | constructor].
Qed.

Section Packing.
  Context (bits : nat) (field : nat -> Z) (Hbits : (1 <= bits <= 24)%nat).

(** After [u] iterations: the bytes flushed and the bits pending are the first [u] fields. *)
Definition packed (u : nat) (st : Z * nat * list Z) : Prop :=
  let '(acc, acc_len, buf) := st in
  (acc_len < 8)%nat /\ Forall (in_width 8) buf /\
  bytes_bits buf ++ bits_of acc_len acc = fields_bits bits (field <$> seq 0 u).

Lemma pack_step_packed u st :
  in_width (Z.of_nat bits) (field u) -> packed u st -> packed (S u) (pack_step bits (field u) st).
Proof.
  destruct st as [[acc acc_len] buf]. intros Hfu (Hl & Hb & He). unfold pack_step, packed.
  destruct (flush _ _ _) as [out l] eqn:E. apply flush_spec in E as (Hl' & _ & Hob & Hbits'); [|lia].
  split; [done|]. split; [now apply Forall_app|].
  rewrite bytes_bits_app, <- app_assoc, <- Hbits'. clear Hbits'.
  rewrite bits_of_push32, app_assoc, He by (done || lia).
  rewrite seq_S, fmap_app. unfold fields_bits. rewrite bind_app. cbn. now rewrite app_nil_r.
Qed.

Lemma pack_loop_spec n :
  (forall u, (u < n)%nat -> in_width (Z.of_nat bits) (field u)) ->
  exists pad, (pad < 8)%nat /\ Forall (in_width 8) (pack_loop bits n field) /\
    bytes_bits (pack_loop bits n field) = fields_bits bits (field <$> seq 0 n) ++ replicate pad false.
Proof.
  intros Hf. unfold pack_loop.
  assert (packed n (for_up 0 n (fun u st => pack_step bits (field u) st) (0, 0%nat, []))) as Hp.
  { apply (for_up_inv _ packed); [lia | split; [lia | split; [constructor | done]] |].
    intros k st Hk. apply pack_step_packed, Hf. lia. }
  destruct (for_up 0 n _ _) as [[acc acc_len] buf]. destruct Hp as (Hl & Hb & He).
  destruct (Nat.ltb_spec 0 acc_len) as [H0|H0].
  - exists (8 - acc_len)%nat. split; [lia|].
    split; [apply Forall_app; split; [done|]; repeat constructor; apply wrap_range; lia|].
    rewrite bytes_bits_app, <- He, <- app_assoc. f_equal.
    rewrite bytes_bits_cons, bits_of_wrap by lia. cbn [bytes_bits]. rewrite app_nil_r.
    rewrite <- (Z.lor_0_r (acc .<< _)). replace (8 - Z.of_nat acc_len) with (Z.of_nat (8 - acc_len)) by lia.
    rewrite <- (bits_of_0 (8 - acc_len)).
    rewrite <- (bits_of_push acc_len) by (unfold in_width; lia). f_equal. lia.
  - exists 0%nat. split; [lia|]. split; [done|]. rewrite app_nil_r, <- He.
    replace acc_len with 0%nat by lia. cbn. now rewrite app_nil_r.
Qed.
End Packing.

Lemma pack_loop_length bits n field :
  (1 <= bits <= 24)%nat -> (forall u, (u < n)%nat -> in_width (Z.of_nat bits) (field u)) ->
  length (pack_loop bits n field) = out_len n bits.
Proof.
  intros Hb Hf. destruct (pack_loop_spec bits field Hb n Hf) as (pad & Hpad & _ & He).
  apply (f_equal length) in He.
  rewrite bytes_bits_length, length_app, fields_bits_length, length_fmap, length_seq, length_replicate in He.
  unfold out_len. apply (Nat.div_unique _ _ _ (7 - pad)); lia.
Qed.

(** * Decoders refine the reference *)

Lemma extra_bits_set_spec acc l : (l < 32)%nat -> extra_bits_set acc l = negb (all_zero (bits_of l acc)).
Proof.
  intros Hl. unfold extra_bits_set. rewrite <- low_bits_all_zero, Z.shiftl_1_l, wrap_small; [done|].
  split; [apply Z.pow_nonneg; lia | apply Z.pow_lt_mono_r; lia].
Qed.

(** Pushing one byte. *)
Lemma push_byte acc acc_len b s :
  (acc_len + 8 <= 32)%nat -> in_width 8 b ->
  bits_of acc_len acc ++ bits_of 8 b ++ s = bits_of (acc_len + 8) (u32 (acc .<< 8) .| b) ++ s.
Proof.
  intros Hl Hb. rewrite app_assoc. f_equal. symmetry. now apply (bits_of_push32 acc_len 8).
Qed.

(** Taking the top field of the pending bits. *)
Lemma pop_field bits acc_len acc s :
  (bits <= acc_len)%nat ->
  take bits (bits_of acc_len acc ++ s) = bits_of bits (acc .>> Z.of_nat (acc_len - bits)) /\
  drop bits (bits_of acc_len acc ++ s) = bits_of (acc_len - bits) acc ++ s.
Proof.
  intros Hl. replace acc_len with (bits + (acc_len - bits))%nat at 1 3 by lia.
  rewrite bits_of_app, <- app_assoc.
  split; [apply take_app_length' | apply drop_app_length']; now rewrite bits_of_length.
Qed.

Section TrimDecoder.
  Context (bits : nat) (cast : Z -> Z) (n : nat) (Hbits : (1 <= bits <= 16)%nat).
  Abbreviation val := (trim_value bits cast).

Lemma mask1_wrap w : w .& u32 (u32 (1 .<< Z.of_nat bits) - 1) = wrap (Z.of_nat bits) w.
Proof.
  unfold wrap at 3. f_equal. rewrite Z.shiftl_1_l, Z.ones_equiv.
  assert (2 ^ Z.of_nat bits < 2 ^ 32) by (apply Z.pow_lt_mono_r; lia).
  assert (0 < 2 ^ Z.of_nat bits) by (apply Z.pow_pos_nonneg; lia).
  rewrite !wrap_small; unfold in_width; rewrite ?wrap_small; unfold in_width; lia.
Qed.

(** The decoder state between two input bytes: fewer than [bits] bits pending unless all values are
    out, and then fewer than eight. *)
Definition pending_ok (acc_len : nat) (x : list Z) : Prop :=
  (acc_len < bits \/ length x = n)%nat /\ (acc_len < 8 + bits * (n - length x))%nat /\ (length x <= n)%nat.

Lemma trim_inner_spec fuel acc : forall acc_len x s,
  (acc_len < fuel)%nat -> (acc_len < 8 + bits * (n - length x))%nat -> (length x <= n)%nat ->
  match trim_inner fuel bits cast n acc acc_len x with
  | Done (l, x') =>
      read_fields bits val (n - length x) x (bits_of acc_len acc ++ s) =
      read_fields bits val (n - length x') x' (bits_of l acc ++ s) /\
      pending_ok l x' /\ (l <= acc_len)%nat
  | Fail => read_fields bits val (n - length x) x (bits_of acc_len acc ++ s) = Fail
  | Stuck => False
  end.
Proof.
  induction fuel as [|fuel IH]; intros acc_len x s Hf Hl Hx; [lia|]. cbn [trim_inner].
  destruct (Nat.leb_spec bits acc_len) as [Hb|Hb]; cbn [andb].
  2: { split; [done|]. unfold pending_ok. lia. }
  destruct (Nat.ltb_spec (length x) n) as [Hn|Hn].
  2: { split; [done|]. unfold pending_ok. lia. }
  replace (n - length x)%nat with (S (n - S (length x))) by lia. cbn [read_fields].
  destruct (pop_field bits acc_len acc s Hb) as [Ht Hd]. rewrite Ht, Hd.
  rewrite length_app, bits_of_length. destruct (Nat.ltb_spec (acc_len + length s) bits); [lia|].
  rewrite Z_of_bits_of, mask1_wrap. destruct (val _) as [v|]; [|done].
  specialize (IH (acc_len - bits)%nat (x ++ [v]) s).
  rewrite length_app in IH. cbn [length] in IH. rewrite Nat.add_1_r in IH.
  assert (bits * (n - length x) = bits * (n - S (length x)) + bits)%nat
    by (replace (n - length x)%nat with (S (n - S (length x))) by lia; lia).
  specialize (IH ltac:(lia) ltac:(lia) ltac:(lia)).
  destruct (trim_inner fuel bits cast n acc (acc_len - bits) (x ++ [v])) as [[l x']| |]; [|done|done].
  destruct IH as (He & Hp & Hll). split; [done|]. split; [done|]. lia.
Qed.

Lemma trim_outer_spec buf : forall acc acc_len x,
  Forall (in_width 8) buf -> pending_ok acc_len x ->
  match trim_outer bits cast n buf acc acc_len x with
  | Done (acc', l, x') => exists rest, (l < 8)%nat /\ length x' = n /\
      read_fields bits val (n - length x) x (bits_of acc_len acc ++ bytes_bits buf) =
      Done (x', bits_of l acc' ++ bytes_bits rest)
  | Fail => read_fields bits val (n - length x) x (bits_of acc_len acc ++ bytes_bits buf) = Fail
  | Stuck => read_fields bits val (n - length x) x (bits_of acc_len acc ++ bytes_bits buf) = Stuck
  end.
Proof.
  induction buf as [|b buf IH]; intros acc acc_len x Hbuf (Hp & Hl & Hx); cbn [trim_outer];
    destruct (Nat.ltb_spec (length x) n) as [Hn|Hn].
  - replace (n - length x)%nat with (S (n - S (length x))) by lia. cbn [read_fields].
    rewrite length_app, bits_of_length. cbn [bytes_bits mbind list_bind length].
    destruct (Nat.ltb_spec (acc_len + 0) bits); [done | lia].
  - exists []. replace (n - length x)%nat with 0%nat in * by lia. split; [lia|]. split; [lia | done].
  - apply Forall_cons_iff in Hbuf as [Hb Hbuf].
    rewrite bytes_bits_cons, push_byte by (done || lia).
    pose proof (trim_inner_spec (S (acc_len + 8)) (u32 (acc .<< 8) .| b) (acc_len + 8) x (bytes_bits buf)
      ltac:(lia) ltac:(nia) ltac:(lia)) as Hi.
    destruct (trim_inner _ _ _ _ _ _ _) as [[l x']| |]; [|done|done].
    destruct Hi as (He & Hp' & _). rewrite He. now apply IH.
  - exists (b :: buf). replace (n - length x)%nat with 0%nat in * by lia. split; [lia|]. split; [lia | done].
Qed.
End TrimDecoder.

(** What the decoders compute: the reference on the input's bits, then the zero test on the bits
    left in the last byte. *)
Definition decode_spec (bits : nat) (val : Z -> option Z) (n : nat) (inp : list Z) (max_in_len : nat) :
    outcome (nat * list Z) :=
  if (max_in_len <? out_len n bits)%nat then Fail
  else match read_fields bits val n [] (bytes_bits inp) with
       | Done (x, s) => if all_zero (take (length s mod 8) s) then Done (out_len n bits, x) else Fail
       | Fail => Fail
       | Stuck => Stuck
       end.

Lemma leftover_bits l acc rest :
  (l < 8)%nat -> take (length (bits_of l acc ++ bytes_bits rest) mod 8) (bits_of l acc ++ bytes_bits rest) = bits_of l acc.
Proof.
  intros Hl. rewrite length_app, bits_of_length, bytes_bits_length.
  rewrite <- (Nat.mod_unique (l + 8 * length rest) 8 (length rest) l) by lia.
  apply take_app_length'. now rewrite bits_of_length.
Qed.

Lemma trim_decode_spec cast logn bits inp max_in_len :
  (1 <= bits <= 16)%nat -> Forall (in_width 8) inp ->
  trim_decode cast logn bits inp max_in_len = decode_spec bits (trim_value bits cast) (2 ^ logn) inp max_in_len.
Proof.
  intros Hb Hin. unfold trim_decode, decode_spec. destruct (max_in_len <? _)%nat; [done|].
  pose proof (trim_outer_spec bits cast (2 ^ logn) Hb inp 0 0 [] Hin) as H.
  assert (pending_ok bits (2 ^ logn) 0 []) as Hp by (unfold pending_ok; simpl; lia).
  specialize (H Hp). cbn [length] in H. rewrite Nat.sub_0_r in H. cbn [bits_of app] in H.
  destruct (trim_outer _ _ _ _ _ _ _) as [[[acc l] x]| |]; [|now rewrite H | now rewrite H].
  destruct H as (rest & Hl & _ & ->). rewrite leftover_bits, extra_bits_set_spec by lia.
  now destruct (all_zero (bits_of l acc)).
Qed.

Definition modq_value (w : Z) : option Z := if 12289 <=? w then None else Some (u16 w).

Lemma modq_loop_spec n buf : forall acc acc_len x,
  Forall (in_width 8) buf -> pending_ok 14 n acc_len x ->
  match modq_loop n buf acc acc_len x with
  | Done (acc', l, x') => exists rest, (l < 8)%nat /\ length x' = n /\
      read_fields 14 modq_value (n - length x) x (bits_of acc_len acc ++ bytes_bits buf) =
      Done (x', bits_of l acc' ++ bytes_bits rest)
  | Fail => read_fields 14 modq_value (n - length x) x (bits_of acc_len acc ++ bytes_bits buf) = Fail
  | Stuck => read_fields 14 modq_value (n - length x) x (bits_of acc_len acc ++ bytes_bits buf) = Stuck
  end.
Proof.
  induction buf as [|b buf IH]; intros acc acc_len x Hbuf (Hp & Hl & Hx); cbn [modq_loop];
    destruct (Nat.ltb_spec (length x) n) as [Hn|Hn].
  - replace (n - length x)%nat with (S (n - S (length x))) by lia. cbn [read_fields].
    rewrite length_app, bits_of_length. cbn [bytes_bits mbind list_bind length].
    destruct (Nat.ltb_spec (acc_len + 0) 14); [done | lia].
  - exists []. replace (n - length x)%nat with 0%nat in * by lia. split; [lia|]. split; [lia | done].
  - apply Forall_cons_iff in Hbuf as [Hb Hbuf].
    rewrite bytes_bits_cons, push_byte by (done || lia).
    destruct (Nat.leb_spec 14 (acc_len + 8)) as [H14|H14]; [|apply IH; [done | unfold pending_ok; lia]].
    replace (n - length x)%nat with (S (n - S (length x))) in * by lia. cbn [read_fields].
    destruct (pop_field 14 (acc_len + 8) (u32 (acc .<< 8) .| b) (bytes_bits buf) H14) as [Ht Hd].
    rewrite Ht, Hd, length_app, bits_of_length, Z_of_bits_of.
    destruct (Nat.ltb_spec (acc_len + 8 + length (bytes_bits buf)) 14); [lia|].
    change (wrap (Z.of_nat 14) (?z)) with (z .& 0x3FFF). unfold modq_value at 1 3 5.
    set (w := _ .& 0x3FFF). change (wrap (Z.of_nat 14) _) with w.
    destruct (12289 <=? w); [done|].
    specialize (IH (u32 (acc .<< 8) .| b) (acc_len + 8 - 14)%nat (x ++ [u16 w]) Hbuf).
    rewrite length_app in IH. cbn [length] in IH. rewrite Nat.add_1_r in IH.
    apply IH. unfold pending_ok. rewrite length_app. cbn [length]. lia.
  - exists (b :: buf). replace (n - length x)%nat with 0%nat in * by lia. split; [lia|]. split; [lia | done].
Qed.

Lemma modq_decode_spec logn inp max_in_len :
  Forall (in_width 8) inp ->
  modq_decode logn inp max_in_len = decode_spec 14 modq_value (2 ^ logn) inp max_in_len.
Proof.
  intros Hin. unfold modq_decode, decode_spec. destruct (max_in_len <? _)%nat; [done|].
  pose proof (modq_loop_spec (2 ^ logn) inp 0 0 [] Hin) as H.
  assert (pending_ok 14 (2 ^ logn) 0 []) as Hp by (unfold pending_ok; simpl; lia).
  specialize (H Hp). cbn [length] in H. rewrite Nat.sub_0_r in H. cbn [bits_of app] in H.
  destruct (modq_loop _ _ _ _ _) as [[[acc l] x]| |]; [|now rewrite H | now rewrite H].
  destruct H as (rest & Hl & _ & ->). rewrite leftover_bits, extra_bits_set_spec by lia.
  now destruct (all_zero (bits_of l acc)).
Qed.

(** * Encodings of the values *)

#[export] Instance modq_codec : FieldCodec 14 (fun v => 0 <= v < 12289) (fun v => v) modq_value.
Proof.
  split; unfold modq_value, in_width.
  - intros v Hv. change (2 ^ Z.of_nat 14) with 16384. lia.
  - intros v Hv. destruct (Z.leb_spec 12289 v); [lia|]. rewrite wrap_small; [done|]. split; lia.
  - intros w v Hw H. change (2 ^ Z.of_nat 14) with 16384 in Hw. destruct (Z.leb_spec 12289 w); [done|].
    injection H as <-. rewrite wrap_small by (split; lia). lia.
Qed.

(** The signed values of [bits] bits, -2^(bits-1) excluded. *)
Definition trim_valid (bits : nat) (v : Z) : Prop := - 2 ^ (Z.of_nat bits - 1) < v < 2 ^ (Z.of_nat bits - 1).

(** The sign bit of a field, as the code masks it. *)
Lemma sign_mask k w : 0 <= k -> 0 <= w < 2 ^ (k + 1) -> w .& 2 ^ k = if w <? 2 ^ k then 0 else 2 ^ k.
Proof.
  intros Hk Hw. assert (2 ^ (k + 1) = 2 * 2 ^ k) as H2 by (rewrite Z.pow_add_r by lia; lia).
  destruct (Z.ltb_spec w (2 ^ k)) as [H|H].
  - apply Z.bits_inj'. intros i Hi. rewrite Z.land_spec, Z.pow2_bits_eqb, Z.bits_0 by lia.
    destruct (Z.eqb_spec k i) as [->|]; [|apply andb_false_r].
    rewrite <- (Z.mod_small w (2 ^ i)), Z.mod_pow2_bits_high by lia. done.
  - replace w with ((1 .<< k) .| (w - 2 ^ k)) by (rewrite lor_shiftl_add by lia; lia).
    rewrite Z.land_lor_distr_l, Z.shiftl_1_l, Z.land_diag.
    replace ((w - 2 ^ k) .& 2 ^ k) with 0; [now rewrite Z.lor_0_r|].
    apply Z.bits_inj'. intros i Hi. rewrite Z.land_spec, Z.pow2_bits_eqb, Z.bits_0 by lia.
    destruct (Z.eqb_spec k i) as [->|]; [|now rewrite andb_false_r].
    rewrite <- (Z.mod_small (w - 2 ^ i) (2 ^ i)), Z.mod_pow2_bits_high by lia. done.
Qed.

Lemma lor_odd a : (a * 2 + 1) .| 1 = a * 2 + 1.
Proof.
  change (a * 2 + 1) with (a * 2 ^ 1 + 1). rewrite <- lor_shiftl_add by lia.
  now rewrite <- Z.lor_assoc, Z.lor_diag.
Qed.

(** Sign extension by the disjunction with -(w & mask2). *)
Lemma sign_extend k w :
  0 <= k < 31 -> 0 <= w < 2 ^ (k + 1) ->
  w .| u32 (- (w .& 2 ^ k)) = if w <? 2 ^ k then w else w + 2 ^ 32 - 2 ^ (k + 1).
Proof.
  intros Hk Hw. rewrite sign_mask by lia.
  assert (2 ^ (k + 1) = 2 * 2 ^ k) as H2 by (rewrite Z.pow_add_r by lia; lia).
  assert (2 ^ 32 = 2 ^ (32 - k) * 2 ^ k) as H32 by (rewrite <- Z.pow_add_r by lia; f_equal; lia).
  assert (1 <= 2 ^ (32 - k - 1)) as Hp by (apply (Z.pow_le_mono_r 2 0); lia).
  assert (2 ^ (32 - k) = 2 * 2 ^ (32 - k - 1)) as Hp2 by (rewrite <- Z.pow_succ_r by lia; f_equal; lia).
  destruct (Z.ltb_spec w (2 ^ k)) as [H|H]; [now rewrite Z.lor_0_r|].
  replace (u32 (- 2 ^ k)) with ((2 ^ (32 - k) - 1) * 2 ^ k).
  2: { rewrite wrap_mod by lia. apply (Z.mod_unique _ _ (-1)); nia. }
  replace w with ((1 .<< k) .| (w - 2 ^ k)) at 1 by (rewrite lor_shiftl_add by lia; lia).
  rewrite <- Z.shiftl_mul_pow2, Z.lor_comm, Z.lor_assoc, <- Z.shiftl_lor by lia.
  replace ((2 ^ (32 - k) - 1) .| 1) with (2 ^ (32 - k) - 1).
  - rewrite lor_shiftl_add by lia. nia.
  - replace (2 ^ (32 - k) - 1) with ((2 ^ (32 - k - 1) - 1) * 2 + 1) by lia.
    symmetry. apply lor_odd.
Qed.

(** A second sign extension changes nothing. *)
Lemma sign_extend_again k w :
  0 <= k < 31 -> 2 ^ 32 - 2 ^ k <= w < 2 ^ 32 -> w .| u32 (- (w .& 2 ^ k)) = w.
Proof.
  intros Hk Hw.
  assert (2 ^ 32 = 2 ^ (32 - k) * 2 ^ k) as H32 by (rewrite <- Z.pow_add_r by lia; f_equal; lia).
  assert (2 ^ (32 - k) = 2 * 2 ^ (32 - k - 1)) as Hp2 by (rewrite <- Z.pow_succ_r by lia; f_equal; lia).
  assert (1 <= 2 ^ (32 - k - 1)) as Hp by (apply (Z.pow_le_mono_r 2 0); lia).
  assert (1 <= 2 ^ k) as Hpk by (apply (Z.pow_le_mono_r 2 0); lia).
  set (A := 2 ^ (32 - k) - 1). set (r := w - A * 2 ^ k).
  assert (0 <= r < 2 ^ k) as Hr by (unfold r, A; nia).
  assert (w = (A .<< k) .| r) as Hwe by (rewrite lor_shiftl_add by lia; unfold r; lia).
  clearbody r. subst w.
  assert (((A .<< k) .| r) .& 2 ^ k = 2 ^ k) as ->.
  { apply Z.bits_inj'. intros i Hi. rewrite Z.land_spec, Z.lor_spec, Z.pow2_bits_eqb, Z.shiftl_spec by lia.
    destruct (Z.eqb_spec k i) as [->|]; [|apply andb_false_r]. rewrite Z.sub_diag, andb_true_r, Z.bit0_odd.
    apply orb_true_iff. left. replace A with (2 * (2 ^ (32 - i - 1) - 1) + 1) by (unfold A; lia).
    apply Z.odd_spec. now eexists. }
  replace (u32 (- 2 ^ k)) with (A .<< k).
  - now rewrite Z.lor_comm, Z.lor_assoc, Z.lor_diag.
  - rewrite Z.shiftl_mul_pow2, wrap_mod by lia. apply (Z.mod_unique _ _ (-1)); unfold A; nia.
Qed.

(** The value of a field: two's complement, the smallest value refused. *)
Lemma trim_value_spec bits cast w :
  (1 <= bits <= 16)%nat -> in_width (Z.of_nat bits) w ->
  (forall v, - 2 ^ (Z.of_nat bits - 1) <= v < 2 ^ (Z.of_nat bits - 1) -> cast v = v) ->
  trim_value bits cast w =
    if w <? 2 ^ (Z.of_nat bits - 1) then Some w
    else if w =? 2 ^ (Z.of_nat bits - 1) then None else Some (w - 2 ^ Z.of_nat bits).
Proof.
  intros Hb Hw Hcast. unfold trim_value. set (k := Z.of_nat bits - 1) in *.
  replace (Z.of_nat bits) with (k + 1) in * by (unfold k; lia).
  assert (0 <= k < 16) as Hk by (unfold k; lia). clearbody k. clear Hb. unfold in_width in Hw.
  assert (2 ^ (k + 1) = 2 * 2 ^ k) as H2 by (rewrite Z.pow_add_r by lia; lia).
  assert (1 <= 2 ^ k) as Hp by (apply (Z.pow_le_mono_r 2 0); lia).
  assert (2 ^ k <= 2 ^ 15) as Hp' by (apply Z.pow_le_mono_r; lia).
  change (2 ^ 15) with 32768 in Hp'.
  rewrite Z.shiftl_1_l, (wrap_small 32 (2 ^ k)) by (unfold in_width; lia).
  assert (u32 (- 2 ^ k) = 2 ^ 32 - 2 ^ k) as Hneg.
  { rewrite wrap_mod by lia. symmetry. apply (Z.mod_unique _ _ (-1)); lia. }
  rewrite Hneg, sign_extend by lia. destruct (Z.ltb_spec w (2 ^ k)) as [H|H].
  - destruct (Z.eqb_spec w (2 ^ 32 - 2 ^ k)); [lia|].
    rewrite sign_extend by lia. destruct (Z.ltb_spec w (2 ^ k)); [|lia].
    rewrite (sext_small 32) by lia. now rewrite Hcast by lia.
  - destruct (Z.eqb_spec w (2 ^ k)) as [->|Hne].
    + destruct (Z.eqb_spec (2 ^ k + 2 ^ 32 - 2 ^ (k + 1)) (2 ^ 32 - 2 ^ k)); [done | lia].
    + destruct (Z.eqb_spec (w + 2 ^ 32 - 2 ^ (k + 1)) (2 ^ 32 - 2 ^ k)); [lia|].
      rewrite sign_extend_again by lia. f_equal.
      replace (i32 (w + 2 ^ 32 - 2 ^ (k + 1))) with (w - 2 ^ (k + 1)); [apply Hcast; lia|].
      unfold sext. rewrite wrap_small by (unfold in_width; lia).
      destruct (Z.ltb_spec (w + 2 ^ 32 - 2 ^ (k + 1)) (2 ^ (32 - 1))); lia.
Qed.

(** The field of a value, as the signed encoders mask it. *)
Lemma trim_field w bits v :
  (1 <= bits)%nat -> Z.of_nat bits <= w -> w <= 16 ->
  wrap w v .& u32 (u32 (1 .<< Z.of_nat bits) - 1) = wrap (Z.of_nat bits) v.
Proof.
  intros Hb Hw H16. rewrite mask1_wrap by lia. apply Z.bits_inj'. intros k Hk.
  rewrite !wrap_testbit by lia.
  destruct (Z.ltb_spec k (Z.of_nat bits)), (Z.ltb_spec k w); done || lia.
Qed.

#[export] Instance trim_codec bits cast :
  (1 <= bits <= 16)%nat ->
  (forall v, - 2 ^ (Z.of_nat bits - 1) <= v < 2 ^ (Z.of_nat bits - 1) -> cast v = v) ->
  FieldCodec bits (trim_valid bits) (wrap (Z.of_nat bits)) (trim_value bits cast).
Proof.
  intros Hb Hcast.
  assert (2 ^ Z.of_nat bits = 2 * 2 ^ (Z.of_nat bits - 1)) as H2
    by (rewrite <- Z.pow_succ_r by lia; f_equal; lia).
  split.
  - intros v _. apply wrap_range. lia.
  - unfold trim_valid. intros v Hv. rewrite trim_value_spec by (done || apply wrap_range; lia).
    rewrite wrap_mod by lia. destruct (Z.le_gt_cases 0 v).
    + rewrite Z.mod_small by lia. destruct (Z.ltb_spec v (2 ^ (Z.of_nat bits - 1))); [done | lia].
    + replace (v mod 2 ^ Z.of_nat bits) with (v + 2 ^ Z.of_nat bits)
        by (apply (Z.mod_unique _ _ (-1)); lia).
      destruct (Z.ltb_spec (v + 2 ^ Z.of_nat bits) (2 ^ (Z.of_nat bits - 1))); [lia|].
      destruct (Z.eqb_spec (v + 2 ^ Z.of_nat bits) (2 ^ (Z.of_nat bits - 1))); [lia|]. f_equal. lia.
  - unfold trim_valid. intros w v Hw. rewrite trim_value_spec by done. unfold in_width in Hw.
    destruct (Z.ltb_spec w (2 ^ (Z.of_nat bits - 1))); intros H'.
    + injection H' as <-. split; [lia|]. now apply wrap_small.
    + destruct (Z.eqb_spec w (2 ^ (Z.of_nat bits - 1))); [done|]. injection H' as <-.
      split; [lia|]. rewrite wrap_mod by lia. symmetry. apply (Z.mod_unique _ _ (-1)); lia.
Qed.

(** * Round trips, for any field codec *)

Section RoundTrip.
  Context {bits : nat} {valid : Z -> Prop} {enc : Z -> Z} {val : Z -> option Z}.
  Context `{!FieldCodec bits valid enc val} (Hbits : (1 <= bits <= 24)%nat).

Lemma fields_of_array (x : list Z) n :
  length x = n -> (fun u => enc (x !!! u)) <$> seq 0 n = enc <$> x.
Proof.
  intros Hn. apply list_eq_total; [now rewrite !length_fmap, length_seq|].
  rewrite length_fmap, length_seq. intros k Hk.
  rewrite (@list_lookup_total_fmap nat Z (fun u => enc (x !!! u)) _ _) by now rewrite length_seq.
  rewrite lookup_total_seq_lt by done. rewrite (@list_lookup_total_fmap Z Z enc _ _) by lia. done.
Qed.

Lemma encode_decode (x : list Z) n extra max_in_len :
  Forall valid x -> length x = n -> (out_len n bits <= max_in_len)%nat ->
  decode_spec bits val n (pack_loop bits n (fun u => enc (x !!! u)) ++ extra) max_in_len = Done (out_len n bits, x).
Proof.
  intros Hv Hl Hmax. unfold decode_spec. destruct (Nat.ltb_spec max_in_len (out_len n bits)); [lia|].
  destruct (pack_loop_spec bits (fun u => enc (x !!! u)) Hbits n) as (pad & Hpad & _ & He).
  { intros u Hu. apply enc_range. rewrite Forall_lookup_total in Hv. apply Hv. lia. }
  rewrite bytes_bits_app, He, fields_of_array, <- app_assoc by done. subst n.
  rewrite read_fields_enc by done. cbn [app].
  rewrite <- (bits_of_0 pad), leftover_bits by done.
  now rewrite bits_of_0, (proj2 (all_zero_iff _)) by now rewrite length_replicate.
Qed.

Lemma decode_encode (x : list Z) n inp v max_in_len :
  Forall (in_width 8) inp ->
  decode_spec bits val n inp max_in_len = Done (v, x) ->
  v = out_len n bits /\ (v <= max_in_len)%nat /\ length x = n /\ Forall valid x /\
  pack_loop bits n (fun u => enc (x !!! u)) = take v inp.
Proof.
  intros Hin. unfold decode_spec. destruct (Nat.ltb_spec max_in_len (out_len n bits)); [done|].
  destruct (read_fields _ _ _ _ _) as [[y s]| |] eqn:Hr; [|done|done].
  destruct (all_zero _) eqn:Hz; [|done]. intros H'. injection H' as <- ->.
  apply read_fields_sound in Hr as (xs & Hxs & Hl & Hv & Hs). cbn [app] in Hxs. subst xs.
  split; [done|]. split; [done|]. split; [done|]. split; [done|].
  destruct (pack_loop_spec bits (fun u => enc (x !!! u)) Hbits n) as (pad & Hpad & Hb & He).
  { intros u Hu. apply enc_range. rewrite Forall_lookup_total in Hv. apply Hv. lia. }
  assert (length (pack_loop bits n (fun u => enc (x !!! u))) = out_len n bits) as Hpl.
  { apply pack_loop_length; [done|]. intros u Hu. apply enc_range.
    rewrite Forall_lookup_total in Hv. apply Hv. lia. }
  apply bytes_bits_inj; [done | now apply Forall_take |].
  rewrite He, fields_of_array by done.
  assert (length (bytes_bits inp) = length (fields_bits bits (enc <$> x)) + length s)%nat as Hlen
    by now rewrite Hs, length_app.
  pose proof (f_equal length He) as Hle.
  rewrite bytes_bits_length, Hpl, length_app, fields_of_array, length_replicate in Hle by done.
  rewrite bytes_bits_length in Hlen.
  assert (length s mod 8 = pad)%nat as Hmod.
  { symmetry. apply (Nat.mod_unique _ _ (length inp - out_len n bits)); lia. }
  rewrite Hmod in Hz. apply all_zero_iff in Hz. rewrite length_take, Nat.min_l in Hz by lia.
  assert (bytes_bits inp = bytes_bits (take (out_len n bits) inp) ++ bytes_bits (drop (out_len n bits) inp)) as Hsplit
    by now rewrite <- bytes_bits_app, take_drop.
  rewrite Hsplit in Hs. rewrite <- (take_drop pad s), Hz, app_assoc in Hs.
  apply app_inj_1 in Hs as [Hs _]; [done|].
  rewrite length_app, length_replicate, bytes_bits_length, length_take. lia.
Qed.

Lemma decode_not_stuck n inp max_in_len :
  (max_in_len <= length inp)%nat -> decode_spec bits val n inp max_in_len <> Stuck.
Proof.
  intros Hm. unfold decode_spec. destruct (Nat.ltb_spec max_in_len (out_len n bits)); [done|].
  assert (n * bits <= length (bytes_bits inp))%nat as Hl.
  { rewrite bytes_bits_length. pose proof (Nat.div_mod_eq (n * bits + 7) 8) as Hd.
    pose proof (Nat.mod_upper_bound (n * bits + 7) 8 ltac:(lia)). unfold out_len in *. lia. }
  pose proof (read_fields_not_stuck bits val n [] (bytes_bits inp) Hl) as Hns.
  destruct (read_fields _ _ _ _ _) as [[y s]| |]; [|done|done]. now destruct (all_zero _).
Qed.
End RoundTrip.

(** * The range tests *)

Lemma existsb_seq (f : nat -> bool) n :
  existsb f (seq 0 n) = false <-> forall u, (u < n)%nat -> f u = false.
Proof.
  rewrite <- not_true_iff_false, existsb_exists. split.
  - intros H u Hu. destruct (f u) eqn:E; [|done]. exfalso. apply H. exists u.
    split; [apply in_seq; lia | done].
  - intros H (u & Hu & E). apply in_seq in Hu. rewrite H in E by lia. done.
Qed.

Lemma Forall_array (P : Z -> Prop) (x : list Z) n :
  length x = n -> Forall P x <-> forall u, (u < n)%nat -> P (x !!! u).
Proof. intros <-. apply Forall_lookup_total. Qed.

Lemma trim_out_of_range_spec x n bits :
  (1 <= bits)%nat -> length x = n -> trim_out_of_range x n bits = false <-> Forall (trim_valid bits) x.
Proof.
  intros Hb Hl. unfold trim_out_of_range. rewrite existsb_seq, (Forall_array _ x n Hl).
  unfold trim_valid. rewrite Z.shiftl_1_l.
  split; intros H u Hu; specialize (H u Hu).
  - apply orb_false_iff in H as [H1%Z.ltb_ge H2%Z.ltb_ge]. lia.
  - apply orb_false_iff. split; apply Z.ltb_ge; lia.
Qed.

Lemma modq_range_spec (x : list Z) n :
  length x = n -> Forall (fun v => 0 <= v) x ->
  existsb (fun u => 12289 <=? x !!! u) (seq 0 n) = false <-> Forall (fun v => 0 <= v < 12289) x.
Proof.
  intros Hl Hn. rewrite existsb_seq, (Forall_array _ x n Hl). rewrite (Forall_array _ x n Hl) in Hn.
  split; intros H u Hu; specialize (H u Hu); specialize (Hn u Hu).
  - apply Z.leb_gt in H. lia.
  - apply Z.leb_gt. lia.
Qed.

Lemma pack_loop_ext bits n f g :
  (forall u, (u < n)%nat -> f u = g u) -> pack_loop bits n f = pack_loop bits n g.
Proof.
  intros H. unfold pack_loop. rewrite (for_up_ext _ (fun u st => pack_step bits (g u) st)); [done|].
  intros k st Hk. now rewrite H by lia.
Qed.

(** On valid values the encoders write the packed fields. *)
Lemma modq_encode_valid dst x logn :
  length x = (2 ^ logn)%nat -> Forall (fun v => 0 <= v < 12289) x ->
  modq_encode dst x logn =
    encode_into dst (out_len (2 ^ logn) 14) (pack_loop 14 (2 ^ logn) (fun u => x !!! u)).
Proof.
  intros Hl Hv. unfold modq_encode.
  assert (Forall (fun v => 0 <= v) x) as Hn by (eapply Forall_impl; [|exact Hv]; simpl; lia).
  now rewrite (proj2 (modq_range_spec x _ Hl Hn)) by done.
Qed.

Lemma trim_i8_encode_valid dst x logn bits :
  (1 <= bits <= 8)%nat -> length x = (2 ^ logn)%nat -> Forall (trim_valid bits) x ->
  trim_i8_encode dst x logn bits =
    encode_into dst (out_len (2 ^ logn) bits)
      (pack_loop bits (2 ^ logn) (fun u => wrap (Z.of_nat bits) (x !!! u))).
Proof.
  intros Hb Hl Hv. unfold trim_i8_encode.
  rewrite (proj2 (trim_out_of_range_spec x _ bits ltac:(lia) Hl)) by done. f_equal.
  apply pack_loop_ext. intros u _. apply trim_field; lia.
Qed.

Lemma trim_i16_encode_valid dst x logn bits :
  (1 <= bits <= 16)%nat -> length x = (2 ^ logn)%nat -> Forall (trim_valid bits) x ->
  trim_i16_encode dst x logn bits =
    encode_into dst (out_len (2 ^ logn) bits)
      (pack_loop bits (2 ^ logn) (fun u => wrap (Z.of_nat bits) (x !!! u))).
Proof.
  intros Hb Hl Hv. unfold trim_i16_encode.
  rewrite (proj2 (trim_out_of_range_spec x _ bits ltac:(lia) Hl)) by done. f_equal.
  apply pack_loop_ext. intros u _. apply trim_field; lia.
Qed.

Lemma encode_into_fits max len bytes : (len <= max)%nat -> encode_into (Some max) len bytes = (len, bytes).
Proof. intros H. unfold encode_into. destruct (Nat.ltb_spec max len); [lia | done]. Qed.

Lemma cast_i8 bits v :
  (1 <= bits <= 8)%nat -> - 2 ^ (Z.of_nat bits - 1) <= v < 2 ^ (Z.of_nat bits - 1) -> i8 v = v.
Proof.
  intros Hb Hv. assert (2 ^ (Z.of_nat bits - 1) <= 2 ^ (8 - 1)) by (apply Z.pow_le_mono_r; lia).
  apply sext_small; lia.
Qed.

Lemma cast_i16 bits v :
  (1 <= bits <= 16)%nat -> - 2 ^ (Z.of_nat bits - 1) <= v < 2 ^ (Z.of_nat bits - 1) -> i16 v = v.
Proof.
  intros Hb Hv. assert (2 ^ (Z.of_nat bits - 1) <= 2 ^ (16 - 1)) by (apply Z.pow_le_mono_r; lia).
  apply sext_small; lia.
Qed.

Lemma pack_loop_bytes bits n f :
  (1 <= bits <= 24)%nat -> (forall u, (u < n)%nat -> in_width (Z.of_nat bits) (f u)) ->
  Forall (in_width 8) (pack_loop bits n f).
Proof. intros Hb Hf. now destruct (pack_loop_spec bits f Hb n Hf) as (? & _ & ? & _). Qed.

Lemma modq_fields (x : list Z) n u :
  length x = n -> Forall (fun v => 0 <= v < 12289) x -> (u < n)%nat -> in_width 14 (x !!! u).
Proof.
  intros Hl Hv Hu. rewrite (Forall_array _ x n Hl) in Hv. specialize (Hv u Hu). unfold in_width. lia.
Qed.

(** * Properties *)

Lemma modq_decode_encoded (x extra : list Z) (logn max max_in_len : nat) :
  length x = (2 ^ logn)%nat -> Forall (fun v => 0 <= v < 12289) x -> Forall (in_width 8) extra ->
  (out_len (2 ^ logn) 14 <= max)%nat -> (out_len (2 ^ logn) 14 <= max_in_len)%nat ->
  exists bytes, modq_encode (Some max) x logn = (out_len (2 ^ logn) 14, bytes) /\
    length bytes = out_len (2 ^ logn) 14 /\ Forall (in_width 8) bytes /\
    modq_decode logn (bytes ++ extra) max_in_len = Done (out_len (2 ^ logn) 14, x).
Proof.
  intros Hl Hv Hex Hmax Hin. eexists. rewrite modq_encode_valid, encode_into_fits by done.
  assert (forall u, (u < 2 ^ logn)%nat -> in_width (Z.of_nat 14) (x !!! u)) as Hf
    by (intros u Hu; now apply (modq_fields x (2 ^ logn))).
  split; [done|]. split; [apply pack_loop_length; [lia | done]|].
  assert (Forall (in_width 8) (pack_loop 14 (2 ^ logn) (fun u => x !!! u))) as Hb
    by (apply pack_loop_bytes; [lia | done]).
  split; [done|]. rewrite modq_decode_spec by now apply Forall_app.
  apply (encode_decode (enc := fun v => v) (valid := fun v => 0 <= v < 12289)); lia || done.
Qed.

Lemma modq_decode_sound (inp : list Z) (logn max_in_len : nat) :
  Forall (in_width 8) inp -> (max_in_len <= length inp)%nat ->
  modq_decode logn inp max_in_len <> Stuck /\
  forall v x, modq_decode logn inp max_in_len = Done (v, x) ->
    v = out_len (2 ^ logn) 14 /\ (v <= max_in_len)%nat /\ length x = (2 ^ logn)%nat /\
    Forall (fun c => 0 <= c < 12289) x /\ modq_encode (Some v) x logn = (v, take v inp).
Proof.
  intros Hin Hm. rewrite modq_decode_spec by done. split; [apply decode_not_stuck; lia|].
  intros v x H. apply (decode_encode (enc := fun v => v) (valid := fun v => 0 <= v < 12289))
    in H as (Hv & Hvm & Hl & Hx & He); [| lia | done].
  repeat (split; [done|]). rewrite modq_encode_valid, <- Hv by (done || lia). rewrite He. apply encode_into_fits. lia.
Qed.

(** The public-key codec: every polynomial modulo 12289 that fits the buffer is encoded in
    exactly ceil(14 n / 8) bytes, and decoding those bytes, whatever follows them, gives the polynomial
    back; conversely whatever [modq_decode] accepts is a polynomial modulo 12289 whose encoding is the
    very bytes that were read, so no public key has two encodings, and the decoder never reads past
    [max_in_len] accessible bytes. *)
Theorem modq_canonical (logn max_in_len : nat) :
  (forall (x extra : list Z) (max : nat), length x = (2 ^ logn)%nat -> Forall (fun v => 0 <= v < 12289) x ->
   Forall (in_width 8) extra -> (out_len (2 ^ logn) 14 <= max)%nat -> (out_len (2 ^ logn) 14 <= max_in_len)%nat ->
   exists bytes, modq_encode (Some max) x logn = (out_len (2 ^ logn) 14, bytes) /\
     length bytes = out_len (2 ^ logn) 14 /\ Forall (in_width 8) bytes /\
     modq_decode logn (bytes ++ extra) max_in_len = Done (out_len (2 ^ logn) 14, x)) /\
  (forall inp : list Z, Forall (in_width 8) inp -> (max_in_len <= length inp)%nat ->
   modq_decode logn inp max_in_len <> Stuck /\
   forall v x, modq_decode logn inp max_in_len = Done (v, x) ->
     v = out_len (2 ^ logn) 14 /\ (v <= max_in_len)%nat /\ length x = (2 ^ logn)%nat /\
     Forall (fun c => 0 <= c < 12289) x /\ modq_encode (Some v) x logn = (v, take v inp)).
Proof.
  split; [intros x extra max; apply modq_decode_encoded | intros inp; apply modq_decode_sound].
Qed.

Lemma modq_canonical_witness :
  Forall (in_width 8) [0; 5; 0; 4] /\ modq_decode 1 [0; 5; 0; 4] 4 <> Stuck /\
  exists bytes, modq_encode (Some 7%nat) [1; 12288; 0; 77] 2 = (7%nat, bytes) /\
    length bytes = 7%nat /\ Forall (in_width 8) bytes /\ modq_decode 2 (bytes ++ [255]) 8 = Done (7%nat, [1; 12288; 0; 77]).
Proof.
  assert (Forall (in_width 8) [0; 5; 0; 4]) as H by by_decide. split; [exact H|]. split.
  - exact (proj1 (proj2 (modq_canonical 1 4) [0; 5; 0; 4] H ltac:(simpl; lia))).
  - apply (proj1 (modq_canonical 2 8) [1; 12288; 0; 77] [255] 7%nat); [reflexivity | by_decide | by_decide | |]; vm_compute; lia.
Defined.

Lemma trim_i8_decode_encoded (x extra : list Z) (logn bits max max_in_len : nat) :
  (1 <= bits <= 8)%nat -> length x = (2 ^ logn)%nat -> Forall (in_width 8) extra ->
  (out_len (2 ^ logn) bits <= max_in_len)%nat ->
  (~ Forall (trim_valid bits) x \/ (max < out_len (2 ^ logn) bits)%nat ->
   trim_i8_encode (Some max) x logn bits = (0%nat, [])) /\
  (Forall (trim_valid bits) x -> (out_len (2 ^ logn) bits <= max)%nat ->
   exists bytes, trim_i8_encode (Some max) x logn bits = (out_len (2 ^ logn) bits, bytes) /\
     length bytes = out_len (2 ^ logn) bits /\ Forall (in_width 8) bytes /\
     trim_i8_decode logn bits (bytes ++ extra) max_in_len = Done (out_len (2 ^ logn) bits, x)).
Proof.
  intros Hb Hl Hex Hin. split.
  - unfold trim_i8_encode. intros H. destruct (trim_out_of_range x (2 ^ logn) bits) eqn:E; [done|].
    apply trim_out_of_range_spec in E; [|lia | done]. destruct H as [H|H]; [done|].
    unfold encode_into. destruct (Nat.ltb_spec max (out_len (2 ^ logn) bits)); [done | lia].
  - intros Hv Hmax. eexists. rewrite trim_i8_encode_valid, encode_into_fits by done.
    assert (forall u, (u < 2 ^ logn)%nat -> in_width (Z.of_nat bits) (wrap (Z.of_nat bits) (x !!! u))) as Hf
      by (intros; apply wrap_range; lia).
    split; [done|]. split; [apply pack_loop_length; [lia | done]|].
    assert (Forall (in_width 8) (pack_loop bits (2 ^ logn) (fun u => wrap (Z.of_nat bits) (x !!! u)))) as Hpb
      by (apply pack_loop_bytes; [lia | done]).
    split; [done|]. unfold trim_i8_decode. rewrite trim_decode_spec by (lia || now apply Forall_app).
    pose proof (trim_codec bits (fun w => i8 w) ltac:(lia) (fun v => cast_i8 bits v Hb)).
    apply (encode_decode (enc := wrap (Z.of_nat bits)) (valid := trim_valid bits)); lia || done.
Qed.

Lemma trim_decode_sound (inp : list Z) (logn bits max_in_len : nat) :
  Forall (in_width 8) inp -> (max_in_len <= length inp)%nat ->
  ((1 <= bits <= 8)%nat ->
   trim_i8_decode logn bits inp max_in_len <> Stuck /\
   forall v x, trim_i8_decode logn bits inp max_in_len = Done (v, x) ->
     v = out_len (2 ^ logn) bits /\ length x = (2 ^ logn)%nat /\ Forall (trim_valid bits) x /\
     trim_i8_encode (Some v) x logn bits = (v, take v inp)) /\
  ((1 <= bits <= 16)%nat ->
   trim_i16_decode logn bits inp max_in_len <> Stuck /\
   forall v x, trim_i16_decode logn bits inp max_in_len = Done (v, x) ->
     v = out_len (2 ^ logn) bits /\ length x = (2 ^ logn)%nat /\ Forall (trim_valid bits) x /\
     trim_i16_encode (Some v) x logn bits = (v, take v inp)).
Proof.
  intros Hin Hm. split; intros Hb.
  - unfold trim_i8_decode. rewrite trim_decode_spec by (lia || done). split; [apply decode_not_stuck; lia|].
    pose proof (trim_codec bits (fun w => i8 w) ltac:(lia) (fun v => cast_i8 bits v Hb)).
    intros v x H'. apply (decode_encode (enc := wrap (Z.of_nat bits)) (valid := trim_valid bits))
      in H' as (Hv & Hvm & Hl & Hx & He); [| lia | done].
    repeat (split; [done|]). rewrite trim_i8_encode_valid, <- Hv by (done || lia). rewrite He. apply encode_into_fits. lia.
  - unfold trim_i16_decode. rewrite trim_decode_spec by (lia || done). split; [apply decode_not_stuck; lia|].
    pose proof (trim_codec bits (fun w => i16 w) ltac:(lia) (fun v => cast_i16 bits v Hb)).
    intros v x H'. apply (decode_encode (enc := wrap (Z.of_nat bits)) (valid := trim_valid bits))
      in H' as (Hv & Hvm & Hl & Hx & He); [| lia | done].
    repeat (split; [done|]). rewrite trim_i16_encode_valid, <- Hv by (done || lia). rewrite He. apply encode_into_fits. lia.
Qed.

(** The private-key codec in [bits] bits.  Decoding is canonical, for both signed decoders: an
    accepted input yields values in range whose encoding is the bytes read, and the decoders stay inside
    the input.  The encoder of signed bytes refuses exactly the polynomials with a coefficient outside the
    open interval (-2^(bits-1), 2^(bits-1)) or a buffer that is too small, and what it writes decodes to
    the polynomial. *)
Theorem trim_canonical (logn bits max_in_len : nat) :
  (forall inp : list Z, Forall (in_width 8) inp -> (max_in_len <= length inp)%nat ->
   ((1 <= bits <= 8)%nat ->
    trim_i8_decode logn bits inp max_in_len <> Stuck /\
    forall v x, trim_i8_decode logn bits inp max_in_len = Done (v, x) ->
      v = out_len (2 ^ logn) bits /\ length x = (2 ^ logn)%nat /\ Forall (trim_valid bits) x /\
      trim_i8_encode (Some v) x logn bits = (v, take v inp)) /\
   ((1 <= bits <= 16)%nat ->
    trim_i16_decode logn bits inp max_in_len <> Stuck /\
    forall v x, trim_i16_decode logn bits inp max_in_len = Done (v, x) ->
      v = out_len (2 ^ logn) bits /\ length x = (2 ^ logn)%nat /\ Forall (trim_valid bits) x /\
      trim_i16_encode (Some v) x logn bits = (v, take v inp))) /\
  (forall (x extra : list Z) (max : nat),
   (1 <= bits <= 8)%nat -> length x = (2 ^ logn)%nat -> Forall (in_width 8) extra ->
   (out_len (2 ^ logn) bits <= max_in_len)%nat ->
   (~ Forall (trim_valid bits) x \/ (max < out_len (2 ^ logn) bits)%nat ->
    trim_i8_encode (Some max) x logn bits = (0%nat, [])) /\
   (Forall (trim_valid bits) x -> (out_len (2 ^ logn) bits <= max)%nat ->
    exists bytes, trim_i8_encode (Some max) x logn bits = (out_len (2 ^ logn) bits, bytes) /\
      length bytes = out_len (2 ^ logn) bits /\ Forall (in_width 8) bytes /\
      trim_i8_decode logn bits (bytes ++ extra) max_in_len = Done (out_len (2 ^ logn) bits, x))).
Proof.
  split; [intros inp; apply trim_decode_sound | intros x extra max; apply trim_i8_decode_encoded].
Qed.

Lemma trim_canonical_witness :
  Forall (in_width 8) [8; 64] /\ trim_i8_decode 1 5 [8; 64] 2 <> Stuck /\
  exists bytes, trim_i8_encode (Some 3%nat) [1; -15; 0; 15] 2 5 = (3%nat, bytes) /\
    length bytes = 3%nat /\ Forall (in_width 8) bytes /\ trim_i8_decode 2 5 (bytes ++ []) 3 = Done (3%nat, [1; -15; 0; 15]).
Proof.
  assert (Forall (in_width 8) [8; 64]) as H by by_decide. split; [exact H|]. split.
  - exact (proj1 (proj1 (proj1 (trim_canonical 1 5 2) [8; 64] H ltac:(simpl; lia)) ltac:(lia))).
  - apply (proj2 (trim_canonical 2 5 3) [1; -15; 0; 15] [] 3%nat);
      [lia | reflexivity | constructor | vm_compute; lia | unfold trim_valid; by_decide | vm_compute; lia].
Defined.

(** * For the callers: decoding as the inverse of encoding *)

(** An accepted field is the encoding of its value, and only of that value. *)
Lemma modq_decode_iff inp logn max x :
  Forall (in_width 8) inp -> (out_len (2 ^ logn) 14 <= max <= length inp)%nat ->
  modq_decode logn inp max = Done (out_len (2 ^ logn) 14, x) <->
  length x = (2 ^ logn)%nat /\ Forall (fun c => 0 <= c < 12289) x /\
  modq_encode (Some (out_len (2 ^ logn) 14)) x logn = (out_len (2 ^ logn) 14, take (out_len (2 ^ logn) 14) inp).
Proof.
  intros Hin Hm. split.
  - intros H. now apply (proj2 (modq_decode_sound inp logn max Hin ltac:(lia))) in H as (_ & _ & ? & ? & ?).
  - intros (Hl & Hv & He). set (L := out_len (2 ^ logn) 14) in *.
    destruct (modq_decode_encoded x (drop L inp) logn L max Hl Hv) as (bytes & He' & _ & _ & Hd);
      [now apply Forall_drop | done | lia |].
    fold L in He'. rewrite He in He'. injection He' as <-. now rewrite take_drop in Hd.
Qed.

Lemma modq_decode_total inp logn max :
  Forall (in_width 8) inp -> (max <= length inp)%nat ->
  modq_decode logn inp max = Fail \/ exists x, modq_decode logn inp max = Done (out_len (2 ^ logn) 14, x).
Proof.
  intros Hin Hm. pose proof (modq_decode_sound inp logn max Hin Hm) as [Hs Hd].
  destruct (modq_decode logn inp max) as [[v x]| |]; [|now left | done].
  right. destruct (Hd v x eq_refl) as (-> & _). now exists x.
Qed.

Lemma trim_i8_decode_iff inp logn bits max x :
  (1 <= bits <= 8)%nat -> Forall (in_width 8) inp -> (out_len (2 ^ logn) bits <= max <= length inp)%nat ->
  trim_i8_decode logn bits inp max = Done (out_len (2 ^ logn) bits, x) <->
  length x = (2 ^ logn)%nat /\ Forall (trim_valid bits) x /\
  trim_i8_encode (Some (out_len (2 ^ logn) bits)) x logn bits =
    (out_len (2 ^ logn) bits, take (out_len (2 ^ logn) bits) inp).
Proof.
  intros Hb Hin Hm. split.
  - intros H. now apply (proj2 (proj1 (trim_decode_sound inp logn bits max Hin ltac:(lia)) Hb)) in H as (_ & ? & ? & ?).
  - intros (Hl & Hv & He). set (L := out_len (2 ^ logn) bits) in *.
    destruct (proj2 (trim_i8_decode_encoded x (drop L inp) logn bits L max Hb Hl ltac:(now apply Forall_drop) ltac:(fold L; lia)) Hv)
      as (bytes & He' & _ & _ & Hd); [done|].
    fold L in He'. rewrite He in He'. injection He' as <-. now rewrite take_drop in Hd.
Qed.

Lemma trim_i8_decode_total inp logn bits max :
  (1 <= bits <= 8)%nat -> Forall (in_width 8) inp -> (max <= length inp)%nat ->
  trim_i8_decode logn bits inp max = Fail \/
  exists x, trim_i8_decode logn bits inp max = Done (out_len (2 ^ logn) bits, x).
Proof.
  intros Hb Hin Hm. pose proof (proj1 (trim_decode_sound inp logn bits max Hin Hm) Hb) as [Hs Hd].
  destruct (trim_i8_decode logn bits inp max) as [[v x]| |]; [|now left | done].
  right. destruct (Hd v x eq_refl) as (-> & _). now exists x.
Qed.

(** The encoder as a success test; a larger buffer changes nothing. *)
Lemma trim_i8_encode_cases x logn bits max :
  (1 <= bits <= 8)%nat -> length x = (2 ^ logn)%nat -> (out_len (2 ^ logn) bits <= max)%nat ->
  trim_i8_encode (Some max) x logn bits = trim_i8_encode (Some (out_len (2 ^ logn) bits)) x logn bits /\
  ((~ Forall (trim_valid bits) x /\ trim_i8_encode (Some max) x logn bits = (0%nat, [])) \/
   (Forall (trim_valid bits) x /\ exists b, trim_i8_encode (Some max) x logn bits = (out_len (2 ^ logn) bits, b) /\
      length b = out_len (2 ^ logn) bits /\ Forall (in_width 8) b)).
Proof.
  intros Hb Hl Hm.
  assert (forall max, (out_len (2 ^ logn) bits <= max)%nat -> trim_i8_encode (Some max) x logn bits =
    if trim_out_of_range x (2 ^ logn) bits then (0%nat, [])
    else (out_len (2 ^ logn) bits, pack_loop bits (2 ^ logn) (fun u => u8 (x !!! u) .& u32 (u32 (1 .<< Z.of_nat bits) - 1)))) as He.
  { intros max' Hm'. unfold trim_i8_encode. destruct (trim_out_of_range x (2 ^ logn) bits); [done|]. now apply encode_into_fits. }
  split; [now rewrite !He|].
  pose proof (trim_i8_decode_encoded x [] logn bits max max Hb Hl ltac:(constructor) Hm) as [Hbad Hgood].
  destruct (trim_out_of_range x (2 ^ logn) bits) eqn:E.
  - left. assert (~ Forall (trim_valid bits) x) as Hv.
    { intros Hv. apply (trim_out_of_range_spec x (2 ^ logn) bits ltac:(lia) Hl) in Hv. congruence. }
    split; [done|]. now apply Hbad; left.
  - right. apply (trim_out_of_range_spec x (2 ^ logn) bits ltac:(lia) Hl) in E. split; [done|].
    destruct (Hgood E Hm) as (b & H1 & H2 & H3 & _). now exists b.
Qed.
