(* ===== verification/CodecComp.v ===== *)
(** CodecComp: the variable-length signature encoding of [codec.c].

    [comp_encode] writes each coefficient as a sign bit, the seven low bits of the absolute value and
    the high bits in unary (that many zeros, then a one); [comp_decode] is the inverse.  The reference
    is the prefix code [code_bits] on bit strings and its parser [read_code]. *)

From Stdlib Require Import ZArith Lia.
From stdpp Require Import base numbers list option.
From S2P Require Import Prelude NumberTheory Bits CodecFixed.

(** * The encoder *)

(** The pushes of one iteration: the accumulator, and the number of bits added to [acc_len]. *)
Definition comp_push (acc x : Z) : Z * nat :=
  let acc := u32 (acc .<< 1) in
  let '(acc, t) := if x <? 0 then (acc .| 1, - x) else (acc, x) in
  let w := t in
  let acc := u32 (acc .<< 7) .| (w .& 127) in
  let w := w .>> 7 in
  let acc := u32 (acc .<< (w + 1)) .| 1 in
  (acc, (8 + Z.to_nat w + 1)%nat).

(** Storing one byte: [None] when the buffer is full.  [buf] lists the bytes produced so far, so
    [v] is its length; with a NULL destination they are only counted. *)
Definition comp_store (dst : option nat) (buf : list Z) (b : Z) : option (list Z) :=
  match dst with
  | None => Some (buf ++ [b])
  | Some max => if (max <=? length buf)%nat then None else Some (buf ++ [b])
  end.

(** [while (acc_len >= 8)]: on a full buffer the function returns, leaving the bytes written. *)
Fixpoint comp_flush (fuel : nat) (dst : option nat) (acc : Z) (acc_len : nat) (buf : list Z) :
    list Z + (nat * list Z) :=
  match fuel with
  | O => inr (acc_len, buf)
  | S fuel =>
      if (8 <=? acc_len)%nat then
        let acc_len := (acc_len - 8)%nat in
        match comp_store dst buf (u8 (acc .>> Z.of_nat acc_len)) with
        | None => inl buf
        | Some buf => comp_flush fuel dst acc acc_len buf
        end
      else inr (acc_len, buf)
  end.

(** The main loop, over the coefficients left. *)
Fixpoint comp_loop (dst : option nat) (xs : list Z) (acc : Z) (acc_len : nat) (buf : list Z) :
    list Z + (Z * nat * list Z) :=
  match xs with
  | [] => inr (acc, acc_len, buf)
  | x :: xs =>
      let '(acc, pushed) := comp_push acc x in
      let acc_len := (acc_len + pushed)%nat in
      match comp_flush acc_len dst acc acc_len buf with
      | inl buf => inl buf
      | inr (acc_len, buf) => comp_loop dst xs acc acc_len buf
      end
  end.

Definition comp_out_of_range (x : Z) : bool := (x <? -2047) || (2047 <? x).

(** The bytes in the destination when the function returns: none with a NULL pointer. *)
Definition comp_written (dst : option nat) (buf : list Z) : list Z :=
  match dst with None => [] | Some _ => buf end.

(** Return value and bytes written. *)
Definition comp_encode (dst : option nat) (x : list Z) (logn : nat) : nat * list Z :=
  let xs := take (2 ^ logn) x in
  if existsb comp_out_of_range xs then (0%nat, [])
  else match comp_loop dst xs 0 0 [] with
       | inl buf => (0%nat, comp_written dst buf)
       | inr (acc, acc_len, buf) =>
           if (0 <? acc_len)%nat then
             match comp_store dst buf (u8 (acc .<< (8 - Z.of_nat acc_len))) with
             | None => (0%nat, comp_written dst buf)
             | Some buf => (length buf, comp_written dst buf)
             end
           else (length buf, comp_written dst buf)
       end.

(** * The decoder *)

(** [if (v >= max_in_len) return 0; acc = (acc << 8) | buf[v ++];].  [buf] is what is left of the
    input; reading past it is [Stuck]. *)
Definition comp_next (max_in_len v : nat) (buf : list Z) (acc : Z) : outcome (nat * list Z * Z) :=
  if (max_in_len <=? v)%nat then Fail
  else match buf with
       | [] => Stuck
       | b :: buf => Done (S v, buf, u32 (acc .<< 8) .| b)
       end.

(** The [for (;;)] loop reading the unary part. *)
Fixpoint comp_unary (fuel max_in_len v : nat) (buf : list Z) (acc : Z) (acc_len : nat) (m : Z) :
    outcome (nat * list Z * Z * nat * Z) :=
  match fuel with
  | O => Stuck
  | S fuel =>
      let bit_of v buf acc acc_len :=
        let acc_len := (acc_len - 1)%nat in
        if negb ((acc .>> Z.of_nat acc_len) .& 1 =? 0) then Done (v, buf, acc, acc_len, m)
        else
          let m := m + 128 in
          if 2047 <? m then Fail else comp_unary fuel max_in_len v buf acc acc_len m in
      if (acc_len =? 0)%nat then
        match comp_next max_in_len v buf acc with
        | Done (v, buf, acc) => bit_of v buf acc 8%nat
        | Fail => Fail
        | Stuck => Stuck
        end
      else bit_of v buf acc acc_len
  end.

(** The main loop, [todo] coefficients left, [x] those decoded. *)
Fixpoint comp_decode_loop (todo max_in_len v : nat) (buf : list Z) (acc : Z) (acc_len : nat) (x : list Z) :
    outcome (nat * Z * nat * list Z) :=
  match todo with
  | O => Done (v, acc, acc_len, x)
  | S todo =>
      match comp_next max_in_len v buf acc with
      | Done (v, buf, acc) =>
          let b := acc .>> Z.of_nat acc_len in
          let s := b .& 128 in
          let m := b .& 127 in
          match comp_unary 17 max_in_len v buf acc acc_len m with
          | Done (v, buf, acc, acc_len, m) =>
              if negb (s =? 0) && (m =? 0) then Fail
              else
                let c := if negb (s =? 0) then i16 (u32 (- m)) else i16 m in
                comp_decode_loop todo max_in_len v buf acc acc_len (x ++ [c])
          | Fail => Fail
          | Stuck => Stuck
          end
      | Fail => Fail
      | Stuck => Stuck
      end
  end.

Definition comp_decode (logn : nat) (inp : list Z) (max_in_len : nat) : outcome (nat * list Z) :=
  match comp_decode_loop (2 ^ logn) max_in_len 0 inp 0 0 [] with
  | Done (v, acc, acc_len, x) => if extra_bits_set acc acc_len then Fail else Done (v, x)
  | Fail => Fail
  | Stuck => Stuck
  end.

Example comp_smoke :
  comp_encode (Some 8%nat) [1; -2047; 0; 130] 2 = (7%nat, [1; 255; 128; 0; 128; 64; 144]) /\
  comp_decode 2 [1; 255; 128; 0; 128; 64; 144; 9] 8 = Done (7%nat, [1; -2047; 0; 130]) /\
  comp_decode 0 [128; 255] 2 = Fail.
Proof. repeat split; reflexivity. Qed.

(** * The reference: a prefix code on bits *)

Definition comp_valid (x : Z) : Prop := -2047 <= x <= 2047.

Definition code_bits (x : Z) : list bool :=
  (x <? 0) :: bits_of 7 (Z.abs x) ++ replicate (Z.to_nat (Z.abs x / 128)) false ++ [true].

Definition comp_bits (xs : list Z) : list bool := xs ≫= code_bits.

Fixpoint read_unary (m : Z) (s : list bool) : option (Z * list bool) :=
  match s with
  | [] => None
  | true :: s => Some (m, s)
  | false :: s => if 2047 <? m + 128 then None else read_unary (m + 128) s
  end.

Definition read_code (s : list bool) : option (Z * list bool) :=
  match s with
  | [] => None
  | sg :: t =>
      if (length t <? 7)%nat then None
      else match read_unary (Z_of_bits (take 7 t)) (drop 7 t) with
           | None => None
           | Some (m, s') => if sg && (m =? 0) then None else Some (if sg then - m else m, s')
           end
  end.

Fixpoint read_codes (todo : nat) (x : list Z) (s : list bool) : option (list Z * list bool) :=
  match todo with
  | O => Some (x, s)
  | S todo =>
      match read_code s with
      | None => None
      | Some (c, s) => read_codes todo (x ++ [c]) s
      end
  end.

(** The reference parser accepts the code, and nothing else. *)

Lemma read_unary_code k : forall m s,
  0 <= m -> m + 128 * Z.of_nat k <= 2047 ->
  read_unary m (replicate k false ++ true :: s) = Some (m + 128 * Z.of_nat k, s).
Proof.
  induction k as [|k IH]; intros m s H0 H; cbn [replicate app read_unary].
  - do 2 f_equal. lia.
  - destruct (Z.ltb_spec 2047 (m + 128)); [lia|]. rewrite IH by lia. do 2 f_equal. lia.
Qed.

Lemma read_unary_sound s : forall m m' s',
  read_unary m s = Some (m', s') ->
  exists k, m' = m + 128 * Z.of_nat k /\ (m <= 2047 -> m' <= 2047) /\ s = replicate k false ++ true :: s'.
Proof.
  induction s as [|[] s IH]; intros m m' s' H; cbn [read_unary] in H; [done| |].
  - injection H as <- <-. exists 0%nat. cbn. split; [lia | done].
  - destruct (Z.ltb_spec 2047 (m + 128)); [done|]. apply IH in H as (k & -> & Hm & ->).
    exists (S k). split; [lia|]. split; [lia | done].
Qed.

Lemma in_width_abs_low x : in_width (Z.of_nat 7) (wrap 7 (Z.abs x)).
Proof. apply wrap_range. lia. Qed.

Lemma code_bits_eq m k (sg : bool) :
  in_width (Z.of_nat 7) m -> (sg = true -> m + 128 * Z.of_nat k <> 0) ->
  code_bits (if sg then - (m + 128 * Z.of_nat k) else m + 128 * Z.of_nat k) =
    sg :: bits_of 7 m ++ replicate k false ++ [true].
Proof.
  intros Hm Hs. assert (0 <= m < 128) as Hm' by exact Hm. clear Hm. unfold code_bits.
  replace (Z.abs (if sg then _ else _)) with (m + 128 * Z.of_nat k) by (destruct sg; lia).
  assert ((m + 128 * Z.of_nat k) / 128 = Z.of_nat k) as -> by (symmetry; apply (Z.div_unique _ _ _ m); lia).
  rewrite Nat2Z.id. f_equal.
  - destruct sg; [apply Z.ltb_lt | apply Z.ltb_ge]; [specialize (Hs eq_refl)|]; lia.
  - f_equal. rewrite <- (bits_of_wrap 7) by lia. f_equal. rewrite wrap_mod by lia.
    change (2 ^ 7) with 128. symmetry. apply (Z.mod_unique _ _ (Z.of_nat k)); lia.
Qed.

(** Every valid coefficient is a sign, a low part and a count. *)
Lemma comp_valid_split x :
  comp_valid x -> exists sg m k, x = (if sg : bool then - (m + 128 * Z.of_nat k) else m + 128 * Z.of_nat k) /\
    in_width (Z.of_nat 7) m /\ m + 128 * Z.of_nat k <= 2047 /\ (sg = true -> m + 128 * Z.of_nat k <> 0).
Proof.
  unfold comp_valid. intros Hx. exists (x <? 0), (Z.abs x mod 128), (Z.to_nat (Z.abs x / 128)).
  rewrite Z2Nat.id by (apply Z.div_pos; lia).
  pose proof (Z.div_mod (Z.abs x) 128 ltac:(lia)). pose proof (Z.mod_pos_bound (Z.abs x) 128 ltac:(lia)).
  replace (Z.abs x mod 128 + 128 * (Z.abs x / 128)) with (Z.abs x) by lia.
  split; [destruct (Z.ltb_spec x 0); lia|]. split; [exact H0|]. split; [lia|].
  intros H1%Z.ltb_lt. lia.
Qed.

Lemma read_code_complete x s : comp_valid x -> read_code (code_bits x ++ s) = Some (x, s).
Proof.
  intros (sg & m & k & -> & Hm & Hk & Hs)%comp_valid_split.
  rewrite code_bits_eq by done. cbn [app read_code]. rewrite <- !app_assoc.
  rewrite take_app_length', drop_app_length' by now rewrite bits_of_length.
  rewrite length_app, bits_of_length. destruct (Nat.ltb_spec (7 + length (replicate k false ++ [true] ++ s)) 7); [lia|].
  rewrite Z_of_bits_of, wrap_small by done. unfold in_width in Hm. cbn [app].
  rewrite read_unary_code by lia. destruct sg; cbn [andb]; [|done].
  destruct (Z.eqb_spec (m + 128 * Z.of_nat k) 0); [now specialize (Hs eq_refl) | done].
Qed.

Lemma read_code_sound s c s' : read_code s = Some (c, s') -> comp_valid c /\ s = code_bits c ++ s'.
Proof.
  unfold read_code. destruct s as [|sg t]; [done|]. destruct (Nat.ltb_spec (length t) 7) as [|Hl]; [done|].
  destruct (read_unary _ _) as [[m s'']|] eqn:E; [|done]. apply read_unary_sound in E as (k & -> & Hm & Hd).
  pose proof (Z_of_bits_range (take 7 t)) as Hr. rewrite length_take, Nat.min_l in Hr by lia.
  set (low := Z_of_bits (take 7 t)) in *.
  destruct (sg && (low + 128 * Z.of_nat k =? 0)) eqn:Ez; [done|]. intros H. injection H as <- <-.
  assert (sg = true -> low + 128 * Z.of_nat k <> 0) as Hs by (intros ->; simpl in Ez; lia).
  assert (0 <= low < 128) as Hlow by exact Hr. split; [unfold comp_valid; destruct sg; lia|].
  rewrite code_bits_eq by done. cbn [app]. f_equal. rewrite <- !app_assoc.
  rewrite <- (take_drop 7 t) at 1. rewrite Hd. f_equal.
  rewrite <- (bits_of_Z_of_bits (take 7 t)). unfold low. f_equal. rewrite length_take. lia.
Qed.

Lemma read_codes_complete xs : forall x s,
  Forall comp_valid xs -> read_codes (length xs) x (comp_bits xs ++ s) = Some (x ++ xs, s).
Proof.
  induction xs as [|c xs IH]; intros x s Hv; cbn [length read_codes]; [now rewrite app_nil_r|].
  apply Forall_cons_iff in Hv as [Hc Hv]. change (comp_bits (c :: xs)) with (code_bits c ++ comp_bits xs).
  rewrite <- app_assoc, read_code_complete, IH by done. now rewrite <- app_assoc.
Qed.

Lemma read_codes_sound n : forall x s y s',
  read_codes n x s = Some (y, s') ->
  exists xs, y = x ++ xs /\ length xs = n /\ Forall comp_valid xs /\ s = comp_bits xs ++ s'.
Proof.
  induction n as [|n IH]; intros x s y s' H; cbn [read_codes] in H.
  - injection H as <- <-. exists []. now rewrite app_nil_r.
  - destruct (read_code s) as [[c s1]|] eqn:E; [|done]. apply read_code_sound in E as [Hc ->].
    apply IH in H as (xs & -> & Hn & Hv & ->). exists (c :: xs). rewrite <- app_assoc.
    split; [done|]. split; [simpl; lia|]. split; [now constructor|].
    change (comp_bits (c :: xs)) with (code_bits c ++ comp_bits xs). now rewrite <- app_assoc.
Qed.

(** * The encoder writes the code, zero padded *)

Lemma bits_of_1 n : bits_of (S n) 1 = replicate n false ++ [true].
Proof.
  induction n as [|n IH]; [done|]. cbn [bits_of replicate app] in *. now rewrite <- IH.
Qed.

(** One iteration pushes the code of the coefficient, and never more than 31 bits are pending. *)
Lemma comp_push_spec acc acc_len x acc' pushed :
  comp_valid x -> (acc_len <= 7)%nat -> comp_push acc x = (acc', pushed) ->
  (acc_len + pushed <= 31)%nat /\ bits_of (acc_len + pushed) acc' = bits_of acc_len acc ++ code_bits x.
Proof.
  unfold comp_valid. intros Hx Hl. unfold comp_push.
  assert (forall b : bool, bits_of (acc_len + 1) (u32 (acc .<< 1) .| Z.b2z b) = bits_of acc_len acc ++ [b]) as H1.
  { intros b. rewrite (bits_of_push32 acc_len 1) by (lia || destruct b; done). now destruct b. }
  set (t := Z.abs x). set (k := Z.to_nat (t / 128)).
  assert (t .>> 7 = Z.of_nat k) as Hk by (rewrite Z.shiftr_div_pow2 by lia; change (2 ^ 7) with 128; unfold k;
    rewrite Z2Nat.id by (apply Z.div_pos; lia); done).
  assert (k <= 15)%nat as Hk15.
  { unfold k. pose proof (Z.div_lt_upper_bound t 128 16 ltac:(lia) ltac:(lia)). lia. }
  assert ((if x <? 0 then (u32 (acc .<< 1) .| 1, - x) else (u32 (acc .<< 1), x))
    = (u32 (acc .<< 1) .| Z.b2z (x <? 0), t)) as ->.
  { unfold t. destruct (Z.ltb_spec x 0); cbn [Z.b2z]; rewrite ?Z.lor_0_r; f_equal; lia. }
  rewrite Hk. intros H. injection H as <- <-. rewrite Nat2Z.id. split; [lia|].
  match goal with |- bits_of ?n _ = _ => replace n with (((acc_len + 1) + 7) + S k)%nat by lia end.
  replace (Z.of_nat k + 1) with (Z.of_nat (S k)) by lia.
  assert (1 < 2 ^ Z.of_nat (S k)) by (apply Z.pow_gt_1; lia).
  rewrite (bits_of_push32 ((acc_len + 1) + 7) (S k)) by (unfold in_width; lia).
  change 127 with (Z.ones 7). fold (wrap 7 t).
  rewrite (bits_of_push32 (acc_len + 1) 7) by (lia || apply wrap_range; lia).
  rewrite H1, bits_of_1, bits_of_wrap by lia. unfold code_bits. fold t k. now rewrite <- !app_assoc.
Qed.

(** The flush with a bounded destination, from the unbounded one. *)
Lemma comp_flush_spec fuel dst acc : forall acc_len buf,
  (forall max, dst = Some max -> (length buf <= max)%nat) ->
  comp_flush fuel dst acc acc_len buf =
    let '(out, l) := flush fuel acc acc_len in
    match dst with
    | None => inr (l, buf ++ out)
    | Some max => if (length (buf ++ out) <=? max)%nat then inr (l, buf ++ out) else inl (take max (buf ++ out))
    end.
Proof.
  induction fuel as [|fuel IH]; intros acc_len buf Hm; cbn [comp_flush flush].
  - rewrite app_nil_r. destruct dst as [max|]; [|done]. now destruct (Nat.leb_spec (length buf) max); [|specialize (Hm max eq_refl); lia].
  - destruct (8 <=? acc_len)%nat.
    2: { rewrite app_nil_r. destruct dst as [max|]; [|done]. now destruct (Nat.leb_spec (length buf) max); [|specialize (Hm max eq_refl); lia]. }
    destruct dst as [max|]; cbn [comp_store].
    + destruct (Nat.leb_spec max (length buf)) as [Hf|Hf].
      * destruct (flush fuel acc (acc_len - 8)) as [out l]. rewrite length_app. cbn [length].
        destruct (Nat.leb_spec (length buf + S (length out)) max); [lia|].
        rewrite take_app_length' by (specialize (Hm max eq_refl); lia). done.
      * rewrite IH by (intros ? [= <-]; rewrite length_app; simpl; lia).
        destruct (flush fuel acc (acc_len - 8)) as [out l]. now rewrite <- app_assoc.
    + rewrite IH by done. destruct (flush fuel acc (acc_len - 8)) as [out l]. now rewrite <- app_assoc.
Qed.

(** The loop with a NULL destination: all the code, in bytes and pending bits. *)
Lemma comp_loop_null xs : forall acc acc_len buf,
  Forall comp_valid xs -> (acc_len <= 7)%nat -> Forall (in_width 8) buf ->
  exists acc' l' out, comp_loop None xs acc acc_len buf = inr (acc', l', buf ++ out) /\ (l' <= 7)%nat /\
    Forall (in_width 8) out /\ bits_of acc_len acc ++ comp_bits xs = bytes_bits out ++ bits_of l' acc'.
Proof.
  induction xs as [|x xs IH]; intros acc acc_len buf Hv Hl Hb; cbn [comp_loop].
  - exists acc, acc_len, []. rewrite app_nil_r. cbn. now rewrite app_nil_r.
  - apply Forall_cons_iff in Hv as [Hx Hv]. destruct (comp_push acc x) as [a p] eqn:E.
    apply (comp_push_spec acc acc_len) in E as [_ E]; [|done|done].
    rewrite comp_flush_spec by done. destruct (flush _ a _) as [out l] eqn:F.
    apply flush_spec in F as (Hl' & _ & Ho & F); [|lia].
    destruct (IH a l (buf ++ out) Hv ltac:(lia) ltac:(now apply Forall_app)) as (acc' & l' & out' & -> & Hl'' & Ho' & He).
    exists acc', l', (out ++ out'). rewrite app_assoc. split; [done|]. split; [done|].
    split; [now apply Forall_app|]. change (comp_bits (x :: xs)) with (code_bits x ++ comp_bits xs).
    rewrite bytes_bits_app, <- app_assoc, <- He, app_assoc, <- E, F. now rewrite app_assoc.
Qed.

(** A bounded destination: the same run, cut when the buffer is full. *)
Lemma comp_loop_bounded max xs : forall acc acc_len buf,
  Forall comp_valid xs -> (acc_len <= 7)%nat -> Forall (in_width 8) buf -> (length buf <= max)%nat ->
  comp_loop (Some max) xs acc acc_len buf =
    match comp_loop None xs acc acc_len buf with
    | inr (a, l, b) => if (length b <=? max)%nat then inr (a, l, b) else inl (take max b)
    | inl b => inl b
    end.
Proof.
  induction xs as [|x xs IH]; intros acc acc_len buf Hv Hl Hb Hm; cbn [comp_loop].
  - now destruct (Nat.leb_spec (length buf) max); [|lia].
  - apply Forall_cons_iff in Hv as [Hx Hv]. destruct (comp_push acc x) as [a p] eqn:E.
    rewrite !comp_flush_spec by (done || intros ? [= <-]; done). destruct (flush _ a _) as [out l] eqn:F.
    apply flush_spec in F as (Hl' & _ & Ho & _); [|lia].
    destruct (comp_loop_null xs a l (buf ++ out) Hv ltac:(lia) ltac:(now apply Forall_app))
      as (acc' & l' & out' & Hn & _).
    destruct (Nat.leb_spec (length (buf ++ out)) max) as [Hle|Hgt].
    + apply IH; [done | lia | now apply Forall_app | done].
    + rewrite Hn. rewrite (length_app (buf ++ out)).
      destruct (Nat.leb_spec (length (buf ++ out) + length out') max); [lia|].
      now rewrite (take_app_le (buf ++ out)) by lia.
Qed.

(** The bytes of a list of coefficients. *)
Definition comp_bytes (xs : list Z) : list Z :=
  match comp_loop None xs 0 0 [] with
  | inr (acc, acc_len, buf) =>
      if (0 <? acc_len)%nat then buf ++ [u8 (acc .<< (8 - Z.of_nat acc_len))] else buf
  | inl buf => buf
  end.

Definition comp_len (xs : list Z) : nat := (length (comp_bits xs) + 7) / 8.

Lemma comp_bytes_spec xs :
  Forall comp_valid xs ->
  Forall (in_width 8) (comp_bytes xs) /\ length (comp_bytes xs) = comp_len xs /\
  exists pad, (pad < 8)%nat /\ bytes_bits (comp_bytes xs) = comp_bits xs ++ replicate pad false.
Proof.
  intros Hv. unfold comp_bytes.
  destruct (comp_loop_null xs 0 0 [] Hv ltac:(lia) ltac:(constructor)) as (acc & l & out & -> & Hl & Ho & He).
  cbn [app bits_of] in *.
  assert (exists pad, (pad < 8)%nat /\ Forall (in_width 8) (if (0 <? l)%nat then out ++ [u8 (acc .<< (8 - Z.of_nat l))] else out) /\
    bytes_bits (if (0 <? l)%nat then out ++ [u8 (acc .<< (8 - Z.of_nat l))] else out) = comp_bits xs ++ replicate pad false)
    as (pad & Hp & Hb & Hbb).
  { rewrite He. destruct (Nat.ltb_spec 0 l) as [H0|H0].
    - exists (8 - l)%nat. split; [lia|].
      split; [apply Forall_app; split; [done|]; repeat constructor; apply wrap_range; lia|].
      rewrite bytes_bits_app, <- app_assoc. f_equal. rewrite bytes_bits_cons, bits_of_wrap by lia.
      cbn [bytes_bits]. rewrite app_nil_r.
      rewrite <- (Z.lor_0_r (acc .<< _)). replace (8 - Z.of_nat l) with (Z.of_nat (8 - l)) by lia.
      rewrite <- (bits_of_0 (8 - l)), <- (bits_of_push l) by (unfold in_width; lia). f_equal. lia.
    - exists 0%nat. split; [lia|]. split; [done|]. replace l with 0%nat by lia. cbn. now rewrite !app_nil_r. }
  split; [done|]. split; [|now exists pad]. apply (f_equal length) in Hbb.
  rewrite bytes_bits_length, length_app, length_replicate in Hbb. unfold comp_len.
  apply (Nat.div_unique _ _ _ (7 - pad)); lia.
Qed.

Lemma comp_valid_in_range xs : existsb comp_out_of_range xs = false <-> Forall comp_valid xs.
Proof.
  induction xs as [|x xs IH]; [now split|]. cbn [existsb].
  rewrite orb_false_iff, IH, Forall_cons_iff. unfold comp_out_of_range, comp_valid at 2.
  rewrite orb_false_iff, !Z.ltb_ge. intuition lia.
Qed.

(** What the encoder returns and writes, on every branch. *)
Lemma comp_encode_spec dst x logn :
  length x = (2 ^ logn)%nat ->
  comp_encode dst x logn =
    if existsb comp_out_of_range x then (0%nat, [])
    else match dst with
         | None => (comp_len x, [])
         | Some max => if (comp_len x <=? max)%nat then (comp_len x, comp_bytes x)
                       else (0%nat, take max (comp_bytes x))
         end.
Proof.
  intros Hl. unfold comp_encode. rewrite take_ge by lia.
  destruct (existsb comp_out_of_range x) eqn:Hr; [done|]. apply comp_valid_in_range in Hr.
  destruct (comp_bytes_spec x Hr) as (_ & Hlen & _). rewrite <- Hlen. clear Hlen. unfold comp_bytes.
  destruct dst as [max|].
  - rewrite comp_loop_bounded by (done || (simpl; lia) || constructor).
    destruct (comp_loop_null x 0 0 [] Hr ltac:(lia) ltac:(constructor)) as (acc & l & out & -> & _).
    cbn [app comp_written]. destruct (Nat.leb_spec (length out) max) as [Hle|Hgt].
    + destruct (0 <? l)%nat; [|now destruct (Nat.leb_spec (length out) max); [|lia]].
      unfold comp_store. rewrite !length_app. cbn [length].
      destruct (Nat.leb_spec max (length out)); destruct (Nat.leb_spec (length out + 1) max); try lia; [|by rewrite length_app].
      now rewrite take_app_length' by lia.
    + destruct (0 <? l)%nat; rewrite ?length_app; cbn [length].
      * destruct (Nat.leb_spec (length out + 1) max); [lia|]. now rewrite take_app_le by lia.
      * now destruct (Nat.leb_spec (length out) max); [lia|].
  - destruct (comp_loop_null x 0 0 [] Hr ltac:(lia) ltac:(constructor)) as (acc & l & out & -> & _).
    cbn [app comp_written comp_store]. now destruct (0 <? l)%nat.
Qed.

(** * The decoder refines the reference parser *)

Lemma test_bit_spec acc l : negb ((acc .>> Z.of_nat l) .& 1 =? 0) = Z.testbit acc (Z.of_nat l).
Proof.
  change 1 with (Z.ones 1). rewrite Z.land_ones, Z.shiftr_div_pow2 by lia. change (2 ^ 1) with 2.
  rewrite <- Z.testbit_spec' by lia. now destruct (Z.testbit acc (Z.of_nat l)).
Qed.

Lemma mask_bit_spec b n : negb (b .& 2 ^ Z.of_nat n =? 0) = Z.testbit b (Z.of_nat n).
Proof.
  destruct (Z.testbit b (Z.of_nat n)) eqn:E.
  - apply negb_true_iff, Z.eqb_neq. intros H. apply (f_equal (fun z => Z.testbit z (Z.of_nat n))) in H.
    rewrite Z.land_spec, E, Z.pow2_bits_true, Z.bits_0 in H by lia. done.
  - apply negb_false_iff, Z.eqb_eq, Z.bits_inj'. intros k Hk. rewrite Z.land_spec, Z.pow2_bits_eqb, Z.bits_0 by lia.
    destruct (Z.eqb_spec (Z.of_nat n) k) as [<-|]; [now rewrite E | apply andb_false_r].
Qed.

Lemma cast_neg m : 0 <= m <= 2047 -> i16 (u32 (- m)) = - m.
Proof.
  intros Hm. unfold sext. replace (wrap 16 (u32 (- m))) with (wrap 16 (- m)).
  - change (i16 (- m) = - m). apply sext_small; lia.
  - apply Z.bits_inj'. intros k Hk. rewrite !wrap_testbit by lia.
    destruct (Z.ltb_spec k 16), (Z.ltb_spec k 32); done || lia.
Qed.

Section CompDecoder.
  Context (max N : nat) (Hmax : (max <= N)%nat).

(** What the decoder can still read: the pending bits and the bytes before [max_in_len]; [N] bytes
    are accessible in all. *)
Definition stream (v : nat) (buf : list Z) (acc : Z) (acc_len : nat) : list bool :=
  bits_of acc_len acc ++ bytes_bits (take (max - v) buf).

Definition input_ok (v : nat) (buf : list Z) : Prop :=
  (v + length buf = N)%nat /\ (v <= max)%nat /\ Forall (in_width 8) buf.

Lemma comp_next_spec v buf acc acc_len :
  input_ok v buf -> (acc_len <= 7)%nat ->
  match comp_next max v buf acc with
  | Done (v', buf', acc') => input_ok v' buf' /\ stream v buf acc acc_len = stream v' buf' acc' (acc_len + 8)
  | Fail => stream v buf acc acc_len = bits_of acc_len acc
  | Stuck => False
  end.
Proof.
  intros (HN & Hv & Hb) Hl. unfold comp_next, stream. destruct (Nat.leb_spec max v).
  - replace (max - v)%nat with 0%nat by lia. apply app_nil_r.
  - destruct buf as [|b buf]; [simpl in HN; lia|]. apply Forall_cons_iff in Hb as [Hb Hbuf].
    split; [repeat split; simpl in HN; lia || done|].
    replace (max - v)%nat with (S (max - S v)) by lia. cbn [take]. rewrite bytes_bits_cons.
    apply push_byte; [lia | done].
Qed.

Lemma comp_unary_spec fuel : forall v buf acc acc_len m,
  input_ok v buf -> (acc_len <= 7)%nat -> 0 <= m -> 2047 < m + 128 * Z.of_nat fuel ->
  match comp_unary fuel max v buf acc acc_len m with
  | Done (v', buf', acc', l', m') => input_ok v' buf' /\ (l' <= 7)%nat /\
      read_unary m (stream v buf acc acc_len) = Some (m', stream v' buf' acc' l')
  | Fail => read_unary m (stream v buf acc acc_len) = None
  | Stuck => m > 2047
  end.
Proof.
  induction fuel as [|fuel IH]; intros v buf acc acc_len m Hi Hl H0 Hf; [simpl; lia|].
  assert (forall v buf acc l, input_ok v buf -> (l <= 7)%nat ->
    let r := if negb ((acc .>> Z.of_nat l) .& 1 =? 0) then Done (v, buf, acc, l, m)
             else if 2047 <? m + 128 then Fail else comp_unary fuel max v buf acc l (m + 128) in
    match r with
    | Done (v', buf', acc', l', m') => input_ok v' buf' /\ (l' <= 7)%nat /\
        read_unary m (stream v buf acc (S l)) = Some (m', stream v' buf' acc' l')
    | Fail => read_unary m (stream v buf acc (S l)) = None
    | Stuck => m > 2047
    end) as Hbit.
  { intros v1 buf1 acc1 l1 Hi1 Hl1. cbv zeta. rewrite test_bit_spec.
    unfold stream. cbn [bits_of app read_unary]. destruct (Z.testbit acc1 (Z.of_nat l1)); [done|].
    destruct (Z.ltb_spec 2047 (m + 128)); [done|].
    specialize (IH v1 buf1 acc1 l1 (m + 128) Hi1 Hl1 ltac:(lia) ltac:(lia)).
    destruct (comp_unary fuel max v1 buf1 acc1 l1 (m + 128)) as [[[[[? ?] ?] ?] ?]| |]; [exact IH | exact IH | lia]. }
  cbn [comp_unary]. destruct (Nat.eqb_spec acc_len 0) as [->|Hne].
  - pose proof (comp_next_spec v buf acc 0 Hi ltac:(lia)) as Hn.
    destruct (comp_next max v buf acc) as [[[v' buf'] acc']| |]; [|now rewrite Hn|done].
    destruct Hn as [Hi' ->]. exact (Hbit v' buf' acc' 7%nat Hi' ltac:(lia)).
  - replace (stream v buf acc acc_len) with (stream v buf acc (S (acc_len - 1))) by (f_equal; lia).
    exact (Hbit v buf acc (acc_len - 1)%nat Hi ltac:(lia)).
Qed.

(** One coefficient: the eight bits, then the unary part. *)
Lemma read_code_stream b acc l v buf :
  b = acc .>> Z.of_nat l -> read_code (stream v buf acc (l + 8)) =
    match read_unary (b .& 127) (stream v buf acc l) with
    | None => None
    | Some (m, s') => if negb (b .& 128 =? 0) && (m =? 0) then None
                      else Some (if negb (b .& 128 =? 0) then - m else m, s')
    end.
Proof.
  intros ->. unfold stream. rewrite (Nat.add_comm l 8), bits_of_app, <- app_assoc.
  set (b := acc .>> Z.of_nat l). change (bits_of 8 b) with (Z.testbit b 7 :: bits_of 7 b).
  cbn [app read_code]. rewrite length_app, bits_of_length.
  destruct (Nat.ltb_spec (7 + length (bits_of l acc ++ bytes_bits (take (max - v) buf))) 7); [lia|].
  rewrite take_app_length', drop_app_length' by now rewrite bits_of_length.
  rewrite Z_of_bits_of. change (wrap (Z.of_nat 7) b) with (b .& 127).
  replace (negb (b .& 128 =? 0)) with (Z.testbit b 7); [done|].
  symmetry. exact (mask_bit_spec b 7).
Qed.

Lemma read_unary_bound s : forall m m' s', 0 <= m <= 2047 -> read_unary m s = Some (m', s') -> 0 <= m' <= 2047.
Proof. intros m m' s' Hm H. apply read_unary_sound in H as (k & -> & H & _). lia. Qed.

Lemma comp_decode_loop_spec todo : forall v buf acc acc_len x,
  input_ok v buf -> (acc_len <= 7)%nat ->
  match comp_decode_loop todo max v buf acc acc_len x with
  | Done (v', acc', l', x') => exists buf', input_ok v' buf' /\ (l' <= 7)%nat /\
      read_codes todo x (stream v buf acc acc_len) = Some (x', stream v' buf' acc' l')
  | Fail => read_codes todo x (stream v buf acc acc_len) = None
  | Stuck => False
  end.
Proof.
  induction todo as [|todo IH]; intros v buf acc acc_len x Hi Hl; cbn [comp_decode_loop read_codes].
  { now exists buf. }
  pose proof (comp_next_spec v buf acc acc_len Hi Hl) as Hn.
  destruct (comp_next max v buf acc) as [[[v1 buf1] acc1]| |]; [| |done].
  2: { assert (length (stream v buf acc acc_len) < 8)%nat as Hs by (rewrite Hn, bits_of_length; lia).
       unfold read_code. destruct (stream v buf acc acc_len) as [|sg t]; [done|]. simpl in Hs.
       now destruct (Nat.ltb_spec (length t) 7); [|lia]. }
  destruct Hn as [Hi1 ->]. rewrite (read_code_stream _ acc1 acc_len v1 buf1 eq_refl).
  set (b := acc1 .>> Z.of_nat acc_len). change (b .& 127) with (wrap 7 b).
  pose proof (wrap_range 7 b ltac:(lia)) as Hm. set (m := wrap 7 b) in *. unfold in_width in Hm.
  pose proof (comp_unary_spec 17 v1 buf1 acc1 acc_len m Hi1 Hl ltac:(lia) ltac:(lia)) as Hu.
  destruct (comp_unary _ _ _ _ _ _ _) as [[[[[v2 buf2] acc2] l2] m2]| |]; [|now rewrite Hu | lia].
  destruct Hu as (Hi2 & Hl2 & Hu). rewrite Hu. apply read_unary_bound in Hu; [|lia].
  destruct (negb (b .& 128 =? 0) && (m2 =? 0)); [done|].
  replace (if negb (b .& 128 =? 0) then i16 (u32 (- m2)) else i16 m2)
    with (if negb (b .& 128 =? 0) then - m2 else m2); [now apply IH|].
  destruct (negb _); [now rewrite cast_neg | symmetry; apply sext_small; lia].
Qed.
End CompDecoder.

Lemma comp_decode_spec logn inp max :
  Forall (in_width 8) inp -> (max <= length inp)%nat ->
  comp_decode logn inp max =
    match read_codes (2 ^ logn) [] (bytes_bits (take max inp)) with
    | Some (x, s) => if all_zero (take (length s mod 8) s) then Done ((max - length s / 8)%nat, x) else Fail
    | None => Fail
    end.
Proof.
  intros Hin Hmax. unfold comp_decode.
  pose proof (comp_decode_loop_spec max (length inp) Hmax (2 ^ logn) 0 inp 0 0 []) as H.
  assert (input_ok max (length inp) 0 inp) as Hi by (repeat split; lia || done).
  specialize (H Hi ltac:(lia)). unfold stream at 1 3 in H. rewrite Nat.sub_0_r in H. cbn [bits_of app] in H.
  destruct (comp_decode_loop _ _ _ _ _ _ _) as [[[[v acc] l] x]| |]; [|now rewrite H | done].
  destruct H as (buf & (HN & Hv & _) & Hl & ->). rewrite extra_bits_set_spec by lia. unfold stream.
  rewrite leftover_bits by lia. rewrite length_app, bits_of_length, bytes_bits_length, length_take.
  rewrite <- (Nat.div_unique (l + 8 * _) 8 (max - v) l) by lia.
  destruct (all_zero _); cbn [negb]; [|done]. do 2 f_equal. lia.
Qed.

(** * Properties *)

Lemma comp_bytes_stream x extra max :
  Forall comp_valid x -> (comp_len x <= max)%nat ->
  exists pad rest, (pad < 8)%nat /\
    bytes_bits (take max (comp_bytes x ++ extra)) = comp_bits x ++ replicate pad false ++ bytes_bits rest /\
    length rest = (Nat.min max (comp_len x + length extra) - comp_len x)%nat.
Proof.
  intros Hv Hm. destruct (comp_bytes_spec x Hv) as (_ & Hlen & pad & Hp & He).
  exists pad, (take (max - comp_len x) extra). split; [done|]. split.
  - rewrite take_app_ge, bytes_bits_app, He, Hlen by lia. now rewrite <- app_assoc.
  - rewrite length_take. lia.
Qed.

Lemma comp_decode_encoded (x extra : list Z) (logn max max_in_len : nat) :
  length x = (2 ^ logn)%nat -> Forall (in_width 8) extra ->
  (~ Forall comp_valid x -> comp_encode (Some max) x logn = (0%nat, []) /\ comp_encode None x logn = (0%nat, [])) /\
  (Forall comp_valid x -> exists bytes,
     length bytes = comp_len x /\ Forall (in_width 8) bytes /\ comp_encode None x logn = (comp_len x, []) /\
     ((comp_len x <= max)%nat -> comp_encode (Some max) x logn = (comp_len x, bytes)) /\
     ((max < comp_len x)%nat -> comp_encode (Some max) x logn = (0%nat, take max bytes)) /\
     ((comp_len x <= max_in_len <= comp_len x + length extra)%nat ->
      comp_decode logn (bytes ++ extra) max_in_len = Done (comp_len x, x))).
Proof.
  intros Hl Hex. rewrite !comp_encode_spec by done. destruct (existsb comp_out_of_range x) eqn:Hr.
  - split; [done|]. intros Hv%comp_valid_in_range. congruence.
  - apply comp_valid_in_range in Hr. split; [done|]. intros _. exists (comp_bytes x).
    destruct (comp_bytes_spec x Hr) as (Hb & Hlen & _). split; [done|]. split; [done|]. split; [done|].
    destruct (Nat.leb_spec (comp_len x) max); (split; [lia || done|]; split; [lia || done|]);
      intros Hmi; rewrite comp_decode_spec by (rewrite ?length_app, ?Forall_app; lia || done);
      destruct (comp_bytes_stream x extra max_in_len Hr ltac:(lia)) as (pad & rest & Hp & -> & Hrest);
      rewrite <- Hl, read_codes_complete by done; rewrite <- (bits_of_0 pad), leftover_bits by done;
      rewrite bits_of_0, (proj2 (all_zero_iff _)) by (now rewrite length_replicate);
      rewrite length_app, length_replicate, bytes_bits_length, <- (Nat.div_unique (pad + 8 * length rest) 8 (length rest) pad) by lia;
      cbn [app]; do 2 f_equal; lia.
Qed.

Lemma comp_decode_sound (inp : list Z) (logn max_in_len : nat) :
  Forall (in_width 8) inp -> (max_in_len <= length inp)%nat ->
  comp_decode logn inp max_in_len <> Stuck /\
  forall v x, comp_decode logn inp max_in_len = Done (v, x) ->
    (v <= max_in_len)%nat /\ length x = (2 ^ logn)%nat /\ Forall comp_valid x /\
    v = comp_len x /\ comp_encode (Some v) x logn = (v, take v inp).
Proof.
  intros Hin Hmax. rewrite comp_decode_spec by done.
  destruct (read_codes _ _ _) as [[y s]|] eqn:E; [|split; [done|]; intros ? ? [=]].
  apply read_codes_sound in E as (xs & Hy & Hl & Hv & Hs). cbn [app] in Hy. subst y.
  destruct (all_zero _) eqn:Hz; (split; [done|]); [|done].
  set (pad := (length s mod 8)%nat) in *.
  pose proof (f_equal length Hs) as Hlen. rewrite bytes_bits_length, length_app, length_take, Nat.min_l in Hlen by lia.
  pose proof (Nat.div_mod_eq (length s) 8) as Hdm. fold pad in Hdm.
  assert (pad < 8)%nat as Hpad by (apply Nat.mod_upper_bound; lia).
  assert (max_in_len - length s / 8 = comp_len xs)%nat as Hcl by (unfold comp_len; apply (Nat.div_unique _ _ _ (7 - pad)); lia).
  rewrite Hcl. intros v x H. injection H as <- <-.
  split; [lia|]. split; [done|]. split; [done|]. split; [done|].
  rewrite comp_encode_spec, (proj2 (comp_valid_in_range xs)), Nat.leb_refl by done. f_equal.
  destruct (comp_bytes_spec xs Hv) as (Hb & Hbl & pad' & Hp' & He). apply bytes_bits_inj; [done | now apply Forall_take |].
  apply all_zero_iff in Hz. rewrite length_take, Nat.min_l in Hz by lia.
  rewrite <- (take_drop (comp_len xs) (take max_in_len inp)), bytes_bits_app, take_take, Nat.min_l in Hs by lia.
  rewrite <- (take_drop pad s), Hz, app_assoc in Hs. apply app_inj_2 in Hs as [Hs _].
  - rewrite Hs, He. f_equal. f_equal. apply (f_equal length) in He, Hs.
    rewrite length_app, length_replicate, bytes_bits_length in He, Hs. rewrite length_take in Hs. lia.
  - rewrite bytes_bits_length, !length_drop, length_take. lia.
Qed.

(** C6 (roundtrip).  The signature codec, on every branch.  Encoding: a coefficient outside -2047..2047 makes
    the encoder return 0; otherwise the length query, and the encoding into a buffer that is large enough,
    return the exact length, a buffer that is too small makes it return 0 having filled the buffer and
    nothing beyond it; and decoding the bytes written, whatever follows them, gives the coefficients back
    and the number of bytes read.  Decoding: with [max_in_len] accessible bytes the decoder never reads
    outside them, and whatever it accepts is a vector of coefficients in -2047..2047 whose encoding is,
    byte for byte, the input it reports having read (a set sign bit on a zero, an over-long unary part or a
    nonzero padding bit are all rejected), so encoded signatures are not malleable. *)
Theorem comp_canonical (logn max_in_len : nat) :
  (forall (x extra : list Z) (max : nat), length x = (2 ^ logn)%nat -> Forall (in_width 8) extra ->
   (~ Forall comp_valid x -> comp_encode (Some max) x logn = (0%nat, []) /\ comp_encode None x logn = (0%nat, [])) /\
   (Forall comp_valid x -> exists bytes,
     length bytes = comp_len x /\ Forall (in_width 8) bytes /\ comp_encode None x logn = (comp_len x, []) /\
     ((comp_len x <= max)%nat -> comp_encode (Some max) x logn = (comp_len x, bytes)) /\
     ((max < comp_len x)%nat -> comp_encode (Some max) x logn = (0%nat, take max bytes)) /\
     ((comp_len x <= max_in_len <= comp_len x + length extra)%nat ->
      comp_decode logn (bytes ++ extra) max_in_len = Done (comp_len x, x)))) /\
  (forall inp : list Z, Forall (in_width 8) inp -> (max_in_len <= length inp)%nat ->
   comp_decode logn inp max_in_len <> Stuck /\
   forall v x, comp_decode logn inp max_in_len = Done (v, x) ->
     (v <= max_in_len)%nat /\ length x = (2 ^ logn)%nat /\ Forall comp_valid x /\
     v = comp_len x /\ comp_encode (Some v) x logn = (v, take v inp)).
Proof.
  split; [intros x extra max; apply comp_decode_encoded | intros inp; apply comp_decode_sound].
Qed.

Lemma comp_canonical_witness :
  comp_decode 2 [1; 255; 128; 0; 128; 64; 144; 9] 8 = Done (7%nat, [1; -2047; 0; 130]) /\
  comp_encode (Some 7%nat) [1; -2047; 0; 130] 2 = (7%nat, [1; 255; 128; 0; 128; 64; 144]).
Proof.
  assert (comp_decode 2 [1; 255; 128; 0; 128; 64; 144; 9] 8 = Done (7%nat, [1; -2047; 0; 130])) as H by reflexivity.
  split; [exact H|].
  apply (proj2 (proj2 (comp_canonical 2 8) [1; 255; 128; 0; 128; 64; 144; 9] ltac:(by_decide) ltac:(simpl; lia)) _ _ H).
Defined.

(** * For the callers: decoding a whole buffer *)

(** A buffer is accepted to its last byte exactly when it is the encoding of the vector. *)
Lemma comp_decode_iff inp logn x :
  Forall (in_width 8) inp ->
  comp_decode logn inp (length inp) = Done (length inp, x) <->
  length x = (2 ^ logn)%nat /\ Forall comp_valid x /\
  comp_encode (Some (length inp)) x logn = (length inp, inp) /\ length inp = comp_len x.
Proof.
  intros Hin. split.
  - intros H. apply (proj2 (comp_decode_sound inp logn (length inp) Hin ltac:(lia))) in H as (_ & ? & ? & ? & He).
    rewrite take_ge in He by lia. done.
  - intros (Hl & Hv & He & Hlen).
    destruct (proj2 (comp_decode_encoded x [] logn (length inp) (length inp) Hl ltac:(constructor)) Hv)
      as (bytes & Hb & _ & _ & Hf & _ & Hd).
    rewrite app_nil_r in Hd. specialize (Hd ltac:(simpl; lia)). specialize (Hf ltac:(lia)). rewrite He in Hf.
    injection Hf as _ <-. now rewrite Hlen in *.
Qed.

(** What the encoder returns, as a success test. *)
Lemma comp_encode_cases x logn max :
  length x = (2 ^ logn)%nat ->
  (Forall comp_valid x /\ (comp_len x <= max)%nat /\
   exists bytes, comp_encode (Some max) x logn = (comp_len x, bytes) /\ length bytes = comp_len x /\
     Forall (in_width 8) bytes /\ comp_decode logn bytes (length bytes) = Done (length bytes, x)) \/
  (~ (Forall comp_valid x /\ (comp_len x <= max)%nat) /\ exists bytes, comp_encode (Some max) x logn = (0%nat, bytes)).
Proof.
  intros Hl. pose proof (comp_decode_encoded x [] logn max (comp_len x) Hl ltac:(constructor)) as [Hbad Hgood].
  destruct (decide (Forall comp_valid x)) as [Hv|Hv].
  - destruct (Hgood Hv) as (bytes & Hb & Hby & _ & Hf & Hs & Hd). destruct (Nat.le_gt_cases (comp_len x) max) as [Hm|Hm].
    + left. split; [done|]. split; [done|]. exists bytes. split; [now apply Hf|]. split; [done|]. split; [done|].
      rewrite app_nil_r in Hd. rewrite Hb. apply Hd. simpl. lia.
    + right. split; [intros [_ H]; lia|]. eexists. now apply Hs.
  - right. split; [intros [H _]; done|]. eexists. now apply Hbad.
Qed.
