(* ===== verification/Mq.v ===== *)
(** Mq: arithmetic modulo q = 12289 on 32-bit words, the [mq_*] functions of [vrfy.c].

    The Montgomery product is [x * y / R] with R = 2^16; [mq_div_12289] inverts by the addition chain
    for q - 2, which is Fermat's inverse since q is prime. *)

From Stdlib Require Import ZArith Lia Znumtheory Zpow_facts.
From stdpp Require Import base numbers list.
From S2P Require Import Prelude NumberTheory.

Definition Q : Z := 12289.
Definition Q0I : Z := 12287.
Definition R : Z := 4091.
Definition R2 : Z := 10952.

(** * The operations *)

(** [x] is an [int]. *)
Definition mq_conv_small (x : Z) : Z :=
  let y := u32 x in
  u32 (y + (Q .& u32 (- (y .>> 31)))).

Definition mq_add (x y : Z) : Z :=
  let d := u32 (u32 (x + y) - Q) in
  u32 (d + (Q .& u32 (- (d .>> 31)))).

Definition mq_sub (x y : Z) : Z :=
  let d := u32 (x - y) in
  u32 (d + (Q .& u32 (- (d .>> 31)))).

Definition mq_rshift1 (x : Z) : Z :=
  let x := u32 (x + (Q .& u32 (- (x .& 1)))) in
  x .>> 1.

Definition mq_montymul (x y : Z) : Z :=
  let z := u32 (x * y) in
  let w := u32 ((u32 (z * Q0I) .& 0xFFFF) * Q) in
  let z := u32 (z + w) .>> 16 in
  let z := u32 (z - Q) in
  u32 (z + (Q .& u32 (- (z .>> 31)))).

Definition mq_montysqr (x : Z) : Z := mq_montymul x x.

Definition mq_div_12289 (x y : Z) : Z :=
  let y0 := mq_montymul y R2 in
  let y1 := mq_montysqr y0 in
  let y2 := mq_montymul y1 y0 in
  let y3 := mq_montymul y2 y1 in
  let y4 := mq_montysqr y3 in
  let y5 := mq_montysqr y4 in
  let y6 := mq_montysqr y5 in
  let y7 := mq_montysqr y6 in
  let y8 := mq_montysqr y7 in
  let y9 := mq_montymul y8 y2 in
  let y10 := mq_montymul y9 y8 in
  let y11 := mq_montysqr y10 in
  let y12 := mq_montysqr y11 in
  let y13 := mq_montymul y12 y9 in
  let y14 := mq_montysqr y13 in
  let y15 := mq_montysqr y14 in
  let y16 := mq_montymul y15 y10 in
  let y17 := mq_montysqr y16 in
  let y18 := mq_montymul y17 y0 in
  mq_montymul y18 x.

(** * Ranges and residues *)

Definition in_q (x : Z) : Prop := 0 <= x < Q.

(** The inverse of R = 2^16 modulo q. *)
Definition RI : Z := 2304.

Lemma R_RI : 65536 * RI ≡[Q] 1.
Proof. apply cong_mod_iff; reflexivity. Qed.

Lemma Q_prime : Z.prime Q.
Proof. apply (proth_check Q 12 3 11); [lia | reflexivity | reflexivity | split; reflexivity |]. vm_compute. reflexivity. Qed.

Lemma RI_cancel a b : 65536 * a ≡[Q] b -> a ≡[Q] b * RI.
Proof.
  intros H. rewrite <- H. replace (65536 * a * RI) with (a * (65536 * RI)) by ring.
  rewrite R_RI. now rewrite Z.mul_1_r.
Qed.

(** [d += Q & -(d >> 31)]: add q to a negative difference. *)
Lemma cond_add e : - Q <= e < 2 ^ 31 ->
  u32 (u32 e + (Q .& u32 (- (u32 e .>> 31)))) = if e <? 0 then e + Q else e.
Proof.
  unfold Q. intros He. rewrite Z.shiftr_div_pow2 by lia.
  destruct (Z.ltb_spec e 0).
  - assert (u32 e = e + 2 ^ 32) as -> by (rewrite wrap_mod by lia; symmetry; apply (Z.mod_unique _ _ (-1)); lia).
    replace ((e + 2 ^ 32) / 2 ^ 31) with 1 by (apply (Z.div_unique _ _ _ (e + 2 ^ 31)); lia).
    change (12289 .& u32 (-(1))) with 12289. rewrite wrap_mod by lia.
    symmetry. apply (Z.mod_unique _ _ 1); lia.
  - rewrite (wrap_small 32 e) by (unfold in_width; lia).
    rewrite Z.div_small by lia. change (12289 .& u32 (- 0)) with 0.
    rewrite wrap_small by (unfold in_width; lia). lia.
Qed.

Lemma mq_conv_small_spec x : - Q < x < Q -> in_q (mq_conv_small x) /\ mq_conv_small x ≡[Q] x.
Proof.
  intros Hx. unfold mq_conv_small. rewrite cond_add by (unfold Q in *; lia). unfold in_q.
  destruct (Z.ltb_spec x 0); split; try lia; [apply (cong_intro _ _ _ 1); lia | reflexivity].
Qed.

Lemma mq_add_spec x y : in_q x -> in_q y -> in_q (mq_add x y) /\ mq_add x y ≡[Q] x + y.
Proof.
  unfold in_q. intros Hx Hy. unfold mq_add.
  rewrite (wrap_small 32 (x + y)) by (unfold in_width, Q in *; lia).
  rewrite cond_add by (unfold Q in *; lia).
  destruct (Z.ltb_spec (x + y - Q) 0); split; try lia.
  - apply (cong_intro _ _ _ 0). lia.
  - apply (cong_intro _ _ _ (-1)). lia.
Qed.

Lemma mq_sub_spec x y : in_q x -> in_q y -> in_q (mq_sub x y) /\ mq_sub x y ≡[Q] x - y.
Proof.
  unfold in_q. intros Hx Hy. unfold mq_sub. rewrite cond_add by (unfold Q in *; lia).
  destruct (Z.ltb_spec (x - y) 0); split; try lia; [apply (cong_intro _ _ _ 1); lia | reflexivity].
Qed.

Lemma mq_rshift1_spec x : in_q x -> in_q (mq_rshift1 x) /\ 2 * mq_rshift1 x ≡[Q] x.
Proof.
  unfold in_q. intros Hx. unfold mq_rshift1.
  change (x .& 1) with (wrap 1 x). rewrite (wrap_mod 1), Z.shiftr_div_pow2 by lia. change (2 ^ 1) with 2.
  pose proof (Z.div_mod x 2 ltac:(lia)) as Hd. pose proof (Z.mod_pos_bound x 2 ltac:(lia)) as Hm.
  assert (x mod 2 = 0 \/ x mod 2 = 1) as [H0|H1] by lia.
  - rewrite H0 in *. change (Q .& u32 (- 0)) with 0. rewrite wrap_small by (unfold in_width, Q in *; lia).
    rewrite Z.add_0_r. split; [lia|]. apply (cong_intro _ _ _ 0). lia.
  - rewrite H1 in *. change (Q .& u32 (-(1))) with Q. rewrite wrap_small by (unfold in_width, Q in *; lia).
    replace ((x + Q) / 2) with (x / 2 + 6145) by (apply (Z.div_unique _ _ _ 0); unfold Q in *; lia).
    split; [unfold Q in *; lia|]. apply (cong_intro _ _ _ 1). unfold Q in *. lia.
Qed.

(** Montgomery reduction: the sum is a multiple of 2^16. *)
Lemma mq_montymul_spec x y : in_q x -> in_q y -> in_q (mq_montymul x y) /\ mq_montymul x y ≡[Q] x * y * RI.
Proof.
  unfold in_q. intros Hx Hy. unfold mq_montymul.
  assert (0 <= x * y < Q * Q) as Hz by (unfold Q in *; nia).
  rewrite (wrap_small 32 (x * y)) by (unfold in_width, Q in *; lia). set (z := x * y) in *.
  change 0xFFFF with (Z.ones 16). rewrite Z.land_ones by lia.
  set (k := u32 (z * Q0I) mod 2 ^ 16).
  assert (0 <= k < 2 ^ 16) as Hk by (apply Z.mod_pos_bound; lia).
  rewrite (wrap_small 32 (k * Q)) by (unfold in_width, Q in *; lia).
  rewrite (wrap_small 32 (z + k * Q)) by (unfold in_width, Q in *; lia).
  assert ((z + k * Q) mod 2 ^ 16 = 0) as H0.
  { unfold k. rewrite wrap_mod by lia. rewrite (Z.mod_eq (z * Q0I)), (Z.mod_eq (z * Q0I - _)) by lia.
    set (a := z * Q0I / 2 ^ 32). set (b := (z * Q0I - 2 ^ 32 * a) / 2 ^ 16).
    apply Z.mod_divide; [lia|]. exists (2304 * z - (2 ^ 16 * a + b) * Q). unfold Q, Q0I. ring. }
  rewrite Z.shiftr_div_pow2 by lia.
  pose proof (Z.div_mod (z + k * Q) (2 ^ 16) ltac:(lia)) as Hd. rewrite H0, Z.add_0_r in Hd.
  set (d := (z + k * Q) / 2 ^ 16) in *. clear H0. clearbody d k z.
  assert (0 <= d < 2 * Q) as Hdr by (unfold Q in *; lia).
  assert (d ≡[Q] z * RI) as Hc.
  { apply RI_cancel. change 65536 with (2 ^ 16). rewrite <- Hd. apply (cong_intro _ _ _ k). ring. }
  rewrite cond_add by (unfold Q in *; lia).
  destruct (Z.ltb_spec (d - Q) 0); (split; [lia|]); rewrite <- Hc.
  - apply (cong_intro _ _ _ 0). lia.
  - apply (cong_intro _ _ _ (-1)). lia.
Qed.

Lemma mq_montysqr_spec x : in_q x -> in_q (mq_montysqr x) /\ mq_montysqr x ≡[Q] x * x * RI.
Proof. intros H. exact (mq_montymul_spec x x H H). Qed.

(** * Division *)

(** [v] is [y ^ n] in Montgomery representation. *)
Definition monty_pow (y n v : Z) : Prop := 0 <= n /\ in_q v /\ v ≡[Q] y ^ n * 65536.

Lemma monty_pow_mul y n m v w :
  monty_pow y n v -> monty_pow y m w -> monty_pow y (n + m) (mq_montymul v w).
Proof.
  intros (Hn & Hv & Hvc) (Hm & Hw & Hwc). split; [lia|].
  destruct (mq_montymul_spec v w Hv Hw) as [Hr Hc]. split; [done|].
  rewrite Hc, Hvc, Hwc, Z.pow_add_r by done.
  replace (y ^ n * 65536 * (y ^ m * 65536) * RI) with (y ^ n * y ^ m * 65536 * (65536 * RI)) by ring.
  rewrite R_RI, Z.mul_1_r. reflexivity.
Qed.

Lemma monty_pow_sqr y n v : monty_pow y n v -> monty_pow y (n + n) (mq_montysqr v).
Proof. intros H. exact (monty_pow_mul y n n v v H H). Qed.

Lemma monty_pow_1 y : in_q y -> monty_pow y 1 (mq_montymul y R2).
Proof.
  intros Hy. split; [lia|]. destruct (mq_montymul_spec y R2 Hy ltac:(unfold in_q; by_decide)) as [Hr Hc].
  split; [done|]. rewrite Hc, Z.pow_1_r, <- Z.mul_assoc. apply cong_mul; [reflexivity | by apply cong_mod_iff].
Qed.

(** The addition chain for q - 2. *)
Lemma mq_div_12289_pow x y :
  in_q x -> in_q y -> in_q (mq_div_12289 x y) /\ mq_div_12289 x y ≡[Q] y ^ (Q - 2) * x.
Proof.
  intros Hx Hy. pose proof (monty_pow_1 y Hy) as H0.
  pose proof (monty_pow_sqr _ _ _ H0) as H1. pose proof (monty_pow_mul _ _ _ _ _ H1 H0) as H2.
  pose proof (monty_pow_mul _ _ _ _ _ H2 H1) as H3.
  pose proof (monty_pow_sqr _ _ _ (monty_pow_sqr _ _ _ (monty_pow_sqr _ _ _ H3))) as H6.
  pose proof (monty_pow_sqr _ _ _ (monty_pow_sqr _ _ _ H6)) as H8.
  pose proof (monty_pow_mul _ _ _ _ _ H8 H2) as H9. pose proof (monty_pow_mul _ _ _ _ _ H9 H8) as H10.
  pose proof (monty_pow_sqr _ _ _ (monty_pow_sqr _ _ _ H10)) as H12.
  pose proof (monty_pow_mul _ _ _ _ _ H12 H9) as H13.
  pose proof (monty_pow_sqr _ _ _ (monty_pow_sqr _ _ _ H13)) as H15.
  pose proof (monty_pow_mul _ _ _ _ _ H15 H10) as H16.
  pose proof (monty_pow_mul _ _ _ _ _ (monty_pow_sqr _ _ _ H16) H0) as (_ & Hr & Hc).
  destruct (mq_montymul_spec _ x Hr Hx) as [Hd Hdc]. split; [exact Hd|].
  unfold mq_div_12289. cbv zeta. rewrite Hdc, Hc.
  match goal with |- y ^ ?e * _ * _ * _ ≡[_] _ => change e with (Q - 2) end.
  replace (y ^ (Q - 2) * 65536 * x * RI) with (y ^ (Q - 2) * x * (65536 * RI)) by ring.
  rewrite R_RI, Z.mul_1_r. reflexivity.
Qed.

#[global] Opaque mq_conv_small mq_add mq_sub mq_rshift1 mq_montymul mq_montysqr mq_div_12289.

(** Division is division in the field. *)
Lemma mq_div_12289_spec x y :
  in_q x -> in_q y -> y <> 0 -> in_q (mq_div_12289 x y) /\ mq_div_12289 x y * y ≡[Q] x.
Proof.
  intros Hx Hy Hy0. destruct (mq_div_12289_pow x y Hx Hy) as [Hr Hc]. split; [done|].
  rewrite Hc. replace (y ^ (Q - 2) * x * y) with (y * y ^ (Q - 2) * x) by ring.
  rewrite fermat_inverse; [now rewrite Z.mul_1_l | apply Q_prime |]. rewrite Z.mod_small; done.
Qed.

(** A field: no zero divisors, cancellation. *)
Lemma q_no_zero_div a b : a * b ≡[Q] 0 -> a ≡[Q] 0 \/ b ≡[Q] 0.
Proof.
  unfold cong. rewrite !Z.sub_0_r. intros H. apply (Z.divide_prime_mul _ _ _ Q_prime), H.
Qed.

Lemma q_cancel a b c : ~ c ≡[Q] 0 -> a * c ≡[Q] b * c -> a ≡[Q] b.
Proof.
  intros Hc H. destruct (q_no_zero_div (a - b) c) as [H0|H0]; [|unfold cong in *; now rewrite Z.sub_0_r in H0 |done].
  replace ((a - b) * c) with (a * c - b * c) by ring. rewrite H. apply (cong_intro _ _ _ 0). lia.
Qed.

Lemma in_q_zero x : in_q x -> x ≡[Q] 0 -> x = 0.
Proof. intros Hx. apply cong_eq; [done | unfold Q; lia]. Qed.

Lemma in_q_eq x y : in_q x -> in_q y -> x ≡[Q] y -> x = y.
Proof. intros Hx Hy. now apply cong_eq. Qed.

Lemma in_q_u16 x : in_q x -> u16 x = x.
Proof. unfold in_q, Q. intros H. apply wrap_small. unfold in_width. lia. Qed.

(** * The property of the layer *)

(** On operands in [0, q): addition, subtraction and halving return the reduced
    result, the Montgomery product returns the reduced x * y / 2^16 modulo q, and the division returns
    the quotient in the field (for every nonzero divisor, and 0 when dividing by 0), none of the 32-bit
    intermediate values wrapping in a way that loses the residue. *)
Theorem mq_ops_correct (x y : Z) :
  in_q x -> in_q y ->
  mq_add x y = (x + y) mod Q /\ mq_sub x y = (x - y) mod Q /\ (2 * mq_rshift1 x) mod Q = x /\
  in_q (mq_montymul x y) /\ (mq_montymul x y * 2 ^ 16) mod Q = (x * y) mod Q /\
  in_q (mq_div_12289 x y) /\
  (mq_div_12289 x y * y) mod Q = (if y =? 0 then 0 else x) /\ (y = 0 -> mq_div_12289 x y = 0).
Proof.
  intros Hx Hy. assert (0 < Q) as Hq by (unfold Q; lia).
  destruct (mq_add_spec x y Hx Hy) as [Ha Hac], (mq_sub_spec x y Hx Hy) as [Hs Hsc].
  destruct (mq_rshift1_spec x Hx) as [Hr Hrc], (mq_montymul_spec x y Hx Hy) as [Hm Hmc].
  destruct (mq_div_12289_pow x y Hx Hy) as [Hd Hdc].
  split; [now apply cong_canonical|]. split; [now apply cong_canonical|].
  split; [symmetry; apply cong_canonical; [exact Hx | now symmetry]|]. split; [exact Hm|]. split.
  { apply cong_mod_iff; [done|]. rewrite Hmc. change (2 ^ 16) with 65536.
    replace (x * y * RI * 65536) with (x * y * (65536 * RI)) by ring. rewrite R_RI, Z.mul_1_r. reflexivity. }
  split; [exact Hd|]. split.
  - destruct (Z.eqb_spec y 0) as [->|Hy0]; [now rewrite Z.mul_0_r|].
    symmetry. apply cong_canonical; [exact Hx|]. symmetry. now apply mq_div_12289_spec.
  - intros ->. apply in_q_zero; [done|]. rewrite Hdc. rewrite Z.pow_0_l, Z.mul_0_l by (unfold Q; lia). reflexivity.
Qed.

Lemma mq_ops_correct_witness :
  in_q 7 /\ in_q 12000 /\ mq_add 7 12000 = 12007 /\ (mq_div_12289 7 12000 * 12000) mod Q = 7.
Proof.
  assert (in_q 7) as H1 by (unfold in_q, Q; lia). assert (in_q 12000) as H2 by (unfold in_q, Q; lia).
  destruct (mq_ops_correct 7 12000 H1 H2) as (Ha & _ & _ & _ & _ & _ & Hd & _).
  split; [exact H1|]. split; [exact H2|]. split; [exact Ha | exact Hd].
Defined.
