(* ===== verification/Polynomial.v ===== *)
(** Polynomial: coefficient lists modulo an integer and the ring Z[X]/(X^n + 1).

    The reference for both number-theoretic transforms of the program: a polynomial is its list of
    coefficients, [peval] evaluates it (Horner), [ring_mul] multiplies modulo X^n + 1.  Modulo a prime, a
    polynomial of degree below n is determined by its values at n distinct points ([interpolation]). *)

From Stdlib Require Import ZArith Lia Zmod.
From stdpp Require Import base numbers list.
From S2P Require Import Prelude.

(** * Evaluation *)

Definition peval (p : list Z) (x : Z) : Z := foldr (fun c v => c + x * v) 0 p.

Lemma peval_cons c p x : peval (c :: p) x = c + x * peval p x.
Proof. done. Qed.

Lemma peval_app p p' x : peval (p ++ p') x = peval p x + x ^ Z.of_nat (length p) * peval p' x.
Proof.
  induction p as [|c p IH]; [simpl; rewrite Z.mul_1_l; done|].
  change ((c :: p) ++ p') with (c :: p ++ p'). rewrite !peval_cons, IH. cbn [length].
  rewrite Nat2Z.inj_succ, Z.pow_succ_r by lia. ring.
Qed.

Lemma peval_zeros n x : peval (replicate n 0) x = 0.
Proof. induction n as [|n IH]; [done|]. simpl. fold (peval (replicate n 0) x). rewrite IH. ring. Qed.

(** * Pointwise congruence of coefficient lists *)

Definition pcong (q : Z) (p p' : list Z) : Prop := Forall2 (cong q) p p'.

Lemma peval_pcong q p p' x x' : pcong q p p' -> x ≡[q] x' -> peval p x ≡[q] peval p' x'.
Proof.
  intros Hp Hx. induction Hp as [|c c' p p' Hc _ IH]; [reflexivity|].
  simpl. fold (peval p x) (peval p' x'). rewrite Hc, IH, Hx. reflexivity.
Qed.

#[global] Instance peval_proper q : Proper (pcong q ==> cong q ==> cong q) peval.
Proof. intros p p' Hp x x' Hx. now apply peval_pcong. Qed.

#[global] Instance pcong_equiv q : Equivalence (pcong q).
Proof.
  unfold pcong. split.
  - intros p. apply Forall_Forall2_diag, Forall_true. reflexivity.
  - intros p p' H. apply Forall2_flip. eapply Forall2_impl; [exact H|]. intros a b Hab. exact (symmetry Hab).
  - intros p p' p'' H H'. revert p'' H'. induction H as [|a b p p' Hab _ IH]; intros p'' H'; [done|].
    inversion H' as [|? c ? q' Hbc Hr]; subst. constructor; [now transitivity b | now apply IH].
Qed.

(** Canonical coefficient lists: what the arrays hold. *)
Definition pok (q : Z) (n : nat) (p : list Z) : Prop := length p = n /\ Forall (fun c => 0 <= c < q) p.

Lemma pok_lookup q n p k : pok q n p -> (k < n)%nat -> 0 <= p !!! k < q.
Proof. intros [<- H] Hk. rewrite Forall_lookup_total in H. now apply H. Qed.

Lemma pok_intro q n p : length p = n -> (forall k, (k < n)%nat -> 0 <= p !!! k < q) -> pok q n p.
Proof. intros <- H. split; [done|]. now apply (Forall_lookup_total (fun c => 0 <= c < q)). Qed.

Lemma pcong_lookup q p p' :
  length p = length p' -> (forall k, (k < length p)%nat -> p !!! k ≡[q] p' !!! k) -> pcong q p p'.
Proof.
  intros Hl H. apply Forall2_same_length_lookup. split; [done|]. intros k a b Ha Hb.
  pose proof (lookup_lt_Some _ _ _ Ha). apply list_lookup_total_correct in Ha, Hb. subst. now apply H.
Qed.

Lemma pcong_at q p p' k : pcong q p p' -> (k < length p)%nat -> p !!! k ≡[q] p' !!! k.
Proof.
  intros H Hk. pose proof (Forall2_length _ _ _ H) as Hl.
  apply (Forall2_lookup_lr _ _ _ k _ _ H); apply list_lookup_lookup_total_lt; lia.
Qed.

Lemma pok_eq q n p p' : pok q n p -> pok q n p' -> pcong q p p' -> p = p'.
Proof.
  intros Hp Hp' H. pose proof (proj1 Hp) as Hl. pose proof (proj1 Hp') as Hl'. apply list_eq_total; [lia|]. intros k Hk.
  apply (cong_eq q); [apply (pok_lookup q n); lia || done | apply (pok_lookup q n); lia || done | now apply pcong_at].
Qed.

(** * A polynomial with as many roots as coefficients is zero *)

Lemma no_zero_div q a b : Z.prime q -> a * b ≡[q] 0 -> a ≡[q] 0 \/ b ≡[q] 0.
Proof. unfold cong. rewrite !Z.sub_0_r. intros Hq H. apply (Z.divide_prime_mul _ _ _ Hq), H. Qed.

(** Synthetic division by X - r. *)
Fixpoint divide (p : list Z) (r : Z) : list Z :=
  match p with
  | [] => []
  | c :: p => match p with [] => [] | _ => peval p r :: divide p r end
  end.

Lemma divide_length p r : length (divide p r) = (length p - 1)%nat.
Proof. induction p as [|c [|d p] IH]; [done | done |]. cbn [divide length] in *. rewrite IH. lia. Qed.

Lemma divide_spec p r x : peval p x = peval p r + (x - r) * peval (divide p r) x.
Proof.
  induction p as [|c p IH]; [simpl; ring|]. destruct p as [|d p]; [simpl; ring|].
  change (divide (c :: d :: p) r) with (peval (d :: p) r :: divide (d :: p) r).
  set (p' := d :: p) in *. rewrite !peval_cons, IH. ring.
Qed.

Lemma divide_zero q p r :
  peval p r ≡[q] 0 -> Forall (fun c => c ≡[q] 0) (divide p r) -> Forall (fun c => c ≡[q] 0) p.
Proof.
  induction p as [|c p IH]; intros H0 Hd; [constructor|].
  destruct p as [|d p].
  - constructor; [|constructor]. cbn [peval foldr] in H0. rewrite Z.mul_0_r, Z.add_0_r in H0. exact H0.
  - change (divide (c :: d :: p) r) with (peval (d :: p) r :: divide (d :: p) r) in Hd.
    apply Forall_cons_iff in Hd as [Hh Hd]. constructor; [|now apply IH].
    change (peval (c :: d :: p) r) with (c + r * peval (d :: p) r) in H0.
    rewrite Hh, Z.mul_0_r, Z.add_0_r in H0. exact H0.
Qed.

(** Distinct points. *)
Definition pdistinct (q : Z) (xs : list Z) : Prop :=
  forall i j, (i < length xs)%nat -> (j < length xs)%nat -> xs !!! i ≡[q] xs !!! j -> i = j.

Lemma pdistinct_tail q x xs : pdistinct q (x :: xs) -> pdistinct q xs.
Proof.
  intros H i j Hi Hj He. specialize (H (S i) (S j)). cbn in H. specialize (H ltac:(lia) ltac:(lia) He). lia.
Qed.

Lemma roots_zero q xs : Z.prime q -> forall p,
  pdistinct q xs -> (length p <= length xs)%nat -> Forall (fun x => peval p x ≡[q] 0) xs ->
  Forall (fun c => c ≡[q] 0) p.
Proof.
  intros Hq. induction xs as [|r xs IH]; intros p Hd Hl Hr.
  { destruct p; [constructor | simpl in Hl; lia]. }
  apply Forall_cons_iff in Hr as [Hr0 Hr]. apply (divide_zero q p r Hr0).
  apply IH; [now apply pdistinct_tail in Hd | rewrite divide_length; simpl in Hl; lia |].
  rewrite Forall_lookup_total in *. intros k Hk. specialize (Hr k Hk).
  rewrite (divide_spec p r), Hr0, Z.add_0_l in Hr. apply (no_zero_div q) in Hr as [Hr|Hr]; [|done | exact Hq].
  exfalso. specialize (Hd (S k) 0%nat). cbn in Hd. specialize (Hd ltac:(lia) ltac:(lia)).
  enough (S k = 0)%nat by lia. apply Hd. unfold cong in Hr |- *. now rewrite Z.sub_0_r in Hr.
Qed.

Definition psub (p p' : list Z) : list Z := zip_with Z.sub p p'.

Lemma peval_psub p : forall p' x, length p = length p' -> peval (psub p p') x = peval p x - peval p' x.
Proof.
  induction p as [|c p IH]; intros [|c' p'] x Hl; try done. change (psub (c :: p) (c' :: p')) with (c - c' :: psub p p').
  rewrite !peval_cons, IH by (simpl in Hl; lia). ring.
Qed.

(** Interpolation is unique. *)
Lemma interpolation q xs p p' :
  Z.prime q -> pdistinct q xs -> length p = length xs -> length p' = length xs ->
  (forall k, (k < length xs)%nat -> peval p (xs !!! k) ≡[q] peval p' (xs !!! k)) -> pcong q p p'.
Proof.
  intros Hq Hd Hl Hl' He.
  assert (Forall (fun c => c ≡[q] 0) (psub p p')) as Hz.
  { apply (roots_zero q xs); [done | done | unfold psub; rewrite length_zip_with; lia|].
    rewrite Forall_lookup_total. intros k Hk. rewrite peval_psub, He by (done || lia).
    apply (cong_intro _ _ _ 0). ring. }
  assert (length p = length p') as Hll by lia. clear -Hz Hll. revert p' Hz Hll.
  induction p as [|c p IH]; intros [|c' p'] Hz Hl; try done.
  unfold psub in Hz. cbn [zip_with] in Hz. apply Forall_cons_iff in Hz as [Hc Hz].
  constructor; [unfold cong in *; now rewrite Z.sub_0_r in Hc | apply IH; [exact Hz | simpl in Hl; lia]].
Qed.

(** * The ring Z[X]/(X^n + 1) *)

(** Multiplication by X: the top coefficient comes back negated. *)
Definition shift (p : list Z) : list Z :=
  match p with
  | [] => []
  | _ => - (p !!! (length p - 1)%nat) :: take (length p - 1) p
  end.

Definition padd (p p' : list Z) : list Z := zip_with Z.add p p'.

(** Horner's rule in the ring: [(c + X a) b = c b + X (a b)]. *)
Fixpoint ring_mul (n : nat) (a b : list Z) : list Z :=
  match a with
  | [] => replicate n 0
  | c :: a => padd (Z.mul c <$> b) (shift (ring_mul n a b))
  end.

Lemma length_shift p : length (shift p) = length p.
Proof. destruct p as [|c p]; [done|]. cbn [shift length]. rewrite length_take. simpl. lia. Qed.

Lemma length_ring_mul n a b : length b = n -> length (ring_mul n a b) = n.
Proof.
  intros Hb. induction a as [|c a IH]; cbn [ring_mul]; [apply length_replicate|].
  unfold padd. rewrite length_zip_with, length_fmap, length_shift, IH. lia.
Qed.

Lemma peval_scale c p x : peval (Z.mul c <$> p) x = c * peval p x.
Proof. induction p as [|d p IH]; [simpl; ring|]. change (Z.mul c <$> d :: p) with (c * d :: (Z.mul c <$> p)). rewrite !peval_cons, IH. ring. Qed.

Lemma peval_padd p : forall p' x, length p = length p' -> peval (padd p p') x = peval p x + peval p' x.
Proof.
  induction p as [|c p IH]; intros [|c' p'] x Hl; try done. change (padd (c :: p) (c' :: p')) with (c + c' :: padd p p').
  rewrite !peval_cons, IH by (simpl in Hl; lia). ring.
Qed.

Lemma peval_shift p x :
  p <> [] -> peval (shift p) x = x * peval p x - (p !!! (length p - 1)%nat) * (x ^ Z.of_nat (length p) + 1).
Proof.
  intros Hp. set (n := (length p - 1)%nat). assert (length p = S n) as Hl by (destruct p; [done | simpl in *; lia]).
  assert (p = take n p ++ [p !!! n]) as Hs.
  { rewrite <- (take_drop n p) at 1. f_equal. apply list_eq_total; [rewrite length_drop; simpl; lia|].
    intros k Hk. rewrite length_drop in Hk. assert (k = 0%nat) as -> by lia.
    rewrite lookup_total_drop, Nat.add_0_r. done. }
  assert (shift p = - (p !!! n) :: take n p) as -> by (destruct p; [done|]; unfold n; done).
  rewrite peval_cons. rewrite Hs at 3. rewrite peval_app, peval_cons, length_take, Hl, Nat.min_l by lia. change (peval [] x) with 0.
  rewrite Nat2Z.inj_succ, Z.pow_succ_r by lia. ring.
Qed.

(** Evaluation at a root of X^n + 1 is a ring morphism. *)
Lemma peval_ring_mul q n a b x :
  (0 < n)%nat -> length b = n -> x ^ Z.of_nat n ≡[q] -1 -> peval (ring_mul n a b) x ≡[q] peval a x * peval b x.
Proof.
  intros Hn Hb Hx. induction a as [|c a IH]; cbn [ring_mul].
  - rewrite peval_zeros. apply (cong_intro _ _ _ 0). simpl. ring.
  - pose proof (length_ring_mul n a b Hb) as Hl.
    assert (ring_mul n a b <> []) as Hne by (intros H; rewrite H in Hl; simpl in Hl; lia).
    rewrite peval_padd, peval_scale, peval_shift, Hl by (rewrite ?length_fmap, ?length_shift; done || lia).
    rewrite Hx, IH, peval_cons. apply (cong_intro _ _ _ 0). ring.
Qed.

(** Coefficients of a product: each is a sum of [length a] products. *)
Definition pbound (B : Z) (p : list Z) : Prop := Forall (fun c => Z.abs c <= B) p.

Lemma pbound_shift B p : pbound B p -> pbound B (shift p).
Proof.
  unfold pbound. intros H. destruct p as [|c p]; [done|]. cbn [shift]. constructor; [|now apply Forall_take].
  rewrite Z.abs_opp. rewrite Forall_lookup_total in H. apply H. cbn [length]. lia.
Qed.

Lemma pbound_padd A B p : forall p', pbound A p -> pbound B p' -> pbound (A + B) (padd p p').
Proof.
  unfold pbound, padd. induction p as [|c p IH]; intros [|c' p'] H H'; try constructor.
  - apply Forall_cons_iff in H as [H _], H' as [H' _]. lia.
  - apply Forall_cons_iff in H as [_ H], H' as [_ H']. now apply IH.
Qed.

Lemma pbound_ring_mul A B n a b : 0 <= A -> 0 <= B -> pbound A a -> pbound B b -> pbound (Z.of_nat (length a) * (A * B)) (ring_mul n a b).
Proof.
  intros HA HB Ha Hb. induction Ha as [|c a Hc Ha IH]; cbn [ring_mul].
  - apply Forall_replicate. cbn. lia.
  - cbn [length]. rewrite Nat2Z.inj_succ, Z.mul_succ_l, Z.add_comm. apply pbound_padd; [|now apply pbound_shift].
    apply Forall_fmap. eapply Forall_impl; [exact Hb|]. cbn. intros x Hx. rewrite Z.abs_mul. nia.
Qed.

Lemma pbound_psub A B p : forall p', pbound A p -> pbound B p' -> pbound (A + B) (psub p p').
Proof.
  unfold pbound, psub. induction p as [|c p IH]; intros [|c' p'] H H'; try constructor.
  - apply Forall_cons_iff in H as [H _], H' as [H' _]. lia.
  - apply Forall_cons_iff in H as [_ H], H' as [_ H']. now apply IH.
Qed.

(** Small coefficients are determined by their residues. *)
Lemma pcong_small q A B p p' : A + B < q -> pbound A p -> pbound B p' -> pcong q p p' -> p = p'.
Proof.
  intros HAB Hp Hp' H. revert Hp Hp'. induction H as [|c c' p p' Hc _ IH]; intros Hp Hp'; [done|].
  apply Forall_cons_iff in Hp as [H1 Hp], Hp' as [H2 Hp']. f_equal; [|now apply IH].
  apply cong_elim in Hc as [k Hk]. assert (k = 0) as -> by nia. lia.
Qed.

(** A constant polynomial acts by scaling. *)
Lemma padd_zeros p : padd p (replicate (length p) 0) = p.
Proof. unfold padd. induction p as [|c p IH]; [done|]. cbn [length replicate zip_with]. now rewrite Z.add_0_r, IH. Qed.

Lemma shift_zeros n : shift (replicate n 0) = replicate n 0.
Proof.
  apply list_eq_same_length with n; [apply length_replicate | now rewrite length_shift, length_replicate |].
  intros i x y Hi Hx Hy. apply lookup_replicate in Hy as [-> _]. destruct n as [|n]; [lia|].
  cbn [replicate shift] in Hx. change (0 :: replicate n 0) with (replicate (S n) 0) in Hx. rewrite length_replicate in Hx.
  rewrite lookup_total_replicate_2 in Hx by lia. destruct i as [|i]; cbn in Hx; [injection Hx as <-; reflexivity|].
  apply lookup_take_Some in Hx as [Hx _]. change (0 :: replicate n 0) with (replicate (S n) 0) in Hx.
  now apply lookup_replicate in Hx as [-> _].
Qed.

Lemma ring_mul_constant n c k b : length b = n -> ring_mul n (c :: replicate k 0) b = Z.mul c <$> b.
Proof.
  intros Hb. assert (forall j, ring_mul n (replicate j 0) b = replicate n 0) as Hz.
  { induction j as [|j IH]; [reflexivity|]. cbn [replicate ring_mul]. rewrite IH, shift_zeros.
    rewrite <- (length_fmap (Z.mul 0) b) in Hb. rewrite <- Hb, padd_zeros.
    rewrite length_fmap. clear. induction b as [|x b IHb]; [done|]. rewrite fmap_cons, IHb. reflexivity. }
  cbn [ring_mul]. rewrite Hz, shift_zeros. rewrite <- (length_fmap (Z.mul c) b) in Hb. now rewrite <- Hb, padd_zeros.
Qed.

Example ring_mul_smoke : ring_mul 4 [1; 2; 3; 4] [5; 6; 7; 8] = [-56; -36; 2; 60].
Proof. reflexivity. Qed.
