(* ===== verification/Pass.v ===== *)
(** Pass: passes of butterflies over the blocks of an array.

    The transforms of the program (modulo 12289 in [vrfy.c], modulo 31-bit primes in [keygen.c], on complex
    numbers in [fft.c]) are sequences of such passes: [pass] combines the two halves of each block, in
    place. *)

From Stdlib Require Import ZArith Lia.
From stdpp Require Import base numbers list.
From S2P Require Import Prelude.

Section Pass.
Context {A : Type} {InhA : Inhabited A}.
Implicit Types (a : list A) (F G : A -> A -> A).

(** [t] consecutive coefficients, block [i]. *)
Definition slice (a : list A) (i t : nat) : list A := take t (drop (i * t) a).

Lemma length_slice a i t : (i * t + t <= length a)%nat -> length (slice a i t) = t.
Proof. intros H. unfold slice. rewrite length_take, length_drop. lia. Qed.

Lemma slice_lookup a i t j : (j < t)%nat -> slice a i t !!! j = a !!! (i * t + j)%nat.
Proof. intros H. unfold slice. now rewrite lookup_total_take_lt, lookup_total_drop. Qed.

Lemma slice_split a i ht : slice a i (2 * ht) = slice a (2 * i) ht ++ slice a (2 * i + 1) ht.
Proof.
  unfold slice. rewrite <- (take_drop ht (take (2 * ht) _)), take_take, Nat.min_l by lia. f_equal; [f_equal; f_equal; lia|].
  replace (2 * ht)%nat with (ht + ht)%nat at 1 by lia. rewrite <- take_drop_commute, drop_drop. do 2 f_equal. lia.
Qed.

Lemma slice_all a n : length a = n -> slice a 0 n = a.
Proof. intros <-. unfold slice. cbn [Nat.mul drop]. apply firstn_all. Qed.

Lemma slice_one a p : (p < length a)%nat -> slice a p 1 = [a !!! p].
Proof.
  intros H. apply list_eq_total; [rewrite length_slice; simpl; lia|]. rewrite length_slice by lia.
  intros j Hj. rewrite slice_lookup by done. assert (j = 0)%nat as -> by lia. cbn. f_equal. lia.
Qed.

Definition bfly (F G : A -> A -> A) (ht j : nat) (a : list A) : list A :=
  let u := a !!! j in
  let v := a !!! (j + ht)%nat in
  <[(j + ht)%nat := G u v]> (<[j := F u v]> a).

Definition pass (F G : nat -> A -> A -> A) (cnt ht : nat) (a : list A) : list A :=
  (for_up 0 cnt (fun i '(j1, a) =>
     ((j1 + 2 * ht)%nat, for_up j1 (j1 + ht) (bfly (F i) (G i) ht) a)) (0%nat, a)).2.

(** The inner loop: the two halves of one block, and nothing else. *)
Lemma bfly_loop_spec F G ht j1 a :
  (j1 + 2 * ht <= length a)%nat ->
  let r := for_up j1 (j1 + ht) (bfly F G ht) a in
  length r = length a /\
  (forall j, (j < ht)%nat -> r !!! (j1 + j)%nat = F (a !!! (j1 + j)%nat) (a !!! (j1 + j + ht)%nat) /\
     r !!! (j1 + j + ht)%nat = G (a !!! (j1 + j)%nat) (a !!! (j1 + j + ht)%nat)) /\
  (forall p, (p < j1 \/ j1 + 2 * ht <= p)%nat -> r !!! p = a !!! p).
Proof.
  intros Ha. cbv zeta.
  pose (inv (k : nat) (r : list A) := length r = length a /\
    (forall j, (j1 + j < k)%nat -> r !!! (j1 + j)%nat = F (a !!! (j1 + j)%nat) (a !!! (j1 + j + ht)%nat) /\
       r !!! (j1 + j + ht)%nat = G (a !!! (j1 + j)%nat) (a !!! (j1 + j + ht)%nat)) /\
    (forall p, (p < j1 \/ k <= p < j1 + ht \/ k + ht <= p)%nat -> r !!! p = a !!! p)).
  assert (inv (j1 + ht)%nat (for_up j1 (j1 + ht) (bfly F G ht) a)) as (Hl & Hin & Hout).
  { apply (for_up_inv _ inv); [lia | |].
    - split; [done|]. split; [intros; lia | done].
    - intros k r Hk (Hl & Hin & Hout). unfold bfly. rewrite !Hout by lia.
      split; [now rewrite !length_insert|]. split.
      + intros j Hj. destruct (decide (j1 + j = k)%nat) as [He|He].
        * rewrite !He. rewrite list_lookup_total_insert_ne by lia.
          rewrite !list_lookup_total_insert_eq by (rewrite ?length_insert; lia). done.
        * rewrite !list_lookup_total_insert_ne by lia. apply Hin. lia.
      + intros p Hp. rewrite !list_lookup_total_insert_ne by lia. apply Hout. lia. }
  split; [exact Hl|]. split; [intros j Hj; apply Hin; lia | intros p Hp; apply Hout; lia].
Qed.

Lemma pass_spec (F G : nat -> A -> A -> A) cnt ht a :
  length a = (cnt * (2 * ht))%nat ->
  length (pass F G cnt ht a) = length a /\
  forall i, (i < cnt)%nat ->
    slice (pass F G cnt ht a) (2 * i) ht =
      zip_with (F i) (slice a (2 * i) ht) (slice a (2 * i + 1) ht) /\
    slice (pass F G cnt ht a) (2 * i + 1) ht =
      zip_with (G i) (slice a (2 * i) ht) (slice a (2 * i + 1) ht).
Proof.
  intros Ha.
  pose (at_ (f : nat -> A -> A -> A) (i j : nat) :=
    f i (a !!! (i * (2 * ht) + j)%nat) (a !!! (i * (2 * ht) + j + ht)%nat)).
  pose (inv (k : nat) (st : nat * list A) := st.1 = (k * (2 * ht))%nat /\ length st.2 = length a /\
    (forall i j, (i < k)%nat -> (j < ht)%nat -> st.2 !!! (i * (2 * ht) + j)%nat = at_ F i j /\
       st.2 !!! (i * (2 * ht) + j + ht)%nat = at_ G i j) /\
    (forall p, (k * (2 * ht) <= p)%nat -> st.2 !!! p = a !!! p)).
  assert (forall i, (i < cnt)%nat -> (i * (2 * ht) + 2 * ht <= length a)%nat) as Hblk by (intros; rewrite Ha; nia).
  assert (inv cnt (for_up 0 cnt (fun i '(j1, a) =>
    ((j1 + 2 * ht)%nat, for_up j1 (j1 + ht) (bfly (F i) (G i) ht) a)) (0%nat, a))) as (_ & Hl & Hin & _).
  { apply (for_up_inv _ inv); [lia | |].
    - split; [done|]. split; [done|]. split; [intros; lia | done].
    - intros k [j1 r] Hk (Hj & Hl & Hin & Hout). cbn [fst snd] in *. subst j1.
      destruct (bfly_loop_spec (F k) (G k) ht (k * (2 * ht)) r) as (Hl' & Hin' & Hout');
        [rewrite Hl; apply Hblk; lia|].
      split; [cbn; lia|]. cbn [snd]. split; [lia|]. split.
      + intros i j Hi Hj. destruct (decide (i = k)) as [->|Hne].
        * destruct (Hin' j Hj) as [H1 H2]. rewrite H1, H2, !Hout by lia. done.
        * assert (i * (2 * ht) + 2 * ht <= k * (2 * ht))%nat by nia.
          rewrite !Hout' by lia. apply Hin; lia.
      + intros p Hp. rewrite Hout', Hout by lia. done. }
  fold (pass F G cnt ht a) in *. change (for_up 0 cnt _ _).2 with (pass F G cnt ht a) in *.
  split; [exact Hl|]. intros i Hi. specialize (Hblk i Hi).
  assert (length (slice a (2 * i) ht) = ht /\ length (slice a (2 * i + 1) ht) = ht) as [Hs0 Hs1]
    by (split; apply length_slice; lia).
  split; (apply list_eq_total; [rewrite length_zip_with, Hs0, Hs1, length_slice by lia; lia|]);
    rewrite length_slice by lia; intros j Hj;
    rewrite slice_lookup by done; rewrite (lookup_total_zip_with _ _ _ _) by lia;
    rewrite !slice_lookup by done; destruct (Hin i j Hi Hj) as [H1 H2].
  - replace (2 * i * ht + j)%nat with (i * (2 * ht) + j)%nat by lia. rewrite H1. unfold at_. do 2 f_equal. lia.
  - replace ((2 * i + 1) * ht + j)%nat with (i * (2 * ht) + j + ht)%nat by lia. rewrite H2. unfold at_. f_equal. f_equal. lia.
Qed.

(** The same, cell by cell. *)
Lemma pass_lookup (F G : nat -> A -> A -> A) cnt ht a i j :
  length a = (cnt * (2 * ht))%nat -> (i < cnt)%nat -> (j < ht)%nat ->
  let lo := a !!! (i * (2 * ht) + j)%nat in
  let hi := a !!! (i * (2 * ht) + j + ht)%nat in
  pass F G cnt ht a !!! (i * (2 * ht) + j)%nat = F i lo hi /\
  pass F G cnt ht a !!! (i * (2 * ht) + j + ht)%nat = G i lo hi.
Proof.
  intros Ha Hi Hj. cbv zeta. destruct (pass_spec F G cnt ht a Ha) as [Hl H]. destruct (H i Hi) as [H1 H2].
  assert (length (slice a (2 * i) ht) = ht /\ length (slice a (2 * i + 1) ht) = ht) as [Hs0 Hs1] by (split; apply length_slice; nia).
  replace (i * (2 * ht) + j)%nat with (2 * i * ht + j)%nat by lia. replace (2 * i * ht + j + ht)%nat with ((2 * i + 1) * ht + j)%nat by lia.
  rewrite <- !(slice_lookup _ _ ht) by done. rewrite H1, H2, !(lookup_total_zip_with _ _ _ _) by lia. done.
Qed.

Lemma even_or_odd_block p ht :
  (0 < ht)%nat -> let i := (p / (2 * ht))%nat in (p / ht = 2 * i \/ p / ht = 2 * i + 1)%nat.
Proof.
  intros Hht. cbv zeta. rewrite (Nat.mul_comm 2 ht), <- Nat.Div0.div_div.
  pose proof (Nat.div_mod_eq (p / ht) 2). pose proof (Nat.mod_upper_bound (p / ht) 2). lia.
Qed.

(** Every index is in one of the two halves of a block. *)
Lemma block_split cnt ht p : (p < cnt * (2 * ht))%nat ->
  exists i j, (i < cnt)%nat /\ (j < ht)%nat /\ (p = i * (2 * ht) + j \/ p = i * (2 * ht) + j + ht)%nat.
Proof.
  intros Hp. assert (0 < ht)%nat as Ht by nia. pose proof (Nat.div_mod_eq p (2 * ht)) as Hd. pose proof (Nat.mod_upper_bound p (2 * ht) ltac:(lia)) as Hm.
  assert (p / (2 * ht) < cnt)%nat by (apply Nat.Div0.div_lt_upper_bound; lia). exists (p / (2 * ht))%nat.
  destruct (decide (p mod (2 * ht) < ht)%nat); [exists (p mod (2 * ht))%nat | exists (p mod (2 * ht) - ht)%nat]; lia.
Qed.
(** Two passes: what their butterflies do to two cells. *)
Lemma pass_pass (F G F' G' : nat -> A -> A -> A) (f : list A -> list A) cnt ht a :
  length a = (cnt * (2 * ht))%nat -> length (f a) = length a ->
  (forall i lo hi, (i < cnt)%nat -> (lo < length a)%nat -> (hi < length a)%nat ->
     let u := F i (a !!! lo) (a !!! hi) in let v := G i (a !!! lo) (a !!! hi) in
     F' i u v = f a !!! lo /\ G' i u v = f a !!! hi) ->
  pass F' G' cnt ht (pass F G cnt ht a) = f a.
Proof.
  intros Ha Hf H. destruct (pass_spec F G cnt ht a Ha) as [Hl _]. assert (length (pass F G cnt ht a) = (cnt * (2 * ht))%nat) as Ha' by lia.
  destruct (pass_spec F' G' cnt ht (pass F G cnt ht a) Ha') as [Hl' _].
  apply list_eq_total; [lia|]. rewrite Hl'. intros p Hp. destruct (block_split cnt ht p ltac:(lia)) as (i & j & Hi & Hj & Hc).
  destruct (pass_lookup F G cnt ht a i j Ha Hi Hj) as [H1 H2], (pass_lookup F' G' cnt ht _ i j Ha' Hi Hj) as [H3 H4].
  rewrite H1, H2 in H3, H4. destruct (H i (i * (2 * ht) + j)%nat (i * (2 * ht) + j + ht)%nat) as [H5 H6]; [done | nia | nia |].
  destruct Hc as [-> | ->]; [rewrite H3; exact H5 | rewrite H4; exact H6].
Qed.

End Pass.
