(* ===== verification/Butterfly.v ===== *)
(** Butterfly: in-place transforms by passes of butterflies, over any odd prime.

    Both number-theoretic transforms of the program (modulo 12289 in [vrfy.c], modulo 31-bit primes in
    [keygen.c]) have this shape: a [pass] of [Pass] combines the two halves of each block with the twiddle factor of
    a node of a binary tree whose root stands for X^n + 1.  The forward transform evaluates
    ([forward_pass]), the inverse one interpolates up to a factor ([inverse_pass]). *)

From Stdlib Require Import ZArith Lia.
From stdpp Require Import base numbers list.
From S2P Require Import Prelude Polynomial Pass.

(** * Butterfly passes *)

Lemma peval_slice_split a i ht x :
  (i * (2 * ht) + 2 * ht <= length a)%nat ->
  peval (slice a i (2 * ht)) x =
    peval (slice a (2 * i) ht) x + x ^ Z.of_nat ht * peval (slice a (2 * i + 1) ht) x.
Proof. intros H. rewrite slice_split, peval_app, length_slice by lia. done. Qed.

(** A butterfly output is a linear form of its inputs modulo q. *)
Definition linear (q : Z) (H : Z -> Z -> Z) (alpha beta : Z) : Prop :=
  forall u v, 0 <= u < q -> 0 <= v < q -> 0 <= H u v < q /\ H u v ≡[q] alpha * u + beta * v.

Section Linear.
  Context (q : Z).
  Abbreviation canonical := (Forall (fun c => 0 <= c < q)).

Lemma linear_zip H alpha beta x : linear q H alpha beta -> forall l l',
  canonical l -> canonical l' -> length l = length l' ->
  canonical (zip_with H l l') /\
  peval (zip_with H l l') x ≡[q] alpha * peval l x + beta * peval l' x.
Proof.
  intros HH. induction l as [|u l IH]; intros [|v l'] Hl Hl' Hlen; try done.
  { split; [constructor|]. apply (cong_intro _ _ _ 0). cbn. ring. }
  apply Forall_cons_iff in Hl as [Hu Hl], Hl' as [Hv Hl']. destruct (HH u v Hu Hv) as [Hr Hc].
  destruct (IH l' Hl Hl') as [IHr IHc]; [simpl in Hlen; lia|]. split; [now constructor|].
  cbn [zip_with]. rewrite !peval_cons, Hc, IHc. apply (cong_intro _ _ _ 0). ring.
Qed.

Lemma canonical_slices (a : list Z) (cnt t : nat) :
  (0 < t)%nat -> length a = (cnt * t)%nat ->
  canonical a <-> forall k, (k < cnt)%nat -> canonical (slice a k t).
Proof.
  intros Ht Hl. split.
  - intros H k _. unfold slice. now apply Forall_take, Forall_drop.
  - intros H. rewrite (Forall_lookup_total (fun c => 0 <= c < q)). intros p Hp.
    pose proof (Nat.div_mod_eq p t) as Hd. pose proof (Nat.mod_upper_bound p t ltac:(lia)) as Hm.
    assert (p / t < cnt)%nat as Hk by (apply Nat.Div0.div_lt_upper_bound; lia).
    specialize (H _ Hk). rewrite (Forall_lookup_total (fun c => 0 <= c < q)) in H.
    rewrite length_slice in H by nia. specialize (H _ Hm). rewrite slice_lookup in H by done.
    replace p with (p / t * t + p mod t)%nat by lia. exact H.
Qed.

(** A pass whose butterflies are linear, on the values of the blocks. *)
Lemma pass_linear F G (al be ga de : nat -> Z) cnt ht a :
  (0 < ht)%nat -> length a = (cnt * (2 * ht))%nat -> canonical a ->
  (forall i, (i < cnt)%nat -> linear q (F i) (al i) (be i) /\ linear q (G i) (ga i) (de i)) ->
  let r := pass F G cnt ht a in
  length r = length a /\ canonical r /\
  forall i x, (i < cnt)%nat ->
    let lo := peval (slice a (2 * i) ht) x in
    let hi := peval (slice a (2 * i + 1) ht) x in
    peval (slice r (2 * i) ht) x ≡[q] al i * lo + be i * hi /\
    peval (slice r (2 * i + 1) ht) x ≡[q] ga i * lo + de i * hi.
Proof.
  intros Hht Hl Hq Hlin. cbv zeta. destruct (pass_spec F G cnt ht a Hl) as [Hpl Hps].
  assert (forall k, (k < 2 * cnt)%nat -> canonical (slice a k ht) /\ length (slice a k ht) = ht) as Hsl.
  { intros k Hk. split; [apply (canonical_slices a (2 * cnt) ht); lia || done | apply length_slice; nia]. }
  split; [done|]. split.
  - apply (canonical_slices _ (2 * cnt) ht); [lia | lia |]. intros k Hk.
    pose proof (Nat.div_mod_eq k 2) as Hd. pose proof (Nat.mod_upper_bound k 2 ltac:(lia)) as Hm.
    destruct (Hps (k / 2)%nat ltac:(lia)) as [Hlo Hhi], (Hlin (k / 2)%nat ltac:(lia)) as [HF HG].
    destruct (Hsl (2 * (k / 2))%nat ltac:(lia)) as [? ?], (Hsl (2 * (k / 2) + 1)%nat ltac:(lia)) as [? ?].
    assert (k = 2 * (k / 2) \/ k = 2 * (k / 2) + 1)%nat as [Hk2|Hk2] by lia; rewrite Hk2, ?Hlo, ?Hhi.
    + apply (linear_zip _ _ _ 0 HF); lia || done.
    + apply (linear_zip _ _ _ 0 HG); lia || done.
  - intros i x Hi. destruct (Hps i Hi) as [Hlo Hhi], (Hlin i Hi) as [HF HG]. rewrite Hlo, Hhi.
    destruct (Hsl (2 * i)%nat ltac:(lia)) as [? ?], (Hsl (2 * i + 1)%nat ltac:(lia)) as [? ?].
    split; [apply (linear_zip _ _ _ x HF) | apply (linear_zip _ _ _ x HG)]; lia || done.
Qed.
End Linear.

(** * The tree of moduli

    Node k: the root's modulus is X^n - root 1 = X^n + 1 and node k's modulus X^t - root k splits into
    X^(t/2) - root 2k and X^(t/2) - root (2k + 1). *)

Definition tree_root (tw : nat -> Z) (k : nat) : Z :=
  if (k =? 1)%nat then -1 else if Nat.even k then tw (k / 2)%nat else - tw (k / 2)%nat.

Definition tree_points (tw : nat -> Z) (n : nat) : list Z := (fun p => tree_root tw (n + p)) <$> seq 0 n.

Lemma tree_points_lookup tw n p : (p < n)%nat -> tree_points tw n !!! p = tree_root tw (n + p).
Proof.
  intros Hp. unfold tree_points.
  rewrite (@list_lookup_total_fmap nat Z (fun p => tree_root tw (n + p)) _ _) by now rewrite length_seq.
  now rewrite lookup_total_seq_lt.
Qed.

Lemma length_tree_points tw n : length (tree_points tw n) = n.
Proof. unfold tree_points. now rewrite length_fmap, length_seq. Qed.

Lemma tree_root_even tw k : tree_root tw (2 * k) = tw k.
Proof.
  unfold tree_root. destruct (Nat.eqb_spec (2 * k) 1); [lia|].
  rewrite Nat.even_mul. cbn [Nat.even orb]. do 2 f_equal. rewrite Nat.mul_comm. now apply Nat.div_mul.
Qed.

Lemma tree_root_odd tw k : (1 <= k)%nat -> tree_root tw (2 * k + 1) = - tw k.
Proof.
  intros Hk. unfold tree_root. destruct (Nat.eqb_spec (2 * k + 1) 1); [lia|].
  rewrite Nat.even_add, Nat.even_mul. cbn [Nat.even orb eqb]. do 2 f_equal.
  symmetry. apply (Nat.div_unique _ _ _ 1); lia.
Qed.

Section Tree.
  Context (q : Z) (tw : nat -> Z) (logn : nat).
  Abbreviation n := (2 ^ logn)%nat.
  Abbreviation root := (tree_root tw).
  Abbreviation rho p := (root (n + p)).
  Context (Hq : Z.prime q) (Hq2 : 2 < q) (tw_sqr : forall k, (1 <= k < n)%nat -> tw k * tw k ≡[q] root k).

(** A node's modulus is the square of its children's roots. *)
Lemma root_sqr k : (2 <= k < 2 * n)%nat -> root k * root k ≡[q] root (k / 2).
Proof using Hq Hq2 tw_sqr.
  intros Hk. pose proof (Nat.div_mod_eq k 2) as Hd. pose proof (Nat.mod_upper_bound k 2 ltac:(lia)).
  rewrite <- (tw_sqr (k / 2)) by lia. set (h := (k / 2)%nat) in *.
  assert (k = 2 * h \/ k = 2 * h + 1)%nat as [Hk2|Hk2] by lia; rewrite Hk2.
  - rewrite tree_root_even. reflexivity.
  - rewrite tree_root_odd by lia. apply (cong_intro _ _ _ 0). ring.
Qed.

(** The leaf below position [p]: its 2^j-th power is the modulus of its ancestor. *)
Lemma root_pow j : forall k,
  (2 ^ j <= k < 2 * n)%nat -> root k ^ 2 ^ Z.of_nat j ≡[q] root (k / 2 ^ j).
Proof using Hq Hq2 tw_sqr.
  induction j as [|j IH]; intros k Hk.
  - rewrite Nat.div_1_r. change (2 ^ Z.of_nat 0) with 1. now rewrite Z.pow_1_r.
  - assert (2 ^ S j = 2 * 2 ^ j)%nat as H2 by (simpl; lia). pose proof (pow2_nat_pos j).
    rewrite Nat2Z.inj_succ, Z.pow_succ_r, (Z.mul_comm 2), Z.pow_mul_r by (try apply Z.pow_nonneg; lia).
    rewrite IH by lia. rewrite Z.pow_2_r, root_sqr.
    + rewrite Nat.Div0.div_div, (Nat.mul_comm (2 ^ j)), <- H2. reflexivity.
    + split; [|apply Nat.Div0.div_lt_upper_bound; nia]. apply Nat.div_le_lower_bound; lia.
Qed.

(** The points are roots of X^n + 1. *)
Lemma tree_point_root p : (p < n)%nat -> rho p ^ Z.of_nat n ≡[q] -1.
Proof using Hq Hq2 tw_sqr.
  intros Hp. rewrite Nat2Z.inj_pow. change (Z.of_nat 2) with 2.
  rewrite root_pow by lia. now rewrite <- (Nat.div_unique (n + p) n 1 p) by lia.
Qed.

Lemma not_zero_below x : 0 < x < q -> ~ x ≡[q] 0.
Proof. intros Hx H. apply cong_mod_iff in H; [|lia]. rewrite Z.mod_small, Z.mod_0_l in H; lia. Qed.

Lemma node_nonzero l : forall k, (l <= logn)%nat -> (2 ^ l <= k < 2 * 2 ^ l)%nat -> ~ root k ≡[q] 0.
Proof using Hq Hq2 tw_sqr.
  induction l as [|l IH]; intros k Hl Hk H.
  - assert (k = 1)%nat as -> by (simpl in Hk; lia). change (root 1) with (-1) in H. apply (not_zero_below 1); [lia|].
    replace 1 with (- -1) by lia. rewrite H. reflexivity.
  - assert (2 ^ S l = 2 * 2 ^ l)%nat as H2 by (simpl; lia). pose proof (pow2_nat_pos l).
    assert (2 ^ S l <= n)%nat by (apply Nat.pow_le_mono_r; lia).
    pose proof (Nat.div_mod_eq k 2). pose proof (Nat.mod_upper_bound k 2 ltac:(lia)).
    apply (IH (k / 2)%nat); [lia | lia |]. rewrite <- root_sqr by lia. rewrite H. reflexivity.
Qed.

(** The points of one level are distinct. *)
Lemma root_inj l : forall k k',
  (l <= logn)%nat -> (2 ^ l <= k < 2 * 2 ^ l)%nat -> (2 ^ l <= k' < 2 * 2 ^ l)%nat -> root k ≡[q] root k' -> k = k'.
Proof using Hq Hq2 tw_sqr.
  induction l as [|l IH]; intros k k' Hl Hk Hk' He; [simpl in *; lia|].
  assert (2 ^ S l = 2 * 2 ^ l)%nat as H2 by (simpl; lia). pose proof (pow2_nat_pos l).
  assert (2 ^ S l <= n)%nat by (apply Nat.pow_le_mono_r; lia).
  pose proof (Nat.div_mod_eq k 2). pose proof (Nat.mod_upper_bound k 2 ltac:(lia)).
  pose proof (Nat.div_mod_eq k' 2). pose proof (Nat.mod_upper_bound k' 2 ltac:(lia)).
  assert (k / 2 = k' / 2)%nat as Hh.
  { apply IH; [lia | lia | lia |]. rewrite <- !root_sqr by lia. now rewrite He. }
  assert (~ tw (k / 2)%nat ≡[q] 0) as Hnz.
  { intros Hz. apply (node_nonzero (S l) (2 * (k / 2))%nat); [lia | lia |]. now rewrite tree_root_even. }
  rewrite <- Hh in *. clear Hh. set (h := (k / 2)%nat) in *. clearbody h.
  assert (forall x, 2 * x ≡[q] 0 -> x ≡[q] 0) as Htwo.
  { intros x Hx. apply (no_zero_div q 2 x Hq) in Hx as [Hx|Hx]; [|done]. exfalso. now apply (not_zero_below 2); [lia|]. }
  assert (k = 2 * h \/ k = 2 * h + 1)%nat as [Hk2|Hk2] by lia;
    (assert (k' = 2 * h \/ k' = 2 * h + 1)%nat as [Hk2'|Hk2'] by lia); try lia; exfalso;
    rewrite Hk2, Hk2', tree_root_even, tree_root_odd in He by lia; apply Hnz, Htwo.
  - replace (2 * tw h) with (tw h + tw h) by ring. rewrite He at 1. apply (cong_intro _ _ _ 0). ring.
  - replace (2 * tw h) with (tw h + tw h) by ring. rewrite <- He at 1. apply (cong_intro _ _ _ 0). ring.
Qed.

Lemma tree_points_distinct : pdistinct q (tree_points tw n).
Proof using Hq Hq2 tw_sqr.
  intros i j Hi Hj. rewrite length_tree_points in *. rewrite !tree_points_lookup by done. intros He.
  enough (n + i = n + j)%nat by lia. apply (root_inj logn); lia || done.
Qed.

(** Two polynomials with the same values at the points are the same. *)
Lemma tree_points_determine p p' :
  length p = n -> length p' = n -> (forall k, (k < n)%nat -> peval p (rho k) ≡[q] peval p' (rho k)) -> pcong q p p'.
Proof using Hq Hq2 tw_sqr.
  intros Hl Hl' He. apply (interpolation q (tree_points tw n)); rewrite ?length_tree_points; [exact Hq | apply tree_points_distinct | done | done |].
  intros k Hk. rewrite tree_points_lookup by done. now apply He.
Qed.

(** The modulus of the block of size [2^j] around position [p]. *)
Lemma rho_block m j p :
  n = (m * 2 ^ j)%nat -> (p < n)%nat -> rho p ^ Z.of_nat (2 ^ j) ≡[q] root (m + p / 2 ^ j).
Proof using Hq Hq2 tw_sqr.
  intros Hn Hp. rewrite Nat2Z.inj_pow. change (Z.of_nat 2) with 2. pose proof (pow2_nat_pos j).
  assert (2 ^ j <= n)%nat by (destruct m as [|m]; rewrite Hn in *; simpl in *; lia).
  rewrite root_pow by lia. rewrite Hn at 1. now rewrite Nat.div_add_l by lia.
Qed.

Lemma rho_children m j p :
  n = (m * (2 * 2 ^ j))%nat -> (p < n)%nat ->
  let i := (p / (2 * 2 ^ j))%nat in
  (i < m)%nat /\
  ((p / 2 ^ j)%nat = (2 * i)%nat /\ rho p ^ Z.of_nat (2 ^ j) ≡[q] tw (m + i)%nat \/
   (p / 2 ^ j)%nat = (2 * i + 1)%nat /\ rho p ^ Z.of_nat (2 ^ j) ≡[q] - tw (m + i)%nat).
Proof using Hq Hq2 tw_sqr.
  intros Hn Hp. cbv zeta. pose proof (pow2_nat_pos j) as Hj. set (i := (p / (2 * 2 ^ j))%nat).
  assert (i < m)%nat as Hi by (apply Nat.Div0.div_lt_upper_bound; lia). split; [done|].
  pose proof (rho_block (2 * m) j p ltac:(lia) Hp) as Hr.
  destruct (even_or_odd_block p (2 ^ j) Hj) as [He|He]; fold i in He; [left|right]; (split; [done|]);
    rewrite Hr, He.
  - replace (2 * m + 2 * i)%nat with (2 * (m + i))%nat by lia. now rewrite tree_root_even.
  - replace (2 * m + (2 * i + 1))%nat with (2 * (m + i) + 1)%nat by lia. now rewrite tree_root_odd by nia.
Qed.

(** * Forward: evaluation

    The invariant: the block of size [t] around position [p] has, at the point [p], the value of the
    polynomial. *)
Definition forward_inv (a0 : list Z) (t : nat) (a : list Z) : Prop :=
  pok q n a /\ forall p, (p < n)%nat -> peval (slice a (p / t) t) (rho p) ≡[q] peval a0 (rho p).

Lemma forward_start a : pok q n a -> forward_inv a n a.
Proof.
  intros Ha. split; [done|]. intros p Hp. rewrite Nat.div_small by done. rewrite slice_all by apply Ha. reflexivity.
Qed.

Lemma forward_end a0 a p : forward_inv a0 1 a -> (p < n)%nat -> a !!! p ≡[q] peval a0 (rho p).
Proof.
  intros [Hok Hev] Hp. specialize (Hev p Hp). rewrite Nat.div_1_r, slice_one in Hev by (destruct Hok; lia).
  rewrite <- Hev. cbn. apply (cong_intro _ _ _ 0). ring.
Qed.

Lemma forward_pass F G a0 m j a :
  n = (m * (2 * 2 ^ j))%nat ->
  (forall i, (i < m)%nat -> linear q (F i) 1 (tw (m + i)%nat) /\ linear q (G i) 1 (- tw (m + i)%nat)) ->
  forward_inv a0 (2 * 2 ^ j) a -> forward_inv a0 (2 ^ j) (pass F G m (2 ^ j) a).
Proof using Hq Hq2 tw_sqr.
  intros Hn Hlin [[Hl Hc] Hev]. pose proof (pow2_nat_pos j) as Hj.
  destruct (pass_linear q F G (fun _ => 1) (fun i => tw (m + i)%nat)
    (fun _ => 1) (fun i => - tw (m + i)%nat) m (2 ^ j) a) as (Hpl & Hpq & Hpv); [done | lia | done | done |].
  split; [split; [lia | done]|]. intros p Hp. destruct (rho_children m j p Hn Hp) as [Hi Hch].
  rewrite <- Hev by done. set (i := (p / (2 * 2 ^ j))%nat) in *. rewrite peval_slice_split by nia.
  destruct (Hpv i (rho p) Hi) as [Hlo Hhi].
  destruct Hch as [[-> Hr]|[-> Hr]]; rewrite Hr, ?Hlo, ?Hhi; apply (cong_intro _ _ _ 0); ring.
Qed.

(** * Inverse: interpolation

    The invariant: at the point [p], the block of size [t] around [p] has [t] times the value. *)
Definition inverse_inv (vals : nat -> Z) (t : nat) (a : list Z) : Prop :=
  pok q n a /\ forall p, (p < n)%nat -> peval (slice a (p / t) t) (rho p) ≡[q] Z.of_nat t * vals p.

Lemma inverse_start a : pok q n a -> inverse_inv (fun p => a !!! p) 1 a.
Proof.
  intros Ha. split; [done|]. intros p Hp.
  rewrite Nat.div_1_r, slice_one by (destruct Ha; lia). apply (cong_intro _ _ _ 0). cbn. ring.
Qed.

Lemma inverse_pass itw F G vals m j a :
  n = (m * (2 * 2 ^ j))%nat ->
  (forall i, (i < m)%nat -> linear q (F i) 1 1 /\ linear q (G i) (itw (m + i)%nat) (- itw (m + i)%nat) /\ tw (m + i)%nat * itw (m + i)%nat ≡[q] 1) ->
  inverse_inv vals (2 ^ j) a -> inverse_inv vals (2 * 2 ^ j) (pass F G m (2 ^ j) a).
Proof using Hq Hq2 tw_sqr.
  intros Hn Hlin [[Hl Hc] Hev]. pose proof (pow2_nat_pos j) as Hj.
  destruct (pass_linear q F G (fun _ => 1) (fun _ => 1)
    (fun i => itw (m + i)%nat) (fun i => - itw (m + i)%nat) m (2 ^ j) a) as (Hpl & Hpq & Hpv); [done | lia | done | |].
  { intros i Hi. destruct (Hlin i Hi) as (H1 & H2 & _). now split. }
  split; [split; [lia | done]|]. intros p Hp. destruct (rho_children m j p Hn Hp) as [Hi Hch].
  specialize (Hev p Hp). set (i := (p / (2 * 2 ^ j))%nat) in *. rewrite peval_slice_split by nia.
  destruct (Hpv i (rho p) Hi) as [Hlo Hhi]. rewrite Hlo, Hhi. destruct (Hlin i Hi) as (_ & _ & Htw). rewrite Nat2Z.inj_mul, <- Z.mul_assoc.
  set (lo := peval (slice a (2 * i) (2 ^ j)) (rho p)) in *. set (hi := peval (slice a (2 * i + 1) (2 ^ j)) (rho p)) in *.
  destruct Hch as [[He Hr]|[He Hr]]; rewrite He in Hev; fold lo hi in Hev; rewrite Hr, <- Hev.
  - transitivity (lo + hi + tw (m + i)%nat * itw (m + i)%nat * (lo - hi)); [apply (cong_intro _ _ _ 0); ring|].
    rewrite Htw. apply (cong_intro _ _ _ 0). ring.
  - transitivity (lo + hi - tw (m + i)%nat * itw (m + i)%nat * (lo - hi)); [apply (cong_intro _ _ _ 0); ring|].
    rewrite Htw. apply (cong_intro _ _ _ 0). ring.
Qed.
End Tree.
