(* ===== verification/Poly.v ===== *)
(** Poly: polynomials modulo q = 12289, and the ring Z_q[X]/(X^n + 1).

    The lists of [Polynomial] at the modulus of [vrfy.c]: congruence, canonical lists ([poly_ok], what the
    arrays hold), reduction, uniqueness of interpolation. *)

From Stdlib Require Import ZArith Lia.
From stdpp Require Import base numbers list.
From S2P Require Import Prelude NumberTheory Polynomial Mq.

Abbreviation poly_cong := (pcong Q).
Abbreviation distinct := (pdistinct Q).

(** Canonical coefficient lists. *)
Definition poly_ok (n : nat) (p : list Z) : Prop := length p = n /\ Forall in_q p.

Lemma poly_ok_lookup n p k : poly_ok n p -> (k < n)%nat -> in_q (p !!! k).
Proof. exact (pok_lookup Q n p k). Qed.

Lemma poly_ok_intro n p : length p = n -> (forall k, (k < n)%nat -> in_q (p !!! k)) -> poly_ok n p.
Proof. exact (pok_intro Q n p). Qed.

Lemma poly_cong_lookup p p' :
  length p = length p' -> (forall k, (k < length p)%nat -> p !!! k ≡[Q] p' !!! k) -> poly_cong p p'.
Proof. exact (pcong_lookup Q p p'). Qed.

Lemma poly_cong_at p p' k : poly_cong p p' -> (k < length p)%nat -> p !!! k ≡[Q] p' !!! k.
Proof. exact (pcong_at Q p p' k). Qed.

Lemma poly_ok_eq n p p' : poly_ok n p -> poly_ok n p' -> poly_cong p p' -> p = p'.
Proof. exact (pok_eq Q n p p'). Qed.

(** The canonical representative. *)
Definition reduce (p : list Z) : list Z := (fun c => c mod Q) <$> p.

Lemma reduce_ok p : poly_ok (length p) (reduce p).
Proof.
  split; [apply length_fmap|]. apply Forall_fmap, Forall_true. intros c. apply Z.mod_pos_bound. unfold Q. lia.
Qed.

Lemma reduce_cong p : poly_cong (reduce p) p.
Proof.
  apply Forall2_fmap_l, Forall_Forall2_diag, Forall_true. intros c. apply cong_mod. unfold Q. lia.
Qed.

Lemma reduce_canonical n p p' : poly_ok n p -> poly_cong p p' -> p = reduce p'.
Proof.
  intros Hp H. pose proof (Forall2_length _ _ _ H) as Hl. destruct Hp as [Hn Hp].
  apply (poly_ok_eq n); [done | subst n; rewrite Hl; apply reduce_ok |]. rewrite H. symmetry. apply reduce_cong.
Qed.

(** Interpolation is unique. *)
Lemma interpolation_unique xs p p' :
  distinct xs -> length p = length xs -> length p' = length xs ->
  (forall k, (k < length xs)%nat -> peval p (xs !!! k) ≡[Q] peval p' (xs !!! k)) -> poly_cong p p'.
Proof. exact (interpolation Q xs p p' Q_prime). Qed.
