(* ===== verification/Norm.v ===== *)
(** Norm: the acceptance test of [common.c] on the squared norm of a signature.

    [is_short] and [is_short_half] sum squares in 32 bits with a sticky overflow flag; the reference
    is the exact sum, [norm2]. *)

From Stdlib Require Import ZArith Lia.
From stdpp Require Import base numbers list.
From S2P Require Import Prelude NumberTheory.

Definition l2bound : list Z :=
  [0; 101498; 208714; 428865; 892039; 1852696; 3842630; 7959734; 16468416; 34034726; 70265242].

(** One accumulation: [s += (uint32_t)(z * z); ng |= s;]. *)
Definition norm_step (z : Z) (st : Z * Z) : Z * Z :=
  let '(s, ng) := st in
  let s := u32 (s + u32 (z * z)) in
  (s, ng .| s).

Definition is_short (s1 s2 : list Z) (logn : nat) : Z :=
  let n := (2 ^ logn)%nat in
  let '(s, ng) := for_up 0 n (fun u st => norm_step (s2 !!! u) (norm_step (s1 !!! u) st)) (0, 0) in
  let s := s .| u32 (- (ng .>> 31)) in
  bit (s <=? l2bound !!! logn).

Definition is_short_half (sqn : Z) (s2 : list Z) (logn : nat) : Z :=
  let n := (2 ^ logn)%nat in
  let ng := u32 (- (sqn .>> 31)) in
  let '(sqn, ng) := for_up 0 n (fun u st => norm_step (s2 !!! u) st) (sqn, ng) in
  let sqn := sqn .| u32 (- (ng .>> 31)) in
  bit (sqn <=? l2bound !!! logn).

(** * The exact norm *)

Definition norm2 (s : list Z) : Z := foldr (fun z acc => z * z + acc) 0 s.

Definition in_i16 (z : Z) : Prop := - 2 ^ 15 <= z < 2 ^ 15.

Lemma norm2_nonneg s : 0 <= norm2 s.
Proof. induction s as [|z s IH]; simpl; [done|]. fold (norm2 s). nia. Qed.

Lemma norm2_snoc s z : norm2 (s ++ [z]) = norm2 s + z * z.
Proof. induction s as [|y s IH]; simpl; [ring|]. fold (norm2 (s ++ [z])) (norm2 s). rewrite IH. ring. Qed.

Lemma norm2_take_S s u : (u < length s)%nat -> norm2 (take (S u) s) = norm2 (take u s) + (s !!! u) * (s !!! u).
Proof.
  intros Hu. rewrite (take_S_r s u (s !!! u)); [apply norm2_snoc|]. now apply list_lookup_lookup_total_lt.
Qed.

(** The accumulator tracks the exact sum [e]: either the flag is down and the sum is exact and below
    2^31, or the flag is up and the sum is at least 2^31. *)
Definition tracks (e : Z) (st : Z * Z) : Prop :=
  let '(s, ng) := st in
  in_width 32 s /\ in_width 32 ng /\ 0 <= e /\
  (Z.testbit ng 31 = false /\ e = s /\ s < 2 ^ 31 \/ Z.testbit ng 31 = true /\ 2 ^ 31 <= e).

Lemma top_bit s : in_width 32 s -> Z.testbit s 31 = (2 ^ 31 <=? s).
Proof.
  intros Hs. rewrite Z.testbit_eqb by lia. unfold in_width in Hs.
  destruct (Z.leb_spec (2 ^ 31) s).
  - replace (s / 2 ^ 31) with 1 by (apply (Z.div_unique _ _ _ (s - 2 ^ 31)); lia). done.
  - rewrite Z.div_small by lia. done.
Qed.

Lemma norm_step_tracks z e st : in_i16 z -> tracks e st -> tracks (e + z * z) (norm_step z st).
Proof.
  unfold in_i16. intros Hz. destruct st as [s ng]. intros (Hs & Hng & He & Hc). unfold tracks, norm_step.
  assert (0 <= z * z <= 2 ^ 30) as Hzz by nia. rewrite (wrap_small 32 (z * z)) by (unfold in_width; lia).
  set (s' := u32 (s + z * z)). assert (in_width 32 s') as Hs' by (apply wrap_range; lia).
  split; [done|]. split; [apply lor_width; done || lia|]. split; [lia|].
  rewrite Z.lor_spec. destruct Hc as [(Hf & -> & Hlt)|(Ht & Hge)].
  - rewrite Hf. cbn [orb]. rewrite top_bit by done. unfold s' in *. rewrite wrap_small by (unfold in_width; lia).
    destruct (Z.leb_spec (2 ^ 31) (s + z * z)); [right | left]; split; try lia; done.
  - right. rewrite Ht. split; [done | lia].
Qed.

(** The saturation and the comparison: exact for any bound below 2^31. *)
Lemma saturate_compare e s ng b :
  tracks e (s, ng) -> 0 <= b < 2 ^ 31 -> ((s .| u32 (- (ng .>> 31))) <=? b) = (e <=? b).
Proof.
  intros (Hs & Hng & He & Hc) Hb. rewrite Z.shiftr_div_pow2 by lia. pose proof (top_bit ng Hng) as Ht.
  unfold in_width in Hng. destruct Hc as [(Hf & -> & Hlt)|(Hf & Hge)]; rewrite Hf in Ht; symmetry in Ht.
  - apply Z.leb_gt in Ht. rewrite Z.div_small by lia. change (u32 (- 0)) with 0. now rewrite Z.lor_0_r.
  - apply Z.leb_le in Ht. replace (ng / 2 ^ 31) with 1 by (apply (Z.div_unique _ _ _ (ng - 2 ^ 31)); lia).
    change (u32 (-(1))) with (Z.ones 32). rewrite Z.lor_ones_low.
    + transitivity false; [|symmetry]; apply Z.leb_gt; [change (Z.ones 32) with 4294967295|]; lia.
    + destruct Hs. lia.
    + destruct (Z.eqb_spec s 0) as [->|]; [done|]. destruct Hs. apply Z.log2_lt_pow2; lia.
Qed.

Lemma l2bound_range logn : (logn <= 10)%nat -> 0 <= l2bound !!! logn < 2 ^ 31.
Proof. intros H. do 11 (destruct logn as [|logn]; [by_decide|]). lia. Qed.

Lemma is_short_exact s1 s2 logn :
  (logn <= 10)%nat -> length s1 = (2 ^ logn)%nat -> length s2 = (2 ^ logn)%nat ->
  Forall in_i16 s1 -> Forall in_i16 s2 ->
  is_short s1 s2 logn = bit (norm2 s1 + norm2 s2 <=? l2bound !!! logn).
Proof.
  intros Hl H1 H2 Hr1 Hr2. rewrite Forall_lookup_total in Hr1, Hr2. unfold is_short.
  assert (tracks (norm2 (take (2 ^ logn) s1) + norm2 (take (2 ^ logn) s2)) (for_up 0 (2 ^ logn) (fun u st => norm_step (s2 !!! u) (norm_step (s1 !!! u) st)) (0, 0))) as Ht.
  { apply (for_up_inv _ (fun u st => tracks (norm2 (take u s1) + norm2 (take u s2)) st)); [lia | |].
    - split; [done|]. split; [done|]. split; [done|]. now left.
    - intros u st Hu Hst. rewrite !norm2_take_S by lia.
      replace (_ + _ + (_ + _)) with (norm2 (take u s1) + norm2 (take u s2) + (s1 !!! u) * (s1 !!! u) + (s2 !!! u) * (s2 !!! u)) by ring.
      apply norm_step_tracks; [apply Hr2; lia|]. apply norm_step_tracks; [apply Hr1; lia | done]. }
  rewrite !take_ge in Ht by lia. destruct (for_up 0 _ _ _) as [s ng]. now rewrite (saturate_compare _ _ _ _ Ht (l2bound_range _ Hl)).
Qed.

Lemma is_short_half_exact sqn s2 logn :
  (logn <= 10)%nat -> length s2 = (2 ^ logn)%nat -> in_width 32 sqn -> Forall in_i16 s2 ->
  is_short_half sqn s2 logn = bit (sqn + norm2 s2 <=? l2bound !!! logn).
Proof.
  intros Hl H2 Hs Hr2. rewrite Forall_lookup_total in Hr2. unfold is_short_half.
  assert (tracks (sqn + norm2 (take (2 ^ logn) s2)) (for_up 0 (2 ^ logn) (fun u st => norm_step (s2 !!! u) st) (sqn, u32 (- (sqn .>> 31))))) as Ht.
  { apply (for_up_inv _ (fun u st => tracks (sqn + norm2 (take u s2)) st)); [lia | |].
    - cbn. rewrite Z.add_0_r. split; [done|]. split; [apply wrap_range; lia|]. pose proof Hs as [? ?]. split; [done|].
      rewrite Z.shiftr_div_pow2 by lia. destruct (Z_lt_le_dec sqn (2 ^ 31)).
      + left. rewrite Z.div_small by lia. repeat split; done.
      + right. replace (sqn / 2 ^ 31) with 1 by (apply (Z.div_unique _ _ _ (sqn - 2 ^ 31)); lia). done.
    - intros u st Hu Hst. rewrite !norm2_take_S by lia. rewrite Z.add_assoc.
      apply norm_step_tracks; [apply Hr2; lia | done]. }
  rewrite !take_ge in Ht by lia. destruct (for_up 0 _ _ _) as [s ng]. now rewrite (saturate_compare _ _ _ _ Ht (l2bound_range _ Hl)).
Qed.

(** C14 (bounds).  The norm tests are exact: although they accumulate in 32 bits, for any vectors of
    16-bit integers (even when the sum of squares exceeds 32 bits) [is_short] returns 1 exactly when the
    squared norm of (s1, s2) is at most the bound of the degree and 0 otherwise, and [is_short_half]
    does the same for a 32-bit partial sum [sqn] and s2. *)
Theorem is_short_correct (s1 s2 : list Z) (sqn : Z) (logn : nat) :
  (logn <= 10)%nat -> length s1 = (2 ^ logn)%nat -> length s2 = (2 ^ logn)%nat ->
  Forall in_i16 s1 -> Forall in_i16 s2 -> in_width 32 sqn ->
  is_short s1 s2 logn = (if decide (norm2 s1 + norm2 s2 <= l2bound !!! logn) then 1 else 0) /\
  is_short_half sqn s2 logn = (if decide (sqn + norm2 s2 <= l2bound !!! logn) then 1 else 0).
Proof.
  intros Hl H1 H2 Hr1 Hr2 Hs. rewrite is_short_exact, is_short_half_exact by done. unfold bit.
  split; [destruct (Z.leb_spec (norm2 s1 + norm2 s2) (l2bound !!! logn)) |
          destruct (Z.leb_spec (sqn + norm2 s2) (l2bound !!! logn))]; case_decide; lia.
Qed.

(** The sum of squares is 4 * 2^30 = 2^32, which a 32-bit sum without the flag would read as 0. *)
Lemma is_short_correct_witness :
  Forall in_i16 [-32768; -32768] /\ is_short [-32768; -32768] [-32768; -32768] 1 = 0 /\
  is_short_half 4294967295 [-32768; 1] 1 = 0.
Proof.
  assert (Forall in_i16 [-32768; -32768]) as H by (unfold in_i16; by_decide).
  assert (Forall in_i16 [-32768; 1]) as H' by (unfold in_i16; by_decide). split; [exact H|]. split.
  - exact (proj1 (is_short_correct [-32768; -32768] [-32768; -32768] 0 1 ltac:(lia) eq_refl eq_refl H H ltac:(by_decide))).
  - exact (proj2 (is_short_correct [-32768; -32768] [-32768; 1] 4294967295 1 ltac:(lia) eq_refl eq_refl H H' ltac:(by_decide))).
Defined.
