(* ===== verification/Vrfy.v ===== *)
(** Vrfy: signature verification and key completion, the entry points of [vrfy.c].

    Keys and signatures are lists of coefficients; the temporary buffers, which every function fills
    before it reads them, are the local lists.  The specifications are statements about the ring
    Z_q[X]/(X^n + 1). *)

From Stdlib Require Import ZArith Lia.
From stdpp Require Import base numbers list.
From S2P Require Import Prelude NumberTheory Mq Polynomial Butterfly Poly Ntt Norm.

(** [for (u = 0; u < n; u ++) t[u] = (uint16_t)f(u);] on a buffer of [n] entries. *)
Definition fill (n : nat) (f : nat -> Z) : list Z := (fun u => u16 (f u)) <$> seq 0 n.

(** [w = (uint32_t)s; w += Q & -(w >> 31);]. *)
Definition reduce_signed (s : Z) : Z :=
  let w := u32 s in
  u32 (w + (Q .& u32 (- (w .>> 31)))).

(** [w -= (int32_t)(Q & -(((Q >> 1) - (uint32_t)w) >> 31))], stored as [int16_t]. *)
Definition normalize (w : Z) : Z :=
  i16 (i32 (w - i32 (Q .& u32 (- (u32 ((Q .>> 1) - w) .>> 31))))).

Definition verify_raw (c0 s2 h : list Z) (logn : nat) : Z :=
  let n := (2 ^ logn)%nat in
  let tt := fill n (fun u => reduce_signed (s2 !!! u)) in
  let tt := mq_NTT tt logn in
  let tt := mq_poly_montymul_ntt tt h logn in
  let tt := mq_iNTT tt logn in
  let tt := mq_poly_sub tt c0 logn in
  let s1 := for_up 0 n (fun u tt => <[u := normalize (tt !!! u)]> tt) tt in
  is_short s1 s2 logn.

(** [if (t[u] == 0) return 0; h[u] = mq_div_12289(h[u], t[u]);] for [todo] indices from [u]. *)
Fixpoint div_loop (todo u : nat) (h t : list Z) : option (list Z) :=
  match todo with
  | O => Some h
  | S todo =>
      if t !!! u =? 0 then None
      else div_loop todo (S u) (<[u := u16 (mq_div_12289 (h !!! u) (t !!! u))]> h) t
  end.

(** [None] is the return value 0, [Some h] the return value 1 with the key [h]. *)
Definition compute_public (f g : list Z) (logn : nat) : option (list Z) :=
  let n := (2 ^ logn)%nat in
  let tt := fill n (fun u => mq_conv_small (f !!! u)) in
  let h := fill n (fun u => mq_conv_small (g !!! u)) in
  let h := mq_NTT h logn in
  let tt := mq_NTT tt logn in
  match div_loop n 0 h tt with
  | None => None
  | Some h => Some (mq_iNTT h logn)
  end.

(** The last loop of [complete_private], [todo] indices from [u]. *)
Fixpoint small_loop (todo u : nat) (t1 G : list Z) : option (list Z) :=
  match todo with
  | O => Some G
  | S todo =>
      let w := t1 !!! u in
      let w := u32 (w - (Q .& u32 (Z.lnot (u32 (- (u32 (w - (Q .>> 1)) .>> 31)))))) in
      let gi := i32 w in
      if (gi <? -127) || (127 <? gi) then None
      else small_loop todo (S u) t1 (G ++ [i8 gi])
  end.

Definition complete_private (f g F : list Z) (logn : nat) : option (list Z) :=
  let n := (2 ^ logn)%nat in
  let t1 := fill n (fun u => mq_conv_small (g !!! u)) in
  let t2 := fill n (fun u => mq_conv_small (F !!! u)) in
  let t1 := mq_NTT t1 logn in
  let t2 := mq_NTT t2 logn in
  let t1 := mq_poly_tomonty t1 logn in
  let t1 := mq_poly_montymul_ntt t1 t2 logn in
  let t2 := fill n (fun u => mq_conv_small (f !!! u)) in
  let t2 := mq_NTT t2 logn in
  match div_loop n 0 t1 t2 with
  | None => None
  | Some t1 => small_loop n 0 (mq_iNTT t1 logn) []
  end.

Definition is_invertible (s2 : list Z) (logn : nat) : Z :=
  let n := (2 ^ logn)%nat in
  let tt := fill n (fun u => reduce_signed (s2 !!! u)) in
  let tt := mq_NTT tt logn in
  let r := for_up 0 n (fun u r => r .| u32 (tt !!! u - 1)) 0 in
  u32 (1 - (r .>> 31)).

(** The return value and the rebuilt key. *)
Definition verify_recover (c0 s1 s2 : list Z) (logn : nat) : Z * list Z :=
  let n := (2 ^ logn)%nat in
  let tt := fill n (fun u => reduce_signed (s2 !!! u)) in
  let h := fill n (fun u => mq_sub (c0 !!! u) (reduce_signed (s1 !!! u))) in
  let tt := mq_NTT tt logn in
  let h := mq_NTT h logn in
  let '(r, h) := for_up 0 n (fun u '(r, h) =>
    (r .| u32 (tt !!! u - 1), <[u := u16 (mq_div_12289 (h !!! u) (tt !!! u))]> h)) (0, h) in
  let h := mq_iNTT h logn in
  let r := u32 (Z.lnot r) .& u32 (- is_short s1 s2 logn) in
  (r .>> 31, h).

Definition count_nttzero (sig : list Z) (logn : nat) : Z :=
  let n := (2 ^ logn)%nat in
  let s2 := fill n (fun u => reduce_signed (sig !!! u)) in
  let s2 := mq_NTT s2 logn in
  for_up 0 n (fun u r =>
    let w := u32 (s2 !!! u - 1) in
    u32 (r + (w .>> 31))) 0.

Example vrfy_smoke :
  compute_public [1; 1; 0; 0] [2; 0; 0; 1] 2 = Some [6146; 6143; 6146; 6144] /\
  complete_private [1; 1; 0; 0] [2; 0; 0; 2] [3; 0; 0; -1] 2 = Some [4; -4; 6; -2].
Proof. vm_compute. split; reflexivity. Qed.

(** * The reference: centred representatives *)

Definition centered (c : Z) : Z := (c + 6144) mod Q - 6144.

Lemma centered_spec c : -6144 <= centered c <= 6144 /\ centered c ≡[Q] c.
Proof.
  unfold centered. pose proof (Z.mod_pos_bound (c + 6144) Q ltac:(unfold Q; lia)).
  split; [unfold Q in *; lia|]. rewrite cong_mod by (unfold Q; lia). apply (cong_intro _ _ _ 0). ring.
Qed.

Lemma centered_unique c d : -6144 <= d <= 6144 -> d ≡[Q] c -> d = centered c.
Proof.
  intros Hd H. destruct (centered_spec c) as [Hc Hcc]. enough (d + 6144 = centered c + 6144) by lia.
  apply (cong_eq Q); [unfold Q; lia | unfold Q; lia |]. rewrite H, Hcc. reflexivity.
Qed.

Lemma centered_cong c d : c ≡[Q] d -> centered c = centered d.
Proof. intros H. apply centered_unique; [apply centered_spec|]. rewrite <- H. apply centered_spec. Qed.

Lemma centered_opp c : centered (- c) = - centered c.
Proof.
  destruct (centered_spec c) as [Hc Hcc]. symmetry. apply centered_unique; [lia|]. now rewrite Hcc.
Qed.

Lemma normalize_spec w : in_q w -> normalize w = centered w.
Proof.
  unfold in_q. intros Hw. unfold normalize. change (Q .>> 1) with 6144. rewrite Z.shiftr_div_pow2 by lia.
  destruct (Z_lt_le_dec 6144 w).
  - assert (u32 (6144 - w) = 6144 - w + 2 ^ 32) as ->
      by (rewrite wrap_mod by lia; symmetry; apply (Z.mod_unique _ _ (-1)); unfold Q in *; lia).
    replace ((6144 - w + 2 ^ 32) / 2 ^ 31) with 1 by (apply (Z.div_unique _ _ _ (6144 - w + 2 ^ 31)); unfold Q in *; lia).
    change (i32 (Q .& u32 (-(1)))) with Q. rewrite !sext_small by (rewrite ?sext_small; unfold Q in *; lia).
    apply centered_unique; [unfold Q in *; lia|]. apply (cong_intro _ _ _ (-1)). lia.
  - rewrite (wrap_small 32 (6144 - w)) by (unfold in_width; lia). rewrite Z.div_small by lia.
    change (i32 (Q .& u32 (- 0))) with 0. rewrite Z.sub_0_r, !sext_small by (rewrite ?sext_small; lia).
    apply centered_unique; [lia | reflexivity].
Qed.

(** * Buffers *)

Lemma fill_lookup n f k : (k < n)%nat -> fill n f !!! k = u16 (f k).
Proof.
  intros Hk. unfold fill. rewrite (@list_lookup_total_fmap nat Z (fun u => u16 (f u)) _ _) by now rewrite length_seq.
  now rewrite lookup_total_seq_lt.
Qed.

Lemma length_fill n f : length (fill n f) = n.
Proof. unfold fill. now rewrite length_fmap, length_seq. Qed.

(** A buffer of representatives of [a]. *)
Lemma fill_spec n f a :
  length a = n -> (forall k, (k < n)%nat -> in_q (f k) /\ f k ≡[Q] a !!! k) ->
  poly_ok n (fill n f) /\ poly_cong (fill n f) a.
Proof.
  intros Ha Hf. assert (forall k, (k < n)%nat -> fill n f !!! k = f k) as Hk.
  { intros k Hk. rewrite fill_lookup by done. now apply in_q_u16, Hf. }
  split.
  - apply poly_ok_intro; [apply length_fill|]. intros k Hlt. rewrite Hk by done. now apply Hf.
  - apply poly_cong_lookup; rewrite length_fill; [done|]. intros k Hlt. rewrite Hk by done. now apply Hf.
Qed.

(** Signed coefficients that one conditional addition reduces. *)
Definition small (a : list Z) : Prop := Forall (fun x => - Q < x < Q) a.

Lemma reduce_signed_spec x : - Q < x < Q -> in_q (reduce_signed x) /\ reduce_signed x ≡[Q] x.
Proof. exact (mq_conv_small_spec x). Qed.

Lemma fill_small n conv a :
  (forall x, - Q < x < Q -> in_q (conv x) /\ conv x ≡[Q] x) ->
  length a = n -> small a ->
  poly_ok n (fill n (fun u => conv (a !!! u))) /\ poly_cong (fill n (fun u => conv (a !!! u))) a.
Proof.
  intros Hc Ha Hs. unfold small in Hs. rewrite Forall_lookup_total in Hs.
  apply fill_spec; [done|]. intros k Hk. apply Hc, Hs. lia.
Qed.

Section Verify.
  Context (logn : nat) (Hlogn : (logn <= 10)%nat).
  Abbreviation n := (2 ^ logn)%nat.
  Abbreviation rho p := (root (2 ^ logn + p)).

(** The transform of a buffer, by the values of the polynomial it represents. *)
Lemma ntt_fill conv a :
  (forall x, - Q < x < Q -> in_q (conv x) /\ conv x ≡[Q] x) -> length a = n -> small a ->
  let t := mq_NTT (fill n (fun u => conv (a !!! u))) logn in
  poly_ok n t /\ forall p, (p < n)%nat -> t !!! p ≡[Q] peval a (rho p).
Proof.
  intros Hc Ha Hs. cbv zeta. destruct (fill_small n conv a Hc Ha Hs) as [Hok Hcong].
  destruct (mq_NTT_spec logn Hlogn _ Hok) as [Ht Hv]. split; [done|].
  intros p Hp. rewrite Hv by done. now rewrite Hcong.
Qed.

(** The first half of [verify_raw]: s2 h - c0 in the ring. *)
Lemma verify_raw_poly c0 s2 h :
  poly_ok n c0 -> length s2 = n -> small s2 -> poly_ok n h ->
  let tt := mq_NTT (fill n (fun u => reduce_signed (s2 !!! u))) logn in
  let tt := mq_iNTT (mq_poly_montymul_ntt tt (to_ntt_monty h logn) logn) logn in
  poly_ok n (mq_poly_sub tt c0 logn) /\ poly_cong (mq_poly_sub tt c0 logn) (psub (ring_mul n s2 h) c0).
Proof.
  intros Hc0 Hl Hs Hh. cbv zeta. destruct (ntt_fill reduce_signed s2 reduce_signed_spec Hl Hs) as [Ht Htv].
  destruct (montymul_key_spec _ h logn Hlogn Ht Hh) as [Hm Hmv]. destruct (mq_iNTT_spec logn Hlogn _ Hm) as [Hi Hiv].
  set (tt := mq_iNTT _ logn) in *. pose proof (length_ring_mul n s2 h ltac:(apply Hh)) as Hrl.
  assert (poly_cong tt (ring_mul n s2 h)) as Hc.
  { apply (points_determine logn Hlogn); [apply Hi | done |]. intros k Hk.
    rewrite Hiv, Hmv, Htv by done. symmetry. apply ring_mul_values; [done | apply Hh | done]. }
  destruct (mq_poly_sub_spec tt c0 logn Hi Hc0) as [Hr Hrv]. split; [done|].
  destruct Hr as [Hrlen _], Hc0 as [Hc0l _], Hi as [Hil _].
  apply poly_cong_lookup; [unfold psub; rewrite length_zip_with; lia|].
  intros k Hk. rewrite Hrv by lia. unfold psub. rewrite (lookup_total_zip_with _ _ _ _) by lia.
  now rewrite (poly_cong_at _ _ k Hc) by lia.
Qed.

Lemma normalize_loop t :
  poly_ok n t -> for_up 0 n (fun u tt => <[u := normalize (tt !!! u)]> tt) t = centered <$> t.
Proof.
  intros [Hl Hq]. rewrite Forall_lookup_total in Hq. rewrite (for_up_imap (fun _ => normalize)) by done.
  apply list_eq_total; [now rewrite length_imap, length_fmap|]. rewrite length_imap. intros k Hk.
  rewrite lookup_total_imap by done. rewrite (@list_lookup_total_fmap Z Z centered _ _) by done.
  now apply normalize_spec, Hq.
Qed.

Lemma centered_list_cong p p' : poly_cong p p' -> centered <$> p = centered <$> p'.
Proof. intros H. induction H as [|c d p p' Hc _ IH]; [done|]. cbn. f_equal; [now apply centered_cong | exact IH]. Qed.

Lemma norm2_opp p p' : length p = length p' -> norm2 (centered <$> psub p p') = norm2 (centered <$> psub p' p).
Proof.
  revert p'. induction p as [|c p IH]; intros [|d p'] Hl; try done.
  change (psub (c :: p) (d :: p')) with (c - d :: psub p p').
  change (psub (d :: p') (c :: p)) with (d - c :: psub p' p). rewrite !fmap_cons.
  cbn [norm2 foldr]. fold (norm2 (centered <$> psub p p')) (norm2 (centered <$> psub p' p)).
  rewrite IH by (simpl in Hl; lia). replace (d - c) with (- (c - d)) by ring. rewrite centered_opp. ring.
Qed.

Lemma centered_i16 p : Forall in_i16 (centered <$> p).
Proof.
  apply Forall_fmap, Forall_true. intros c. destruct (centered_spec c) as [H _]. unfold compose, in_i16. lia.
Qed.

Lemma small_i16 s : small s -> Forall in_i16 s.
Proof. unfold small. intros H. eapply Forall_impl; [exact H|]. unfold Q, in_i16. simpl. lia. Qed.

Lemma verify_raw_spec c0 s2 h :
  poly_ok n c0 -> length s2 = n -> small s2 -> poly_ok n h ->
  verify_raw c0 s2 (to_ntt_monty h logn) logn =
    bit (norm2 (centered <$> psub c0 (ring_mul n s2 h)) + norm2 s2 <=? l2bound !!! logn).
Proof.
  intros Hc0 Hl Hs Hh. unfold verify_raw. destruct (verify_raw_poly c0 s2 h Hc0 Hl Hs Hh) as [Hok Hc].
  rewrite normalize_loop by done. rewrite (centered_list_cong _ _ Hc).
  pose proof (length_ring_mul n s2 h ltac:(apply Hh)) as Hrl. destruct Hc0 as [Hc0l _].
  rewrite is_short_exact; [|done| |done|apply centered_i16|now apply small_i16].
  - rewrite norm2_opp by lia. reflexivity.
  - rewrite length_fmap. unfold psub. rewrite length_zip_with. lia.
Qed.

(** * Division in the ring *)

Definition one : list Z := 1 :: replicate (n - 1) 0.

(** [f] has an inverse modulo X^n + 1 and q. *)
Definition invertible (f : list Z) : Prop :=
  exists f', poly_ok n f' /\ poly_cong (ring_mul n f f') one.

Lemma peval_one x : peval one x = 1.
Proof. unfold one. rewrite peval_cons, peval_zeros. ring. Qed.

Lemma length_one : length one = n.
Proof. pose proof (n_bound logn Hlogn). unfold one. cbn [length]. rewrite length_replicate. lia. Qed.

(** A polynomial with given values. *)
Lemma interpolate (v : nat -> Z) :
  exists p, poly_ok n p /\ forall k, (k < n)%nat -> peval p (rho k) ≡[Q] v k.
Proof.
  set (a := (fun k => v k mod Q) <$> seq 0 n).
  assert (forall k, (k < n)%nat -> a !!! k = v k mod Q) as Ha.
  { intros k Hk. unfold a. rewrite (@list_lookup_total_fmap nat Z (fun k => v k mod Q) _ _) by now rewrite length_seq.
    now rewrite lookup_total_seq_lt. }
  assert (poly_ok n a) as Hok.
  { apply poly_ok_intro; [unfold a; now rewrite length_fmap, length_seq|]. intros k Hk. rewrite Ha by done.
    apply Z.mod_pos_bound. unfold Q. lia. }
  destruct (mq_iNTT_spec logn Hlogn a Hok) as [Hi Hv]. exists (mq_iNTT a logn). split; [done|].
  intros k Hk. rewrite Hv, Ha by done. apply cong_mod. unfold Q. lia.
Qed.

Lemma inverse_exists x : ~ x ≡[Q] 0 -> x * x ^ (Q - 2) ≡[Q] 1.
Proof.
  intros H. apply fermat_inverse; [apply Q_prime|]. intros H0. apply H. apply cong_mod_iff; [unfold Q; lia|].
  rewrite H0. now rewrite Z.mod_0_l by (unfold Q; lia).
Qed.

(** Invertible means: no zero among the values at the points. *)
Lemma invertible_iff f :
  length f = n -> invertible f <-> forall p, (p < n)%nat -> ~ peval f (rho p) ≡[Q] 0.
Proof.
  intros Hl. split.
  - intros (f' & [Hf' _] & Hc) p Hp H0. pose proof (ring_mul_values logn f f' p Hlogn Hf' Hp) as Hv.
    rewrite Hc, peval_one, H0, Z.mul_0_l in Hv. apply cong_mod_iff in Hv; [discriminate | unfold Q; lia].
  - intros H. destruct (interpolate (fun p => peval f (rho p) ^ (Q - 2))) as (f' & Hf' & Hv).
    exists f'. split; [done|]. apply (points_determine logn Hlogn); [apply length_ring_mul, Hf' | apply length_one |].
    intros k Hk. rewrite ring_mul_values by (done || apply Hf'). rewrite Hv, peval_one by done.
    now apply inverse_exists, H.
Qed.

(** The division loop: it fails exactly on a zero, and divides each cell. *)
Lemma div_loop_spec todo : forall u h t,
  (u + todo = n)%nat -> poly_ok n h -> poly_ok n t ->
  match div_loop todo u h t with
  | None => exists k, (u <= k < n)%nat /\ t !!! k = 0
  | Some r => poly_ok n r /\ (forall k, (k < u)%nat -> r !!! k = h !!! k) /\
      forall k, (u <= k < n)%nat -> t !!! k <> 0 /\ r !!! k * t !!! k ≡[Q] h !!! k
  end.
Proof.
  induction todo as [|todo IH]; intros u h t Hu Hh Ht; cbn [div_loop].
  - split; [done|]. split; [done|]. intros; lia.
  - destruct (Z.eqb_spec (t !!! u) 0) as [H0|H0]; [exists u; split; [lia | done]|].
    assert (u < n)%nat as Hun by lia.
    destruct (mq_div_12289_spec (h !!! u) (t !!! u)) as [Hd Hdc];
      [now apply (poly_ok_lookup n) | now apply (poly_ok_lookup n) | done |].
    rewrite in_q_u16 by done. set (d := mq_div_12289 _ _) in *.
    assert (poly_ok n (<[u := d]> h)) as Hh'.
    { destruct Hh as [Hhl Hhq]. split; [now rewrite length_insert | now apply Forall_insert]. }
    specialize (IH (S u) _ t ltac:(lia) Hh' Ht). destruct (div_loop todo (S u) _ t) as [r|].
    + destruct IH as (Hr & Hlow & Hhigh). destruct Hh as [Hhl _]. split; [done|]. split.
      * intros k Hk. rewrite Hlow, list_lookup_total_insert_ne by lia. done.
      * intros k Hk. destruct (decide (k = u)) as [->|Hne].
        -- rewrite Hlow, list_lookup_total_insert_eq by lia. done.
        -- destruct (Hhigh k ltac:(lia)) as [H1 H2]. now rewrite list_lookup_total_insert_ne in H2 by lia.
    + destruct IH as (k & Hk & Hz). exists k. split; [lia | done].
Qed.

(** Dividing values by the values of [f], then interpolating: division in the ring. *)
Lemma divide_interpolate f g h t :
  length f = n -> length g = n -> poly_ok n h -> poly_ok n t ->
  (forall p, (p < n)%nat -> t !!! p ≡[Q] peval f (rho p)) ->
  (forall p, (p < n)%nat -> h !!! p ≡[Q] peval g (rho p)) ->
  match div_loop n 0 h t with
  | None => ~ invertible f
  | Some r => invertible f /\ poly_ok n (mq_iNTT r logn) /\ poly_cong (ring_mul n f (mq_iNTT r logn)) g
  end.
Proof.
  intros Hf Hg Hh Ht Htv Hhv. pose proof (div_loop_spec n 0 h t eq_refl Hh Ht) as Hd.
  destruct (div_loop n 0 h t) as [r|]; rewrite (invertible_iff f Hf).
  - destruct Hd as (Hr & _ & Hd). destruct (mq_iNTT_spec logn Hlogn r Hr) as [Hi Hiv].
    split; [|split; [done|]].
    + intros p Hp H0. destruct (Hd p ltac:(lia)) as [Hnz _]. apply Hnz, in_q_zero; [now apply (poly_ok_lookup n)|].
      now rewrite Htv.
    + apply (points_determine logn Hlogn); [apply length_ring_mul, Hi | done |]. intros k Hk.
      rewrite ring_mul_values by (done || apply Hi). destruct (Hd k ltac:(lia)) as [_ Hdk].
      rewrite Hiv, <- Htv, <- Hhv by done. rewrite Z.mul_comm. exact Hdk.
  - destruct Hd as (k & Hk & Hz). intros H. apply (H k); [lia|]. rewrite <- Htv, Hz by lia. reflexivity.
Qed.

(** Division in the ring is unique. *)
Lemma division_unique f x y g :
  length x = n -> length y = n -> invertible f ->
  length f = n -> poly_cong (ring_mul n f x) g -> poly_cong (ring_mul n f y) g -> poly_cong x y.
Proof.
  intros Hx Hy Hf Hfl Hxg Hyg. apply (points_determine logn Hlogn); [done | done |]. intros k Hk.
  pose proof (proj1 (invertible_iff f Hfl) Hf k Hk) as Hnz. apply (q_cancel _ _ (peval f (rho k))); [done|].
  rewrite !(Z.mul_comm _ (peval f (rho k))). rewrite <- !ring_mul_values by done. now rewrite Hxg, Hyg.
Qed.

Lemma compute_public_spec f g :
  length f = n -> small f -> length g = n -> small g ->
  match compute_public f g logn with
  | None => ~ invertible f
  | Some h => invertible f /\ poly_ok n h /\ poly_cong (ring_mul n f h) g
  end.
Proof.
  intros Hf Hfs Hg Hgs. unfold compute_public.
  destruct (ntt_fill mq_conv_small f mq_conv_small_spec Hf Hfs) as [Ht Htv].
  destruct (ntt_fill mq_conv_small g mq_conv_small_spec Hg Hgs) as [Hh Hhv].
  pose proof (divide_interpolate f g _ _ Hf Hg Hh Ht Htv Hhv) as Hd.
  now destruct (div_loop n 0 _ _).
Qed.

(** * The private key's last polynomial *)

Lemma small_step_spec w :
  in_q w ->
  let gi := i32 (u32 (w - (Q .& u32 (Z.lnot (u32 (- (u32 (w - (Q .>> 1)) .>> 31))))))) in
  ((gi <? -127) || (127 <? gi)) = negb (Z.abs (centered w) <=? 127) /\
  (Z.abs (centered w) <= 127 -> i8 gi = centered w).
Proof.
  unfold in_q. intros Hw. cbv zeta. change (Q .>> 1) with 6144.
  assert (i32 (u32 (w - (Q .& u32 (Z.lnot (u32 (- (u32 (w - 6144) .>> 31))))))) = if w <? 6144 then w else w - Q) as ->.
  { rewrite (Z.shiftr_div_pow2 _ 31) by lia. destruct (Z.ltb_spec w 6144).
    - assert (u32 (w - 6144) = w - 6144 + 2 ^ 32) as ->
        by (rewrite wrap_mod by lia; symmetry; apply (Z.mod_unique _ _ (-1)); lia).
      replace ((w - 6144 + 2 ^ 32) / 2 ^ 31) with 1 by (apply (Z.div_unique _ _ _ (w - 6144 + 2 ^ 31)); lia).
      change (Q .& u32 (Z.lnot (u32 (-(1))))) with 0. rewrite Z.sub_0_r, wrap_small by (unfold in_width; lia).
      apply sext_small; lia.
    - rewrite (wrap_small 32 (w - 6144)) by (unfold in_width, Q in *; lia).
      rewrite Z.div_small by (unfold Q in *; lia). change (Q .& u32 (Z.lnot (u32 (- 0)))) with Q.
      unfold sext. rewrite wrap_idem by lia. apply (sext_small 32); unfold Q in *; lia. }
  destruct (Z_lt_le_dec w 6144) as [Hlt|Hge].
  - destruct (Z.ltb_spec w 6144); [|lia].
    rewrite <- (centered_unique w w) by (lia || reflexivity). split; [|intros; apply sext_small; lia].
    destruct (Z.ltb_spec w (-127)), (Z.ltb_spec 127 w), (Z.leb_spec (Z.abs w) 127); simpl; lia.
  - destruct (Z.ltb_spec w 6144); [lia|]. destruct (decide (w = 6144)) as [->|Hne].
    { rewrite <- (centered_unique 6144 6144) by (lia || reflexivity). split; [reflexivity | intros; lia]. }
    rewrite <- (centered_unique w (w - Q)) by (unfold Q in *; lia || apply (cong_intro _ _ _ (-1)); lia).
    split; [|intros; apply sext_small; lia].
    destruct (Z.ltb_spec (w - Q) (-127)), (Z.ltb_spec 127 (w - Q)), (Z.leb_spec (Z.abs (w - Q)) 127); simpl; lia.
Qed.

Lemma small_loop_spec todo : forall u t G,
  (u + todo = n)%nat -> poly_ok n t ->
  small_loop todo u t G =
    if forallb (fun c => Z.abs (centered c) <=? 127) (drop u t) then Some (G ++ (centered <$> drop u t)) else None.
Proof.
  induction todo as [|todo IH]; intros u t G Hu Ht; cbn [small_loop].
  - rewrite drop_ge by (destruct Ht; lia). cbn. now rewrite app_nil_r.
  - assert (u < n)%nat as Hun by lia. pose proof (poly_ok_lookup n t u Ht Hun) as Hq.
    destruct (small_step_spec _ Hq) as [Htest Hval]. rewrite Htest.
    rewrite (drop_S t (t !!! u) u) by (apply list_lookup_lookup_total_lt; destruct Ht; lia).
    cbn [forallb]. destruct (Z.leb_spec (Z.abs (centered (t !!! u))) 127) as [Hle|Hgt]; cbn [negb andb]; [|done].
    rewrite IH, Hval by (done || lia). destruct (forallb _ _); [|done]. rewrite fmap_cons, <- app_assoc. done.
Qed.

Lemma centered_poly_cong t : poly_cong (centered <$> t) t.
Proof. apply Forall2_fmap_l, Forall_Forall2_diag, Forall_true. intros c. apply centered_spec. Qed.

(** Products only depend on the residues. *)
Lemma ring_mul_cong f x y :
  length x = n -> length y = n -> poly_cong x y -> poly_cong (ring_mul n f x) (ring_mul n f y).
Proof.
  intros Hx Hy H. apply (points_determine logn Hlogn); [now apply length_ring_mul | now apply length_ring_mul |].
  intros k Hk. rewrite !ring_mul_values by done. now rewrite H.
Qed.

(** What the private-key completion computes before the size test: g F / f. *)
Lemma complete_private_division f g F :
  length f = n -> small f -> length g = n -> small g -> length F = n -> small F ->
  match complete_private f g F logn with
  | None => ~ invertible f \/ exists t, poly_ok n t /\ poly_cong (ring_mul n f t) (ring_mul n g F) /\
      forallb (fun c => Z.abs (centered c) <=? 127) t = false
  | Some G => invertible f /\ exists t, poly_ok n t /\ poly_cong (ring_mul n f t) (ring_mul n g F) /\
      forallb (fun c => Z.abs (centered c) <=? 127) t = true /\ G = centered <$> t
  end.
Proof.
  intros Hf Hfs Hg Hgs HF HFs. unfold complete_private.
  destruct (ntt_fill mq_conv_small g mq_conv_small_spec Hg Hgs) as [H1 H1v].
  destruct (ntt_fill mq_conv_small F mq_conv_small_spec HF HFs) as [H2 H2v].
  destruct (ntt_fill mq_conv_small f mq_conv_small_spec Hf Hfs) as [H3 H3v].
  destruct (mq_poly_tomonty_spec _ logn H1) as [H4 H4v]. destruct (mq_poly_montymul_ntt_spec _ _ logn H4 H2) as [H5 H5v].
  pose proof (length_ring_mul n g F HF) as Hgl.
  pose proof (divide_interpolate f (ring_mul n g F) _ _ Hf Hgl H5 H3 H3v) as Hd.
  destruct (div_loop n 0 _ _) as [r|].
  - destruct Hd as (Hinv & Hr & Hc).
    { intros p Hp. rewrite H5v, H4v, H1v, H2v, ring_mul_values by done.
      transitivity (peval g (rho p) * peval F (rho p) * (65536 * RI)); [apply (cong_intro _ _ _ 0); ring|].
      rewrite R_RI. now rewrite Z.mul_1_r. }
    rewrite small_loop_spec by done. rewrite drop_0. cbn [app].
    destruct (forallb _ _) eqn:E; [split; [done|] | right]; exists (mq_iNTT r logn); done.
  - left. apply Hd. intros p Hp. rewrite H5v, H4v, H1v, H2v, ring_mul_values by done.
    transitivity (peval g (rho p) * peval F (rho p) * (65536 * RI)); [apply (cong_intro _ _ _ 0); ring|].
    rewrite R_RI. now rewrite Z.mul_1_r.
Qed.

Lemma forallb_small t : forallb (fun c => Z.abs (centered c) <=? 127) t = true <-> Forall (fun c => -127 <= c <= 127) (centered <$> t).
Proof.
  rewrite Forall_fmap. induction t as [|c t IH]; [now split|]. cbn [forallb].
  rewrite andb_true_iff, IH, Forall_cons_iff, Z.leb_le. unfold compose. intuition lia.
Qed.

Lemma complete_private_iff f g F G :
  length f = n -> small f -> length g = n -> small g -> length F = n -> small F ->
  complete_private f g F logn = Some G <->
  invertible f /\ length G = n /\ Forall (fun c => -127 <= c <= 127) G /\
    poly_cong (ring_mul n f G) (ring_mul n g F).
Proof.
  intros Hf Hfs Hg Hgs HF HFs. pose proof (complete_private_division f g F Hf Hfs Hg Hgs HF HFs) as Hd. split.
  - intros H. rewrite H in Hd. destruct Hd as (Hinv & t & Ht & Hc & Hb & ->). destruct Ht as [Htl Htq].
    split; [done|]. split; [now rewrite length_fmap|]. split; [now apply forallb_small|].
    rewrite <- Hc. apply ring_mul_cong; [now rewrite length_fmap | done | apply centered_poly_cong].
  - intros (Hinv & HGl & HGs & HG).
    assert (forall t, poly_ok n t -> poly_cong (ring_mul n f t) (ring_mul n g F) -> centered <$> t = G) as Hun.
    { intros t [Htl _] Hc. pose proof (division_unique f t G _ Htl HGl Hinv Hf Hc HG) as HtG.
      rewrite (centered_list_cong _ _ HtG). clear -HGs. induction HGs as [|c G Hc _ IH]; [done|].
      cbn. f_equal; [symmetry; apply centered_unique; [lia | reflexivity] | exact IH]. }
    destruct (complete_private f g F logn) as [G'|].
    + destruct Hd as (_ & t & Ht & Hc & _ & ->). f_equal. now apply Hun.
    + exfalso. destruct Hd as [Hd|(t & Ht & Hc & Hb)]; [done|].
      rewrite <- (Hun t Ht Hc) in HGs. apply forallb_small in HGs. congruence.
Qed.

(** * Zero tests on the values *)

(** [r |= (uint32_t)(tt[u] - 1)]: the top bit records a zero. *)
Lemma zero_flag t :
  poly_ok n t ->
  let r := for_up 0 n (fun u r => r .| u32 (t !!! u - 1)) 0 in
  in_width 32 r /\ (Z.testbit r 31 = true <-> exists u, (u < n)%nat /\ t !!! u = 0).
Proof.
  intros Ht. cbv zeta.
  apply (for_up_inv _ (fun k r => in_width 32 r /\ (Z.testbit r 31 = true <-> exists u, (u < k)%nat /\ t !!! u = 0))); [lia | |].
  - split; [done|]. rewrite Z.bits_0. split; [done|]. intros (u & Hu & _). lia.
  - intros k r Hk [Hr Hf]. assert (in_width 32 (u32 (t !!! k - 1))) as Hw by (apply wrap_range; lia).
    split; [apply lor_width; done || lia|]. rewrite Z.lor_spec, orb_true_iff, Hf, top_bit, Z.leb_le by done.
    pose proof (poly_ok_lookup n t k Ht ltac:(lia)) as Hq. unfold in_q, Q in Hq.
    assert (2 ^ 31 <= u32 (t !!! k - 1) <-> t !!! k = 0) as ->.
    { destruct (decide (t !!! k = 0)) as [->|Hne]; [split; [done | vm_compute; intros _; discriminate]|].
      rewrite wrap_small by (unfold in_width; lia). lia. }
    split.
    + intros [(u & Hu & Hz)|Hz]; [exists u; split; [lia | done] | exists k; split; [lia | done]].
    + intros (u & Hu & Hz). destruct (decide (u = k)) as [->|]; [now right | left; exists u; split; [lia | done]].
Qed.

Lemma zero_flag_invertible s t :
  length s = n -> poly_ok n t -> (forall p, (p < n)%nat -> t !!! p ≡[Q] peval s (rho p)) ->
  let r := for_up 0 n (fun u r => r .| u32 (t !!! u - 1)) 0 in
  in_width 32 r /\ (Z.testbit r 31 = false <-> invertible s).
Proof.
  intros Hs Ht Htv. cbv zeta. destruct (zero_flag t Ht) as [Hw Hf]. split; [done|].
  rewrite invertible_iff, <- not_true_iff_false, Hf by done. split.
  - intros H p Hp H0. apply H. exists p. split; [done|]. apply in_q_zero; [now apply (poly_ok_lookup n) | now rewrite Htv].
  - intros H (u & Hu & Hz). apply (H u Hu). rewrite <- Htv, Hz by done. reflexivity.
Qed.

Lemma is_invertible_spec s2 :
  length s2 = n -> small s2 ->
  (is_invertible s2 logn = 1 <-> invertible s2) /\ (is_invertible s2 logn = 0 \/ is_invertible s2 logn = 1).
Proof.
  intros Hl Hs. unfold is_invertible. destruct (ntt_fill reduce_signed s2 reduce_signed_spec Hl Hs) as [Ht Htv].
  destruct (zero_flag_invertible s2 _ Hl Ht Htv) as [Hw Hf]. rewrite <- Hf.
  set (r := for_up 0 n _ 0) in *. rewrite top_bit in * by done. rewrite Z.shiftr_div_pow2 by lia. unfold in_width in Hw.
  destruct (Z.leb_spec (2 ^ 31) r).
  - replace (r / 2 ^ 31) with 1 by (apply (Z.div_unique _ _ _ (r - 2 ^ 31)); lia). split; [split; done | now left].
  - rewrite Z.div_small by lia. split; [split; done | now right].
Qed.

Lemma bit_cases b : bit b = 1 /\ b = true \/ bit b = 0 /\ b = false.
Proof. destruct b; auto. Qed.

Lemma recover_key c0 s1 :
  poly_ok n c0 -> length s1 = n -> small s1 ->
  poly_ok n (fill n (fun u => mq_sub (c0 !!! u) (reduce_signed (s1 !!! u)))) /\
  poly_cong (fill n (fun u => mq_sub (c0 !!! u) (reduce_signed (s1 !!! u)))) (psub c0 s1).
Proof.
  intros Hc0 Hl Hs. unfold small in Hs. rewrite Forall_lookup_total in Hs. pose proof Hc0 as [Hcl _].
  apply fill_spec; [unfold psub; rewrite length_zip_with; lia|]. intros k Hk.
  destruct (reduce_signed_spec (s1 !!! k) (Hs k ltac:(lia))) as [Hr Hrc].
  destruct (mq_sub_spec (c0 !!! k) _ (poly_ok_lookup n c0 k Hc0 Hk) Hr) as [Hm Hmc]. split; [done|].
  unfold psub. rewrite (lookup_total_zip_with _ _ _ _) by lia. now rewrite Hmc, Hrc.
Qed.

Lemma verify_recover_spec c0 s1 s2 :
  poly_ok n c0 -> length s1 = n -> small s1 -> length s2 = n -> small s2 ->
  let '(ret, h) := verify_recover c0 s1 s2 logn in
  poly_ok n h /\ (ret = 0 \/ ret = 1) /\
  (ret = 1 <-> invertible s2 /\ norm2 s1 + norm2 s2 <= l2bound !!! logn) /\
  (invertible s2 -> poly_cong (ring_mul n s2 h) (psub c0 s1)).
Proof.
  intros Hc0 Hl1 Hs1 Hl2 Hs2. unfold verify_recover.
  destruct (ntt_fill reduce_signed s2 reduce_signed_spec Hl2 Hs2) as [Ht Htv].
  destruct (recover_key c0 s1 Hc0 Hl1 Hs1) as [Hh Hhc]. destruct (mq_NTT_spec logn Hlogn _ Hh) as [Hn Hnv].
  set (tt := mq_NTT (fill n (fun u => reduce_signed _)) logn) in *. set (h0 := mq_NTT (fill n (fun u => mq_sub _ _)) logn) in *.
  rewrite (for_up_pair (fun u r => r .| u32 (tt !!! u - 1)) (fun u h => <[u := u16 (mq_div_12289 (h !!! u) (tt !!! u))]> h)).
  assert (forall k, (k < n)%nat -> in_q (mq_div_12289 (h0 !!! k) (tt !!! k)) /\
    (tt !!! k <> 0 -> mq_div_12289 (h0 !!! k) (tt !!! k) * tt !!! k ≡[Q] h0 !!! k)) as Hd.
  { intros k Hk. pose proof (poly_ok_lookup n h0 k Hn Hk). pose proof (poly_ok_lookup n tt k Ht Hk).
    split; [now apply mq_div_12289_pow | intros; now apply mq_div_12289_spec]. }
  destruct (elementwise_spec n (fun u v => mq_div_12289 v (tt !!! u)) h0) as [Hr Hrv]; [apply Hn | apply Hd |].
  set (r := for_up 0 n (fun u h => <[u := _]> h) h0) in *. destruct (mq_iNTT_spec logn Hlogn r Hr) as [Hi Hiv].
  destruct (zero_flag_invertible s2 tt Hl2 Ht Htv) as [Hw Hf]. set (fl := for_up 0 n _ 0) in *.
  split; [exact Hi|]. rewrite is_short_exact by (done || now apply small_i16).
  assert ((u32 (Z.lnot fl) .& u32 (- bit (norm2 s1 + norm2 s2 <=? l2bound !!! logn))) .>> 31 =
    bit (negb (Z.testbit fl 31) && (norm2 s1 + norm2 s2 <=? l2bound !!! logn))) as ->.
  { destruct (norm2 s1 + norm2 s2 <=? l2bound !!! logn); cbn [bit].
    - change (u32 (-(1))) with (Z.ones 32). change (u32 (Z.lnot fl) .& Z.ones 32) with (u32 (u32 (Z.lnot fl))).
      rewrite wrap_idem by lia. pose proof (wrap_range 32 (Z.lnot fl) ltac:(lia)) as Hwl.
      assert (Z.testbit (u32 (Z.lnot fl)) 31 = negb (Z.testbit fl 31)) as Htl
        by (rewrite wrap_testbit, Z.lnot_spec by lia; done).
      rewrite top_bit in Htl by done. rewrite andb_true_r, <- Htl, Z.shiftr_div_pow2 by lia. unfold in_width in Hwl.
      destruct (Z.leb_spec (2 ^ 31) (u32 (Z.lnot fl))).
      + symmetry. apply (Z.div_unique _ _ _ (u32 (Z.lnot fl) - 2 ^ 31)); cbn; lia.
      + apply Z.div_small. lia.
    - change (u32 (- 0)) with 0. now rewrite Z.land_0_r, andb_false_r. }
  split; [|split].
  - destruct (bit_cases (negb (Z.testbit fl 31) && (norm2 s1 + norm2 s2 <=? l2bound !!! logn))) as [[-> _]|[-> _]]; auto.
  - rewrite <- Hf, <- Z.leb_le. destruct (Z.testbit fl 31), (norm2 s1 + norm2 s2 <=? l2bound !!! logn); cbn; intuition congruence.
  - intros Hinv. apply (points_determine logn Hlogn); [apply length_ring_mul, Hi | unfold psub; rewrite length_zip_with; destruct Hc0; lia |].
    intros k Hk. rewrite ring_mul_values by (done || apply Hi). rewrite Hiv, Hrv by done.
    pose proof (proj1 (invertible_iff s2 Hl2) Hinv k Hk) as Hnz.
    rewrite <- Hhc, <- Hnv, <- Htv by done. rewrite Z.mul_comm. apply Hd; [done|].
    intros H0. apply Hnz. rewrite <- Htv, H0 by done. reflexivity.
Qed.

(** The number of zeros among the values. *)
Definition zero_values (s : list Z) : nat := length (filter (fun p => peval s (rho p) mod Q = 0)%Z (seq 0 n)).

Lemma count_nttzero_spec sig :
  length sig = n -> small sig -> count_nttzero sig logn = Z.of_nat (zero_values sig).
Proof.
  intros Hl Hs. unfold count_nttzero, zero_values.
  destruct (ntt_fill reduce_signed sig reduce_signed_spec Hl Hs) as [Ht Htv]. set (t := mq_NTT _ logn) in *.
  pose proof (n_bound logn Hlogn) as Hn.
  enough (forall k, (k <= n)%nat -> for_up 0 k (fun u r => u32 (r + (u32 (t !!! u - 1) .>> 31))) 0 =
    Z.of_nat (length (filter (fun p => peval sig (rho p) mod Q = 0)%Z (seq 0 k))) /\
    (length (filter (fun p => peval sig (rho p) mod Q = 0)%Z (seq 0 k)) <= k)%nat) as H by now apply H.
  induction k as [|k IH]; intros Hk; [done|]. destruct IH as [IH IHl]; [lia|].
  rewrite for_up_snoc, IH, seq_S by lia. rewrite filter_app, length_app, Nat2Z.inj_add. clear IH.
  set (c := length (filter _ (seq 0 k))) in *. cbn [Nat.add].
  pose proof (poly_ok_lookup n t k Ht ltac:(lia)) as Hq. pose proof (cong_canonical Q _ _ Hq (Htv k ltac:(lia))) as Hv.
  rewrite filter_cons, filter_nil, <- Hv. unfold in_q, Q in Hq.
  destruct (decide (t !!! k = 0)) as [->|Hne].
  - change (u32 (0 - 1) .>> 31) with 1. rewrite wrap_small by (unfold in_width; lia). cbn [length]. lia.
  - rewrite (wrap_small 32 (t !!! k - 1)) by (unfold in_width; lia). rewrite Z.shiftr_div_pow2, Z.div_small by lia.
    rewrite wrap_small by (unfold in_width; lia). cbn [length]. lia.
Qed.
End Verify.

(** * Properties *)

Lemma bit_decide a b : bit (a <=? b) = if decide (a <= b) then 1 else 0.
Proof. unfold bit. destruct (Z.leb_spec a b); case_decide; lia. Qed.

(** C2 (functional).  Signature verification decides the Falcon equation: for a hashed message c0, a
    signature s2 and a public key h in the representation [to_ntt_monty] produces, [verify_raw] returns
    1 exactly when (s1, s2), with s1 = c0 - s2 h modulo q and X^n + 1 taken in centred
    representatives, has a squared norm within the bound of the degree, and 0 otherwise. *)
Theorem verify_raw_correct (c0 s2 h : list Z) (logn : nat) :
  (logn <= 10)%nat -> poly_ok (2 ^ logn) c0 -> poly_ok (2 ^ logn) h ->
  length s2 = (2 ^ logn)%nat -> small s2 ->
  verify_raw c0 s2 (to_ntt_monty h logn) logn =
    if decide (norm2 (centered <$> psub c0 (ring_mul (2 ^ logn) s2 h)) + norm2 s2 <= l2bound !!! logn)
    then 1 else 0.
Proof. intros Hl Hc Hh Hs Hsm. rewrite verify_raw_spec by done. apply bit_decide. Qed.

Lemma verify_raw_correct_witness :
  poly_ok (2 ^ 2) [1; 2; 3; 4] /\ verify_raw [1; 2; 3; 4] [1; 0; -3; 2] (to_ntt_monty [5; 6; 7; 12288] 2) 2 = 1.
Proof.
  assert (poly_ok (2 ^ 2) [1; 2; 3; 4]) as H1 by (split; [reflexivity | unfold in_q; by_decide]).
  assert (poly_ok (2 ^ 2) [5; 6; 7; 12288]) as H2 by (split; [reflexivity | unfold in_q; by_decide]).
  assert (small [1; 0; -3; 2]) as H3 by (unfold small; by_decide).
  split; [exact H1|]. exact (verify_raw_correct [1; 2; 3; 4] [1; 0; -3; 2] [5; 6; 7; 12288] 2 ltac:(lia) H1 H2 eq_refl H3).
Defined.

(** Public-key computation is division in Z_q[X]/(X^n + 1): it fails exactly when f
    is not invertible there, and otherwise returns the one reduced h with f h = g. *)
Theorem compute_public_correct (f g : list Z) (logn : nat) :
  (logn <= 10)%nat -> length f = (2 ^ logn)%nat -> small f -> length g = (2 ^ logn)%nat -> small g ->
  (compute_public f g logn = None <-> ~ invertible logn f) /\
  (forall h, compute_public f g logn = Some h <->
     invertible logn f /\ poly_ok (2 ^ logn) h /\ poly_cong (ring_mul (2 ^ logn) f h) g).
Proof.
  intros Hl Hf Hfs Hg Hgs. pose proof (compute_public_spec logn Hl f g Hf Hfs Hg Hgs) as H.
  destruct (compute_public f g logn) as [h|].
  - destruct H as (Hi & Hh & Hc). split; [now split|]. intros h'. split.
    + intros E. injection E as <-. done.
    + intros (_ & Hh' & Hc'). f_equal. apply (poly_ok_eq (2 ^ logn)); [done | done |].
      apply (division_unique logn Hl f h h' g); apply Hh || apply Hh' || done.
  - split; [done|]. intros h. split; [done|]. intros (Hi & _). done.
Qed.

Lemma compute_public_correct_witness :
  small [1; 1; 0; 0] /\ invertible 2 [1; 1; 0; 0] /\
  poly_cong (ring_mul 4 [1; 1; 0; 0] [6146; 6143; 6146; 6144]) [2; 0; 0; 1].
Proof.
  assert (small [1; 1; 0; 0]) as H1 by (unfold small; by_decide).
  assert (small [2; 0; 0; 1]) as H2 by (unfold small; by_decide). split; [exact H1|].
  destruct (proj1 (proj2 (compute_public_correct [1; 1; 0; 0] [2; 0; 0; 1] 2 ltac:(lia) eq_refl H1 eq_refl H2)
    [6146; 6143; 6146; 6144]) ltac:(vm_compute; reflexivity)) as (Hi & _ & Hc).
  split; [exact Hi | exact Hc].
Defined.

(** Private-key completion recovers G: [complete_private] returns G exactly when f is
    invertible modulo q and X^n + 1 and G is the vector with coefficients in -127..127 such that
    f G = g F there; it fails in every other case. *)
Theorem complete_private_correct (f g F G : list Z) (logn : nat) :
  (logn <= 10)%nat -> length f = (2 ^ logn)%nat -> small f -> length g = (2 ^ logn)%nat -> small g ->
  length F = (2 ^ logn)%nat -> small F ->
  complete_private f g F logn = Some G <->
  invertible logn f /\ length G = (2 ^ logn)%nat /\ Forall (fun c => -127 <= c <= 127) G /\
  poly_cong (ring_mul (2 ^ logn) f G) (ring_mul (2 ^ logn) g F).
Proof. intros Hl Hf Hfs Hg Hgs HF HFs. now apply complete_private_iff. Qed.

Lemma complete_private_correct_witness :
  small [1; 1; 0; 0] /\
  poly_cong (ring_mul 4 [1; 1; 0; 0] [4; -4; 6; -2]) (ring_mul 4 [2; 0; 0; 2] [3; 0; 0; -1]).
Proof.
  assert (small [1; 1; 0; 0]) as H1 by (unfold small; by_decide).
  assert (small [2; 0; 0; 2]) as H2 by (unfold small; by_decide).
  assert (small [3; 0; 0; -1]) as H3 by (unfold small; by_decide). split; [exact H1|].
  destruct (proj1 (complete_private_correct [1; 1; 0; 0] [2; 0; 0; 2] [3; 0; 0; -1] [4; -4; 6; -2] 2
    ltac:(lia) eq_refl H1 eq_refl H2 eq_refl H3) ltac:(vm_compute; reflexivity)) as (_ & _ & _ & Hc).
  exact Hc.
Defined.

(** The two tests on the transformed signature: [is_invertible] returns 1 when s2 has
    an inverse modulo q and X^n + 1 and 0 otherwise, and [count_nttzero] returns the number of roots of
    X^n + 1 at which s2 vanishes, so that it is zero exactly for invertible s2. *)
Theorem invertibility_tests_correct (s2 : list Z) (logn : nat) :
  (logn <= 10)%nat -> length s2 = (2 ^ logn)%nat -> small s2 ->
  (is_invertible s2 logn = 1 <-> invertible logn s2) /\
  (is_invertible s2 logn = 0 <-> ~ invertible logn s2) /\
  count_nttzero s2 logn = Z.of_nat (zero_values logn s2) /\
  (count_nttzero s2 logn = 0 <-> is_invertible s2 logn = 1).
Proof.
  intros Hl Hs Hsm. destruct (is_invertible_spec logn Hl s2 Hs Hsm) as [H1 H01].
  pose proof (count_nttzero_spec logn Hl s2 Hs Hsm) as Hc. split; [done|].
  split; [destruct H01 as [H0|H0]; rewrite H0 in *; intuition congruence|]. split; [done|].
  rewrite Hc, H1, (invertible_iff logn Hl s2 Hs). unfold zero_values.
  transitivity (filter (fun p => peval s2 (root (2 ^ logn + p)) mod Q = 0)%Z (seq 0 (2 ^ logn)) = []).
  { split; [intros H; apply nil_length_inv; lia | intros ->; done]. }
  split.
  - intros Hf p Hp H0. assert (p ∈ filter (fun p => peval s2 (root (2 ^ logn + p)) mod Q = 0)%Z (seq 0 (2 ^ logn))) as Hin.
    { apply list_elem_of_filter. split; [|apply elem_of_seq; lia]. apply cong_mod_iff in H0; [|unfold Q; lia].
      now rewrite Z.mod_0_l in H0 by (unfold Q; lia). }
    rewrite Hf in Hin. now apply not_elem_of_nil in Hin.
  - intros H. apply elem_of_nil_inv. intros p [H0 Hin%elem_of_seq]%list_elem_of_filter.
    apply (H p ltac:(lia)). apply cong_mod_iff; [unfold Q; lia|]. now rewrite H0.
Qed.

Lemma invertibility_tests_correct_witness :
  small [1; 0; -3; 2] /\ invertible 2 [1; 0; -3; 2] /\ ~ invertible 2 [0; 0; 0; 0].
Proof.
  assert (small [1; 0; -3; 2]) as H1 by (unfold small; by_decide).
  assert (small [0; 0; 0; 0]) as H2 by (unfold small; by_decide). split; [exact H1|].
  destruct (invertibility_tests_correct [1; 0; -3; 2] 2 ltac:(lia) eq_refl H1) as (Hi & _).
  destruct (invertibility_tests_correct [0; 0; 0; 0] 2 ltac:(lia) eq_refl H2) as (_ & Hn & _).
  split; [apply Hi; vm_compute; reflexivity | apply Hn; vm_compute; reflexivity].
Defined.

Lemma norm2_coefficient s k : (k < length s)%nat -> (s !!! k) * (s !!! k) <= norm2 s.
Proof.
  intros Hk. rewrite <- (take_drop k s) at 3. rewrite (drop_S s (s !!! k) k) by now apply list_lookup_lookup_total_lt.
  assert (forall a b, norm2 (a ++ b) = norm2 a + norm2 b) as Happ.
  { intros a b. induction a as [|z a IH]; [done|]. simpl. fold (norm2 (a ++ b)) (norm2 a). rewrite IH. ring. }
  rewrite Happ. pose proof (norm2_nonneg (take k s)). pose proof (norm2_nonneg (drop (S k) s)).
  change (norm2 (s !!! k :: drop (S k) s)) with ((s !!! k) * (s !!! k) + norm2 (drop (S k) s)). lia.
Qed.

Lemma bound_centered logn : (logn <= 9)%nat -> l2bound !!! logn < 6145 * 6145.
Proof. intros H. do 10 (destruct logn as [|logn]; [by_decide|]). lia. Qed.

(** Recovery and verification agree, up to degree 512: when [verify_recover] accepts
    (c0, s1, s2) and rebuilds the key h, [verify_raw] accepts the signature s2 of c0 under that key. *)
Lemma recover_then_verify (c0 s1 s2 h : list Z) (logn : nat) :
  (logn <= 9)%nat -> poly_ok (2 ^ logn) c0 -> length s1 = (2 ^ logn)%nat -> small s1 ->
  length s2 = (2 ^ logn)%nat -> small s2 ->
  verify_recover c0 s1 s2 logn = (1, h) -> verify_raw c0 s2 (to_ntt_monty h logn) logn = 1.
Proof.
  intros Hl9 Hc Hl1 Hs1 Hl2 Hs2 E. assert (logn <= 10)%nat as Hl by lia.
  pose proof (verify_recover_spec logn Hl c0 s1 s2 Hc Hl1 Hs1 Hl2 Hs2) as H. rewrite E in H.
  destruct H as (Hh & _ & Hret & Hkey). destruct (proj1 Hret eq_refl) as [Hi Hn]. specialize (Hkey Hi).
  rewrite verify_raw_spec by done.
  assert (centered <$> psub c0 (ring_mul (2 ^ logn) s2 h) = s1) as ->.
  { pose proof (length_ring_mul (2 ^ logn) s2 h ltac:(apply Hh)) as Hrl. destruct Hc as [Hcl _].
    apply list_eq_total; [rewrite length_fmap; unfold psub; rewrite length_zip_with; lia|].
    intros k Hk. rewrite length_fmap in Hk. unfold psub in *. rewrite length_zip_with in Hk.
    rewrite (@list_lookup_total_fmap Z Z centered _ _) by (rewrite length_zip_with; lia).
    rewrite (lookup_total_zip_with _ _ _ _) by lia. symmetry. apply centered_unique.
    - pose proof (norm2_coefficient s1 k ltac:(lia)). pose proof (norm2_nonneg s2).
      pose proof (bound_centered logn Hl9). nia.
    - pose proof (poly_cong_at _ _ k Hkey ltac:(lia)) as Hkk. rewrite (lookup_total_zip_with _ _ _ _) in Hkk by lia.
      rewrite Hkk. apply (cong_intro _ _ _ 0). ring. }
  rewrite bit_decide. now case_decide.
Qed.

(** Key recovery: [verify_recover] returns 1 exactly when s2 is invertible and (s1, s2)
    is within the norm bound, 0 otherwise; whenever s2 is invertible the key it rebuilds is the one reduced h
    with s2 h = c0 - s1; and, up to degree 512, when it returns 1 [verify_raw] accepts the signature s2 of
    c0 under that key. *)
Theorem verify_recover_correct (c0 s1 s2 : list Z) (logn : nat) :
  (logn <= 10)%nat -> poly_ok (2 ^ logn) c0 -> length s1 = (2 ^ logn)%nat -> small s1 ->
  length s2 = (2 ^ logn)%nat -> small s2 ->
  let '(ret, h) := verify_recover c0 s1 s2 logn in
  (ret = 0 \/ ret = 1) /\
  (ret = 1 <-> invertible logn s2 /\ norm2 s1 + norm2 s2 <= l2bound !!! logn) /\
  (invertible logn s2 -> forall h', h' = h <->
     poly_ok (2 ^ logn) h' /\ poly_cong (ring_mul (2 ^ logn) s2 h') (psub c0 s1)) /\
  ((logn <= 9)%nat -> ret = 1 -> verify_raw c0 s2 (to_ntt_monty h logn) logn = 1).
Proof.
  intros Hl Hc Hl1 Hs1 Hl2 Hs2. pose proof (verify_recover_spec logn Hl c0 s1 s2 Hc Hl1 Hs1 Hl2 Hs2) as H.
  destruct (verify_recover c0 s1 s2 logn) as [ret h] eqn:E. destruct H as (Hh & H01 & Hret & Hkey).
  split; [done|]. split; [done|].
  split; [|intros Hl9 ->; exact (recover_then_verify c0 s1 s2 h logn Hl9 Hc Hl1 Hs1 Hl2 Hs2 E)].
  intros Hi h'. split; [intros ->; split; [done | now apply Hkey]|].
  intros [Hh' Hc']. apply (poly_ok_eq (2 ^ logn)); [done | done |].
  apply (division_unique logn Hl s2 h' h (psub c0 s1)); apply Hh || apply Hh' || (now apply Hkey) || done.
Qed.

Lemma verify_recover_correct_witness :
  poly_ok (2 ^ 2) [1; 2; 3; 4] /\ small [1; 0; -3; 2] /\ small [7; 0; -5; 1] /\
  exists h, verify_recover [1; 2; 3; 4] [7; 0; -5; 1] [1; 0; -3; 2] 2 = (1, h) /\ invertible 2 [1; 0; -3; 2].
Proof.
  assert (poly_ok (2 ^ 2) [1; 2; 3; 4]) as H1 by (split; [reflexivity | unfold in_q; by_decide]).
  assert (small [1; 0; -3; 2]) as H2 by (unfold small; by_decide).
  assert (small [7; 0; -5; 1]) as H3 by (unfold small; by_decide).
  split; [exact H1|]. split; [exact H2|]. split; [exact H3|].
  pose proof (verify_recover_correct [1; 2; 3; 4] [7; 0; -5; 1] [1; 0; -3; 2] 2 ltac:(lia) H1 eq_refl H3 eq_refl H2) as H.
  exists (verify_recover [1; 2; 3; 4] [7; 0; -5; 1] [1; 0; -3; 2] 2).2. split; [vm_compute; reflexivity|].
  destruct (verify_recover [1; 2; 3; 4] [7; 0; -5; 1] [1; 0; -3; 2] 2) as [ret h] eqn:E.
  destruct H as (_ & Hr & _). apply Hr.
  transitivity (verify_recover [1; 2; 3; 4] [7; 0; -5; 1] [1; 0; -3; 2] 2).1; [now rewrite E | vm_compute; reflexivity].
Defined.
