(* ===== verification/Keccak.v ===== *)
(** Keccak: the permutation Keccak-f[1600] of [fips202.c].

    [KeccakF1600_StatePermute] is the unrolled code, two rounds per iteration, each statement a [let];
    the reference [keccak_f] is the round of the standard on 25 lanes, with the rotation offsets and
    the round constants computed by the standard's recurrences. *)

From Stdlib Require Import ZArith Lia.
From stdpp Require Import base numbers list.
From S2P Require Import Prelude.

(** * The code *)

Definition NROUNDS : nat := 24.

(** [ROL], on 64-bit words. *)
Definition ROL (a offset : Z) : Z := u64 (a .<< offset) .^ (a .>> (64 - offset)).

(** [~a] on 64-bit words. *)
Definition not64 (a : Z) : Z := u64 (Z.lnot a).

(** [load64]: eight bytes, little-endian. *)
Definition load64 (x : list Z) : Z :=
  for_up 0 8 (fun i r => r .| u64 ((x !!! i) .<< (8 * Z.of_nat i))) 0.

(** [store64]: the eight bytes written. *)
Definition store64 (u : Z) : list Z :=
  (fun i => u8 (u .>> (8 * Z.of_nat i))) <$> seq 0 8.

Definition KeccakF_RoundConstants : list Z :=
  [0x0000000000000001; 0x0000000000008082; 0x800000000000808a; 0x8000000080008000;
   0x000000000000808b; 0x0000000080000001; 0x8000000080008081; 0x8000000000008009;
   0x000000000000008a; 0x0000000000000088; 0x0000000080008009; 0x000000008000000a;
   0x000000008000808b; 0x800000000000008b; 0x8000000000008089; 0x8000000000008003;
   0x8000000000008002; 0x8000000000000080; 0x000000000000800a; 0x800000008000000a;
   0x8000000080008081; 0x8000000000008080; 0x0000000080000001; 0x8000000080008008].

(** The 25 local variables [Aba] .. [Asu]. *)
Definition lanes : Type :=
  Z * Z * Z * Z * Z * Z * Z * Z * Z * Z * Z * Z * Z * Z * Z * Z * Z * Z * Z * Z * Z * Z * Z * Z * Z.

(** [thetaRhoPiChiIotaPrepareTheta(round, A, E)]. *)
Definition keccak_round_AE (round : nat) (s : lanes) : lanes :=
  let '(Aba, Abe, Abi, Abo, Abu,
   Aga, Age, Agi, Ago, Agu,
   Aka, Ake, Aki, Ako, Aku,
   Ama, Ame, Ami, Amo, Amu,
   Asa, Ase, Asi, Aso, Asu) := s in
  let BCa := Aba .^ Aga .^ Aka .^ Ama .^ Asa in
  let BCe := Abe .^ Age .^ Ake .^ Ame .^ Ase in
  let BCi := Abi .^ Agi .^ Aki .^ Ami .^ Asi in
  let BCo := Abo .^ Ago .^ Ako .^ Amo .^ Aso in
  let BCu := Abu .^ Agu .^ Aku .^ Amu .^ Asu in
  let Da := BCu .^ ROL BCe 1 in
  let De := BCa .^ ROL BCi 1 in
  let Di := BCe .^ ROL BCo 1 in
  let Do := BCi .^ ROL BCu 1 in
  let Du := BCo .^ ROL BCa 1 in
  let Aba := Aba .^ Da in
  let BCa := Aba in
  let Age := Age .^ De in
  let BCe := ROL Age 44 in
  let Aki := Aki .^ Di in
  let BCi := ROL Aki 43 in
  let Amo := Amo .^ Do in
  let BCo := ROL Amo 21 in
  let Asu := Asu .^ Du in
  let BCu := ROL Asu 14 in
  let Eba := BCa .^ (not64 BCe .& BCi) in
  let Eba := Eba .^ (KeccakF_RoundConstants !!! round) in
  let Ebe := BCe .^ (not64 BCi .& BCo) in
  let Ebi := BCi .^ (not64 BCo .& BCu) in
  let Ebo := BCo .^ (not64 BCu .& BCa) in
  let Ebu := BCu .^ (not64 BCa .& BCe) in
  let Abo := Abo .^ Do in
  let BCa := ROL Abo 28 in
  let Agu := Agu .^ Du in
  let BCe := ROL Agu 20 in
  let Aka := Aka .^ Da in
  let BCi := ROL Aka 3 in
  let Ame := Ame .^ De in
  let BCo := ROL Ame 45 in
  let Asi := Asi .^ Di in
  let BCu := ROL Asi 61 in
  let Ega := BCa .^ (not64 BCe .& BCi) in
  let Ege := BCe .^ (not64 BCi .& BCo) in
  let Egi := BCi .^ (not64 BCo .& BCu) in
  let Ego := BCo .^ (not64 BCu .& BCa) in
  let Egu := BCu .^ (not64 BCa .& BCe) in
  let Abe := Abe .^ De in
  let BCa := ROL Abe 1 in
  let Agi := Agi .^ Di in
  let BCe := ROL Agi 6 in
  let Ako := Ako .^ Do in
  let BCi := ROL Ako 25 in
  let Amu := Amu .^ Du in
  let BCo := ROL Amu 8 in
  let Asa := Asa .^ Da in
  let BCu := ROL Asa 18 in
  let Eka := BCa .^ (not64 BCe .& BCi) in
  let Eke := BCe .^ (not64 BCi .& BCo) in
  let Eki := BCi .^ (not64 BCo .& BCu) in
  let Eko := BCo .^ (not64 BCu .& BCa) in
  let Eku := BCu .^ (not64 BCa .& BCe) in
  let Abu := Abu .^ Du in
  let BCa := ROL Abu 27 in
  let Aga := Aga .^ Da in
  let BCe := ROL Aga 36 in
  let Ake := Ake .^ De in
  let BCi := ROL Ake 10 in
  let Ami := Ami .^ Di in
  let BCo := ROL Ami 15 in
  let Aso := Aso .^ Do in
  let BCu := ROL Aso 56 in
  let Ema := BCa .^ (not64 BCe .& BCi) in
  let Eme := BCe .^ (not64 BCi .& BCo) in
  let Emi := BCi .^ (not64 BCo .& BCu) in
  let Emo := BCo .^ (not64 BCu .& BCa) in
  let Emu := BCu .^ (not64 BCa .& BCe) in
  let Abi := Abi .^ Di in
  let BCa := ROL Abi 62 in
  let Ago := Ago .^ Do in
  let BCe := ROL Ago 55 in
  let Aku := Aku .^ Du in
  let BCi := ROL Aku 39 in
  let Ama := Ama .^ Da in
  let BCo := ROL Ama 41 in
  let Ase := Ase .^ De in
  let BCu := ROL Ase 2 in
  let Esa := BCa .^ (not64 BCe .& BCi) in
  let Ese := BCe .^ (not64 BCi .& BCo) in
  let Esi := BCi .^ (not64 BCo .& BCu) in
  let Eso := BCo .^ (not64 BCu .& BCa) in
  let Esu := BCu .^ (not64 BCa .& BCe) in
  (Eba, Ebe, Ebi, Ebo, Ebu,
   Ega, Ege, Egi, Ego, Egu,
   Eka, Eke, Eki, Eko, Eku,
   Ema, Eme, Emi, Emo, Emu,
   Esa, Ese, Esi, Eso, Esu).

(** [thetaRhoPiChiIotaPrepareTheta(round + 1, E, A)]. *)
Definition keccak_round_EA (round : nat) (s : lanes) : lanes :=
  let '(Eba, Ebe, Ebi, Ebo, Ebu,
   Ega, Ege, Egi, Ego, Egu,
   Eka, Eke, Eki, Eko, Eku,
   Ema, Eme, Emi, Emo, Emu,
   Esa, Ese, Esi, Eso, Esu) := s in
  let BCa := Eba .^ Ega .^ Eka .^ Ema .^ Esa in
  let BCe := Ebe .^ Ege .^ Eke .^ Eme .^ Ese in
  let BCi := Ebi .^ Egi .^ Eki .^ Emi .^ Esi in
  let BCo := Ebo .^ Ego .^ Eko .^ Emo .^ Eso in
  let BCu := Ebu .^ Egu .^ Eku .^ Emu .^ Esu in
  let Da := BCu .^ ROL BCe 1 in
  let De := BCa .^ ROL BCi 1 in
  let Di := BCe .^ ROL BCo 1 in
  let Do := BCi .^ ROL BCu 1 in
  let Du := BCo .^ ROL BCa 1 in
  let Eba := Eba .^ Da in
  let BCa := Eba in
  let Ege := Ege .^ De in
  let BCe := ROL Ege 44 in
  let Eki := Eki .^ Di in
  let BCi := ROL Eki 43 in
  let Emo := Emo .^ Do in
  let BCo := ROL Emo 21 in
  let Esu := Esu .^ Du in
  let BCu := ROL Esu 14 in
  let Aba := BCa .^ (not64 BCe .& BCi) in
  let Aba := Aba .^ (KeccakF_RoundConstants !!! (round + 1)%nat) in
  let Abe := BCe .^ (not64 BCi .& BCo) in
  let Abi := BCi .^ (not64 BCo .& BCu) in
  let Abo := BCo .^ (not64 BCu .& BCa) in
  let Abu := BCu .^ (not64 BCa .& BCe) in
  let Ebo := Ebo .^ Do in
  let BCa := ROL Ebo 28 in
  let Egu := Egu .^ Du in
  let BCe := ROL Egu 20 in
  let Eka := Eka .^ Da in
  let BCi := ROL Eka 3 in
  let Eme := Eme .^ De in
  let BCo := ROL Eme 45 in
  let Esi := Esi .^ Di in
  let BCu := ROL Esi 61 in
  let Aga := BCa .^ (not64 BCe .& BCi) in
  let Age := BCe .^ (not64 BCi .& BCo) in
  let Agi := BCi .^ (not64 BCo .& BCu) in
  let Ago := BCo .^ (not64 BCu .& BCa) in
  let Agu := BCu .^ (not64 BCa .& BCe) in
  let Ebe := Ebe .^ De in
  let BCa := ROL Ebe 1 in
  let Egi := Egi .^ Di in
  let BCe := ROL Egi 6 in
  let Eko := Eko .^ Do in
  let BCi := ROL Eko 25 in
  let Emu := Emu .^ Du in
  let BCo := ROL Emu 8 in
  let Esa := Esa .^ Da in
  let BCu := ROL Esa 18 in
  let Aka := BCa .^ (not64 BCe .& BCi) in
  let Ake := BCe .^ (not64 BCi .& BCo) in
  let Aki := BCi .^ (not64 BCo .& BCu) in
  let Ako := BCo .^ (not64 BCu .& BCa) in
  let Aku := BCu .^ (not64 BCa .& BCe) in
  let Ebu := Ebu .^ Du in
  let BCa := ROL Ebu 27 in
  let Ega := Ega .^ Da in
  let BCe := ROL Ega 36 in
  let Eke := Eke .^ De in
  let BCi := ROL Eke 10 in
  let Emi := Emi .^ Di in
  let BCo := ROL Emi 15 in
  let Eso := Eso .^ Do in
  let BCu := ROL Eso 56 in
  let Ama := BCa .^ (not64 BCe .& BCi) in
  let Ame := BCe .^ (not64 BCi .& BCo) in
  let Ami := BCi .^ (not64 BCo .& BCu) in
  let Amo := BCo .^ (not64 BCu .& BCa) in
  let Amu := BCu .^ (not64 BCa .& BCe) in
  let Ebi := Ebi .^ Di in
  let BCa := ROL Ebi 62 in
  let Ego := Ego .^ Do in
  let BCe := ROL Ego 55 in
  let Eku := Eku .^ Du in
  let BCi := ROL Eku 39 in
  let Ema := Ema .^ Da in
  let BCo := ROL Ema 41 in
  let Ese := Ese .^ De in
  let BCu := ROL Ese 2 in
  let Asa := BCa .^ (not64 BCe .& BCi) in
  let Ase := BCe .^ (not64 BCi .& BCo) in
  let Asi := BCi .^ (not64 BCo .& BCu) in
  let Aso := BCo .^ (not64 BCu .& BCa) in
  let Asu := BCu .^ (not64 BCa .& BCe) in
  (Aba, Abe, Abi, Abo, Abu,
   Aga, Age, Agi, Ago, Agu,
   Aka, Ake, Aki, Ako, Aku,
   Ama, Ame, Ami, Amo, Amu,
   Asa, Ase, Asi, Aso, Asu).

Definition copyFromState (state : list Z) : lanes :=
  (state !!! 0%nat, state !!! 1%nat, state !!! 2%nat, state !!! 3%nat, state !!! 4%nat,
   state !!! 5%nat, state !!! 6%nat, state !!! 7%nat, state !!! 8%nat, state !!! 9%nat,
   state !!! 10%nat, state !!! 11%nat, state !!! 12%nat, state !!! 13%nat, state !!! 14%nat,
   state !!! 15%nat, state !!! 16%nat, state !!! 17%nat, state !!! 18%nat, state !!! 19%nat,
   state !!! 20%nat, state !!! 21%nat, state !!! 22%nat, state !!! 23%nat, state !!! 24%nat).

Definition copyToState (s : lanes) : list Z :=
  let '(Aba, Abe, Abi, Abo, Abu,
   Aga, Age, Agi, Ago, Agu,
   Aka, Ake, Aki, Ako, Aku,
   Ama, Ame, Ami, Amo, Amu,
   Asa, Ase, Asi, Aso, Asu) := s in
  [Aba; Abe; Abi; Abo; Abu;
   Aga; Age; Agi; Ago; Agu;
   Aka; Ake; Aki; Ako; Aku;
   Ama; Ame; Ami; Amo; Amu;
   Asa; Ase; Asi; Aso; Asu].

(** [for (round = 0; round < NROUNDS; round += 2)]. *)
Definition KeccakF1600_StatePermute (state : list Z) : list Z :=
  copyToState
    (for_up 0 (NROUNDS / 2) (fun i s =>
       let round := (2 * i)%nat in keccak_round_EA round (keccak_round_AE round s))
     (copyFromState state)).

(** * The reference *)

Definition lane (s : list Z) (x y : nat) : Z := s !!! (x mod 5 + 5 * (y mod 5))%nat.

Definition build (f : nat -> nat -> Z) : list Z :=
  (fun i => f (i mod 5)%nat (i / 5)%nat) <$> seq 0 25.

Definition rot (a : Z) (offset : nat) : Z := if (offset =? 0)%nat then a else ROL a (Z.of_nat offset).

(** Rotation offsets: t (t + 1) / 2 along the walk (x, y) -> (y, 2x + 3y) from (1, 0). *)
Fixpoint offset_walk (n t x y : nat) (x' y' : nat) : nat :=
  match n with
  | O => 0
  | S n =>
      if ((x =? x') && (y =? y'))%nat then ((t + 1) * (t + 2) / 2 mod 64)%nat
      else offset_walk n (S t) y ((2 * x + 3 * y) mod 5) x' y'
  end.
Definition offset (x y : nat) : nat := offset_walk 24 0 1 0 x y.

(** Round constants: the bits of the feedback register x^8 + x^6 + x^5 + x^4 + 1. *)
Fixpoint lfsr (t : nat) : Z :=
  match t with
  | O => 1
  | S t => let r := lfsr t .<< 1 in if Z.testbit r 8 then r .^ 0x171 else r
  end.
Definition round_constant (i : nat) : Z :=
  foldr (fun j acc => acc + (if Z.testbit (lfsr (j + 7 * i)) 0 then 2 ^ (2 ^ Z.of_nat j - 1) else 0)) 0 (seq 0 7).

Definition theta_column (s : list Z) (x : nat) : Z :=
  lane s x 0 .^ lane s x 1 .^ lane s x 2 .^ lane s x 3 .^ lane s x 4.

Definition theta (s : list Z) : list Z :=
  build (fun x y => lane s x y .^ (theta_column s (x + 4) .^ ROL (theta_column s (x + 1)) 1)).

(** Lane (x, y) moves to (y, 2x + 3y), rotated. *)
Definition rho_pi (s : list Z) : list Z :=
  build (fun x y => rot (lane s (x + 3 * y) x) (offset ((x + 3 * y) mod 5) x)).

Definition chi (s : list Z) : list Z :=
  build (fun x y => lane s x y .^ (not64 (lane s (x + 1) y) .& lane s (x + 2) y)).

Definition iota (rc : Z) (s : list Z) : list Z := <[0%nat := (s !!! 0%nat) .^ rc]> s.

Definition keccak_round (i : nat) (s : list Z) : list Z :=
  iota (round_constant i) (chi (rho_pi (theta s))).

Definition keccak_f (s : list Z) : list Z := foldl (fun s i => keccak_round i s) s (seq 0 24).

Lemma round_constants_correct : KeccakF_RoundConstants = round_constant <$> seq 0 24.
Proof. vm_compute. reflexivity. Qed.

(** The round with an explicit constant. *)
Definition keccak_round_rc (rc : Z) (s : list Z) : list Z := iota rc (chi (rho_pi (theta s))).

Lemma round_AE_correct r s :
  copyToState (keccak_round_AE r s) = keccak_round_rc (KeccakF_RoundConstants !!! r) (copyToState s).
Proof.
  destruct s as [[[[[[[[[[[[[[[[[[[[[[[[? ?] ?] ?] ?] ?] ?] ?] ?] ?] ?] ?] ?] ?] ?] ?] ?] ?] ?] ?] ?] ?] ?] ?] ?].
  unfold keccak_round_AE. generalize (KeccakF_RoundConstants !!! r) as rc. intros rc. reflexivity.
Qed.

Lemma round_EA_correct r s :
  copyToState (keccak_round_EA r s) = keccak_round_rc (KeccakF_RoundConstants !!! (r + 1)%nat) (copyToState s).
Proof.
  destruct s as [[[[[[[[[[[[[[[[[[[[[[[[? ?] ?] ?] ?] ?] ?] ?] ?] ?] ?] ?] ?] ?] ?] ?] ?] ?] ?] ?] ?] ?] ?] ?] ?].
  unfold keccak_round_EA. generalize (KeccakF_RoundConstants !!! (r + 1)%nat) as rc. intros rc. reflexivity.
Qed.

Lemma copy_copy state : length state = 25%nat -> copyToState (copyFromState state) = state.
Proof.
  intros Hl. do 25 (destruct state as [|? state]; [done|]). destruct state; [reflexivity | done].
Qed.

Lemma copyToState_length s : length (copyToState s) = 25%nat.
Proof. destruct s as [[[[[[[[[[[[[[[[[[[[[[[[? ?] ?] ?] ?] ?] ?] ?] ?] ?] ?] ?] ?] ?] ?] ?] ?] ?] ?] ?] ?] ?] ?] ?] ?]. reflexivity. Qed.

Lemma round_rc i s : (i < 24)%nat -> keccak_round_rc (KeccakF_RoundConstants !!! i) s = keccak_round i s.
Proof.
  intros Hi. unfold keccak_round. rewrite round_constants_correct.
  rewrite (@list_lookup_total_fmap nat Z round_constant _ _) by (rewrite length_seq; lia).
  rewrite lookup_total_seq_lt by done. reflexivity.
Qed.

Lemma permute_length state : length (KeccakF1600_StatePermute state) = 25%nat.
Proof. apply copyToState_length. Qed.

Lemma permute_spec state : length state = 25%nat -> KeccakF1600_StatePermute state = keccak_f state.
Proof.
  intros Hl. unfold KeccakF1600_StatePermute, keccak_f. change 24%nat with (2 * (NROUNDS / 2))%nat.
  apply (for_up_inv _ (fun i s => copyToState s = foldl (fun s i => keccak_round i s) state (seq 0 (2 * i)))).
  - lia.
  - now apply copy_copy.
  - intros k s Hk IH. change (NROUNDS / 2)%nat with 12%nat in Hk. cbv zeta.
    rewrite round_EA_correct, round_AE_correct, IH, !round_rc by lia.
    replace (2 * S k)%nat with (S (S (2 * k))) by lia. rewrite !seq_S, !foldl_app. cbn [foldl].
    now replace (2 * k + 1)%nat with (S (2 * k)) by lia.
Qed.

(** * The property of the layer *)

(** C22 (equivalence).  The unrolled permutation is Keccak-f[1600]: on any 25-lane state it applies the 24
    rounds iota, chi, pi, rho, theta of the standard, with the rotation offsets of the standard's walk
    and the round constants of its feedback register. *)
Theorem keccak_permutation_correct (state : list Z) :
  length state = 25%nat -> KeccakF1600_StatePermute state = keccak_f state.
Proof. exact (permute_spec state). Qed.

Lemma keccak_permutation_correct_witness :
  KeccakF1600_StatePermute (replicate 25 0) !!! 0%nat = 0xF1258F7940E1DDE7 /\
  KeccakF1600_StatePermute (replicate 25 0) = keccak_f (replicate 25 0).
Proof. split; [vm_compute; reflexivity | exact (keccak_permutation_correct (replicate 25 0) eq_refl)]. Defined.
