(* ===== verification/Shake.v ===== *)
(** Shake: the sponges of [fips202.c], incremental and one-shot.

    An incremental context is the array [s_inc] of the code: its 25 lanes and the 26th word, the byte
    count.  [malloc] is taken to succeed (on failure the program exits).  Loops on byte counts run on
    fuel and return [None] when it runs out, which the theorems exclude.  The reference is the
    byte-wise sponge [absorb_byte] / [squeeze_byte]. *)

From Stdlib Require Import ZArith Lia.
From stdpp Require Import base numbers list option.
From S2P Require Import Prelude NumberTheory Keccak.

Definition SHAKE128_RATE : nat := 168.
Definition SHAKE256_RATE : nat := 136.
Definition SHA3_256_RATE : nat := 136.
Definition SHA3_384_RATE : nat := 104.
Definition SHA3_512_RATE : nat := 72.

(** * Incremental operations *)

(** [uint64_t ctx[26]]: the lanes and [s_inc[25]]. *)
Record inc_ctx := mk_inc { inc_s : list Z; inc_count : nat }.

(** [s_inc[pos >> 3] ^= (uint64_t)b << (8 * (pos & 0x07))]. *)
Definition xor_byte (s : list Z) (pos : nat) (b : Z) : list Z :=
  <[(pos / 8)%nat := (s !!! (pos / 8)%nat) .^ u64 (b .<< (8 * Z.of_nat (pos mod 8)))]> s.

(** [(uint8_t)(s_inc[pos >> 3] >> (8 * (pos & 0x07)))]. *)
Definition get_byte (s : list Z) (pos : nat) : Z :=
  u8 ((s !!! (pos / 8)%nat) .>> (8 * Z.of_nat (pos mod 8))).

Definition keccak_inc_init : inc_ctx := mk_inc (replicate 25 0) 0.

(** [while (mlen + s_inc[25] >= r)]; [m] is the unread part of the message. *)
Fixpoint inc_absorb_loop (fuel r : nat) (s : list Z) (c : nat) (m : list Z) : option (list Z * nat * list Z) :=
  if (r <=? length m + c)%nat then
    match fuel with
    | O => None
    | S fuel =>
        let s := for_up 0 (r - c) (fun i s => xor_byte s (c + i) (m !!! i)) s in
        let m := drop (r - c) m in
        let c := 0%nat in
        let s := KeccakF1600_StatePermute s in
        inc_absorb_loop fuel r s c m
    end
  else Some (s, c, m).

Definition keccak_inc_absorb (ctx : inc_ctx) (r : nat) (m : list Z) : option inc_ctx :=
  '(s, c, m) ← inc_absorb_loop (S (length m)) r (inc_s ctx) (inc_count ctx) m;
  let s := for_up 0 (length m) (fun i s => xor_byte s (c + i) (m !!! i)) s in
  Some (mk_inc s (c + length m)).

Definition keccak_inc_finalize (ctx : inc_ctx) (r : nat) (p : Z) : inc_ctx :=
  let s := xor_byte (inc_s ctx) (inc_count ctx) p in
  let s := xor_byte s (r - 1) 128 in
  mk_inc s 0.

(** [while (outlen > 0)]; [h] is what was written so far. *)
Fixpoint inc_squeeze_loop (fuel outlen r : nat) (s : list Z) (c : nat) (h : list Z) :
    option (list Z * nat * list Z) :=
  if (outlen =? 0)%nat then Some (s, c, h)
  else match fuel with
  | O => None
  | S fuel =>
      let s := KeccakF1600_StatePermute s in
      let i := Nat.min outlen r in
      let h := h ++ ((fun i => get_byte s i) <$> seq 0 i) in
      inc_squeeze_loop fuel (outlen - i) r s (r - i) h
  end.

Definition keccak_inc_squeeze (outlen : nat) (ctx : inc_ctx) (r : nat) : option (inc_ctx * list Z) :=
  let c := inc_count ctx in
  let i := Nat.min outlen c in
  let h := (fun i => get_byte (inc_s ctx) (r - c + i)) <$> seq 0 i in
  '(s, c, h) ← inc_squeeze_loop outlen (outlen - i) r (inc_s ctx) (c - i) h;
  Some (mk_inc s c, h).

Definition shake128_inc_init : inc_ctx := keccak_inc_init.
Definition shake128_inc_absorb (ctx : inc_ctx) (input : list Z) := keccak_inc_absorb ctx SHAKE128_RATE input.
Definition shake128_inc_finalize (ctx : inc_ctx) := keccak_inc_finalize ctx SHAKE128_RATE 0x1F.
Definition shake128_inc_squeeze (outlen : nat) (ctx : inc_ctx) := keccak_inc_squeeze outlen ctx SHAKE128_RATE.

Definition shake256_inc_init : inc_ctx := keccak_inc_init.
Definition shake256_inc_absorb (ctx : inc_ctx) (input : list Z) := keccak_inc_absorb ctx SHAKE256_RATE input.
Definition shake256_inc_finalize (ctx : inc_ctx) := keccak_inc_finalize ctx SHAKE256_RATE 0x1F.
Definition shake256_inc_squeeze (outlen : nat) (ctx : inc_ctx) := keccak_inc_squeeze outlen ctx SHAKE256_RATE.

(** * One-shot operations *)

(** [for (i = 0; i < r / 8; ++i) s[i] ^= load64(m + 8 * i);]. *)
Definition xor_block (r : nat) (s m : list Z) : list Z :=
  for_up 0 (r / 8) (fun i s => <[i := (s !!! i) .^ load64 (take 8 (drop (8 * i) m))]> s) s.

(** [while (mlen >= r)]. *)
Fixpoint absorb_blocks (fuel r : nat) (s m : list Z) : option (list Z * list Z) :=
  if (r <=? length m)%nat then
    match fuel with
    | O => None
    | S fuel => absorb_blocks fuel r (KeccakF1600_StatePermute (xor_block r s m)) (drop r m)
    end
  else Some (s, m).

Definition keccak_absorb (r : nat) (m : list Z) (p : Z) : option (list Z) :=
  let s := replicate 25 0 in
  '(s, m) ← absorb_blocks (S (length m)) r s m;
  let t := replicate r 0 in
  let t := for_up 0 (length m) (fun i t => <[i := m !!! i]> t) t in
  let t := <[length m := p]> t in
  let t := <[(r - 1)%nat := (t !!! (r - 1)%nat) .| 128]> t in
  Some (xor_block r s t).

(** The state after, and the blocks written. *)
Fixpoint keccak_squeezeblocks (nblocks : nat) (s : list Z) (r : nat) : list Z * list Z :=
  match nblocks with
  | O => (s, [])
  | S nblocks =>
      let s := KeccakF1600_StatePermute s in
      let h := seq 0 (r / 8) ≫= (fun i => store64 (s !!! i)) in
      let '(s, h') := keccak_squeezeblocks nblocks s r in
      (s, h ++ h')
  end.

Definition shake128_absorb (input : list Z) := keccak_absorb SHAKE128_RATE input 0x1F.
Definition shake128_squeezeblocks (nblocks : nat) (s : list Z) := keccak_squeezeblocks nblocks s SHAKE128_RATE.
Definition shake256_absorb (input : list Z) := keccak_absorb SHAKE256_RATE input 0x1F.
Definition shake256_squeezeblocks (nblocks : nat) (s : list Z) := keccak_squeezeblocks nblocks s SHAKE256_RATE.

Definition shake128 (outlen : nat) (input : list Z) : option (list Z) :=
  let nblocks := (outlen / SHAKE128_RATE)%nat in
  s ← shake128_absorb input;
  let '(s, output) := shake128_squeezeblocks nblocks s in
  let outlen := (outlen - nblocks * SHAKE128_RATE)%nat in
  if (outlen =? 0)%nat then Some output
  else let '(s, t) := shake128_squeezeblocks 1 s in Some (output ++ take outlen t).

Definition shake256 (outlen : nat) (input : list Z) : option (list Z) :=
  let nblocks := (outlen / SHAKE256_RATE)%nat in
  s ← shake256_absorb input;
  let '(s, output) := shake256_squeezeblocks nblocks s in
  let outlen := (outlen - nblocks * SHAKE256_RATE)%nat in
  if (outlen =? 0)%nat then Some output
  else let '(s, t) := shake256_squeezeblocks 1 s in Some (output ++ take outlen t).

(** The three SHA-3 digests: absorb with domain byte 6, squeeze one block, keep [n] bytes. *)
Definition sha3_256 (input : list Z) : option (list Z) :=
  s ← keccak_absorb SHA3_256_RATE input 0x06;
  let '(s, t) := keccak_squeezeblocks 1 s SHA3_256_RATE in Some (take 32 t).

Definition sha3_384 (input : list Z) : option (list Z) :=
  s ← keccak_absorb SHA3_384_RATE input 0x06;
  let '(s, t) := keccak_squeezeblocks 1 s SHA3_384_RATE in Some (take 48 t).

Definition sha3_512 (input : list Z) : option (list Z) :=
  s ← keccak_absorb SHA3_512_RATE input 0x06;
  let '(s, t) := keccak_squeezeblocks 1 s SHA3_512_RATE in Some (take 64 t).

Definition sha3_256_inc_init : inc_ctx := keccak_inc_init.
Definition sha3_256_inc_absorb (ctx : inc_ctx) (input : list Z) := keccak_inc_absorb ctx SHA3_256_RATE input.
Definition sha3_256_inc_finalize (ctx : inc_ctx) : list Z :=
  let ctx := keccak_inc_finalize ctx SHA3_256_RATE 0x06 in
  let '(s, t) := keccak_squeezeblocks 1 (inc_s ctx) SHA3_256_RATE in take 32 t.

Definition sha3_384_inc_init : inc_ctx := keccak_inc_init.
Definition sha3_384_inc_absorb (ctx : inc_ctx) (input : list Z) := keccak_inc_absorb ctx SHA3_384_RATE input.
Definition sha3_384_inc_finalize (ctx : inc_ctx) : list Z :=
  let ctx := keccak_inc_finalize ctx SHA3_384_RATE 0x06 in
  let '(s, t) := keccak_squeezeblocks 1 (inc_s ctx) SHA3_384_RATE in take 48 t.

Definition sha3_512_inc_init : inc_ctx := keccak_inc_init.
Definition sha3_512_inc_absorb (ctx : inc_ctx) (input : list Z) := keccak_inc_absorb ctx SHA3_512_RATE input.
Definition sha3_512_inc_finalize (ctx : inc_ctx) : list Z :=
  let ctx := keccak_inc_finalize ctx SHA3_512_RATE 0x06 in
  let '(s, t) := keccak_squeezeblocks 1 (inc_s ctx) SHA3_512_RATE in take 64 t.

(** The published digests of the empty string. *)
Example shake256_empty :
  shake256 8 [] = Some [0x46; 0xb9; 0xdd; 0x2b; 0x0b; 0xa8; 0x8d; 0x13].
Proof. vm_compute. reflexivity. Qed.

Example shake128_empty :
  shake128 8 [] = Some [0x7f; 0x9c; 0x2b; 0xa4; 0xe8; 0x8f; 0x82; 0x7d].
Proof. vm_compute. reflexivity. Qed.

Example sha3_256_empty :
  take 8 <$> sha3_256 [] = Some [0xa7; 0xff; 0xc6; 0xf8; 0xbf; 0x1e; 0xd7; 0x66].
Proof. vm_compute. reflexivity. Qed.

Example sha3_384_empty :
  take 8 <$> sha3_384 [] = Some [0x0c; 0x63; 0xa7; 0x5b; 0x84; 0x5e; 0x4f; 0x7d].
Proof. vm_compute. reflexivity. Qed.

Example sha3_512_empty :
  take 8 <$> sha3_512 [] = Some [0xa6; 0x9f; 0x73; 0xcc; 0xa2; 0x3a; 0x9a; 0xc5].
Proof. vm_compute. reflexivity. Qed.

(** * The byte-wise reference *)

Definition absorb_byte (r : nat) (st : list Z * nat) (b : Z) : list Z * nat :=
  let s := xor_byte st.1 st.2 b in
  if (st.2 + 1 =? r)%nat then (KeccakF1600_StatePermute s, 0%nat) else (s, (st.2 + 1)%nat).

Definition squeeze_byte (r : nat) (st : list Z * nat) : list Z * nat * Z :=
  if (st.2 =? 0)%nat then
    let s := KeccakF1600_StatePermute st.1 in (s, (r - 1)%nat, get_byte s 0)
  else (st.1, (st.2 - 1)%nat, get_byte st.1 (r - st.2)).

Fixpoint squeeze_bytes (r n : nat) (st : list Z * nat) : list Z * nat * list Z :=
  match n with
  | O => (st, [])
  | S n =>
      let '(st, b) := squeeze_byte r st in
      let '(st, h) := squeeze_bytes r n st in
      (st, b :: h)
  end.

Definition ctx_state (ctx : inc_ctx) : list Z * nat := (inc_s ctx, inc_count ctx).
Definition of_state (st : list Z * nat) : inc_ctx := mk_inc st.1 st.2.

#[local] Opaque KeccakF1600_StatePermute.

Section Sponge.
  Context (r : nat) (Hr : (0 < r)%nat).

(** ** Absorbing *)

Lemma absorb_byte_count st b : (st.2 < r)%nat -> ((absorb_byte r st b).2 < r)%nat.
Proof. intros H. unfold absorb_byte. destruct (Nat.eqb_spec (st.2 + 1) r); simpl; lia. Qed.

Lemma absorb_bytes_count m : forall st, (st.2 < r)%nat -> ((foldl (absorb_byte r) st m).2 < r)%nat.
Proof. induction m as [|b m IH]; intros st H; [done|]. apply IH. now apply absorb_byte_count. Qed.

(** Bytes that do not fill the block. *)
Lemma absorb_partial (m : list Z) s c k :
  (c + k < r)%nat -> (k <= length m)%nat ->
  foldl (absorb_byte r) (s, c) (take k m) =
    (for_up 0 k (fun i s => xor_byte s (c + i) (m !!! i)) s, (c + k)%nat).
Proof.
  intros Hc Hk. induction k as [|k IH]; [now rewrite Nat.add_0_r|].
  rewrite (take_S_r m k (m !!! k)) by (apply list_lookup_lookup_total_lt; lia).
  rewrite foldl_app, IH, for_up_snoc by lia. cbn [foldl]. unfold absorb_byte. cbn [fst snd].
  destruct (Nat.eqb_spec (c + k + 1) r); [lia|]. f_equal. lia.
Qed.

(** Bytes that fill it. *)
Lemma absorb_full (m : list Z) s c :
  (c < r)%nat -> (r <= c + length m)%nat ->
  foldl (absorb_byte r) (s, c) (take (r - c) m) =
    (KeccakF1600_StatePermute (for_up 0 (r - c) (fun i s => xor_byte s (c + i) (m !!! i)) s), 0%nat).
Proof.
  intros Hc Hm. replace (r - c)%nat with (S (r - c - 1)) by lia. set (k := (r - c - 1)%nat).
  rewrite (take_S_r m k (m !!! k)) by (apply list_lookup_lookup_total_lt; lia).
  rewrite foldl_app, absorb_partial, for_up_snoc by lia. cbn [foldl]. unfold absorb_byte. cbn [fst snd].
  destruct (Nat.eqb_spec (c + k + 1) r); [done | lia].
Qed.

Lemma inc_absorb_loop_spec fuel : forall s c m,
  (c < r)%nat -> (length m < fuel)%nat ->
  exists s' c' m', inc_absorb_loop fuel r s c m = Some (s', c', m') /\ (c' + length m' < r)%nat /\
    foldl (absorb_byte r) (s, c) m = foldl (absorb_byte r) (s', c') m'.
Proof.
  induction fuel as [|fuel IH]; intros s c m Hc Hf; [lia|]. cbn [inc_absorb_loop].
  destruct (Nat.leb_spec r (length m + c)) as [Hle|Hgt].
  - replace (foldl (absorb_byte r) (s, c) m) with (foldl (absorb_byte r) (s, c) (take (r - c) m ++ drop (r - c) m))
      by now rewrite take_drop.
    rewrite foldl_app, absorb_full by lia.
    destruct (IH (KeccakF1600_StatePermute (for_up 0 (r - c) (fun i s => xor_byte s (c + i) (m !!! i)) s)) 0%nat
      (drop (r - c) m)) as (s' & c' & m' & H1 & H2 & H3); [lia | rewrite length_drop; lia|].
    now exists s', c', m'.
  - exists s, c, m. split; [done|]. split; [lia | done].
Qed.

Lemma keccak_inc_absorb_spec ctx m :
  (inc_count ctx < r)%nat ->
  keccak_inc_absorb ctx r m = Some (of_state (foldl (absorb_byte r) (ctx_state ctx) m)).
Proof.
  intros Hc. unfold keccak_inc_absorb, ctx_state.
  destruct (inc_absorb_loop_spec (S (length m)) (inc_s ctx) (inc_count ctx) m Hc ltac:(lia))
    as (s & c & m' & H1 & H2 & ->). rewrite H1. cbn [mbind option_bind].
  pose proof (absorb_partial m' s c (length m') H2 ltac:(lia)) as Hp. rewrite firstn_all in Hp. now rewrite Hp.
Qed.

(** ** Squeezing *)

Lemma squeeze_stream_add a b st :
  squeeze_bytes r (a + b) st =
    let '(st, h) := squeeze_bytes r a st in
    let '(st, h') := squeeze_bytes r b st in (st, h ++ h').
Proof.
  revert st. induction a as [|a IH]; intros st; cbn [Nat.add squeeze_bytes].
  - now destruct (squeeze_bytes r b st).
  - destruct (squeeze_byte r st) as [st1 y]. rewrite IH. destruct (squeeze_bytes r a st1) as [st2 h].
    now destruct (squeeze_bytes r b st2).
Qed.

Lemma squeeze_stream_length n : forall st, length (squeeze_bytes r n st).2 = n.
Proof.
  induction n as [|n IH]; intros st; [done|]. cbn [squeeze_bytes].
  destruct (squeeze_byte r st) as [st1 y]. specialize (IH st1).
  destruct (squeeze_bytes r n st1) as [st2 h]. simpl in *. lia.
Qed.

(** Bytes still available in the block. *)
Lemma squeeze_available k : forall s c,
  (k <= c <= r)%nat ->
  squeeze_bytes r k (s, c) = (s, (c - k)%nat, (fun i => get_byte s (r - c + i)) <$> seq 0 k).
Proof.
  induction k as [|k IH]; intros s c Hk; cbn [squeeze_bytes]; [now rewrite Nat.sub_0_r|].
  unfold squeeze_byte. cbn [fst snd]. destruct (Nat.eqb_spec c 0); [lia|].
  rewrite IH by lia. cbn [seq fmap list_fmap]. rewrite <- fmap_S_seq, <- list_fmap_compose.
  f_equal; [f_equal; lia|]. f_equal; [f_equal; lia|]. apply list_fmap_ext. intros i x _. simpl. f_equal. lia.
Qed.

(** A fresh block. *)
Lemma squeeze_fresh k s :
  (0 < k <= r)%nat ->
  squeeze_bytes r k (s, 0%nat) =
    (KeccakF1600_StatePermute s, (r - k)%nat, (fun i => get_byte (KeccakF1600_StatePermute s) i) <$> seq 0 k).
Proof.
  intros Hk. destruct k as [|k]; [lia|]. cbn [squeeze_bytes]. unfold squeeze_byte. cbn [fst snd Nat.eqb].
  rewrite squeeze_available by lia. cbn [seq fmap list_fmap]. rewrite <- fmap_S_seq, <- list_fmap_compose.
  f_equal; [f_equal; lia|]. f_equal. apply list_fmap_ext. intros i x _. simpl. f_equal. lia.
Qed.

Lemma inc_squeeze_loop_spec fuel : forall outlen s c h,
  (outlen <= fuel)%nat -> (c = 0 \/ outlen = 0)%nat ->
  inc_squeeze_loop fuel outlen r s c h =
    let '(st, h') := squeeze_bytes r outlen (s, c) in Some (st, h ++ h').
Proof.
  induction fuel as [|fuel IH]; intros outlen s c h Hf Hc.
  - assert (outlen = 0)%nat as -> by lia. cbn. now rewrite app_nil_r.
  - cbn [inc_squeeze_loop]. destruct (Nat.eqb_spec outlen 0) as [->|Hne]; [cbn; now rewrite app_nil_r|].
    destruct Hc as [->|]; [|lia]. rewrite IH by lia.
    replace outlen with (Nat.min outlen r + (outlen - Nat.min outlen r))%nat at 4 by lia.
    rewrite squeeze_stream_add, squeeze_fresh by lia. cbv zeta.
    destruct (squeeze_bytes r (outlen - _) _) as [st h']. now rewrite app_assoc.
Qed.

Lemma keccak_inc_squeeze_spec outlen ctx :
  (inc_count ctx <= r)%nat ->
  keccak_inc_squeeze outlen ctx r =
    let '(st, h) := squeeze_bytes r outlen (ctx_state ctx) in Some (of_state st, h).
Proof.
  intros Hc. unfold keccak_inc_squeeze, ctx_state. set (c := inc_count ctx) in *.
  rewrite inc_squeeze_loop_spec by lia. assert (Nat.min outlen c <= c /\ Nat.min outlen c <= outlen)%nat as Hi by lia.
  set (i := Nat.min outlen c) in *.
  assert (squeeze_bytes r outlen (inc_s ctx, c) = squeeze_bytes r (i + (outlen - i)) (inc_s ctx, c)) as -> by (f_equal; lia).
  rewrite squeeze_stream_add, (squeeze_available i) by lia.
  destruct (squeeze_bytes r (outlen - i) _) as [[s' c'] h]. done.
Qed.

Lemma squeeze_byte_count st : (st.2 <= r)%nat -> ((squeeze_byte r st).1.2 <= r)%nat.
Proof. intros H. unfold squeeze_byte. destruct (st.2 =? 0)%nat; simpl; lia. Qed.

Lemma squeeze_bytes_count n : forall st, (st.2 <= r)%nat -> ((squeeze_bytes r n st).1.2 <= r)%nat.
Proof.
  induction n as [|n IH]; intros st H; [done|]. cbn [squeeze_bytes].
  pose proof (squeeze_byte_count st H) as H1. destruct (squeeze_byte r st) as [st1 y]. specialize (IH st1 H1).
  now destruct (squeeze_bytes r n st1) as [st2 h].
Qed.
End Sponge.

(** ** Blocks *)

Lemma shifted_byte b j : in_width 8 b -> (j < 8)%nat -> u64 (b .<< (8 * Z.of_nat j)) = b .<< (8 * Z.of_nat j).
Proof.
  intros Hb Hj. apply wrap_small. unfold in_width in *. rewrite Z.shiftl_mul_pow2 by lia.
  assert (0 < 2 ^ (8 * Z.of_nat j)) by (apply Z.pow_pos_nonneg; lia).
  assert (2 ^ 64 = 2 ^ (8 * Z.of_nat j) * 2 ^ (64 - 8 * Z.of_nat j)) as -> by (apply pow2_split; lia).
  assert (2 ^ 8 <= 2 ^ (64 - 8 * Z.of_nat j)) by (apply Z.pow_le_mono_r; lia). nia.
Qed.

(** Disjoint bits: [|] is [^]. *)
Lemma lor_lxor_shift x b n : 0 <= n -> 0 <= x < 2 ^ n -> x .| (b .<< n) = x .^ (b .<< n).
Proof.
  intros Hn Hx. apply Z.bits_inj'. intros k Hk. rewrite Z.lor_spec, Z.lxor_spec, Z.shiftl_spec by lia.
  destruct (Z.ltb_spec k n).
  - rewrite (Z.testbit_neg_r b) by lia. now rewrite orb_false_r, xorb_false_r.
  - destruct (decide (x = 0)) as [->|Hx0]; [now rewrite Z.bits_0|]. rewrite (Z.bits_above_log2 x k); [done | lia |].
    apply Z.log2_lt_pow2; [lia|]. eapply Z.lt_le_trans; [apply Hx | apply Z.pow_le_mono_r; lia].
Qed.

(** Xoring eight bytes one by one is xoring [load64]. *)
Lemma load64_xor (x : list Z) v k :
  (k <= 8)%nat -> (forall j, (j < 8)%nat -> in_width 8 (x !!! j)) ->
  let l := for_up 0 k (fun i r => r .| u64 ((x !!! i) .<< (8 * Z.of_nat i))) 0 in
  in_width (8 * Z.of_nat k) l /\
  for_up 0 k (fun i r => r .^ u64 ((x !!! i) .<< (8 * Z.of_nat i))) v = v .^ l.
Proof.
  intros Hk Hx. cbv zeta. induction k as [|k IH]; [split; [done | now rewrite Z.lxor_0_r]|].
  destruct IH as [Hl He]; [lia|]. rewrite !for_up_snoc by lia. rewrite He.
  set (l := for_up 0 k _ 0) in *. rewrite shifted_byte by (lia || apply Hx; lia).
  rewrite lor_lxor_shift by (done || lia). split; [|apply Z.lxor_assoc].
  rewrite <- lor_lxor_shift by (done || lia). rewrite Z.lor_comm, lor_shiftl_add by (done || lia).
  pose proof (Hx k ltac:(lia)) as Hb. unfold in_width in *.
  rewrite (pow2_split 8 (8 * Z.of_nat k) (8 * Z.of_nat (S k))) by lia. nia.
Qed.

Lemma xor_byte_length s pos b : length (xor_byte s pos b) = length s.
Proof. apply length_insert. Qed.

Lemma xor_byte_lane s w j b : (j < 8)%nat ->
  xor_byte s (8 * w + j) b = <[w := (s !!! w) .^ u64 (b .<< (8 * Z.of_nat j))]> s.
Proof.
  intros Hj. unfold xor_byte.
  rewrite <- (Nat.div_unique (8 * w + j) 8 w j) by lia. now rewrite <- (Nat.mod_unique (8 * w + j) 8 w j) by lia.
Qed.

Lemma xor_block_bytes w : forall s m,
  (w <= length s)%nat -> (8 * w <= length m)%nat -> Forall (in_width 8) m ->
  for_up 0 w (fun i s => <[i := (s !!! i) .^ load64 (take 8 (drop (8 * i) m))]> s) s =
    for_up 0 (8 * w) (fun i s => xor_byte s i (m !!! i)) s.
Proof.
  intros s m Hw Hm Hb. induction w as [|w IH]; [done|].
  replace (8 * S w)%nat with (8 * w + 8)%nat by lia. rewrite for_up_add, for_up_snoc, IH by lia.
  set (t := for_up 0 (8 * w) _ s).
  rewrite (for_up_ext (fun j s => xor_byte s (8 * w + j) (m !!! (8 * w + j)%nat))
    (fun j s => <[w := (s !!! w) .^ u64 ((take 8 (drop (8 * w) m) !!! j) .<< (8 * Z.of_nat j))]> s)).
  - rewrite (for_up_cell (fun j v => v .^ u64 ((take 8 (drop (8 * w) m) !!! j) .<< (8 * Z.of_nat j)))). f_equal. symmetry.
    apply (load64_xor (take 8 (drop (8 * w) m)) (t !!! w) 8); [lia|]. intros j Hj.
    rewrite lookup_total_take_lt, lookup_total_drop by done. rewrite Forall_lookup_total in Hb. apply Hb. lia.
  - intros j s' Hj. rewrite xor_byte_lane by lia. now rewrite lookup_total_take_lt, lookup_total_drop by lia.
Qed.

Lemma xor_bytes_length n off (m s : list Z) : length (for_up 0 n (fun i s => xor_byte s (off + i) (m !!! i)) s) = length s.
Proof. apply for_up_length. intros. apply xor_byte_length. Qed.

Lemma get_bytes_store s w :
  seq 0 w ≫= (fun i => store64 (s !!! i)) = (fun i => get_byte s i) <$> seq 0 (8 * w).
Proof.
  induction w as [|w IH]; [done|]. rewrite seq_S, bind_app, IH. replace (8 * S w)%nat with (8 * w + 8)%nat by lia.
  rewrite seq_app, fmap_app. f_equal. cbn [Nat.add mbind list_bind]. rewrite app_nil_r. unfold store64.
  replace (seq (8 * w) 8) with (Nat.add (8 * w) <$> seq 0 8) by (rewrite fmap_add_seq; f_equal; lia).
  rewrite <- list_fmap_compose. apply list_fmap_ext. intros i x Hx.
  apply lookup_seq in Hx as [-> Hi]. unfold compose, get_byte. cbn [Nat.add].
  rewrite <- (Nat.div_unique (8 * w + i) 8 w i) by lia. now rewrite <- (Nat.mod_unique (8 * w + i) 8 w i) by lia.
Qed.

(** ** One-shot is incremental *)

Lemma xor_byte_zero s pos : (pos / 8 < length s)%nat -> xor_byte s pos 0 = s.
Proof.
  intros H. unfold xor_byte. rewrite Z.shiftl_0_l, Z.lxor_0_r. apply list_insert_id.
  now apply list_lookup_lookup_total_lt.
Qed.

Lemma xor_byte_twice s pos a b :
  (pos / 8 < length s)%nat -> in_width 8 a -> in_width 8 b ->
  xor_byte (xor_byte s pos a) pos b = xor_byte s pos (a .^ b).
Proof.
  intros Hp Ha Hb. unfold xor_byte. rewrite list_lookup_total_insert_eq by done. rewrite list_insert_insert_eq.
  pose proof (Nat.mod_upper_bound pos 8 ltac:(lia)).
  rewrite !shifted_byte, Z.lxor_assoc, Z.shiftl_lxor by (done || apply lxor_width; done || lia). done.
Qed.

Lemma xor_zeros n off f s :
  (forall j, (j < n)%nat -> f j = 0 /\ ((off + j) / 8 < length s)%nat) ->
  for_up 0 n (fun j s => xor_byte s (off + j) (f j)) s = s.
Proof.
  intros H. apply (for_up_inv _ (fun _ s' => s' = s)); [lia | done |]. intros k s' Hk ->.
  destruct (H k ltac:(lia)) as [-> Hl]. now apply xor_byte_zero.
Qed.

(** The last block of the one-shot functions. *)
Definition pad_block (r : nat) (m : list Z) (p : Z) : list Z :=
  let t := replicate r 0 in
  let t := for_up 0 (length m) (fun i t => <[i := m !!! i]> t) t in
  let t := <[length m := p]> t in
  <[(r - 1)%nat := (t !!! (r - 1)%nat) .| 128]> t.

Lemma pad_block_lookup r m p i :
  (length m < r)%nat -> (i < r)%nat -> 0 <= p < 128 ->
  pad_block r m p !!! i =
    (if (i <? length m)%nat then m !!! i else if (i =? length m)%nat then p else 0)
    .| (if (i =? r - 1)%nat then 128 else 0).
Proof.
  intros Hm Hi Hp. unfold pad_block. destruct (for_up_elementwise (fun i _ => m !!! i) (length m) (replicate r 0)) as [Hl Hk].
  set (t := for_up 0 _ _ _) in *. rewrite length_replicate in *.
  assert (forall i, (i < r)%nat -> <[length m := p]> t !!! i =
    if (i <? length m)%nat then m !!! i else if (i =? length m)%nat then p else 0) as Ht.
  { intros j Hj. destruct (Nat.eqb_spec j (length m)) as [->|Hne].
    - rewrite list_lookup_total_insert_eq by lia. now destruct (Nat.ltb_spec (length m) (length m)); [lia|].
    - rewrite list_lookup_total_insert_ne, Hk by lia. destruct (j <? length m)%nat; [done|].
      apply list_lookup_total_correct, lookup_replicate_2. lia. }
  destruct (Nat.eqb_spec i (r - 1)) as [->|Hne].
  - rewrite list_lookup_total_insert_eq by (rewrite length_insert; lia). now rewrite Ht by lia.
  - rewrite list_lookup_total_insert_ne, Ht, Z.lor_0_r by lia. done.
Qed.

Section OneShot.
  Context (w : nat) (p : Z) (Hw : (0 < w <= 25)%nat) (Hp : 0 <= p < 128).
  Abbreviation r := (8 * w)%nat.

Lemma rate_words : (r / 8)%nat = w.
Proof. rewrite Nat.mul_comm. now apply Nat.div_mul. Qed.

Lemma lane_in_range (s : list Z) pos : length s = 25%nat -> (pos < r)%nat -> (pos / 8 < length s)%nat.
Proof. intros Hl H. rewrite Hl. apply Nat.Div0.div_lt_upper_bound. lia. Qed.

Lemma absorb_blocks_spec fuel : forall s m,
  length s = 25%nat -> Forall (in_width 8) m -> (length m < fuel)%nat ->
  exists s' m', absorb_blocks fuel r s m = Some (s', m') /\ (length m' < r)%nat /\ length s' = 25%nat /\
    Forall (in_width 8) m' /\ foldl (absorb_byte r) (s, 0%nat) m = foldl (absorb_byte r) (s', 0%nat) m'.
Proof.
  induction fuel as [|fuel IH]; intros s m Hs Hm Hf; [lia|]. cbn [absorb_blocks].
  destruct (Nat.leb_spec r (length m)) as [Hle|Hgt]; [|now exists s, m].
  replace (foldl (absorb_byte r) (s, 0%nat) m) with (foldl (absorb_byte r) (s, 0%nat) (take (r - 0) m ++ drop r m))
    by now rewrite Nat.sub_0_r, take_drop.
  rewrite foldl_app, absorb_full by lia. rewrite Nat.sub_0_r. unfold xor_block. rewrite rate_words.
  rewrite (xor_block_bytes w s m) by (lia || done).
  destruct (IH (KeccakF1600_StatePermute (for_up 0 r (fun i s => xor_byte s i (m !!! i)) s)) (drop r m))
    as (s' & m' & H1 & H2); [apply permute_length | now apply Forall_drop | rewrite length_drop; lia|].
  now exists s', m'.
Qed.

(** Xoring the padded block is absorbing the rest, then finalizing. *)
Lemma pad_block_finalize s m :
  length s = 25%nat -> Forall (in_width 8) m -> (length m < r)%nat ->
  xor_block r s (pad_block r m p) =
    inc_s (keccak_inc_finalize (of_state (foldl (absorb_byte r) (s, 0%nat) m)) r p).
Proof.
  intros Hs Hm Hlen. pose proof (absorb_partial r ltac:(lia) m s 0 (length m) ltac:(lia) ltac:(lia)) as Ha.
  rewrite firstn_all in Ha. rewrite Ha. cbn [of_state keccak_inc_finalize inc_s inc_count fst snd Nat.add]. clear Ha.
  assert (forall i, (i < r)%nat -> in_width 8 (pad_block r m p !!! i)) as Hpb.
  { intros i Hi. rewrite pad_block_lookup by done. rewrite Forall_lookup_total in Hm.
    assert (forall a b, in_width 8 a -> in_width 8 b -> in_width 8 (a .| b)) as Hor.
    { intros a b Ha Hb. rewrite <- (wrap_small 8 a), <- (wrap_small 8 b) by done.
      unfold wrap. rewrite <- Z.land_lor_distr_l. apply (wrap_range 8). lia. }
    apply Hor; [|destruct (i =? r - 1)%nat; unfold in_width; lia].
    destruct (Nat.ltb_spec i (length m)); [now apply Hm|]. destruct (i =? length m)%nat; unfold in_width; lia. }
  unfold xor_block. rewrite rate_words.
  assert (length (pad_block r m p) = r) as Hpl.
  { unfold pad_block. rewrite !length_insert, for_up_length, length_replicate; [done|]. intros. apply length_insert. }
  rewrite xor_block_bytes; [|lia | lia | rewrite Forall_lookup_total; intros i Hi; apply Hpb; lia].
  set (k := length m) in *. replace r with (k + (r - k))%nat at 1 by lia. rewrite for_up_add.
  rewrite (for_up_ext (fun i s => xor_byte s i (pad_block r m p !!! i)) (fun i s => xor_byte s i (m !!! i))).
  2: { intros i s' Hi. rewrite pad_block_lookup by lia. fold k. destruct (Nat.ltb_spec i k), (Nat.eqb_spec i (r - 1)); try lia.
       now rewrite Z.lor_0_r. }
  set (A := for_up 0 k _ s). assert (length A = 25%nat) as HA
    by (unfold A; rewrite (xor_bytes_length k 0); exact Hs).
  replace (r - k)%nat with (S (r - k - 1)) by lia. change (S (r - k - 1)) with (1 + (r - k - 1))%nat. rewrite for_up_add.
  change (for_up 0 1 (fun j s => xor_byte s (k + j) (pad_block r m p !!! (k + j)%nat)) A)
    with (xor_byte A (k + 0) (pad_block r m p !!! (k + 0)%nat)).
  rewrite Nat.add_0_r, pad_block_lookup by lia. fold k. destruct (Nat.ltb_spec k k); [lia|]. rewrite Nat.eqb_refl.
  destruct (Nat.eqb_spec k (r - 1)) as [He|Hne].
  - replace (r - k - 1)%nat with 0%nat by lia. change (for_up 0 0 _ ?x) with x. rewrite <- He.
    rewrite xor_byte_twice by (unfold in_width; lia || apply lane_in_range; lia).
    f_equal. change 128 with (1 .<< 7). apply lor_lxor_shift; lia.
  - rewrite Z.lor_0_r. replace (r - k - 1)%nat with (S (r - k - 2)) by lia. rewrite for_up_snoc by lia.
    set (B := xor_byte A k p). assert (length B = 25%nat) as HB by (unfold B; now rewrite xor_byte_length).
    rewrite (for_up_ext _ (fun j s => xor_byte s (S k + j) ((fun _ => 0) j))).
    2: { intros j s' Hj. replace (k + (1 + j))%nat with (S k + j)%nat by lia. f_equal. rewrite pad_block_lookup by lia. fold k.
         destruct (Nat.ltb_spec (S k + j) k), (Nat.eqb_spec (S k + j) k), (Nat.eqb_spec (S k + j) (r - 1)); try lia. done. }
    rewrite xor_zeros by (intros j Hj; split; [done | apply lane_in_range; [exact HB | lia]]).
    replace (k + (1 + (r - k - 2)))%nat with (r - 1)%nat by lia. f_equal. rewrite pad_block_lookup by lia. fold k.
    destruct (Nat.ltb_spec (r - 1) k), (Nat.eqb_spec (r - 1) k); try lia. now rewrite Nat.eqb_refl.
Qed.

Lemma keccak_absorb_spec m :
  Forall (in_width 8) m ->
  keccak_absorb r m p =
    Some (inc_s (keccak_inc_finalize (of_state (foldl (absorb_byte r) (replicate 25 0, 0%nat) m)) r p)).
Proof.
  intros Hm. unfold keccak_absorb.
  destruct (absorb_blocks_spec (S (length m)) (replicate 25 0) m ltac:(done) Hm ltac:(lia))
    as (s & m' & -> & H2 & H3 & H4 & ->). cbn [mbind option_bind]. f_equal. now apply pad_block_finalize.
Qed.

(** Whole blocks, squeezed. *)
Lemma squeezeblocks_spec n : forall s,
  exists s', squeeze_bytes r (n * r) (s, 0%nat) = (s', 0%nat, (keccak_squeezeblocks n s r).2) /\
    (keccak_squeezeblocks n s r).1 = s'.
Proof.
  induction n as [|n IH]; intros s; [now exists s|]. cbn [keccak_squeezeblocks].
  change (S n * r)%nat with (r + n * r)%nat. rewrite squeeze_stream_add, squeeze_fresh, Nat.sub_diag by lia.
  destruct (IH (KeccakF1600_StatePermute s)) as (s' & -> & Hs').
  destruct (keccak_squeezeblocks n (KeccakF1600_StatePermute s) r) as [s1 h1] eqn:E. cbn [fst snd] in *.
  exists s'. split; [|done]. do 2 f_equal. rewrite rate_words. symmetry. apply get_bytes_store.
Qed.

(** The tail of the one-shot functions: whole blocks, then part of one. *)
Lemma squeeze_oneshot outlen s :
  (let nblocks := (outlen / r)%nat in
   let '(s, output) := keccak_squeezeblocks nblocks s r in
   let outlen := (outlen - nblocks * r)%nat in
   if (outlen =? 0)%nat then Some output
   else let '(s, t) := keccak_squeezeblocks 1 s r in Some (output ++ take outlen t)) =
  Some (squeeze_bytes r outlen (s, 0%nat)).2.
Proof.
  cbv zeta. set (nb := (outlen / r)%nat). pose proof (Nat.div_mod_eq outlen r) as Hd. fold nb in Hd.
  pose proof (Nat.mod_upper_bound outlen r ltac:(lia)) as Hm.
  assert (outlen = nb * r + (outlen - nb * r))%nat as Ho by nia. set (rest := (outlen - nb * r)%nat) in *.
  assert (rest < r)%nat as Hrest by nia. rewrite Ho. rewrite squeeze_stream_add.
  destruct (squeezeblocks_spec nb s) as (s' & -> & <-). destruct (keccak_squeezeblocks nb s r) as [s1 h]. cbn [fst snd].
  destruct (Nat.eqb_spec rest 0) as [->|Hne]; [cbn; now rewrite app_nil_r|].
  rewrite squeeze_fresh by lia. cbn [keccak_squeezeblocks snd]. rewrite app_nil_r, rate_words, get_bytes_store.
  rewrite <- fmap_take, take_seq, Nat.min_l by lia. done.
Qed.
End OneShot.

(** * Properties *)

(** Absorbing a message in pieces, and squeezing in pieces. *)
Fixpoint absorb_all (r : nat) (ctx : inc_ctx) (pieces : list (list Z)) : option inc_ctx :=
  match pieces with
  | [] => Some ctx
  | m :: pieces => ctx ← keccak_inc_absorb ctx r m; absorb_all r ctx pieces
  end.

Fixpoint squeeze_all (r : nat) (ctx : inc_ctx) (lens : list nat) : option (list Z) :=
  match lens with
  | [] => Some []
  | n :: lens => '(ctx, h) ← keccak_inc_squeeze n ctx r; h' ← squeeze_all r ctx lens; Some (h ++ h')
  end.

(** The incremental API, run to the end. *)
Definition xof (r : nat) (p : Z) (pieces : list (list Z)) (lens : list nat) : option (list Z) :=
  ctx ← absorb_all r keccak_inc_init pieces;
  squeeze_all r (keccak_inc_finalize ctx r p) lens.

Lemma absorb_all_spec r pieces : (0 < r)%nat -> forall ctx,
  (inc_count ctx < r)%nat ->
  absorb_all r ctx pieces = Some (of_state (foldl (absorb_byte r) (ctx_state ctx) (concat pieces))).
Proof.
  intros Hr. induction pieces as [|m pieces IH]; intros ctx Hc; cbn [absorb_all concat]; [now destruct ctx|].
  rewrite keccak_inc_absorb_spec by done. cbn [mbind option_bind]. rewrite IH.
  - rewrite foldl_app. now destruct (foldl (absorb_byte r) (ctx_state ctx) m).
  - cbn [of_state inc_count]. now apply absorb_bytes_count.
Qed.

Lemma squeeze_all_spec r lens : (0 < r)%nat -> forall ctx,
  (inc_count ctx <= r)%nat ->
  squeeze_all r ctx lens = Some (squeeze_bytes r (sum_list lens) (ctx_state ctx)).2.
Proof.
  intros Hr. induction lens as [|n lens IH]; intros ctx Hc; cbn [squeeze_all sum_list sum_list_with]; [done|].
  rewrite keccak_inc_squeeze_spec by done. fold (sum_list lens). change (sum_list_with id lens) with (sum_list lens).
  pose proof (squeeze_bytes_count r Hr n (ctx_state ctx) Hc) as Hcount.
  rewrite (squeeze_stream_add r (id n)). unfold id. destruct (squeeze_bytes r n (ctx_state ctx)) as [[s c] h].
  cbn [mbind option_bind fst snd] in *. rewrite IH by done. unfold ctx_state, of_state. cbn [inc_s inc_count fst snd mbind option_bind].
  change (sum_list_with (fun x : nat => x) lens) with (sum_list lens). now destruct (squeeze_bytes r (sum_list lens) (s, c)).
Qed.

Lemma xof_spec r p pieces lens :
  (0 < r)%nat ->
  xof r p pieces lens =
    Some (squeeze_bytes r (sum_list lens)
      (ctx_state (keccak_inc_finalize (of_state (foldl (absorb_byte r) (replicate 25 0, 0%nat) (concat pieces))) r p))).2.
Proof.
  intros Hr. unfold xof. rewrite absorb_all_spec by done. cbn [mbind option_bind].
  rewrite squeeze_all_spec by (cbn; lia). done.
Qed.

(** The incremental and the one-shot interfaces compute the same function: however a
    message of bytes is cut into pieces for the incremental absorb, and however the output is cut into
    pieces for the incremental squeeze, the bytes produced are those of [shake128] or [shake256] on the
    whole message for the whole length; no call fails. *)
Theorem shake_incremental (pieces : list (list Z)) (lens : list nat) :
  Forall (in_width 8) (concat pieces) ->
  exists out128 out256,
    xof SHAKE128_RATE 0x1F pieces lens = Some out128 /\ shake128 (sum_list lens) (concat pieces) = Some out128 /\
    xof SHAKE256_RATE 0x1F pieces lens = Some out256 /\ shake256 (sum_list lens) (concat pieces) = Some out256 /\
    length out128 = sum_list lens /\ length out256 = sum_list lens.
Proof.
  intros Hm. rewrite !xof_spec by (unfold SHAKE128_RATE, SHAKE256_RATE; lia). do 2 eexists.
  split; [done|]. split; [|split; [done|]; split; [|split; apply squeeze_stream_length; unfold SHAKE128_RATE, SHAKE256_RATE; lia]].
  - unfold shake128, shake128_absorb. rewrite (keccak_absorb_spec 21 0x1F ltac:(lia) ltac:(lia) (concat pieces) Hm : keccak_absorb SHAKE128_RATE _ _ = _).
    cbn [mbind option_bind]. exact (squeeze_oneshot 21 0x1F ltac:(lia) ltac:(lia) _ _).
  - unfold shake256, shake256_absorb. rewrite (keccak_absorb_spec 17 0x1F ltac:(lia) ltac:(lia) (concat pieces) Hm : keccak_absorb SHAKE256_RATE _ _ = _).
    cbn [mbind option_bind]. exact (squeeze_oneshot 17 0x1F ltac:(lia) ltac:(lia) _ _).
Qed.

Lemma shake_incremental_witness :
  exists out, xof SHAKE256_RATE 0x1F [[1; 2]; []; [3]] [3; 5]%nat = Some out /\ shake256 8 [1; 2; 3] = Some out.
Proof.
  destruct (shake_incremental [[1; 2]; []; [3]] [3; 5]%nat ltac:(by_decide)) as (? & out & _ & _ & H1 & H2 & _).
  exists out. split; [exact H1 | exact H2].
Defined.

(** The SHA-3 digests: whatever pieces the message is absorbed in, the incremental
    finalization gives the digest that [sha3_256], [sha3_384] and [sha3_512] compute from the whole
    message, and none of the calls fails. *)
Lemma sha3_incremental (pieces : list (list Z)) :
  Forall (in_width 8) (concat pieces) ->
  sha3_256_inc_finalize <$> absorb_all SHA3_256_RATE keccak_inc_init pieces = sha3_256 (concat pieces) /\
  sha3_384_inc_finalize <$> absorb_all SHA3_384_RATE keccak_inc_init pieces = sha3_384 (concat pieces) /\
  sha3_512_inc_finalize <$> absorb_all SHA3_512_RATE keccak_inc_init pieces = sha3_512 (concat pieces) /\
  is_Some (sha3_256 (concat pieces)) /\ is_Some (sha3_384 (concat pieces)) /\ is_Some (sha3_512 (concat pieces)).
Proof.
  intros Hm. unfold sha3_256, sha3_384, sha3_512.
  rewrite (keccak_absorb_spec 17 0x06 ltac:(lia) ltac:(lia) (concat pieces) Hm : keccak_absorb SHA3_256_RATE _ _ = _).
  rewrite (keccak_absorb_spec 13 0x06 ltac:(lia) ltac:(lia) (concat pieces) Hm : keccak_absorb SHA3_384_RATE _ _ = _).
  rewrite (keccak_absorb_spec 9 0x06 ltac:(lia) ltac:(lia) (concat pieces) Hm : keccak_absorb SHA3_512_RATE _ _ = _).
  rewrite !absorb_all_spec by (cbn; unfold SHA3_256_RATE, SHA3_384_RATE, SHA3_512_RATE; lia).
  cbn [mbind option_bind fmap option_fmap option_map].
  unfold sha3_256_inc_finalize, sha3_384_inc_finalize, sha3_512_inc_finalize.
  split; [now destruct (keccak_squeezeblocks _ _ SHA3_256_RATE)|].
  split; [now destruct (keccak_squeezeblocks _ _ SHA3_384_RATE)|].
  split; [now destruct (keccak_squeezeblocks _ _ SHA3_512_RATE)|].
  split; [now destruct (keccak_squeezeblocks _ _ SHA3_256_RATE)|].
  split; [now destruct (keccak_squeezeblocks _ _ SHA3_384_RATE)|].
  now destruct (keccak_squeezeblocks _ _ SHA3_512_RATE).
Qed.

