(* ===== verification/Sponge.v ===== *)
(** Sponge: the sponge of FIPS 202 on bytes, and the byte-wise one of [Shake] against it.

    A message of bytes is padded to whole blocks of [w] lanes; each block is added to the first lanes of the
    state, which [keccak_f], the permutation of the standard in [Keccak], then transforms.  Output byte [i] is
    read from the state after [i / r] further permutations, [r] being the rate, [8 w] bytes. *)

From Stdlib Require Import ZArith Lia.
From stdpp Require Import base numbers list option.
From S2P Require Import Prelude NumberTheory Keccak Shake.

(** * The standard *)

(** A number in base 256, the low digit first. *)
Definition lane_value (bs : list Z) : Z := foldr (fun b v => b + 256 * v) 0 bs.

Section Standard.
Context (w : nat).
Abbreviation r := (8 * w)%nat.

(** The lanes of a block; the capacity is not touched. *)
Definition block_lanes (b : list Z) : list Z := ((fun i => lane_value (take 8 (drop (8 * i) b))) <$> seq 0 w) ++ replicate (25 - w) 0.

Definition sponge_block (s b : list Z) : list Z := keccak_f (zip_with Z.lxor s (block_lanes b)).

(** The domain bits with the first bit of the padding ([d]), zeros, the last bit of the padding: one byte when
    only one is left in the block. *)
Definition pad10_1 (d : Z) (n : nat) : list Z :=
  let k := (r - n mod r)%nat in
  if (k =? 1)%nat then [d + 128] else [d] ++ replicate (k - 2) 0 ++ [128].

Definition blocks (m : list Z) : list (list Z) := (fun i => take r (drop (r * i) m)) <$> seq 0 (length m / r).

Definition state_byte (s : list Z) (i : nat) : Z := ((s !!! (i / 8)%nat) / 256 ^ Z.of_nat (i mod 8)) mod 256.

(** The output from a state, and the sponge. *)
Definition squeezed (s : list Z) (n : nat) : list Z := (fun i => state_byte (Nat.iter (i / r) keccak_f s) (i mod r)) <$> seq 0 n.

Definition sponge (d : Z) (m : list Z) (n : nat) : list Z :=
  squeezed (foldl sponge_block (replicate 25 0) (blocks (m ++ pad10_1 d (length m)))) n.
End Standard.

(** SHAKE128, SHAKE256, SHA3-256, SHA3-384 and SHA3-512. *)
Definition SHAKE128 (m : list Z) (n : nat) : list Z := sponge 21 0x1F m n.
Definition SHAKE256 (m : list Z) (n : nat) : list Z := sponge 17 0x1F m n.
Definition SHA3_256 (m : list Z) : list Z := sponge 17 0x06 m 32.
Definition SHA3_384 (m : list Z) : list Z := sponge 13 0x06 m 48.
Definition SHA3_512 (m : list Z) : list Z := sponge 9 0x06 m 64.

Example SHAKE256_empty : SHAKE256 [] 8 = [0x46; 0xb9; 0xdd; 0x2b; 0x0b; 0xa8; 0x8d; 0x13].
Proof. vm_compute. reflexivity. Qed.

#[local] Opaque KeccakF1600_StatePermute keccak_f.

(** * The program *)

Lemma absorbed_length r m : forall st, length st.1 = 25%nat -> length (foldl (absorb_byte r) st m).1 = 25%nat.
Proof.
  induction m as [|b m IH]; intros st Hst; [exact Hst|]. cbn [foldl]. apply IH. unfold absorb_byte.
  destruct (st.2 + 1 =? r)%nat; cbn [fst]; [apply permute_length | now rewrite xor_byte_length].
Qed.

Section Refinement.
Context (w : nat) (Hw : (0 < w <= 25)%nat).
Abbreviation r := (8 * w)%nat.

Lemma load64_value b : length b = 8%nat -> Forall (in_width 8) b -> load64 b = lane_value b.
Proof using.
  clear. intros Hl Hb. destruct b as [|b0 [|b1 [|b2 [|b3 [|b4 [|b5 [|b6 [|b7 [|]]]]]]]]]; try discriminate Hl.
  rewrite !List.Forall_cons_iff in Hb. destruct Hb as (H0 & H1 & H2 & H3 & H4 & H5 & H6 & H7 & _).
  assert (forall k x b, 0 <= k < 8 -> 0 <= x < 2 ^ (8 * k) -> in_width 8 b ->
    x .| u64 (b .<< (8 * k)) = x + b * 256 ^ k /\ 0 <= x + b * 256 ^ k < 2 ^ (8 * (k + 1))) as step.
  { intros k x b Hk Hx Hb. pose proof (shifted_byte b (Z.to_nat k) Hb ltac:(lia)) as E. rewrite Z2Nat.id in E by lia. rewrite E.
    rewrite Z.lor_comm, lor_shiftl_add by lia. rewrite Z.mul_add_distr_l, Z.pow_add_r by lia. change (2 ^ (8 * 1)) with 256. unfold in_width in Hb. change (2 ^ 8) with 256 in Hb.
    assert (256 ^ k = 2 ^ (8 * k)) as -> by (now rewrite Z.pow_mul_r by lia). nia. }
  change (load64 [b0; b1; b2; b3; b4; b5; b6; b7]) with ((((((((0 .| u64 (b0 .<< (8 * 0))) .| u64 (b1 .<< (8 * 1))) .| u64 (b2 .<< (8 * 2))) .| u64 (b3 .<< (8 * 3))) .| u64 (b4 .<< (8 * 4))) .| u64 (b5 .<< (8 * 5))) .| u64 (b6 .<< (8 * 6))) .| u64 (b7 .<< (8 * 7))).
  destruct (step 0 0 b0 ltac:(lia) ltac:(cbn; lia) H0) as [E0 R0]. destruct (step 1 _ b1 ltac:(lia) R0 H1) as [E1 R1]. destruct (step 2 _ b2 ltac:(lia) R1 H2) as [E2 R2].
  destruct (step 3 _ b3 ltac:(lia) R2 H3) as [E3 R3]. destruct (step 4 _ b4 ltac:(lia) R3 H4) as [E4 R4]. destruct (step 5 _ b5 ltac:(lia) R4 H5) as [E5 R5].
  destruct (step 6 _ b6 ltac:(lia) R5 H6) as [E6 R6]. destruct (step 7 _ b7 ltac:(lia) R6 H7) as [E7 _].
  rewrite E0, E1, E2, E3, E4, E5, E6, E7. unfold lane_value. cbn [foldr]. ring.
Qed.

(** Adding a block to the state. *)
Lemma add_block s m : length s = 25%nat -> (r <= length m)%nat -> Forall (in_width 8) m -> xor_block r s m = zip_with Z.lxor s (block_lanes w m).
Proof using Hw.
  intros Hs Hm Hb. unfold xor_block. rewrite (rate_words w). destruct (for_up_elementwise (fun i x => x .^ load64 (take 8 (drop (8 * i) m))) w s) as [Hl Hk].
  assert (length (block_lanes w m) = 25%nat) as HL by (unfold block_lanes; rewrite length_app, length_fmap, length_seq, length_replicate; lia).
  apply list_eq_total; [rewrite Hl, length_zip_with; lia|]. intros i Hi. rewrite Hl, Hs in Hi. rewrite Hk by lia.
  rewrite (lookup_total_zip_with Z.lxor) by lia. unfold block_lanes. destruct (Nat.ltb_spec i w) as [Hlt|Hge].
  - rewrite lookup_total_app_l by (now rewrite length_fmap, length_seq). rewrite (list_lookup_total_fmap _ (seq 0 w) i) by (now rewrite length_seq).
    rewrite lookup_total_seq_lt, Nat.add_0_l by exact Hlt. rewrite load64_value; [reflexivity | rewrite length_take, length_drop; lia | now apply Forall_take, Forall_drop].
  - rewrite lookup_total_app_r by (rewrite length_fmap, length_seq; exact Hge). rewrite length_fmap, length_seq, lookup_total_replicate_2, Z.lxor_0_r by lia. reflexivity.
Qed.

Lemma blocks_short m : (length m < r)%nat -> blocks w m = [].
Proof using. clear. intros H. unfold blocks. now rewrite Nat.div_small. Qed.

Lemma blocks_app b m : length b = r -> blocks w (b ++ m) = b :: blocks w m.
Proof using Hw.
  intros Hb. unfold blocks. rewrite length_app, Hb. replace (r + length m)%nat with (length m + 1 * r)%nat by lia. rewrite Nat.div_add by lia.
  rewrite Nat.add_1_r. cbn [seq fmap list_fmap]. rewrite Nat.mul_0_r, drop_0, take_app_length' by (symmetry; exact Hb). f_equal.
  rewrite <- fmap_S_seq, <- list_fmap_compose. apply list_fmap_ext. intros _ i _. cbn [compose]. f_equal. rewrite Nat.mul_succ_r, Nat.add_comm, <- drop_drop.
  now rewrite drop_app_length'.
Qed.

Lemma pad10_1_period d n : pad10_1 w d (r + n) = pad10_1 w d n.
Proof using Hw. unfold pad10_1. replace (r + n)%nat with (n + 1 * r)%nat by lia. now rewrite Nat.Div0.mod_add. Qed.

(** The last block. *)
Lemma pad_block_app d m : 0 <= d < 128 -> (length m < r)%nat -> pad_block r m d = m ++ pad10_1 w d (length m).
Proof using Hw.
  intros Hd Hm. assert (length (pad_block r m d) = r) as Hl.
  { unfold pad_block. rewrite !length_insert, for_up_length, length_replicate; [reflexivity|]. intros. apply length_insert. }
  unfold pad10_1. rewrite (Nat.mod_small (length m)) by exact Hm. destruct (Nat.eqb_spec (r - length m) 1) as [He|Hne].
  - apply list_eq_total; [rewrite Hl, length_app; cbn [length]; lia|]. intros i Hi. rewrite Hl in Hi. rewrite pad_block_lookup by lia.
    destruct (Nat.ltb_spec i (length m)) as [Hlt|Hge].
    + rewrite lookup_total_app_l by exact Hlt. destruct (Nat.eqb_spec i (r - 1)); [lia|]. apply Z.lor_0_r.
    + rewrite lookup_total_app_r by exact Hge. replace (i - length m)%nat with 0%nat by lia. replace i with (length m) by lia. rewrite Nat.eqb_refl.
      destruct (Nat.eqb_spec (length m) (r - 1)); [|lia]. cbn [lookup_total list_lookup_total]. rewrite Z.lor_comm. change (128 .| d) with ((1 .<< 7) .| d). rewrite lor_shiftl_add by lia. lia.
  - apply list_eq_total; [rewrite Hl, !length_app, length_replicate; cbn [length]; lia|]. intros i Hi. rewrite Hl in Hi. rewrite pad_block_lookup by lia.
    destruct (Nat.ltb_spec i (length m)) as [Hlt|Hge].
    + rewrite lookup_total_app_l by exact Hlt. destruct (Nat.eqb_spec i (r - 1)); [lia|]. apply Z.lor_0_r.
    + rewrite lookup_total_app_r by exact Hge. destruct (Nat.eqb_spec i (length m)) as [->|Hi'].
      * rewrite Nat.sub_diag. destruct (Nat.eqb_spec (length m) (r - 1)); [lia|]. apply Z.lor_0_r.
      * rewrite lookup_total_app_r by (cbn [length]; lia). cbn [length]. destruct (Nat.eqb_spec i (r - 1)) as [->|Hi''].
        -- rewrite lookup_total_app_r by (rewrite length_replicate; lia). rewrite length_replicate. now replace (r - 1 - length m - 1 - (r - length m - 2))%nat with 0%nat by lia.
        -- rewrite lookup_total_app_l by (rewrite length_replicate; lia). now rewrite lookup_total_replicate_2 by lia.
Qed.

Lemma sponge_block_length s b : length s = 25%nat -> length (sponge_block w s b) = 25%nat.
Proof using Hw.
  intros Hs. unfold sponge_block. rewrite <- permute_spec; [apply permute_length|]. rewrite length_zip_with. unfold block_lanes.
  rewrite length_app, length_fmap, length_seq, length_replicate. lia.
Qed.

Lemma absorb_one_block s b : length s = 25%nat -> length b = r -> Forall (in_width 8) b -> foldl (absorb_byte r) (s, 0%nat) b = (sponge_block w s b, 0%nat).
Proof using Hw.
  intros Hs Lb Bb. pose proof (absorb_full r ltac:(lia) b s 0 ltac:(lia) ltac:(lia)) as A. rewrite Nat.sub_0_r, take_ge in A by lia. rewrite A.
  unfold sponge_block. rewrite <- (add_block s b) by (assumption || lia). unfold xor_block. rewrite (rate_words w), xor_block_bytes by (lia || exact Bb).
  rewrite permute_spec; [reflexivity|]. now rewrite (xor_bytes_length r 0).
Qed.

(** Absorbing, then finalizing. *)
Lemma finalize_absorbed d m : 0 <= d < 128 -> Forall (in_width 8) m -> forall s, length s = 25%nat ->
  keccak_f (inc_s (keccak_inc_finalize (of_state (foldl (absorb_byte r) (s, 0%nat) m)) r d)) =
    foldl (sponge_block w) s (blocks w (m ++ pad10_1 w d (length m))).
Proof using Hw.
  intros Hd. remember (length m) as n eqn:Hn. revert m Hn. induction n as [n IH] using lt_wf_ind. intros m -> Hb s Hs.
  destruct (Nat.lt_ge_cases (length m) r) as [Hlt|Hge].
  - rewrite <- pad_block_finalize by (exact Hw || exact Hd || assumption). rewrite pad_block_app by assumption.
    assert (length (m ++ pad10_1 w d (length m)) = r) as Hl.
    { rewrite <- pad_block_app by assumption. unfold pad_block. rewrite !length_insert, for_up_length, length_replicate; [reflexivity|]. intros. apply length_insert. }
    rewrite <- (app_nil_r (m ++ pad10_1 w d (length m))) at 2. rewrite blocks_app, blocks_short by (exact Hl || (cbn [length]; lia)). cbn [foldl]. unfold sponge_block.
    f_equal. apply add_block; [exact Hs | lia|]. rewrite Forall_app. split; [exact Hb|]. unfold pad10_1.
    destruct (_ =? 1)%nat; repeat (apply Forall_app; split); try (apply Forall_replicate); repeat constructor; unfold in_width; lia.
  - set (b := take r m). set (m' := drop r m). assert (m = b ++ m') as E by (symmetry; apply take_drop). assert (length b = r) as Lb by (unfold b; rewrite length_take; lia).
    assert (length m = r + length m')%nat as Lm by (rewrite E, length_app; lia). rewrite Lm, pad10_1_period. rewrite E in Hb |- *. apply Forall_app in Hb as [Bb Bm].
    assert (foldl (absorb_byte r) (s, 0%nat) b = (sponge_block w s b, 0%nat)) as A by (now apply absorb_one_block).
    rewrite <- app_assoc, blocks_app by exact Lb. rewrite (foldl_app (absorb_byte r)), A. cbn [foldl].
    apply IH; [lia | reflexivity | exact Bm | now apply sponge_block_length].
Qed.

(** Squeezing. *)
Lemma get_byte_state s i : get_byte s i = state_byte s i.
Proof using. clear. unfold get_byte, state_byte. rewrite wrap_mod, Z.shiftr_div_pow2 by lia. now rewrite Z.pow_mul_r by lia. Qed.

Lemma squeezed_correct n : forall s, length s = 25%nat -> (squeeze_bytes r n (s, 0%nat)).2 = squeezed w (keccak_f s) n.
Proof using Hw.
  induction n as [n IH] using lt_wf_ind. intros s Hs. destruct (decide (n = 0%nat)) as [->|Hne]; [reflexivity|].
  assert (forall k, (k <= r)%nat -> (fun i => get_byte (keccak_f s) i) <$> seq 0 k = squeezed w (keccak_f s) k) as E.
  { intros k Hk. unfold squeezed. apply list_fmap_ext. intros _ i Hi%list_elem_of_lookup_2%elem_of_seq. rewrite Nat.div_small, Nat.mod_small by lia. apply get_byte_state. }
  destruct (Nat.le_gt_cases n r) as [Hle|Hgt].
  - rewrite squeeze_fresh, permute_spec by (exact Hs || lia). now apply E.
  - replace n with (r + (n - r))%nat by lia. rewrite squeeze_stream_add, squeeze_fresh, Nat.sub_diag, permute_spec by (exact Hs || lia). rewrite E by lia.
    assert (length (keccak_f s) = 25%nat) as Hl by (rewrite <- permute_spec by exact Hs; apply permute_length).
    specialize (IH (n - r)%nat ltac:(lia) (keccak_f s) Hl). destruct (squeeze_bytes r (n - r) _) as [st h]. cbn [snd] in *. rewrite IH. clear IH.
    unfold squeezed. rewrite seq_app, fmap_app. f_equal. cbn [Nat.add]. assert (seq r (n - r) = Nat.add r <$> seq 0 (n - r)) as -> by (now rewrite fmap_add_seq, Nat.add_0_r). rewrite <- list_fmap_compose.
    apply list_fmap_ext. intros _ i _. cbn [compose]. replace (r + i)%nat with (i + 1 * r)%nat by lia. rewrite Nat.div_add, Nat.Div0.mod_add, Nat.add_1_r, Nat.iter_succ_r by lia. reflexivity.
Qed.

(** The sponge of the program is that of the standard. *)
Lemma sponge_correct d m n : 0 <= d < 128 -> Forall (in_width 8) m ->
  (squeeze_bytes r n (ctx_state (keccak_inc_finalize (of_state (foldl (absorb_byte r) (replicate 25 0, 0%nat) m)) r d))).2 = sponge w d m n.
Proof using Hw.
  intros Hd Hb. unfold ctx_state, sponge. cbn [keccak_inc_finalize inc_count]. rewrite squeezed_correct.
  - f_equal. now apply finalize_absorbed.
  - cbn [inc_s keccak_inc_finalize]. rewrite !xor_byte_length. cbn [of_state inc_s]. now apply absorbed_length.
Qed.
End Refinement.

(** * The functions of [fips202.c] *)

Lemma shake128_correct m n : Forall (in_width 8) m -> shake128 n m = Some (SHAKE128 m n).
Proof.
  intros Hm. unfold shake128, shake128_absorb. rewrite (keccak_absorb_spec 21 0x1F ltac:(lia) ltac:(lia) m Hm : keccak_absorb SHAKE128_RATE _ _ = _).
  unfold SHAKE128. rewrite <- sponge_correct by (lia || exact Hm). exact (squeeze_oneshot 21 0x1F ltac:(lia) ltac:(lia) _ _).
Qed.

Lemma shake256_correct m n : Forall (in_width 8) m -> shake256 n m = Some (SHAKE256 m n).
Proof.
  intros Hm. unfold shake256, shake256_absorb. rewrite (keccak_absorb_spec 17 0x1F ltac:(lia) ltac:(lia) m Hm : keccak_absorb SHAKE256_RATE _ _ = _).
  unfold SHAKE256. rewrite <- sponge_correct by (lia || exact Hm). exact (squeeze_oneshot 17 0x1F ltac:(lia) ltac:(lia) _ _).
Qed.

(** A digest: part of the first block. *)
Lemma digest_block w d m k : (0 < w <= 25)%nat -> 0 <= d < 128 -> Forall (in_width 8) m -> (0 < k <= 8 * w)%nat ->
  (s ← keccak_absorb (8 * w) m d; let '(s, t) := keccak_squeezeblocks 1 s (8 * w) in Some (take k t)) = Some (sponge w d m k).
Proof.
  intros Hw Hd Hm Hk. rewrite (keccak_absorb_spec w d Hw Hd m Hm). cbn [mbind option_bind]. rewrite <- sponge_correct by assumption.
  unfold ctx_state. cbn [keccak_squeezeblocks keccak_inc_finalize inc_count]. rewrite squeeze_fresh, app_nil_r, (rate_words w), get_bytes_store by lia.
  cbn [snd]. now rewrite <- fmap_take, take_seq, Nat.min_l by lia.
Qed.

Lemma sha3_correct m : Forall (in_width 8) m -> sha3_256 m = Some (SHA3_256 m) /\ sha3_384 m = Some (SHA3_384 m) /\ sha3_512 m = Some (SHA3_512 m).
Proof.
  intros Hm. split; [|split]; [exact (digest_block 17 6 m 32 ltac:(lia) ltac:(lia) Hm ltac:(lia)) | exact (digest_block 13 6 m 48 ltac:(lia) ltac:(lia) Hm ltac:(lia)) | exact (digest_block 9 6 m 64 ltac:(lia) ltac:(lia) Hm ltac:(lia))].
Qed.
