(* ===== verification/HashToPoint.v ===== *)
(** HashToPoint: the SHAKE-based hashing to a polynomial of [common.c].

    [hash_to_point_vartime] is rejection sampling on the extracted stream; [hash_to_point_ct] draws a
    fixed number of samples and squeezes the rejected ones out by a network of masked swaps.  The
    reference is the list of accepted samples, [accepted]. *)

From Stdlib Require Import ZArith Lia.
From stdpp Require Import base numbers list option.
From S2P Require Import Prelude NumberTheory Mq Polynomial Poly Keccak Shake.

(** [inner_shake256_context] and its operations are those of fips202. *)
Abbreviation inner_shake256_context := inc_ctx.

(** [w = ((unsigned)buf[0] << 8) | (unsigned)buf[1];] after extracting two bytes. *)
Definition next_sample (sc : inner_shake256_context) : option (inner_shake256_context * Z) :=
  '(sc, buf) ← shake256_inc_squeeze 2 sc;
  Some (sc, u32 ((buf !!! 0%nat) .<< 8) .| (buf !!! 1%nat)).

(** [while (w >= 12289) w -= 12289;]. *)
Fixpoint subtract_q (fuel : nat) (w : Z) : Z :=
  match fuel with
  | O => w
  | S fuel => if 12289 <=? w then subtract_q fuel (u32 (w - 12289)) else w
  end.

(** [while (n > 0)]; [x] holds the coefficients written. *)
Fixpoint vartime_loop (fuel n : nat) (sc : inner_shake256_context) (x : list Z) :
    option (inner_shake256_context * list Z) :=
  match n with
  | O => Some (sc, x)
  | S n' =>
      match fuel with
      | O => None
      | S fuel =>
          '(sc, w) ← next_sample sc;
          if w <? 61445 then vartime_loop fuel n' sc (x ++ [u16 (subtract_q 5 w)])
          else vartime_loop fuel n sc x
      end
  end.

Definition hash_to_point_vartime (fuel : nat) (sc : inner_shake256_context) (logn : nat) :
    option (inner_shake256_context * list Z) :=
  vartime_loop fuel (2 ^ logn) sc [].

(** * The constant-time version *)

Definition overtab : list nat := [0; 65; 67; 71; 77; 86; 100; 122; 154; 205; 287]%nat.

(** The three arrays the samples are spread over. *)
Record ct_bufs := mk_bufs { ct_x : list Z; ct_tt1 : list Z; ct_tt2 : list Z }.

(** Slot [u]: [x[u]], [tt1[u - n]] or [tt2[u - n2]]. *)
Definition slot_read (n : nat) (b : ct_bufs) (u : nat) : Z :=
  if (u <? n)%nat then ct_x b !!! u
  else if (u <? 2 * n)%nat then ct_tt1 b !!! (u - n)%nat
  else ct_tt2 b !!! (u - 2 * n)%nat.

Definition slot_write (n : nat) (b : ct_bufs) (u : nat) (v : Z) : ct_bufs :=
  if (u <? n)%nat then mk_bufs (<[u := v]> (ct_x b)) (ct_tt1 b) (ct_tt2 b)
  else if (u <? 2 * n)%nat then mk_bufs (ct_x b) (<[(u - n)%nat := v]> (ct_tt1 b)) (ct_tt2 b)
  else mk_bufs (ct_x b) (ct_tt1 b) (<[(u - 2 * n)%nat := v]> (ct_tt2 b)).

(** The masked reduction of one sample; a rejected sample becomes 0xFFFF. *)
Definition ct_reduce (w : Z) : Z :=
  let wr := u32 (w - (24578 .& u32 ((u32 (w - 24578) .>> 31) - 1))) in
  let wr := u32 (wr - (24578 .& u32 ((u32 (wr - 24578) .>> 31) - 1))) in
  let wr := u32 (wr - (12289 .& u32 ((u32 (wr - 12289) .>> 31) - 1))) in
  u16 (wr .| u32 ((u32 (w - 61445) .>> 31) - 1)).

(** [for (u = 0; u < m; u ++)], the sampling loop: [todo] samples left, from slot [u]. *)
Fixpoint ct_sample (todo u n : nat) (sc : inner_shake256_context) (b : ct_bufs) :
    option (inner_shake256_context * ct_bufs) :=
  match todo with
  | O => Some (sc, b)
  | S todo =>
      '(sc, w) ← next_sample sc;
      ct_sample todo (S u) n sc (slot_write n b u (ct_reduce w))
  end.

(** One iteration of the squeezing pass by jumps of [p]: slot [u], destination counter [v]. *)
Definition ct_step (n p u : nat) (st : Z * ct_bufs) : Z * ct_bufs :=
  let '(v, b) := st in
  let sv := slot_read n b u in
  let j := u32 (Z.of_nat u - v) in
  let mk := u32 ((sv .>> 15) - 1) in
  let v := u32 (v - mk) in
  if (u <? p)%nat then (v, b)
  else
    let dv := slot_read n b (u - p) in
    let mk := mk .& u32 (- (u32 ((j .& Z.of_nat p) + 0x1FF) .>> 9)) in
    let b := slot_write n b u (u16 (sv .^ (mk .& (sv .^ dv)))) in
    (v, slot_write n b (u - p) (u16 (dv .^ (mk .& (sv .^ dv))))).

Definition ct_pass (n m p : nat) (b : ct_bufs) : ct_bufs :=
  (for_up 0 m (ct_step n p) (0, b)).2.

(** [for (p = 1; p <= over; p <<= 1)]. *)
Fixpoint ct_passes (fuel n m over p : nat) (b : ct_bufs) : ct_bufs :=
  match fuel with
  | O => b
  | S fuel => if (p <=? over)%nat then ct_passes fuel n m over (2 * p) (ct_pass n m p b) else b
  end.

(** [x], [tmp] (read as [n] 16-bit slots) and the stack buffer [tt2] hold arbitrary values on entry. *)
Definition hash_to_point_ct (sc : inner_shake256_context) (logn : nat) (bufs : ct_bufs) :
    option (inner_shake256_context * list Z) :=
  let n := (2 ^ logn)%nat in
  let over := overtab !!! logn in
  let m := (n + over)%nat in
  '(sc, b) ← ct_sample m 0 n sc bufs;
  Some (sc, ct_x (ct_passes (S over) n m over 1 b)).

(** * The reference *)

(** The 16-bit samples the context yields, in order. *)
Fixpoint samples (k : nat) (sc : inner_shake256_context) : list Z :=
  match k with
  | O => []
  | S k => match next_sample sc with
           | Some (sc, w) => w :: samples k sc
           | None => []
           end
  end.

(** Accepted samples, reduced. *)
Definition accepted (ws : list Z) : list Z :=
  (fun w => w mod Q) <$> filter (fun w => w < 61445) ws.

Example h2p_smoke :
  snd <$> hash_to_point_vartime 9 (shake256_inc_finalize (mk_inc (replicate 25 0) 0)) 3 =
  snd <$> hash_to_point_ct (shake256_inc_finalize (mk_inc (replicate 25 0) 0)) 3
    (mk_bufs (replicate 8 7) (replicate 8 7) (replicate 63 7)).
Proof. vm_compute. reflexivity. Qed.

(** * Sampling *)

#[local] Opaque KeccakF1600_StatePermute.

Definition sc_ok (sc : inner_shake256_context) : Prop := (inc_count sc <= SHAKE256_RATE)%nat.

Lemma get_byte_width s pos : in_width 8 (get_byte s pos).
Proof. apply wrap_range. lia. Qed.

Lemma squeeze_bytes_bytes r n : forall st, Forall (in_width 8) (squeeze_bytes r n st).2.
Proof.
  induction n as [|n IH]; intros st; [constructor|]. cbn [squeeze_bytes].
  assert (in_width 8 (squeeze_byte r st).2) as Hb by (unfold squeeze_byte; destruct (st.2 =? 0)%nat; apply get_byte_width).
  destruct (squeeze_byte r st) as [st1 y]. specialize (IH st1). destruct (squeeze_bytes r n st1) as [st2 h]. now constructor.
Qed.

Lemma next_sample_total sc :
  sc_ok sc -> exists sc' w, next_sample sc = Some (sc', w) /\ sc_ok sc' /\ in_width 16 w.
Proof.
  intros Hsc. unfold next_sample, shake256_inc_squeeze. assert (0 < SHAKE256_RATE)%nat as Hr by (unfold SHAKE256_RATE; lia).
  rewrite (keccak_inc_squeeze_spec _ Hr) by exact Hsc.
  pose proof (squeeze_bytes_count SHAKE256_RATE Hr 2 (ctx_state sc) Hsc) as Hc.
  pose proof (squeeze_stream_length SHAKE256_RATE Hr 2 (ctx_state sc)) as Hl.
  pose proof (squeeze_bytes_bytes SHAKE256_RATE 2 (ctx_state sc)) as Hb.
  destruct (squeeze_bytes SHAKE256_RATE 2 (ctx_state sc)) as [st h]. cbn [fst snd mbind option_bind] in *.
  destruct h as [|b0 [|b1 [|]]]; try done. apply Forall_cons_iff in Hb as [Hb0 Hb]. apply Forall_cons_iff in Hb as [Hb1 _].
  do 2 eexists. split; [done|]. split; [exact Hc|]. cbn. unfold in_width in *.
  rewrite wrap_small by (unfold in_width; rewrite Z.shiftl_mul_pow2 by lia; lia). rewrite lor_shiftl_add by lia. lia.
Qed.

#[local] Opaque next_sample.

Lemma samples_length k : forall sc, sc_ok sc -> length (samples k sc) = k.
Proof.
  induction k as [|k IH]; intros sc Hsc; [done|]. cbn [samples].
  destruct (next_sample_total sc Hsc) as (sc' & w & -> & Hsc' & _). simpl. now rewrite IH.
Qed.

Lemma samples_range k : forall sc, sc_ok sc -> Forall (in_width 16) (samples k sc).
Proof.
  induction k as [|k IH]; intros sc Hsc; [constructor|]. cbn [samples].
  destruct (next_sample_total sc Hsc) as (sc' & w & -> & Hsc' & Hw). constructor; [done | now apply IH].
Qed.

Lemma subtract_q_spec fuel : forall w,
  0 <= w < Z.of_nat fuel * Q -> 0 <= w < 2 ^ 16 -> subtract_q fuel w = w mod Q.
Proof.
  induction fuel as [|fuel IH]; intros w Hw H16; [lia|]. cbn [subtract_q]. unfold Q in *.
  destruct (Z.leb_spec 12289 w).
  - rewrite wrap_small by (unfold in_width; lia). rewrite IH by lia.
    replace w with (w - 12289 + 1 * 12289) at 2 by lia. now rewrite Z_mod_plus_full.
  - symmetry. apply Z.mod_small. lia.
Qed.

Lemma accepted_app a b : accepted (a ++ b) = accepted a ++ accepted b.
Proof. unfold accepted. now rewrite list.filter_app, fmap_app. Qed.

Lemma accepted_cons w ws : accepted (w :: ws) = (if decide (w < 61445) then [w mod Q] else []) ++ accepted ws.
Proof. unfold accepted. rewrite filter_cons. now case_decide. Qed.

Lemma accepted_ok ws : Forall in_q (accepted ws).
Proof. apply Forall_fmap, Forall_true. intros w. apply Z.mod_pos_bound. unfold Q. lia. Qed.

(** Rejection sampling: when enough of the first [fuel] samples are accepted, the loop returns the
    first [n] of them. *)
Lemma vartime_loop_spec fuel : forall n sc x,
  sc_ok sc -> (n <= length (accepted (samples fuel sc)))%nat ->
  exists sc', vartime_loop fuel n sc x = Some (sc', x ++ take n (accepted (samples fuel sc))).
Proof.
  induction fuel as [|fuel IH]; intros n sc x Hsc Hn.
  - cbn in Hn. assert (n = 0)%nat as -> by lia. exists sc. cbn. now rewrite app_nil_r.
  - destruct n as [|n]; [exists sc; cbn [vartime_loop take]; now rewrite app_nil_r|]. cbn [samples vartime_loop] in *.
    destruct (next_sample_total sc Hsc) as (sc' & w & Hs & Hsc' & Hw). rewrite Hs in *. cbn [mbind option_bind].
    rewrite accepted_cons in *. unfold in_width in Hw. destruct (Z.ltb_spec w 61445); case_decide; try lia.
    + cbn [app length] in *. destruct (IH n sc' (x ++ [u16 (subtract_q 5 w)]) Hsc' ltac:(lia)) as (sc'' & ->).
      exists sc''. rewrite <- app_assoc. cbn [take app]. do 4 f_equal.
      rewrite subtract_q_spec by (unfold Q; lia). apply in_q_u16. apply Z.mod_pos_bound. unfold Q. lia.
    + cbn [app] in *. now apply IH.
Qed.

Lemma masked_subtract w c :
  0 <= w < 2 ^ 16 -> 0 <= c < 2 ^ 16 ->
  u32 (w - (c .& u32 ((u32 (w - c) .>> 31) - 1))) = if w <? c then w else w - c.
Proof.
  intros Hw Hc. rewrite Z.shiftr_div_pow2 by lia. destruct (Z.ltb_spec w c).
  - assert (u32 (w - c) = w - c + 2 ^ 32) as -> by (rewrite wrap_mod by lia; symmetry; apply (Z.mod_unique _ _ (-1)); lia).
    replace ((w - c + 2 ^ 32) / 2 ^ 31) with 1 by (apply (Z.div_unique _ _ _ (w - c + 2 ^ 31)); lia).
    change (u32 (1 - 1)) with 0. rewrite Z.land_0_r, Z.sub_0_r. apply wrap_small. unfold in_width. lia.
  - rewrite (wrap_small 32 (w - c)) by (unfold in_width; lia). rewrite Z.div_small by lia.
    change (u32 (0 - 1)) with (Z.ones 32). change (c .& Z.ones 32) with (u32 c).
    rewrite (wrap_small 32 c) by (unfold in_width; lia). apply wrap_small. unfold in_width. lia.
Qed.

(** One sample of the constant-time version: reduced when accepted, 0xFFFF when rejected. *)
Lemma ct_reduce_spec w : in_width 16 w -> ct_reduce w = if w <? 61445 then w mod Q else 0xFFFF.
Proof.
  unfold in_width. intros Hw. unfold ct_reduce. rewrite (masked_subtract w 24578) by lia.
  set (w1 := if w <? 24578 then w else w - 24578). assert (0 <= w1 < 2 ^ 16 /\ w1 mod Q = w mod Q) as [H1 E1].
  { unfold w1. destruct (Z.ltb_spec w 24578); [done|]. split; [lia|]. replace w with (w - 24578 + 2 * Q) at 2 by (unfold Q; lia). now rewrite Z_mod_plus_full. }
  assert (w < 61445 -> w1 < 36867) as B1 by (unfold w1; destruct (Z.ltb_spec w 24578); lia). clearbody w1.
  rewrite (masked_subtract w1 24578) by lia. set (w2 := if w1 <? 24578 then w1 else w1 - 24578).
  assert (0 <= w2 < 2 ^ 16 /\ w2 mod Q = w1 mod Q) as [H2 E2].
  { unfold w2. destruct (Z.ltb_spec w1 24578); [done|]. split; [lia|]. replace w1 with (w1 - 24578 + 2 * Q) at 2 by (unfold Q; lia). now rewrite Z_mod_plus_full. }
  assert (w < 61445 -> w2 < 24578) as B2 by (unfold w2; destruct (Z.ltb_spec w1 24578); lia). clearbody w2.
  rewrite (masked_subtract w2 12289) by lia. rewrite Z.shiftr_div_pow2 by lia.
  destruct (Z.ltb_spec w 61445).
  - assert (u32 (w - 61445) = w - 61445 + 2 ^ 32) as -> by (rewrite wrap_mod by lia; symmetry; apply (Z.mod_unique _ _ (-1)); lia).
    replace ((w - 61445 + 2 ^ 32) / 2 ^ 31) with 1 by (apply (Z.div_unique _ _ _ (w - 61445 + 2 ^ 31)); lia).
    change (u32 (1 - 1)) with 0. rewrite Z.lor_0_r, <- E1, <- E2.
    assert ((if w2 <? 12289 then w2 else w2 - 12289) = w2 mod Q) as ->.
    { destruct (Z.ltb_spec w2 12289); [symmetry; apply Z.mod_small; unfold Q; lia|].
      apply (Z.mod_unique _ _ 1); unfold Q; lia. }
    apply in_q_u16. apply Z.mod_pos_bound. unfold Q. lia.
  - rewrite (wrap_small 32 (w - 61445)) by (unfold in_width; lia). rewrite Z.div_small by lia.
    change (u32 (0 - 1)) with (Z.ones 32). unfold wrap. rewrite Z.land_lor_distr_l.
    change (Z.ones 32 .& Z.ones 16) with (Z.ones 16). change 0xFFFF with (Z.ones 16).
    apply Z.bits_inj'. intros k Hk. rewrite Z.lor_spec, Z.land_spec. destruct (Z.testbit (Z.ones 16) k); [apply orb_true_r | now rewrite andb_false_r].
Qed.

(** * Squeezing out the rejected samples *)

(** The three arrays as one. *)
Definition view (b : ct_bufs) : list Z := ct_x b ++ ct_tt1 b ++ ct_tt2 b.

Definition bufs_ok (n m : nat) (b : ct_bufs) : Prop :=
  length (ct_x b) = n /\ length (ct_tt1 b) = n /\ (m <= 2 * n + length (ct_tt2 b))%nat.

Lemma slot_read_view n m b u : bufs_ok n m b -> (u < m)%nat -> slot_read n b u = view b !!! u.
Proof.
  intros (Hx & H1 & H2) Hu. unfold slot_read, view.
  destruct (Nat.ltb_spec u n); [now rewrite lookup_total_app_l by lia|].
  rewrite (lookup_total_app_r (ct_x b)), Hx by lia.
  destruct (Nat.ltb_spec u (2 * n)); [now rewrite lookup_total_app_l by lia|].
  rewrite lookup_total_app_r, H1 by lia. f_equal. lia.
Qed.

Lemma slot_write_view n m b u v :
  bufs_ok n m b -> (u < m)%nat ->
  bufs_ok n m (slot_write n b u v) /\ view (slot_write n b u v) = <[u := v]> (view b).
Proof.
  intros (Hx & H1 & H2) Hu. unfold slot_write, bufs_ok, view.
  destruct (Nat.ltb_spec u n); [|destruct (Nat.ltb_spec u (2 * n))]; cbn [ct_x ct_tt1 ct_tt2]; rewrite ?length_insert.
  - split; [done|]. now rewrite insert_app_l by lia.
  - split; [done|]. replace u with (length (ct_x b) + (u - n))%nat at 2 by lia. rewrite insert_app_r.
    now rewrite insert_app_l by lia.
  - split; [done|]. replace u with (length (ct_x b) + (length (ct_tt1 b) + (u - 2 * n)))%nat at 2 by lia.
    now rewrite !insert_app_r.
Qed.

Lemma view_length n m b : bufs_ok n m b -> (m <= length (view b))%nat.
Proof. intros (Hx & H1 & H2). unfold view. rewrite !length_app. lia. Qed.

Section Compaction.
  (** The accepted samples: rank [r] starts at slot [idx r] with value [val r]. *)
  Context (n m R : nat) (idx : nat -> nat) (val : nat -> Z).
  Context (Hm : Z.of_nat m < 65536).
  Context (Hidx : forall r r', (r < r' < R)%nat -> (idx r < idx r')%nat).
  Context (Hbound : forall r, (r < R)%nat -> (r <= idx r < m)%nat).
  Context (Hval : forall r, (r < R)%nat -> 0 <= val r < 2 ^ 15).

(** Where rank [r] is once the jumps below [2^k] are done: its distance to slot [r] is a multiple of
    [2^k]. *)
Definition place (k r : nat) : nat := (r + 2 ^ k * ((idx r - r) / 2 ^ k))%nat.

Lemma idx_gap r r' : (r <= r')%nat -> (r' < R)%nat -> (idx r - r <= idx r' - r')%nat.
Proof.
  intros Hr. induction Hr as [|r' Hr IH]; intros Hlt; [done|].
  pose proof (Hidx r' (S r') ltac:(lia)). specialize (IH ltac:(lia)). pose proof (Hbound r' ltac:(lia)). lia.
Qed.

Lemma place_mono k r r' : (r < r' < R)%nat -> (place k r < place k r')%nat.
Proof.
  intros Hr. unfold place. pose proof (idx_gap r r' ltac:(lia) ltac:(lia)) as Hg.
  pose proof (Nat.Div0.div_le_mono _ _ (2 ^ k) Hg). nia.
Qed.

Lemma place_0 r : (r < R)%nat -> place 0 r = idx r.
Proof. intros Hr. unfold place. pose proof (Hbound r Hr). cbn [Nat.pow]. rewrite Nat.div_1_r. lia. Qed.

Lemma place_final k r : (idx r - r < 2 ^ k)%nat -> place k r = r.
Proof. intros H. unfold place. rewrite Nat.div_small by done. lia. Qed.

(** One more bit of the distance. *)
Lemma place_step k r :
  place k r = (place (S k) r + (if Nat.odd ((idx r - r) / 2 ^ k) then 2 ^ k else 0))%nat.
Proof.
  unfold place. set (d := (idx r - r)%nat). assert (2 ^ S k = 2 ^ k * 2)%nat as -> by (simpl; lia).
  rewrite <- Nat.Div0.div_div. set (e := (d / 2 ^ k)%nat). pose proof (Nat.div2_odd e) as He.
  rewrite Nat.div2_div in He. destruct (Nat.odd e); cbn [Nat.b2n] in He; nia.
Qed.

Lemma place_bound k r : (r < R)%nat -> (r <= place k r < m)%nat.
Proof.
  intros Hr. pose proof (Hbound r Hr) as Hb. unfold place.
  pose proof (Nat.Div0.mul_div_le (idx r - r) (2 ^ k)). lia.
Qed.

(** The array holds the accepted samples at the slots [P], and 0xFFFF elsewhere. *)
Definition holds (A : list Z) (P : nat -> nat) : Prop :=
  (m <= length A)%nat /\ (forall r, (r < R)%nat -> A !!! P r = val r) /\
  (forall q, (q < m)%nat -> in_width 16 (A !!! q)) /\
  (forall q, (q < m)%nat -> (forall r, (r < R)%nat -> P r <> q) -> A !!! q = 0xFFFF).

(** During the pass by [2^k], with slots below [u] visited and [c] accepted samples seen. *)
Definition mid (k c : nat) (r : nat) : nat := if (r <? c)%nat then place (S k) r else place k r.

Definition seen (k u c : nat) : Prop := (c <= R)%nat /\ forall r, (r < R)%nat -> (r < c <-> place k r < u)%nat.

(** The masked swap, by cases on its two conditions. *)
Lemma swap_mask (valid jump : bool) j p k :
  p = 2 ^ Z.of_nat k -> (k <= 8)%nat -> Z.testbit j (Z.of_nat k) = jump ->
  (if valid then Z.ones 32 else 0) .& u32 (- (u32 ((j .& p) + 0x1FF) .>> 9)) =
    if valid && jump then Z.ones 32 else 0.
Proof.
  intros -> Hk Hj. destruct valid; [|apply Z.land_0_l]. cbn [andb]. rewrite land_pow2, Hj by lia.
  destruct jump; [|reflexivity].
  do 9 (destruct k as [|k]; [reflexivity|]). lia.
Qed.

Lemma ones_swap a b : in_width 16 a -> in_width 16 b -> u16 (a .^ (Z.ones 32 .& (a .^ b))) = b.
Proof.
  intros Ha Hb. rewrite Z.land_comm. change ((a .^ b) .& Z.ones 32) with (u32 (a .^ b)).
  assert (in_width 32 (a .^ b)) as Hab by (apply (in_width_le 16 32); [lia | apply lxor_width; [lia | exact Ha | exact Hb]]).
  rewrite (wrap_small 32 _ Hab), <- Z.lxor_assoc, Z.lxor_nilpotent, Z.lxor_0_l. exact (wrap_small 16 b Hb).
Qed.

Lemma R_le_m : (R <= m)%nat.
Proof. destruct (Nat.eq_dec R 0%nat) as [->|HR]; [lia|]. pose proof (Hbound (R - 1)%nat ltac:(lia)). lia. Qed.

Lemma shift_valid v : 0 <= v < 2 ^ 15 -> u32 ((v .>> 15) - 1) = Z.ones 32.
Proof. intros Hv. rewrite Z.shiftr_div_pow2, Z.div_small by lia. reflexivity. Qed.

Lemma jump_odd k c u :
  (c <= u < m)%nat -> (u - c = 2 ^ k * ((idx c - c) / 2 ^ k))%nat ->
  Z.testbit (u32 (Z.of_nat u - Z.of_nat c)) (Z.of_nat k) = Nat.odd ((idx c - c) / 2 ^ k).
Proof.
  intros Hu He. rewrite wrap_small by (unfold in_width; lia). rewrite <- Nat2Z.inj_sub, He by lia.
  rewrite Nat2Z.inj_mul, Nat2Z.inj_pow, Z.mul_comm, <- Z.shiftl_mul_pow2, Z.shiftl_spec, Z.sub_diag by lia.
  rewrite Z.bit0_odd. set (e := ((idx c - c) / 2 ^ k)%nat).
  rewrite <- Nat.negb_even, <- Z.negb_even. f_equal. apply eq_true_iff_eq.
  rewrite Z.even_spec, Nat.even_spec. split; intros [h Hh]; [exists (Z.to_nat h) | exists (Z.of_nat h)]; lia.
Qed.

(** A visited slot without an accepted sample. *)
Lemma step_rejected k u c b :
  (u < m)%nat -> (k <= 8)%nat -> bufs_ok n m b -> seen k u c -> holds (view b) (mid k c) ->
  (forall r, (r < R)%nat -> place k r <> u) ->
  exists b', ct_step n (2 ^ k) u (Z.of_nat c, b) = (Z.of_nat c, b') /\
    bufs_ok n m b' /\ seen k (S u) c /\ holds (view b') (mid k c).
Proof.
  intros Hu Hk Hb [HcR Hc] (Hl & Hv & Hw & Hrej) Hno. pose proof R_le_m as HRm.
  assert (seen k (S u) c) as Hseen.
  { split; [done|]. intros r Hr. rewrite (Hc r Hr). specialize (Hno r Hr). lia. }
  assert (view b !!! u = 0xFFFF) as HA.
  { apply Hrej; [done|]. intros r Hr. unfold mid. specialize (Hno r Hr). destruct (Nat.ltb_spec r c) as [Hlt|]; [|done].
    apply (Hc r Hr) in Hlt. rewrite place_step in Hlt. lia. }
  unfold ct_step. rewrite (slot_read_view n m b u Hb Hu), HA.
  change (u32 ((0xFFFF .>> 15) - 1)) with 0. rewrite Z.sub_0_r, (wrap_small 32 (Z.of_nat c)) by (unfold in_width; lia).
  destruct (Nat.ltb_spec u (2 ^ k)) as [Hup|Hup]; [exists b; done|].
  pose proof (pow2_nat_pos k). assert (u - 2 ^ k < m)%nat as Hd by lia. rewrite (slot_read_view n m b _ Hb Hd).
  rewrite !Z.land_0_l, !Z.lxor_0_r.
  destruct (slot_write_view n m b u (u16 0xFFFF) Hb Hu) as [Hb1 Hv1].
  destruct (slot_write_view n m _ (u - 2 ^ k) (u16 (view b !!! (u - 2 ^ k)%nat)) Hb1 Hd) as [Hb2 Hv2].
  eexists. split; [done|]. split; [exact Hb2|]. split; [done|]. rewrite Hv2, Hv1.
  rewrite (wrap_small 16 (view b !!! _)) by now apply Hw.
  replace (<[u := u16 0xFFFF]> (view b)) with (view b).
  - rewrite list_insert_id by (apply list_lookup_lookup_total_lt; lia). now split.
  - symmetry. apply list_insert_id. change (u16 0xFFFF) with 0xFFFF. rewrite <- HA. apply list_lookup_lookup_total_lt. lia.
Qed.

(** Moving rank [c] from [place k c] to [place (S k) c], which is free. *)
Lemma swap_holds k c A :
  (c < R)%nat -> (forall r, (r < R)%nat -> (r < c <-> place k r < place k c)%nat) ->
  holds A (mid k c) -> place (S k) c <> place k c ->
  A !!! place (S k) c = 0xFFFF /\
  holds (<[place (S k) c := val c]> (<[place k c := 0xFFFF]> A)) (mid k (S c)).
Proof.
  intros Hc Hseen (Hl & Hv & Hw & Hrej) Hne.
  pose proof (place_bound k c Hc) as Hb1. pose proof (place_bound (S k) c Hc) as Hb2. pose proof (place_step k c) as Hs.
  assert (place (S k) c < place k c)%nat as Hlt by lia.
  assert (forall r, (r < R)%nat -> r <> c -> mid k c r <> place (S k) c /\ mid k c r <> place k c) as Hdis.
  { intros r Hr Hrc. unfold mid. destruct (Nat.ltb_spec r c) as [H|H].
    - pose proof (place_mono (S k) r c ltac:(lia)). lia.
    - pose proof (place_mono k c r ltac:(lia)). lia. }
  assert (mid k c c = place k c) as Hmc by (unfold mid; now rewrite Nat.ltb_irrefl).
  assert (mid k (S c) c = place (S k) c) as Hmc' by (unfold mid; now destruct (Nat.ltb_spec c (S c)); [|lia]).
  assert (forall r, r <> c -> mid k (S c) r = mid k c r) as Hsame.
  { intros r Hr. unfold mid. destruct (Nat.ltb_spec r c), (Nat.ltb_spec r (S c)); lia. }
  assert (A !!! place (S k) c = 0xFFFF) as Hfree.
  { apply Hrej; [lia|]. intros r Hr. destruct (decide (r = c)) as [->|Hrc]; [rewrite Hmc; lia | now apply Hdis]. }
  split; [done|]. split; [now rewrite !length_insert|]. split; [|split].
  - intros r Hr. destruct (decide (r = c)) as [->|Hrc].
    + rewrite Hmc', list_lookup_total_insert_eq by (rewrite length_insert; lia). done.
    + destruct (Hdis r Hr Hrc) as [Hd1 Hd2]. rewrite Hsame, !list_lookup_total_insert_ne by (done || lia). now apply Hv.
  - intros q Hq. destruct (decide (q = place (S k) c)) as [->|H1].
    + rewrite list_lookup_total_insert_eq by (rewrite length_insert; lia). pose proof (Hval c Hc). unfold in_width. lia.
    + rewrite list_lookup_total_insert_ne by lia. destruct (decide (q = place k c)) as [->|H2].
      * rewrite list_lookup_total_insert_eq by lia. done.
      * rewrite list_lookup_total_insert_ne by lia. now apply Hw.
  - intros q Hq Hno. assert (q <> place (S k) c) as H1 by (rewrite <- Hmc'; intros ->; now apply (Hno c Hc)).
    rewrite list_lookup_total_insert_ne by lia. destruct (decide (q = place k c)) as [->|H2].
    + now rewrite list_lookup_total_insert_eq by lia.
    + rewrite list_lookup_total_insert_ne by lia. apply Hrej; [done|]. intros r Hr. destruct (decide (r = c)) as [->|Hrc].
      * rewrite Hmc. lia.
      * rewrite <- Hsame by done. now apply Hno.
Qed.

(** A visited slot holding the accepted sample of rank [c]. *)
Lemma step_accepted k u c b :
  (k <= 8)%nat -> bufs_ok n m b -> seen k u c -> holds (view b) (mid k c) -> (c < R)%nat -> place k c = u ->
  exists b', ct_step n (2 ^ k) u (Z.of_nat c, b) = (Z.of_nat (S c), b') /\
    bufs_ok n m b' /\ seen k (S u) (S c) /\ holds (view b') (mid k (S c)).
Proof.
  intros Hk Hb [HcR Hc] Hh HcR' Hpu. pose proof Hh as (Hl & Hv & Hw & Hrej).
  pose proof (place_bound k c HcR') as Hbd. pose proof (place_bound (S k) c HcR') as Hbd'. pose proof (place_step k c) as Hs.
  assert (u < m)%nat as Hu by lia.
  assert (seen k (S u) (S c)) as Hseen.
  { split; [lia|]. intros r Hr. destruct (decide (r = c)) as [->|Hne]; [lia|].
    destruct (Nat.lt_ge_cases r c) as [H|H].
    - pose proof (place_mono k r c ltac:(lia)). lia.
    - pose proof (place_mono k c r ltac:(lia)). lia. }
  assert (mid k c c = u) as Hmc by (unfold mid; now rewrite Nat.ltb_irrefl).
  assert (view b !!! u = val c) as HA by (rewrite <- Hmc; now apply Hv).
  pose proof (Hval c HcR') as Hvc.
  unfold ct_step. rewrite (slot_read_view n m b u Hb Hu), HA, shift_valid by done.
  assert (u32 (Z.of_nat c - Z.ones 32) = Z.of_nat (S c)) as ->.
  { change (Z.ones 32) with (2 ^ 32 - 1). rewrite wrap_mod by lia. symmetry. apply (Z.mod_unique _ _ (-1)); lia. }
  pose proof (jump_odd k c u ltac:(lia) ltac:(unfold place in Hpu; lia)) as Hodd.
  set (odd := Nat.odd ((idx c - c) / 2 ^ k)) in *.
  assert (odd = false -> holds (view b) (mid k (S c))) as Hstay.
  { intros Ho. rewrite Ho in Hs. split; [done|].
    assert (forall r, (r < R)%nat -> mid k (S c) r = mid k c r) as Hsame.
    { intros r Hr. unfold mid. destruct (Nat.ltb_spec r c), (Nat.ltb_spec r (S c)); try lia.
      assert (r = c) as -> by lia. lia. }
    split; [intros r Hr; rewrite Hsame by done; now apply Hv|]. split; [done|].
    intros q Hq Hno. apply Hrej; [done|]. intros r Hr. rewrite <- Hsame by done. now apply Hno. }
  destruct (Nat.ltb_spec u (2 ^ k)) as [Hup|Hup].
  { exists b. split; [done|]. split; [done|]. split; [done|]. apply Hstay. destruct odd; [lia | done]. }
  pose proof (pow2_nat_pos k). assert (u - 2 ^ k < m)%nat as Hd by lia. rewrite (slot_read_view n m b _ Hb Hd).
  rewrite (swap_mask true odd _ _ k) by (done || now rewrite Nat2Z.inj_pow). cbn [andb].
  set (dv := view b !!! (u - 2 ^ k)%nat). assert (in_width 16 dv) as Hdv by now apply Hw.
  assert (in_width 16 (val c)) as Hvw by (unfold in_width; lia). destruct odd.
  - rewrite ones_swap by done. rewrite (Z.lxor_comm (val c) dv), ones_swap by done.
    destruct (slot_write_view n m b u dv Hb Hu) as [Hb1 Hv1].
    destruct (slot_write_view n m _ (u - 2 ^ k) (val c) Hb1 Hd) as [Hb2 Hv2].
    eexists. split; [done|]. split; [exact Hb2|]. split; [done|]. rewrite Hv2, Hv1.
    destruct (swap_holds k c (view b) HcR') as [Hfree Hnew]; [|done|lia|].
    { intros r Hr. rewrite Hpu. now apply Hc. }
    assert (place (S k) c = u - 2 ^ k)%nat as Hdst by lia. rewrite Hdst, Hpu in *.
    unfold dv. rewrite Hfree. exact Hnew.
  - rewrite !Z.land_0_l, !Z.lxor_0_r, !wrap_small by done.
    destruct (slot_write_view n m b u (val c) Hb Hu) as [Hb1 Hv1].
    destruct (slot_write_view n m _ (u - 2 ^ k) dv Hb1 Hd) as [Hb2 Hv2].
    eexists. split; [done|]. split; [exact Hb2|]. split; [done|]. rewrite Hv2, Hv1.
    rewrite <- HA, (list_insert_id (view b) u) by (apply list_lookup_lookup_total_lt; lia).
    unfold dv. rewrite list_insert_id by (apply list_lookup_lookup_total_lt; lia). now apply Hstay.
Qed.

Lemma place_decidable k u : (exists r, (r < R)%nat /\ place k r = u) \/ forall r, (r < R)%nat -> place k r <> u.
Proof.
  destruct (decide (Exists (fun r => place k r = u) (seq 0 R))) as [H|H].
  - left. apply Exists_exists in H as (r & Hr%in_seq & He). exists r. split; [lia | done].
  - right. intros r Hr He. apply H. apply Exists_exists. exists r. split; [apply in_seq; lia | done].
Qed.

(** One pass. *)
Lemma pass_holds k b :
  (k <= 8)%nat -> bufs_ok n m b -> holds (view b) (place k) ->
  bufs_ok n m (ct_pass n m (2 ^ k) b) /\ holds (view (ct_pass n m (2 ^ k) b)) (place (S k)).
Proof.
  intros Hk Hb Hh. unfold ct_pass.
  pose (inv (u : nat) (st : Z * ct_bufs) := exists c, st.1 = Z.of_nat c /\ bufs_ok n m st.2 /\
    seen k u c /\ holds (view st.2) (mid k c)).
  assert (inv m (for_up 0 m (ct_step n (2 ^ k)) (0, b))) as (c & _ & Hb' & [HcR Hc] & Hh').
  { apply (for_up_inv _ inv); [lia | |].
    - exists 0%nat. split; [done|]. split; [done|]. split; [split; [lia | intros; lia]|]. exact Hh.
    - intros u [v b1] Hu (c & Hv & Hb1 & Hs & Hh1). cbn [fst snd] in *. subst v.
      destruct (place_decidable k u) as [(r & Hr & Hp)|Hno].
      + assert (r = c) as ->.
        { destruct Hs as [HcR Hc]. destruct (Nat.lt_trichotomy r c) as [H|[H|H]]; [|done|].
          - apply (Hc r Hr) in H. lia.
          - pose proof (place_mono k c r ltac:(lia)). assert (c < c)%nat by (apply Hc; lia). lia. }
        destruct (step_accepted k u c b1 Hk Hb1 Hs Hh1 Hr Hp) as (b' & -> & ?). exists (S c). done.
      + destruct (step_rejected k u c b1 ltac:(lia) Hk Hb1 Hs Hh1 Hno) as (b' & -> & ?). exists c. done. }
  split; [done|]. destruct Hh' as (Hl & Hv & Hw & Hrej).
  assert (forall r, (r < R)%nat -> mid k c r = place (S k) r) as Hfin.
  { intros r Hr. unfold mid. destruct (Nat.ltb_spec r c) as [|H]; [done|]. pose proof (place_bound k r Hr).
    assert (r < c)%nat by (apply Hc; [done | lia]). lia. }
  split; [done|]. split; [intros r Hr; rewrite <- Hfin by done; now apply Hv|]. split; [done|].
  intros q Hq Hno. apply Hrej; [done|]. intros r Hr. rewrite Hfin by done. now apply Hno.
Qed.

(** All the passes: every accepted sample whose rank is less than [over] from its slot arrives. *)
Lemma passes_hold over fuel : forall k b,
  (over < 512)%nat -> (over < 2 ^ (fuel + k))%nat -> bufs_ok n m b -> holds (view b) (place k) ->
  exists k', (over < 2 ^ k')%nat /\ bufs_ok n m (ct_passes fuel n m over (2 ^ k) b) /\
    holds (view (ct_passes fuel n m over (2 ^ k) b)) (place k').
Proof.
  induction fuel as [|fuel IH]; intros k b Ho Hf Hb Hh; cbn [ct_passes]; [now exists k|].
  destruct (Nat.leb_spec (2 ^ k) over) as [Hle|Hgt]; [|now exists k].
  assert (k <= 8)%nat as Hk.
  { destruct (Nat.le_gt_cases k 8); [done|]. assert (2 ^ 9 <= 2 ^ k)%nat by (apply Nat.pow_le_mono_r; lia). simpl in *; lia. }
  destruct (pass_holds k b Hk Hb Hh) as [Hb' Hh']. change (2 * 2 ^ k)%nat with (2 ^ S k)%nat. apply IH; [done | | done | done].
  replace (fuel + S k)%nat with (S fuel + k)%nat by lia. done.
Qed.
End Compaction.

(** * From the samples to the polynomial *)

Lemma ct_sample_spec todo : forall u n m sc b,
  sc_ok sc -> bufs_ok n m b -> (u + todo <= m)%nat ->
  exists sc' b', ct_sample todo u n sc b = Some (sc', b') /\ bufs_ok n m b' /\
    (forall q, (q < u)%nat -> view b' !!! q = view b !!! q) /\
    (forall i, (i < todo)%nat -> view b' !!! (u + i)%nat = ct_reduce (samples todo sc !!! i)).
Proof.
  induction todo as [|todo IH]; intros u n m sc b Hsc Hb Hu; cbn [ct_sample samples].
  - exists sc, b. split; [done|]. split; [done|]. split; [done|]. intros; lia.
  - destruct (next_sample_total sc Hsc) as (sc1 & w & -> & Hsc1 & Hw). cbn [mbind option_bind].
    destruct (slot_write_view n m b u (ct_reduce w) Hb ltac:(lia)) as [Hb1 Hv1].
    destruct (IH (S u) n m sc1 _ Hsc1 Hb1 ltac:(lia)) as (sc' & b' & -> & Hb' & Hlow & Hhigh).
    pose proof (view_length n m b Hb) as Hl.
    exists sc', b'. split; [done|]. split; [done|]. split.
    + intros q Hq. rewrite Hlow by lia. rewrite Hv1. now rewrite list_lookup_total_insert_ne by lia.
    + intros [|i] Hi.
      * rewrite Nat.add_0_r, Hlow, Hv1 by lia. now rewrite list_lookup_total_insert_eq by lia.
      * replace (u + S i)%nat with (S u + i)%nat by lia. apply Hhigh. lia.
Qed.

(** The slots of the accepted samples. *)
Definition accepted_slots (ws : list Z) (m : nat) : list nat := filter (fun u => ws !!! u < 61445)%Z (seq 0 m).

Lemma filter_seq_increasing (P : nat -> Prop) `{!forall x, Decision (P x)} k : forall j,
  let l := filter P (seq j k) in
  (forall r, (r < length l)%nat -> (j <= l !!! r < j + k)%nat /\ P (l !!! r)) /\
  (forall r r', (r < r' < length l)%nat -> (l !!! r < l !!! r')%nat).
Proof.
  induction k as [|k IH]; intros j; cbv zeta; [split; intros; simpl in *; lia|].
  cbn [seq]. rewrite filter_cons. destruct (IH (S j)) as [H1 H2]. case_decide as HP; cbn [length].
  - split.
    + intros [|r] Hr; [split; [cbn; lia | exact HP]|]. destruct (H1 r ltac:(lia)) as [[Hb1 Hb2] Hp].
      split; [split; [apply (Nat.le_trans _ (S j)); [lia | exact Hb1] | apply (Nat.lt_le_trans _ (S j + k)); [exact Hb2 | lia]] | exact Hp].
    + intros [|r] [|r'] Hr; try lia; [|apply H2; lia].
      destruct (H1 r' ltac:(lia)) as [[Hb1 _] _]. apply (Nat.lt_le_trans _ (S j)); [cbn; lia | exact Hb1].
  - split; [intros r Hr; destruct (H1 r Hr) as [Hb Hp]; split; [lia | exact Hp] | exact H2].
Qed.

Lemma filter_fmap_slots (ws : list Z) :
  filter (fun w => w < 61445) ws = (fun u => ws !!! u) <$> accepted_slots ws (length ws).
Proof.
  unfold accepted_slots. induction ws as [|w ws IH]; [done|]. cbn [length seq]. rewrite !filter_cons.
  rewrite <- fmap_S_seq. assert (filter (fun u => (w :: ws) !!! u < 61445)%Z (S <$> seq 0 (length ws)) =
    S <$> filter (fun u => ws !!! u < 61445)%Z (seq 0 (length ws))) as ->.
  { clear IH. induction (seq 0 (length ws)) as [|u l IHl]; [done|]. cbn [fmap list_fmap]. rewrite !filter_cons.
    change ((w :: ws) !!! S u) with (ws !!! u). case_decide; [cbn [fmap list_fmap]; f_equal; exact IHl | exact IHl]. }
  change ((w :: ws) !!! 0%nat) with w. case_decide; [rewrite fmap_cons; f_equal|]; rewrite IH, <- list_fmap_compose; reflexivity.
Qed.

Lemma accepted_slots_spec ws :
  accepted ws = (fun u => (ws !!! u) mod Q) <$> accepted_slots ws (length ws).
Proof. unfold accepted. rewrite filter_fmap_slots, <- list_fmap_compose. reflexivity. Qed.

Lemma accepted_slots_ge ws m : forall r, (r < length (accepted_slots ws m))%nat -> (r <= accepted_slots ws m !!! r)%nat.
Proof.
  pose proof (proj2 (filter_seq_increasing (fun u => ws !!! u < 61445)%Z m 0)) as Hinc.
  fold (accepted_slots ws m) in Hinc. cbv zeta in Hinc.
  induction r as [|r IH]; intros Hr; [lia|]. specialize (IH ltac:(lia)). specialize (Hinc r (S r) ltac:(lia)). lia.
Qed.

(** The constant-time result. *)
Lemma ct_result sc logn bufs :
  sc_ok sc -> (1 <= logn <= 10)%nat ->
  let n := (2 ^ logn)%nat in
  let over := overtab !!! logn in
  let ws := samples (n + over) sc in
  bufs_ok n (n + over) bufs -> (n <= length (accepted ws))%nat ->
  exists sc', hash_to_point_ct sc logn bufs = Some (sc', take n (accepted ws)).
Proof.
  intros Hsc Hlogn n over ws Hb Hn. unfold hash_to_point_ct. fold n over. set (m := (n + over)%nat) in *.
  assert ((over < 512)%nat /\ Z.of_nat m < 65536) as [Hover Hm].
  { clear -Hlogn. unfold m, n, over. do 11 (destruct logn as [|logn]; [try lia; split; vm_compute; (lia || reflexivity)|]). lia. }
  destruct (ct_sample_spec m 0 n m sc bufs Hsc Hb ltac:(lia)) as (sc' & b & -> & Hb' & _ & Hv). cbn [mbind option_bind].
  fold ws in Hv. pose proof (samples_length m sc Hsc) as Hwl. fold ws in Hwl. pose proof (samples_range m sc Hsc) as Hwr. fold ws in Hwr.
  rewrite Forall_lookup_total, Hwl in Hwr.
  set (ids := accepted_slots ws m). pose proof (accepted_slots_spec ws) as Hacc. rewrite Hwl in Hacc. fold ids in Hacc.
  assert (length (accepted ws) = length ids) as Hal by (rewrite Hacc; apply length_fmap).
  destruct (filter_seq_increasing (fun u => ws !!! u < 61445)%Z m 0) as [Hids Hinc]. fold (accepted_slots ws m) ids in Hids, Hinc.
  pose proof (accepted_slots_ge ws m) as Hge. fold ids in Hge.
  set (R := length ids) in *. set (idx := fun r => ids !!! r). set (val := fun r => (ws !!! (ids !!! r)) mod Q).
  assert (forall r, (r < R)%nat -> (r <= idx r < m)%nat) as Hbound by (intros r Hr; pose proof (Hge r Hr); destruct (Hids r Hr); unfold idx; lia).
  assert (forall u, (u < m)%nat -> view b !!! u = if ws !!! u <? 61445 then (ws !!! u) mod Q else 0xFFFF) as Hview.
  { intros u Hu. rewrite (Hv u Hu : view b !!! u = _). now apply ct_reduce_spec, Hwr. }
  assert (forall r, (r < R)%nat -> 0 <= val r < 2 ^ 15) as Hval.
  { intros r Hr. unfold val. pose proof (Z.mod_pos_bound (ws !!! (ids !!! r)) Q ltac:(unfold Q; lia)). unfold Q in *. lia. }
  assert (holds m R val (view b) (place idx 0)) as Hh.
  { split; [now apply (view_length n m)|]. split; [|split].
    - intros r Hr. rewrite (place_0 m R idx) by done. unfold idx, val. destruct (Hids r Hr) as [Hr1 Hr2].
      rewrite Hview by lia. now destruct (Z.ltb_spec (ws !!! (ids !!! r)) 61445); [|lia].
    - intros q Hq. rewrite Hview by done. destruct (ws !!! q <? 61445); [|done].
      pose proof (Z.mod_pos_bound (ws !!! q) Q ltac:(unfold Q; lia)). unfold in_width, Q in *. lia.
    - intros q Hq Hno. rewrite Hview by done. destruct (Z.ltb_spec (ws !!! q) 61445) as [Hlt|]; [exfalso|done].
      assert (q ∈ ids) as Hin by (apply list_elem_of_filter; split; [done | apply elem_of_seq; lia]).
      apply list_elem_of_lookup_total in Hin as (r & Hr & He). apply (Hno r Hr). rewrite (place_0 m R idx) by done. exact He. }
  destruct (passes_hold n m R idx val Hm Hinc Hbound Hval over (S over) 0 b Hover) as (k & Hk & Hbk & Hhk); [|done|done|].
  { rewrite Nat.add_0_r. apply (Nat.lt_le_trans _ (S over)); [lia|]. pose proof (Nat.pow_gt_lin_r 2 (S over) ltac:(lia)). lia. }
  change (2 ^ 0)%nat with 1%nat in *. set (bk := ct_passes (S over) n m over 1 b) in *.
  exists sc'. do 2 f_equal. destruct Hbk as (Hx & _). destruct Hhk as (_ & Hvk & _).
  apply list_eq_total; [rewrite length_take; lia|]. intros r Hr. rewrite Hx in Hr.
  rewrite lookup_total_take_lt by done. assert (r < R)%nat as HrR by lia. specialize (Hvk r HrR).
  assert (idx r - r <= over)%nat as Hgap.
  { pose proof (idx_gap m R idx Hinc Hbound r (R - 1) ltac:(lia) ltac:(lia)).
    pose proof (Hbound (R - 1)%nat ltac:(lia)). unfold m in *. lia. }
  rewrite (place_final R idx) in Hvk by (done || lia). unfold view in Hvk. rewrite lookup_total_app_l in Hvk by lia. rewrite Hvk.
  rewrite Hacc. rewrite (@list_lookup_total_fmap nat Z (fun u => (ws !!! u) mod Q) _ _) by done. reflexivity.
Qed.

Lemma vartime_loop_none fuel : forall n sc x,
  sc_ok sc -> (length (accepted (samples fuel sc)) < n)%nat -> vartime_loop fuel n sc x = None.
Proof.
  induction fuel as [|fuel IH]; intros [|n] sc x Hsc Hn; try lia; [done|]. cbn [samples vartime_loop] in *.
  destruct (next_sample_total sc Hsc) as (sc' & w & Hs & Hsc' & Hw). rewrite Hs in *. cbn [mbind option_bind].
  rewrite accepted_cons in Hn. destruct (Z.ltb_spec w 61445); case_decide; try lia; cbn [app length] in Hn.
  - apply IH; [done | lia].
  - apply IH; [done | exact Hn].
Qed.

Lemma take_accepted_ok n ws : (n <= length (accepted ws))%nat -> poly_ok n (take n (accepted ws)).
Proof. intros Hn. split; [rewrite length_take; lia | apply Forall_take, accepted_ok]. Qed.

Lemma samples_prefix k j : forall sc, sc_ok sc -> exists ws, samples (k + j) sc = samples k sc ++ ws.
Proof.
  induction k as [|k IH]; intros sc Hsc; [now exists (samples j sc)|]. cbn [Nat.add samples].
  destruct (next_sample_total sc Hsc) as (sc' & w & -> & Hsc' & _). destruct (IH sc' Hsc') as [ws ->]. now exists ws.
Qed.

(** * The properties *)

(** The variable-time hashing loop returns within [fuel] extractions exactly when
    [2^logn] of the first [fuel] 16-bit samples of the stream are below 61445 = 5 q, and then its
    result is those samples, in order, modulo q: a polynomial with coefficients in [0, q). *)
Theorem hash_to_point_vartime_terminates fuel sc logn :
  sc_ok sc ->
  let ws := samples fuel sc in
  ((2 ^ logn <= length (accepted ws))%nat ->
    poly_ok (2 ^ logn) (take (2 ^ logn) (accepted ws)) /\
    exists sc', hash_to_point_vartime fuel sc logn = Some (sc', take (2 ^ logn) (accepted ws))) /\
  ((length (accepted ws) < 2 ^ logn)%nat -> hash_to_point_vartime fuel sc logn = None).
Proof.
  intros Hsc ws. split; intros Hn.
  - split; [now apply take_accepted_ok|]. exact (vartime_loop_spec fuel (2 ^ logn) sc [] Hsc Hn).
  - now apply vartime_loop_none.
Qed.

(** C25 (equivalence).  For 1 <= logn <= 10, when 2^logn of the 2^logn + overtab[logn] samples it draws
    are accepted, the constant-time hashing returns the polynomial the variable-time one returns,
    whatever the three working arrays held before; the second array [tt1] needs 2^logn slots and
    [tt2] at most 63. *)
Theorem hash_to_point_ct_vartime sc logn bufs fuel :
  sc_ok sc -> (1 <= logn <= 10)%nat ->
  let n := (2 ^ logn)%nat in
  let m := (n + overtab !!! logn)%nat in
  bufs_ok n m bufs -> (n <= length (accepted (samples m sc)))%nat -> (m <= fuel)%nat ->
  (m <= 2 * n + 63)%nat /\
  snd <$> hash_to_point_ct sc logn bufs = snd <$> hash_to_point_vartime fuel sc logn /\
  is_Some (hash_to_point_ct sc logn bufs).
Proof.
  intros Hsc Hlogn n m Hb Hn Hf. split; [|].
  { clear -Hlogn. unfold m, n. do 11 (destruct logn as [|logn]; [try lia; apply Nat.leb_le; reflexivity|]). lia. }
  destruct (ct_result sc logn bufs Hsc Hlogn Hb Hn) as [sc1 ->]. fold n m.
  destruct (samples_prefix m (fuel - m) sc Hsc) as [ws Hws]. replace (m + (fuel - m))%nat with fuel in Hws by lia.
  destruct (vartime_loop_spec fuel n sc [] Hsc) as [sc2 E]; [rewrite Hws, accepted_app, length_app; lia|].
  unfold hash_to_point_vartime. fold n. rewrite E, Hws, accepted_app, take_app_le by lia. now split.
Qed.

Definition smoke_context : inner_shake256_context := shake256_inc_finalize (mk_inc (replicate 25 0) 0).

Example smoke_context_ok : sc_ok smoke_context.
Proof. apply Nat.leb_le. vm_compute. reflexivity. Qed.

Lemma hash_to_point_vartime_terminates_witness :
  sc_ok smoke_context /\ exists sc', hash_to_point_vartime 9 smoke_context 3 = Some (sc', take 8 (accepted (samples 9 smoke_context))).
Proof.
  split; [exact smoke_context_ok|].
  refine (proj2 (proj1 (hash_to_point_vartime_terminates 9 smoke_context 3 smoke_context_ok) _)).
  apply Nat.leb_le. vm_compute. reflexivity.
Defined.

Lemma hash_to_point_ct_vartime_witness :
  let bufs := mk_bufs (replicate 8 7) (replicate 8 7) (replicate 63 7) in
  snd <$> hash_to_point_ct smoke_context 3 bufs = snd <$> hash_to_point_vartime 79 smoke_context 3.
Proof.
  intros bufs. refine (proj1 (proj2 (hash_to_point_ct_vartime smoke_context 3 bufs 79 smoke_context_ok _ _ _ _))).
  - lia.
  - unfold bufs_ok. vm_compute. lia.
  - apply Nat.leb_le. vm_compute. reflexivity.
  - apply Nat.leb_le. vm_compute. reflexivity.
Defined.
