(* ===== verification/Sha2.v ===== *)
(** Sha2: the SHA-2 hash functions of [sha2.c].

    SHA-224 and SHA-256 work on words of 32 bits, SHA-384 and SHA-512 on words of 64 bits: the macros and
    functions of the source come in two copies, which differ in the parameters of the record [Sha2].  The
    context is the byte string of the source: the eight words of the state, big-endian, and the number of
    bytes hashed.  The incremental interface is reduced here to one pass over the padded message
    ([sha2_digest]), with a schedule given by a recurrence where the source rewrites sixteen variables in
    place; [Sha2Spec] compares that pass with FIPS 180-4. *)

From Stdlib Require Import ZArith Lia.
From stdpp Require Import base numbers list.
From S2P Require Import Prelude.

(** * Bytes and words *)

Definition load_bigendian_32 (x : list Z) : Z :=
  (x !!! 3%nat) .| u32 ((x !!! 2%nat) .<< 8) .| u32 ((x !!! 1%nat) .<< 16) .| u32 ((x !!! 0%nat) .<< 24).

Definition load_bigendian_64 (x : list Z) : Z :=
  (x !!! 7%nat) .| u64 ((x !!! 6%nat) .<< 8) .| u64 ((x !!! 5%nat) .<< 16) .| u64 ((x !!! 4%nat) .<< 24) .|
  u64 ((x !!! 3%nat) .<< 32) .| u64 ((x !!! 2%nat) .<< 40) .| u64 ((x !!! 1%nat) .<< 48) .| u64 ((x !!! 0%nat) .<< 56).

(** The bytes that the store functions write. *)
Definition store_bigendian_32 (u : Z) : list Z := [u8 (u .>> 8 .>> 8 .>> 8); u8 (u .>> 8 .>> 8); u8 (u .>> 8); u8 u].

Definition store_bigendian_64 (u : Z) : list Z :=
  [u8 (u .>> 8 .>> 8 .>> 8 .>> 8 .>> 8 .>> 8 .>> 8); u8 (u .>> 8 .>> 8 .>> 8 .>> 8 .>> 8 .>> 8); u8 (u .>> 8 .>> 8 .>> 8 .>> 8 .>> 8);
   u8 (u .>> 8 .>> 8 .>> 8 .>> 8); u8 (u .>> 8 .>> 8 .>> 8); u8 (u .>> 8 .>> 8); u8 (u .>> 8); u8 u].

(** * The two variants *)

Record Sha2 := mk_sha2 {
  wbits : Z;                      (** bits of a word *)
  wsize : nat;                    (** bytes of a word *)
  load : list Z -> Z;
  store : Z -> list Z;
  Sigma0 : Z -> Z;
  Sigma1 : Z -> Z;
  sigma0 : Z -> Z;
  sigma1 : Z -> Z;
  round_constants : list Z
}.

Definition SHR (x c : Z) : Z := x .>> c.
Definition ROTR_32 (x c : Z) : Z := (x .>> c) .| u32 (x .<< (32 - c)).
Definition ROTR_64 (x c : Z) : Z := (x .>> c) .| u64 (x .<< (64 - c)).

Definition Ch (x y z : Z) : Z := (x .& y) .^ (Z.lnot x .& z).
Definition Maj (x y z : Z) : Z := (x .& y) .^ (x .& z) .^ (y .& z).

Definition Sigma0_32 (x : Z) : Z := ROTR_32 x 2 .^ ROTR_32 x 13 .^ ROTR_32 x 22.
Definition Sigma1_32 (x : Z) : Z := ROTR_32 x 6 .^ ROTR_32 x 11 .^ ROTR_32 x 25.
Definition sigma0_32 (x : Z) : Z := ROTR_32 x 7 .^ ROTR_32 x 18 .^ SHR x 3.
Definition sigma1_32 (x : Z) : Z := ROTR_32 x 17 .^ ROTR_32 x 19 .^ SHR x 10.

Definition Sigma0_64 (x : Z) : Z := ROTR_64 x 28 .^ ROTR_64 x 34 .^ ROTR_64 x 39.
Definition Sigma1_64 (x : Z) : Z := ROTR_64 x 14 .^ ROTR_64 x 18 .^ ROTR_64 x 41.
Definition sigma0_64 (x : Z) : Z := ROTR_64 x 1 .^ ROTR_64 x 8 .^ SHR x 7.
Definition sigma1_64 (x : Z) : Z := ROTR_64 x 19 .^ ROTR_64 x 61 .^ SHR x 6.

(** The calls of [F_32] and [F_64], in order: the number of the variable [w] and the constant. *)
Definition calls_32 : list (nat * Z) := [
    (0%nat, 0x428a2f98); (1%nat, 0x71374491); (2%nat, 0xb5c0fbcf); (3%nat, 0xe9b5dba5); (4%nat, 0x3956c25b);
    (5%nat, 0x59f111f1); (6%nat, 0x923f82a4); (7%nat, 0xab1c5ed5); (8%nat, 0xd807aa98); (9%nat, 0x12835b01);
    (10%nat, 0x243185be); (11%nat, 0x550c7dc3); (12%nat, 0x72be5d74); (13%nat, 0x80deb1fe); (14%nat, 0x9bdc06a7);
    (15%nat, 0xc19bf174); (0%nat, 0xe49b69c1); (1%nat, 0xefbe4786); (2%nat, 0x0fc19dc6); (3%nat, 0x240ca1cc);
    (4%nat, 0x2de92c6f); (5%nat, 0x4a7484aa); (6%nat, 0x5cb0a9dc); (7%nat, 0x76f988da); (8%nat, 0x983e5152);
    (9%nat, 0xa831c66d); (10%nat, 0xb00327c8); (11%nat, 0xbf597fc7); (12%nat, 0xc6e00bf3); (13%nat, 0xd5a79147);
    (14%nat, 0x06ca6351); (15%nat, 0x14292967); (0%nat, 0x27b70a85); (1%nat, 0x2e1b2138); (2%nat, 0x4d2c6dfc);
    (3%nat, 0x53380d13); (4%nat, 0x650a7354); (5%nat, 0x766a0abb); (6%nat, 0x81c2c92e); (7%nat, 0x92722c85);
    (8%nat, 0xa2bfe8a1); (9%nat, 0xa81a664b); (10%nat, 0xc24b8b70); (11%nat, 0xc76c51a3); (12%nat, 0xd192e819);
    (13%nat, 0xd6990624); (14%nat, 0xf40e3585); (15%nat, 0x106aa070); (0%nat, 0x19a4c116); (1%nat, 0x1e376c08);
    (2%nat, 0x2748774c); (3%nat, 0x34b0bcb5); (4%nat, 0x391c0cb3); (5%nat, 0x4ed8aa4a); (6%nat, 0x5b9cca4f);
    (7%nat, 0x682e6ff3); (8%nat, 0x748f82ee); (9%nat, 0x78a5636f); (10%nat, 0x84c87814); (11%nat, 0x8cc70208);
    (12%nat, 0x90befffa); (13%nat, 0xa4506ceb); (14%nat, 0xbef9a3f7); (15%nat, 0xc67178f2) ].

Definition calls_64 : list (nat * Z) := [
    (0%nat, 0x428a2f98d728ae22); (1%nat, 0x7137449123ef65cd); (2%nat, 0xb5c0fbcfec4d3b2f);
    (3%nat, 0xe9b5dba58189dbbc); (4%nat, 0x3956c25bf348b538); (5%nat, 0x59f111f1b605d019);
    (6%nat, 0x923f82a4af194f9b); (7%nat, 0xab1c5ed5da6d8118); (8%nat, 0xd807aa98a3030242);
    (9%nat, 0x12835b0145706fbe); (10%nat, 0x243185be4ee4b28c); (11%nat, 0x550c7dc3d5ffb4e2);
    (12%nat, 0x72be5d74f27b896f); (13%nat, 0x80deb1fe3b1696b1); (14%nat, 0x9bdc06a725c71235);
    (15%nat, 0xc19bf174cf692694); (0%nat, 0xe49b69c19ef14ad2); (1%nat, 0xefbe4786384f25e3);
    (2%nat, 0x0fc19dc68b8cd5b5); (3%nat, 0x240ca1cc77ac9c65); (4%nat, 0x2de92c6f592b0275);
    (5%nat, 0x4a7484aa6ea6e483); (6%nat, 0x5cb0a9dcbd41fbd4); (7%nat, 0x76f988da831153b5);
    (8%nat, 0x983e5152ee66dfab); (9%nat, 0xa831c66d2db43210); (10%nat, 0xb00327c898fb213f);
    (11%nat, 0xbf597fc7beef0ee4); (12%nat, 0xc6e00bf33da88fc2); (13%nat, 0xd5a79147930aa725);
    (14%nat, 0x06ca6351e003826f); (15%nat, 0x142929670a0e6e70); (0%nat, 0x27b70a8546d22ffc);
    (1%nat, 0x2e1b21385c26c926); (2%nat, 0x4d2c6dfc5ac42aed); (3%nat, 0x53380d139d95b3df);
    (4%nat, 0x650a73548baf63de); (5%nat, 0x766a0abb3c77b2a8); (6%nat, 0x81c2c92e47edaee6);
    (7%nat, 0x92722c851482353b); (8%nat, 0xa2bfe8a14cf10364); (9%nat, 0xa81a664bbc423001);
    (10%nat, 0xc24b8b70d0f89791); (11%nat, 0xc76c51a30654be30); (12%nat, 0xd192e819d6ef5218);
    (13%nat, 0xd69906245565a910); (14%nat, 0xf40e35855771202a); (15%nat, 0x106aa07032bbd1b8);
    (0%nat, 0x19a4c116b8d2d0c8); (1%nat, 0x1e376c085141ab53); (2%nat, 0x2748774cdf8eeb99);
    (3%nat, 0x34b0bcb5e19b48a8); (4%nat, 0x391c0cb3c5c95a63); (5%nat, 0x4ed8aa4ae3418acb);
    (6%nat, 0x5b9cca4f7763e373); (7%nat, 0x682e6ff3d6b2b8a3); (8%nat, 0x748f82ee5defb2fc);
    (9%nat, 0x78a5636f43172f60); (10%nat, 0x84c87814a1f0ab72); (11%nat, 0x8cc702081a6439ec);
    (12%nat, 0x90befffa23631e28); (13%nat, 0xa4506cebde82bde9); (14%nat, 0xbef9a3f7b2c67915);
    (15%nat, 0xc67178f2e372532b); (0%nat, 0xca273eceea26619c); (1%nat, 0xd186b8c721c0c207);
    (2%nat, 0xeada7dd6cde0eb1e); (3%nat, 0xf57d4f7fee6ed178); (4%nat, 0x06f067aa72176fba);
    (5%nat, 0x0a637dc5a2c898a6); (6%nat, 0x113f9804bef90dae); (7%nat, 0x1b710b35131c471b);
    (8%nat, 0x28db77f523047d84); (9%nat, 0x32caab7b40c72493); (10%nat, 0x3c9ebe0a15c9bebc);
    (11%nat, 0x431d67c49c100d4c); (12%nat, 0x4cc5d4becb3e42b6); (13%nat, 0x597f299cfc657e2a);
    (14%nat, 0x5fcb6fab3ad6faec); (15%nat, 0x6c44198c4a475817) ].

Definition K_32 : list Z := calls_32.*2.
Definition K_64 : list Z := calls_64.*2.

(** The variables are taken in turn. *)
Example calls_in_turn : calls_32.*1 = concat (replicate 4 (seq 0 16)) /\ calls_64.*1 = concat (replicate 5 (seq 0 16)).
Proof. split; reflexivity. Qed.

Definition sha2_32 : Sha2 := mk_sha2 32 4 load_bigendian_32 store_bigendian_32 Sigma0_32 Sigma1_32 sigma0_32 sigma1_32 K_32.
Definition sha2_64 : Sha2 := mk_sha2 64 8 load_bigendian_64 store_bigendian_64 Sigma0_64 Sigma1_64 sigma0_64 sigma1_64 K_64.

Definition iv_224 : list Z := [
    0xc1; 0x05; 0x9e; 0xd8; 0x36; 0x7c; 0xd5; 0x07; 0x30; 0x70; 0xdd; 0x17; 0xf7; 0x0e; 0x59; 0x39; 0xff; 0xc0; 0x0b;
    0x31; 0x68; 0x58; 0x15; 0x11; 0x64; 0xf9; 0x8f; 0xa7; 0xbe; 0xfa; 0x4f; 0xa4 ].

Definition iv_256 : list Z := [
    0x6a; 0x09; 0xe6; 0x67; 0xbb; 0x67; 0xae; 0x85; 0x3c; 0x6e; 0xf3; 0x72; 0xa5; 0x4f; 0xf5; 0x3a; 0x51; 0x0e; 0x52;
    0x7f; 0x9b; 0x05; 0x68; 0x8c; 0x1f; 0x83; 0xd9; 0xab; 0x5b; 0xe0; 0xcd; 0x19 ].

Definition iv_384 : list Z := [
    0xcb; 0xbb; 0x9d; 0x5d; 0xc1; 0x05; 0x9e; 0xd8; 0x62; 0x9a; 0x29; 0x2a; 0x36; 0x7c; 0xd5; 0x07; 0x91; 0x59; 0x01;
    0x5a; 0x30; 0x70; 0xdd; 0x17; 0x15; 0x2f; 0xec; 0xd8; 0xf7; 0x0e; 0x59; 0x39; 0x67; 0x33; 0x26; 0x67; 0xff; 0xc0;
    0x0b; 0x31; 0x8e; 0xb4; 0x4a; 0x87; 0x68; 0x58; 0x15; 0x11; 0xdb; 0x0c; 0x2e; 0x0d; 0x64; 0xf9; 0x8f; 0xa7; 0x47;
    0xb5; 0x48; 0x1d; 0xbe; 0xfa; 0x4f; 0xa4 ].

Definition iv_512 : list Z := [
    0x6a; 0x09; 0xe6; 0x67; 0xf3; 0xbc; 0xc9; 0x08; 0xbb; 0x67; 0xae; 0x85; 0x84; 0xca; 0xa7; 0x3b; 0x3c; 0x6e; 0xf3;
    0x72; 0xfe; 0x94; 0xf8; 0x2b; 0xa5; 0x4f; 0xf5; 0x3a; 0x5f; 0x1d; 0x36; 0xf1; 0x51; 0x0e; 0x52; 0x7f; 0xad; 0xe6;
    0x82; 0xd1; 0x9b; 0x05; 0x68; 0x8c; 0x2b; 0x3e; 0x6c; 0x1f; 0x1f; 0x83; 0xd9; 0xab; 0xfb; 0x41; 0xbd; 0x6b; 0x5b;
    0xe0; 0xcd; 0x19; 0x13; 0x7e; 0x21; 0x79 ].

(** * Compression *)

Section Blocks.
Context (p : Sha2).
Abbreviation word := (wrap (wbits p)).

(** The macro [M]: [w0 = sigma1(w14) + w9 + sigma0(w1) + w0]. *)
Definition M (w0 w14 w9 w1 : Z) : Z := word (sigma1 p w14 + w9 + sigma0 p w1 + w0).

(** [EXPAND]: the sixteen variables [w0] to [w15], one after the other. *)
Definition EXPAND (w : list Z) : list Z :=
  for_up 0 16 (fun i w =>
    <[i := M (w !!! i) (w !!! ((i + 14) mod 16)%nat) (w !!! ((i + 9) mod 16)%nat) (w !!! ((i + 1) mod 16)%nat)]> w) w.

(** The macro [F], on the variables [a] to [h]. *)
Definition F (w k : Z) (s : list Z) : list Z :=
  match s with
  | [a; b; c; d; e; f; g; h] =>
      let T1 := word (h + Sigma1 p e + Ch e f g + k + w) in
      let T2 := word (Sigma0 p a + Maj a b c) in
      [word (T1 + T2); a; b; c; word (d + T1); e; f; g]
  | _ => s
  end.

(** Sixteen calls of [F], [w] being read, with the constants from number [16 j] on. *)
Definition sixteen (j : nat) (w s : list Z) : list Z :=
  for_up 0 16 (fun i s => F (w !!! i) (round_constants p !!! (16 * j + i)%nat) s) s.

(** The following groups: [EXPAND], then sixteen calls of [F]. *)
Definition more_rounds (n : nat) (w s : list Z) : list Z :=
  (for_up 1 n (fun j '(w, s) => let w := EXPAND w in (w, sixteen j w s)) (w, s)).2.

Definition load_words (n : nat) (b : list Z) : list Z := (fun i => load p (drop (wsize p * i) b)) <$> seq 0 n.

(** One turn of the loop of [crypto_hashblocks]: 64 rounds or 80, then the sums with the state. *)
Definition block_step (state b : list Z) : list Z :=
  let w := load_words 16 b in
  let s := sixteen 0 w state in
  let s := more_rounds (length (round_constants p) / 16) w s in
  zip_with (fun x y => word (x + y)) s state.

Fixpoint blocks_loop (fuel : nat) (state b : list Z) : list Z :=
  match fuel with
  | O => state
  | S fuel => if (16 * wsize p <=? length b)%nat then blocks_loop fuel (block_step state b) (drop (16 * wsize p) b) else state
  end.

(** [crypto_hashblocks]: the state is read from the first bytes of [statebytes], and written back there. *)
Definition hashblocks (statebytes b : list Z) : list Z :=
  let state := load_words 8 statebytes in
  let state := blocks_loop (length b) state b in
  (state ≫= store p) ++ drop (8 * wsize p) statebytes.
End Blocks.

Definition crypto_hashblocks_sha256 (statebytes b : list Z) : list Z := hashblocks sha2_32 statebytes b.
Definition crypto_hashblocks_sha512 (statebytes b : list Z) : list Z := hashblocks sha2_64 statebytes b.

(** * The incremental interface *)

Definition PQC_SHA256CTX_BYTES : nat := 40.
Definition PQC_SHA512CTX_BYTES : nat := 72.

Definition sha224_inc_init : list Z := iv_224 ++ replicate 8 0.
Definition sha256_inc_init : list Z := iv_256 ++ replicate 8 0.
Definition sha384_inc_init : list Z := iv_384 ++ replicate 8 0.
Definition sha512_inc_init : list Z := iv_512 ++ replicate 8 0.

Definition sha224_inc_ctx_clone (statein : list Z) : list Z := take PQC_SHA256CTX_BYTES statein.
Definition sha256_inc_ctx_clone (statein : list Z) : list Z := take PQC_SHA256CTX_BYTES statein.
Definition sha384_inc_ctx_clone (statein : list Z) : list Z := take PQC_SHA512CTX_BYTES statein.
Definition sha512_inc_ctx_clone (statein : list Z) : list Z := take PQC_SHA512CTX_BYTES statein.

Definition sha256_inc_blocks (ctx b : list Z) (inblocks : nat) : list Z :=
  let bytes := load_bigendian_64 (drop 32 ctx) in
  let ctx := crypto_hashblocks_sha256 ctx (take (64 * inblocks) b) in
  let bytes := u64 (bytes + u64 (64 * Z.of_nat inblocks)) in
  take 32 ctx ++ store_bigendian_64 bytes.

Definition sha224_inc_blocks (ctx b : list Z) (inblocks : nat) : list Z := sha256_inc_blocks ctx b inblocks.

Definition sha512_inc_blocks (ctx b : list Z) (inblocks : nat) : list Z :=
  let bytes := load_bigendian_64 (drop 64 ctx) in
  let ctx := crypto_hashblocks_sha512 ctx (take (128 * inblocks) b) in
  let bytes := u64 (bytes + u64 (128 * Z.of_nat inblocks)) in
  take 64 ctx ++ store_bigendian_64 bytes.

Definition sha384_inc_blocks (ctx b : list Z) (inblocks : nat) : list Z := sha512_inc_blocks ctx b inblocks.

Definition sha256_inc_finalize (ctx b : list Z) : list Z :=
  let inlen := length b in
  let bytes := u64 (load_bigendian_64 (drop 32 ctx) + Z.of_nat inlen) in
  let ctx := crypto_hashblocks_sha256 ctx b in
  let b := drop (inlen - inlen mod 64) b in
  let inlen := (inlen mod 64)%nat in
  let size := [u8 (bytes .>> 53); u8 (bytes .>> 45); u8 (bytes .>> 37); u8 (bytes .>> 29);
               u8 (bytes .>> 21); u8 (bytes .>> 13); u8 (bytes .>> 5); u8 (u64 (bytes .<< 3))] in
  let padded :=
    if (inlen <? 56)%nat then b ++ [0x80] ++ replicate (56 - (inlen + 1)) 0 ++ size
    else b ++ [0x80] ++ replicate (120 - (inlen + 1)) 0 ++ size in
  take 32 (crypto_hashblocks_sha256 ctx padded).

Definition sha224_inc_finalize (ctx b : list Z) : list Z := take 28 (sha256_inc_finalize ctx b).

Definition sha512_inc_finalize (ctx b : list Z) : list Z :=
  let inlen := length b in
  let bytes := u64 (load_bigendian_64 (drop 64 ctx) + Z.of_nat inlen) in
  let ctx := crypto_hashblocks_sha512 ctx b in
  let b := drop (inlen - inlen mod 128) b in
  let inlen := (inlen mod 128)%nat in
  let size := [u8 (bytes .>> 61); u8 (bytes .>> 53); u8 (bytes .>> 45); u8 (bytes .>> 37); u8 (bytes .>> 29);
               u8 (bytes .>> 21); u8 (bytes .>> 13); u8 (bytes .>> 5); u8 (u64 (bytes .<< 3))] in
  let padded :=
    if (inlen <? 112)%nat then b ++ [0x80] ++ replicate (119 - (inlen + 1)) 0 ++ size
    else b ++ [0x80] ++ replicate (247 - (inlen + 1)) 0 ++ size in
  take 64 (crypto_hashblocks_sha512 ctx padded).

Definition sha384_inc_finalize (ctx b : list Z) : list Z := take 48 (sha512_inc_finalize ctx b).

Definition sha224 (b : list Z) : list Z := sha224_inc_finalize sha224_inc_init b.
Definition sha256 (b : list Z) : list Z := sha256_inc_finalize sha256_inc_init b.
Definition sha384 (b : list Z) : list Z := sha384_inc_finalize sha384_inc_init b.
Definition sha512 (b : list Z) : list Z := sha512_inc_finalize sha512_inc_init b.

Example sha256_abc : sha256 [97; 98; 99] = [
  0xba; 0x78; 0x16; 0xbf; 0x8f; 0x01; 0xcf; 0xea; 0x41; 0x41; 0x40; 0xde; 0x5d; 0xae; 0x22; 0x23;
  0xb0; 0x03; 0x61; 0xa3; 0x96; 0x17; 0x7a; 0x9c; 0xb4; 0x10; 0xff; 0x61; 0xf2; 0x00; 0x15; 0xad ].
Proof. vm_compute. reflexivity. Qed.

Example sha384_abc : take 8 (sha384 [97; 98; 99]) = [0xcb; 0x00; 0x75; 0x3f; 0x45; 0xa3; 0x5e; 0x8b].
Proof. vm_compute. reflexivity. Qed.

Example sha512_empty : take 8 (sha512 []) = [0xcf; 0x83; 0xe1; 0x35; 0x7e; 0xef; 0xb8; 0xbd].
Proof. vm_compute. reflexivity. Qed.

(** * One pass over the padded message *)

Section Standard.
Context (p : Sha2).
Abbreviation word := (wrap (wbits p)).
Abbreviation B := (16 * wsize p)%nat.

(** The schedule: sixteen words of the block, then a recurrence. *)
Definition schedule_step (W : list Z) : list Z :=
  let t := length W in
  W ++ [word (sigma1 p (W !!! (t - 2)%nat) + (W !!! (t - 7)%nat) + sigma0 p (W !!! (t - 15)%nat) + (W !!! (t - 16)%nat))].

Definition schedule (n : nat) (w : list Z) : list Z := Nat.iter n schedule_step w.

Definition round (W : list Z) (t : nat) (s : list Z) : list Z := F p (W !!! t) (round_constants p !!! t) s.

Definition compress (H b : list Z) : list Z :=
  let rounds := length (round_constants p) in
  let W := schedule (rounds - 16) (load_words p 16 b) in
  let s := for_up 0 rounds (round W) H in
  zip_with (fun x y => word (x + y)) s H.

(** A message cut into blocks. *)
Definition chunks (b : list Z) : list (list Z) := (fun i => take B (drop (B * i) b)) <$> seq 0 (length b / B).

Definition be_bytes (n : nat) (x : Z) : list Z := (fun i => u8 (x .>> (8 * Z.of_nat (n - 1 - i)))) <$> seq 0 n.

(** The padding: a bit 1, bits 0 as far as the last two words of a block, the number of bits. *)
Definition pad (b : list Z) : list Z :=
  let k := ((2 * B - 1 - 2 * wsize p - length b mod B) mod B)%nat in
  b ++ [0x80] ++ replicate k 0 ++ be_bytes (2 * wsize p) (8 * Z.of_nat (length b)).

Definition sha2_digest (iv b : list Z) : list Z := foldl compress (load_words p 8 iv) (chunks (pad b)) ≫= store p.

(** * The schedule in place *)

Lemma length_schedule n w : length (schedule n w) = (length w + n)%nat.
Proof.
  unfold schedule. induction n as [|n IH]; [cbn; lia|]. rewrite Nat.iter_succ. set (W := Nat.iter n schedule_step w) in *. unfold schedule_step. rewrite length_app. cbn [length]. lia.
Qed.

Lemma schedule_lookup n w : length w = 16%nat -> forall t, (t < 16 + n)%nat ->
  schedule n w !!! t =
    if (t <? 16)%nat then w !!! t
    else word (sigma1 p (schedule n w !!! (t - 2)%nat) + schedule n w !!! (t - 7)%nat + sigma0 p (schedule n w !!! (t - 15)%nat) + schedule n w !!! (t - 16)%nat).
Proof.
  intros Hw. induction n as [|n IH]; intros t Ht; [destruct (Nat.ltb_spec t 16); [done | lia]|].
  pose proof (length_schedule n w) as Hl. unfold schedule in *. rewrite Nat.iter_succ. set (W := Nat.iter n schedule_step w) in *.
  unfold schedule_step. destruct (decide (t < 16 + n)%nat) as [Hlt|Hge].
  - rewrite !lookup_total_app_l by lia. now apply IH.
  - replace t with (length W) by lia. rewrite lookup_total_app_r, Nat.sub_diag by lia. cbn [lookup_total list_lookup_total].
    destruct (Nat.ltb_spec (length W) 16); [lia|]. now rewrite !lookup_total_app_l by lia.
Qed.

(** The sixteen variables after [j] expansions are the words from 16 j on. *)
Lemma EXPAND_schedule n w0 j w : length w0 = 16%nat -> length w = 16%nat ->
  (forall i, (i < 16)%nat -> w !!! i = schedule n w0 !!! (16 * j + i)%nat) -> (16 * S j + 16 <= 16 + n)%nat ->
  length (EXPAND p w) = 16%nat /\ forall i, (i < 16)%nat -> EXPAND p w !!! i = schedule n w0 !!! (16 * S j + i)%nat.
Proof.
  intros Hw0 Hl Hw Hn. set (W := schedule n w0) in *.
  pose (P (k : nat) (v : list Z) := length v = 16%nat /\ forall i, (i < 16)%nat -> v !!! i = W !!! (if (i <? k)%nat then 16 * S j + i else 16 * j + i)%nat).
  assert (P 16%nat (EXPAND p w)) as [HL HE].
  { unfold EXPAND. apply for_up_inv; [lia | split; [exact Hl | exact Hw] |]. intros k v Hk [Hlv Hv]. split; [now rewrite length_insert|].
    assert (forall d, (1 <= d < 16)%nat -> v !!! ((k + d) mod 16)%nat = W !!! (16 * j + k + d)%nat) as Hd.
    { intros d Hd. assert ((k + d) mod 16 = if (k + d <? 16)%nat then k + d else k + d - 16)%nat as ->.
      { destruct (Nat.ltb_spec (k + d) 16); [now apply Nat.mod_small|]. symmetry. apply (Nat.mod_unique _ _ 1); lia. }
      destruct (Nat.ltb_spec (k + d) 16); rewrite Hv by lia.
      - destruct (Nat.ltb_spec (k + d) k); [lia|]. f_equal. lia.
      - destruct (Nat.ltb_spec (k + d - 16) k); [|lia]. f_equal. lia. }
    intros i Hi. destruct (decide (k = i)) as [<-|Hne].
    - rewrite list_lookup_total_insert_eq by lia. rewrite !Hd, Hv by lia. destruct (Nat.ltb_spec k k); [lia|]. destruct (Nat.ltb_spec k (S k)); [|lia].
      subst W. rewrite (schedule_lookup n w0 Hw0 (16 * S j + k)) by lia. destruct (Nat.ltb_spec (16 * S j + k) 16); [lia|].
      unfold M. do 2 f_equal; [f_equal; [f_equal|]|]; try (f_equal; lia); do 2 f_equal; lia.
    - rewrite list_lookup_total_insert_ne, Hv by lia. destruct (Nat.ltb_spec i k), (Nat.ltb_spec i (S k)); try lia; done. }
  split; [exact HL|]. intros i Hi. rewrite HE by done. destruct (Nat.ltb_spec i 16); [done | lia].
Qed.

(** * Blocks *)

Lemma sixteen_rounds W j w s : (forall i, (i < 16)%nat -> w !!! i = W !!! (16 * j + i)%nat) ->
  sixteen p j w (for_up 0 (16 * j) (round W) s) = for_up 0 (16 * S j) (round W) s.
Proof.
  intros Hw. rewrite (Nat.mul_succ_r 16 j), for_up_add. unfold sixteen. generalize (for_up 0 (16 * j) (round W) s). intros s'.
  apply for_up_ext. intros i s'' Hi. unfold round. now rewrite Hw by lia.
Qed.

Lemma more_rounds_schedule n w0 s0 g : length w0 = 16%nat -> (1 <= g)%nat -> (16 * g <= 16 + n)%nat ->
  more_rounds p g w0 (for_up 0 16 (round (schedule n w0)) s0) = for_up 0 (16 * g) (round (schedule n w0)) s0.
Proof.
  intros Hw0 Hg Hn. set (W := schedule n w0).
  pose (P (j : nat) (st : list Z * list Z) := (j <= g)%nat -> length st.1 = 16%nat /\
    (forall i, (i < 16)%nat -> st.1 !!! i = W !!! (16 * (j - 1) + i)%nat) /\ st.2 = for_up 0 (16 * j) (round W) s0).
  enough (P g (for_up 1 g (fun j '(w, s) => let w := EXPAND p w in (w, sixteen p j w s)) (w0, for_up 0 16 (round W) s0))) as H by (now apply H).
  apply for_up_inv; [exact Hg | |].
  - intros _. cbn [fst snd]. split; [exact Hw0|]. split; [|now rewrite Nat.mul_1_r]. intros i Hi. rewrite Nat.sub_diag, Nat.mul_0_r, Nat.add_0_l.
    unfold W. rewrite schedule_lookup by (done || lia). now destruct (Nat.ltb_spec i 16); [|lia].
  - intros j [w s] Hj HP _. destruct (HP ltac:(lia)) as (Hl & Hw & Hs). cbn [fst snd] in *. subst s.
    destruct (EXPAND_schedule n w0 (j - 1) w Hw0 Hl Hw) as [HL HE]; [lia|]. replace (S (j - 1)) with j in HE by lia. fold W in HE.
    split; [exact HL|]. split; [rewrite Nat.sub_succ, Nat.sub_0_r; exact HE | now apply sixteen_rounds].
Qed.

(** The promises of the two variants. *)
Class Sha2Laws : Prop := {
  word_bits : wbits p = 8 * Z.of_nat (wsize p);
  word_size : (0 < wsize p)%nat;
  rounds_groups : exists g, length (round_constants p) = (16 * S g)%nat;
  store_length : forall u, length (store p u) = wsize p;
  load_store : forall u r, in_width (wbits p) u -> load p (store p u ++ r) = u;
  load_take : forall b, load p (take (wsize p) b) = load p b
}.

Context {Laws : Sha2Laws}.

Lemma block_step_compress H b : block_step p H b = compress H b.
Proof using Laws.
  destruct rounds_groups as [g Hg]. unfold block_step, compress. rewrite Hg. f_equal.
  set (w := load_words p 16 b). assert (length w = 16%nat) as Hw by (unfold w, load_words; now rewrite length_fmap, length_seq).
  replace (16 * S g / 16)%nat with (S g) by (now rewrite Nat.mul_comm, Nat.div_mul). set (n := (16 * S g - 16)%nat).
  rewrite <- (more_rounds_schedule n w H (S g) Hw) by lia. f_equal.
  pose proof (sixteen_rounds (schedule n w) 0 w H) as E. rewrite Nat.mul_0_r, Nat.mul_1_r in E. rewrite <- E; [reflexivity|].
  intros i Hi. rewrite Nat.add_0_l, schedule_lookup by (done || lia). now destruct (Nat.ltb_spec i 16); [|lia].
Qed.

Lemma load_words_take n m b : (wsize p * n <= m)%nat -> load_words p n (take m b) = load_words p n b.
Proof using Laws.
  intros Hm. unfold load_words. apply list_fmap_ext. intros _ i Hi%list_elem_of_lookup_2%elem_of_seq.
  rewrite <- load_take, <- (load_take (drop _ b)), skipn_firstn_comm, take_take, Nat.min_l by nia. done.
Qed.

Lemma compress_take H b : compress H (take B b) = compress H b.
Proof using Laws. unfold compress. rewrite load_words_take by lia. done. Qed.

Lemma block_pos : (0 < B)%nat.
Proof using Laws. pose proof word_size. lia. Qed.

Lemma chunks_app a b : (length a mod B = 0)%nat -> chunks (a ++ b) = chunks a ++ chunks b.
Proof using Laws.
  intros Ha. pose proof block_pos as HB. apply Nat.Div0.mod_divides in Ha as [q Hq]. unfold chunks. rewrite length_app.
  replace ((length a + length b) / B)%nat with (q + length b / B)%nat by (rewrite Hq, (Nat.mul_comm B q), Nat.div_add_l; lia).
  replace (length a / B)%nat with q by (rewrite Hq, (Nat.mul_comm B q), Nat.div_mul; lia).
  rewrite seq_app, fmap_app. f_equal.
  - apply list_fmap_ext. intros _ i Hi%list_elem_of_lookup_2%elem_of_seq. rewrite drop_app_le, take_app_le; [done | rewrite length_drop; nia | nia].
  - replace (seq (0 + q) (length b / B)) with (Nat.add q <$> seq 0 (length b / B)) by (now rewrite fmap_add_seq, Nat.add_0_r). rewrite <- list_fmap_compose. apply list_fmap_ext. intros _ i _. cbn [compose]. f_equal.
    rewrite Nat.mul_add_distr_l, <- Hq, <- drop_drop, drop_app_length. done.
Qed.

Lemma chunks_short b : (length b < B)%nat -> chunks b = [].
Proof. intros Hb. unfold chunks. now rewrite Nat.div_small. Qed.

Lemma chunks_one b : length b = B -> chunks b = [b].
Proof using Laws. intros Hb. unfold chunks. rewrite Hb, Nat.div_same by (pose proof block_pos; lia). change (seq 0 1) with [0%nat]. cbn [fmap list_fmap]. rewrite Nat.mul_0_r, drop_0, take_ge by lia. done. Qed.

Lemma chunks_cons b : (B <= length b)%nat -> chunks b = take B b :: chunks (drop B b).
Proof using Laws.
  intros Hb. rewrite <- (take_drop B b) at 1. assert (length (take B b) = B) as Hl by (rewrite length_take; lia).
  rewrite chunks_app, chunks_one by (rewrite ?Hl; done || apply Nat.Div0.mod_same). done.
Qed.

Lemma blocks_loop_spec fuel : forall H b, (length b <= fuel)%nat -> blocks_loop p fuel H b = foldl compress H (chunks b).
Proof using Laws.
  pose proof block_pos as HB. induction fuel as [|fuel IH]; intros H b Hf; cbn [blocks_loop].
  - now rewrite chunks_short by lia.
  - destruct (Nat.leb_spec B (length b)) as [Hle|Hlt]; [|now rewrite chunks_short by lia].
    rewrite IH by (rewrite length_drop; lia). rewrite (chunks_cons b) by done. cbn [foldl]. f_equal.
    now rewrite block_step_compress, compress_take.
Qed.

(** * Contexts *)

(** The bytes of a context: the words of the state, then [r]. *)
Definition hash_ctx (H r : list Z) : list Z := (H ≫= store p) ++ r.

Definition state_ok (H : list Z) : Prop := length H = 8%nat /\ Forall (in_width (wbits p)) H.

Lemma length_stored H : length (H ≫= store p) = (wsize p * length H)%nat.
Proof using Laws. induction H as [|u H IH]; [cbn; lia|]. rewrite bind_cons, length_app, store_length, IH. cbn [length]. lia. Qed.

Lemma load_words_stored H r : Forall (in_width (wbits p)) H -> load_words p (length H) (hash_ctx H r) = H.
Proof using Laws.
  unfold load_words, hash_ctx. induction 1 as [|u H Hu HH IH]; [done|]. cbn [length seq]. rewrite fmap_cons, bind_cons. f_equal.
  - rewrite Nat.mul_0_r, drop_0, <- app_assoc. now apply load_store.
  - rewrite <- IH at 2. rewrite <- fmap_S_seq, <- list_fmap_compose. apply list_fmap_ext. intros _ i _. cbn [compose]. f_equal.
    rewrite Nat.mul_succ_r, Nat.add_comm, <- drop_drop, <- app_assoc. f_equal. rewrite <- (store_length u) at 1. apply drop_app_length.
Qed.

Lemma length_F w k s : length (F p w k s) = length s.
Proof. unfold F. do 9 (destruct s as [|? s]; [reflexivity|]). reflexivity. Qed.

Lemma compress_ok H b : length H = 8%nat -> state_ok (compress H b).
Proof using Laws.
  intros HH. unfold compress. set (s := for_up _ _ _ H).
  assert (length s = length H) as Hs by (apply for_up_length; intros; apply length_F). split; [rewrite length_zip_with; lia|].
  apply Forall_lookup. intros i x Hx. apply lookup_zip_with_Some in Hx as (y & z & -> & _). apply wrap_range. rewrite word_bits. lia.
Qed.

Lemma foldl_compress_ok bs : forall H, state_ok H -> state_ok (foldl compress H bs).
Proof using Laws. induction bs as [|b bs IH]; intros H HH; [exact HH|]. cbn [foldl]. apply IH, compress_ok, HH. Qed.

Lemma hashblocks_spec H r b : state_ok H -> hashblocks p (hash_ctx H r) b = hash_ctx (foldl compress H (chunks b)) r.
Proof using Laws.
  intros [HH Hok]. unfold hashblocks. rewrite <- HH at 1. rewrite load_words_stored, blocks_loop_spec by done. unfold hash_ctx. f_equal.
  rewrite <- HH, (Nat.mul_comm (length H)), <- length_stored. apply drop_app_length.
Qed.

(** The last call of a computation: the blocks of [b], then those of what is left of it and the padding [t]. *)
Lemma finalize_blocks H r b t : state_ok H ->
  take (8 * wsize p) (hashblocks p (hashblocks p (hash_ctx H r) b) (drop (length b - length b mod B) b ++ t)) =
  foldl compress H (chunks (b ++ t)) ≫= store p.
Proof using Laws.
  intros HH. rewrite !hashblocks_spec by (try apply foldl_compress_ok; done). pose proof block_pos as HB.
  pose proof (Nat.div_mod_eq (length b) B) as Hd. pose proof (Nat.mod_upper_bound (length b) B ltac:(lia)) as Hm.
  set (n := (length b - length b mod B)%nat) in *. assert (length (take n b) = n) as Hn by (rewrite length_take; lia).
  assert (n mod B = 0)%nat as H0 by (replace n with (length b / B * B)%nat by lia; now apply Nat.Div0.mod_mul).
  assert (chunks b = chunks (take n b)) as ->.
  { rewrite <- (take_drop n b) at 1. rewrite chunks_app by now rewrite Hn. rewrite (chunks_short (drop n b)) by (rewrite length_drop; lia). apply app_nil_r. }
  rewrite <- foldl_app, <- chunks_app, app_assoc, take_drop by now rewrite Hn.
  unfold hash_ctx. rewrite <- (proj1 (foldl_compress_ok (chunks (b ++ t)) H HH)), (Nat.mul_comm _ (wsize p)), <- length_stored. apply take_app_length.
Qed.
End Standard.

(** * The two variants keep the promises *)

Lemma stored_byte w u t k : 0 <= t -> 0 <= w -> 0 <= k ->
  Z.testbit (wrap w (u8 (u .>> t) .<< t)) k = (k <? w) && ((t <=? k) && (k <? t + 8)) && Z.testbit u k.
Proof.
  intros Ht Hw Hk. rewrite wrap_testbit, Z.shiftl_spec by lia. destruct (Z.leb_spec t k) as [Hle|Hgt].
  - rewrite wrap_testbit, Z.shiftr_spec by lia. replace (k - t + t) with k by lia.
    destruct (Z.ltb_spec k w), (Z.ltb_spec (k - t) 8), (Z.ltb_spec k (t + 8)); try lia; reflexivity.
  - rewrite Z.testbit_neg_r by lia. now destruct (k <? w).
Qed.

Lemma low_byte u k : 0 <= k -> Z.testbit (u8 u) k = (k <? 8) && Z.testbit u k.
Proof. intros Hk. now apply wrap_testbit. Qed.

Lemma testbit_above w u k : 0 <= w -> in_width w u -> w <= k -> Z.testbit u k = false.
Proof. intros Hw Hu Hk. rewrite <- (wrap_small w u Hu), wrap_testbit by lia. now destruct (Z.ltb_spec k w); [lia|]. Qed.

Ltac gather_bytes w u Hu :=
  cbn; rewrite ?Z.shiftr_shiftr by lia; cbn [Z.add Pos.add Pos.succ Pos.add_carry];
  apply Z.bits_inj'; intros k Hk; rewrite ?Z.lor_spec, ?stored_byte, ?low_byte by lia;
  destruct (Z.ltb_spec k w); [|rewrite (testbit_above w u k) by (lia || exact Hu); now rewrite ?andb_false_r];
  destruct (Z.testbit u k); rewrite ?andb_false_r, ?andb_true_r; [|reflexivity]; cbn [andb]; lia.

Lemma load_store_32 u r : in_width 32 u -> load_bigendian_32 (store_bigendian_32 u ++ r) = u.
Proof. intros Hu. unfold load_bigendian_32, store_bigendian_32. gather_bytes 32 u Hu. Qed.

Lemma load_store_64 u r : in_width 64 u -> load_bigendian_64 (store_bigendian_64 u ++ r) = u.
Proof. intros Hu. unfold load_bigendian_64, store_bigendian_64. gather_bytes 64 u Hu. Qed.

Lemma load_take_32 b : load_bigendian_32 (take 4 b) = load_bigendian_32 b.
Proof. unfold load_bigendian_32. now rewrite !lookup_total_take_lt by lia. Qed.

Lemma load_take_64 b : load_bigendian_64 (take 8 b) = load_bigendian_64 b.
Proof. unfold load_bigendian_64. now rewrite !lookup_total_take_lt by lia. Qed.

#[export] Instance sha2_32_laws : Sha2Laws sha2_32.
Proof.
  split; [reflexivity | cbn; lia | now exists 3%nat | reflexivity | apply load_store_32 | apply load_take_32].
Qed.

#[export] Instance sha2_64_laws : Sha2Laws sha2_64.
Proof.
  split; [reflexivity | cbn; lia | now exists 4%nat | reflexivity | apply load_store_64 | apply load_take_64].
Qed.

(** * Padding *)

Lemma size_bytes T : 0 <= T < 2 ^ 61 ->
  [u8 (T .>> 53); u8 (T .>> 45); u8 (T .>> 37); u8 (T .>> 29); u8 (T .>> 21); u8 (T .>> 13); u8 (T .>> 5); u8 (u64 (T .<< 3))] = be_bytes 8 (8 * T).
Proof.
  intros HT. replace (8 * T) with (T .<< 3) by (rewrite Z.shiftl_mul_pow2; lia). unfold be_bytes. cbn [seq fmap list_fmap Nat.sub].
  repeat (apply (f_equal2 cons); [try (rewrite Z.shiftr_shiftl_r by lia; reflexivity)|]); [|reflexivity].
  rewrite (wrap_small 64); [reflexivity|]. unfold in_width. rewrite Z.shiftl_mul_pow2 by lia. lia.
Qed.

Lemma size_bytes_128 T : 0 <= T < 2 ^ 64 ->
  replicate 7 0 ++ [u8 (T .>> 61); u8 (T .>> 53); u8 (T .>> 45); u8 (T .>> 37); u8 (T .>> 29); u8 (T .>> 21); u8 (T .>> 13); u8 (T .>> 5); u8 (u64 (T .<< 3))] = be_bytes 16 (8 * T).
Proof.
  intros HT. replace (8 * T) with (T .<< 3) by (rewrite Z.shiftl_mul_pow2; lia). unfold be_bytes. cbn [seq fmap list_fmap Nat.sub replicate app].
  assert (forall s, 67 <= s -> u8 ((T .<< 3) .>> s) = 0) as H0.
  { intros s Hs. rewrite Z.shiftr_shiftl_r, Z.shiftr_div_pow2 by lia. rewrite Z.div_small; [reflexivity|].
    split; [lia|]. eapply Z.lt_le_trans; [apply HT | apply Z.pow_le_mono_r; lia]. }
  rewrite !H0 by lia. repeat (apply (f_equal2 cons); [try (reflexivity || (rewrite Z.shiftr_shiftl_r by lia; reflexivity))|]); [|reflexivity].
  apply Z.bits_inj'. intros k Hk. change (8 * Z.of_nat 0) with 0. rewrite Z.shiftr_0_r, !wrap_testbit by lia.
  now destruct (Z.ltb_spec k 8), (Z.ltb_spec k 64); try lia.
Qed.

Lemma pad_32 b : pad sha2_32 b = b ++ [0x80] ++ replicate ((119 - length b mod 64) mod 64) 0 ++ be_bytes 8 (8 * Z.of_nat (length b)).
Proof. unfold pad. cbn [wsize sha2_32]. reflexivity. Qed.

Lemma pad_64 b : pad sha2_64 b = b ++ [0x80] ++ replicate ((239 - length b mod 128) mod 128) 0 ++ be_bytes 16 (8 * Z.of_nat (length b)).
Proof. unfold pad. cbn [wsize sha2_64]. reflexivity. Qed.

(** * The functions of the source *)

Definition inc_run (blocks : list Z -> list Z -> nat -> list Z) (B : nat) (ctx : list Z) (bs : list (list Z)) : list Z :=
  foldl (fun ctx b => blocks ctx b (length b / B)%nat) ctx bs.

(** A context after the blocks of [m]. *)
Definition ctx_after (p : Sha2) (iv m : list Z) : list Z :=
  hash_ctx p (foldl (compress p) (load_words p 8 iv) (chunks p m)) (store_bigendian_64 (u64 (Z.of_nat (length m)))).

Section Context_of.
Context (p : Sha2) {Laws : Sha2Laws p} (iv : list Z) (Hiv : state_ok p (load_words p 8 iv)).

Lemma after_ok m : state_ok p (foldl (compress p) (load_words p 8 iv) (chunks p m)).
Proof using Laws Hiv. now apply foldl_compress_ok. Qed.

Lemma drop_stored H r : state_ok p H -> drop (8 * wsize p) (hash_ctx p H r) = r.
Proof using Laws. intros [HH _]. unfold hash_ctx. rewrite <- HH, (Nat.mul_comm (length H)), <- length_stored by done. apply drop_app_length. Qed.

Lemma take_stored H r : state_ok p H -> take (8 * wsize p) (hash_ctx p H r) = H ≫= store p.
Proof using Laws. intros [HH _]. unfold hash_ctx. rewrite <- HH, (Nat.mul_comm (length H)), <- length_stored by done. apply take_app_length. Qed.

Lemma count_after m : load_bigendian_64 (drop (8 * wsize p) (ctx_after p iv m)) = u64 (Z.of_nat (length m)).
Proof using Laws Hiv.
  unfold ctx_after. rewrite drop_stored by apply after_ok. rewrite <- (app_nil_r (store_bigendian_64 _)). apply load_store_64, wrap_range. lia.
Qed.

(** Hashing more blocks. *)
Lemma blocks_after m b n : (length m mod (16 * wsize p) = 0)%nat -> length b = (16 * wsize p * n)%nat ->
  take (8 * wsize p) (hashblocks p (ctx_after p iv m) (take (16 * wsize p * n) b)) ++
    store_bigendian_64 (u64 (u64 (Z.of_nat (length m)) + u64 (Z.of_nat (16 * wsize p) * Z.of_nat n))) = ctx_after p iv (m ++ b).
Proof using Laws Hiv.
  intros Hm Hb. rewrite (take_ge b) by lia. unfold ctx_after at 1. rewrite hashblocks_spec by (done || apply after_ok).
  rewrite take_stored by (apply foldl_compress_ok; [done | apply after_ok]). unfold ctx_after, hash_ctx. rewrite chunks_app, foldl_app by done. do 2 f_equal.
  rewrite wrap_add_l, Z.add_comm, wrap_add_l by lia. f_equal. rewrite length_app. lia.
Qed.

(** The last call: padding [t]. *)
Lemma finalize_after m b t : (length m mod (16 * wsize p) = 0)%nat -> (m ++ b) ++ t = pad p (m ++ b) ->
  take (8 * wsize p) (hashblocks p (hashblocks p (ctx_after p iv m) b) (drop (length b - length b mod (16 * wsize p)) b ++ t)) = sha2_digest p iv (m ++ b).
Proof using Laws Hiv.
  intros Hm Ht. unfold ctx_after. rewrite finalize_blocks by (done || apply after_ok). unfold sha2_digest. f_equal.
  rewrite <- foldl_app, <- chunks_app, app_assoc, Ht by done. done.
Qed.
End Context_of.

Lemma iv_ok iv p : bool_decide (Forall (in_width (wbits p)) (load_words p 8 iv)) = true -> state_ok p (load_words p 8 iv).
Proof. intros H. apply bool_decide_eq_true_1 in H. split; [unfold load_words; now rewrite length_fmap, length_seq | exact H]. Qed.

Lemma init_after p iv : Sha2Laws p -> (load_words p 8 iv ≫= store p) = iv -> ctx_after p iv [] = iv ++ replicate 8 0.
Proof. intros Laws H. unfold ctx_after, hash_ctx. rewrite chunks_short by (exact Laws || (pose proof (block_pos p); cbn; lia)). cbn [foldl]. now rewrite H. Qed.

Lemma run_after p iv blocks (B : nat) (bs : list (list Z)) : (0 < B)%nat ->
  (forall m b n, (length m mod B = 0)%nat -> length b = (B * n)%nat -> blocks (ctx_after p iv m) b n = ctx_after p iv (m ++ b)) ->
  Forall (fun b => length b mod B = 0)%nat bs -> forall m, (length m mod B = 0)%nat ->
  inc_run blocks B (ctx_after p iv m) bs = ctx_after p iv (m ++ concat bs) /\ (length (m ++ concat bs) mod B = 0)%nat.
Proof.
  intros HB Hblocks. induction 1 as [|b bs Hb Hbs IH]; intros m Hm; [cbn; now rewrite app_nil_r|].
  unfold inc_run in *. cbn [foldl concat]. apply Nat.Div0.mod_divides in Hb as [n Hn]. assert (length b / B = n)%nat as ->
    by (rewrite Hn, Nat.mul_comm; apply Nat.div_mul; lia). rewrite (Hblocks m b n Hm Hn), app_assoc. apply IH.
  rewrite length_app, Hn, Nat.Div0.add_mod, Hm, Nat.mul_comm, Nat.Div0.mod_mul. now rewrite Nat.Div0.mod_0_l.
Qed.

Section Run_32.
Context (iv : list Z) (Hiv : state_ok sha2_32 (load_words sha2_32 8 iv)).

Lemma sha256_blocks_after m b n : (length m mod 64 = 0)%nat -> length b = (64 * n)%nat ->
  sha256_inc_blocks (ctx_after sha2_32 iv m) b n = ctx_after sha2_32 iv (m ++ b).
Proof using Hiv.
  intros Hm Hb. rewrite <- (blocks_after sha2_32 iv Hiv m b n Hm Hb). unfold sha256_inc_blocks.
  pose proof (count_after sha2_32 iv Hiv m) as E. change (8 * wsize sha2_32)%nat with 32%nat in *. rewrite E. reflexivity.
Qed.

Lemma sha256_finalize_after m b : (length m mod 64 = 0)%nat -> Z.of_nat (length (m ++ b)) < 2 ^ 61 ->
  sha256_inc_finalize (ctx_after sha2_32 iv m) b = sha2_digest sha2_32 iv (m ++ b).
Proof using Hiv.
  intros Hm HT. pose proof (count_after sha2_32 iv Hiv m) as E. change (8 * wsize sha2_32)%nat with 32%nat in E.
  assert (length (m ++ b) mod 64 = length b mod 64)%nat as Hmod.
  { rewrite length_app, Nat.Div0.add_mod, Hm, Nat.add_0_l. apply Nat.Div0.mod_mod. }
  unfold sha256_inc_finalize. rewrite E, wrap_add_l, <- Nat2Z.inj_add, <- length_app, (wrap_small 64) by (unfold in_width; lia).
  rewrite size_bytes by lia. pose proof (Nat.mod_upper_bound (length b) 64 ltac:(lia)) as Hr.
  set (size := be_bytes 8 _). set (r := (length b mod 64)%nat) in *. unfold crypto_hashblocks_sha256.
  rewrite <- (finalize_after sha2_32 iv Hiv m b ([0x80] ++ replicate ((119 - r) mod 64) 0 ++ size) Hm) by (rewrite pad_32, Hmod; reflexivity).
  change (16 * wsize sha2_32)%nat with 64%nat. fold r. change (8 * wsize sha2_32)%nat with 32%nat. do 2 f_equal.
  destruct (Nat.ltb_spec r 56); do 4 f_equal.
  - apply (Nat.mod_unique _ _ 1); lia.
  - symmetry. rewrite Nat.mod_small; lia.
Qed.
End Run_32.

Section Run_64.
Context (iv : list Z) (Hiv : state_ok sha2_64 (load_words sha2_64 8 iv)).

Lemma sha512_blocks_after m b n : (length m mod 128 = 0)%nat -> length b = (128 * n)%nat ->
  sha512_inc_blocks (ctx_after sha2_64 iv m) b n = ctx_after sha2_64 iv (m ++ b).
Proof using Hiv.
  intros Hm Hb. rewrite <- (blocks_after sha2_64 iv Hiv m b n Hm Hb). unfold sha512_inc_blocks.
  pose proof (count_after sha2_64 iv Hiv m) as E. change (8 * wsize sha2_64)%nat with 64%nat in *. rewrite E. reflexivity.
Qed.

Lemma sha512_finalize_after m b : (length m mod 128 = 0)%nat -> Z.of_nat (length (m ++ b)) < 2 ^ 64 ->
  sha512_inc_finalize (ctx_after sha2_64 iv m) b = sha2_digest sha2_64 iv (m ++ b).
Proof using Hiv.
  intros Hm HT. pose proof (count_after sha2_64 iv Hiv m) as E. change (8 * wsize sha2_64)%nat with 64%nat in E.
  assert (length (m ++ b) mod 128 = length b mod 128)%nat as Hmod.
  { rewrite length_app, Nat.Div0.add_mod, Hm, Nat.add_0_l. apply Nat.Div0.mod_mod. }
  unfold sha512_inc_finalize. rewrite E, wrap_add_l, <- Nat2Z.inj_add, <- length_app, (wrap_small 64) by (unfold in_width; lia).
  pose proof (size_bytes_128 (Z.of_nat (length (m ++ b))) ltac:(lia)) as HS. pose proof (Nat.mod_upper_bound (length b) 128 ltac:(lia)) as Hr.
  set (size := [_; _; _; _; _; _; _; _; _]) in *. set (r := (length b mod 128)%nat) in *. unfold crypto_hashblocks_sha512.
  rewrite <- (finalize_after sha2_64 iv Hiv m b ([0x80] ++ replicate ((239 - r) mod 128) 0 ++ replicate 7 0 ++ size) Hm) by (rewrite HS, pad_64, Hmod; reflexivity).
  change (16 * wsize sha2_64)%nat with 128%nat. fold r. change (8 * wsize sha2_64)%nat with 64%nat. do 2 f_equal.
  rewrite (app_assoc (replicate _ 0) (replicate 7 0)), <- replicate_add. destruct (Nat.ltb_spec r 112); do 4 f_equal.
  - assert ((239 - r) mod 128 = 111 - r)%nat as -> by (symmetry; apply (Nat.mod_unique _ _ 1); lia). lia.
  - rewrite Nat.mod_small; lia.
Qed.
End Run_64.

(** The four functions, called on a message in one piece or block by block, in terms of [sha2_digest], the
    padding, schedule and rounds of this file. *)
Lemma sha2_digests (bs : list (list Z)) (b : list Z) :
  (Forall (fun x => length x mod 64 = 0)%nat bs -> Z.of_nat (length (concat bs ++ b)) < 2 ^ 61 ->
   sha256_inc_finalize (inc_run sha256_inc_blocks 64 sha256_inc_init bs) b = sha2_digest sha2_32 iv_256 (concat bs ++ b) /\
   sha224_inc_finalize (inc_run sha224_inc_blocks 64 sha224_inc_init bs) b = take 28 (sha2_digest sha2_32 iv_224 (concat bs ++ b))) /\
  (Forall (fun x => length x mod 128 = 0)%nat bs -> Z.of_nat (length (concat bs ++ b)) < 2 ^ 64 ->
   sha512_inc_finalize (inc_run sha512_inc_blocks 128 sha512_inc_init bs) b = sha2_digest sha2_64 iv_512 (concat bs ++ b) /\
   sha384_inc_finalize (inc_run sha384_inc_blocks 128 sha384_inc_init bs) b = take 48 (sha2_digest sha2_64 iv_384 (concat bs ++ b))).
Proof.
  assert (state_ok sha2_32 (load_words sha2_32 8 iv_256)) as I256 by (now apply iv_ok).
  assert (state_ok sha2_32 (load_words sha2_32 8 iv_224)) as I224 by (now apply iv_ok).
  assert (state_ok sha2_64 (load_words sha2_64 8 iv_512)) as I512 by (now apply iv_ok).
  assert (state_ok sha2_64 (load_words sha2_64 8 iv_384)) as I384 by (now apply iv_ok).
  split; intros Hbs HT; split; unfold sha224_inc_finalize, sha384_inc_finalize; try f_equal.
  - destruct (run_after sha2_32 iv_256 sha256_inc_blocks 64 bs ltac:(lia) (sha256_blocks_after iv_256 I256) Hbs [] eq_refl) as [E El].
    rewrite init_after in E by (exact _ || reflexivity). unfold sha256_inc_init. rewrite E. now apply sha256_finalize_after.
  - destruct (run_after sha2_32 iv_224 sha224_inc_blocks 64 bs ltac:(lia) (sha256_blocks_after iv_224 I224) Hbs [] eq_refl) as [E El].
    rewrite init_after in E by (exact _ || reflexivity). unfold sha224_inc_init. rewrite E. now apply sha256_finalize_after.
  - destruct (run_after sha2_64 iv_512 sha512_inc_blocks 128 bs ltac:(lia) (sha512_blocks_after iv_512 I512) Hbs [] eq_refl) as [E El].
    rewrite init_after in E by (exact _ || reflexivity). unfold sha512_inc_init. rewrite E. now apply sha512_finalize_after.
  - destruct (run_after sha2_64 iv_384 sha384_inc_blocks 128 bs ltac:(lia) (sha512_blocks_after iv_384 I384) Hbs [] eq_refl) as [E El].
    rewrite init_after in E by (exact _ || reflexivity). unfold sha384_inc_init. rewrite E. now apply sha512_finalize_after.
Qed.
