(* ===== verification/Sha2Spec.v ===== *)
(** Sha2Spec: FIPS 180-4, and the program of [Sha2] against it.

    Nothing of the standard comes from the program: rotations are quotients and remainders, words and bytes are
    digits, the constants are the fractional parts of roots of primes, computed here. *)

From Stdlib Require Import ZArith Lia.
From stdpp Require Import base numbers list.
From S2P Require Import Prelude Sha2.

(** * Constants *)

(** The cube root of [n], rounded down, bit by bit. *)
Fixpoint cbrt_bits (k : nat) (r n : Z) : Z :=
  match k with
  | O => r
  | S k => let r' := r + 2 ^ Z.of_nat k in cbrt_bits k (if r' * r' * r' <=? n then r' else r) n
  end.

Definition cbrt (n : Z) : Z := cbrt_bits (S (Z.to_nat (Z.log2 n))) 0 n.

Definition prime_number (n : nat) : bool := (2 <=? n)%nat && forallb (fun d => negb (n mod d =? 0)%nat) (seq 2 (n - 2)).

(** The first eighty primes. *)
Definition primes : list Z := Z.of_nat <$> filter (fun n => prime_number n = true) (seq 0 410).

(** The first [w] bits of the fractional parts of the cube root and of the square root of [p]. *)
Definition cbrt_fraction (w p : Z) : Z := cbrt (p * 2 ^ (3 * w)) mod 2 ^ w.
Definition sqrt_fraction (w p : Z) : Z := Z.sqrt (p * 2 ^ (2 * w)) mod 2 ^ w.

Lemma cbrt_bits_spec k : forall r n, 0 <= r -> r ^ 3 <= n < (r + 2 ^ Z.of_nat k) ^ 3 -> let c := cbrt_bits k r n in c ^ 3 <= n < (c + 1) ^ 3.
Proof.
  induction k as [|k IH]; intros r n Hr Hn; cbn [cbrt_bits]; [exact Hn|]. pose proof (Z.pow_pos_nonneg 2 (Z.of_nat k) ltac:(lia) ltac:(lia)).
  assert (r + 2 ^ Z.of_nat (S k) = r + 2 ^ Z.of_nat k + 2 ^ Z.of_nat k) as E by (rewrite Nat2Z.inj_succ, Z.pow_succ_r by lia; lia). rewrite E in Hn.
  set (r' := r + 2 ^ Z.of_nat k) in *. assert (r' * r' * r' = r' ^ 3) as E3 by ring. cbv zeta.
  destruct (Z.leb_spec (r' * r' * r') n) as [Hle|Hgt]; apply IH; lia.
Qed.

Lemma cbrt_spec n : 0 <= n -> cbrt n ^ 3 <= n < (cbrt n + 1) ^ 3.
Proof.
  intros Hn. apply cbrt_bits_spec; [lia|]. split; [rewrite Z.pow_0_l; lia|]. rewrite Z.add_0_l. pose proof (Z.log2_nonneg n).
  rewrite Nat2Z.inj_succ, Z2Nat.id by lia. apply Z.lt_le_trans with (2 ^ Z.succ (Z.log2 n)).
  - destruct (Z.eq_dec n 0) as [->|Hne]; [reflexivity | apply Z.log2_spec; lia].
  - set (x := 2 ^ Z.succ (Z.log2 n)). assert (1 <= x) by (assert (0 < x) by (apply Z.pow_pos_nonneg; lia); lia). nia.
Qed.

(** * The standard *)

(** The two word sizes: bytes of a word, rotations (the third of the small sigmas is a shift), constants. *)
Record Fips := mk_fips {
  bytes_per_word : nat;
  rounds : nat;
  Sigma0_amounts : Z * Z * Z;
  Sigma1_amounts : Z * Z * Z;
  sigma0_amounts : Z * Z * Z;
  sigma1_amounts : Z * Z * Z
}.

Definition fips_32 : Fips := mk_fips 4 64 (2, 13, 22) (6, 11, 25) (7, 18, 3) (17, 19, 10).
Definition fips_64 : Fips := mk_fips 8 80 (28, 34, 39) (14, 18, 41) (1, 8, 7) (19, 61, 6).

(** A number in base 256, the high digit first. *)
Definition be_value (bs : list Z) : Z := foldl (fun v b => 256 * v + b) 0 bs.
Definition be_digits (n : nat) (x : Z) : list Z := (fun i => (x / 256 ^ Z.of_nat (n - 1 - i)) mod 256) <$> seq 0 n.

Section Fips.
Context (s : Fips).
Abbreviation w := (8 * Z.of_nat (bytes_per_word s)).
Abbreviation size := (bytes_per_word s).
Abbreviation block_size := (16 * bytes_per_word s)%nat.

Definition rotr (n x : Z) : Z := x / 2 ^ n + (x mod 2 ^ n) * 2 ^ (w - n).
Definition big_sigma (r : Z * Z * Z) (x : Z) : Z := rotr r.1.1 x .^ rotr r.1.2 x .^ rotr r.2 x.
Definition small_sigma (r : Z * Z * Z) (x : Z) : Z := rotr r.1.1 x .^ rotr r.1.2 x .^ (x / 2 ^ r.2).

(** Choice and majority; the complement of a word [x] is [2 ^ w - 1 - x]. *)
Definition choose (x y z : Z) : Z := (x .& y) .^ ((2 ^ w - 1 - x) .& z).
Definition majority (x y z : Z) : Z := (x .& y) .^ (x .& z) .^ (y .& z).

Definition constant (t : nat) : Z := cbrt_fraction w (primes !!! t).

(** The words of a block, and the message schedule. *)
Definition block_words (b : list Z) : list Z := (fun i => be_value (take size (drop (size * i) b))) <$> seq 0 16.

Fixpoint message_schedule (n : nat) (W : list Z) : list Z :=
  match n with
  | O => W
  | S n =>
      let W := message_schedule n W in
      let t := length W in
      W ++ [(small_sigma (sigma1_amounts s) (W !!! (t - 2)%nat) + W !!! (t - 7)%nat + small_sigma (sigma0_amounts s) (W !!! (t - 15)%nat) + W !!! (t - 16)%nat) mod 2 ^ w]
  end.

Definition fips_round (W : list Z) (t : nat) (v : list Z) : list Z :=
  let x i := v !!! i in
  let T1 := x 7%nat + big_sigma (Sigma1_amounts s) (x 4%nat) + choose (x 4%nat) (x 5%nat) (x 6%nat) + constant t + W !!! t in
  let T2 := big_sigma (Sigma0_amounts s) (x 0%nat) + majority (x 0%nat) (x 1%nat) (x 2%nat) in
  [(T1 + T2) mod 2 ^ w; x 0%nat; x 1%nat; x 2%nat; (x 3%nat + T1) mod 2 ^ w; x 4%nat; x 5%nat; x 6%nat].

Definition fips_compress (H b : list Z) : list Z :=
  let W := message_schedule (rounds s - 16) (block_words b) in
  zip_with (fun x y => (x + y) mod 2 ^ w) H (foldl (fun v t => fips_round W t v) H (seq 0 (rounds s))).

(** One bit 1, the least number of bits 0 that leaves two words for the length, the length in bits. *)
Definition fips_pad (m : list Z) : list Z :=
  let filled := (length m + 1 + 2 * size)%nat in
  m ++ [128] ++ replicate ((block_size - filled mod block_size) mod block_size) 0 ++ be_digits (2 * size) (8 * Z.of_nat (length m)).

Definition fips_blocks (m : list Z) : list (list Z) := (fun i => take block_size (drop (block_size * i) m)) <$> seq 0 (length m / block_size).

(** The digest from the initial words [H0]. *)
Definition fips_digest (H0 m : list Z) : list Z := foldl fips_compress H0 (fips_blocks (fips_pad m)) ≫= be_digits size.
End Fips.

(** The four functions: the initial words come from the first eight primes, or from the next eight. *)
Definition SHA256 (m : list Z) : list Z := fips_digest fips_32 (sqrt_fraction 32 <$> take 8 primes) m.
Definition SHA224 (m : list Z) : list Z := take 28 (fips_digest fips_32 ((fun p => sqrt_fraction 64 p mod 2 ^ 32) <$> take 8 (drop 8 primes)) m).
Definition SHA512 (m : list Z) : list Z := fips_digest fips_64 (sqrt_fraction 64 <$> take 8 primes) m.
Definition SHA384 (m : list Z) : list Z := take 48 (fips_digest fips_64 (sqrt_fraction 64 <$> take 8 (drop 8 primes)) m).

Example SHA256_abc : take 8 (SHA256 [97; 98; 99]) = [0xba; 0x78; 0x16; 0xbf; 0x8f; 0x01; 0xcf; 0xea].
Proof. vm_compute. reflexivity. Qed.

(** * The constants of the program *)

Lemma K_32_correct : K_32 = constant fips_32 <$> seq 0 64.
Proof. vm_compute. reflexivity. Qed.

Lemma K_64_correct : K_64 = constant fips_64 <$> seq 0 80.
Proof. vm_compute. reflexivity. Qed.

Lemma iv_correct :
  load_words sha2_32 8 iv_256 = sqrt_fraction 32 <$> take 8 primes /\
  load_words sha2_32 8 iv_224 = (fun p => sqrt_fraction 64 p mod 2 ^ 32) <$> take 8 (drop 8 primes) /\
  load_words sha2_64 8 iv_512 = sqrt_fraction 64 <$> take 8 primes /\
  load_words sha2_64 8 iv_384 = sqrt_fraction 64 <$> take 8 (drop 8 primes).
Proof. vm_compute. repeat split. Qed.

(** * The program, piece by piece *)

(** What relates the parameters of the program to those of the standard. *)
Class Matches (p : Sha2) (s : Fips) : Prop := {
  m_laws :: Sha2Laws p;
  m_size : wsize p = bytes_per_word s;
  m_many : (16 <= rounds s)%nat;
  m_constants : round_constants p = constant s <$> seq 0 (rounds s);
  m_Sigma0 : forall x, in_width (wbits p) x -> Sigma0 p x = big_sigma s (Sigma0_amounts s) x;
  m_Sigma1 : forall x, in_width (wbits p) x -> Sigma1 p x = big_sigma s (Sigma1_amounts s) x;
  m_sigma0 : forall x, in_width (wbits p) x -> sigma0 p x = small_sigma s (sigma0_amounts s) x;
  m_sigma1 : forall x, in_width (wbits p) x -> sigma1 p x = small_sigma s (sigma1_amounts s) x;
  m_load : forall b, length b = wsize p -> Forall (in_width 8) b -> load p b = be_value b;
  m_store : forall u, in_width (wbits p) u -> store p u = be_digits (bytes_per_word s) u
}.

Lemma rotation w c x : 0 < c < w -> in_width w x -> (x .>> c) .| wrap w (x .<< (w - c)) = x / 2 ^ c + (x mod 2 ^ c) * 2 ^ (w - c).
Proof.
  intros Hc [H0 H1]. assert (2 ^ w = 2 ^ c * 2 ^ (w - c)) as E by (rewrite <- Z.pow_add_r by lia; f_equal; lia).
  pose proof (Z.pow_pos_nonneg 2 c ltac:(lia) ltac:(lia)). pose proof (Z.pow_pos_nonneg 2 (w - c) ltac:(lia) ltac:(lia)).
  assert (wrap w (x .<< (w - c)) = (x mod 2 ^ c) .<< (w - c)) as ->.
  { rewrite wrap_mod, !Z.shiftl_mul_pow2 by lia. rewrite E, Z.mul_mod_distr_r; lia. }
  rewrite Z.lor_comm, lor_shiftl_add; [rewrite Z.shiftr_div_pow2 by lia; lia | lia|].
  rewrite Z.shiftr_div_pow2 by lia. split; [apply Z.div_pos; lia | apply Z.div_lt_upper_bound; lia].
Qed.

Lemma choose_bits w x y z : 0 <= w -> in_width w x -> in_width w z -> Ch x y z = (x .& y) .^ ((2 ^ w - 1 - x) .& z).
Proof.
  intros Hw Hx Hz. unfold Ch. f_equal. rewrite <- lxor_ones by assumption. rewrite <- (wrap_small w z Hz). apply Z.bits_inj'. intros k Hk.
  rewrite !Z.land_spec, Z.lxor_spec, Z.lnot_spec, !wrap_testbit by lia. destruct (Z.ltb_spec k w); [|now rewrite !andb_false_r].
  rewrite Z.ones_spec_low by lia. now rewrite xorb_true_r.
Qed.

(** A digit above those already gathered. *)
Lemma lor_digit w x n b : 0 <= n -> n + 8 <= w -> 0 <= x < 2 ^ n -> in_width 8 b -> x .| wrap w (b .<< n) = x + b * 2 ^ n /\ 0 <= x + b * 2 ^ n < 2 ^ (n + 8).
Proof.
  intros Hn Hw Hx [H0 H1]. change (2 ^ 8) with 256 in H1. rewrite Z.pow_add_r by lia. change (2 ^ 8) with 256.
  split; [|nia]. rewrite wrap_small.
  - rewrite Z.lor_comm, lor_shiftl_add by lia. lia.
  - rewrite Z.shiftl_mul_pow2 by lia. split; [nia|]. apply Z.lt_le_trans with (2 ^ (n + 8)); [rewrite Z.pow_add_r by lia; change (2 ^ 8) with 256; nia | apply Z.pow_le_mono_r; lia].
Qed.

Lemma load_value_32 b : length b = 4%nat -> Forall (in_width 8) b -> load_bigendian_32 b = be_value b.
Proof.
  intros Hl Hb. destruct b as [|b0 [|b1 [|b2 [|b3 [|]]]]]; try discriminate Hl. rewrite !Forall_cons in Hb. destruct Hb as (H0 & H1 & H2 & H3 & _).
  unfold load_bigendian_32, be_value. cbn [lookup_total list_lookup_total foldl].
  destruct (lor_digit 32 b3 8 b2 ltac:(lia) ltac:(lia) H3 H2) as [-> R2]. destruct (lor_digit 32 _ 16 b1 ltac:(lia) ltac:(lia) R2 H1) as [-> R1].
  destruct (lor_digit 32 _ 24 b0 ltac:(lia) ltac:(lia) R1 H0) as [-> _]. change (2 ^ 8) with 256. change (2 ^ 16) with (256 * 256). change (2 ^ 24) with (256 * 256 * 256). ring.
Qed.

Lemma load_value_64 b : length b = 8%nat -> Forall (in_width 8) b -> load_bigendian_64 b = be_value b.
Proof.
  intros Hl Hb. destruct b as [|b0 [|b1 [|b2 [|b3 [|b4 [|b5 [|b6 [|b7 [|]]]]]]]]]; try discriminate Hl. rewrite !Forall_cons in Hb. destruct Hb as (H0 & H1 & H2 & H3 & H4 & H5 & H6 & H7 & _).
  unfold load_bigendian_64, be_value. cbn [lookup_total list_lookup_total foldl].
  destruct (lor_digit 64 b7 8 b6 ltac:(lia) ltac:(lia) H7 H6) as [-> R6]. destruct (lor_digit 64 _ 16 b5 ltac:(lia) ltac:(lia) R6 H5) as [-> R5].
  destruct (lor_digit 64 _ 24 b4 ltac:(lia) ltac:(lia) R5 H4) as [-> R4]. destruct (lor_digit 64 _ 32 b3 ltac:(lia) ltac:(lia) R4 H3) as [-> R3].
  destruct (lor_digit 64 _ 40 b2 ltac:(lia) ltac:(lia) R3 H2) as [-> R2]. destruct (lor_digit 64 _ 48 b1 ltac:(lia) ltac:(lia) R2 H1) as [-> R1].
  destruct (lor_digit 64 _ 56 b0 ltac:(lia) ltac:(lia) R1 H0) as [-> _].
  change (2 ^ 8) with 256. change (2 ^ 16) with (256 ^ 2). change (2 ^ 24) with (256 ^ 3). change (2 ^ 32) with (256 ^ 4). change (2 ^ 40) with (256 ^ 5). change (2 ^ 48) with (256 ^ 6). change (2 ^ 56) with (256 ^ 7). ring.
Qed.

Lemma store_digits_32 u : store_bigendian_32 u = be_digits 4 u.
Proof. unfold store_bigendian_32. rewrite !Z.shiftr_shiftr, !wrap_mod, !Z.shiftr_div_pow2 by lia. cbn [be_digits seq fmap list_fmap]. now rewrite Z.div_1_r. Qed.

Lemma store_digits_64 u : store_bigendian_64 u = be_digits 8 u.
Proof. unfold store_bigendian_64. rewrite !Z.shiftr_shiftr, !wrap_mod, !Z.shiftr_div_pow2 by lia. cbn [be_digits seq fmap list_fmap]. now rewrite Z.div_1_r. Qed.

Lemma sigmas_32 x : in_width 32 x ->
  Sigma0_32 x = big_sigma fips_32 (2, 13, 22) x /\ Sigma1_32 x = big_sigma fips_32 (6, 11, 25) x /\
  sigma0_32 x = small_sigma fips_32 (7, 18, 3) x /\ sigma1_32 x = small_sigma fips_32 (17, 19, 10) x.
Proof.
  intros Hx. unfold Sigma0_32, Sigma1_32, sigma0_32, sigma1_32, big_sigma, small_sigma, rotr, ROTR_32, SHR. cbn [fips_32 bytes_per_word fst snd].
  change (8 * Z.of_nat 4) with 32. rewrite !(rotation 32) by (assumption || lia). rewrite !Z.shiftr_div_pow2 by lia. repeat split.
Qed.

Lemma sigmas_64 x : in_width 64 x ->
  Sigma0_64 x = big_sigma fips_64 (28, 34, 39) x /\ Sigma1_64 x = big_sigma fips_64 (14, 18, 41) x /\
  sigma0_64 x = small_sigma fips_64 (1, 8, 7) x /\ sigma1_64 x = small_sigma fips_64 (19, 61, 6) x.
Proof.
  intros Hx. unfold Sigma0_64, Sigma1_64, sigma0_64, sigma1_64, big_sigma, small_sigma, rotr, ROTR_64, SHR. cbn [fips_64 bytes_per_word fst snd].
  change (8 * Z.of_nat 8) with 64. rewrite !(rotation 64) by (assumption || lia). rewrite !Z.shiftr_div_pow2 by lia. repeat split.
Qed.

#[export] Instance matches_32 : Matches sha2_32 fips_32.
Proof.
  constructor; [exact _ | reflexivity | cbn [rounds fips_32]; lia | exact K_32_correct | | | | | exact load_value_32 | intros u _; exact (store_digits_32 u)];
    intros x Hx; apply (sigmas_32 x Hx).
Qed.

#[export] Instance matches_64 : Matches sha2_64 fips_64.
Proof.
  constructor; [exact _ | reflexivity | cbn [rounds fips_64]; lia | exact K_64_correct | | | | | exact load_value_64 | intros u _; exact (store_digits_64 u)];
    intros x Hx; apply (sigmas_64 x Hx).
Qed.

(** * The program, as a whole *)

Section Refinement.
Context (p : Sha2) (s : Fips) {Hm : Matches p s}.
Abbreviation w := (wbits p).

Lemma width_bits : w = 8 * Z.of_nat (bytes_per_word s) /\ 0 <= w.
Proof using Hm. pose proof (word_bits p) as E. pose proof (m_size (p := p) (s := s)) as Hs. rewrite E, Hs. split; [reflexivity | lia]. Qed.

Lemma wrap_w z : wrap w z = z mod 2 ^ (8 * Z.of_nat (bytes_per_word s)).
Proof using Hm. destruct width_bits as [<- H]. now apply wrap_mod. Qed.

Lemma reduced_width z : in_width w (z mod 2 ^ (8 * Z.of_nat (bytes_per_word s))).
Proof using Hm. destruct width_bits as [<- H]. rewrite <- wrap_mod by exact H. now apply wrap_range. Qed.

(** Words are words. *)
Definition words (W : list Z) : Prop := Forall (in_width w) W.

Lemma words_at W i : words W -> (i < length W)%nat -> in_width w (W !!! i).
Proof. intros HW Hi. now apply (Forall_lookup_total (in_width w)). Qed.

Lemma be_value_bound b : Forall (in_width 8) b -> 0 <= be_value b < 2 ^ (8 * Z.of_nat (length b)).
Proof.
  induction b as [|x b IH] using rev_ind; intros Hb; [cbn; lia|]. apply Forall_app in Hb as [Hb Hx]. apply Forall_cons in Hx as [Hx _].
  specialize (IH Hb). unfold be_value in *. rewrite foldl_app. cbn [foldl]. rewrite length_app. cbn [length].
  replace (8 * Z.of_nat (length b + 1)) with (8 * Z.of_nat (length b) + 8) by lia. rewrite Z.pow_add_r by lia. unfold in_width in Hx. change (2 ^ 8) with 256 in *. lia.
Qed.

Lemma block_words_correct b : length b = (16 * bytes_per_word s)%nat -> Forall (in_width 8) b ->
  load_words p 16 b = block_words s b /\ words (block_words s b) /\ length (block_words s b) = 16%nat.
Proof using Hm.
  intros Hl Hb. pose proof (m_size (p := p) (s := s)) as Hs. destruct width_bits as [Hw _].
  assert (forall i, (i < 16)%nat -> length (take (bytes_per_word s) (drop (bytes_per_word s * i) b)) = bytes_per_word s) as L by (intros i Hi; rewrite length_take, length_drop; nia).
  unfold block_words, load_words. rewrite Hs. split; [|split; [|now rewrite length_fmap, length_seq]].
  - apply list_fmap_ext. intros _ i Hi%list_elem_of_lookup_2%elem_of_seq. rewrite <- (load_take p), Hs. apply m_load; [rewrite Hs; apply L; lia | now apply Forall_take, Forall_drop].
  - apply Forall_fmap, Forall_forall. intros i Hi%elem_of_seq. cbn [compose]. unfold in_width. rewrite Hw.
    pose proof (be_value_bound (take (bytes_per_word s) (drop (bytes_per_word s * i) b)) ltac:(now apply Forall_take, Forall_drop)) as HB.
    now rewrite (L i) in HB by lia.
Qed.

Lemma schedule_correct n W : words W -> (16 <= length W)%nat ->
  schedule p n W = message_schedule s n W /\ words (message_schedule s n W) /\ length (message_schedule s n W) = (length W + n)%nat.
Proof using Hm.
  intros HW Hl. induction n as [|n (IH & IW & IL)]; [split; [reflexivity | split; [exact HW | cbn; lia]]|].
  unfold schedule in *. rewrite Nat.iter_succ, IH. cbn [message_schedule]. set (V := message_schedule s n W) in *.
  unfold schedule_step. rewrite wrap_w, m_sigma1, m_sigma0 by (apply words_at; [exact IW | lia]).
  split; [reflexivity|]. split; [|rewrite length_app; cbn [length]; lia]. apply Forall_app. split; [exact IW|]. constructor; [apply reduced_width | constructor].
Qed.

Lemma round_correct W t v : (t < rounds s)%nat -> length v = 8%nat -> words v ->
  round p W t v = fips_round s W t v /\ length (fips_round s W t v) = 8%nat /\ words (fips_round s W t v).
Proof using Hm.
  intros Ht Hl Hv. destruct v as [|a [|b [|c [|d [|e [|f [|g [|h [|]]]]]]]]]; try discriminate Hl. clear Hl.
  unfold words in *. rewrite !Forall_cons in Hv. destruct Hv as (Ha & Hb & Hc & Hd & He & Hf & Hg & Hh & _). destruct width_bits as [Ew Hw].
  split; [|split; [reflexivity | unfold fips_round; repeat (constructor; [first [apply reduced_width | assumption]|]); constructor]].
  unfold round, F, fips_round. cbn [lookup_total list_lookup_total]. rewrite m_constants.
  rewrite (list_lookup_total_fmap (constant s)) by (now rewrite length_seq). rewrite lookup_total_seq_lt, Nat.add_0_l by exact Ht.
  rewrite m_Sigma1, m_Sigma0 by assumption. rewrite (choose_bits w e f g) by assumption. unfold choose, majority, Maj. rewrite <- Ew.
  rewrite !wrap_mod by exact Hw. rewrite Zplus_mod_idemp_l, Zplus_mod_idemp_r.
  rewrite <- (Zplus_mod_idemp_r (h + _ + _ + _ + _) d). do 4 f_equal.
Qed.

Lemma sums_correct v H : zip_with (fun x y => wrap w (x + y)) v H = zip_with (fun x y => (x + y) mod 2 ^ (8 * Z.of_nat (bytes_per_word s))) H v.
Proof using Hm. revert H. induction v as [|x v IH]; intros [|y H]; [reflexivity.. |]. cbn [zip_with]. now rewrite IH, wrap_w, Z.add_comm. Qed.

Lemma compress_correct H b : length H = 8%nat -> words H -> length b = (16 * bytes_per_word s)%nat -> Forall (in_width 8) b ->
  compress p H b = fips_compress s H b.
Proof using Hm.
  intros Hl HH Hb Bb. destruct (block_words_correct b Hb Bb) as (EW & WW & LW). pose proof (m_many (p := p) (s := s)) as Hr.
  unfold compress, fips_compress. rewrite m_constants, length_fmap, length_seq, EW, for_up_foldl.
  destruct (schedule_correct (rounds s - 16) (block_words s b) WW ltac:(lia)) as (-> & _ & _). set (W := message_schedule s _ _).
  assert (forall n, (n <= rounds s)%nat -> foldl (fun v t => round p W t v) H (seq 0 n) = foldl (fun v t => fips_round s W t v) H (seq 0 n) /\
    length (foldl (fun v t => fips_round s W t v) H (seq 0 n)) = 8%nat /\ words (foldl (fun v t => fips_round s W t v) H (seq 0 n))) as E.
  { induction n as [|n IH]; intros Hn; [now split|]. destruct (IH ltac:(lia)) as (E & L & V). rewrite !seq_S, !foldl_app, E. cbn [foldl Nat.add]. now apply round_correct. }
  destruct (E (rounds s) ltac:(lia)) as (-> & L & V). apply sums_correct.
Qed.

(** * Messages *)

Lemma be_bytes_digits n x : be_bytes n x = be_digits n x.
Proof using.
  clear. unfold be_bytes, be_digits. apply list_fmap_ext. intros _ i _. rewrite wrap_mod, Z.shiftr_div_pow2 by lia.
  rewrite Z.pow_mul_r by lia. reflexivity.
Qed.

Lemma pad_correct m : pad p m = fips_pad s m.
Proof using Hm.
  unfold pad, fips_pad. rewrite be_bytes_digits, m_size. do 4 f_equal. pose proof (word_size p) as Hp. rewrite m_size in Hp. set (n := bytes_per_word s) in *. set (B := (16 * n)%nat).
  assert (0 < B)%nat as HB by lia. pose proof (Nat.div_mod_eq (length m) B) as E. pose proof (Nat.mod_upper_bound (length m) B ltac:(lia)) as Hr. set (r := (length m mod B)%nat) in *.
  destruct (Nat.lt_ge_cases (r + 1 + 2 * n) B) as [Hlt|Hge].
  - assert ((length m + 1 + 2 * n) mod B = r + 1 + 2 * n)%nat as -> by (symmetry; apply (Nat.mod_unique _ _ (length m / B)); lia).
    rewrite (Nat.mod_small (B - _)) by lia. symmetry. apply (Nat.mod_unique _ _ 1); lia.
  - assert ((length m + 1 + 2 * n) mod B = r + 1 + 2 * n - B)%nat as -> by (symmetry; apply (Nat.mod_unique _ _ (S (length m / B))); lia).
    f_equal. lia.
Qed.

Lemma pad_bytes m : Forall (in_width 8) m -> Forall (in_width 8) (fips_pad s m).
Proof using.
  clear. intros Hb. unfold fips_pad. rewrite !Forall_app. split; [exact Hb|]. split; [constructor; [unfold in_width; lia | constructor]|].
  split; [apply Forall_replicate; unfold in_width; lia|]. apply Forall_fmap, Forall_forall. intros i _. apply Z.mod_pos_bound. lia.
Qed.

Lemma blocks_lengths m : Forall (fun b => length b = (16 * bytes_per_word s)%nat) (fips_blocks s m).
Proof using Hm.
  pose proof (word_size p) as Hp. rewrite m_size in Hp. apply Forall_fmap, Forall_forall. intros i Hi%elem_of_seq. cbn [compose].
  set (B := (16 * bytes_per_word s)%nat) in *. assert (0 < B)%nat by lia. pose proof (Nat.div_mod_eq (length m) B). rewrite length_take, length_drop. nia.
Qed.

Lemma digest_correct iv m : length (load_words p 8 iv) = 8%nat -> words (load_words p 8 iv) -> Forall (in_width 8) m ->
  sha2_digest p iv m = fips_digest s (load_words p 8 iv) m.
Proof using Hm.
  intros Hl HW Hb. unfold sha2_digest, fips_digest. rewrite pad_correct.
  assert (chunks p (fips_pad s m) = fips_blocks s (fips_pad s m)) as -> by (unfold chunks, fips_blocks; now rewrite m_size).
  pose proof (blocks_lengths (fips_pad s m)) as HL. pose proof (pad_bytes m Hb) as HP.
  assert (Forall (Forall (in_width 8)) (fips_blocks s (fips_pad s m))) as HB by (apply Forall_fmap, Forall_forall; intros i _; now apply Forall_take, Forall_drop).
  revert Hl HW. generalize (load_words p 8 iv). induction (fips_blocks s (fips_pad s m)) as [|b bs IH]; intros H Hl HW; cbn [foldl].
  - induction HW as [|u H Hu HH IHu]; [reflexivity|]. rewrite !bind_cons, m_store by exact Hu. f_equal.
    clear - HH Hm. induction HH as [|v H Hv HH IH]; [reflexivity|]. now rewrite !bind_cons, m_store, IH by exact Hv.
  - apply Forall_cons in HL as [Lb HL]. apply Forall_cons in HB as [Bb HB]. destruct (compress_ok p H b Hl) as [L W].
    rewrite (compress_correct H b) in * by assumption. apply IH; assumption.
Qed.
End Refinement.

Lemma digest_words iv p s `{Matches p s} m : state_ok p (load_words p 8 iv) -> Forall (in_width 8) m -> sha2_digest p iv m = fips_digest s (load_words p 8 iv) m.
Proof. intros [Hl HW] Hb. now apply digest_correct. Qed.

(** C34 (equivalence).  The four SHA-2 functions, called on a message of bytes in one piece or block by block,
    return the digests of FIPS 180-4, a specification that shares nothing with the program: the message is
    padded with its length, each block goes through the schedule and the rounds of the standard, whose
    constants are computed from the roots of the first primes.  Bounds: messages of less than 2^61 bytes for
    the 32-bit functions, of less than 2^64 for the 64-bit ones. *)
Theorem sha2_correct (bs : list (list Z)) (b : list Z) : Forall (in_width 8) (concat bs ++ b) ->
  (Forall (fun x => length x mod 64 = 0)%nat bs -> Z.of_nat (length (concat bs ++ b)) < 2 ^ 61 ->
   sha256_inc_finalize (inc_run sha256_inc_blocks 64 sha256_inc_init bs) b = SHA256 (concat bs ++ b) /\
   sha224_inc_finalize (inc_run sha224_inc_blocks 64 sha224_inc_init bs) b = SHA224 (concat bs ++ b)) /\
  (Forall (fun x => length x mod 128 = 0)%nat bs -> Z.of_nat (length (concat bs ++ b)) < 2 ^ 64 ->
   sha512_inc_finalize (inc_run sha512_inc_blocks 128 sha512_inc_init bs) b = SHA512 (concat bs ++ b) /\
   sha384_inc_finalize (inc_run sha384_inc_blocks 128 sha384_inc_init bs) b = SHA384 (concat bs ++ b)).
Proof.
  intros Hb. destruct (sha2_digests bs b) as [H32 H64]. destruct iv_correct as (E256 & E224 & E512 & E384).
  split; intros Hbs HT; [destruct (H32 Hbs HT) as [-> ->] | destruct (H64 Hbs HT) as [-> ->]];
    unfold SHA256, SHA224, SHA512, SHA384; rewrite <- ?E256, <- ?E224, <- ?E512, <- ?E384;
    (split; [|f_equal]; apply digest_words; try exact _; first [exact Hb | now apply iv_ok]).
Qed.

Lemma sha2_correct_witness :
  sha256_inc_finalize (inc_run sha256_inc_blocks 64 sha256_inc_init [replicate 64 97]) [98; 99] = SHA256 (replicate 64 97 ++ [98; 99]) /\
  sha512 [97; 98; 99] = SHA512 [97; 98; 99].
Proof.
  split.
  - apply (proj1 (sha2_correct [replicate 64 97] [98; 99] ltac:(by_decide))); [by_decide | reflexivity].
  - apply (proj1 (proj2 (sha2_correct [] [97; 98; 99] ltac:(by_decide)) (List.Forall_nil _) eq_refl)).
Defined.
