(* ===== verification/Sp800.v ===== *)
(** Sp800: the cSHAKE functions of [sp800-185.c], over the incremental sponge of [Shake].

    The source pads the encoded names by setting the byte count to the last byte of the block and absorbing
    a zero there; the reference is the definition of SP 800-185, where [bytepad] is a string and the sponge is
    that of [Sponge].  The standard makes one exception which the source does not make: with an empty name and
    an empty customization string, cSHAKE is SHAKE. *)

From Stdlib Require Import ZArith Lia.
From stdpp Require Import base numbers list option.
From S2P Require Import Prelude NumberTheory Keccak Shake Sponge.

(** [for (v = value, n = 0; v && (n < sizeof(size_t)); n++, v >>= 8)]; [fuel] is what is left of the eight turns. *)
Fixpoint size_loop (fuel n : nat) (v : Z) : nat :=
  match fuel with
  | O => n
  | S fuel => if v =? 0 then n else size_loop fuel (S n) (v .>> 8)
  end.

(** The bytes written to [encbuf]. *)
Definition left_encode (value : Z) : list Z :=
  let n := size_loop 8 0 value in
  let n := if (n =? 0)%nat then 1%nat else n in
  u8 (Z.of_nat n) :: ((fun i => u8 (value .>> (8 * Z.of_nat (n - i)))) <$> seq 1 n).

(** The two copies of each function differ in the rate [r]. *)
Definition cshake_init (r : nat) (name cstm : list Z) : option inc_ctx :=
  let state := keccak_inc_init in
  state ← keccak_inc_absorb state r (left_encode (Z.of_nat r));
  state ← keccak_inc_absorb state r (left_encode (u64 (Z.of_nat (length name) * 8)));
  state ← keccak_inc_absorb state r name;
  state ← keccak_inc_absorb state r (left_encode (u64 (Z.of_nat (length cstm) * 8)));
  state ← keccak_inc_absorb state r cstm;
  if (inc_count state =? 0)%nat then Some state
  else let state := mk_inc (inc_s state) (r - 1) in keccak_inc_absorb state r [0].

Definition cshake_finalize (r : nat) (state : inc_ctx) : inc_ctx :=
  let s := xor_byte (inc_s state) (inc_count state) 0x04 in
  let s := xor_byte s (r - 1) 128 in
  mk_inc s 0.

Definition cshake128_inc_init (name cstm : list Z) : option inc_ctx := cshake_init SHAKE128_RATE name cstm.
Definition cshake128_inc_absorb (state : inc_ctx) (input : list Z) : option inc_ctx := shake128_inc_absorb state input.
Definition cshake128_inc_finalize (state : inc_ctx) : inc_ctx := cshake_finalize SHAKE128_RATE state.
Definition cshake128_inc_squeeze (outlen : nat) (state : inc_ctx) : option (inc_ctx * list Z) := shake128_inc_squeeze outlen state.

Definition cshake256_inc_init (name cstm : list Z) : option inc_ctx := cshake_init SHAKE256_RATE name cstm.
Definition cshake256_inc_absorb (state : inc_ctx) (input : list Z) : option inc_ctx := shake256_inc_absorb state input.
Definition cshake256_inc_finalize (state : inc_ctx) : inc_ctx := cshake_finalize SHAKE256_RATE state.
Definition cshake256_inc_squeeze (outlen : nat) (state : inc_ctx) : option (inc_ctx * list Z) := shake256_inc_squeeze outlen state.

Definition cshake128 (outlen : nat) (name cstm input : list Z) : option (list Z) :=
  state ← cshake128_inc_init name cstm;
  state ← cshake128_inc_absorb state input;
  let state := cshake128_inc_finalize state in
  '(state, output) ← cshake128_inc_squeeze outlen state;
  Some output.

Definition cshake256 (outlen : nat) (name cstm input : list Z) : option (list Z) :=
  state ← cshake256_inc_init name cstm;
  state ← cshake256_inc_absorb state input;
  let state := cshake256_inc_finalize state in
  '(state, output) ← cshake256_inc_squeeze outlen state;
  Some output.

(** A sample of SP 800-185: N empty, S = Email Signature. *)
Example cshake128_sample :
  take 8 <$> cshake128 32 [] [69; 109; 97; 105; 108; 32; 83; 105; 103; 110; 97; 116; 117; 114; 101] [0; 1; 2; 3] =
  Some [0xC1; 0xC3; 0x69; 0x25; 0xB6; 0x40; 0x9A; 0x04].
Proof. vm_compute. reflexivity. Qed.

(** * SP 800-185 *)

(** The number of bytes of [x], one at least, then its digits in base 256. *)
Definition std_left_encode (x : Z) : list Z :=
  let n := (Z.to_nat (Z.log2 x / 8) + 1)%nat in
  Z.of_nat n :: ((fun i => (x / 256 ^ Z.of_nat (n - 1 - i)) mod 256) <$> seq 0 n).

Definition encode_string (s : list Z) : list Z := std_left_encode (8 * Z.of_nat (length s)) ++ s.

Definition bytepad (x : list Z) (w : nat) : list Z :=
  let z := std_left_encode (Z.of_nat w) ++ x in
  z ++ replicate ((w - length z mod w) mod w) 0.

(** KECCAK on the padded names, the input and the suffix 00 (the byte 0x04 with the first bit of the padding). *)
Definition padded_sponge (w : nat) (name cstm input : list Z) (n : nat) : list Z :=
  sponge w 0x04 (bytepad (encode_string name ++ encode_string cstm) (8 * w) ++ input) n.

(** cSHAKE of SP 800-185, 3.3: SHAKE (the suffix 1111) when both strings are empty. *)
Definition cshake_std (w : nat) (name cstm input : list Z) (n : nat) : list Z :=
  match name, cstm with
  | [], [] => sponge w 0x1F input n
  | _, _ => padded_sponge w name cstm input n
  end.

(** * [left_encode] *)

Lemma size_loop_log2 fuel : forall n v, 0 < v < 2 ^ (8 * Z.of_nat fuel) -> size_loop fuel n v = (n + (Z.to_nat (Z.log2 v / 8) + 1))%nat.
Proof.
  induction fuel as [|fuel IH]; intros n v Hv; [cbn in Hv; lia|]. cbn [size_loop]. destruct (Z.eqb_spec v 0); [lia|].
  rewrite Z.shiftr_div_pow2 by lia. change (2 ^ 8) with 256. replace (8 * Z.of_nat (S fuel)) with (8 + 8 * Z.of_nat fuel) in Hv by lia.
  rewrite Z.pow_add_r in Hv by lia. change (2 ^ 8) with 256 in Hv. destruct (Z.lt_ge_cases v 256) as [Hlt|Hge].
  - rewrite (Z.div_small v 256) by lia. assert (Z.log2 v < 8) by (apply Z.log2_lt_pow2; lia). pose proof (Z.log2_nonneg v).
    rewrite (Z.div_small (Z.log2 v)) by lia. assert (size_loop fuel (S n) 0 = S n) as -> by now destruct fuel. cbn. lia.
  - assert (0 < v / 256) as Hp by (apply Z.div_str_pos; lia). rewrite IH by (split; [exact Hp | apply Z.div_lt_upper_bound; lia]).
    assert (Z.log2 v = Z.log2 (v / 256) + 8) as ->.
    { assert (8 <= Z.log2 v) by (apply Z.log2_le_pow2; lia). change (v / 256) with (v / 2 ^ 8). rewrite <- Z.shiftr_div_pow2, Z.log2_shiftr; lia. }
    pose proof (Z.log2_nonneg (v / 256)). rewrite <- (Z.mul_1_l 8) at 2. rewrite Z.div_add by lia. pose proof (Z.div_pos (Z.log2 (v / 256)) 8). lia.
Qed.

Lemma left_encode_std x : 0 <= x < 2 ^ 64 -> left_encode x = std_left_encode x.
Proof.
  intros Hx. unfold left_encode, std_left_encode. set (n := (Z.to_nat (Z.log2 x / 8) + 1)%nat).
  assert ((if (size_loop 8 0 x =? 0)%nat then 1%nat else size_loop 8 0 x) = n) as ->.
  { destruct (decide (x = 0)) as [->|Hne]; [reflexivity|]. rewrite size_loop_log2, Nat.add_0_l by (cbn; lia). fold n. destruct (Nat.eqb_spec n 0); [unfold n in *; lia | done]. }
  assert (n <= 8)%nat as Hn.
  { destruct (decide (x = 0)) as [->|Hne]; [assert (n = 1%nat) as -> by reflexivity; lia|]. assert (Z.log2 x < 64) by (apply Z.log2_lt_pow2; lia).
    pose proof (Z.div_lt_upper_bound (Z.log2 x) 8 8 ltac:(lia) ltac:(lia)). unfold n. lia. }
  f_equal; [apply wrap_small; unfold in_width; lia|]. rewrite <- fmap_S_seq, <- list_fmap_compose. apply list_fmap_ext. intros _ i _. cbn [compose].
  rewrite wrap_mod, Z.shiftr_div_pow2 by lia. f_equal. f_equal. change 256 with (2 ^ 8). rewrite <- Z.pow_mul_r by lia. f_equal. lia.
Qed.

Lemma std_left_encode_bytes x : 0 <= x < 2 ^ 64 -> Forall (in_width 8) (std_left_encode x).
Proof.
  intros Hx. rewrite <- left_encode_std by done. unfold left_encode. constructor; [apply wrap_range; lia|].
  apply Forall_fmap, Forall_forall. intros i _. apply wrap_range. lia.
Qed.

Lemma encode_string_bytes s : 8 * Z.of_nat (length s) < 2 ^ 64 -> Forall (in_width 8) s -> Forall (in_width 8) (encode_string s).
Proof. intros Hl Hs. unfold encode_string. rewrite Forall_app. split; [apply std_left_encode_bytes; lia | exact Hs]. Qed.

(** * Padding by the byte count *)

Section Pad.
Context (r : nat) (Hr : (1 < r)%nat) (Hr200 : (r < 200)%nat).

Lemma absorbed_count m : forall st, (st.2 < r)%nat -> (foldl (absorb_byte r) st m).2 = ((st.2 + length m) mod r)%nat.
Proof.
  induction m as [|b m IH]; intros st Hst; [cbn; rewrite Nat.add_0_r; now rewrite Nat.mod_small|]. cbn [foldl].
  rewrite IH by (now apply absorb_byte_count; lia). unfold absorb_byte. cbn [length]. destruct (Nat.eqb_spec (st.2 + 1) r) as [He|Hne]; cbn [snd].
  - rewrite Nat.add_0_l. replace (st.2 + S (length m))%nat with (length m + 1 * r)%nat by lia. now rewrite Nat.Div0.mod_add.
  - f_equal. lia.
Qed.

(** Zeros as far as the end of the block. *)
Lemma pad_with_zeros s c : length s = 25%nat -> (c < r)%nat ->
  foldl (absorb_byte r) (s, c) (replicate (r - c) 0) = (KeccakF1600_StatePermute s, 0%nat).
Proof.
  intros Hs Hc. pose proof (absorb_full r ltac:(lia) (replicate (r - c) 0) s c Hc) as H. rewrite length_replicate in H.
  rewrite take_ge in H by (rewrite length_replicate; lia). rewrite H by lia. do 2 f_equal. apply xor_zeros.
  intros j Hj. split; [now apply lookup_total_replicate_2 | rewrite Hs; apply Nat.Div0.div_lt_upper_bound; lia].
Qed.

(** [cshake_init] absorbs the padded names. *)
Lemma cshake_init_spec name cstm : 8 * Z.of_nat (length name) < 2 ^ 64 -> 8 * Z.of_nat (length cstm) < 2 ^ 64 ->
  cshake_init r name cstm =
    Some (of_state (foldl (absorb_byte r) (replicate 25 0, 0%nat) (bytepad (encode_string name ++ encode_string cstm) r))).
Proof.
  intros Hn Hc. unfold cshake_init. rewrite !(Z.mul_comm _ 8), !(wrap_small 64) by (unfold in_width; lia). rewrite !left_encode_std by lia.
  set (x := encode_string name ++ encode_string cstm).
  set (st := foldl (absorb_byte r) (replicate 25 0, 0%nat) (std_left_encode (Z.of_nat r) ++ x)).
  pose proof (absorb_all_spec r [std_left_encode (Z.of_nat r); std_left_encode (8 * Z.of_nat (length name)); name; std_left_encode (8 * Z.of_nat (length cstm)); cstm]
    ltac:(lia) keccak_inc_init ltac:(cbn; lia)) as H. cbn [absorb_all concat] in H. rewrite app_nil_r in H.
  assert (ctx_state keccak_inc_init = (replicate 25 0, 0%nat)) as E0 by reflexivity. rewrite E0 in H.
  replace (std_left_encode (Z.of_nat r) ++ std_left_encode (8 * Z.of_nat (length name)) ++ name ++ std_left_encode (8 * Z.of_nat (length cstm)) ++ cstm)
    with (std_left_encode (Z.of_nat r) ++ x) in H by (unfold x, encode_string; now rewrite <- !app_assoc). fold st in H.
  do 5 match type of H with (?o ≫= _) = _ => destruct o; cbn [mbind option_bind] in H |- *; [|done] end. injection H as ->.
  unfold bytepad. fold x. set (z := std_left_encode (Z.of_nat r) ++ x) in *. rewrite foldl_app. fold st.
  assert (length st.1 = 25%nat) as Hl by (apply absorbed_length; done).
  assert (st.2 = (length z mod r)%nat) as Hst by (unfold st; now rewrite absorbed_count by (cbn; lia)).
  pose proof (Nat.mod_upper_bound (length z) r ltac:(lia)) as Hm. cbn [of_state inc_count inc_s]. rewrite Hst.
  destruct (Nat.eqb_spec (length z mod r) 0) as [->|Hne].
  - rewrite Nat.sub_0_r, Nat.Div0.mod_same. cbn [replicate foldl]. reflexivity.
  - rewrite Nat.mod_small by lia. destruct st as [s c]. cbn [fst snd] in *. subst c. rewrite pad_with_zeros by done.
    rewrite keccak_inc_absorb_spec by (cbn; lia). do 2 f_equal. cbn [foldl]. unfold absorb_byte, ctx_state. cbn [fst snd inc_s inc_count].
    destruct (Nat.eqb_spec (r - 1 + 1) r); [|lia]. rewrite xor_byte_zero; [done|]. rewrite Hl. apply Nat.Div0.div_lt_upper_bound. lia.
Qed.

Lemma bytepad_bytes x : Forall (in_width 8) x -> Forall (in_width 8) (bytepad x r).
Proof.
  intros Hx. unfold bytepad. rewrite !Forall_app. split; [split; [apply std_left_encode_bytes; lia | exact Hx]|].
  apply Forall_replicate. unfold in_width. lia.
Qed.
End Pad.

Lemma padded_bytes w name cstm input : (0 < w <= 24)%nat ->
  8 * Z.of_nat (length name) < 2 ^ 64 -> 8 * Z.of_nat (length cstm) < 2 ^ 64 ->
  Forall (in_width 8) name -> Forall (in_width 8) cstm -> Forall (in_width 8) input ->
  Forall (in_width 8) (bytepad (encode_string name ++ encode_string cstm) (8 * w) ++ input).
Proof.
  intros Hw Hn Hc Bn Bc Bi. rewrite Forall_app. split; [|exact Bi]. apply bytepad_bytes; try lia.
  rewrite Forall_app. split; now apply encode_string_bytes.
Qed.

(** The sponge of rate 8 w. *)
Lemma cshake_run w outlen name cstm input : (0 < w <= 24)%nat ->
  8 * Z.of_nat (length name) < 2 ^ 64 -> 8 * Z.of_nat (length cstm) < 2 ^ 64 ->
  Forall (in_width 8) name -> Forall (in_width 8) cstm -> Forall (in_width 8) input ->
  (state ← cshake_init (8 * w) name cstm; state ← keccak_inc_absorb state (8 * w) input;
   '(state, output) ← keccak_inc_squeeze outlen (cshake_finalize (8 * w) state) (8 * w); Some output) = Some (padded_sponge w name cstm input outlen).
Proof.
  intros Hw Hn Hc Bn Bc Bi. set (r := (8 * w)%nat). assert (1 < r < 200)%nat as Hr by lia.
  rewrite (cshake_init_spec r) by lia. set (m := bytepad _ r). cbn [mbind option_bind].
  rewrite (keccak_inc_absorb_spec r) by (try (apply absorb_bytes_count; cbn); lia). cbn [mbind option_bind].
  rewrite (keccak_inc_squeeze_spec r) by (cbn; lia).
  unfold padded_sponge. fold r. fold m. rewrite <- sponge_correct by (lia || now apply padded_bytes). fold r. rewrite foldl_app.
  assert (ctx_state (of_state (foldl (absorb_byte r) (replicate 25 0, 0%nat) m)) = foldl (absorb_byte r) (replicate 25 0, 0%nat) m) as ->
    by (now destruct (foldl _ _ m)).
  change (cshake_finalize r) with (fun state => keccak_inc_finalize state r 0x04). cbn beta.
  now destruct (squeeze_bytes r outlen _) as [st h].
Qed.

(** C35 (refinement).  The two cSHAKE functions refine SP 800-185, over the sponge of FIPS 202, except where
    both strings are empty.  On names, customization strings and inputs of bytes they always return: the
    sponge on bytepad(encode_string(N) || encode_string(S), rate), followed by the input and the bits 00.
    That is cSHAKE of the standard as soon as one of the two strings is not empty.  With both empty the
    standard asks for SHAKE of the input, and the code runs the padded sponge all the same. *)
Theorem cshake_correct outlen (name cstm input : list Z) :
  8 * Z.of_nat (length name) < 2 ^ 64 -> 8 * Z.of_nat (length cstm) < 2 ^ 64 ->
  Forall (in_width 8) name -> Forall (in_width 8) cstm -> Forall (in_width 8) input ->
  (cshake128 outlen name cstm input = Some (padded_sponge 21 name cstm input outlen) /\
   cshake256 outlen name cstm input = Some (padded_sponge 17 name cstm input outlen)) /\
  (name <> [] \/ cstm <> [] ->
   cshake128 outlen name cstm input = Some (cshake_std 21 name cstm input outlen) /\
   cshake256 outlen name cstm input = Some (cshake_std 17 name cstm input outlen)).
Proof.
  intros Hn Hc Bn Bc Bi.
  assert (cshake128 outlen name cstm input = Some (padded_sponge 21 name cstm input outlen)) as E128 by exact (cshake_run 21 outlen name cstm input ltac:(lia) Hn Hc Bn Bc Bi).
  assert (cshake256 outlen name cstm input = Some (padded_sponge 17 name cstm input outlen)) as E256 by exact (cshake_run 17 outlen name cstm input ltac:(lia) Hn Hc Bn Bc Bi).
  split; [split; [exact E128 | exact E256]|]. intros Hne. rewrite E128, E256. unfold cshake_std.
  destruct name, cstm; [destruct Hne as [[]|[]]; reflexivity | split; reflexivity..].
Qed.

Lemma cshake_correct_witness : cshake128 4 [] [65] [0; 1] = Some (cshake_std 21 [] [65] [0; 1] 4).
Proof.
  refine (proj1 (proj2 (cshake_correct 4 [] [65] [0; 1] ltac:(reflexivity) ltac:(reflexivity) ltac:(by_decide) ltac:(by_decide) ltac:(by_decide)) _)).
  right. discriminate.
Defined.

(** With both strings empty, the code departs from the standard. *)
Lemma cshake_empty_strings :
  cshake128 4 [] [] [0; 1] <> Some (cshake_std 21 [] [] [0; 1] 4) /\ shake128 4 [0; 1] = Some (cshake_std 21 [] [] [0; 1] 4) /\
  cshake256 4 [] [] [0; 1] <> Some (cshake_std 17 [] [] [0; 1] 4) /\ shake256 4 [0; 1] = Some (cshake_std 17 [] [] [0; 1] 4).
Proof.
  assert (forall a b : option (list Z), bool_decide (a = b) = false -> a <> b) as D by (intros a b H; now apply bool_decide_eq_false_1 in H).
  split; [apply D; vm_compute; reflexivity|]. split; [vm_compute; reflexivity|]. split; [apply D; vm_compute; reflexivity | vm_compute; reflexivity].
Qed.
