(* ===== verification/Aes.v ===== *)
(** Aes: the AES of [aes.c], a constant-time implementation on bit slices.

    Four blocks are encrypted at once: the bits of the same weight of their 64 bytes are in one 64-bit word,
    and a step of the cipher is a program of word operations.  The substitution is a circuit of exclusive
    ors and conjunctions ([sbox_circuit]), written over an interface [Bitwise] so that it runs on words and
    on single bits. *)

From Stdlib Require Import ZArith Lia.
From stdpp Require Import base numbers list.
From S2P Require Import Prelude.

(** * Bytes and words *)

Definition br_dec32le (src : list Z) : Z :=
  (src !!! 0%nat) .| u32 ((src !!! 1%nat) .<< 8) .| u32 ((src !!! 2%nat) .<< 16) .| u32 ((src !!! 3%nat) .<< 24).

Definition br_range_dec32le (num : nat) (src : list Z) : list Z := (fun i => br_dec32le (drop (4 * i) src)) <$> seq 0 num.

Definition br_swap32 (x : Z) : Z :=
  let x := u32 ((x .& 0x00FF00FF) .<< 8) .| ((x .>> 8) .& 0x00FF00FF) in
  u32 (x .<< 16) .| (x .>> 16).

Definition br_enc32le (x : Z) : list Z := [u8 x; u8 (x .>> 8); u8 (x .>> 16); u8 (x .>> 24)].

Definition br_range_enc32le (v : list Z) : list Z := v ≫= br_enc32le.

(** * The substitution *)

Class Bitwise (W : Type) := {
  wxor : W -> W -> W;
  wand : W -> W -> W;
  wnot : W -> W
}.

#[export] Instance word64_bitwise : Bitwise Z := { wxor := Z.lxor; wand := Z.land; wnot x := u64 (Z.lnot x) }.
#[export] Instance bool_bitwise : Bitwise bool := { wxor := xorb; wand := andb; wnot := negb }.

(** The circuit of Boyar and Peralta: [x0] is the slice of the high bits, and so is [s0]; the result has
    the low bits first, as the array. *)
Definition sbox_circuit {W : Type} `{Bitwise W} (x0 x1 x2 x3 x4 x5 x6 x7 : W) : list W :=
      let y14 := wxor x3 x5 in let y13 := wxor x0 x6 in let y9 := wxor x0 x3 in let y8 := wxor x0 x5 in
      let t0 := wxor x1 x2 in let y1 := wxor t0 x7 in let y4 := wxor y1 x3 in let y12 := wxor y13 y14 in
      let y2 := wxor y1 x0 in let y5 := wxor y1 x6 in let y3 := wxor y5 y8 in let t1 := wxor x4 y12 in
      let y15 := wxor t1 x5 in let y20 := wxor t1 x1 in let y6 := wxor y15 x7 in let y10 := wxor y15 t0 in
      let y11 := wxor y20 y9 in let y7 := wxor x7 y11 in let y17 := wxor y10 y11 in let y19 := wxor y10 y8 in
      let y16 := wxor t0 y11 in let y21 := wxor y13 y16 in let y18 := wxor x0 y16 in let t2 := wand y12 y15 in
      let t3 := wand y3 y6 in let t4 := wxor t3 t2 in let t5 := wand y4 x7 in let t6 := wxor t5 t2 in
      let t7 := wand y13 y16 in let t8 := wand y5 y1 in let t9 := wxor t8 t7 in let t10 := wand y2 y7 in
      let t11 := wxor t10 t7 in let t12 := wand y9 y11 in let t13 := wand y14 y17 in let t14 := wxor t13 t12 in
      let t15 := wand y8 y10 in let t16 := wxor t15 t12 in let t17 := wxor t4 t14 in let t18 := wxor t6 t16 in
      let t19 := wxor t9 t14 in let t20 := wxor t11 t16 in let t21 := wxor t17 y20 in let t22 := wxor t18 y19 in
      let t23 := wxor t19 y21 in let t24 := wxor t20 y18 in let t25 := wxor t21 t22 in let t26 := wand t21 t23 in
      let t27 := wxor t24 t26 in let t28 := wand t25 t27 in let t29 := wxor t28 t22 in let t30 := wxor t23 t24 in
      let t31 := wxor t22 t26 in let t32 := wand t31 t30 in let t33 := wxor t32 t24 in let t34 := wxor t23 t33 in
      let t35 := wxor t27 t33 in let t36 := wand t24 t35 in let t37 := wxor t36 t34 in let t38 := wxor t27 t36 in
      let t39 := wand t29 t38 in let t40 := wxor t25 t39 in let t41 := wxor t40 t37 in let t42 := wxor t29 t33 in
      let t43 := wxor t29 t40 in let t44 := wxor t33 t37 in let t45 := wxor t42 t41 in let z0 := wand t44 y15 in
      let z1 := wand t37 y6 in let z2 := wand t33 x7 in let z3 := wand t43 y16 in let z4 := wand t40 y1 in
      let z5 := wand t29 y7 in let z6 := wand t42 y11 in let z7 := wand t45 y17 in let z8 := wand t41 y10 in
      let z9 := wand t44 y12 in let z10 := wand t37 y3 in let z11 := wand t33 y4 in let z12 := wand t43 y13 in
      let z13 := wand t40 y5 in let z14 := wand t29 y2 in let z15 := wand t42 y9 in let z16 := wand t45 y14 in
      let z17 := wand t41 y8 in let t46 := wxor z15 z16 in let t47 := wxor z10 z11 in let t48 := wxor z5 z13 in
      let t49 := wxor z9 z10 in let t50 := wxor z2 z12 in let t51 := wxor z2 z5 in let t52 := wxor z7 z8 in
      let t53 := wxor z0 z3 in let t54 := wxor z6 z7 in let t55 := wxor z16 z17 in let t56 := wxor z12 t48 in
      let t57 := wxor t50 t53 in let t58 := wxor z4 t46 in let t59 := wxor z3 t54 in let t60 := wxor t46 t57 in
      let t61 := wxor z14 t57 in let t62 := wxor t52 t58 in let t63 := wxor t49 t58 in let t64 := wxor z4 t59 in
      let t65 := wxor t61 t62 in let t66 := wxor z1 t63 in let s0 := wxor t59 t63 in let s6 := wxor t56 (wnot t62) in
      let s7 := wxor t48 (wnot t60) in let t67 := wxor t64 t65 in let s3 := wxor t53 t66 in let s4 := wxor t51 t66 in
      let s5 := wxor t47 t65 in let s1 := wxor t64 (wnot s3) in let s2 := wxor t55 (wnot t67) in
      [s7; s6; s5; s4; s3; s2; s1; s0].

Definition br_aes_ct64_bitslice_Sbox (q : list Z) : list Z :=
  sbox_circuit (q !!! 7%nat) (q !!! 6%nat) (q !!! 5%nat) (q !!! 4%nat) (q !!! 3%nat) (q !!! 2%nat) (q !!! 1%nat) (q !!! 0%nat).

(** * Orthogonalisation *)

Definition SWAPN (cl ch s : Z) (i j : nat) (q : list Z) : list Z :=
  let a := q !!! i in
  let b := q !!! j in
  let q := <[i := (a .& cl) .| u64 ((b .& cl) .<< s)]> q in
  <[j := ((a .& ch) .>> s) .| (b .& ch)]> q.

Definition SWAP2 : nat -> nat -> list Z -> list Z := SWAPN 0x5555555555555555 0xAAAAAAAAAAAAAAAA 1.
Definition SWAP4 : nat -> nat -> list Z -> list Z := SWAPN 0x3333333333333333 0xCCCCCCCCCCCCCCCC 2.
Definition SWAP8 : nat -> nat -> list Z -> list Z := SWAPN 0x0F0F0F0F0F0F0F0F 0xF0F0F0F0F0F0F0F0 4.

Definition br_aes_ct64_ortho (q : list Z) : list Z :=
  let q := SWAP2 6 7 (SWAP2 4 5 (SWAP2 2 3 (SWAP2 0 1 q))) in
  let q := SWAP4 5 7 (SWAP4 4 6 (SWAP4 1 3 (SWAP4 0 2 q))) in
  SWAP8 3 7 (SWAP8 2 6 (SWAP8 1 5 (SWAP8 0 4 q))).

(** Four words of 32 bits to the two words [q0] and [q1], and back. *)
Definition spread (x : Z) : Z :=
  let x := x .| u64 (x .<< 16) in
  let x := x .& 0x0000FFFF0000FFFF in
  let x := x .| u64 (x .<< 8) in
  x .& 0x00FF00FF00FF00FF.

Definition br_aes_ct64_interleave_in (w : list Z) : Z * Z :=
  let x0 := spread (w !!! 0%nat) in
  let x1 := spread (w !!! 1%nat) in
  let x2 := spread (w !!! 2%nat) in
  let x3 := spread (w !!! 3%nat) in
  (x0 .| u64 (x2 .<< 8), x1 .| u64 (x3 .<< 8)).

Definition unspread (x : Z) : Z :=
  let x := x .& 0x00FF00FF00FF00FF in
  let x := x .| (x .>> 8) in
  let x := x .& 0x0000FFFF0000FFFF in
  u32 x .| u32 (x .>> 16).

Definition br_aes_ct64_interleave_out (q0 q1 : Z) : list Z := [unspread q0; unspread q1; unspread (q0 .>> 8); unspread (q1 .>> 8)].

(** * Key schedule *)

Definition Rcon : list Z := [0x01; 0x02; 0x04; 0x08; 0x10; 0x20; 0x40; 0x80; 0x1B; 0x36].

Definition sub_word (x : Z) : Z :=
  let q := <[0%nat := x]> (replicate 8 0) in
  let q := br_aes_ct64_ortho q in
  let q := br_aes_ct64_bitslice_Sbox q in
  let q := br_aes_ct64_ortho q in
  u32 (q !!! 0%nat).

Definition nrounds_of (key_len : nat) : nat := (10 + (key_len - 16) / 4)%nat.

(** The words [skey], written one after the other; the state is [j], [k], [tmp] and the words written so far. *)
Definition key_words (key : list Z) (key_len : nat) : list Z :=
  let nk := (key_len / 4)%nat in
  let nkf := (4 * (nrounds_of key_len + 1))%nat in
  let skey := br_range_dec32le nk key in
  let tmp := skey !!! (nk - 1)%nat in
  (for_up nk nkf (fun i '(j, k, tmp, skey) =>
     let tmp :=
       if (j =? 0)%nat then sub_word (u32 (tmp .<< 24) .| (tmp .>> 8)) .^ (Rcon !!! k)
       else if (6 <? nk)%nat && (j =? 4)%nat then sub_word tmp
       else tmp in
     let tmp := tmp .^ (skey !!! (i - nk)%nat) in
     let skey := skey ++ [tmp] in
     if (S j =? nk)%nat then (0%nat, S k, tmp, skey) else (S j, k, tmp, skey)) (0%nat, 0%nat, tmp, skey)).2.

(** The round key [w], compressed to two words. *)
Definition compress_key (w : list Z) : list Z :=
  let '(q0, q4) := br_aes_ct64_interleave_in w in
  let q := br_aes_ct64_ortho [q0; q0; q0; q0; q4; q4; q4; q4] in
  [((q !!! 0%nat) .& 0x1111111111111111) .| ((q !!! 1%nat) .& 0x2222222222222222) .|
     ((q !!! 2%nat) .& 0x4444444444444444) .| ((q !!! 3%nat) .& 0x8888888888888888);
   ((q !!! 4%nat) .& 0x1111111111111111) .| ((q !!! 5%nat) .& 0x2222222222222222) .|
     ((q !!! 6%nat) .& 0x4444444444444444) .| ((q !!! 7%nat) .& 0x8888888888888888)].

Definition br_aes_ct64_keysched (key : list Z) (key_len : nat) : list Z :=
  let skey := key_words key key_len in
  seq 0 (nrounds_of key_len + 1) ≫= (fun i => compress_key (drop (4 * i) skey)).

Definition expand_word (x : Z) : list Z :=
  let x0 := x .& 0x1111111111111111 in
  let x1 := (x .& 0x2222222222222222) .>> 1 in
  let x2 := (x .& 0x4444444444444444) .>> 2 in
  let x3 := (x .& 0x8888888888888888) .>> 3 in
  [u64 (u64 (x0 .<< 4) - x0); u64 (u64 (x1 .<< 4) - x1); u64 (u64 (x2 .<< 4) - x2); u64 (u64 (x3 .<< 4) - x3)].

Definition br_aes_ct64_skey_expand (comp_skey : list Z) (nrounds : nat) : list Z :=
  seq 0 (2 * (nrounds + 1)) ≫= (fun u => expand_word (comp_skey !!! u)).

(** * Encryption *)

Definition add_round_key (q sk : list Z) : list Z := (fun i => (q !!! i) .^ (sk !!! i)) <$> seq 0 8.

Definition shift_row_word (x : Z) : Z :=
  (x .& 0x000000000000FFFF) .| ((x .& 0x00000000FFF00000) .>> 4) .| u64 ((x .& 0x00000000000F0000) .<< 12) .|
  ((x .& 0x0000FF0000000000) .>> 8) .| u64 ((x .& 0x000000FF00000000) .<< 8) .|
  ((x .& 0xF000000000000000) .>> 12) .| u64 ((x .& 0x0FFF000000000000) .<< 4).

Definition shift_rows (q : list Z) : list Z := shift_row_word <$> q.

Definition rotr32 (x : Z) : Z := u64 (x .<< 32) .| (x .>> 32).

Definition mix_columns (q : list Z) : list Z :=
  let q0 := q !!! 0%nat in let q1 := q !!! 1%nat in let q2 := q !!! 2%nat in let q3 := q !!! 3%nat in
  let q4 := q !!! 4%nat in let q5 := q !!! 5%nat in let q6 := q !!! 6%nat in let q7 := q !!! 7%nat in
  let r0 := (q0 .>> 16) .| u64 (q0 .<< 48) in
  let r1 := (q1 .>> 16) .| u64 (q1 .<< 48) in
  let r2 := (q2 .>> 16) .| u64 (q2 .<< 48) in
  let r3 := (q3 .>> 16) .| u64 (q3 .<< 48) in
  let r4 := (q4 .>> 16) .| u64 (q4 .<< 48) in
  let r5 := (q5 .>> 16) .| u64 (q5 .<< 48) in
  let r6 := (q6 .>> 16) .| u64 (q6 .<< 48) in
  let r7 := (q7 .>> 16) .| u64 (q7 .<< 48) in
  [q7 .^ r7 .^ r0 .^ rotr32 (q0 .^ r0);
   q0 .^ r0 .^ q7 .^ r7 .^ r1 .^ rotr32 (q1 .^ r1);
   q1 .^ r1 .^ r2 .^ rotr32 (q2 .^ r2);
   q2 .^ r2 .^ q7 .^ r7 .^ r3 .^ rotr32 (q3 .^ r3);
   q3 .^ r3 .^ q7 .^ r7 .^ r4 .^ rotr32 (q4 .^ r4);
   q4 .^ r4 .^ r5 .^ rotr32 (q5 .^ r5);
   q5 .^ r5 .^ r6 .^ rotr32 (q6 .^ r6);
   q6 .^ r6 .^ r7 .^ rotr32 (q7 .^ r7)].

Definition inc4_be (x : Z) : Z := br_swap32 (u32 (br_swap32 x + 4)).

(** The eight words of sixteen, four for each block. *)
Definition load_blocks (w : list Z) : list Z :=
  let p i := br_aes_ct64_interleave_in (drop (4 * i) w) in
  br_aes_ct64_ortho [(p 0%nat).1; (p 1%nat).1; (p 2%nat).1; (p 3%nat).1; (p 0%nat).2; (p 1%nat).2; (p 2%nat).2; (p 3%nat).2].

Definition store_blocks (q : list Z) : list Z :=
  let q := br_aes_ct64_ortho q in
  seq 0 4 ≫= (fun i => br_aes_ct64_interleave_out (q !!! i) (q !!! (i + 4)%nat)).

Definition aes_ecb4x (ivw sk_exp : list Z) (nrounds : nat) : list Z :=
  let q := load_blocks ivw in
  let q := add_round_key q sk_exp in
  let q := for_up 1 nrounds (fun i q =>
    let q := br_aes_ct64_bitslice_Sbox q in
    let q := shift_rows q in
    let q := mix_columns q in
    add_round_key q (drop (8 * i) sk_exp)) q in
  let q := br_aes_ct64_bitslice_Sbox q in
  let q := shift_rows q in
  let q := add_round_key q (drop (8 * nrounds) sk_exp) in
  br_range_enc32le (store_blocks q).

(** The output, and the next counters. *)
Definition aes_ctr4x (ivw sk_exp : list Z) (nrounds : nat) : list Z * list Z :=
  let out := aes_ecb4x ivw sk_exp nrounds in
  let ivw := <[3%nat := inc4_be (ivw !!! 3%nat)]> ivw in
  let ivw := <[7%nat := inc4_be (ivw !!! 7%nat)]> ivw in
  let ivw := <[11%nat := inc4_be (ivw !!! 11%nat)]> ivw in
  let ivw := <[15%nat := inc4_be (ivw !!! 15%nat)]> ivw in
  (out, ivw).

(** [while (nblocks >= 4)]: what is left of the input, the last words read and the output so far. *)
Fixpoint ecb_loop (fuel nblocks : nat) (input blocks rkeys : list Z) (nrounds : nat) (out : list Z) : nat * list Z * list Z * list Z :=
  match fuel with
  | O => (nblocks, input, blocks, out)
  | S fuel =>
      if (4 <=? nblocks)%nat then
        let blocks := br_range_dec32le 16 input in
        let out := out ++ aes_ecb4x blocks rkeys nrounds in
        ecb_loop fuel (nblocks - 4) (drop 64 input) blocks rkeys nrounds out
      else (nblocks, input, blocks, out)
  end.

(** [blocks]: the contents of the array [blocks], which is not initialised. *)
Definition aes_ecb (blocks input : list Z) (nblocks : nat) (rkeys : list Z) (nrounds : nat) : list Z :=
  let '(nblocks, input, blocks, out) := ecb_loop nblocks nblocks input blocks rkeys nrounds [] in
  if (nblocks =? 0)%nat then out
  else
    let blocks := br_range_dec32le (4 * nblocks) input ++ drop (4 * nblocks) blocks in
    let t := aes_ecb4x blocks rkeys nrounds in
    out ++ take (16 * nblocks) t.

(** [while (outlen > 64)]. *)
Fixpoint ctr_loop (fuel outlen : nat) (ivw rkeys : list Z) (nrounds : nat) (out : list Z) : nat * list Z * list Z :=
  match fuel with
  | O => (outlen, ivw, out)
  | S fuel =>
      if (64 <? outlen)%nat then
        let '(o, ivw) := aes_ctr4x ivw rkeys nrounds in
        ctr_loop fuel (outlen - 64) ivw rkeys nrounds (out ++ o)
      else (outlen, ivw, out)
  end.

Definition aes_ctr (outlen : nat) (iv rkeys : list Z) (nrounds : nat) : list Z :=
  let n := br_range_dec32le 3 iv in
  let ivw := n ++ [br_swap32 0] ++ n ++ [br_swap32 1] ++ n ++ [br_swap32 2] ++ n ++ [br_swap32 3] in
  let '(outlen, ivw, out) := ctr_loop outlen outlen ivw rkeys nrounds [] in
  if (0 <? outlen)%nat then
    let '(tmp, ivw) := aes_ctr4x ivw rkeys nrounds in
    out ++ take outlen tmp
  else out.

(** * The interface *)

Definition keyexp (key : list Z) (key_len nrounds : nat) : list Z :=
  br_aes_ct64_skey_expand (br_aes_ct64_keysched key key_len) nrounds.

Definition aes128_ecb_keyexp (key : list Z) : list Z := keyexp key 16 10.
Definition aes192_ecb_keyexp (key : list Z) : list Z := keyexp key 24 12.
Definition aes256_ecb_keyexp (key : list Z) : list Z := keyexp key 32 14.

Definition aes128_ctr_keyexp (key : list Z) : list Z := aes128_ecb_keyexp key.
Definition aes192_ctr_keyexp (key : list Z) : list Z := aes192_ecb_keyexp key.
Definition aes256_ctr_keyexp (key : list Z) : list Z := aes256_ecb_keyexp key.

Definition aes128_ecb (blocks input : list Z) (nblocks : nat) (ctx : list Z) : list Z := aes_ecb blocks input nblocks ctx 10.
Definition aes192_ecb (blocks input : list Z) (nblocks : nat) (ctx : list Z) : list Z := aes_ecb blocks input nblocks ctx 12.
Definition aes256_ecb (blocks input : list Z) (nblocks : nat) (ctx : list Z) : list Z := aes_ecb blocks input nblocks ctx 14.

Definition aes128_ctr (outlen : nat) (iv ctx : list Z) : list Z := aes_ctr outlen iv ctx 10.
Definition aes192_ctr (outlen : nat) (iv ctx : list Z) : list Z := aes_ctr outlen iv ctx 12.
Definition aes256_ctr (outlen : nat) (iv ctx : list Z) : list Z := aes_ctr outlen iv ctx 14.

(** FIPS 197, appendix C. *)
Example aes128_sample :
  aes128_ecb (replicate 16 0) ((fun i => Z.of_nat (17 * i)) <$> seq 0 16) 1 (aes128_ecb_keyexp (Z.of_nat <$> seq 0 16)) =
  [0x69; 0xc4; 0xe0; 0xd8; 0x6a; 0x7b; 0x04; 0x30; 0xd8; 0xcd; 0xb7; 0x80; 0x70; 0xb4; 0xc5; 0x5a].
Proof. vm_compute. reflexivity. Qed.

Example aes256_sample :
  aes256_ecb (replicate 16 0) ((fun i => Z.of_nat (17 * i)) <$> seq 0 16) 1 (aes256_ecb_keyexp (Z.of_nat <$> seq 0 32)) =
  [0x8e; 0xa2; 0xb7; 0xca; 0x51; 0x67; 0x45; 0xbf; 0xea; 0xfc; 0x49; 0x90; 0x4b; 0x49; 0x60; 0x89].
Proof. vm_compute. reflexivity. Qed.
