(* ===== verification/AesBits.v ===== *)
(** AesBits: what the word operations of [Aes] do to the bits of a word.  The lemmas about fixed masks and
    shifts are checked at each of the 64 positions ([each_position]). *)

From Stdlib Require Import ZArith Lia.
From stdpp Require Import base numbers list.
From S2P Require Import Prelude Aes.

(** * Bits of words *)

(** Bit [p] of a word. *)
Definition tb (x : Z) (p : nat) : bool := Z.testbit x (Z.of_nat p).

Lemma tb_lor a b p : tb (a .| b) p = tb a p || tb b p.
Proof. apply Z.lor_spec. Qed.

Lemma tb_lxor a b p : tb (a .^ b) p = xorb (tb a p) (tb b p).
Proof. apply Z.lxor_spec. Qed.

Lemma tb_land a b p : tb (a .& b) p = tb a p && tb b p.
Proof. apply Z.land_spec. Qed.

Lemma tb_shl x s p : 0 <= s -> tb (u64 (x .<< s)) p = (p <? 64)%nat && (Z.to_nat s <=? p)%nat && tb x (p - Z.to_nat s).
Proof.
  intros H0. unfold tb. rewrite wrap_testbit, Z.shiftl_spec by lia. assert ((Z.of_nat p <? 64) = (p <? 64)%nat) as -> by (destruct (Z.ltb_spec (Z.of_nat p) 64), (Nat.ltb_spec p 64); lia).
  destruct (Nat.leb_spec (Z.to_nat s) p) as [Hs|Hs]; [|rewrite Z.testbit_neg_r by lia; now rewrite !andb_false_r].
  rewrite andb_true_r. do 2 f_equal. lia.
Qed.

Lemma tb_shr x s p : 0 <= s -> tb (x .>> s) p = tb x (p + Z.to_nat s).
Proof. intros H0. unfold tb. rewrite Z.shiftr_spec by lia. f_equal. lia. Qed.

Lemma tb_high w x p : 0 <= w -> in_width w x -> w <= Z.of_nat p -> tb x p = false.
Proof.
  intros Hw Hx Hk. unfold tb. rewrite <- (wrap_small w x Hx), wrap_testbit by lia. destruct (Z.ltb_spec (Z.of_nat p) w); [lia | reflexivity].
Qed.

Lemma below n (P : nat -> Prop) : Forall P (seq 0 n) -> forall p, (p < n)%nat -> P p.
Proof. rewrite Forall_forall. intros H p Hp. apply H, elem_of_seq. lia. Qed.

(** [each_position]: an equation between bits, checked at every position; what the bits of the operands are
    does not matter, except that those of a bounded operand are null above the bound. *)
Ltac some_bits :=
  repeat match goal with
  | H : forall p, (?w <= p)%nat -> tb ?x p = false |- _ => let f := fresh "f" in set (f := tb x) in *; clearbody f
  | |- context [tb ?x] => is_var x; let f := fresh "f" in set (f := tb x) in *; clearbody f
  end.

Ltac decide_bits :=
  vm_compute;
  repeat match goal with
  | B : forall p, (?w <= p)%nat -> ?f p = false |- context [?f ?k] => rewrite (B k) by lia
  | |- context [?f ?k] => is_var f; destruct (f k)
  end; reflexivity.

Ltac each_position :=
  match goal with |- forall p, (p < ?n)%nat -> @?P p => apply (below n P) end;
  some_bits; cbn [seq]; repeat (constructor; [decide_bits|]); constructor.

Ltac bits := repeat first [rewrite tb_lor | rewrite tb_lxor | rewrite tb_land | rewrite tb_shl by lia | rewrite tb_shr by lia].
Ltac program_bits := let p := fresh "p" in let Hp := fresh "Hp" in intros p Hp; bits; revert p Hp; each_position.

Lemma swap2_bits a b : forall p, (p < 64)%nat ->
  tb ((a .& 0x5555555555555555) .| u64 ((b .& 0x5555555555555555) .<< 1)) p = (if Nat.odd p then tb b (p - 1) else tb a p).
Proof. program_bits. Qed.

Lemma swap2_bits' a b : forall p, (p < 64)%nat ->
  tb (((a .& 0xAAAAAAAAAAAAAAAA) .>> 1) .| (b .& 0xAAAAAAAAAAAAAAAA)) p = (if Nat.odd p then tb b p else tb a (p + 1)).
Proof. program_bits. Qed.

Lemma swap4_bits a b : forall p, (p < 64)%nat ->
  tb ((a .& 0x3333333333333333) .| u64 ((b .& 0x3333333333333333) .<< 2)) p = (if Nat.odd (p / 2) then tb b (p - 2) else tb a p).
Proof. program_bits. Qed.

Lemma swap4_bits' a b : forall p, (p < 64)%nat ->
  tb (((a .& 0xCCCCCCCCCCCCCCCC) .>> 2) .| (b .& 0xCCCCCCCCCCCCCCCC)) p = (if Nat.odd (p / 2) then tb b p else tb a (p + 2)).
Proof. program_bits. Qed.

Lemma swap8_bits a b : forall p, (p < 64)%nat ->
  tb ((a .& 0x0F0F0F0F0F0F0F0F) .| u64 ((b .& 0x0F0F0F0F0F0F0F0F) .<< 4)) p = (if Nat.odd (p / 4) then tb b (p - 4) else tb a p).
Proof. program_bits. Qed.

Lemma swap8_bits' a b : forall p, (p < 64)%nat ->
  tb (((a .& 0xF0F0F0F0F0F0F0F0) .>> 4) .| (b .& 0xF0F0F0F0F0F0F0F0)) p = (if Nat.odd (p / 4) then tb b p else tb a (p + 4)).
Proof. program_bits. Qed.

Lemma spread_step1 x : in_width 32 x -> forall p, (p < 64)%nat ->
  tb ((x .| u64 (x .<< 16)) .& 0x0000FFFF0000FFFF) p = Nat.even (p / 16) && tb x (16 * (p / 32) + p mod 16).
Proof. intros Hx. assert (forall p, (32 <= p)%nat -> tb x p = false) as Hh by (intros; apply (tb_high 32); lia || done). program_bits. Qed.

Lemma spread_step2 y : forall p, (p < 64)%nat ->
  tb ((y .| u64 (y .<< 8)) .& 0x00FF00FF00FF00FF) p = Nat.even (p / 8) && (tb y p || (8 <=? p)%nat && tb y (p - 8)).
Proof. program_bits. Qed.

Lemma spread_bits x : in_width 32 x -> forall p, (p < 64)%nat -> tb (spread x) p = Nat.even (p / 8) && tb x (8 * (p / 16) + p mod 8).
Proof.
  intros Hx p Hp. unfold spread. rewrite spread_step2, !spread_step1 by (done || lia). revert p Hp. each_position.
Qed.

Lemma unspread_step x : forall p, (p < 64)%nat ->
  tb (((x .& 0x00FF00FF00FF00FF) .| ((x .& 0x00FF00FF00FF00FF) .>> 8)) .& 0x0000FFFF0000FFFF) p =
  Nat.even (p / 16) && tb x (p + (if Nat.odd (p / 8) then 8 else 0)).
Proof. program_bits. Qed.

Lemma unspread_bits x : forall p, (p < 32)%nat -> tb (unspread x) p = tb x (16 * (p / 8) + p mod 8).
Proof.
  intros p Hp. unfold unspread. set (y := Z.land _ 0x0000FFFF0000FFFF). assert (tb (u32 y .| u32 (y .>> 16)) p = tb y p || tb y (p + 16)) as ->.
  { unfold tb. rewrite Z.lor_spec, !wrap_testbit, Z.shiftr_spec by lia. destruct (Z.ltb_spec (Z.of_nat p) 32); [|lia]. cbn [andb]. do 2 f_equal. lia. }
  unfold y. rewrite !unspread_step by lia. clear y. revert p Hp. each_position.
Qed.

Lemma shift_row_bits x : forall p, (p < 64)%nat -> tb (shift_row_word x) p = tb x (16 * (p / 16) + 4 * (((p / 4) mod 4 + p / 16) mod 4) + p mod 4).
Proof. unfold shift_row_word. program_bits. Qed.

Lemma rot16_bits x : in_width 64 x -> forall p, (p < 64)%nat -> tb ((x .>> 16) .| u64 (x .<< 48)) p = tb x ((p + 16) mod 64).
Proof. intros Hx. assert (forall p, (64 <= p)%nat -> tb x p = false) as Hh by (intros; apply (tb_high 64); lia || done). program_bits. Qed.

Lemma rotr32_bits x : in_width 64 x -> forall p, (p < 64)%nat -> tb (rotr32 x) p = tb x ((p + 32) mod 64).
Proof. intros Hx. assert (forall p, (64 <= p)%nat -> tb x p = false) as Hh by (intros; apply (tb_high 64); lia || done). unfold rotr32. program_bits. Qed.

(** * Orthogonalisation *)

(** Where bit [p] of word [j] comes from, for the swaps at distance [s]. *)
Definition swap_source (s : nat) (jp : nat * nat) : nat * nat :=
  let '(j, p) := jp in
  if Nat.odd (j / s) then if Nat.odd (p / s) then (j, p) else (j - s, p + s)%nat
  else if Nat.odd (p / s) then (j + s, p - s)%nat else (j, p).

Definition bit_at (q : list Z) (jp : nat * nat) : bool := tb (q !!! jp.1) jp.2.

Ltac eight q Hq := destruct q as [|? [|? [|? [|? [|? [|? [|? [|? [|]]]]]]]]]; try discriminate Hq.

Ltac ground_odd :=
  repeat match goal with
  | |- context [Nat.odd ?a] =>
      let v := eval vm_compute in (Nat.odd a) in match v with true => change (Nat.odd a) with true | false => change (Nat.odd a) with false end
  end; cbv match.

Lemma swap_levels q : length q = 8%nat -> forall j p, (j < 8)%nat -> (p < 64)%nat ->
  bit_at (SWAP2 6 7 (SWAP2 4 5 (SWAP2 2 3 (SWAP2 0 1 q)))) (j, p) = bit_at q (swap_source 1 (j, p)) /\
  bit_at (SWAP4 5 7 (SWAP4 4 6 (SWAP4 1 3 (SWAP4 0 2 q)))) (j, p) = bit_at q (swap_source 2 (j, p)) /\
  bit_at (SWAP8 3 7 (SWAP8 2 6 (SWAP8 1 5 (SWAP8 0 4 q)))) (j, p) = bit_at q (swap_source 4 (j, p)).
Proof.
  intros Hq j p Hj Hp. eight q Hq. unfold swap_source. rewrite !Nat.div_1_r.
  do 8 (destruct j as [|j]; [unfold bit_at, SWAP2, SWAP4, SWAP8, SWAPN; cbn [fst snd insert list_insert lookup_total list_lookup_total];
    rewrite ?swap2_bits, ?swap2_bits', ?swap4_bits, ?swap4_bits', ?swap8_bits, ?swap8_bits' by exact Hp;
    (split; [|split]); ground_odd; match goal with |- context [Nat.odd ?x] => destruct (Nat.odd x) end; cbn [fst snd Nat.add Nat.sub lookup_total list_lookup_total]; reflexivity|]).
  exfalso; clear - Hj; lia.
Qed.

Lemma length_SWAPN cl ch s i j q : length (SWAPN cl ch s i j q) = length q.
Proof. unfold SWAPN. now rewrite !length_insert. Qed.

Lemma length_ortho q : length (br_aes_ct64_ortho q) = length q.
Proof. unfold br_aes_ct64_ortho, SWAP2, SWAP4, SWAP8. now rewrite !length_SWAPN. Qed.

(** The composition of the three levels, computed at every position. *)
Lemma swap_sources j p : (j < 8)%nat -> (p < 64)%nat ->
  let jp := swap_source 4 (j, p) in (jp.1 < 8)%nat /\ (jp.2 < 64)%nat /\
  let jp' := swap_source 2 jp in (jp'.1 < 8)%nat /\ (jp'.2 < 64)%nat /\ swap_source 1 jp' = (p mod 8, 8 * (p / 8) + j)%nat.
Proof.
  intros Hj Hp.
  assert (forallb (fun j => forallb (fun p => let jp := swap_source 4 (j, p) in (jp.1 <? 8)%nat && ((jp.2 <? 64)%nat &&
    let jp' := swap_source 2 jp in (jp'.1 <? 8)%nat && ((jp'.2 <? 64)%nat && bool_decide (swap_source 1 jp' = (p mod 8, 8 * (p / 8) + j)%nat)))) (seq 0 64)) (seq 0 8) = true) as H by (vm_compute; reflexivity).
  rewrite forallb_forall in H. specialize (H j ltac:(apply in_seq; lia)). rewrite forallb_forall in H.
  specialize (H p ltac:(apply in_seq; lia)). cbv zeta in *. rewrite !andb_true_iff, !Nat.ltb_lt, bool_decide_eq_true in H. exact H.
Qed.

(** The three low bits of the position and the number of the word are exchanged. *)
Lemma ortho_bits q : length q = 8%nat -> forall j p, (j < 8)%nat -> (p < 64)%nat ->
  tb (br_aes_ct64_ortho q !!! j) p = tb (q !!! (p mod 8)%nat) (8 * (p / 8) + j).
Proof.
  intros Hq j p Hj Hp. change (bit_at (br_aes_ct64_ortho q) (j, p) = bit_at q (p mod 8, 8 * (p / 8) + j)%nat).
  unfold br_aes_ct64_ortho. set (q1 := SWAP2 6 7 _). set (q2 := SWAP4 5 7 _).
  assert (length q1 = 8%nat) as H1 by (unfold q1, SWAP2; now rewrite !length_SWAPN).
  assert (length q2 = 8%nat) as H2 by (unfold q2, SWAP4; now rewrite !length_SWAPN).
  assert (forall j p, (j < 8)%nat -> (p < 64)%nat -> bit_at q1 (j, p) = bit_at q (swap_source 1 (j, p))) as E1
    by (intros j' p' Hj' Hp'; exact (proj1 (swap_levels q Hq j' p' Hj' Hp'))).
  assert (forall j p, (j < 8)%nat -> (p < 64)%nat -> bit_at q2 (j, p) = bit_at q1 (swap_source 2 (j, p))) as E2
    by (intros j' p' Hj' Hp'; exact (proj1 (proj2 (swap_levels q1 H1 j' p' Hj' Hp')))).
  destruct (swap_levels q2 H2 j p Hj Hp) as (_ & _ & E). clearbody q1 q2. rewrite E.
  destruct (swap_sources j p Hj Hp) as (A1 & A2 & A3 & A4 & A5). destruct (swap_source 4 (j, p)) as [j' p']. cbn [fst snd] in *.
  rewrite E2 by assumption. destruct (swap_source 2 (j', p')) as [j'' p'']. cbn [fst snd] in *. rewrite E1, A5 by assumption. reflexivity.
Qed.
