(* ===== verification/AesRound.v ===== *)
(** AesRound: the steps of a round of [Aes], on four blocks at once, against FIPS 197.  [rep] says which bit
    of which word holds which bit of which block; each step preserves it. *)

From Stdlib Require Import ZArith Lia.
From stdpp Require Import base numbers list.
From S2P Require Import Prelude Aes AesBits.

(** * FIPS 197: the substitution *)

(** Multiplication by x in GF(2^8), and the product. *)
Definition xtime (b : Z) : Z := u8 (b .<< 1) .^ (if Z.testbit b 7 then 0x1B else 0).

Definition gmul (a b : Z) : Z :=
  (for_up 0 8 (fun i '(a, r) => (xtime a, if Z.testbit b (Z.of_nat i) then r .^ a else r)) (a, 0)).2.

(** The inverse of [a], and 0 for 0: the power 254. *)
Definition ginv (a : Z) : Z := Nat.iter 254 (gmul a) 1.

Definition rotl8 (b s : Z) : Z := u8 (b .<< s) .| (b .>> (8 - s)).

Definition SubByte (a : Z) : Z :=
  let b := ginv a in b .^ rotl8 b 1 .^ rotl8 b 2 .^ rotl8 b 3 .^ rotl8 b 4 .^ 0x63.

Example SubByte_sample : SubByte 0x53 = 0xED.
Proof. reflexivity. Qed.

Example ginv_inverse : forallb (fun a => gmul a (ginv a) =? 1) (Z.of_nat <$> seq 1 255) = true.
Proof. vm_compute. reflexivity. Qed.

(** * Bits at a position *)

(** The bits at position [p] of the words of [q], and the bits of a byte. *)
Definition bits_at (q : list Z) (p : nat) : list bool := (fun x => tb x p) <$> q.
Definition byte_bits (x : Z) : list bool := (fun b => tb x b) <$> seq 0 8.

Definition sbox_bits (l : list bool) : list bool :=
  sbox_circuit (l !!! 7%nat) (l !!! 6%nat) (l !!! 5%nat) (l !!! 4%nat) (l !!! 3%nat) (l !!! 2%nat) (l !!! 1%nat) (l !!! 0%nat).

Lemma byte_cases (P : Z -> Prop) : Forall P (Z.of_nat <$> seq 0 256) -> forall x, in_width 8 x -> P x.
Proof.
  rewrite Forall_forall. intros H x [H0 H1]. change (2 ^ 8) with 256 in H1. apply H, list_elem_of_fmap. exists (Z.to_nat x).
  split; [lia | apply elem_of_seq; lia].
Qed.

Lemma sbox_bits_correct x : in_width 8 x -> sbox_bits (byte_bits x) = byte_bits (SubByte x) /\ in_width 8 (SubByte x).
Proof.
  intros Hx.
  assert (forallb (fun x => let y := SubByte x in bool_decide (sbox_bits (byte_bits x) = byte_bits y) && (0 <=? y) && (y <? 2 ^ 8)) (Z.of_nat <$> seq 0 256) = true)
    as H by (vm_compute; reflexivity).
  revert x Hx. apply byte_cases. rewrite forallb_forall in H. apply Forall_forall. intros x Hx. apply list_elem_of_In in Hx.
  specialize (H x Hx). cbv zeta in H. rewrite !andb_true_iff, bool_decide_eq_true, Z.leb_le, Z.ltb_lt in H. unfold in_width. tauto.
Qed.

Lemma let_related {A B C D} (R : A -> B -> Prop) (Q : C -> D -> Prop) e e' (f : A -> C) (g : B -> D) :
  R e e' -> (forall a b, R a b -> Q (f a) (g b)) -> Q (let x := e in f x) (let x := e' in g x).
Proof. intros He H. exact (H e e' He). Qed.

(** A circuit commutes with a homomorphism. *)
Lemma sbox_circuit_hom {W W'} `{Bitwise W} `{Bitwise W'} (h : W -> W')
  (Hx : forall a b, h (wxor a b) = wxor (h a) (h b)) (Ha : forall a b, h (wand a b) = wand (h a) (h b)) (Hn : forall a, h (wnot a) = wnot (h a))
  x0 x1 x2 x3 x4 x5 x6 x7 :
  h <$> sbox_circuit x0 x1 x2 x3 x4 x5 x6 x7 = sbox_circuit (h x0) (h x1) (h x2) (h x3) (h x4) (h x5) (h x6) (h x7).
Proof.
  set (R := fun (a : W) (b : W') => h a = b). set (Q := fun (l : list W) (l' : list W') => h <$> l = l').
  change (Q (sbox_circuit x0 x1 x2 x3 x4 x5 x6 x7) (sbox_circuit (h x0) (h x1) (h x2) (h x3) (h x4) (h x5) (h x6) (h x7))).
  assert (R x0 (h x0) /\ R x1 (h x1) /\ R x2 (h x2) /\ R x3 (h x3) /\ R x4 (h x4) /\ R x5 (h x5) /\ R x6 (h x6) /\ R x7 (h x7)) as HR by (repeat split).
  destruct HR as (R0 & R1 & R2 & R3 & R4 & R5 & R6 & R7). generalize dependent (h x0). generalize dependent (h x1).
  generalize dependent (h x2). generalize dependent (h x3). generalize dependent (h x4). generalize dependent (h x5). generalize dependent (h x6).
  generalize dependent (h x7). intros. cbv beta delta [sbox_circuit].
  assert (forall a b a' b', R a a' -> R b b' -> R (wxor a b) (wxor a' b')) as Rx by (intros a b ? ? <- <-; apply Hx).
  assert (forall a b a' b', R a a' -> R b b' -> R (wand a b) (wand a' b')) as Ra by (intros a b ? ? <- <-; apply Ha).
  assert (forall a a', R a a' -> R (wnot a) (wnot a')) as Rn by (intros a ? <-; apply Hn).
  assert (Q [] []) as Qn by reflexivity.
  assert (forall a b l l', R a b -> Q l l' -> Q (a :: l) (b :: l')) as Qc by (intros a b l l' <- <-; reflexivity).
  clearbody R Q. clear Hx Ha Hn.
  repeat (lazymatch goal with |- Q (let x := ?e in @?f x) (let y := ?e' in @?g y) => refine (let_related R Q e e' f g _ _) end;
    [repeat first [assumption | apply Rx | apply Ra | apply Rn] | cbv beta; intros ? ? ?]).
  repeat (apply Qc; [assumption|]). exact Qn.
Qed.

(** * FIPS 197: blocks *)

(** A block has 16 bytes; byte 4 c + r is in column c and row r of the state. *)
Definition SubBytes (b : list Z) : list Z := SubByte <$> b.

Definition ShiftRows (b : list Z) : list Z := (fun i => b !!! (4 * ((i / 4 + i mod 4) mod 4) + i mod 4)%nat) <$> seq 0 16.

Definition mix_byte (a0 a1 a2 a3 : Z) : Z := xtime a0 .^ (xtime a1 .^ a1) .^ a2 .^ a3.

Definition MixColumns (b : list Z) : list Z :=
  (fun i => let a r := b !!! (4 * (i / 4) + (i + r) mod 4)%nat in mix_byte (a 0%nat) (a 1%nat) (a 2%nat) (a 3%nat)) <$> seq 0 16.

Definition AddRoundKey (k b : list Z) : list Z := (fun i => (b !!! i) .^ (k !!! i)) <$> seq 0 16.

(** * Words of 64 bits *)

Lemma wnot_width x : in_width 64 (wnot x).
Proof. apply wrap_range. lia. Qed.

Lemma land_width w a b : 0 <= w -> in_width w a -> in_width w (a .& b).
Proof.
  intros Hw Ha. rewrite <- (wrap_small w a Ha). unfold wrap. rewrite <- Z.land_assoc, (Z.land_comm (Z.ones w)), Z.land_assoc.
  now apply wrap_range.
Qed.

Lemma shr_width w a s : 0 <= w -> 0 <= s -> in_width w a -> in_width w (a .>> s).
Proof.
  intros Hw Hs [H0 H1]. rewrite Z.shiftr_div_pow2 by lia. split; [apply Z.div_pos; lia|].
  apply Z.le_lt_trans with a; [|exact H1]. apply Z.div_le_upper_bound; [lia|]. nia.
Qed.

Create HintDb width64.
#[export] Hint Resolve wnot_width : width64.
#[export] Hint Extern 1 (in_width 64 (_ .| _)) => apply lor_width; [lia| |] : width64.
#[export] Hint Extern 1 (in_width 64 (_ .^ _)) => apply lxor_width; [lia| |] : width64.
#[export] Hint Extern 1 (in_width 64 (_ .& _)) => apply land_width; [lia|] : width64.
#[export] Hint Extern 1 (in_width 64 (_ .>> _)) => apply shr_width; [lia|lia|] : width64.
#[export] Hint Extern 1 (in_width 64 (u64 _)) => apply wrap_range; lia : width64.
#[export] Hint Extern 1 (in_width 64 (_ !!! _)) => apply Forall_lookup_total; [assumption | lia] : width64.

(** The circuit stays on 64 bits: it commutes with the reduction to 64 bits. *)
Lemma sbox_width q : length q = 8%nat -> Forall (in_width 64) q -> Forall (in_width 64) (br_aes_ct64_bitslice_Sbox q).
Proof.
  intros Hl Hq. assert (u64 <$> br_aes_ct64_bitslice_Sbox q = br_aes_ct64_bitslice_Sbox q) as <-.
  { unfold br_aes_ct64_bitslice_Sbox. rewrite (sbox_circuit_hom u64).
    - rewrite !(wrap_small 64) by auto with width64. reflexivity.
    - intros a b. apply Z.bits_inj'. intros k Hk. cbn [wxor word64_bitwise]. rewrite wrap_testbit, !Z.lxor_spec, !wrap_testbit by lia. now destruct (k <? 64), (Z.testbit a k), (Z.testbit b k).
    - intros a b. apply Z.bits_inj'. intros k Hk. cbn [wand word64_bitwise]. rewrite wrap_testbit, !Z.land_spec, !wrap_testbit by lia. now destruct (k <? 64), (Z.testbit a k), (Z.testbit b k).
    - intros a. apply Z.bits_inj'. intros k Hk. cbn [wnot word64_bitwise]. rewrite !wrap_testbit, !Z.lnot_spec, !wrap_testbit by lia. now destruct (k <? 64), (Z.testbit a k). }
  apply Forall_fmap, Forall_forall. intros x _. cbn [compose]. apply wrap_range. lia.
Qed.

(** * The representation *)

(** The bit at position 16 r + 4 c + k of word [b] is bit [b] of byte 4 c + r of block [k]. *)
Definition byte_place (p : nat) : nat := (4 * ((p / 4) mod 4) + p / 16)%nat.

Definition block_ok (b : list Z) : Prop := length b = 16%nat /\ Forall (in_width 8) b.

(** The words [q] hold the four blocks [bs]. *)
Record rep (q : list Z) (bs : list (list Z)) : Prop := {
  rep_length : length q = 8%nat;
  rep_width : Forall (in_width 64) q;
  rep_blocks : length bs = 4%nat;
  rep_bytes : Forall block_ok bs;
  rep_bits_at : forall p, (p < 64)%nat -> bits_at q p = byte_bits ((bs !!! (p mod 4)%nat) !!! byte_place p)
}.

Lemma bits_at_lookup q p b : (b < length q)%nat -> bits_at q p !!! b = tb (q !!! b) p.
Proof. intros Hb. unfold bits_at. now rewrite (list_lookup_total_fmap (fun x => tb x p)) by exact Hb. Qed.

Lemma byte_bits_lookup x b : (b < 8)%nat -> byte_bits x !!! b = tb x b.
Proof. intros Hb. unfold byte_bits. rewrite (list_lookup_total_fmap (fun b => tb x b)) by (rewrite length_seq; exact Hb). now rewrite lookup_total_seq_lt. Qed.

(** The bits at a position are those of a byte. *)
Lemma bits_at_eq q p x : length q = 8%nat -> (forall b, (b < 8)%nat -> tb (q !!! b) p = tb x b) -> bits_at q p = byte_bits x.
Proof.
  intros Hq H. apply list_eq_same_length with 8%nat; [reflexivity | unfold bits_at; now rewrite length_fmap|].
  intros b a a' Hb Ha Ha'. apply list_lookup_total_correct in Ha, Ha'.
  rewrite bits_at_lookup in Ha by lia. rewrite byte_bits_lookup in Ha' by lia. rewrite <- Ha, <- Ha'. now apply H.
Qed.

Lemma rep_bit q bs b p : rep q bs -> (b < 8)%nat -> (p < 64)%nat -> tb (q !!! b) p = tb ((bs !!! (p mod 4)%nat) !!! byte_place p) b.
Proof.
  intros [Hl _ _ _ Hc] Hb Hp. rewrite <- bits_at_lookup by lia. rewrite Hc by exact Hp. now apply byte_bits_lookup.
Qed.

Lemma byte_place_bound p : (p < 64)%nat -> (byte_place p < 16)%nat.
Proof. intros Hp. unfold byte_place. pose proof (Nat.mod_upper_bound (p / 4) 4 ltac:(lia)). assert (p / 16 < 4)%nat by (apply Nat.Div0.div_lt_upper_bound; lia). lia. Qed.

Lemma block_mod p : (p mod 4 < 4)%nat.
Proof. apply Nat.mod_upper_bound. lia. Qed.

(** A step of the cipher on the four blocks. *)
Lemma rep_step (f : list Z -> list Z) q q' bs : rep q bs -> length q' = 8%nat -> Forall (in_width 64) q' ->
  (forall b, block_ok b -> block_ok (f b)) ->
  (forall p, (p < 64)%nat -> bits_at q' p = byte_bits (f (bs !!! (p mod 4)%nat) !!! byte_place p)) -> rep q' (f <$> bs).
Proof.
  intros H Hl Hw Hf Hc. constructor; [exact Hl | exact Hw | now rewrite length_fmap, (rep_blocks _ _ H) | |].
  - apply Forall_fmap. eapply Forall_impl; [exact (rep_bytes _ _ H) | exact Hf].
  - intros p Hp. rewrite (list_lookup_total_fmap f) by (rewrite (rep_blocks _ _ H); apply block_mod). now apply Hc.
Qed.

Lemma rep_block_ok q bs k : rep q bs -> (k < 4)%nat -> block_ok (bs !!! k).
Proof. intros H Hk. apply (Forall_lookup_total block_ok); [apply (rep_bytes _ _ H) | rewrite (rep_blocks _ _ H); exact Hk]. Qed.

(** Blocks given byte by byte. *)
Lemma tabulated_lookup (f : nat -> Z) i : (i < 16)%nat -> (f <$> seq 0 16) !!! i = f i.
Proof. intros Hi. rewrite (list_lookup_total_fmap f) by (now rewrite length_seq). now rewrite lookup_total_seq_lt. Qed.

Lemma tabulated_ok (f : nat -> Z) : (forall i, (i < 16)%nat -> in_width 8 (f i)) -> block_ok (f <$> seq 0 16).
Proof.
  intros H. split; [reflexivity|]. apply Forall_fmap, Forall_forall. intros i Hi. apply elem_of_seq in Hi. apply H. lia.
Qed.

Lemma block_byte b i : block_ok b -> (i < 16)%nat -> in_width 8 (b !!! i).
Proof. intros [Hl Hb] Hi. apply (Forall_lookup_total (in_width 8)); [exact Hb | lia]. Qed.

(** * Substitution *)

Lemma tb_wnot x p : (p < 64)%nat -> tb (wnot x) p = negb (tb x p).
Proof. intros Hp. unfold wnot, word64_bitwise, tb. rewrite wrap_testbit, Z.lnot_spec by lia. destruct (Z.ltb_spec (Z.of_nat p) 64); [done | lia]. Qed.

Lemma sbox_bits_at q p : length q = 8%nat -> (p < 64)%nat -> bits_at (br_aes_ct64_bitslice_Sbox q) p = sbox_bits (bits_at q p).
Proof.
  intros Hq Hp. unfold br_aes_ct64_bitslice_Sbox, sbox_bits. rewrite !bits_at_lookup by lia.
  apply (sbox_circuit_hom (fun x => tb x p)); intros; [apply tb_lxor | apply tb_land | now apply tb_wnot].
Qed.

Lemma rep_sub q bs : rep q bs -> rep (br_aes_ct64_bitslice_Sbox q) (SubBytes <$> bs).
Proof.
  intros H. pose proof (rep_length _ _ H) as Hl. apply (rep_step SubBytes q); [exact H | reflexivity | apply sbox_width; [exact Hl | apply (rep_width _ _ H)] | |].
  - intros b [Hb Hw]. split; [unfold SubBytes; now rewrite length_fmap|]. apply Forall_fmap. eapply Forall_impl; [exact Hw|].
    intros x Hx. apply (sbox_bits_correct x Hx).
  - intros p Hp. rewrite sbox_bits_at by assumption. rewrite (rep_bits_at _ _ H) by exact Hp.
    pose proof (rep_block_ok _ _ _ H (block_mod p)) as Hb. unfold SubBytes.
    rewrite (list_lookup_total_fmap SubByte) by (rewrite (proj1 Hb); now apply byte_place_bound).
    apply sbox_bits_correct, block_byte; [exact Hb | now apply byte_place_bound].
Qed.

(** * Rows *)

Lemma shift_row_width x : in_width 64 x -> in_width 64 (shift_row_word x).
Proof. intros Hx. unfold shift_row_word. auto 20 with width64. Qed.

(** A position moves along its row. *)
Definition row_shifted (p : nat) : nat := (16 * (p / 16) + 4 * (((p / 4) mod 4 + p / 16) mod 4) + p mod 4)%nat.

Lemma shift_place p : (p < 64)%nat -> (row_shifted p < 64)%nat /\ (row_shifted p mod 4 = p mod 4)%nat /\
  byte_place (row_shifted p) = (4 * ((byte_place p / 4 + byte_place p mod 4) mod 4) + byte_place p mod 4)%nat.
Proof.
  revert p. assert (forallb (fun p =>
    (row_shifted p <? 64)%nat && ((row_shifted p mod 4 =? p mod 4)%nat && (byte_place (row_shifted p) =? 4 * ((byte_place p / 4 + byte_place p mod 4) mod 4) + byte_place p mod 4)%nat)) (seq 0 64) = true) as H by (vm_compute; reflexivity).
  rewrite forallb_forall in H. intros p Hp. specialize (H p ltac:(apply in_seq; lia)).
  rewrite !andb_true_iff, Nat.ltb_lt, !Nat.eqb_eq in H. exact H.
Qed.

Lemma rep_shift q bs : rep q bs -> rep (shift_rows q) (ShiftRows <$> bs).
Proof.
  intros H. pose proof (rep_length _ _ H) as Hl. unfold shift_rows. apply (rep_step ShiftRows q); [exact H | now rewrite length_fmap | | |].
  - apply Forall_fmap. eapply Forall_impl; [exact (rep_width _ _ H) | exact shift_row_width].
  - intros b Hb. apply tabulated_ok. intros i Hi. apply block_byte; [exact Hb|].
    pose proof (Nat.mod_upper_bound (i / 4 + i mod 4) 4 ltac:(lia)). pose proof (block_mod i). lia.
  - intros p Hp. destruct (shift_place p Hp) as (H1 & H2 & H3). apply bits_at_eq; [now rewrite length_fmap|]. intros b Hb.
    rewrite (list_lookup_total_fmap shift_row_word) by lia. rewrite shift_row_bits by exact Hp. fold (row_shifted p).
    unfold ShiftRows. rewrite tabulated_lookup by (now apply byte_place_bound). rewrite <- H3, <- H2. now apply rep_bit.
Qed.

(** * Columns *)

Lemma rot16_width x : in_width 64 x -> in_width 64 ((x .>> 16) .| u64 (x .<< 48)).
Proof. auto with width64. Qed.

Lemma rotr32_width x : in_width 64 x -> in_width 64 (rotr32 x).
Proof. unfold rotr32. auto with width64. Qed.

#[export] Hint Resolve rot16_width rotr32_width : width64.

Lemma rotr32_sum_bits a b p : in_width 64 a -> in_width 64 b -> (p < 64)%nat ->
  tb (rotr32 (a .^ b)) p = xorb (tb a ((p + 32) mod 64)) (tb b ((p + 32) mod 64)).
Proof. intros Ha Hb Hp. rewrite rotr32_bits by (auto with width64). apply tb_lxor. Qed.

Lemma mix_columns_width q : length q = 8%nat -> Forall (in_width 64) q -> Forall (in_width 64) (mix_columns q).
Proof. intros Hl Hq. unfold mix_columns. repeat (constructor; [auto 15 with width64|]). constructor. Qed.

(** The bytes of the same column in the rows below. *)
Lemma row_place r p : (r < 4)%nat -> (p < 64)%nat ->
  ((p + 16 * r) mod 64 < 64)%nat /\ (((p + 16 * r) mod 64) mod 4 = p mod 4)%nat /\
  byte_place ((p + 16 * r) mod 64) = (4 * (byte_place p / 4) + (byte_place p + r) mod 4)%nat.
Proof.
  assert (forallb (fun r => forallb (fun p =>
    ((p + 16 * r) mod 64 <? 64)%nat && ((((p + 16 * r) mod 64) mod 4 =? p mod 4)%nat &&
    (byte_place ((p + 16 * r) mod 64) =? 4 * (byte_place p / 4) + (byte_place p + r) mod 4)%nat)) (seq 0 64)) (seq 0 4) = true) as H by (vm_compute; reflexivity).
  rewrite forallb_forall in H. intros Hr Hp. specialize (H r ltac:(apply in_seq; lia)). rewrite forallb_forall in H.
  specialize (H p ltac:(apply in_seq; lia)). rewrite !andb_true_iff, Nat.ltb_lt, !Nat.eqb_eq in H. exact H.
Qed.

Lemma row_bit q bs b p r : rep q bs -> (b < 8)%nat -> (p < 64)%nat -> (r < 4)%nat ->
  tb (q !!! b) ((p + 16 * r) mod 64) = tb ((bs !!! (p mod 4)%nat) !!! (4 * (byte_place p / 4) + (byte_place p + r) mod 4)%nat) b.
Proof.
  intros H Hb Hp Hr. destruct (row_place r p Hr Hp) as (H1 & H2 & H3). rewrite <- H3, <- H2. now apply rep_bit.
Qed.

Lemma xtime_bits x b : (b < 8)%nat -> tb (xtime x) b = xorb (negb (b =? 0)%nat && tb x (b - 1)) (tb x 7 && tb 0x1B b).
Proof.
  intros Hb. unfold xtime. rewrite tb_lxor. f_equal.
  - unfold tb. rewrite wrap_testbit by lia. destruct (Z.ltb_spec (Z.of_nat b) 8); [|lia]. rewrite Z.shiftl_spec by lia.
    destruct b as [|b]; [now rewrite Z.testbit_neg_r by lia|]. cbn [Nat.eqb negb andb]. f_equal. lia.
  - change (tb x 7) with (Z.testbit x 7). destruct (Z.testbit x 7); [reflexivity|]. unfold tb. now rewrite Z.bits_0.
Qed.

Lemma mix_bits a0 a1 a2 a3 b : (b < 8)%nat ->
  tb (mix_byte a0 a1 a2 a3) b =
    xorb (xorb (xorb (xorb (negb (b =? 0)%nat && tb a0 (b - 1)) (tb a0 7 && tb 0x1B b))
      (xorb (xorb (negb (b =? 0)%nat && tb a1 (b - 1)) (tb a1 7 && tb 0x1B b)) (tb a1 b))) (tb a2 b)) (tb a3 b).
Proof. intros Hb. unfold mix_byte. now rewrite !tb_lxor, !xtime_bits by exact Hb. Qed.

Lemma mix_columns_bits q p b : length q = 8%nat -> Forall (in_width 64) q -> (b < 8)%nat -> (p < 64)%nat ->
  let bits r k := tb (q !!! k) ((p + 16 * r) mod 64) in
  tb (mix_columns q !!! b) p =
    xorb (xorb (xorb (xorb (negb (b =? 0)%nat && bits 0%nat (b - 1)%nat) (bits 0%nat 7%nat && tb 0x1B b))
      (xorb (xorb (negb (b =? 0)%nat && bits 1%nat (b - 1)%nat) (bits 1%nat 7%nat && tb 0x1B b)) (bits 1%nat b))) (bits 2%nat b)) (bits 3%nat b).
Proof.
  intros Hl Hq Hb Hp bits.
  assert (forall k, (k < 8)%nat -> tb (q !!! k) p = bits 0%nat k) as E0 by (intros k _; unfold bits; now rewrite Nat.mul_0_r, Nat.add_0_r, Nat.mod_small by exact Hp).
  assert (forall k, (k < 8)%nat -> tb (((q !!! k) .>> 16) .| u64 ((q !!! k) .<< 48)) p = bits 1%nat k) as E1
    by (intros k Hk; rewrite rot16_bits by auto with width64; reflexivity).
  assert (forall k, (k < 8)%nat -> tb (rotr32 ((q !!! k) .^ (((q !!! k) .>> 16) .| u64 ((q !!! k) .<< 48)))) p = xorb (bits 2%nat k) (bits 3%nat k)) as E2.
  { intros k Hk. rewrite rotr32_sum_bits by auto with width64. rewrite rot16_bits by (auto with width64; apply Nat.mod_upper_bound; lia).
    unfold bits. rewrite Nat.Div0.add_mod_idemp_l. do 3 f_equal. lia. }
  unfold mix_columns. clearbody bits.
  do 8 (destruct b as [|b]; [cbn [lookup_total list_lookup_total]; rewrite !tb_lxor, ?E2, ?E1, ?E0 by lia; cbn [Nat.eqb negb andb Nat.sub];
    repeat match goal with |- context [tb 0x1B ?k] => let v := eval vm_compute in (tb 0x1B k) in change (tb 0x1B k) with v end;
    repeat match goal with |- context [bits ?r ?k] => destruct (bits r k) end; reflexivity|]).
  exfalso; clear - Hb; lia.
Qed.

Lemma mix_byte_width a0 a1 a2 a3 : in_width 8 a0 -> in_width 8 a1 -> in_width 8 a2 -> in_width 8 a3 -> in_width 8 (mix_byte a0 a1 a2 a3).
Proof.
  intros. assert (forall a, in_width 8 (xtime a)) as Hx by (intros; unfold xtime; apply lxor_width; [lia | apply wrap_range; lia | unfold in_width; destruct (Z.testbit _ _); lia]).
  unfold mix_byte. repeat first [assumption | apply Hx | apply lxor_width; [lia| |]].
Qed.

Lemma row_index i r : (i < 16)%nat -> (4 * (i / 4) + (i + r) mod 4 < 16)%nat.
Proof. intros Hi. pose proof (block_mod (i + r)). assert (i / 4 < 4)%nat by (apply Nat.Div0.div_lt_upper_bound; lia). lia. Qed.

Lemma rep_mix q bs : rep q bs -> rep (mix_columns q) (MixColumns <$> bs).
Proof.
  intros H. pose proof (rep_length _ _ H) as Hl. pose proof (rep_width _ _ H) as Hw.
  apply (rep_step MixColumns q); [exact H | reflexivity | now apply mix_columns_width | |].
  - intros b Hb. apply tabulated_ok. intros i Hi. apply mix_byte_width; apply block_byte; (exact Hb || now apply row_index).
  - intros p Hp. apply bits_at_eq; [reflexivity|]. intros b Hb. rewrite mix_columns_bits by assumption. cbv zeta.
    rewrite !(row_bit q bs _ p) by (assumption || lia).
    unfold MixColumns. rewrite tabulated_lookup by (now apply byte_place_bound). cbv zeta. now rewrite mix_bits.
Qed.

(** * Round keys *)

Lemma rep_add q sk bs k : rep q bs -> rep sk (replicate 4 k) -> rep (add_round_key q sk) (AddRoundKey k <$> bs).
Proof.
  intros H Hk. pose proof (rep_block_ok _ _ 0%nat Hk ltac:(lia)) as Hok. rewrite lookup_total_replicate_2 in Hok by lia.
  pose proof (rep_length _ _ H) as Hl. pose proof (rep_width _ _ H) as Hw. pose proof (rep_length _ _ Hk) as Hl'. pose proof (rep_width _ _ Hk) as Hw'.
  apply (rep_step (AddRoundKey k) q); [exact H | reflexivity | | |].
  - apply Forall_fmap, Forall_forall. intros i Hi. apply elem_of_seq in Hi. cbn [compose]. auto with width64.
  - intros b Hb. apply tabulated_ok. intros i Hi. apply lxor_width; [lia | |]; now apply block_byte.
  - intros p Hp. apply bits_at_eq; [reflexivity|]. intros b Hb. unfold add_round_key.
    rewrite (list_lookup_total_fmap (fun i => (q !!! i) .^ (sk !!! i))) by (now rewrite length_seq). rewrite lookup_total_seq_lt by exact Hb.
    unfold AddRoundKey. rewrite Nat.add_0_l, tabulated_lookup by (now apply byte_place_bound). rewrite !tb_lxor.
    rewrite (rep_bit _ _ _ _ H), (rep_bit _ _ _ _ Hk) by assumption. now rewrite lookup_total_replicate_2 by apply block_mod.
Qed.
