(* ===== verification/AesCipher.v ===== *)
(** AesCipher: four blocks through [aes_ecb4x]: they are loaded, go through the rounds and are stored. *)

From Stdlib Require Import ZArith Lia.
From stdpp Require Import base numbers list.
From S2P Require Import Prelude Aes AesBits AesRound.

(** * FIPS 197: the cipher *)

(** [K i] is the round key number [i]. *)
Definition Cipher (nr : nat) (K : nat -> list Z) (b : list Z) : list Z :=
  let s := AddRoundKey (K 0%nat) b in
  let s := for_up 1 nr (fun i s => AddRoundKey (K i) (MixColumns (ShiftRows (SubBytes s)))) s in
  AddRoundKey (K nr) (ShiftRows (SubBytes s)).

(** * Bytes of words *)

Lemma tb_shl32 x s p : 0 <= s -> tb (u32 (x .<< s)) p = (p <? 32)%nat && (Z.to_nat s <=? p)%nat && tb x (p - Z.to_nat s).
Proof.
  intros H0. unfold tb. rewrite wrap_testbit, Z.shiftl_spec by lia. assert ((Z.of_nat p <? 32) = (p <? 32)%nat) as -> by (destruct (Z.ltb_spec (Z.of_nat p) 32), (Nat.ltb_spec p 32); lia).
  destruct (Nat.leb_spec (Z.to_nat s) p) as [Hs|Hs]; [|rewrite Z.testbit_neg_r by lia; now rewrite !andb_false_r].
  rewrite andb_true_r. do 2 f_equal. lia.
Qed.

Lemma dec32le_width src : (4 <= length src)%nat -> Forall (in_width 8) src -> in_width 32 (br_dec32le src).
Proof.
  intros Hl Hs. unfold br_dec32le. repeat (apply lor_width; [lia| |]); try (apply wrap_range; lia).
  apply (in_width_le 8); [lia|]. apply (Forall_lookup_total (in_width 8)); [exact Hs | lia].
Qed.

Lemma dec32le_bits src p : (4 <= length src)%nat -> Forall (in_width 8) src -> (p < 32)%nat ->
  tb (br_dec32le src) p = tb (src !!! (p / 8)%nat) (p mod 8).
Proof.
  intros Hl Hs.
  assert (forall i, (i < 4)%nat -> forall p, (8 <= p)%nat -> tb (src !!! i) p = false) as Hh.
  { intros i Hi k Hk. apply (tb_high 8); [lia | | lia]. apply (Forall_lookup_total (in_width 8)); [exact Hs | lia]. }
  pose proof (Hh 0%nat ltac:(lia)) as H0. pose proof (Hh 1%nat ltac:(lia)) as H1. pose proof (Hh 2%nat ltac:(lia)) as H2. pose proof (Hh 3%nat ltac:(lia)) as H3.
  intros Hp. unfold br_dec32le. rewrite !tb_lor, !tb_shl32 by lia.
  assert (p / 8 = 0 \/ p / 8 = 1 \/ p / 8 = 2 \/ p / 8 = 3)%nat as E by (pose proof (Nat.div_mod_eq p 8); pose proof (Nat.mod_upper_bound p 8 ltac:(lia)); lia).
  set (x0 := src !!! 0%nat) in *. set (x1 := src !!! 1%nat) in *. set (x2 := src !!! 2%nat) in *. set (x3 := src !!! 3%nat) in *.
  assert (tb (src !!! (p / 8)%nat) (p mod 8) = match (p / 8)%nat with 0%nat => tb x0 (p mod 8) | 1%nat => tb x1 (p mod 8) | 2%nat => tb x2 (p mod 8) | _ => tb x3 (p mod 8) end)
    as -> by (destruct E as [-> | [-> | [-> | ->]]]; reflexivity).
  clearbody x0 x1 x2 x3. clear E Hh Hl Hs. revert p Hp. each_position.
Qed.

(** * Loading and storing *)

(** The four words [w] hold the block [b], the first bytes in the low bits. *)
Definition holds_block (w b : list Z) : Prop :=
  forall c, (c < 4)%nat -> in_width 32 (w !!! c) /\
    forall r i, (r < 4)%nat -> (i < 8)%nat -> tb (w !!! c) (8 * r + i) = tb (b !!! (4 * c + r)%nat) i.

Lemma merge_bits x y p : in_width 32 x -> in_width 32 y -> (p < 64)%nat ->
  tb (spread x .| u64 (spread y .<< 8)) p = tb (if Nat.odd (p / 8) then y else x) (8 * (p / 16) + p mod 8).
Proof.
  intros Hx Hy Hp. rewrite tb_lor, tb_shl by lia. rewrite !spread_bits by (assumption || lia).
  assert (tb (if Nat.odd (p / 8) then y else x) (8 * (p / 16) + p mod 8) = if Nat.odd (p / 8) then tb y (8 * (p / 16) + p mod 8) else tb x (8 * (p / 16) + p mod 8))
    as -> by now destruct (Nat.odd _).
  clear Hx Hy. revert p Hp. each_position.
Qed.

Lemma spread_width x : in_width 64 (spread x).
Proof.
  unfold spread. rewrite Z.land_comm. apply land_width; [lia|]. vm_compute. split; [discriminate | reflexivity].
Qed.

#[export] Hint Resolve spread_width : width64.

Lemma interleave_in_width w : in_width 64 (br_aes_ct64_interleave_in w).1 /\ in_width 64 (br_aes_ct64_interleave_in w).2.
Proof. cbn [br_aes_ct64_interleave_in fst snd]. split; auto with width64. Qed.

Lemma SWAPN_width cl ch s i j q : 0 <= s -> Forall (in_width 64) q -> (i < length q)%nat -> (j < length q)%nat -> Forall (in_width 64) (SWAPN cl ch s i j q).
Proof.
  intros Hs Hq Hi Hj. unfold SWAPN. assert (in_width 64 (q !!! i) /\ in_width 64 (q !!! j)) as [Wi Wj] by (split; now apply Forall_lookup_total).
  apply Forall_insert; [apply Forall_insert; [exact Hq|]|]; auto with width64.
Qed.

Lemma ortho_width q : length q = 8%nat -> Forall (in_width 64) q -> Forall (in_width 64) (br_aes_ct64_ortho q).
Proof.
  intros Hl Hq. unfold br_aes_ct64_ortho, SWAP2, SWAP4, SWAP8.
  repeat (apply SWAPN_width; [lia | | rewrite ?length_SWAPN; lia | rewrite ?length_SWAPN; lia]). exact Hq.
Qed.

Definition pairs (W : nat -> list Z) : list Z :=
  let p k := br_aes_ct64_interleave_in (W k) in [(p 0%nat).1; (p 1%nat).1; (p 2%nat).1; (p 3%nat).1; (p 0%nat).2; (p 1%nat).2; (p 2%nat).2; (p 3%nat).2].

Lemma pairs_bits W j p : (forall k, (k < 4)%nat -> forall c, (c < 4)%nat -> in_width 32 (W k !!! c)) -> (j < 8)%nat -> (p < 64)%nat ->
  tb (pairs W !!! j) p = tb (W (j mod 4)%nat !!! (2 * ((p / 8) mod 2) + j / 4)%nat) (8 * (p / 16) + p mod 8).
Proof.
  intros HW Hj Hp. assert ((p / 8) mod 2 = if Nat.odd (p / 8) then 1 else 0)%nat as E.
  { rewrite <- Nat.bit0_mod. change 1%nat with (Nat.b2n true) at 1. change 0%nat with (Nat.b2n false) at 2. rewrite Nat.bit0_odd. now destruct (Nat.odd _). }
  rewrite E. do 8 (destruct j as [|j]; [cbn [pairs lookup_total list_lookup_total br_aes_ct64_interleave_in fst snd Nat.modulo Nat.div Nat.divmod Nat.sub Nat.add Nat.mul];
    rewrite merge_bits by (assumption || apply HW; lia); now destruct (Nat.odd _)|]).
  exfalso; lia.
Qed.

(** Positions before and after the exchange. *)
Lemma load_place p b : (p < 64)%nat -> (b < 8)%nat -> let p' := (8 * (p / 8) + b)%nat in
  (p' < 64)%nat /\ (p mod 8 < 8)%nat /\ ((p mod 8) mod 4 = p mod 4)%nat /\ (2 * ((p' / 8) mod 2) + (p mod 8) / 4 = (p / 4) mod 4)%nat /\
  (8 * (p' / 16) + p' mod 8 = 8 * (p / 16) + b)%nat.
Proof.
  assert (forallb (fun p => forallb (fun b => let p' := (8 * (p / 8) + b)%nat in
    (p' <? 64)%nat && ((p mod 8 <? 8)%nat && (((p mod 8) mod 4 =? p mod 4)%nat && ((2 * ((p' / 8) mod 2) + (p mod 8) / 4 =? (p / 4) mod 4)%nat &&
    (8 * (p' / 16) + p' mod 8 =? 8 * (p / 16) + b)%nat)))) (seq 0 8)) (seq 0 64) = true) as H by (vm_compute; reflexivity).
  rewrite forallb_forall in H. intros Hp Hb. specialize (H p ltac:(apply in_seq; lia)). rewrite forallb_forall in H.
  specialize (H b ltac:(apply in_seq; lia)). cbv zeta in *. rewrite !andb_true_iff, !Nat.ltb_lt, !Nat.eqb_eq in H. exact H.
Qed.

(** Four blocks, loaded and exchanged. *)
Lemma rep_pairs W bs : length bs = 4%nat -> Forall block_ok bs -> (forall k, (k < 4)%nat -> holds_block (W k) (bs !!! k)) ->
  rep (br_aes_ct64_ortho (pairs W)) bs.
Proof.
  intros Hl Hb HW. assert (Forall (in_width 64) (pairs W)) as Hw by (unfold pairs; repeat (constructor; [apply interleave_in_width|]); constructor).
  constructor; [now rewrite length_ortho | apply ortho_width; [reflexivity | exact Hw] | exact Hl | exact Hb|].
  intros p Hp. apply bits_at_eq; [now rewrite length_ortho|]. intros b Hb8. rewrite ortho_bits by (assumption || reflexivity).
  destruct (load_place p b Hp Hb8) as (H1 & H2 & H3 & H4 & H5). rewrite pairs_bits by (assumption || (intros k Hk c Hc; now apply HW)).
  rewrite H3, H4, H5. pose proof (Nat.mod_upper_bound (p / 4) 4 ltac:(lia)). assert (p / 16 < 4)%nat by (apply Nat.Div0.div_lt_upper_bound; lia).
  apply (HW (p mod 4)%nat (block_mod p)); assumption.
Qed.

Lemma unspread_width x : in_width 32 (unspread x).
Proof. unfold unspread. apply lor_width; [lia| |]; apply wrap_range; lia. Qed.

Lemma unspread_byte x r i : (r < 4)%nat -> (i < 8)%nat -> tb (unspread x) (8 * r + i) = tb x (16 * r + i).
Proof.
  intros Hr Hi. rewrite unspread_bits by lia. f_equal. rewrite (Nat.mul_comm 8 r), Nat.div_add_l, (Nat.div_small i) by lia.
  rewrite Nat.add_comm, (Nat.add_comm (r * 8)), Nat.Div0.mod_add, Nat.mod_small by lia. lia.
Qed.

Lemma exchanged_bit q bs k c r i : rep q bs -> (k < 4)%nat -> (c < 4)%nat -> (r < 4)%nat -> (i < 8)%nat ->
  tb (br_aes_ct64_ortho q !!! (k + 4 * (c mod 2))%nat) (16 * r + i + 8 * (c / 2)) = tb ((bs !!! k) !!! (4 * c + r)%nat) i.
Proof.
  intros H Hk Hc Hr Hi. pose proof (Nat.div_mod_eq c 2). pose proof (Nat.mod_upper_bound c 2 ltac:(lia)).
  rewrite ortho_bits by (apply (rep_length _ _ H) || lia).
  replace ((16 * r + i + 8 * (c / 2)) mod 8)%nat with i by (apply (Nat.mod_unique _ _ (2 * r + c / 2)); lia).
  replace ((16 * r + i + 8 * (c / 2)) / 8)%nat with (2 * r + c / 2)%nat by (apply (Nat.div_unique _ _ _ i); lia).
  replace (8 * (2 * r + c / 2) + (k + 4 * (c mod 2)))%nat with (16 * r + 4 * c + k)%nat by lia.
  rewrite (rep_bit _ _ _ _ H) by lia. replace ((16 * r + 4 * c + k) mod 4)%nat with k by (apply (Nat.mod_unique _ _ (4 * r + c)); lia).
  f_equal. f_equal. unfold byte_place. replace ((16 * r + 4 * c + k) / 16)%nat with r by (apply (Nat.div_unique _ _ _ (4 * c + k)); lia).
  replace ((16 * r + 4 * c + k) / 4)%nat with (4 * r + c)%nat by (apply (Nat.div_unique _ _ _ k); lia).
  now replace ((4 * r + c) mod 4)%nat with c by (apply (Nat.mod_unique _ _ r); lia).
Qed.

Lemma stored_holds q bs k : rep q bs -> (k < 4)%nat ->
  holds_block (br_aes_ct64_interleave_out (br_aes_ct64_ortho q !!! k) (br_aes_ct64_ortho q !!! (k + 4)%nat)) (bs !!! k).
Proof.
  intros H Hk c Hc. split; [do 4 (destruct c as [|c]; [apply unspread_width|]); exfalso; lia|].
  intros r i Hr Hi. rewrite <- (exchanged_bit q bs k c r i H Hk Hc Hr Hi).
  do 4 (destruct c as [|c]; [unfold br_aes_ct64_interleave_out; cbn [lookup_total list_lookup_total];
    rewrite unspread_byte by assumption; rewrite ?tb_shr by lia; match goal with |- tb (_ !!! ?a) ?p = tb (_ !!! ?b) ?p2 => replace b with a by (cbn; lia); replace p2 with p by (cbn; lia); reflexivity end|]); exfalso; lia.
Qed.

Lemma byte_bits_inj x y : in_width 8 x -> in_width 8 y -> (forall i, (i < 8)%nat -> tb x i = tb y i) -> x = y.
Proof.
  intros Hx Hy H. apply Z.bits_inj'. intros k Hk. destruct (Z.ltb_spec k 8).
  - specialize (H (Z.to_nat k) ltac:(lia)). unfold tb in H. now rewrite Z2Nat.id in H by lia.
  - rewrite <- (wrap_small 8 x Hx), <- (wrap_small 8 y Hy), !wrap_testbit by lia. destruct (Z.ltb_spec k 8); [lia | reflexivity].
Qed.

Lemma holds_byte w b c r : block_ok b -> holds_block w b -> (c < 4)%nat -> (r < 4)%nat -> u8 ((w !!! c) .>> (8 * Z.of_nat r)) = b !!! (4 * c + r)%nat.
Proof.
  intros Hb H Hc Hr. apply byte_bits_inj; [apply wrap_range; lia | apply block_byte; [exact Hb | lia]|]. intros i Hi.
  rewrite <- (proj2 (H c Hc) r i Hr Hi). unfold tb at 1. rewrite wrap_testbit by lia. destruct (Z.ltb_spec (Z.of_nat i) 8); [|lia]. cbn [andb].
  change (tb ((w !!! c) .>> (8 * Z.of_nat r)) i = tb (w !!! c) (8 * r + i)). rewrite tb_shr by lia. f_equal. lia.
Qed.

(** The bytes of the four words are the block. *)
Lemma holds_enc w b : length w = 4%nat -> block_ok b -> holds_block w b -> br_range_enc32le w = b.
Proof.
  intros Hw Hb H.
  assert (forall c, (c < 4)%nat -> br_enc32le (w !!! c) = [b !!! (4 * c)%nat; b !!! (4 * c + 1)%nat; b !!! (4 * c + 2)%nat; b !!! (4 * c + 3)%nat]) as E.
  { intros c Hc. unfold br_enc32le. pose proof (holds_byte w b c 0 Hb H Hc ltac:(lia)) as E0. rewrite Z.shiftr_0_r, Nat.add_0_r in E0. rewrite E0.
    change 8 with (8 * Z.of_nat 1). change 16 with (8 * Z.of_nat 2). change 24 with (8 * Z.of_nat 3).
    now rewrite !(holds_byte w b c) by (assumption || lia). }
  destruct w as [|w0 [|w1 [|w2 [|w3 [|]]]]]; try discriminate Hw. destruct Hb as [Hl _].
  pose proof (E 0%nat ltac:(lia)) as E0. pose proof (E 1%nat ltac:(lia)) as E1. pose proof (E 2%nat ltac:(lia)) as E2. pose proof (E 3%nat ltac:(lia)) as E3.
  cbn [lookup_total list_lookup_total] in E0, E1, E2, E3. unfold br_range_enc32le. cbn [mbind list_bind]. rewrite E0, E1, E2, E3.
  clear - Hl. do 16 (destruct b as [|? b]; [discriminate Hl|]). destruct b; [reflexivity | discriminate Hl].
Qed.

Lemma rep_store q bs : rep q bs -> br_range_enc32le (store_blocks q) = concat bs.
Proof.
  intros H. pose proof (rep_blocks _ _ H) as Hl.
  assert (forall k, (k < 4)%nat -> br_range_enc32le (br_aes_ct64_interleave_out (br_aes_ct64_ortho q !!! k) (br_aes_ct64_ortho q !!! (k + 4)%nat)) = bs !!! k) as E
    by (intros k Hk; apply holds_enc; [reflexivity | exact (rep_block_ok _ _ k H Hk) | exact (stored_holds q bs k H Hk)]).
  unfold store_blocks. cbn [seq mbind list_bind]. unfold br_range_enc32le in *. rewrite !bind_app. rewrite !E by lia.
  destruct bs as [|b0 [|b1 [|b2 [|b3 [|]]]]]; try discriminate Hl. reflexivity.
Qed.

(** * Four blocks *)

Lemma add_round_key_take q sk n : add_round_key q (drop n sk) = add_round_key q (take 8 (drop n sk)).
Proof.
  unfold add_round_key. apply list_fmap_ext. intros j i Hi. apply lookup_seq in Hi. rewrite lookup_total_take. now destruct (decide _); [|lia].
Qed.

Section Rounds.
Context (nr : nat) (Hnr : (0 < nr)%nat) (sk : list Z) (K : nat -> list Z).
Context (HK : forall i, (i <= nr)%nat -> rep (take 8 (drop (8 * i) sk)) (replicate 4 (K i))).

Lemma rep_key q bs i : (i <= nr)%nat -> rep q bs -> rep (add_round_key q (drop (8 * i) sk)) (AddRoundKey (K i) <$> bs).
Proof using HK. intros Hi H. rewrite add_round_key_take. apply rep_add; [exact H | now apply HK]. Qed.

Lemma rep_round q bs i : (i <= nr)%nat -> rep q bs ->
  rep (add_round_key (mix_columns (shift_rows (br_aes_ct64_bitslice_Sbox q))) (drop (8 * i) sk))
    ((fun s => AddRoundKey (K i) (MixColumns (ShiftRows (SubBytes s)))) <$> bs).
Proof using HK.
  intros Hi H. pose proof (rep_key _ _ i Hi (rep_mix _ _ (rep_shift _ _ (rep_sub _ _ H)))) as R. now rewrite <- !list_fmap_compose in R.
Qed.

(** Four blocks are encrypted as each of them. *)
Lemma ecb4x_correct ivw bs : length bs = 4%nat -> Forall block_ok bs -> (forall k, (k < 4)%nat -> holds_block (drop (4 * k) ivw) (bs !!! k)) ->
  aes_ecb4x ivw sk nr = concat (Cipher nr K <$> bs).
Proof using HK Hnr.
  intros Hl Hb Hw. unfold aes_ecb4x. change (load_blocks ivw) with (br_aes_ct64_ortho (pairs (fun k => drop (4 * k) ivw))).
  pose proof (rep_pairs (fun k => drop (4 * k) ivw) bs Hl Hb Hw) as H0.
  set (q0 := br_aes_ct64_ortho _) in *. clearbody q0. apply rep_store.
  set (step := fun i s => AddRoundKey (K i) (MixColumns (ShiftRows (SubBytes s)))).
  set (words_step := fun i q => add_round_key (mix_columns (shift_rows (br_aes_ct64_bitslice_Sbox q))) (drop (8 * i) sk)).
  assert (rep (for_up 1 nr words_step (add_round_key q0 sk)) ((fun b => for_up 1 nr step (AddRoundKey (K 0%nat) b)) <$> bs)) as HR.
  { apply (for_up_inv words_step (fun i q => rep q ((fun b => for_up 1 i step (AddRoundKey (K 0%nat) b)) <$> bs))); [lia | |].
    - exact (rep_key q0 bs 0 ltac:(lia) H0).
    - intros i q Hi H. pose proof (rep_round q _ i ltac:(lia) H) as R. rewrite <- list_fmap_compose in R.
      erewrite list_fmap_ext; [exact R|]. intros _ b _. cbn [compose]. now rewrite for_up_snoc by lia. }
  pose proof (rep_key _ _ nr ltac:(lia) (rep_shift _ _ (rep_sub _ _ HR))) as R. now rewrite <- !list_fmap_compose in R.
Qed.
End Rounds.
