(* ===== verification/AesKey.v ===== *)
(** AesKey: the key schedule of [Aes] against FIPS 197, and its compressed form. *)

From Stdlib Require Import ZArith Lia.
From stdpp Require Import base numbers list.
From S2P Require Import Prelude Aes AesBits AesRound AesCipher.

(** * FIPS 197: the expansion of a key *)

(** A word is a list of four bytes. *)
Definition xor_word (a b : list Z) : list Z := zip_with Z.lxor a b.
Definition RotWord (w : list Z) : list Z := drop 1 w ++ take 1 w.
Definition SubWord (w : list Z) : list Z := SubByte <$> w.
Definition key_constant (j : nat) : list Z := [Nat.iter (j - 1) xtime 1; 0; 0; 0].

Definition expand_step (nk : nat) (W : list (list Z)) : list (list Z) :=
  let i := length W in
  let temp := W !!! (i - 1)%nat in
  let temp :=
    if (i mod nk =? 0)%nat then xor_word (SubWord (RotWord temp)) (key_constant (i / nk))
    else if (6 <? nk)%nat && (i mod nk =? 4)%nat then SubWord temp
    else temp in
  W ++ [xor_word (W !!! (i - nk)%nat) temp].

Definition KeyExpansion (nk : nat) (key : list Z) : list (list Z) :=
  Nat.iter (4 * (nk + 7) - nk) (expand_step nk) ((fun i => take 4 (drop (4 * i) key)) <$> seq 0 nk).

(** The round key number [i], for a key of [nk] words. *)
Definition RoundKey (nk : nat) (key : list Z) (i : nat) : list Z := concat (take 4 (drop (4 * i) (KeyExpansion nk key))).

(** * Words *)

Definition word_ok (w : list Z) : Prop := length w = 4%nat /\ Forall (in_width 8) w.

Lemma word_byte w r : word_ok w -> (r < 4)%nat -> in_width 8 (w !!! r).
Proof. intros [Hl Hw] Hr. apply (Forall_lookup_total (in_width 8)); [exact Hw | lia]. Qed.

Lemma dec_bits w r i : word_ok w -> (r < 4)%nat -> (i < 8)%nat -> tb (br_dec32le w) (8 * r + i) = tb (w !!! r) i.
Proof.
  intros [Hl Hw] Hr Hi. rewrite dec32le_bits by (assumption || lia).
  replace ((8 * r + i) / 8)%nat with r by (apply (Nat.div_unique _ _ _ i); lia).
  now replace ((8 * r + i) mod 8)%nat with i by (apply (Nat.mod_unique _ _ r); lia).
Qed.

(** A word of 32 bits is known by its bytes. *)
Lemma dec_eq x w : word_ok w -> in_width 32 x -> (forall r i, (r < 4)%nat -> (i < 8)%nat -> tb x (8 * r + i) = tb (w !!! r) i) -> x = br_dec32le w.
Proof.
  intros Hw Hx H. pose proof (dec32le_width w ltac:(destruct Hw; lia) (proj2 Hw)) as Hd. apply Z.bits_inj'. intros k Hk. destruct (Z.ltb_spec k 32) as [Hlt|Hge].
  - pose proof (Nat.div_mod_eq (Z.to_nat k) 8) as E. pose proof (Nat.mod_upper_bound (Z.to_nat k) 8 ltac:(lia)) as Hm.
    specialize (H (Z.to_nat k / 8)%nat (Z.to_nat k mod 8)%nat ltac:(apply Nat.Div0.div_lt_upper_bound; lia) Hm).
    rewrite <- (dec_bits w) in H by (assumption || (apply Nat.Div0.div_lt_upper_bound; lia)). rewrite <- E in H. unfold tb in H. now rewrite Z2Nat.id in H by lia.
  - rewrite <- (wrap_small 32 x Hx), <- (wrap_small 32 _ Hd), !wrap_testbit by lia. destruct (Z.ltb_spec k 32); [lia | reflexivity].
Qed.

Lemma dec_take src : br_dec32le (take 4 src) = br_dec32le src.
Proof. unfold br_dec32le. rewrite !lookup_total_take. reflexivity. Qed.

Lemma xor_word_lookup a b r : word_ok a -> word_ok b -> (r < 4)%nat -> xor_word a b !!! r = (a !!! r) .^ (b !!! r).
Proof.
  intros [Ha _] [Hb _] Hr. destruct a as [|a0 [|a1 [|a2 [|a3 [|]]]]]; try discriminate Ha. destruct b as [|b0 [|b1 [|b2 [|b3 [|]]]]]; try discriminate Hb.
  do 4 (destruct r as [|r]; [reflexivity|]). exfalso; lia.
Qed.

Lemma xor_word_ok a b : word_ok a -> word_ok b -> word_ok (xor_word a b).
Proof.
  intros [Ha Wa] [Hb Wb]. split; [unfold xor_word; rewrite length_zip_with; lia|]. unfold xor_word.
  apply Forall_lookup. intros i x Hx. apply lookup_zip_with_Some in Hx as (u & v & -> & Hu & Hv).
  apply lxor_width; [lia | exact (Forall_lookup_1 _ _ _ _ Wa Hu) | exact (Forall_lookup_1 _ _ _ _ Wb Hv)].
Qed.

Lemma SubWord_ok w : word_ok w -> word_ok (SubWord w).
Proof.
  intros [Hl Hw]. split; [unfold SubWord; now rewrite length_fmap|]. apply Forall_fmap. eapply Forall_impl; [exact Hw|].
  intros x Hx. apply (sbox_bits_correct x Hx).
Qed.

Lemma RotWord_ok w : word_ok w -> word_ok (RotWord w).
Proof.
  intros [Hl Hw]. split; [unfold RotWord; rewrite length_app, length_drop, length_take; lia|]. apply Forall_app.
  split; [now apply Forall_drop | now apply Forall_take].
Qed.

Lemma RotWord_lookup w r : word_ok w -> (r < 4)%nat -> RotWord w !!! r = w !!! ((r + 1) mod 4)%nat.
Proof.
  intros [Hl _] Hr. destruct w as [|a0 [|a1 [|a2 [|a3 [|]]]]]; try discriminate Hl. do 4 (destruct r as [|r]; [reflexivity|]). exfalso; lia.
Qed.

(** * The operations of the key schedule *)

Lemma dec_xor a b : word_ok a -> word_ok b -> br_dec32le a .^ br_dec32le b = br_dec32le (xor_word a b).
Proof.
  intros Ha Hb. apply dec_eq; [now apply xor_word_ok | apply lxor_width; [lia| |]; apply dec32le_width; (apply Ha || apply Hb || (destruct Ha, Hb; lia)) |].
  intros r i Hr Hi. rewrite tb_lxor, !dec_bits by assumption. rewrite xor_word_lookup by assumption. now rewrite tb_lxor.
Qed.

Lemma rot_bits x : in_width 32 x -> forall p, (p < 32)%nat -> tb (u32 (x .<< 24) .| (x .>> 8)) p = tb x ((p + 8) mod 32).
Proof.
  intros Hx. assert (forall p, (32 <= p)%nat -> tb x p = false) as Hh by (intros; apply (tb_high 32); lia || assumption).
  clear Hx. intros p Hp. rewrite tb_lor, tb_shl32, tb_shr by lia. revert p Hp. each_position.
Qed.

Lemma dec_rot w : word_ok w -> u32 (br_dec32le w .<< 24) .| (br_dec32le w .>> 8) = br_dec32le (RotWord w).
Proof.
  intros Hw. pose proof (dec32le_width w ltac:(destruct Hw; lia) (proj2 Hw)) as Hd.
  apply dec_eq; [now apply RotWord_ok | apply lor_width; [lia | apply wrap_range; lia | apply shr_width; [lia | lia | exact Hd]]|].
  intros r i Hr Hi. rewrite rot_bits by (exact Hd || lia). rewrite RotWord_lookup by assumption.
  replace ((8 * r + i + 8) mod 32)%nat with (8 * ((r + 1) mod 4) + i)%nat.
  - apply dec_bits; [exact Hw | apply Nat.mod_upper_bound; lia | exact Hi].
  - do 4 (destruct r as [|r]; [do 8 (destruct i as [|i]; [reflexivity|]); exfalso; lia|]). exfalso; lia.
Qed.

Lemma sub_word_correct w : word_ok w -> sub_word (br_dec32le w) = br_dec32le (SubWord w).
Proof.
  intros Hw. unfold sub_word. set (q0 := <[0%nat := br_dec32le w]> (replicate 8 0)). set (q1 := br_aes_ct64_ortho q0).
  set (q2 := br_aes_ct64_bitslice_Sbox q1). assert (length q0 = 8%nat) as L0 by reflexivity. assert (length q1 = 8%nat) as L1 by (unfold q1; now rewrite length_ortho).
  assert (length q2 = 8%nat) as L2 by reflexivity.
  assert (forall r, (r < 4)%nat -> bits_at q2 (8 * r) = byte_bits (SubByte (w !!! r))) as H.
  { intros r Hr. unfold q2. rewrite sbox_bits_at by (exact L1 || lia). rewrite <- (proj1 (sbox_bits_correct _ (word_byte w r Hw Hr))). f_equal.
    apply bits_at_eq; [exact L1|]. intros b Hb. unfold q1. rewrite ortho_bits by (exact L0 || lia).
    replace ((8 * r) mod 8)%nat with 0%nat by (apply (Nat.mod_unique _ _ r); lia). replace (8 * r / 8)%nat with r by (apply (Nat.div_unique _ _ _ 0); lia).
    now apply dec_bits. }
  clearbody q2. apply dec_eq; [now apply SubWord_ok | apply wrap_range; lia|]. intros r i Hr Hi.
  unfold tb at 1. rewrite wrap_testbit by lia. destruct (Z.ltb_spec (Z.of_nat (8 * r + i)) 32); [|lia]. cbn [andb].
  change (tb (br_aes_ct64_ortho q2 !!! 0%nat) (8 * r + i) = tb (SubWord w !!! r) i). rewrite ortho_bits by (exact L2 || lia).
  replace ((8 * r + i) mod 8)%nat with i by (apply (Nat.mod_unique _ _ r); lia). replace ((8 * r + i) / 8)%nat with r by (apply (Nat.div_unique _ _ _ i); lia).
  rewrite Nat.add_0_r, <- bits_at_lookup by lia. rewrite H by exact Hr. rewrite byte_bits_lookup by exact Hi.
  unfold SubWord. now rewrite (list_lookup_total_fmap SubByte) by (destruct Hw; lia).
Qed.

(** * The loop of the key schedule *)

Definition start_words (nk : nat) (key : list Z) : list (list Z) := (fun i => take 4 (drop (4 * i) key)) <$> seq 0 nk.

Lemma start_words_ok nk key : length key = (4 * nk)%nat -> Forall (in_width 8) key -> Forall word_ok (start_words nk key).
Proof.
  intros Hl Hk. apply Forall_fmap, Forall_forall. intros i Hi. apply elem_of_seq in Hi. split.
  - rewrite length_take, length_drop. lia.
  - now apply Forall_take, Forall_drop.
Qed.

Lemma round_constant_byte j : (1 <= j <= 10)%nat -> word_ok (key_constant j) /\ br_dec32le (key_constant j) = Rcon !!! (j - 1)%nat.
Proof.
  intros Hj. destruct j as [|j]; [exfalso; lia|]. do 10 (destruct j as [|j]; [split; [split; [reflexivity | by_decide] | reflexivity]|]). exfalso; lia.
Qed.

Section Expansion.
Context (nk : nat) (Hnk : nk = 4%nat \/ nk = 6%nat \/ nk = 8%nat).

Lemma round_number i : (nk <= i < 4 * (nk + 7))%nat -> (1 <= i / nk <= 10)%nat.
Proof using Hnk.
  intros Hi. split; [apply Nat.div_le_lower_bound; lia|]. cut (i / nk < 11)%nat; [lia|]. apply Nat.Div0.div_lt_upper_bound. lia.
Qed.

Lemma expand_step_length W : length (expand_step nk W) = S (length W).
Proof. unfold expand_step. rewrite length_app. cbn [length]. lia. Qed.

Lemma expanded_length n W : length (Nat.iter n (expand_step nk) W) = (length W + n)%nat.
Proof. induction n as [|n IH]; [cbn; lia|]. rewrite Nat.iter_succ, expand_step_length, IH. lia. Qed.

(** The words of an expansion, and the variable [tmp], which the C loop keeps from one turn to the next. *)
Record loop_state (W : list (list Z)) (st : nat * nat * Z * list Z) : Prop := {
  ls_j : st.1.1.1 = (length W mod nk)%nat;
  ls_k : S st.1.1.2 = (length W / nk)%nat;
  ls_tmp : st.1.2 = br_dec32le (W !!! (length W - 1)%nat);
  ls_skey : st.2 = br_dec32le <$> W;
  ls_ok : Forall word_ok W
}.

(** The next word before the last exclusive or. *)
Definition next_temp (W : list (list Z)) : list Z :=
  let i := length W in
  let temp := W !!! (i - 1)%nat in
  if (i mod nk =? 0)%nat then xor_word (SubWord (RotWord temp)) (key_constant (i / nk))
  else if (6 <? nk)%nat && (i mod nk =? 4)%nat then SubWord temp
  else temp.

Lemma next_temp_ok W : (nk <= length W < 4 * (nk + 7))%nat -> Forall word_ok W -> word_ok (next_temp W).
Proof using Hnk.
  intros Hl HW. assert (word_ok (W !!! (length W - 1)%nat)) as Hw by (apply Forall_lookup_total; [exact HW | lia]).
  unfold next_temp. destruct (Nat.eqb_spec (length W mod nk) 0).
  - apply xor_word_ok; [apply SubWord_ok, RotWord_ok, Hw | apply round_constant_byte, round_number, Hl].
  - destruct (_ && _); [apply SubWord_ok, Hw | exact Hw].
Qed.

Lemma next_temp_dec W j k tmp skey : (nk <= length W < 4 * (nk + 7))%nat -> loop_state W (j, k, tmp, skey) ->
  (if (j =? 0)%nat then sub_word (u32 (tmp .<< 24) .| (tmp .>> 8)) .^ (Rcon !!! k)
   else if (6 <? nk)%nat && (j =? 4)%nat then sub_word tmp else tmp) = br_dec32le (next_temp W).
Proof using Hnk.
  intros Hl [Hj Hk Ht _ HW]. cbn [fst snd] in *. assert (word_ok (W !!! (length W - 1)%nat)) as Hw by (apply Forall_lookup_total; [exact HW | lia]).
  unfold next_temp. rewrite Hj, Ht. destruct (Nat.eqb_spec (length W mod nk) 0).
  - destruct (round_constant_byte (length W / nk) (round_number _ Hl)) as [Rok Rc]. rewrite <- Hk in Rok, Rc |- *. cbn [Nat.sub] in Rc. rewrite Nat.sub_0_r in Rc.
    rewrite dec_rot, sub_word_correct, <- Rc by (assumption || now apply RotWord_ok). apply dec_xor; [apply SubWord_ok, RotWord_ok, Hw | exact Rok].
  - destruct (_ && _); [now apply sub_word_correct | reflexivity].
Qed.

Lemma counters (W : list (list Z)) (Hl : (nk <= length W)%nat) j k : j = (length W mod nk)%nat -> S k = (length W / nk)%nat ->
  (if (S j =? nk)%nat then 0%nat else S j) = (S (length W) mod nk)%nat /\ S (if (S j =? nk)%nat then S k else k) = (S (length W) / nk)%nat.
Proof using Hnk.
  intros -> Hk. pose proof (Nat.div_mod_eq (length W) nk) as E. pose proof (Nat.mod_upper_bound (length W) nk ltac:(lia)) as Hm.
  destruct (Nat.eqb_spec (S (length W mod nk)) nk) as [He|Hne].
  - split; [apply (Nat.mod_unique _ _ (S (length W / nk))); nia | rewrite Hk; apply (Nat.div_unique _ _ _ 0%nat); nia].
  - split; [apply (Nat.mod_unique _ _ (length W / nk)); nia | rewrite Hk; apply (Nat.div_unique _ _ _ (S (length W mod nk))); nia].
Qed.

Lemma key_words_expansion key : length key = (4 * nk)%nat -> Forall (in_width 8) key ->
  key_words key (4 * nk) = br_dec32le <$> KeyExpansion nk key /\ Forall word_ok (KeyExpansion nk key) /\ length (KeyExpansion nk key) = (4 * (nk + 7))%nat.
Proof using Hnk.
  intros Hlen Hkey. set (W0 := start_words nk key). assert (length W0 = nk) as L0 by (unfold W0, start_words; now rewrite length_fmap, length_seq).
  unfold key_words, nrounds_of. replace (4 * nk / 4)%nat with nk by (apply (Nat.div_unique _ _ _ 0); lia).
  replace (4 * (10 + (4 * nk - 16) / 4 + 1))%nat with (4 * (nk + 7))%nat by (replace (4 * nk - 16)%nat with ((nk - 4) * 4)%nat by lia; rewrite Nat.div_mul; lia).
  assert (br_range_dec32le nk key = br_dec32le <$> W0) as ES.
  { unfold br_range_dec32le, W0, start_words. rewrite <- list_fmap_compose. apply list_fmap_ext. intros _ i _. cbn [compose]. symmetry. apply dec_take. }
  pose proof (start_words_ok nk key Hlen Hkey) as Ok0. fold W0 in Ok0.
  match goal with |- context [for_up nk ?n ?body ?start] => pose proof (for_up_inv body (fun i st => loop_state (Nat.iter (i - nk) (expand_step nk) W0) st) nk n start) as H end.
  destruct H as [_ _ _ Hs Hok].
  - lia.
  - rewrite Nat.sub_diag. cbn [Nat.iter nat_rect]. constructor; cbn [fst snd]; [| | | exact ES | exact Ok0]; rewrite L0.
    + symmetry. apply Nat.Div0.mod_same.
    + symmetry. apply Nat.div_same. lia.
    + rewrite ES. apply list_lookup_total_fmap. lia.
  - intros i [[[j k] tmp] skey] Hi H. set (W := Nat.iter (i - nk) (expand_step nk) W0) in *.
    assert (length W = i) as LW by (unfold W; rewrite expanded_length; lia).
    replace (S i - nk)%nat with (S (i - nk)) by lia. rewrite Nat.iter_succ. fold W. cbv zeta. rewrite (next_temp_dec W j k tmp skey ltac:(lia) H).
    assert (Forall word_ok W) as HW by apply (ls_ok _ _ H). assert (word_ok (next_temp W)) as Ht by (apply next_temp_ok; [lia | exact HW]).
    assert (word_ok (W !!! (i - nk)%nat)) as Hp by (apply Forall_lookup_total; [exact HW | lia]).
    assert (expand_step nk W = W ++ [xor_word (W !!! (i - nk)%nat) (next_temp W)]) as -> by (unfold expand_step, next_temp; now rewrite LW).
    set (t := xor_word _ _). assert (br_dec32le (next_temp W) .^ (skey !!! (i - nk)%nat) = br_dec32le t) as ->.
    { pose proof (ls_skey _ _ H) as Es. cbn [snd] in Es. rewrite Es, (list_lookup_total_fmap br_dec32le) by lia. rewrite Z.lxor_comm. now apply dec_xor. }
    destruct (counters W ltac:(lia) j k (ls_j _ _ H) (ls_k _ _ H)) as [Cj Ck]. rewrite <- (Nat.add_1_r (length W)) in Cj, Ck.
    assert (length (W ++ [t]) = length W + 1)%nat as La by (rewrite length_app; reflexivity).
    assert (loop_state (W ++ [t]) (if (S j =? nk)%nat then 0%nat else S j, if (S j =? nk)%nat then S k else k, br_dec32le t, skey ++ [br_dec32le t])) as G.
    { constructor; cbn [fst snd]; rewrite ?La; [exact Cj | exact Ck | | |].
      - rewrite Nat.add_sub, lookup_total_app_r, Nat.sub_diag by lia. reflexivity.
      - pose proof (ls_skey _ _ H) as Es. cbn [snd] in Es. now rewrite fmap_app, <- Es.
      - apply Forall_app. split; [exact HW | constructor; [now apply xor_word_ok | constructor]]. }
    destruct (S j =? nk)%nat; exact G.
  - split; [exact Hs | split; [exact Hok|]]. unfold KeyExpansion. fold (start_words nk key). fold W0. rewrite expanded_length. lia.
Qed.
End Expansion.

(** * Compressed round keys *)

Lemma masks_bits q0 q1 q2 q3 : forall p, (p < 64)%nat ->
  tb ((q0 .& 0x1111111111111111) .| (q1 .& 0x2222222222222222) .| (q2 .& 0x4444444444444444) .| (q3 .& 0x8888888888888888)) p =
    match (p mod 4)%nat with 0%nat => tb q0 p | 1%nat => tb q1 p | 2%nat => tb q2 p | _ => tb q3 p end.
Proof. program_bits. Qed.

(** Fifteen times a word whose bits are at the multiples of 4. *)
Lemma nibbles x : let y := x .& 0x1111111111111111 in
  u64 (u64 (y .<< 4) - y) = u64 (y .^ (y .<< 1) .^ ((y .^ (y .<< 1)) .<< 2)).
Proof.
  cbv zeta. set (m := 0x1111111111111111). set (y := x .& m).
  assert (forall s, 0 <= s -> y .<< s = (x .<< s) .& (m .<< s)) as Hs by (intros s Hs; apply Z.shiftl_land).
  assert (y .& (y .<< 1) = 0) as D1.
  { rewrite Hs by lia. unfold y. rewrite <- Z.land_assoc, (Z.land_assoc m), (Z.land_comm m), <- (Z.land_assoc (x .<< 1)), Z.land_assoc.
    change (m .& (m .<< 1)) with 0. apply Z.land_0_r. }
  assert (y + (y .<< 1) = y .^ (y .<< 1)) as E1 by (apply Z.add_nocarry_lxor; exact D1).
  set (z := y .^ (y .<< 1)) in *.
  assert (z .& (z .<< 2) = 0) as D2.
  { assert (z = z .& 0x3333333333333333) as Ez.
    { unfold z. rewrite Hs by lia. unfold y. apply Z.bits_inj'. intros n Hn. rewrite !Z.land_spec, !Z.lxor_spec, !Z.land_spec.
      change 0x3333333333333333 with (m .| (m .<< 1)). rewrite Z.lor_spec. destruct (Z.testbit m n), (Z.testbit (m .<< 1) n); rewrite ?andb_true_r, ?andb_false_r; reflexivity. }
    rewrite Ez. set (c := 0x3333333333333333). rewrite Z.shiftl_land, <- Z.land_assoc, (Z.land_assoc c), (Z.land_comm c), <- (Z.land_assoc (z .<< 2)), Z.land_assoc.
    change (c .& (c .<< 2)) with 0. apply Z.land_0_r. }
  assert (z + (z .<< 2) = z .^ (z .<< 2)) as <- by (apply Z.add_nocarry_lxor; exact D2).
  rewrite !Z.shiftl_mul_pow2 in * by lia. rewrite !wrap_mod by lia. rewrite Zminus_mod_idemp_l. f_equal. lia.
Qed.

Lemma tb_shl_any x s p : 0 <= s -> tb (x .<< s) p = (Z.to_nat s <=? p)%nat && tb x (p - Z.to_nat s).
Proof.
  intros H0. unfold tb. rewrite Z.shiftl_spec by lia. destruct (Nat.leb_spec (Z.to_nat s) p) as [Hs|Hs]; [|rewrite Z.testbit_neg_r by lia; reflexivity].
  cbn [andb]. f_equal. lia.
Qed.

Lemma tb_wrap64 x p : (p < 64)%nat -> tb (u64 x) p = tb x p.
Proof. intros Hp. unfold tb. rewrite wrap_testbit by lia. destruct (Z.ltb_spec (Z.of_nat p) 64); [reflexivity | lia]. Qed.

(** Each bit of a nibble fills a nibble. *)
Lemma fill_bits x : forall p, (p < 64)%nat -> tb (u64 (u64 ((x .& 0x1111111111111111) .<< 4) - (x .& 0x1111111111111111))) p = tb x (4 * (p / 4)).
Proof.
  intros p Hp. rewrite nibbles. rewrite tb_wrap64 by exact Hp. repeat first [rewrite tb_lxor | rewrite tb_shl_any by lia | rewrite tb_land].
  revert p Hp. each_position.
Qed.

Lemma expand_word_bits x j p : (j < 4)%nat -> (p < 64)%nat -> tb (expand_word x !!! j) p = tb x (4 * (p / 4) + j).
Proof.
  intros Hj Hp. assert (forall s c, 0 <= s -> c .>> s = 0x1111111111111111 -> (x .& c) .>> s = (x .>> s) .& 0x1111111111111111) as E
    by (intros s c Hs Hc; now rewrite Z.shiftr_land, Hc).
  unfold expand_word. rewrite (E 1), (E 2), (E 3) by (lia || reflexivity).
  do 4 (destruct j as [|j]; [cbn [lookup_total list_lookup_total]; rewrite fill_bits by exact Hp; rewrite ?tb_shr by lia; f_equal; cbn; lia|]).
  exfalso; lia.
Qed.

Lemma expand_word_width x : length (expand_word x) = 4%nat /\ Forall (in_width 64) (expand_word x).
Proof. split; [reflexivity|]. unfold expand_word. repeat (constructor; [apply wrap_range; lia|]). constructor. Qed.

Lemma key_place p b : (p < 64)%nat -> (b < 8)%nat -> let p' := (4 * (p / 4) + b mod 4)%nat in
  (p' < 64)%nat /\ (p' mod 4 = b mod 4)%nat /\ byte_place p' = byte_place p.
Proof.
  assert (forallb (fun p => forallb (fun b => let p' := (4 * (p / 4) + b mod 4)%nat in
    (p' <? 64)%nat && ((p' mod 4 =? b mod 4)%nat && (byte_place p' =? byte_place p)%nat)) (seq 0 8)) (seq 0 64) = true) as H by (vm_compute; reflexivity).
  rewrite forallb_forall in H. intros Hp Hb. specialize (H p ltac:(apply in_seq; lia)). rewrite forallb_forall in H.
  specialize (H b ltac:(apply in_seq; lia)). cbv zeta in *. rewrite !andb_true_iff, !Nat.ltb_lt, !Nat.eqb_eq in H. exact H.
Qed.

(** Compression keeps one bit of the four equal ones, which expansion copies. *)
Lemma compressed_key w b : block_ok b -> holds_block w b -> let c := compress_key w in
  length c = 2%nat /\ rep (expand_word (c !!! 0%nat) ++ expand_word (c !!! 1%nat)) (replicate 4 b).
Proof.
  intros Hb Hw c. pose proof (rep_pairs (fun _ => w) (replicate 4 b) eq_refl ltac:(now apply Forall_replicate)) as H.
  assert (forall k, (k < 4)%nat -> holds_block w (replicate 4 b !!! k)) as HW by (intros k Hk; now rewrite lookup_total_replicate_2 by exact Hk).
  specialize (H HW). unfold compress_key in c. unfold pairs in H. destruct (br_aes_ct64_interleave_in w) as [q0 q4]. cbn [fst snd] in H.
  set (q := br_aes_ct64_ortho _) in *. clearbody q. subst c. split; [reflexivity|]. cbn [lookup_total list_lookup_total].
  set (c0 := _ .| _ .| _ .| _). set (c1 := (_ .& 0x1111111111111111) .| _ .| _ .| _).
  assert (forall j p, (j < 4)%nat -> (p < 64)%nat -> (p mod 4 = j)%nat -> tb c0 p = tb (q !!! j) p /\ tb c1 p = tb (q !!! (4 + j)%nat) p) as Ec.
  { intros j p Hj Hp E. unfold c0, c1. rewrite !masks_bits by exact Hp. rewrite E. do 4 (destruct j as [|j]; [split; reflexivity|]). exfalso; lia. }
  clearbody c0 c1. destruct (expand_word_width c0) as [L0 W0]. destruct (expand_word_width c1) as [L1 W1].
  constructor; [reflexivity | now apply Forall_app | reflexivity | now apply Forall_replicate|].
  intros p Hp. rewrite lookup_total_replicate_2 by apply block_mod. apply bits_at_eq; [reflexivity|]. intros i Hi.
  destruct (key_place p i Hp Hi) as (H1 & H2 & H3). destruct (Ec (i mod 4)%nat _ ltac:(apply Nat.mod_upper_bound; lia) H1 H2) as [E0 E1].
  destruct (decide (i < 4)%nat) as [Hlt|Hge].
  - rewrite lookup_total_app_l by lia. rewrite expand_word_bits by assumption. rewrite (Nat.mod_small i) in * by lia. rewrite E0.
    rewrite (rep_bit _ _ _ _ H) by lia. now rewrite H3, lookup_total_replicate_2 by apply block_mod.
  - assert (i mod 4 = i - 4)%nat as Em by (symmetry; apply (Nat.mod_unique _ _ 1); lia). rewrite Em in *.
    rewrite lookup_total_app_r by lia. rewrite L0, expand_word_bits by lia. rewrite E1.
    replace (4 + (i - 4))%nat with i by lia. rewrite (rep_bit _ _ _ _ H) by lia. now rewrite H3, lookup_total_replicate_2 by apply block_mod.
Qed.

(** * The expanded keys *)

(** A concatenation of pieces of the same length, from one piece on. *)
Lemma drop_pieces {A} (f : nat -> list A) n m i : (forall k, length (f k) = n) -> (i <= m)%nat ->
  drop (n * i) (seq 0 m ≫= f) = seq i (m - i) ≫= f.
Proof.
  intros Hf Hi. assert (forall l, length (l ≫= f) = (n * length l)%nat) as HL.
  { intros l. induction l as [|k l IH]; [cbn; lia|]. cbn [mbind list_bind length]. rewrite length_app, Hf. cbn [mbind] in IH. rewrite IH. lia. }
  replace m with (i + (m - i))%nat at 1 by lia. rewrite seq_app, bind_app. apply drop_app_length'. now rewrite HL, length_seq.
Qed.

Lemma holds_words (ws : list (list Z)) : length ws = 4%nat -> Forall word_ok ws -> holds_block (br_dec32le <$> ws) (concat ws) /\ block_ok (concat ws).
Proof.
  intros Hl Hw. assert (forall c r, (c < 4)%nat -> (r < 4)%nat -> concat ws !!! (4 * c + r)%nat = (ws !!! c) !!! r) as E.
  { assert (forall c, (c < 4)%nat -> length (ws !!! c) = 4%nat) as L by (intros c Hc; apply (Forall_lookup_total word_ok); [exact Hw | lia]).
    clear Hw. destruct ws as [|w0 [|w1 [|w2 [|w3 [|]]]]]; try discriminate Hl.
    pose proof (L 0%nat ltac:(lia)) as L0. pose proof (L 1%nat ltac:(lia)) as L1. pose proof (L 2%nat ltac:(lia)) as L2. pose proof (L 3%nat ltac:(lia)) as L3.
    cbn [lookup_total list_lookup_total] in L0, L1, L2, L3. clear L Hl. intros c r Hc Hr. cbn [concat].
    do 4 (destruct c as [|c]; [cbn [lookup_total list_lookup_total]; rewrite ?(lookup_total_app_r w0), ?(lookup_total_app_r w1), ?(lookup_total_app_r w2) by lia;
      rewrite lookup_total_app_l by lia; f_equal; lia|]). exfalso; lia. }
  split; [|split].
  - intros c Hc. assert (word_ok (ws !!! c)) as Hok by (apply Forall_lookup_total; [exact Hw | lia]).
    rewrite (list_lookup_total_fmap br_dec32le) by lia. split; [apply dec32le_width; [destruct Hok; lia | apply Hok]|].
    intros r i Hr Hi. rewrite E by assumption. now apply dec_bits.
  - destruct ws as [|w0 [|w1 [|w2 [|w3 [|]]]]]; try discriminate Hl. cbn [concat].
    rewrite !Forall_cons in Hw. destruct Hw as ([L0 _] & [L1 _] & [L2 _] & [L3 _] & _). rewrite !length_app, L0, L1, L2, L3. reflexivity.
  - apply Forall_concat. eapply Forall_impl; [exact Hw|]. intros w H. apply H.
Qed.

Lemma keyexp_keys nk key : nk = 4%nat \/ nk = 6%nat \/ nk = 8%nat -> length key = (4 * nk)%nat -> Forall (in_width 8) key ->
  forall i, (i <= nk + 6)%nat -> rep (take 8 (drop (8 * i) (keyexp key (4 * nk) (nk + 6)))) (replicate 4 (RoundKey nk key i)).
Proof.
  intros Hnk Hl Hk i Hi. destruct (key_words_expansion nk Hnk key Hl Hk) as (EW & HW & LW).
  unfold keyexp, br_aes_ct64_keysched, br_aes_ct64_skey_expand. rewrite EW.
  assert (nrounds_of (4 * nk) = nk + 6)%nat as -> by (unfold nrounds_of; replace (4 * nk - 16)%nat with ((nk - 4) * 4)%nat by lia; rewrite Nat.div_mul; lia).
  set (piece := fun i => compress_key (drop (4 * i) (br_dec32le <$> KeyExpansion nk key))). set (W := KeyExpansion nk key) in *.
  assert (rep (expand_word (piece i !!! 0%nat) ++ expand_word (piece i !!! 1%nat)) (replicate 4 (RoundKey nk key i)) /\ forall k, length (piece k) = 2%nat) as [HR HL].
  { destruct (holds_words (take 4 (drop (4 * i) W))) as [Hh Hb]; [rewrite length_take, length_drop; lia | now apply Forall_take, Forall_drop|].
    assert (forall k, length (piece k) = 2%nat) as HL by (intros k; unfold piece, compress_key; now destruct (br_aes_ct64_interleave_in _)).
    split; [|exact HL]. apply (compressed_key (drop (4 * i) (br_dec32le <$> W))); [exact Hb|].
    intros c Hc. destruct (Hh c Hc) as [H1 H2]. rewrite <- fmap_drop. rewrite fmap_take, lookup_total_take in H1, H2. destruct (decide (c < 4)%nat); [|lia].
    split; [exact H1 | exact H2]. }
  assert (forall e, (e < 2)%nat -> (seq 0 (nk + 6 + 1) ≫= piece) !!! (2 * i + e)%nat = piece i !!! e) as EP.
  { intros e He. rewrite <- lookup_total_drop, (drop_pieces piece 2) by (exact HL || lia).
    replace (nk + 6 + 1 - i)%nat with (S (nk + 6 - i)) by lia. cbn [seq mbind list_bind]. rewrite lookup_total_app_l by (rewrite HL; lia). reflexivity. }
  replace (8 * i)%nat with (4 * (2 * i))%nat by lia. rewrite drop_pieces by (intros; reflexivity || lia).
  replace (2 * (nk + 6 + 1) - 2 * i)%nat with (S (S (2 * (nk + 6 - i)))) by lia. cbn [seq mbind list_bind].
  rewrite <- (EP 0%nat), <- (EP 1%nat) in HR by lia. rewrite Nat.add_0_r, (Nat.add_1_r (2 * i)) in HR.
  rewrite app_assoc, take_app_length' by reflexivity. exact HR.
Qed.
