(* ===== verification/AesModes.v ===== *)
(** AesModes: the ECB and counter modes of [Aes], and its interface, against FIPS 197. *)

From Stdlib Require Import ZArith Lia.
From stdpp Require Import base numbers list.
From S2P Require Import Prelude Aes AesBits AesRound AesCipher AesKey.

(** The encryption of a block under a key of [nk] words. *)
Definition aes_encrypt (nk : nat) (key b : list Z) : list Z := Cipher (nk + 6) (RoundKey nk key) b.

(** The example of FIPS 197, appendix C.1. *)
Example aes_encrypt_sample :
  aes_encrypt 4 (Z.of_nat <$> seq 0 16) ((fun i => 0x11 * Z.of_nat i) <$> seq 0 16) =
  [0x69; 0xc4; 0xe0; 0xd8; 0x6a; 0x7b; 0x04; 0x30; 0xd8; 0xcd; 0xb7; 0x80; 0x70; 0xb4; 0xc5; 0x5a].
Proof. vm_compute. reflexivity. Qed.

(** The [n] blocks of a string. *)
Definition blocks_of (n : nat) (input : list Z) : list (list Z) := (fun i => take 16 (drop (16 * i) input)) <$> seq 0 n.

(** The four bytes of a counter modulo 2^32, the high byte first. *)
Definition be32 (z : Z) : list Z := [u8 (z .>> 24); u8 (z .>> 16); u8 (z .>> 8); u8 z].

(** * Words and blocks *)

Lemma enc_ok x : word_ok (br_enc32le x).
Proof. split; [reflexivity|]. unfold br_enc32le. repeat (constructor; [apply wrap_range; lia|]). constructor. Qed.

Lemma enc_bits x r i : (r < 4)%nat -> (i < 8)%nat -> tb (br_enc32le x !!! r) i = tb x (8 * r + i).
Proof.
  intros Hr Hi. assert (forall z, tb (u8 z) i = tb z i) as Hu by (intros z; unfold tb; rewrite wrap_testbit by lia; destruct (Z.ltb_spec (Z.of_nat i) 8); [reflexivity | lia]).
  do 4 (destruct r as [|r]; [cbn [br_enc32le lookup_total list_lookup_total]; rewrite Hu; rewrite ?tb_shr by lia; f_equal; cbn; lia|]). exfalso; lia.
Qed.

Lemma dec_enc x : in_width 32 x -> br_dec32le (br_enc32le x) = x.
Proof.
  intros Hx. symmetry. apply dec_eq; [apply enc_ok | exact Hx|]. intros r i Hr Hi. now rewrite enc_bits.
Qed.

Lemma enc_dec w : word_ok w -> br_enc32le (br_dec32le w) = w.
Proof.
  intros Hw. assert (forall r, (r < 4)%nat -> br_enc32le (br_dec32le w) !!! r = w !!! r) as H.
  { intros r Hr. apply byte_bits_inj; [apply word_byte; [apply enc_ok | exact Hr] | now apply word_byte|]. intros i Hi. rewrite enc_bits by assumption. now apply dec_bits. }
  destruct Hw as [Hl _]. destruct w as [|w0 [|w1 [|w2 [|w3 [|]]]]]; try discriminate Hl.
  pose proof (H 0%nat ltac:(lia)) as E0. pose proof (H 1%nat ltac:(lia)) as E1. pose proof (H 2%nat ltac:(lia)) as E2. pose proof (H 3%nat ltac:(lia)) as E3.
  unfold br_enc32le in *. cbn [lookup_total list_lookup_total] in E0, E1, E2, E3. now rewrite E0, E1, E2, E3.
Qed.

Lemma range_enc_dec n : forall src, length src = (4 * n)%nat -> Forall (in_width 8) src -> br_range_enc32le (br_range_dec32le n src) = src.
Proof.
  unfold br_range_enc32le, br_range_dec32le. induction n as [|n IH]; intros src Hl Hs; [now destruct src|].
  cbn [seq]. rewrite <- fmap_S_seq, fmap_cons, <- list_fmap_compose. cbn [mbind list_bind]. rewrite Nat.mul_0_r, drop_0, <- dec_take.
  rewrite enc_dec by (split; [rewrite length_take; lia | now apply Forall_take]).
  erewrite list_fmap_ext; [|intros _ i _; cbn [compose]; replace (4 * S i)%nat with (4 + 4 * i)%nat by lia; rewrite <- drop_drop; reflexivity].
  cbn [mbind] in IH. rewrite (IH (drop 4 src)) by (now apply Forall_drop || (rewrite length_drop; lia)). apply take_drop.
Qed.

(** The block made of four words. *)
Lemma word_block w : length w = 4%nat -> Forall (in_width 32) w -> holds_block w (br_range_enc32le w) /\ block_ok (br_range_enc32le w).
Proof.
  intros Hl Hw. pose proof (holds_words (br_enc32le <$> w)) as H. rewrite length_fmap in H. specialize (H Hl).
  assert (br_dec32le <$> (br_enc32le <$> w) = w) as E.
  { rewrite <- list_fmap_compose. rewrite <- (list_fmap_id w) at 2. apply list_fmap_ext. intros i x Hx. apply dec_enc, (Forall_lookup_1 _ _ _ _ Hw Hx). }
  rewrite E in H. assert (concat (br_enc32le <$> w) = br_range_enc32le w) as <- by (clear; unfold br_range_enc32le; induction w as [|x w IH]; [reflexivity|]; cbn [fmap list_fmap concat mbind list_bind]; f_equal; exact IH).
  apply H. apply Forall_fmap, Forall_forall. intros x _. apply enc_ok.
Qed.

Lemma length_blocks_of n input : length (blocks_of n input) = n.
Proof. unfold blocks_of. now rewrite length_fmap, length_seq. Qed.

Lemma blocks_of_add n m input : blocks_of (n + m) input = blocks_of n input ++ blocks_of m (drop (16 * n) input).
Proof.
  unfold blocks_of. rewrite seq_app, fmap_app. f_equal. rewrite Nat.add_0_l, <- (Nat.add_0_r n), <- (fmap_add_seq n 0), <- list_fmap_compose, Nat.add_0_r.
  apply list_fmap_ext. intros _ i _. cbn [compose]. rewrite drop_drop. f_equal. f_equal. lia.
Qed.

Lemma blocks_of_take n input : blocks_of n (take (16 * n) input) = blocks_of n input.
Proof.
  unfold blocks_of. apply list_fmap_ext. intros j i Hi. apply lookup_seq in Hi. rewrite !take_drop_commute, take_take. now rewrite Nat.min_l by lia.
Qed.

Lemma range_dec_width n src : length src = (4 * n)%nat -> Forall (in_width 8) src -> Forall (in_width 32) (br_range_dec32le n src).
Proof.
  intros Hl Hs. apply Forall_fmap, Forall_forall. intros i Hi. apply elem_of_seq in Hi. cbn [compose]. apply dec32le_width; [rewrite length_drop; lia | now apply Forall_drop].
Qed.

Lemma length_range_dec n src : length (br_range_dec32le n src) = n.
Proof. unfold br_range_dec32le. now rewrite length_fmap, length_seq. Qed.

Lemma range_dec_take n src : br_range_dec32le n (take (4 * n) src) = br_range_dec32le n src.
Proof.
  unfold br_range_dec32le. apply list_fmap_ext. intros j i Hi. apply lookup_seq in Hi.
  rewrite <- (dec_take (drop (4 * i) src)), <- (dec_take (drop (4 * i) (take _ _))). f_equal. rewrite !take_drop_commute, take_take. now rewrite Nat.min_l by lia.
Qed.

(** * Counters *)

Lemma swap32_bits x : in_width 32 x -> forall p, (p < 32)%nat -> tb (br_swap32 x) p = tb x (8 * (3 - p / 8) + p mod 8).
Proof.
  intros Hx. assert (forall p, (32 <= p)%nat -> tb x p = false) as Hh by (intros; apply (tb_high 32); lia || assumption).
  clear Hx. intros p Hp. unfold br_swap32.
  repeat first [rewrite tb_lor | rewrite tb_shl32 by lia | rewrite tb_shr by lia | rewrite tb_land]. revert p Hp. each_position.
Qed.

Lemma swap32_width x : in_width 32 x -> in_width 32 (br_swap32 x).
Proof.
  intros Hx. assert (in_width 32 (u32 ((x .& 0x00FF00FF) .<< 8) .| ((x .>> 8) .& 0x00FF00FF)))
    by (apply lor_width; [lia | apply wrap_range; lia | apply land_width; [lia | apply shr_width; [lia | lia | exact Hx]]]).
  unfold br_swap32. apply lor_width; [lia | apply wrap_range; lia | apply shr_width; [lia | lia | assumption]].
Qed.

(** The word that holds a counter. *)
Definition counter_word (z : Z) : Z := br_dec32le (be32 z).

Lemma be32_ok z : word_ok (be32 z).
Proof. split; [reflexivity|]. unfold be32. repeat (constructor; [apply wrap_range; lia|]). constructor. Qed.

Lemma counter_width z : in_width 32 (counter_word z).
Proof. apply dec32le_width; [reflexivity | apply be32_ok]. Qed.

Lemma be32_bits z r i : (r < 4)%nat -> (i < 8)%nat -> tb (be32 z !!! r) i = tb z (8 * (3 - r) + i).
Proof.
  intros Hr Hi. assert (forall z, tb (u8 z) i = tb z i) as Hu by (intros z'; unfold tb; rewrite wrap_testbit by lia; destruct (Z.ltb_spec (Z.of_nat i) 8); [reflexivity | lia]).
  do 4 (destruct r as [|r]; [cbn [be32 lookup_total list_lookup_total]; rewrite Hu; rewrite ?tb_shr by lia; f_equal; cbn; lia|]). exfalso; lia.
Qed.

Lemma swap32_counter z : br_swap32 (u32 z) = counter_word z.
Proof.
  assert (in_width 32 (u32 z)) as Hz by (apply wrap_range; lia). apply dec_eq; [apply be32_ok | now apply swap32_width|].
  intros r i Hr Hi. rewrite swap32_bits by (exact Hz || lia). rewrite be32_bits by assumption.
  replace ((8 * r + i) / 8)%nat with r by (apply (Nat.div_unique _ _ _ i); lia). replace ((8 * r + i) mod 8)%nat with i by (apply (Nat.mod_unique _ _ r); lia).
  unfold tb. rewrite wrap_testbit by lia. destruct (Z.ltb_spec (Z.of_nat (8 * (3 - r) + i)) 32); [reflexivity | lia].
Qed.

Lemma swap32_involutive x : in_width 32 x -> br_swap32 (br_swap32 x) = x.
Proof.
  intros Hx. assert (in_width 32 (br_swap32 x)) as Hs by now apply swap32_width.
  transitivity (br_dec32le (br_enc32le x)); [|now apply dec_enc]. apply dec_eq; [apply enc_ok | now apply swap32_width|].
  intros r i Hr Hi. rewrite swap32_bits by (exact Hs || lia). replace ((8 * r + i) / 8)%nat with r by (apply (Nat.div_unique _ _ _ i); lia).
  replace ((8 * r + i) mod 8)%nat with i by (apply (Nat.mod_unique _ _ r); lia). rewrite swap32_bits by (exact Hx || lia).
  replace ((8 * (3 - r) + i) / 8)%nat with (3 - r)%nat by (apply (Nat.div_unique _ _ _ i); lia).
  replace ((8 * (3 - r) + i) mod 8)%nat with i by (apply (Nat.mod_unique _ _ (3 - r)); lia). rewrite enc_bits by assumption. f_equal. lia.
Qed.

Lemma inc4_counter z : inc4_be (counter_word z) = counter_word (z + 4).
Proof.
  unfold inc4_be. rewrite <- (swap32_counter z), swap32_involutive by (apply wrap_range; lia). rewrite wrap_add_l by lia. apply swap32_counter.
Qed.

(** The input words when the next counter is [z]. *)
Definition ivw_at (iv : list Z) (z : Z) : list Z :=
  let n := br_range_dec32le 3 iv in n ++ [counter_word z] ++ n ++ [counter_word (z + 1)] ++ n ++ [counter_word (z + 2)] ++ n ++ [counter_word (z + 3)].

Lemma ivw_at_width iv z : length iv = 12%nat -> Forall (in_width 8) iv -> length (ivw_at iv z) = 16%nat /\ Forall (in_width 32) (ivw_at iv z).
Proof.
  intros Hl Hi. pose proof (range_dec_width 3 iv Hl Hi) as Hw. split; [reflexivity|]. unfold ivw_at. rewrite !Forall_app.
  repeat split; try exact Hw; (constructor; [apply counter_width | constructor]).
Qed.

Lemma ivw_at_bytes iv z : length iv = 12%nat -> Forall (in_width 8) iv ->
  blocks_of 4 (br_range_enc32le (ivw_at iv z)) = [iv ++ be32 z; iv ++ be32 (z + 1); iv ++ be32 (z + 2); iv ++ be32 (z + 3)].
Proof.
  intros Hl Hi. pose proof (range_enc_dec 3 iv Hl Hi) as E. unfold br_range_enc32le in *. unfold ivw_at. rewrite !bind_app, E.
  cbn [mbind list_bind]. unfold counter_word. rewrite !enc_dec by apply be32_ok. rewrite !app_nil_r.
  clear E Hi. do 12 (destruct iv as [|? iv]; [discriminate Hl|]). destruct iv; [reflexivity | discriminate Hl].
Qed.

Lemma ivw_at_next iv z : let ivw := ivw_at iv z in
  let ivw := <[3%nat := inc4_be (ivw !!! 3%nat)]> ivw in
  let ivw := <[7%nat := inc4_be (ivw !!! 7%nat)]> ivw in
  let ivw := <[11%nat := inc4_be (ivw !!! 11%nat)]> ivw in
  <[15%nat := inc4_be (ivw !!! 15%nat)]> ivw = ivw_at iv (z + 4).
Proof.
  unfold ivw_at. cbn [br_range_dec32le seq fmap list_fmap app insert list_insert lookup_total list_lookup_total]. rewrite !inc4_counter.
  replace (z + 1 + 4) with (z + 4 + 1) by lia. replace (z + 2 + 4) with (z + 4 + 2) by lia. now replace (z + 3 + 4) with (z + 4 + 3) by lia.
Qed.

Section Modes.
Context (nr : nat) (Hnr : (0 < nr)%nat) (sk : list Z) (K : nat -> list Z).
Context (HK : forall i, (i <= nr)%nat -> rep (take 8 (drop (8 * i) sk)) (replicate 4 (K i))).

Lemma ecb4x_words ivw : length ivw = 16%nat -> Forall (in_width 32) ivw ->
  aes_ecb4x ivw sk nr = concat (Cipher nr K <$> blocks_of 4 (br_range_enc32le ivw)).
Proof using HK Hnr.
  intros Hl Hw. assert (blocks_of 4 (br_range_enc32le ivw) = (fun k => br_range_enc32le (take 4 (drop (4 * k) ivw))) <$> seq 0 4) as E.
  { do 16 (destruct ivw as [|? ivw]; [discriminate Hl|]). destruct ivw; [reflexivity | discriminate Hl]. }
  rewrite E. assert (forall k, (k < 4)%nat -> holds_block (take 4 (drop (4 * k) ivw)) (br_range_enc32le (take 4 (drop (4 * k) ivw))) /\ block_ok (br_range_enc32le (take 4 (drop (4 * k) ivw)))) as H
    by (intros k Hk; apply word_block; [rewrite length_take, length_drop; lia | now apply Forall_take, Forall_drop]).
  apply ecb4x_correct; [exact Hnr | exact HK | reflexivity | |].
  - apply Forall_fmap, Forall_forall. intros k Hk. apply elem_of_seq in Hk. apply H. lia.
  - intros k Hk. rewrite (list_lookup_total_fmap (fun k => br_range_enc32le (take 4 (drop (4 * k) ivw)))) by exact Hk. rewrite lookup_total_seq_lt by exact Hk.
    rewrite Nat.add_0_l. intros c Hc. destruct (proj1 (H k Hk) c Hc) as [H1 H2]. rewrite lookup_total_take in H1, H2. destruct (decide (c < 4)%nat); [|lia]. split; [exact H1 | exact H2].
Qed.

(** * ECB *)

Lemma length_Cipher b : length (Cipher nr K b) = 16%nat.
Proof using. reflexivity. Qed.

Lemma length_ciphers (bs : list (list Z)) : length (concat (Cipher nr K <$> bs)) = (16 * length bs)%nat.
Proof using. clear HK Hnr. induction bs as [|b bs IH]; [reflexivity|]. cbn [fmap list_fmap concat length]. rewrite length_app, length_Cipher. cbn [fmap] in IH. rewrite IH. lia. Qed.

(** What follows the loop. *)
Definition ecb_rest (st : nat * list Z * list Z * list Z) : list Z :=
  let '(nblocks, input, blocks, out) := st in
  if (nblocks =? 0)%nat then out
  else out ++ take (16 * nblocks) (aes_ecb4x (br_range_dec32le (4 * nblocks) input ++ drop (4 * nblocks) blocks) sk nr).

Lemma ecb_run fuel : forall nblocks input blocks out, (nblocks <= fuel)%nat -> length input = (16 * nblocks)%nat -> Forall (in_width 8) input ->
  length blocks = 16%nat -> Forall (in_width 32) blocks ->
  ecb_rest (ecb_loop fuel nblocks input blocks sk nr out) = out ++ concat (Cipher nr K <$> blocks_of nblocks input).
Proof using HK Hnr.
  induction fuel as [|fuel IH]; intros n input blocks out Hn Hl Hi Hb Wb.
  { assert (n = 0%nat) as -> by lia. cbn. now rewrite app_nil_r. }
  cbn [ecb_loop]. destruct (Nat.leb_spec 4 n) as [H4|H4].
  - assert (Forall (in_width 8) (take 64 input)) as Ht by (now apply Forall_take). assert (length (take 64 input) = 64%nat) as Lt by (rewrite length_take; lia).
    rewrite <- (range_dec_take 16 input). change (4 * 16)%nat with 64%nat. pose proof (range_dec_width 16 _ Lt Ht) as Wd.
    rewrite IH; [| lia | rewrite length_drop; lia | now apply Forall_drop | apply length_range_dec | exact Wd].
    rewrite ecb4x_words by (exact Wd || apply length_range_dec). rewrite range_enc_dec by assumption.
    replace n with (4 + (n - 4))%nat at 2 by lia. rewrite blocks_of_add, fmap_app, concat_app, app_assoc. change (16 * 4)%nat with 64%nat.
    pose proof (blocks_of_take 4 input) as E. change (16 * 4)%nat with 64%nat in E. now rewrite E.
  - cbn [ecb_rest]. destruct (Nat.eqb_spec n 0) as [->|Hn0]; [cbn; now rewrite app_nil_r|]. f_equal.
    assert (length input = 4 * (4 * n))%nat as Hl' by lia. pose proof (range_dec_width (4 * n) input Hl' Hi) as Wd.
    set (w := br_range_dec32le _ _ ++ _). assert (length w = 16%nat) as Lw by (unfold w; rewrite length_app, length_range_dec, length_drop; lia).
    rewrite ecb4x_words; [|exact Lw | unfold w; apply Forall_app; split; [exact Wd | now apply Forall_drop]].
    assert (blocks_of 4 (br_range_enc32le w) = blocks_of n input ++ blocks_of (4 - n) (drop (16 * n) (br_range_enc32le w))) as ->.
    { replace 4%nat with (n + (4 - n))%nat at 1 by lia. rewrite blocks_of_add. f_equal. unfold w, br_range_enc32le. rewrite bind_app.
      fold (br_range_enc32le (br_range_dec32le (4 * n) input)). rewrite range_enc_dec by assumption. rewrite <- blocks_of_take, take_app_length' by lia. reflexivity. }
    rewrite fmap_app, concat_app. apply take_app_length'. rewrite length_ciphers, length_blocks_of. reflexivity.
Qed.

Lemma ecb_correct nblocks input blocks : length input = (16 * nblocks)%nat -> Forall (in_width 8) input ->
  length blocks = 16%nat -> Forall (in_width 32) blocks ->
  aes_ecb blocks input nblocks sk nr = concat (Cipher nr K <$> blocks_of nblocks input).
Proof using HK Hnr.
  intros Hl Hi Hb Wb. rewrite <- (app_nil_l (concat _)), <- (ecb_run nblocks nblocks input blocks []) by (assumption || lia).
  unfold aes_ecb, ecb_rest. now destruct (ecb_loop _ _ _ _ _ _ _) as [[[n i] b] o].
Qed.

(** * Counter mode *)

Context (iv : list Z) (Hiv : length iv = 12%nat) (Wiv : Forall (in_width 8) iv).

Definition key_block (z : Z) : list Z := Cipher nr K (iv ++ be32 z).

Definition key_stream (z : Z) (m : nat) : list Z := concat ((fun i => key_block (z + Z.of_nat i)) <$> seq 0 m).

Lemma key_stream_add z m n : key_stream z (m + n) = key_stream z m ++ key_stream (z + Z.of_nat m) n.
Proof using.
  clear. unfold key_stream. rewrite seq_app, fmap_app, concat_app. f_equal. f_equal. rewrite Nat.add_0_l, <- (Nat.add_0_r m), <- (fmap_add_seq m 0), <- list_fmap_compose, Nat.add_0_r.
  apply list_fmap_ext. intros _ i _. cbn [compose]. f_equal. lia.
Qed.

Lemma length_key_stream z m : length (key_stream z m) = (16 * m)%nat.
Proof using.
  clear. induction m as [|m IH]; [reflexivity|]. replace (S m) with (m + 1)%nat by lia. rewrite key_stream_add, length_app, IH. cbn [key_stream seq fmap list_fmap concat].
  unfold key_block. rewrite app_nil_r, length_Cipher. lia.
Qed.

Lemma ctr4x_stream z : aes_ctr4x (ivw_at iv z) sk nr = (key_stream z 4, ivw_at iv (z + 4)).
Proof using HK Hnr Hiv Wiv.
  unfold aes_ctr4x. destruct (ivw_at_width iv z Hiv Wiv) as [Hl Hw]. rewrite ecb4x_words by assumption. rewrite ivw_at_bytes by assumption.
  f_equal; [|apply ivw_at_next]. unfold key_stream, key_block. cbn [seq fmap list_fmap]. now rewrite Z.add_0_r.
Qed.

Definition ctr_rest (st : nat * list Z * list Z) : list Z :=
  let '(outlen, ivw, out) := st in if (0 <? outlen)%nat then out ++ take outlen (aes_ctr4x ivw sk nr).1 else out.

Lemma ctr_run fuel : forall outlen z m out, (outlen <= fuel)%nat -> (outlen <= 16 * m)%nat ->
  ctr_rest (ctr_loop fuel outlen (ivw_at iv z) sk nr out) = out ++ take outlen (key_stream z m).
Proof using HK Hnr Hiv Wiv.
  induction fuel as [|fuel IH]; intros outlen z m out Hf Hm; cbn [ctr_loop].
  { assert (outlen = 0%nat) as -> by lia. cbn. now rewrite app_nil_r. }
  destruct (Nat.ltb_spec 64 outlen) as [H64|H64].
  - rewrite ctr4x_stream. rewrite (IH (outlen - 64)%nat (z + 4) (m - 4)%nat) by lia. rewrite <- app_assoc. f_equal.
    replace m with (4 + (m - 4))%nat at 2 by lia. rewrite key_stream_add, take_app, length_key_stream. rewrite (take_ge (key_stream z 4)) by (rewrite length_key_stream; lia). reflexivity.
  - cbn [ctr_rest]. rewrite ctr4x_stream. cbn [fst]. destruct (Nat.ltb_spec 0 outlen); [|assert (outlen = 0%nat) as -> by lia; cbn; now rewrite app_nil_r].
    f_equal. destruct (decide (m <= 4)%nat) as [H4|H4].
    + replace 4%nat with (m + (4 - m))%nat by lia. rewrite key_stream_add. now rewrite take_app_le by (rewrite length_key_stream; lia).
    + replace m with (4 + (m - 4))%nat by lia. rewrite key_stream_add. now rewrite take_app_le by (rewrite length_key_stream; lia).
Qed.

Lemma ctr_correct outlen : aes_ctr outlen iv sk nr = take outlen (key_stream 0 ((outlen + 15) / 16)).
Proof using HK Hnr Hiv Wiv.
  assert (outlen <= 16 * ((outlen + 15) / 16))%nat as Hm.
  { pose proof (Nat.div_mod_eq (outlen + 15) 16) as E. pose proof (Nat.mod_upper_bound (outlen + 15) 16 ltac:(discriminate)) as H. revert E H. clear. lia. }
  rewrite <- (app_nil_l (take _ _)), <- (ctr_run outlen outlen 0 ((outlen + 15) / 16) []) by (exact Hm || apply Nat.le_refl).
  unfold aes_ctr, ctr_rest. change (br_swap32 0) with (br_swap32 (u32 0)). change (br_swap32 1) with (br_swap32 (u32 (0 + 1))).
  change (br_swap32 2) with (br_swap32 (u32 (0 + 2))). change (br_swap32 3) with (br_swap32 (u32 (0 + 3))). rewrite !swap32_counter.
  change (br_range_dec32le 3 iv ++ _) with (ivw_at iv 0). destruct (ctr_loop _ _ _ _ _ _) as [[o w] out]. now destruct (aes_ctr4x w sk nr).
Qed.
End Modes.

(** * The interface *)

Lemma encrypt_ecb nk key blocks input n : nk = 4%nat \/ nk = 6%nat \/ nk = 8%nat -> length key = (4 * nk)%nat -> Forall (in_width 8) key ->
  length input = (16 * n)%nat -> Forall (in_width 8) input -> length blocks = 16%nat -> Forall (in_width 32) blocks ->
  aes_ecb blocks input n (keyexp key (4 * nk) (nk + 6)) (nk + 6) = concat (aes_encrypt nk key <$> blocks_of n input).
Proof. intros Hnk Hl Hk Hi Wi Hb Wb. exact (ecb_correct (nk + 6) ltac:(lia) _ _ (keyexp_keys nk key Hnk Hl Hk) n input blocks Hi Wi Hb Wb). Qed.

Lemma encrypt_ctr nk key outlen iv : nk = 4%nat \/ nk = 6%nat \/ nk = 8%nat -> length key = (4 * nk)%nat -> Forall (in_width 8) key ->
  length iv = 12%nat -> Forall (in_width 8) iv ->
  aes_ctr outlen iv (keyexp key (4 * nk) (nk + 6)) (nk + 6) =
    take outlen (concat ((fun i => aes_encrypt nk key (iv ++ be32 (Z.of_nat i))) <$> seq 0 ((outlen + 15) / 16))).
Proof. intros Hnk Hl Hk Hi Wi. exact (ctr_correct (nk + 6) ltac:(lia) _ _ (keyexp_keys nk key Hnk Hl Hk) iv Hi Wi outlen). Qed.

(** What the modes compute under a key of [nk] words. *)
Definition modes_ok (nk : nat) (keyexp : list Z -> list Z) (ecb : list Z -> list Z -> nat -> list Z -> list Z) (ctr : nat -> list Z -> list Z -> list Z) (key : list Z) : Prop :=
  (forall blocks input n, length input = (16 * n)%nat -> Forall (in_width 8) input -> length blocks = 16%nat -> Forall (in_width 32) blocks ->
    ecb blocks input n (keyexp key) = concat (aes_encrypt nk key <$> blocks_of n input)) /\
  (forall outlen iv, length iv = 12%nat -> Forall (in_width 8) iv ->
    ctr outlen iv (keyexp key) = take outlen (concat ((fun i => aes_encrypt nk key (iv ++ be32 (Z.of_nat i))) <$> seq 0 ((outlen + 15) / 16)))).

(** C33 (equivalence).  The bit-sliced AES computes FIPS 197 for the three key sizes: ECB encrypts each block
    with the cipher of the standard (substitution by inversion in GF(2^8), rows, columns, key expansion), four
    blocks at a time, whatever the uninitialised words of a last group are; counter mode outputs the key stream
    of the 12-byte nonce followed by a 32-bit counter (which wraps around), cut to the length asked for. *)
Theorem aes_correct (key : list Z) : Forall (in_width 8) key ->
  (length key = 16%nat -> modes_ok 4 aes128_ecb_keyexp aes128_ecb aes128_ctr key) /\
  (length key = 24%nat -> modes_ok 6 aes192_ecb_keyexp aes192_ecb aes192_ctr key) /\
  (length key = 32%nat -> modes_ok 8 aes256_ecb_keyexp aes256_ecb aes256_ctr key).
Proof.
  intros Hk. repeat apply conj; intros Hl; (split; [intros blocks input n Hi Wi Hb Wb | intros outlen iv Hi Wi]).
  - exact (encrypt_ecb 4 key blocks input n ltac:(tauto) Hl Hk Hi Wi Hb Wb).
  - exact (encrypt_ctr 4 key outlen iv ltac:(tauto) Hl Hk Hi Wi).
  - exact (encrypt_ecb 6 key blocks input n ltac:(tauto) Hl Hk Hi Wi Hb Wb).
  - exact (encrypt_ctr 6 key outlen iv ltac:(tauto) Hl Hk Hi Wi).
  - exact (encrypt_ecb 8 key blocks input n ltac:(tauto) Hl Hk Hi Wi Hb Wb).
  - exact (encrypt_ctr 8 key outlen iv ltac:(tauto) Hl Hk Hi Wi).
Qed.

Lemma aes_correct_witness :
  aes128_ecb (replicate 16 7) (replicate 32 5) 2 (aes128_ecb_keyexp (replicate 16 9)) = concat (aes_encrypt 4 (replicate 16 9) <$> blocks_of 2 (replicate 32 5)) /\
  aes256_ctr 20 (replicate 12 3) (aes256_ecb_keyexp (replicate 32 9)) =
    take 20 (concat ((fun i => aes_encrypt 8 (replicate 32 9) (replicate 12 3 ++ be32 (Z.of_nat i))) <$> seq 0 2)).
Proof.
  split.
  - apply (proj1 (proj1 (aes_correct (replicate 16 9) ltac:(by_decide)) eq_refl)); [reflexivity | by_decide | reflexivity | by_decide].
  - apply (proj2 (proj2 (proj2 (aes_correct (replicate 32 9) ltac:(by_decide))) eq_refl) 20%nat); [reflexivity | by_decide].
Defined.
