(* ===== verification/SeedExpander.v ===== *)
(** SeedExpander: the seed expander of [nistseedexpander.c], AES-256 in counter mode behind a buffer of one
    block.  The reference is the key stream, of which successive calls return successive pieces. *)

From Stdlib Require Import ZArith Lia.
From stdpp Require Import base numbers list option.
From S2P Require Import Prelude Aes AesBits AesRound AesCipher AesKey AesModes.

(** * The program *)

Definition NISTSEEDEXPANDER_SEED_LEN : nat := 32.

Definition RNG_SUCCESS : Z := 0.
Definition RNG_BAD_OUTBUF : Z := -2.
Definition RNG_BAD_REQ_LEN : Z := -3.

Record AES_XOF_struct := mk_xof {
  buffer : list Z;
  buffer_pos : nat;
  length_remaining : Z;
  xof_key : list Z;
  xof_ctr : list Z
}.

Definition seedexpander_init (seed diversifier : list Z) (maxlen : Z) : AES_XOF_struct :=
  let c11 := maxlen mod 256 in
  let m := maxlen .>> 8 in
  let c10 := m mod 256 in
  let m := m .>> 8 in
  let c9 := m mod 256 in
  let m := m .>> 8 in
  let c8 := m mod 256 in
  mk_xof (replicate 16 0) 16 maxlen (take NISTSEEDEXPANDER_SEED_LEN seed) (take 8 diversifier ++ [c8; c9; c10; c11] ++ replicate 4 0).

(** [for (i = 15; i >= 12; i--)], [n] being the number of turns left. *)
Fixpoint increment (n : nat) (ctr : list Z) : list Z :=
  match n with
  | O => ctr
  | S n =>
      let i := (12 + n)%nat in
      if ctr !!! i =? 0xff then increment n (<[i := 0]> ctr) else <[i := u8 (ctr !!! i + 1)]> ctr
  end.

Section Program.
(** The contents of the array [blocks] of [aes_ecb], which is not initialised. *)
Context (blocks : list Z).

Definition AES256_ECB (key ctr : list Z) : list Z := aes256_ecb blocks ctr 1 (aes256_ecb_keyexp key).

(** The loop of [seedexpander], and the bytes written so far; [None] when [fuel] is spent. *)
Fixpoint expand_loop (fuel : nat) (ctx : AES_XOF_struct) (xlen : nat) (out : list Z) : option (AES_XOF_struct * list Z) :=
  match fuel with
  | O => None
  | S fuel =>
      let '(mk_xof buf pos remaining key ctr) := ctx in
      if (xlen =? 0)%nat then Some (ctx, out)
      else if (xlen <=? 16 - pos)%nat then Some (mk_xof buf (pos + xlen) remaining key ctr, out ++ take xlen (drop pos buf))
      else
        let out := out ++ take (16 - pos) (drop pos buf) in
        let xlen := (xlen - (16 - pos))%nat in
        let buf := AES256_ECB key ctr in
        expand_loop fuel (mk_xof buf 0 remaining key (increment 4 ctr)) xlen out
  end.

(** The returned code, the context and the bytes written to [x]; [null] says whether [x] is NULL. *)
Definition seedexpander (ctx : AES_XOF_struct) (null : bool) (xlen : nat) : option (Z * AES_XOF_struct * list Z) :=
  if null then Some (RNG_BAD_OUTBUF, ctx, [])
  else if length_remaining ctx <=? Z.of_nat xlen then Some (RNG_BAD_REQ_LEN, ctx, [])
  else
    let ctx := mk_xof (buffer ctx) (buffer_pos ctx) (length_remaining ctx - Z.of_nat xlen) (xof_key ctx) (xof_ctr ctx) in
    '(ctx, out) ← expand_loop (xlen + 2) ctx xlen [];
    Some (RNG_SUCCESS, ctx, out).
End Program.

(** Successive calls, and the bytes they return. *)
Fixpoint calls (blocks : list Z) (ctx : AES_XOF_struct) (xs : list nat) : option (AES_XOF_struct * list Z) :=
  match xs with
  | [] => Some (ctx, [])
  | x :: xs =>
      '(code, ctx, out) ← seedexpander blocks ctx false x;
      if code =? RNG_SUCCESS then '(ctx, rest) ← calls blocks ctx xs; Some (ctx, out ++ rest) else None
  end.

(** * The key stream *)

(** The counter blocks start with the diversifier and the bound on the length. *)
Definition xof_prefix (diversifier : list Z) (maxlen : Z) : list Z := diversifier ++ be32 maxlen.

Definition xof_stream (seed prefix : list Z) (n : nat) : list Z :=
  concat ((fun i => aes_encrypt 8 seed (prefix ++ be32 (Z.of_nat i))) <$> seq 0 n).

Lemma length_be32 z : length (be32 z) = 4%nat.
Proof. reflexivity. Qed.

Lemma byte_at z k : 0 <= k -> u8 (z .>> k) = (z / 2 ^ k) mod 256.
Proof. intros Hk. rewrite wrap_mod, Z.shiftr_div_pow2 by lia. reflexivity. Qed.

Lemma next_quotient z : (z + 1) / 256 = if z mod 256 =? 255 then z / 256 + 1 else z / 256.
Proof.
  pose proof (Z.div_mod z 256 ltac:(lia)) as E. pose proof (Z.mod_pos_bound z 256 ltac:(lia)) as H.
  destruct (Z.eqb_spec (z mod 256) 255); symmetry; [apply (Z.div_unique _ _ _ 0) | apply (Z.div_unique _ _ _ (z mod 256 + 1))]; lia.
Qed.

Lemma next_digit z : (z + 1) mod 256 = if z mod 256 =? 255 then 0 else z mod 256 + 1.
Proof.
  pose proof (Z.div_mod z 256 ltac:(lia)) as E. pose proof (Z.mod_pos_bound z 256 ltac:(lia)) as H.
  destruct (Z.eqb_spec (z mod 256) 255); symmetry; [apply (Z.mod_unique _ _ (z / 256 + 1)) | apply (Z.mod_unique _ _ (z / 256))]; lia.
Qed.

(** The digits of a counter in base 256. *)
Lemma be32_digits z : be32 z = [(z / 256 / 256 / 256) mod 256; (z / 256 / 256) mod 256; (z / 256) mod 256; z mod 256].
Proof.
  unfold be32. rewrite !byte_at, wrap_mod by lia. rewrite !Z.div_div by lia. reflexivity.
Qed.

Lemma increment_counter prefix z : length prefix = 12%nat -> increment 4 (prefix ++ be32 z) = prefix ++ be32 (z + 1).
Proof.
  intros Hl. do 12 (destruct prefix as [|? prefix]; [discriminate Hl|]). destruct prefix; [|discriminate Hl]. clear Hl.
  rewrite !be32_digits, next_quotient, next_digit. cbn [app increment Nat.add lookup_total list_lookup_total].
  assert (forall x, 0 <= x mod 256 < 256) as Hm by (intros x; apply Z.mod_pos_bound; lia).
  destruct (Z.eqb_spec (z mod 256) 255) as [H0|H0]; [|rewrite wrap_small; [reflexivity | unfold in_width; specialize (Hm z); lia]].
  cbn [insert list_insert lookup_total list_lookup_total]. rewrite next_quotient, next_digit.
  destruct (Z.eqb_spec ((z / 256) mod 256) 255) as [H1|H1]; [|rewrite wrap_small; [reflexivity | unfold in_width; specialize (Hm (z / 256)); lia]].
  cbn [insert list_insert lookup_total list_lookup_total]. rewrite next_quotient, next_digit.
  destruct (Z.eqb_spec ((z / 256 / 256) mod 256) 255) as [H2|H2]; [|rewrite wrap_small; [reflexivity | unfold in_width; specialize (Hm (z / 256 / 256)); lia]].
  cbn [insert list_insert lookup_total list_lookup_total]. rewrite next_digit.
  destruct (Z.eqb_spec ((z / 256 / 256 / 256) mod 256) 255) as [H3|H3]; [reflexivity|].
  rewrite wrap_small; [reflexivity | unfold in_width; specialize (Hm (z / 256 / 256 / 256)); lia].
Qed.

Section Stream.
Context (blocks : list Z) (Hb : length blocks = 16%nat) (Wb : Forall (in_width 32) blocks).
Context (seed prefix : list Z) (Hs : length seed = 32%nat) (Ws : Forall (in_width 8) seed) (Hp : length prefix = 12%nat) (Wp : Forall (in_width 8) prefix).

Abbreviation stream := (xof_stream seed prefix).

Lemma stream_S m : stream (S m) = stream m ++ aes_encrypt 8 seed (prefix ++ be32 (Z.of_nat m)).
Proof using. clear. unfold xof_stream. rewrite seq_S, fmap_app, concat_app. cbn [fmap list_fmap concat]. now rewrite app_nil_r. Qed.

Lemma length_stream m : length (stream m) = (16 * m)%nat.
Proof using. clear. induction m as [|m IH]; [reflexivity|]. rewrite stream_S, length_app, IH. unfold aes_encrypt. rewrite length_Cipher. lia. Qed.

Lemma stream_more m k : exists r, stream (m + k) = stream m ++ r.
Proof using.
  clear. induction k as [|k [r IH]]; [exists []; now rewrite Nat.add_0_r, app_nil_r|]. rewrite Nat.add_succ_r, stream_S, IH, <- app_assoc. now eexists.
Qed.

Lemma next_block m : AES256_ECB blocks seed (prefix ++ be32 (Z.of_nat m)) = aes_encrypt 8 seed (prefix ++ be32 (Z.of_nat m)).
Proof using Hb Wb Hs Ws Hp Wp.
  assert (length (prefix ++ be32 (Z.of_nat m)) = 16%nat) as Hl by (rewrite length_app, Hp; reflexivity).
  pose proof (encrypt_ecb 8 seed blocks (prefix ++ be32 (Z.of_nat m)) 1 ltac:(tauto) Hs Ws Hl ltac:(apply Forall_app; split; [exact Wp | apply be32_ok]) Hb Wb) as E.
  unfold AES256_ECB, aes256_ecb, aes256_ecb_keyexp. change (4 * 8)%nat with 32%nat in E. change (8 + 6)%nat with 14%nat in E. rewrite E.
  cbn [blocks_of seq fmap list_fmap concat]. rewrite app_nil_r, Nat.mul_0_r, drop_0, take_ge by lia. reflexivity.
Qed.

(** [n] bytes have been returned: what is left in the buffer is the stream from there on. *)
Definition xof_at (n : nat) (ctx : AES_XOF_struct) : Prop :=
  xof_key ctx = seed /\ (buffer_pos ctx <= 16)%nat /\ length (buffer ctx) = 16%nat /\
  exists m, xof_ctr ctx = prefix ++ be32 (Z.of_nat m) /\ (n + (16 - buffer_pos ctx) = 16 * m)%nat /\ drop (buffer_pos ctx) (buffer ctx) = drop n (stream m).

Lemma expand_loop_spec fuel : forall ctx n xlen out M, xof_at n ctx -> (1 <= fuel)%nat -> (xlen + buffer_pos ctx <= 16 * fuel)%nat -> (n + xlen <= 16 * M)%nat ->
  exists ctx', expand_loop blocks fuel ctx xlen out = Some (ctx', out ++ take xlen (drop n (stream M))) /\
    xof_at (n + xlen) ctx' /\ length_remaining ctx' = length_remaining ctx.
Proof using Hb Wb Hs Ws Hp Wp.
  induction fuel as [|fuel IH]; intros [buf pos rem key ctr] n xlen out M Hat Hf Hx HM; [lia|].
  destruct Hat as (Hk & Hpos & Hbuf & m & Hctr & Hn & Hd). cbn [xof_key buffer_pos buffer xof_ctr length_remaining expand_loop] in *. subst key ctr.
  destruct (Nat.eqb_spec xlen 0) as [->|H0].
  { exists (mk_xof buf pos rem seed (prefix ++ be32 (Z.of_nat m))). rewrite take_0, app_nil_r, Nat.add_0_r. split; [reflexivity|]. split; [|reflexivity].
    repeat split; try assumption. now exists m. }
  pose proof (length_stream m) as Lm.
  destruct (Nat.leb_spec xlen (16 - pos)) as [Hle|Hgt].
  - exists (mk_xof buf (pos + xlen) rem seed (prefix ++ be32 (Z.of_nat m))).
    split; [|split; [split; [reflexivity|]; cbn [buffer_pos buffer xof_ctr]; split; [lia | split; [exact Hbuf|]]; exists m; split; [reflexivity | split; [lia|]] | reflexivity]].
    + do 3 f_equal. rewrite Hd. destruct (Nat.le_ge_cases m M) as [H|H]; [destruct (stream_more m (M - m)) as [r E] | destruct (stream_more M (m - M)) as [r E]; pose proof (length_stream M) as LM].
      * replace (m + (M - m))%nat with M in E by lia. rewrite E, drop_app_le by lia. now rewrite take_app_le by (rewrite length_drop; lia).
      * replace (M + (m - M))%nat with m in E by lia. rewrite E, drop_app_le by lia. now rewrite take_app_le by (rewrite length_drop; lia).
    + now rewrite <- drop_drop, Hd, drop_drop.
  - assert (m < M)%nat as HmM by lia. rewrite next_block. rewrite increment_counter by exact Hp. replace (Z.of_nat m + 1) with (Z.of_nat (S m)) by lia.
    set (b := aes_encrypt 8 seed (prefix ++ be32 (Z.of_nat m))). set (ctx := mk_xof b 0 rem seed (prefix ++ be32 (Z.of_nat (S m)))).
    assert (xof_at (16 * m) ctx) as Hat.
    { split; [reflexivity | split; [cbn; lia | split; [apply length_Cipher|]]]. exists (S m). split; [reflexivity | split; [cbn [ctx buffer_pos]; lia|]].
      cbn [ctx buffer buffer_pos]. rewrite drop_0, stream_S. symmetry. apply drop_app_length'. symmetry. exact Lm. }
    destruct (IH ctx (16 * m)%nat (xlen - (16 - pos))%nat (out ++ take (16 - pos) (drop pos buf)) M Hat ltac:(lia) ltac:(cbn [ctx buffer_pos]; lia) ltac:(lia)) as (ctx' & -> & Ha & Hr).
    exists ctx'. split; [|split; [replace (n + xlen)%nat with (16 * m + (xlen - (16 - pos)))%nat by lia; exact Ha | exact Hr]].
    do 2 f_equal. rewrite <- app_assoc. f_equal. destruct (stream_more m (M - m)) as [r E]. replace (m + (M - m))%nat with M in E by lia.
    rewrite Hd, E, drop_app_length' by (symmetry; exact Lm). rewrite drop_app_le, take_app by lia. rewrite length_drop, Lm.
    rewrite !(take_ge (drop n (stream m))) by (rewrite length_drop; lia). do 3 f_equal. lia.
Qed.

(** A call returns the next bytes of the stream. *)
Lemma seedexpander_spec ctx n xlen M : xof_at n ctx -> Z.of_nat xlen < length_remaining ctx -> (n + xlen <= 16 * M)%nat ->
  exists ctx', seedexpander blocks ctx false xlen = Some (RNG_SUCCESS, ctx', take xlen (drop n (stream M))) /\
    xof_at (n + xlen) ctx' /\ length_remaining ctx' = length_remaining ctx - Z.of_nat xlen.
Proof using Hb Wb Hs Ws Hp Wp.
  intros Hat Hx HM. unfold seedexpander. destruct (Z.leb_spec (length_remaining ctx) (Z.of_nat xlen)); [lia|].
  set (ctx1 := mk_xof _ _ _ _ _). assert (xof_at n ctx1) as H1 by exact Hat.
  destruct (expand_loop_spec (xlen + 2) ctx1 n xlen [] M H1 ltac:(lia)) as (ctx' & -> & Ha & Hr); [destruct Hat as (_ & Hpos & _); cbn [ctx1 buffer_pos]; lia | exact HM|].
  exists ctx'. split; [reflexivity | split; [exact Ha | exact Hr]].
Qed.

Lemma calls_spec xs : forall ctx n M, xof_at n ctx -> Z.of_nat (sum_list xs) < length_remaining ctx -> (n + sum_list xs <= 16 * M)%nat ->
  exists ctx', calls blocks ctx xs = Some (ctx', take (sum_list xs) (drop n (stream M))) /\
    xof_at (n + sum_list xs) ctx' /\ length_remaining ctx' = length_remaining ctx - Z.of_nat (sum_list xs).
Proof using Hb Wb Hs Ws Hp Wp.
  induction xs as [|x xs IH]; intros ctx n M Hat Hx HM; cbn [calls sum_list] in *.
  { exists ctx. rewrite Nat.add_0_r, Z.sub_0_r. split; [reflexivity | split; [exact Hat | reflexivity]]. }
  change (sum_list_with id xs) with (sum_list xs) in *. cbn [id] in *.
  destruct (seedexpander_spec ctx n x M Hat ltac:(lia) ltac:(lia)) as (ctx1 & -> & H1 & R1). cbn [mbind option_bind]. rewrite Z.eqb_refl.
  destruct (IH ctx1 (n + x)%nat M H1 ltac:(lia) ltac:(lia)) as (ctx2 & -> & H2 & R2). cbn [mbind option_bind].
  exists ctx2. split; [|split; [now rewrite Nat.add_assoc | lia]].
  do 2 f_equal. rewrite <- (drop_drop _ x n). apply take_take_drop.
Qed.

Lemma init_at diversifier maxlen : length diversifier = 8%nat -> prefix = xof_prefix diversifier maxlen ->
  xof_at 0 (seedexpander_init seed diversifier maxlen).
Proof using Hs.
  clear Hp Wp Wb Hb blocks. intros Hd Ep. unfold seedexpander_init. rewrite (take_ge diversifier), (take_ge seed) by (unfold NISTSEEDEXPANDER_SEED_LEN; lia).
  split; [reflexivity|]. split; [cbn; lia|]. split; [reflexivity|]. exists 0%nat. split; [|split; reflexivity]. cbn [xof_ctr].
  rewrite Ep. unfold xof_prefix. rewrite <- app_assoc. f_equal. unfold be32 at 1. rewrite !Z.shiftr_shiftr, !wrap_mod by lia. reflexivity.
Qed.
End Stream.

(** The seed expander returns the key stream of AES-256 in counter mode: however the requests
    are cut, as long as their total is below [maxlen], what they return is the beginning of the stream of the
    seed and of the diversifier followed by [maxlen]; the length that remains is kept, a request that is not
    below it is refused and changes nothing, and so is a null output. *)
Theorem seedexpander_correct (blocks seed diversifier : list Z) (maxlen : Z) (xs : list nat) :
  length blocks = 16%nat -> Forall (in_width 32) blocks -> length seed = 32%nat -> Forall (in_width 8) seed ->
  length diversifier = 8%nat -> Forall (in_width 8) diversifier -> Z.of_nat (sum_list xs) < maxlen ->
  exists ctx,
    calls blocks (seedexpander_init seed diversifier maxlen) xs =
      Some (ctx, take (sum_list xs) (xof_stream seed (xof_prefix diversifier maxlen) (sum_list xs))) /\
    length_remaining ctx = maxlen - Z.of_nat (sum_list xs) /\
    (forall x, length_remaining ctx <= Z.of_nat x -> seedexpander blocks ctx false x = Some (RNG_BAD_REQ_LEN, ctx, [])) /\
    (forall x, seedexpander blocks ctx true x = Some (RNG_BAD_OUTBUF, ctx, [])).
Proof.
  intros Hb Wb Hs Ws Hd Wd Hx. set (prefix := xof_prefix diversifier maxlen).
  assert (length prefix = 12%nat) as Hp by (unfold prefix, xof_prefix; rewrite length_app, Hd; reflexivity).
  assert (Forall (in_width 8) prefix) as Wp by (apply Forall_app; split; [exact Wd | apply be32_ok]).
  pose proof (init_at seed prefix Hs diversifier maxlen Hd eq_refl) as H0.
  destruct (calls_spec blocks Hb Wb seed prefix Hs Ws Hp Wp xs _ 0%nat (sum_list xs) H0 Hx ltac:(lia)) as (ctx & E & _ & Hr).
  exists ctx. split; [exact E | split; [exact Hr | split; [|reflexivity]]]. intros x Hle. unfold seedexpander. destruct (Z.leb_spec (length_remaining ctx) (Z.of_nat x)); [reflexivity | lia].
Qed.

Lemma seedexpander_correct_witness : exists ctx,
  calls (replicate 16 0) (seedexpander_init (replicate 32 1) (replicate 8 2) 100) [5%nat; 30%nat] =
    Some (ctx, take 35 (xof_stream (replicate 32 1) (xof_prefix (replicate 8 2) 100) 35)) /\
  seedexpander (replicate 16 0) ctx false 65 = Some (RNG_BAD_REQ_LEN, ctx, []).
Proof.
  destruct (seedexpander_correct (replicate 16 0) (replicate 32 1) (replicate 8 2) 100 [5%nat; 30%nat]) as (ctx & H1 & H2 & H3 & _);
    [reflexivity | by_decide | reflexivity | by_decide | reflexivity | by_decide | reflexivity |].
  exists ctx. split; [exact H1|]. apply H3. rewrite H2. discriminate.
Defined.
