(* ===== verification/Prng.v ===== *)
(** Prng: the ChaCha20-based generator of [rng.c] and the accessors of [inner.h] that feed the sampler.

    The state bytes [d] are read and written as 32-bit and 64-bit words in the code; the model keeps the
    64 words of the 256 bytes, and a 64-bit word is two of them, low half first (a little-endian
    target, which the interleaving of the output and the packing of the counter presuppose). *)

From Stdlib Require Import ZArith Lia.
From stdpp Require Import base numbers list option.
From S2P Require Import Prelude RpoSponge Keccak Shake HashToPoint.

Record prng := mk_prng { buf_d : list Z; ptr : nat; state_d : list Z }.

Definition CW : list Z := [0x61707865; 0x3320646e; 0x79622d32; 0x6b206574].

(** The macro of [prng_refill]: [state[x] += state[y]], [state[x] ^= state[y]] and the rotation. *)
Definition q_add (x y : nat) (state : list Z) : list Z := <[x := u32 (state !!! x + state !!! y)]> state.
Definition q_xor (x y : nat) (state : list Z) : list Z := <[x := (state !!! x) .^ (state !!! y)]> state.
Definition q_rot (x : nat) (n : Z) (state : list Z) : list Z :=
  <[x := u32 ((state !!! x) .<< n) .| ((state !!! x) .>> (32 - n))]> state.

Definition QROUND (a b c d : nat) (state : list Z) : list Z :=
  let state := q_add a b state in
  let state := q_xor d a state in
  let state := q_rot d 16 state in
  let state := q_add c d state in
  let state := q_xor b c state in
  let state := q_rot b 12 state in
  let state := q_add a b state in
  let state := q_xor d a state in
  let state := q_rot d 8 state in
  let state := q_add c d state in
  let state := q_xor b c state in
  q_rot b 7 state.

(** The body of the loop on [i]: columns, then diagonals. *)
Definition double_round (state : list Z) : list Z :=
  let state := QROUND 0 4 8 12 state in
  let state := QROUND 1 5 9 13 state in
  let state := QROUND 2 6 10 14 state in
  let state := QROUND 3 7 11 15 state in
  let state := QROUND 0 5 10 15 state in
  let state := QROUND 1 6 11 12 state in
  let state := QROUND 2 7 8 13 state in
  QROUND 3 4 9 14 state.

(** The words of one of the eight blocks. *)
Definition refill_block (d : list Z) (cc : Z) : list Z :=
  let state := CW ++ take 12 d in
  let state := <[14%nat := (state !!! 14%nat) .^ u32 cc]> state in
  let state := <[15%nat := (state !!! 15%nat) .^ u32 (cc .>> 32)]> state in
  let state := for_up 0 10 (fun _ state => double_round state) state in
  let state := for_up 0 4 (fun v state => <[v := u32 (state !!! v + CW !!! v)]> state) state in
  let state := for_up 4 14 (fun v state => <[v := u32 (state !!! v + d !!! (v - 4)%nat)]> state) state in
  let state := <[14%nat := u32 (state !!! 14%nat + ((d !!! 10%nat) .^ u32 cc))]> state in
  <[15%nat := u32 (state !!! 15%nat + ((d !!! 11%nat) .^ u32 (cc .>> 32)))]> state.

(** The interleaved output of block [u]. *)
Definition interleave (u : nat) (state buf : list Z) : list Z :=
  for_up 0 16 (fun v buf =>
    <[(4 * u + 32 * v + 3)%nat := u8 ((state !!! v) .>> 24)]> (<[(4 * u + 32 * v + 2)%nat := u8 ((state !!! v) .>> 16)]>
    (<[(4 * u + 32 * v + 1)%nat := u8 ((state !!! v) .>> 8)]> (<[(4 * u + 32 * v)%nat := u8 (state !!! v)]> buf)))) buf.

Definition prng_refill (p : prng) : prng :=
  let d := state_d p in
  let cc := (d !!! 12%nat) .| ((d !!! 13%nat) .<< 32) in
  let '(cc, buf) := for_up 0 8 (fun u '(cc, buf) =>
    (u64 (cc + 1), interleave u (refill_block d cc) buf)) (cc, buf_d p) in
  mk_prng buf 0 (<[13%nat := cc .>> 32]> (<[12%nat := u32 cc]> d)).

(** [p] holds arbitrary values before the call. *)
Definition prng_init (p : prng) (src : inner_shake256_context) : option (inner_shake256_context * prng) :=
  '(src, tmp) ← shake256_inc_squeeze 56 src;
  let d := for_up 0 14 (fun i d =>
    <[i := (tmp !!! (4 * i)%nat) .| (u32 ((tmp !!! (4 * i + 1)%nat) .<< 8)) .| (u32 ((tmp !!! (4 * i + 2)%nat) .<< 16))
           .| (u32 ((tmp !!! (4 * i + 3)%nat) .<< 24))]> d) (state_d p) in
  let tl := d !!! 12%nat in
  let th := d !!! 13%nat in
  let w := u64 (tl + u64 (th .<< 32)) in
  Some (src, prng_refill (mk_prng (buf_d p) (ptr p) (<[13%nat := w .>> 32]> (<[12%nat := u32 w]> d)))).

(** [while (len > 0)]: the bytes written so far are [dst]. *)
Fixpoint get_bytes_loop (fuel : nat) (p : prng) (len : nat) (dst : list Z) : option (prng * list Z) :=
  if (len =? 0)%nat then Some (p, dst)
  else match fuel with
       | O => None
       | S fuel =>
           let clen := (512 - ptr p)%nat in
           let clen := if (len <? clen)%nat then len else clen in
           let dst := dst ++ take clen (buf_d p) in
           let p := mk_prng (buf_d p) (ptr p + clen) (state_d p) in
           let p := if (ptr p =? 512)%nat then prng_refill p else p in
           get_bytes_loop fuel p (len - clen) dst
       end.

Definition prng_get_bytes (p : prng) (len : nat) : option (prng * list Z) := get_bytes_loop (S len) p len [].

Definition prng_get_u64 (p : prng) : prng * Z :=
  let '(p, u) := if (512 - 9 <=? ptr p)%nat then (prng_refill p, 0%nat) else (p, ptr p) in
  let d k := buf_d p !!! (u + k)%nat in
  (mk_prng (buf_d p) (u + 8) (state_d p),
   d 0%nat .| (d 1%nat .<< 8) .| (d 2%nat .<< 16) .| (d 3%nat .<< 24) .| (d 4%nat .<< 32) .| (d 5%nat .<< 40)
   .| (d 6%nat .<< 48) .| (d 7%nat .<< 56)).

Definition prng_get_u8 (p : prng) : prng * Z :=
  let v := buf_d p !!! ptr p in
  let p := mk_prng (buf_d p) (S (ptr p)) (state_d p) in
  (if (ptr p =? 512)%nat then prng_refill p else p, v).

(** * ChaCha20, on the rows of the matrix of words *)

Definition rotl32 (x n : Z) : Z := u32 (x .<< n) .| (x .>> (32 - n)).

Definition quarter_round (x : Z * Z * Z * Z) : Z * Z * Z * Z :=
  let '(a, b, c, d) := x in
  let a := u32 (a + b) in let d := rotl32 (d .^ a) 16 in
  let c := u32 (c + d) in let b := rotl32 (b .^ c) 12 in
  let a := u32 (a + b) in let d := rotl32 (d .^ a) 8 in
  let c := u32 (c + d) in let b := rotl32 (b .^ c) 7 in
  (a, b, c, d).

Definition rows : Type := list Z * list Z * list Z * list Z.

(** A quarter round on each column. *)
Definition column_round (m : rows) : rows :=
  let '(ra, rb, rc, rd) := m in
  let q v := quarter_round (ra !!! v, rb !!! v, rc !!! v, rd !!! v) in
  ((fun v => (q v).1.1.1) <$> seq 0 4, (fun v => (q v).1.1.2) <$> seq 0 4, (fun v => (q v).1.2) <$> seq 0 4,
   (fun v => (q v).2) <$> seq 0 4).

Definition rot_row (k : nat) (r : list Z) : list Z := drop k r ++ take k r.

(** The diagonals are the columns of the matrix whose rows are rotated by 0, 1, 2, 3. *)
Definition diagonal_round (m : rows) : rows :=
  let '(ra, rb, rc, rd) := m in
  let '(ra, rb, rc, rd) := column_round (ra, rot_row 1 rb, rot_row 2 rc, rot_row 3 rd) in
  (ra, rot_row 3 rb, rot_row 2 rc, rot_row 1 rd).

Definition to_rows (s : list Z) : rows := (take 4 s, take 4 (drop 4 s), take 4 (drop 8 s), drop 12 s).
Definition of_rows (m : rows) : list Z := let '(ra, rb, rc, rd) := m in ra ++ rb ++ rc ++ rd.

(** The block function: a key of eight words and four words of counter and nonce. *)
Definition chacha_block (key iv : list Z) : list Z :=
  let s := CW ++ key ++ iv in
  zip_with (fun x y => u32 (x + y)) (of_rows (Nat.iter 10 (fun m => diagonal_round (column_round m)) (to_rows s))) s.

(** The block of RFC 8439, section 2.3.2. *)
Example chacha_rfc8439 :
  chacha_block [0x03020100; 0x07060504; 0x0b0a0908; 0x0f0e0d0c; 0x13121110; 0x17161514; 0x1b1a1918; 0x1f1e1d1c]
    [0x00000001; 0x09000000; 0x4a000000; 0x00000000] =
  [0xe4e7f110; 0x15593bd1; 0x1fdd0f50; 0xc47120a3; 0xc7f4d1c7; 0x0368c033; 0x9aaa2204; 0x4e6cd4c3;
   0x466482d2; 0x09aa9f07; 0x05d7c214; 0xa2028bd9; 0xd19c12b5; 0xb94e16de; 0xe883d0cb; 0x4e3c50a2].
Proof. vm_compute. reflexivity. Qed.

(** * The quarter round on the array *)

Section Cells.
Context (a b c d : nat) (s : list Z).
Context (Hab : a <> b) (Hac : a <> c) (Had : a <> d) (Hbc : b <> c) (Hbd : b <> d) (Hcd : c <> d).
Context (Ha : (a < length s)%nat) (Hb : (b < length s)%nat) (Hc : (c < length s)%nat) (Hd : (d < length s)%nat).

(** [s] with the four words of a quarter round replaced. *)
Definition cells (x : Z * Z * Z * Z) : list Z := <[a := x.1.1.1]> (<[b := x.1.1.2]> (<[c := x.1.2]> (<[d := x.2]> s))).

Ltac cell := intros; unfold cells; cbn [fst snd];
  repeat first [rewrite list_lookup_total_insert_eq by (rewrite ?length_insert; assumption)
               | rewrite list_lookup_total_insert_ne by congruence]; try reflexivity.

Lemma cells_a x : cells x !!! a = x.1.1.1. Proof using All. cell. Qed.
Lemma cells_b x : cells x !!! b = x.1.1.2. Proof using All. cell. Qed.
Lemma cells_c x : cells x !!! c = x.1.2. Proof using All. cell. Qed.
Lemma cells_d x : cells x !!! d = x.2. Proof using All. cell. Qed.

Lemma set_a x v : <[a := v]> (cells x) = cells (v, x.1.1.2, x.1.2, x.2).
Proof using All. unfold cells; cbn [fst snd]. now rewrite list_insert_insert_eq. Qed.

Lemma set_b x v : <[b := v]> (cells x) = cells (x.1.1.1, v, x.1.2, x.2).
Proof using All. unfold cells; cbn [fst snd]. now rewrite list_insert_insert_ne, list_insert_insert_eq by congruence. Qed.

Lemma set_c x v : <[c := v]> (cells x) = cells (x.1.1.1, x.1.1.2, v, x.2).
Proof using All.
  unfold cells; cbn [fst snd]. rewrite (list_insert_insert_ne _ c a), (list_insert_insert_ne _ c b) by congruence.
  now rewrite list_insert_insert_eq.
Qed.

Lemma set_d x v : <[d := v]> (cells x) = cells (x.1.1.1, x.1.1.2, x.1.2, v).
Proof using All.
  unfold cells; cbn [fst snd].
  rewrite (list_insert_insert_ne _ d a), (list_insert_insert_ne _ d b), (list_insert_insert_ne _ d c) by congruence.
  now rewrite list_insert_insert_eq.
Qed.

Lemma cells_id : cells (s !!! a, s !!! b, s !!! c, s !!! d) = s.
Proof using All.
  unfold cells; cbn [fst snd]. rewrite (list_insert_id s d) by now apply list_lookup_lookup_total_lt.
  rewrite (list_insert_id s c) by now apply list_lookup_lookup_total_lt.
  rewrite (list_insert_id s b) by now apply list_lookup_lookup_total_lt.
  apply list_insert_id. now apply list_lookup_lookup_total_lt.
Qed.

Context (va vb vc vd : Z).
Abbreviation cur := (cells (va, vb, vc, vd)).

Lemma add_ab : q_add a b cur = cells (u32 (va + vb), vb, vc, vd).
Proof using All. unfold q_add. now rewrite cells_a, cells_b, set_a. Qed.
Lemma add_cd : q_add c d cur = cells (va, vb, u32 (vc + vd), vd).
Proof using All. unfold q_add. now rewrite cells_c, cells_d, set_c. Qed.
Lemma xor_da : q_xor d a cur = cells (va, vb, vc, vd .^ va).
Proof using All. unfold q_xor. now rewrite cells_d, cells_a, set_d. Qed.
Lemma xor_bc : q_xor b c cur = cells (va, vb .^ vc, vc, vd).
Proof using All. unfold q_xor. now rewrite cells_b, cells_c, set_b. Qed.
Lemma rot_d n : q_rot d n cur = cells (va, vb, vc, rotl32 vd n).
Proof using All. unfold q_rot. now rewrite cells_d, set_d. Qed.
Lemma rot_b n : q_rot b n cur = cells (va, rotl32 vb n, vc, vd).
Proof using All. unfold q_rot. now rewrite cells_b, set_b. Qed.
End Cells.

Lemma QROUND_spec a b c d s :
  a <> b -> a <> c -> a <> d -> b <> c -> b <> d -> c <> d ->
  (a < length s)%nat -> (b < length s)%nat -> (c < length s)%nat -> (d < length s)%nat ->
  QROUND a b c d s = cells a b c d s (quarter_round (s !!! a, s !!! b, s !!! c, s !!! d)).
Proof.
  intros. rewrite <- (cells_id a b c d s) at 1 by assumption. unfold QROUND. cbv zeta.
  rewrite add_ab, xor_da, rot_d, add_cd, xor_bc, rot_b, add_ab, xor_da, rot_d, add_cd, xor_bc, rot_b by assumption.
  reflexivity.
Qed.

(** * The rounds *)

#[local] Opaque quarter_round QROUND.

Ltac sixteen s Hl := do 16 (destruct s as [|? s]; [discriminate Hl|]); destruct s; [|discriminate Hl]; clear Hl.

Ltac qround a b c d :=
  rewrite (QROUND_spec a b c d) by (try discriminate; cbn; lia); unfold cells;
  cbn [insert list_insert alter list_alter lookup_total list_lookup_total fst snd].

(** The four columns. *)
Lemma columns_spec s :
  length s = 16%nat ->
  QROUND 3 7 11 15 (QROUND 2 6 10 14 (QROUND 1 5 9 13 (QROUND 0 4 8 12 s))) = of_rows (column_round (to_rows s)).
Proof.
  intros Hl. sixteen s Hl. qround 0%nat 4%nat 8%nat 12%nat. qround 1%nat 5%nat 9%nat 13%nat.
  qround 2%nat 6%nat 10%nat 14%nat. qround 3%nat 7%nat 11%nat 15%nat. reflexivity.
Qed.

(** The four diagonals. *)
Lemma diagonals_spec s :
  length s = 16%nat ->
  QROUND 3 4 9 14 (QROUND 2 7 8 13 (QROUND 1 6 11 12 (QROUND 0 5 10 15 s))) = of_rows (diagonal_round (to_rows s)).
Proof.
  intros Hl. sixteen s Hl. qround 0%nat 5%nat 10%nat 15%nat. qround 1%nat 6%nat 11%nat 12%nat.
  qround 2%nat 7%nat 8%nat 13%nat. qround 3%nat 4%nat 9%nat 14%nat. reflexivity.
Qed.

Definition rows_ok (m : rows) : Prop :=
  length m.1.1.1 = 4%nat /\ length m.1.1.2 = 4%nat /\ length m.1.2 = 4%nat /\ length m.2 = 4%nat.

Lemma to_of_rows m : rows_ok m -> to_rows (of_rows m) = m.
Proof.
  destruct m as [[[ra rb] rc] rd]. intros (Ha & Hb & Hc & Hd). cbn in *.
  do 5 (destruct ra as [|? ra]; try discriminate Ha). do 5 (destruct rb as [|? rb]; try discriminate Hb).
  do 5 (destruct rc as [|? rc]; try discriminate Hc). do 5 (destruct rd as [|? rd]; try discriminate Hd). reflexivity.
Qed.

Lemma column_round_ok m : rows_ok (column_round m).
Proof. destruct m as [[[ra rb] rc] rd]. repeat split. Qed.

Lemma diagonal_round_ok m : rows_ok (diagonal_round m).
Proof.
  destruct m as [[[ra rb] rc] rd]. unfold diagonal_round.
  destruct (column_round (ra, rot_row 1 rb, rot_row 2 rc, rot_row 3 rd)) as [[[ra' rb'] rc'] rd'] eqn:E.
  pose proof (column_round_ok (ra, rot_row 1 rb, rot_row 2 rc, rot_row 3 rd)) as H. rewrite E in H.
  destruct H as (Ha & Hb & Hc & Hd). cbn [fst snd] in *. unfold rows_ok, rot_row. cbn [fst snd].
  rewrite !length_app, !length_take, !length_drop. lia.
Qed.

Lemma of_rows_length m : rows_ok m -> length (of_rows m) = 16%nat.
Proof. destruct m as [[[ra rb] rc] rd]. intros (Ha & Hb & Hc & Hd). cbn in *. rewrite !length_app. lia. Qed.

Lemma to_rows_ok s : length s = 16%nat -> rows_ok (to_rows s) /\ of_rows (to_rows s) = s.
Proof. intros Hl. sixteen s Hl. repeat split. Qed.

Lemma double_round_rows s :
  length s = 16%nat -> double_round s = of_rows (diagonal_round (column_round (to_rows s))).
Proof.
  intros Hl. unfold double_round. cbv zeta. rewrite columns_spec by done.
  rewrite diagonals_spec by (apply of_rows_length, column_round_ok). now rewrite to_of_rows by apply column_round_ok.
Qed.

Lemma rounds_spec n s :
  length s = 16%nat ->
  for_up 0 n (fun _ state => double_round state) s =
    of_rows (Nat.iter n (fun m => diagonal_round (column_round m)) (to_rows s)) /\
  rows_ok (Nat.iter n (fun m => diagonal_round (column_round m)) (to_rows s)).
Proof.
  intros Hl. induction n as [|n [IH Hok]].
  - split; [symmetry|]; now apply to_rows_ok.
  - rewrite for_up_snoc by lia. rewrite IH. cbn [Nat.iter nat_rect]. split; [|apply diagonal_round_ok].
    rewrite double_round_rows by now apply of_rows_length. now rewrite to_of_rows.
Qed.

(** The words that [refill_block] produces. *)
Lemma refill_block_chacha d cc :
  (14 <= length d)%nat ->
  refill_block d cc =
    chacha_block (take 8 d) [d !!! 8%nat; d !!! 9%nat; (d !!! 10%nat) .^ u32 cc; (d !!! 11%nat) .^ u32 (cc .>> 32)].
Proof.
  intros Hl. do 14 (destruct d as [|? d]; [cbn in Hl; lia|]). clear Hl. unfold refill_block, chacha_block. cbv zeta.
  match goal with |- context [for_up 0 10 _ ?s] => set (init := s) end.
  assert (length init = 16%nat) as Hi by reflexivity. destruct (rounds_spec 10 init Hi) as [-> Hok].
  change (to_rows (CW ++ _ ++ _)) with (to_rows init).
  apply of_rows_length in Hok. revert Hok. generalize (of_rows (Nat.iter 10 (fun m => diagonal_round (column_round m)) (to_rows init))).
  intros r Hr. sixteen r Hr. reflexivity.
Qed.

(** * The buffer of output bytes *)

(** Byte [j] of a word. *)
Definition word_byte (w : Z) (j : nat) : Z := u8 (w .>> (8 * Z.of_nat j)).

Lemma put_word_lookup (buf : list Z) base w k :
  (base + 4 <= length buf)%nat ->
  <[(base + 3)%nat := u8 (w .>> 24)]> (<[(base + 2)%nat := u8 (w .>> 16)]>
    (<[(base + 1)%nat := u8 (w .>> 8)]> (<[base := u8 w]> buf))) !!! k =
  if ((base <=? k) && (k <? base + 4))%nat then word_byte w (k - base) else buf !!! k.
Proof.
  intros Hl. destruct (Nat.leb_spec base k); [destruct (Nat.ltb_spec k (base + 4))|]; cbn [andb].
  - assert (k = base \/ k = base + 1 \/ k = base + 2 \/ k = base + 3)%nat as Hk by lia.
    destruct Hk as [-> | [-> | [-> | ->]]];
      repeat first [rewrite list_lookup_total_insert_eq by (rewrite ?length_insert; lia)
                   | rewrite list_lookup_total_insert_ne by lia]; unfold word_byte.
    + now rewrite Nat.sub_diag.
    + now replace (base + 1 - base)%nat with 1%nat by lia.
    + now replace (base + 2 - base)%nat with 2%nat by lia.
    + now replace (base + 3 - base)%nat with 3%nat by lia.
  - now rewrite !list_lookup_total_insert_ne by lia.
  - now rewrite !list_lookup_total_insert_ne by lia.
Qed.

(** Byte [k] of the buffer belongs to block [lane k], of which it is a byte of word [k / 32]. *)
Definition lane (k : nat) : nat := ((k / 4) mod 8)%nat.

Lemma interleave_slot u v k :
  (u < 8)%nat -> ((4 * u + 32 * v <=? k) && (k <? 4 * u + 32 * v + 4))%nat = ((k / 32 =? v) && (lane k =? u))%nat.
Proof.
  intros Hu. unfold lane. assert (k = 32 * (k / 32) + 4 * ((k / 4) mod 8) + k mod 4)%nat as Hk.
  { assert (k / 32 = k / 4 / 8)%nat as -> by now rewrite Nat.Div0.div_div.
    pose proof (Nat.div_mod_eq k 4). pose proof (Nat.div_mod_eq (k / 4) 8). lia. }
  pose proof (Nat.mod_upper_bound k 4). pose proof (Nat.mod_upper_bound (k / 4) 8). apply eq_true_iff_eq.
  rewrite !andb_true_iff, !Nat.eqb_eq, Nat.leb_le, Nat.ltb_lt. lia.
Qed.

Lemma slot_offset k u v : lane k = u -> (k / 32)%nat = v -> (k - (4 * u + 32 * v))%nat = (k mod 4)%nat.
Proof.
  intros <- <-. unfold lane. assert (k / 32 = k / 4 / 8)%nat as -> by now rewrite Nat.Div0.div_div.
  pose proof (Nat.div_mod_eq k 4). pose proof (Nat.div_mod_eq (k / 4) 8). lia.
Qed.

Lemma interleave_lookup u state buf :
  (u < 8)%nat -> length buf = 512%nat ->
  length (interleave u state buf) = 512%nat /\
  forall k, (k < 512)%nat -> interleave u state buf !!! k =
    if (lane k =? u)%nat then word_byte (state !!! (k / 32)%nat) (k mod 4) else buf !!! k.
Proof.
  intros Hu Hl. unfold interleave.
  set (body := fun (v : nat) (b : list Z) => _).
  enough (length (for_up 0 16 body buf) = 512%nat /\ forall k, (k < 512)%nat -> for_up 0 16 body buf !!! k =
    if ((k / 32 <? 16) && (lane k =? u))%nat then word_byte (state !!! (k / 32)%nat) (k mod 4) else buf !!! k) as [Hr Hk].
  { split; [done|]. intros k Hlt. rewrite Hk by done. assert (k / 32 < 16)%nat as ->%Nat.ltb_lt; [|done].
    apply Nat.Div0.div_lt_upper_bound. lia. }
  apply (for_up_inv body (fun v b => length b = 512%nat /\ forall k, (k < 512)%nat -> b !!! k =
    if ((k / 32 <? v) && (lane k =? u))%nat then word_byte (state !!! (k / 32)%nat) (k mod 4) else buf !!! k)); [lia | |].
  - split; [done|]. intros k _. now destruct (Nat.ltb_spec (k / 32) 0); [lia|].
  - intros v b Hv [Hb Hk]. unfold body. split; [now rewrite !length_insert|]. intros k Hlt.
    rewrite put_word_lookup by lia. rewrite interleave_slot, Hk by done.
    destruct (Nat.eqb_spec (lane k) u) as [Hlane|]; [|now rewrite !andb_false_r]. rewrite !andb_true_r.
    destruct (Nat.eqb_spec (k / 32) v) as [Hv'|], (Nat.ltb_spec (k / 32) v), (Nat.ltb_spec (k / 32) (S v)); try lia; try done.
    now rewrite (slot_offset k u v), Hv'.
Qed.

(** * Refilling *)

(** The 64-bit counter at offset 48 of the state bytes. *)
Definition counter (d : list Z) : Z := d !!! 12%nat + 2 ^ 32 * (d !!! 13%nat).

(** The block of ChaCha20 under the key in words 0-7, at counter [c]: the IV is words 8-11, the
    counter is XORed into its last two words. *)
Definition keystream_block (d : list Z) (c : Z) : list Z :=
  chacha_block (take 8 d) [d !!! 8%nat; d !!! 9%nat; (d !!! 10%nat) .^ (c mod 2 ^ 32); (d !!! 11%nat) .^ (c / 2 ^ 32)].

(** The output of eight consecutive blocks, words and blocks interleaved. *)
Definition keystream (d : list Z) (c : Z) : list Z :=
  (fun k => word_byte (keystream_block d ((c + Z.of_nat (lane k)) mod 2 ^ 64) !!! (k / 32)%nat) (k mod 4)) <$> seq 0 512.

(** The buffer is 512 bytes, of which one at least is unread; the state is 64 words. *)
Record prng_ok (p : prng) : Prop := {
  ok_buf : length (buf_d p) = 512%nat;
  ok_bytes : Forall (in_width 8) (buf_d p);
  ok_ptr : (ptr p < 512)%nat;
  ok_state : length (state_d p) = 64%nat;
  ok_words : Forall (in_width 32) (state_d p)
}.

#[export] Instance prng_ok_dec p : Decision (prng_ok p).
Proof.
  refine (cast_if_and5 (decide (length (buf_d p) = 512%nat)) (decide (Forall (in_width 8) (buf_d p)))
    (decide (ptr p < 512)%nat) (decide (length (state_d p) = 64%nat)) (decide (Forall (in_width 32) (state_d p))));
    abstract (try (split; assumption); intros []; contradiction).
Defined.

Lemma word_byte_width w j : in_width 8 (word_byte w j).
Proof. apply wrap_range. lia. Qed.

Lemma counter_read d :
  in_width 32 (d !!! 12%nat) -> in_width 32 (d !!! 13%nat) ->
  (d !!! 12%nat) .| ((d !!! 13%nat) .<< 32) = counter d /\ in_width 64 (counter d).
Proof.
  intros H12 H13. unfold counter, in_width in *. rewrite Z.lor_comm, lor_shiftl_add by lia. lia.
Qed.

Lemma refill_block_keystream d c :
  (14 <= length d)%nat -> in_width 64 c -> refill_block d c = keystream_block d c.
Proof.
  intros Hl Hc. rewrite refill_block_chacha by done. unfold keystream_block. f_equal.
  rewrite wrap_mod, Z.shiftr_div_pow2 by lia. rewrite wrap_small; [done|]. unfold in_width in *.
  split; [apply Z.div_pos; lia | apply Z.div_lt_upper_bound; lia].
Qed.

Lemma keystream_lookup d c k :
  (k < 512)%nat ->
  keystream d c !!! k = word_byte (keystream_block d ((c + Z.of_nat (lane k)) mod 2 ^ 64) !!! (k / 32)%nat) (k mod 4).
Proof.
  intros Hk. apply list_lookup_total_correct. unfold keystream. rewrite list_lookup_fmap, (lookup_seq_lt _ _ _ Hk). reflexivity.
Qed.

(** The loop on the blocks. *)
Lemma refill_loop d c buf :
  (14 <= length d)%nat -> in_width 64 c -> length buf = 512%nat ->
  for_up 0 8 (fun u '(cc, buf) => (u64 (cc + 1), interleave u (refill_block d cc) buf)) (c, buf) =
    ((c + 8) mod 2 ^ 64, keystream d c).
Proof.
  intros Hd Hc Hl. set (body := fun (u : nat) (p : Z * list Z) => _).
  enough ((for_up 0 8 body (c, buf)).1 = (c + Z.of_nat 8) mod 2 ^ 64 /\ length (for_up 0 8 body (c, buf)).2 = 512%nat /\
    forall k, (k < 512)%nat -> (lane k < 8)%nat -> (for_up 0 8 body (c, buf)).2 !!! k = keystream d c !!! k) as (H1 & H2 & H3).
  { destruct (for_up 0 8 body (c, buf)) as [c' b]. cbn [fst snd] in *. f_equal; [exact H1|].
    apply list_eq_total; [unfold keystream; now rewrite length_fmap, length_seq|].
    intros k Hk. apply H3; [lia|]. apply Nat.mod_upper_bound. lia. }
  apply (for_up_inv body (fun u p => p.1 = (c + Z.of_nat u) mod 2 ^ 64 /\ length p.2 = 512%nat /\
    forall k, (k < 512)%nat -> (lane k < u)%nat -> p.2 !!! k = keystream d c !!! k)); [lia | |].
  - cbn [fst snd]. rewrite Z.add_0_r, Z.mod_small by exact Hc. split_and!; [done | done | lia].
  - intros u [cu b] Hu (E & Hb & Hk). cbn [fst snd] in E, Hb, Hk. subst cu. unfold body. cbn [fst snd].
    destruct (interleave_lookup u (refill_block d ((c + Z.of_nat u) mod 2 ^ 64)) b) as [Hi Hj]; [lia | done |].
    split_and!; [| done |].
    + rewrite wrap_mod by lia. rewrite Zplus_mod_idemp_l. f_equal. lia.
    + intros k Hlt Hlane. rewrite (Hj k Hlt). destruct (Nat.eqb_spec (lane k) u) as [He|Hne]; [|apply Hk; lia].
      rewrite refill_block_keystream by (try lia; apply Z.mod_pos_bound; lia).
      rewrite (keystream_lookup d c k Hlt), He. reflexivity.
Qed.

(** Memory of the right sizes: what [prng_init] finds. *)
Record prng_mem (p : prng) : Prop := {
  mem_buf : length (buf_d p) = 512%nat;
  mem_bytes : Forall (in_width 8) (buf_d p);
  mem_state : length (state_d p) = 64%nat;
  mem_words : Forall (in_width 32) (state_d p)
}.

Lemma prng_ok_mem p : prng_ok p -> prng_mem p.
Proof. intros []. now constructor. Qed.

Lemma state_word p k : prng_mem p -> (k < 64)%nat -> in_width 32 (state_d p !!! k).
Proof. intros [] Hk. apply Forall_lookup_total; [done | lia]. Qed.

Lemma keystream_bytes d c : Forall (in_width 8) (keystream d c).
Proof. unfold keystream. apply Forall_fmap, Forall_true. intros k. apply word_byte_width. Qed.

Lemma keystream_length d c : length (keystream d c) = 512%nat.
Proof. unfold keystream. now rewrite length_fmap, length_seq. Qed.

(** The state with its 64-bit counter set. *)
Definition set_counter (c : Z) (d : list Z) : list Z := <[13%nat := c / 2 ^ 32]> (<[12%nat := c mod 2 ^ 32]> d).

Lemma refill_spec p :
  prng_mem p ->
  prng_refill p = mk_prng (keystream (state_d p) (counter (state_d p))) 0
                    (set_counter ((counter (state_d p) + 8) mod 2 ^ 64) (state_d p)).
Proof.
  intros Hp. pose proof (mem_state _ Hp). unfold prng_refill.
  destruct (counter_read (state_d p)) as [-> Hc]; [apply state_word; [done | lia].. |].
  rewrite (refill_loop (state_d p) _ _ ltac:(lia) Hc (mem_buf _ Hp)). unfold set_counter.
  now rewrite Z.shiftr_div_pow2, wrap_mod by lia.
Qed.

Lemma refill_ok p : prng_mem p -> prng_ok (prng_refill p).
Proof.
  intros Hp. rewrite refill_spec by done. pose proof (mem_state _ Hp).
  assert (0 <= (counter (state_d p) + 8) mod 2 ^ 64 < 2 ^ 64) as Hc by (apply Z.mod_pos_bound; lia).
  set (c := (counter (state_d p) + 8) mod 2 ^ 64) in *. constructor; cbn [buf_d ptr state_d]; unfold set_counter.
  - apply keystream_length.
  - apply keystream_bytes.
  - lia.
  - now rewrite !length_insert.
  - apply Forall_insert; [apply Forall_insert; [apply Hp|]|]; unfold in_width.
    + apply Z.mod_pos_bound. lia.
    + split; [apply Z.div_pos; lia | apply Z.div_lt_upper_bound; lia].
Qed.

(** * Reading *)

Definition unread (p : prng) : list Z := drop (ptr p) (buf_d p).

(** The unread bytes, then those of the next [n] refills. *)
Fixpoint stream (n : nat) (p : prng) : list Z :=
  match n with O => unread p | S n => unread p ++ stream n (prng_refill p) end.

Fixpoint get_u8s (n : nat) (p : prng) : prng * list Z :=
  match n with
  | O => (p, [])
  | S n => let '(p, v) := prng_get_u8 p in let '(p, vs) := get_u8s n p in (p, v :: vs)
  end.

#[local] Opaque prng_refill.

Lemma unread_cons p : prng_ok p -> unread p = (buf_d p !!! ptr p) :: drop (S (ptr p)) (buf_d p).
Proof.
  intros Hp. unfold unread. apply drop_S. apply list_lookup_lookup_total_lt. rewrite (ok_buf _ Hp). apply Hp.
Qed.

(** Refilling looks at the state words only. *)
Lemma refill_ptr p k : prng_mem p -> prng_refill (mk_prng (buf_d p) k (state_d p)) = prng_refill p.
Proof. intros Hp. rewrite (refill_spec p Hp). apply (refill_spec (mk_prng (buf_d p) k (state_d p))). constructor; apply Hp. Qed.

(** One byte: the head of the stream; what follows it is the stream of the new state. *)
Lemma get_u8_spec p n :
  prng_ok p ->
  prng_ok (prng_get_u8 p).1 /\
  stream (S n) p = (prng_get_u8 p).2 :: stream (if (S (ptr p) =? 512)%nat then n else S n) (prng_get_u8 p).1.
Proof.
  intros Hp. pose proof (ok_ptr _ Hp). pose proof (ok_buf _ Hp) as Hb. pose proof (prng_ok_mem p Hp) as Hm.
  unfold prng_get_u8. cbn [ptr stream]. rewrite (unread_cons p Hp).
  destruct (Nat.eqb_spec (S (ptr p)) 512) as [He|Hne]; cbn [fst snd].
  - rewrite (refill_ptr p (S (ptr p)) Hm), (drop_ge (buf_d p)) by lia. split; [now apply refill_ok | reflexivity].
  - split; [constructor; try apply Hp; cbn; lia|]. cbn [stream]. rewrite (refill_ptr p (S (ptr p)) Hm). reflexivity.
Qed.

Lemma get_u8s_spec n : forall m p,
  prng_ok p -> (n <= m)%nat -> prng_ok (get_u8s n p).1 /\ (get_u8s n p).2 = take n (stream m p).
Proof.
  induction n as [|n IH]; intros m p Hp Hm; [done|]. destruct m as [|m]; [lia|].
  destruct (get_u8_spec p m Hp) as [Hp' ->]. cbn [get_u8s]. destruct (prng_get_u8 p) as [p' v]. cbn [fst snd] in *.
  destruct (IH (if (S (ptr p) =? 512)%nat then m else S m) p' Hp') as [H1 H2]; [destruct (_ =? _)%nat; lia|].
  destruct (get_u8s n p') as [p'' vs]. cbn [fst snd take] in *. now rewrite H2.
Qed.

(** A 64-bit word is eight bytes, after a refill when nine bytes or fewer are left. *)
Definition word_source (p : prng) : list Z := if (length (unread p) <=? 9)%nat then buf_d (prng_refill p) else unread p.

Lemma lor_le_load b0 b1 b2 b3 b4 b5 b6 b7 :
  Forall (in_width 8) [b0; b1; b2; b3; b4; b5; b6; b7] ->
  b0 .| (b1 .<< 8) .| (b2 .<< 16) .| (b3 .<< 24) .| (b4 .<< 32) .| (b5 .<< 40) .| (b6 .<< 48) .| (b7 .<< 56)
  = le_load [b0; b1; b2; b3; b4; b5; b6; b7].
Proof.
  intros Hb. pose proof Hb as Hb'. rewrite !Forall_cons_iff in Hb'. unfold in_width in Hb'. change (2 ^ 8) with 256 in Hb'.
  destruct Hb' as (H0&H1&H2&H3&H4&H5&H6&H7&_). rewrite <- le_load_lor by exact Hb.
  rewrite !u64_small by (rewrite Z.shiftl_mul_pow2 by lia; lia).
  apply Z.bits_inj'. intros k Hk. rewrite !Z.lor_spec.
  repeat match goal with |- context [Z.testbit ?x k] => generalize (Z.testbit x k); intros [] end; reflexivity.
Qed.

Lemma take8 (l : list Z) u :
  (u + 8 <= length l)%nat ->
  take 8 (drop u l) = [l !!! (u + 0)%nat; l !!! (u + 1)%nat; l !!! (u + 2)%nat; l !!! (u + 3)%nat; l !!! (u + 4)%nat;
                       l !!! (u + 5)%nat; l !!! (u + 6)%nat; l !!! (u + 7)%nat].
Proof.
  intros Hl. rewrite <- !lookup_total_drop. assert (8 <= length (drop u l))%nat as H8 by (rewrite length_drop; lia).
  destruct (drop u l) as [|b0 [|b1 [|b2 [|b3 [|b4 [|b5 [|b6 [|b7 r]]]]]]]]; cbn in H8; try lia. reflexivity.
Qed.

Lemma get_u64_spec p :
  prng_ok p -> prng_ok (prng_get_u64 p).1 /\ (prng_get_u64 p).2 = le_load (take 8 (word_source p)).
Proof.
  intros Hp. pose proof (ok_ptr _ Hp) as Ht. pose proof (ok_buf _ Hp) as Hb. pose proof (refill_ok p (prng_ok_mem p Hp)) as Hr.
  assert (forall q u, prng_ok q -> (u < 503)%nat ->
    let d k := buf_d q !!! (u + k)%nat in
    prng_ok (mk_prng (buf_d q) (u + 8) (state_d q)) /\
    d 0%nat .| (d 1%nat .<< 8) .| (d 2%nat .<< 16) .| (d 3%nat .<< 24) .| (d 4%nat .<< 32) .| (d 5%nat .<< 40)
    .| (d 6%nat .<< 48) .| (d 7%nat .<< 56) = le_load (take 8 (drop u (buf_d q)))) as Hread.
  { intros q u Hq Hu. cbv zeta. split; [constructor; try apply Hq; cbn; lia|].
    pose proof (ok_buf _ Hq). rewrite take8 by lia. apply lor_le_load. rewrite <- take8 by lia.
    apply Forall_take, Forall_drop, Hq. }
  unfold prng_get_u64, word_source, unread. rewrite length_drop, Hb.
  destruct (Nat.leb_spec (512 - 9) (ptr p)), (Nat.leb_spec (512 - ptr p) 9); try lia; cbn [fst snd].
  - apply (Hread _ 0%nat Hr). lia.
  - apply Hread; [done | lia].
Qed.

Lemma word_source_width p : prng_ok p -> in_width 64 (le_load (take 8 (word_source p))).
Proof.
  intros Hp. pose proof (refill_ok p (prng_ok_mem p Hp)) as Hr.
  assert (Forall (in_width 8) (word_source p) /\ (8 <= length (word_source p))%nat) as [Hb Hl].
  { unfold word_source. destruct (Nat.leb_spec (length (unread p)) 9) as [H|H].
    - split; [apply Hr | rewrite (ok_buf _ Hr); lia].
    - split; [apply Forall_drop, Hp | lia]. }
  pose proof (le_load_range (take 8 (word_source p)) ltac:(now apply Forall_take)) as H.
  now rewrite length_take, Nat.min_l in H by exact Hl.
Qed.

(** * The byte copies of [prng_get_bytes] *)

Lemma get_bytes_loop_total fuel : forall p len dst,
  prng_ok p -> (len < fuel)%nat -> Forall (in_width 8) dst ->
  exists p' bs, get_bytes_loop fuel p len dst = Some (p', bs) /\ prng_ok p' /\
    length bs = (length dst + len)%nat /\ Forall (in_width 8) bs.
Proof.
  induction fuel as [|fuel IH]; intros p len dst Hp Hf Hd; [lia|]. pose proof (ok_ptr _ Hp). pose proof (ok_buf _ Hp).
  cbn [get_bytes_loop]. destruct (Nat.eqb_spec len 0) as [->|Hne].
  - exists p, dst. split_and!; [done | done | lia | done].
  - set (clen := if (len <? 512 - ptr p)%nat then len else (512 - ptr p)%nat). cbv zeta.
    assert (0 < clen /\ clen <= len /\ ptr p + clen <= 512)%nat as (Hc1 & Hc2 & Hc3)
      by (subst clen; destruct (Nat.ltb_spec len (512 - ptr p)); lia).
    assert (prng_mem (mk_prng (buf_d p) (ptr p + clen) (state_d p))) as Hm by (constructor; apply Hp).
    edestruct IH as (p' & bs & -> & Hp' & Hl & Hbs); [| | |exists p', bs; split_and!; [done | done | | done]].
    + cbn [ptr]. destruct (Nat.eqb_spec (ptr p + clen) 512); [now apply refill_ok|]. constructor; try apply Hm. cbn. lia.
    + lia.
    + apply Forall_app_2; [done|]. apply Forall_take, Hp.
    + rewrite Hl, length_app, length_take. lia.
Qed.

(** The copies start at the beginning of the buffer wherever the previous one stopped. *)
Lemma get_bytes_short p len :
  (ptr p + len < 512)%nat ->
  prng_get_bytes p len = Some (mk_prng (buf_d p) (ptr p + len) (state_d p), take len (buf_d p)).
Proof.
  intros Hl. unfold prng_get_bytes. cbn [get_bytes_loop]. destruct (Nat.eqb_spec len 0) as [->|Hne].
  - rewrite Nat.add_0_r. now destruct p.
  - destruct (Nat.ltb_spec len (512 - ptr p)); [|lia]. cbv zeta. cbn [ptr app].
    destruct (Nat.eqb_spec (ptr p + len) 512); [lia|]. rewrite Nat.sub_diag. now destruct len.
Qed.

Lemma get_bytes_repeats p len :
  (ptr p + 2 * len < 512)%nat ->
  exists p' p'' bs, prng_get_bytes p len = Some (p', bs) /\ prng_get_bytes p' len = Some (p'', bs).
Proof.
  intros Hl. do 3 eexists. split; [apply get_bytes_short; lia|].
  apply (get_bytes_short (mk_prng (buf_d p) (ptr p + len) (state_d p)) len). cbn [ptr]. lia.
Qed.

(** * Seeding *)

(** The fourteen words read from 56 bytes. *)
Definition seed_words (tmp : list Z) : list Z := (fun i => le_load (take 4 (drop (4 * i) tmp))) <$> seq 0 14.

Lemma lor_le_load32 b0 b1 b2 b3 :
  Forall (in_width 8) [b0; b1; b2; b3] ->
  b0 .| u32 (b1 .<< 8) .| u32 (b2 .<< 16) .| u32 (b3 .<< 24) = le_load [b0; b1; b2; b3].
Proof.
  intros Hb. rewrite !Forall_cons_iff in Hb. unfold in_width in Hb. change (2 ^ 8) with 256 in Hb. destruct Hb as (H0&H1&H2&H3&_).
  rewrite !(wrap_small 32) by (unfold in_width; rewrite Z.shiftl_mul_pow2 by lia; lia).
  rewrite (Z.lor_comm _ (b3 .<< 24)), (Z.lor_comm _ (b2 .<< 16)), (Z.lor_comm b0).
  rewrite (lor_shiftl_add b1 8 b0), (lor_shiftl_add b2 16), (lor_shiftl_add b3 24) by lia. cbn [le_load]. lia.
Qed.

Lemma take4 (l : list Z) u :
  (u + 4 <= length l)%nat ->
  take 4 (drop u l) = [l !!! u; l !!! (u + 1)%nat; l !!! (u + 2)%nat; l !!! (u + 3)%nat].
Proof.
  intros Hl. rewrite <- (Nat.add_0_r u) at 2. rewrite <- !lookup_total_drop.
  assert (4 <= length (drop u l))%nat as H4 by (rewrite length_drop; lia).
  destruct (drop u l) as [|b0 [|b1 [|b2 [|b3 r]]]]; cbn in H4; try lia. reflexivity.
Qed.

Lemma seed_word tmp i :
  length tmp = 56%nat -> Forall (in_width 8) tmp -> (i < 14)%nat ->
  (tmp !!! (4 * i)%nat) .| (u32 ((tmp !!! (4 * i + 1)%nat) .<< 8)) .| (u32 ((tmp !!! (4 * i + 2)%nat) .<< 16))
  .| (u32 ((tmp !!! (4 * i + 3)%nat) .<< 24)) = le_load (take 4 (drop (4 * i) tmp)).
Proof.
  intros Hl Hb Hi. rewrite take4 by lia. apply lor_le_load32. rewrite <- take4 by lia. now apply Forall_take, Forall_drop.
Qed.

Lemma seed_words_width tmp : length tmp = 56%nat -> Forall (in_width 8) tmp -> Forall (in_width 32) (seed_words tmp).
Proof.
  intros Hl Hb. unfold seed_words. apply Forall_fmap, Forall_seq. intros i Hi. unfold compose.
  pose proof (le_load_range (take 4 (drop (4 * i) tmp)) ltac:(now apply Forall_take, Forall_drop)) as H.
  now rewrite length_take, length_drop, Hl, Nat.min_l in H by lia.
Qed.

Lemma seed_loop tmp d :
  length tmp = 56%nat -> Forall (in_width 8) tmp -> length d = 64%nat ->
  for_up 0 14 (fun i d =>
    <[i := (tmp !!! (4 * i)%nat) .| (u32 ((tmp !!! (4 * i + 1)%nat) .<< 8)) .| (u32 ((tmp !!! (4 * i + 2)%nat) .<< 16))
           .| (u32 ((tmp !!! (4 * i + 3)%nat) .<< 24))]> d) d = seed_words tmp ++ drop 14 d.
Proof.
  intros Hl Hb Hd.
  rewrite (for_up_ext _ (fun i d => <[i := (fun i _ => le_load (take 4 (drop (4 * i) tmp))) i (d !!! i)]> d));
    [|intros i s Hi; now rewrite seed_word by (assumption || lia)].
  destruct (for_up_elementwise (fun i _ => le_load (take 4 (drop (4 * i) tmp))) 14 d) as [H1 H2].
  assert (length (seed_words tmp) = 14%nat) as Hs by (unfold seed_words; now rewrite length_fmap, length_seq).
  apply list_eq_total; [rewrite H1, length_app, length_drop; lia|]. intros k Hk. rewrite H1 in Hk. rewrite H2 by done.
  destruct (Nat.ltb_spec k 14).
  - rewrite lookup_total_app_l by lia. symmetry. apply list_lookup_total_correct. unfold seed_words.
    now rewrite list_lookup_fmap, lookup_seq_lt.
  - rewrite lookup_total_app_r, lookup_total_drop by lia. f_equal. lia.
Qed.

(** Writing the 64-bit counter back over the two words it was read from changes nothing. *)
Lemma counter_write d :
  length d = 64%nat -> in_width 32 (d !!! 12%nat) -> in_width 32 (d !!! 13%nat) ->
  let w := u64 (d !!! 12%nat + u64 ((d !!! 13%nat) .<< 32)) in <[13%nat := w .>> 32]> (<[12%nat := u32 w]> d) = d.
Proof.
  intros Hl H12 H13. cbv zeta. set (lo := d !!! 12%nat) in *. set (hi := d !!! 13%nat) in *. unfold in_width in *.
  rewrite (wrap_small 64 (hi .<< 32)) by (unfold in_width; rewrite Z.shiftl_mul_pow2 by lia; lia).
  rewrite Z.shiftl_mul_pow2, wrap_small by (unfold in_width; lia).
  assert (u32 (lo + hi * 2 ^ 32) = lo) as -> by (rewrite wrap_mod, Z_mod_plus_full by lia; now apply Z.mod_small).
  assert ((lo + hi * 2 ^ 32) .>> 32 = hi) as -> by (rewrite Z.shiftr_div_pow2, Z_div_plus_full, Z.div_small by lia; lia).
  rewrite (list_insert_id d 12) by (apply list_lookup_lookup_total_lt; lia). apply list_insert_id, list_lookup_lookup_total_lt. lia.
Qed.

Lemma prng_init_spec p src :
  prng_mem p -> sc_ok src ->
  exists src' tmp, shake256_inc_squeeze 56 src = Some (src', tmp) /\ sc_ok src' /\ length tmp = 56%nat /\
    let q := mk_prng (buf_d p) (ptr p) (seed_words tmp ++ drop 14 (state_d p)) in
    prng_mem q /\ prng_init p src = Some (src', prng_refill q).
Proof.
  intros Hp Hsrc. assert (0 < SHAKE256_RATE)%nat as Hr by (unfold SHAKE256_RATE; lia).
  unfold prng_init, shake256_inc_squeeze. rewrite (keccak_inc_squeeze_spec _ Hr) by exact Hsrc.
  pose proof (squeeze_bytes_count SHAKE256_RATE Hr 56 (ctx_state src) Hsrc) as Hc.
  pose proof (squeeze_stream_length SHAKE256_RATE Hr 56 (ctx_state src)) as Hl.
  pose proof (squeeze_bytes_bytes SHAKE256_RATE 56 (ctx_state src)) as Hb.
  destruct (squeeze_bytes SHAKE256_RATE 56 (ctx_state src)) as [st tmp]. cbn [fst snd mbind option_bind] in *.
  pose proof (mem_state _ Hp) as Hs. pose proof (mem_words _ Hp) as Hw.
  exists (of_state st), tmp. split; [reflexivity|]. split; [exact Hc|]. split; [exact Hl|]. cbv zeta.
  rewrite seed_loop by assumption. set (d := seed_words tmp ++ drop 14 (state_d p)).
  assert (length d = 64%nat) as Hd
    by (unfold d, seed_words; rewrite length_app, length_fmap, length_seq, length_drop; lia).
  assert (Forall (in_width 32) d) as Hdw by (apply Forall_app_2; [now apply seed_words_width | now apply Forall_drop]).
  split; [constructor; solve [apply Hp | assumption]|].
  pose proof (counter_write d Hd) as He. cbv zeta in He. rewrite He; [reflexivity|..]; apply Forall_lookup_total; auto; lia.
Qed.

(** * The properties *)

(** A buffer of fresh output, and the counter past it. *)
Definition refilled (d : list Z) : prng :=
  mk_prng (keystream d (counter d)) 0 (set_counter ((counter d + 8) mod 2 ^ 64) d).

(** C38 (equivalence).  The generator is ChaCha20: [prng_refill] fills the buffer with the eight RFC 8439
    blocks at counters [cc .. cc + 7] (modulo 2^64) under the key in words 0-7, the counter XORed into the
    last two words of the IV, interleaved word by word; it resets the read position and advances the
    counter by eight.  [prng_init] does this for the fourteen little-endian words that the SHAKE256
    context yields, whatever the memory held. *)
Theorem prng_refill_chacha p :
  prng_mem p ->
  prng_refill p = refilled (state_d p) /\
  forall src, sc_ok src ->
    exists src' tmp, shake256_inc_squeeze 56 src = Some (src', tmp) /\ length tmp = 56%nat /\
      prng_init p src = Some (src', refilled (seed_words tmp ++ drop 14 (state_d p))).
Proof.
  intros Hp. split; [exact (refill_spec p Hp)|]. intros src Hsrc.
  destruct (prng_init_spec p src Hp Hsrc) as (src' & tmp & H1 & _ & H3 & Hq & H5).
  exists src', tmp. split; [exact H1|]. split; [exact H3|]. rewrite H5. f_equal. f_equal. exact (refill_spec _ Hq).
Qed.

(** C39 (type).  Every operation keeps the generator well formed (512 bytes of buffer, a read position
    inside it, 64 words of state) and returns values of its type: [prng_init] establishes this over any
    memory; [n] calls of [prng_get_u8] return the next [n] bytes of the stream of buffers; [prng_get_u64]
    returns eight unread bytes as a little-endian word, from a fresh buffer when at most nine are left;
    [prng_get_bytes] terminates and returns as many bytes as asked, the first ones of the buffer (not the
    first unread ones) when it does not refill. *)
Theorem prng_type_safe p :
  prng_ok p ->
  (forall q src, prng_mem q -> sc_ok src -> exists src' q', prng_init q src = Some (src', q') /\ sc_ok src' /\ prng_ok q') /\
  prng_ok (prng_refill p) /\
  (forall n, prng_ok (get_u8s n p).1 /\ (get_u8s n p).2 = take n (stream n p)) /\
  (prng_ok (prng_get_u64 p).1 /\ (prng_get_u64 p).2 = le_load (take 8 (word_source p)) /\ in_width 64 (prng_get_u64 p).2) /\
  (forall len, exists p' bs, prng_get_bytes p len = Some (p', bs) /\ prng_ok p' /\ length bs = len /\ Forall (in_width 8) bs) /\
  (forall len, (ptr p + len < 512)%nat ->
    prng_get_bytes p len = Some (mk_prng (buf_d p) (ptr p + len) (state_d p), take len (buf_d p))).
Proof.
  intros Hp. split; [|split; [|split; [|split; [|split]]]].
  - intros q src Hq Hsrc. destruct (prng_init_spec q src Hq Hsrc) as (src' & tmp & _ & H2 & _ & Hm & H5).
    do 2 eexists. split; [exact H5|]. split; [exact H2 | now apply refill_ok].
  - apply refill_ok, prng_ok_mem, Hp.
  - intros n. now apply get_u8s_spec.
  - destruct (get_u64_spec p Hp) as [H1 H2]. split; [exact H1|]. split; [exact H2|]. rewrite H2. now apply word_source_width.
  - intros len. destruct (get_bytes_loop_total (S len) p len [] Hp) as (p' & bs & H); [lia | constructor | now exists p', bs].
  - intros len. apply get_bytes_short.
Qed.

(** * Examples *)

Definition demo_prng : prng := mk_prng (replicate 512 0) 500 (Z.of_nat <$> seq 1 64).

Lemma prng_refill_chacha_witness :
  prng_mem demo_prng /\ prng_refill demo_prng = refilled (state_d demo_prng).
Proof.
  assert (prng_mem demo_prng) as H by (constructor; [reflexivity | by_decide | reflexivity | by_decide]).
  split; [exact H|]. exact (proj1 (prng_refill_chacha demo_prng H)).
Defined.

Lemma prng_type_safe_witness :
  prng_ok demo_prng /\ (get_u8s 100 demo_prng).2 = take 100 (stream 100 demo_prng).
Proof.
  assert (prng_ok demo_prng) as H by (by_decide).
  split; [exact H|]. exact (proj2 (proj1 (proj2 (proj2 (prng_type_safe demo_prng H))) 100%nat)).
Defined.
