(* ===== verification/Rounding.v ===== *)
(** Rounding: binary64 values and correct rounding, the specification of [fpr.c].

    A binary64 number is a multiple of 2^-1074; magnitudes are counted in that unit, so that every
    finite number is an integer and an exact result is a fraction [n / d] of integers. *)

From Stdlib Require Import ZArith Lia.
From stdpp Require Import base numbers list.
From S2P Require Import Prelude.

(** * The encoding *)

Definition fpr_sign (x : Z) : bool := Z.testbit x 63.
Definition fpr_exp (x : Z) : Z := (x / 2 ^ 52) mod 2 ^ 11.
Definition fpr_man (x : Z) : Z := x mod 2 ^ 52.

(** A zero, or a normal finite number: what [fpr.h] asks of operands. *)
Record fpr_ok (x : Z) : Prop := {
  fpr_width : in_width 64 x;
  fpr_finite : fpr_exp x <= 2046;
  fpr_normal : fpr_exp x = 0 -> fpr_man x = 0
}.

Definition magnitude (x : Z) : Z := if fpr_exp x =? 0 then 0 else (2 ^ 52 + fpr_man x) * 2 ^ (fpr_exp x - 1).
Definition value (x : Z) : Z := if fpr_sign x then - magnitude x else magnitude x.

(** The number of sign [s] and magnitude [m * 2^k], for [m] of 53 bits ([m = 2^53] is the next binade). *)
Definition pack (s : bool) (k m : Z) : Z := bit s * 2 ^ 63 + k * 2 ^ 52 + m.

(** * Rounding *)

(** The integer nearest to [n / d], ties to even. *)
Definition round_ne (n d : Z) : Z :=
  let q := n / d in
  match Z.compare (2 * (n mod d)) d with
  | Lt => q
  | Gt => q + 1
  | Eq => if Z.odd q then q + 1 else q
  end.

(** The number nearest to plus or minus [n / d], magnitudes below the normal ones being flushed to zero. *)
Definition round_to (s : bool) (n d : Z) : Z :=
  if n <? 2 ^ 52 * d then bit s * 2 ^ 63
  else let k := Z.log2 (n / d) - 52 in pack s k (round_ne n (d * 2 ^ k)).

Lemma round_ne_unique n d m :
  0 < d -> 2 * Z.abs (n - m * d) < d \/ (2 * Z.abs (n - m * d) = d /\ Z.even m = true) -> round_ne n d = m.
Proof.
  intros Hd H. unfold round_ne. pose proof (Z.div_mod n d ltac:(lia)) as Hdm. pose proof (Z.mod_pos_bound n d Hd) as Hr.
  set (q := n / d) in *. set (r := n mod d) in *. assert (n - m * d = (q - m) * d + r) as E by lia. rewrite E in H.
  assert (q = m \/ q = m - 1) as Hq by nia. destruct (Z.compare_spec (2 * r) d) as [Hc|Hc|Hc].
  - assert (Z.even m = true) as He by (destruct H as [H|H]; [destruct Hq; subst q; nia | apply H]).
    destruct Hq as [->| Hq]; [now rewrite <- Z.negb_even, He|]. rewrite Hq. replace (m - 1) with (Z.pred m) by lia.
    rewrite Z.odd_pred, He. lia.
  - destruct Hq as [Hq|Hq]; [done|]. subst q. destruct H as [H|[H _]]; nia.
  - destruct Hq as [Hq|Hq]; [|lia]. subst q. destruct H as [H|[H _]]; nia.
Qed.

Lemma round_ne_spec n d :
  0 < d -> 2 * Z.abs (n - round_ne n d * d) < d \/ (2 * Z.abs (n - round_ne n d * d) = d /\ Z.even (round_ne n d) = true).
Proof.
  intros Hd. unfold round_ne. pose proof (Z.div_mod n d ltac:(lia)) as Hdm. pose proof (Z.mod_pos_bound n d Hd) as Hr.
  set (q := n / d) in *. set (r := n mod d) in *. destruct (Z.compare_spec (2 * r) d) as [Hc|Hc|Hc].
  - right. destruct (Z.odd q) eqn:Ho.
    + split; [nia|]. rewrite Z.add_1_r, Z.even_succ. exact Ho.
    + split; [nia|]. rewrite <- Z.negb_odd, Ho. reflexivity.
  - left. nia.
  - left. nia.
Qed.

(** Only the fraction matters. *)
Lemma round_ne_ratio n d n' d' : 0 < d -> 0 < d' -> n * d' = n' * d -> round_ne n d = round_ne n' d'.
Proof.
  intros Hd Hd' E. apply round_ne_unique; [done|]. pose proof (round_ne_spec n' d' Hd') as H. set (m := round_ne n' d') in *.
  assert (d' * Z.abs (n - m * d) = d * Z.abs (n' - m * d')) as Ea.
  { rewrite <- (Z.abs_eq d') at 1 by lia. rewrite <- (Z.abs_eq d) at 2 by lia. rewrite <- !Z.abs_mul. f_equal. lia. }
  destruct H as [H|[H He]]; [left; nia | right; split; [nia | done]].
Qed.

Lemma div_ratio n d n' d' : 0 < d -> 0 < d' -> n * d' = n' * d -> n / d = n' / d'.
Proof.
  intros Hd Hd' E. rewrite <- (Z.div_mul_cancel_r n d d') by lia. rewrite E, (Z.mul_comm d d'). now apply Z.div_mul_cancel_r; lia.
Qed.

Lemma round_to_ratio s n d n' d' : 0 < d -> 0 < d' -> n * d' = n' * d -> round_to s n d = round_to s n' d'.
Proof.
  intros Hd Hd' E. unfold round_to. rewrite (div_ratio n d n' d') by done.
  assert ((n <? 2 ^ 52 * d) = (n' <? 2 ^ 52 * d')) as ->.
  { apply eq_true_iff_eq. rewrite !Z.ltb_lt. split; intros H; nia. }
  destruct (Z.ltb_spec n' (2 ^ 52 * d')) as [Hlt|Hge]; [done|]. cbv zeta. f_equal.
  assert (2 ^ 52 <= n' / d') by (apply Z.div_le_lower_bound; lia).
  assert (52 <= Z.log2 (n' / d')) as Hk by (apply Z.log2_le_pow2; lia).
  assert (0 < 2 ^ (Z.log2 (n' / d') - 52)) by (apply Z.pow_pos_nonneg; lia). set (p := 2 ^ _) in *.
  apply round_ne_ratio; nia.
Qed.

(** The binade of a fraction. *)
Lemma round_to_binade s n d k :
  0 < d -> 0 <= k -> 2 ^ (52 + k) * d <= n < 2 ^ (53 + k) * d -> round_to s n d = pack s k (round_ne n (d * 2 ^ k)).
Proof.
  intros Hd Hk [H1 H2]. unfold round_to. rewrite Z.pow_add_r in * by lia. assert (1 <= 2 ^ k) by (apply (Z.pow_le_mono_r 2 0); lia).
  rewrite (proj2 (Z.ltb_ge _ _)) by nia. assert (Z.log2 (n / d) = 52 + k) as ->.
  { apply Z.log2_unique; [lia|]. unfold Z.succ. replace (52 + k + 1) with (53 + k) by lia. rewrite !Z.pow_add_r by lia.
    split; [apply Z.div_le_lower_bound; lia | apply Z.div_lt_upper_bound; lia]. }
  cbv zeta. now replace (52 + k - 52) with k by lia.
Qed.

Lemma round_to_small s n d : n < 2 ^ 52 * d -> round_to s n d = bit s * 2 ^ 63.
Proof. intros H. unfold round_to. now rewrite (proj2 (Z.ltb_lt _ _)). Qed.

(** * Sticky bits *)

(** The quotient, its low bit set when the division is not exact. *)
Definition stick (n d : Z) : Z := if n mod d =? 0 then n / d else (n / d) .| 1.

Lemma lor_1 x : x .| 1 = if Z.odd x then x else x + 1.
Proof.
  pose proof (Z.div2_odd x) as E. set (h := Z.div2 x) in *. pose proof (lor_shiftl_add h 1 1 ltac:(lia) ltac:(lia)) as H.
  change (2 ^ 1) with 2 in H. rewrite E at 1. destruct (Z.odd x); cbn [Z.b2z] in E |- *.
  - replace (2 * h + 1) with (h * 2 + 1) by lia. rewrite <- H, <- Z.lor_assoc, Z.lor_diag. lia.
  - rewrite Z.shiftl_mul_pow2 in H by lia. change (2 ^ 1) with 2 in H. replace (2 * h + 0) with (h * 2) by lia. lia.
Qed.

Lemma stick_cases n d : 0 < d ->
  (n = stick n d * d) \/ (Z.odd (stick n d) = true /\ n / d <= stick n d <= n / d + 1 /\ Z.abs (n - stick n d * d) < d).
Proof.
  intros Hd. unfold stick. pose proof (Z.div_mod n d ltac:(lia)). pose proof (Z.mod_pos_bound n d Hd).
  destruct (Z.eqb_spec (n mod d) 0); [left; lia|]. right. rewrite lor_1. destruct (Z.odd (n / d)) eqn:E; [split; [exact E | lia]|].
  cbv iota. rewrite Z.add_1_r, Z.odd_succ, <- Z.negb_odd, E. split; [reflexivity | lia].
Qed.

Lemma stick_exact n d : 0 < d -> stick (n * d) d = n.
Proof. intros Hd. unfold stick. rewrite Z.mod_mul, Z.eqb_refl by lia. apply Z.div_mul. lia. Qed.

(** Rounding with at least two spare bits sees only the quotient and its sticky bit. *)
Lemma round_ne_stick n d j : 0 < d -> 2 <= j -> round_ne (stick n d) (2 ^ j) = round_ne n (2 ^ j * d).
Proof.
  intros Hd Hj. symmetry. assert (2 ^ j = 4 * 2 ^ (j - 2)) as Ej by (change 4 with (2 ^ 2); rewrite <- Z.pow_add_r by lia; f_equal; lia).
  assert (0 < 2 ^ (j - 2)) as Hp by (apply Z.pow_pos_nonneg; lia). set (p := 2 ^ (j - 2)) in *. rewrite Ej. clearbody p. clear Ej Hj j.
  apply round_ne_unique; [nia|]. pose proof (round_ne_spec (stick n d) (4 * p) ltac:(lia)) as H. set (m := round_ne _ _) in *.
  replace (n - m * (4 * p * d)) with ((stick n d - m * (4 * p)) * d + (n - stick n d * d)) by ring.
  destruct (stick_cases n d Hd) as [E|(Ho & _ & Hn)].
  - rewrite <- E, Z.sub_diag, Z.add_0_r, Z.abs_mul, (Z.abs_eq d) by lia. destruct H as [H|[H He]]; [left; nia | right; split; [nia | exact He]].
  - left. assert (2 * Z.abs (stick n d - m * (4 * p)) < 4 * p) as Hlt.
    { destruct H as [H|[H _]]; [exact H|]. exfalso. apply Z.odd_spec in Ho as [h Hh]. rewrite Hh in H. lia. }
    assert (2 * Z.abs (stick n d - m * (4 * p)) <= 4 * p - 2) as Hle by lia.
    assert (Z.abs ((stick n d - m * (4 * p)) * d + (n - stick n d * d)) <= Z.abs ((stick n d - m * (4 * p)) * d) + Z.abs (n - stick n d * d)) by lia.
    rewrite Z.abs_mul, (Z.abs_eq d) in * by lia. nia.
Qed.

(** Dropping more bits. *)
Lemma stick_stick n d j : 0 < d -> 1 <= j -> stick (stick n d) (2 ^ j) = stick n (2 ^ j * d).
Proof.
  intros Hd Hj. assert (2 ^ j = 2 * 2 ^ (j - 1)) as Ej by (change 2 with (2 ^ 1) at 2; rewrite <- Z.pow_add_r by lia; f_equal; lia).
  assert (0 < 2 ^ (j - 1)) as Hp by (apply Z.pow_pos_nonneg; lia). set (p := 2 ^ (j - 1)) in *. rewrite Ej. clearbody p. clear Ej Hj j.
  unfold stick at 1 3. assert (stick n d / (2 * p) = n / (2 * p * d)) as ->.
  { rewrite (Z.mul_comm (2 * p) d), <- (Z.div_div n d (2 * p)) by lia. destruct (stick_cases n d Hd) as [E|(Ho & Hq & _)].
    - assert (n / d = stick n d) as ->; [|done]. rewrite E at 1. apply Z.div_mul. lia.
    - apply Z.odd_spec in Ho as [h Hh]. assert (n / d = 2 * h \/ n / d = 2 * h + 1) as Hc by lia. rewrite <- !Z.div_div by lia.
      assert (forall b, 0 <= b < 2 -> (2 * h + b) / 2 = h) as Hh2 by (intros b Hb; symmetry; apply (Z.div_unique _ _ _ b); lia).
      rewrite Hh, (Hh2 1) by lia. destruct Hc as [->| ->]; [rewrite <- (Z.add_0_r (2 * h)), (Hh2 0) | rewrite (Hh2 1)]; lia. }
  assert ((stick n d mod (2 * p) =? 0) = (n mod (2 * p * d) =? 0)) as ->; [|done].
  apply eq_true_iff_eq. rewrite !Z.eqb_eq. destruct (stick_cases n d Hd) as [E|(Ho & _ & Hn)].
  - rewrite E at 2. rewrite Z.mul_mod_distr_r by lia. split; intros H; [rewrite H; lia | nia].
  - split; intros H; exfalso.
    + apply Z.mod_divide in H as [c Hc]; [|lia]. apply Z.odd_spec in Ho as [h Hh]. nia.
    + apply Z.mod_divide in H as [c Hc]; [|nia]. apply Z.odd_spec in Ho as [h Hh].
      set (st := stick n d) in *. clearbody st. rewrite Hc in Hn.
      assert (c * (2 * p * d) - st * d = (c * 2 * p - st) * d) as Hf by ring.
      rewrite Hf, Z.abs_mul, (Z.abs_eq d) in Hn by lia. assert (Z.abs (c * 2 * p - st) < 1) by nia. lia.
Qed.

Lemma stick_bounds n d lo hi : 0 < d -> Z.even hi = true -> lo * d <= n < hi * d -> lo <= stick n d < hi.
Proof.
  intros Hd Hhi [H1 H2]. unfold stick. assert (lo <= n / d) by (apply Z.div_le_lower_bound; lia). assert (n / d < hi) by (apply Z.div_lt_upper_bound; lia).
  destruct (n mod d =? 0); [lia|]. rewrite lor_1. destruct (Z.odd (n / d)) eqn:Ho; [lia|]. split; [lia|].
  assert (n / d + 1 <> hi); [|lia]. intros E. rewrite <- E, Z.add_1_r, Z.even_succ, Ho in Hhi. discriminate.
Qed.

(** * What the encoding of a rounded number means *)

Lemma pow2_le a b : 0 <= a <= b -> 1 <= 2 ^ a <= 2 ^ b.
Proof. intros H. split; [apply (Z.pow_le_mono_r 2 0) | apply Z.pow_le_mono_r]; lia. Qed.

Lemma pack_carry s k : pack s k (2 ^ 53) = pack s (k + 1) (2 ^ 52).
Proof. unfold pack. lia. Qed.

Lemma pack_fields s k m : 0 <= k <= 2046 -> 2 ^ 52 <= m < 2 ^ 53 ->
  in_width 64 (pack s k m) /\ fpr_sign (pack s k m) = s /\ fpr_exp (pack s k m) = k + 1 /\ fpr_man (pack s k m) = m - 2 ^ 52.
Proof.
  intros Hk Hm. unfold pack, fpr_sign, fpr_exp, fpr_man, in_width.
  assert (bit s * 2 ^ 63 + k * 2 ^ 52 + m = (bit s * 2 ^ 11 + k + 1) * 2 ^ 52 + (m - 2 ^ 52)) as E by lia.
  split; [destruct s; cbn [bit]; lia|]. rewrite E. split.
  - rewrite Z.testbit_eqb by lia. rewrite <- E. assert ((bit s * 2 ^ 63 + k * 2 ^ 52 + m) / 2 ^ 63 = bit s) as ->.
    { symmetry. apply (Z.div_unique _ _ _ (k * 2 ^ 52 + m)); lia. } now destruct s.
  - rewrite Z.div_add_l, Z.div_small, Z.add_0_r by lia. split; [|rewrite Z.add_comm, Z.mod_add, Z.mod_small by lia; lia].
    symmetry. apply (Z.mod_unique _ _ (bit s)); lia.
Qed.

Lemma magnitude_pack s k m : 0 <= k <= 2045 -> 2 ^ 52 <= m <= 2 ^ 53 -> magnitude (pack s k m) = m * 2 ^ k.
Proof.
  intros Hk Hm. assert (forall k m, 0 <= k <= 2046 -> 2 ^ 52 <= m < 2 ^ 53 -> magnitude (pack s k m) = m * 2 ^ k) as H.
  { clear. intros k m Hk Hm. destruct (pack_fields s k m Hk Hm) as (_ & _ & He & Hf). unfold magnitude. rewrite He, Hf.
    destruct (Z.eqb_spec (k + 1) 0); [lia|]. f_equal; [lia | f_equal; lia]. }
  destruct (decide (m = 2 ^ 53)) as [->|]; [|apply H; lia]. rewrite pack_carry, H, Z.pow_add_r by lia. lia.
Qed.

Lemma sign_pack s k m : 0 <= k <= 2045 -> 2 ^ 52 <= m <= 2 ^ 53 -> fpr_sign (pack s k m) = s.
Proof. intros Hk Hm. destruct (decide (m = 2 ^ 53)) as [->|]; [rewrite pack_carry|]; apply pack_fields; lia. Qed.

Lemma magnitude_zero s : magnitude (bit s * 2 ^ 63) = 0 /\ fpr_sign (bit s * 2 ^ 63) = s.
Proof. destruct s; split; reflexivity. Qed.

(** Every number is a pack or a zero. *)
Lemma fpr_cases x : fpr_ok x ->
  (x = bit (fpr_sign x) * 2 ^ 63 /\ magnitude x = 0) \/
  (exists k m, x = pack (fpr_sign x) k m /\ 0 <= k <= 2045 /\ 2 ^ 52 <= m < 2 ^ 53 /\ magnitude x = m * 2 ^ k).
Proof.
  intros [Hw He Hn]. assert (x = bit (fpr_sign x) * 2 ^ 63 + fpr_exp x * 2 ^ 52 + fpr_man x) as E.
  { unfold fpr_exp, fpr_man, fpr_sign, in_width in *. rewrite (Z.div_mod x (2 ^ 52)) at 1 by lia.
    rewrite (Z.div_mod (x / 2 ^ 52) (2 ^ 11)) at 1 by lia. rewrite Z.div_div by lia. change (2 ^ 52 * 2 ^ 11) with (2 ^ 63).
    assert (x / 2 ^ 63 = bit (Z.testbit x 63)) as ->; [|lia]. rewrite Z.testbit_eqb by lia.
    assert (0 <= x / 2 ^ 63 < 2) by (split; [apply Z.div_pos; lia | apply Z.div_lt_upper_bound; lia]).
    assert (x / 2 ^ 63 = 0 \/ x / 2 ^ 63 = 1) as [->| ->] by lia; reflexivity. }
  assert (0 <= fpr_man x < 2 ^ 52) by (apply Z.mod_pos_bound; lia). assert (0 <= fpr_exp x < 2 ^ 11) by (apply Z.mod_pos_bound; lia).
  unfold magnitude. destruct (Z.eqb_spec (fpr_exp x) 0) as [Hz|Hz].
  - left. split; [|done]. rewrite E at 1. rewrite Hz, (Hn Hz). lia.
  - right. exists (fpr_exp x - 1), (2 ^ 52 + fpr_man x). split; [rewrite E at 1; unfold pack; lia | lia].
Qed.

Lemma magnitude_nonneg x : 0 <= magnitude x.
Proof.
  unfold magnitude. destruct (fpr_exp x =? 0); [lia|]. assert (0 <= fpr_man x) by (apply Z.mod_pos_bound; lia).
  apply Z.mul_nonneg_nonneg; [lia | apply Z.pow_nonneg; lia].
Qed.

Lemma round_ne_nearest n d m : 0 < d -> Z.abs (n - round_ne n d * d) <= Z.abs (n - m * d).
Proof.
  intros Hd. pose proof (round_ne_spec n d Hd). destruct (Z.eq_dec m (round_ne n d)) as [->|Hne]; [lia|]. set (r := round_ne n d) in *.
  assert (n - m * d = (n - r * d) + (r - m) * d) as E by ring. rewrite E. assert (d <= Z.abs ((r - m) * d)) by (rewrite Z.abs_mul; nia). lia.
Qed.

Lemma round_ne_range n d lo hi : 0 < d -> lo * d <= n <= hi * d -> lo <= round_ne n d <= hi.
Proof. intros Hd Hn. pose proof (round_ne_spec n d Hd). set (m := round_ne n d) in *. nia. Qed.

(** The binade of a fraction. *)
Lemma round_to_cases s n d e : 0 < d -> 0 <= e -> 2 ^ 52 * d <= n < 2 ^ (53 + e) * d ->
  exists k, 0 <= k <= e /\ 2 ^ (52 + k) * d <= n < 2 ^ (53 + k) * d /\
    round_to s n d = pack s k (round_ne n (d * 2 ^ k)) /\ 2 ^ 52 <= round_ne n (d * 2 ^ k) <= 2 ^ 53.
Proof.
  intros Hd He [Hlo Hhi]. assert (2 ^ 52 <= n / d) by (apply Z.div_le_lower_bound; lia).
  set (k := Z.log2 (n / d) - 52). assert (0 <= k) as Hk by (apply Z.le_0_sub, Z.log2_le_pow2; lia).
  assert (2 ^ (52 + k) <= n / d < 2 ^ (53 + k)) as [H1 H2].
  { pose proof (Z.log2_spec (n / d) ltac:(lia)) as Hs. unfold k. replace (52 + (Z.log2 (n / d) - 52)) with (Z.log2 (n / d)) by lia.
    replace (53 + (Z.log2 (n / d) - 52)) with (Z.succ (Z.log2 (n / d))) by lia. exact Hs. }
  pose proof (Z.div_mod n d ltac:(lia)). pose proof (Z.mod_pos_bound n d Hd).
  assert (2 ^ (52 + k) * d <= n < 2 ^ (53 + k) * d) as Hb by nia.
  assert (k <= e). { assert (52 + k < 53 + e); [|lia]. apply (Z.pow_lt_mono_r_iff 2); [lia | lia |]. nia. }
  exists k. split; [lia|]. split; [exact Hb|]. split; [now apply round_to_binade|].
  assert (0 < 2 ^ k) by (apply Z.pow_pos_nonneg; lia). rewrite !Z.pow_add_r in Hb by lia. apply round_ne_range; [nia|]. nia.
Qed.

(** Below the overflow threshold the top binade does not carry. *)
Lemma round_ne_top n d m p : 0 < d -> 0 < p -> n < (2 * m - 1) * p * d -> round_ne n (d * (2 * p)) < m.
Proof.
  intros Hd Hp Hn. pose proof (round_ne_spec n (d * (2 * p)) ltac:(nia)) as Hs. set (r := round_ne _ _) in *.
  destruct (Z.lt_ge_cases r m) as [|Hge]; [done|]. exfalso. assert (r * (d * (2 * p)) >= m * (d * (2 * p))) by nia. assert (0 < d * p) by nia. lia.
Qed.

(** IEEE 754's condition for a result that does not overflow. *)
Definition representable (n d : Z) : Prop := n < (2 ^ 54 - 1) * 2 ^ 2044 * d.

Lemma representable_bound n d : 0 < d -> representable n d -> n < 2 ^ (53 + 2045) * d.
Proof.
  unfold representable. intros Hd Hn. eapply Z.lt_trans; [exact Hn|]. apply Z.mul_lt_mono_pos_r; [exact Hd | reflexivity].
Qed.

Lemma round_to_ok s n d : 0 < d -> 0 <= n -> representable n d -> fpr_ok (round_to s n d).
Proof.
  intros Hd Hn Hr. destruct (Z.lt_ge_cases n (2 ^ 52 * d)) as [Hs|Hs].
  - rewrite round_to_small by done. destruct s; (constructor; [cbn [bit]; unfold in_width; lia | vm_compute; discriminate | reflexivity]).
  - destruct (round_to_cases s n d 2045 Hd ltac:(lia) (conj Hs (representable_bound n d Hd Hr))) as (k & Hk & Hb & -> & Hm).
    assert (k = 2045 -> round_ne n (d * 2 ^ k) < 2 ^ 53) as Htop.
    { intros ->. change (2 ^ 2045) with (2 * 2 ^ 2044). apply round_ne_top; [exact Hd | reflexivity | exact Hr]. }
    clear Hb Hr. set (m := round_ne _ _) in *. clearbody m.
    assert (forall k m, 0 <= k <= 2045 -> 2 ^ 52 <= m < 2 ^ 53 -> fpr_ok (pack s k m)) as H.
    { clear. intros k m Hk Hm. destruct (pack_fields s k m) as (H1 & _ & H3 & _); [lia | lia |]. constructor; [exact H1 | lia | lia]. }
    destruct (decide (m = 2 ^ 53)) as [->|]; [rewrite pack_carry|]; apply H; lia.
Qed.

(** [round_to] is correct rounding: its value is nearest to the exact one among all numbers. *)
Lemma round_to_nearest (s : bool) (n d y : Z) :
  0 < d -> 2 ^ 52 * d <= n -> representable n d -> fpr_ok y ->
  let v := if s then - n else n in
  Z.abs (v - value (round_to s n d) * d) <= Z.abs (v - value y * d).
Proof.
  intros Hd Hs Hr Hy. cbv zeta.
  destruct (round_to_cases s n d 2045 Hd ltac:(lia) (conj Hs (representable_bound n d Hd Hr))) as (k & Hk & Hb & -> & Hm). clear Hr.
  unfold value at 1. rewrite sign_pack, magnitude_pack by lia. set (m := round_ne n (d * 2 ^ k)) in *.
  assert (0 < 2 ^ k) as Hp by (apply Z.pow_pos_nonneg; lia). rewrite Z.pow_add_r in Hb by lia.
  assert (forall t, t < 2 ^ 52 * 2 ^ k \/ (exists c, t = c * 2 ^ k) -> Z.abs (n - m * 2 ^ k * d) <= Z.abs (n - t * d)) as Hnear.
  { intros t [Ht|[c ->]].
    - pose proof (round_ne_nearest n (d * 2 ^ k) (2 ^ 52) ltac:(nia)) as Hm'. fold m in Hm'. nia.
    - pose proof (round_ne_nearest n (d * 2 ^ k) c ltac:(nia)) as Hm'. fold m in Hm'.
      replace (m * 2 ^ k * d) with (m * (d * 2 ^ k)) by ring. replace (c * 2 ^ k * d) with (c * (d * 2 ^ k)) by ring. exact Hm'. }
  assert (forall t, t = value y \/ t = - value y -> t < 2 ^ 52 * 2 ^ k \/ exists c, t = c * 2 ^ k) as Hy'.
  { assert (magnitude y < 2 ^ 52 * 2 ^ k \/ exists c, magnitude y = c * 2 ^ k) as Hmag.
    { destruct (fpr_cases y Hy) as [[_ ->]|(ky & my & _ & Hky & Hmy & ->)]; [left; nia|]. destruct (Z.le_gt_cases k ky) as [Hle|Hlt].
      - right. exists (my * 2 ^ (ky - k)). rewrite <- Z.mul_assoc, <- Z.pow_add_r by lia. do 2 f_equal. lia.
      - left. assert (2 * 2 ^ ky <= 2 ^ k) by (rewrite <- Z.pow_succ_r by lia; apply Z.pow_le_mono_r; lia). nia. }
    pose proof (magnitude_nonneg y). unfold value. intros t Ht.
    assert (t = magnitude y \/ t = - magnitude y) as [->| ->] by (destruct (fpr_sign y); lia); [exact Hmag | left; nia]. }
  destruct s.
  - pose proof (Hnear (- value y) (Hy' _ (or_intror eq_refl))). replace (- n - - (m * 2 ^ k) * d) with (- (n - m * 2 ^ k * d)) by ring.
    replace (- n - value y * d) with (- (n - - value y * d)) by ring. lia.
  - exact (Hnear (value y) (Hy' _ (or_introl eq_refl))).
Qed.
