(* ===== verification/Fpr.v ===== *)
(** Fpr: the emulated binary64 arithmetic of [fpr.h] and [fpr.c].

    An [fpr] is its 64-bit encoding.  The C type [int] holds exponents and shift counts: they stay far
    from its bounds, and conversions from unsigned values are written out. *)

From Stdlib Require Import ZArith Lia.
From stdpp Require Import base numbers list.
From S2P Require Import Prelude Rounding.

Definition fpr_ursh (x n : Z) : Z :=
  let x := x .^ ((x .^ (x .>> 32)) .& u64 (- (n .>> 5))) in
  x .>> (n .& 31).

Definition fpr_irsh (x n : Z) : Z :=
  let x := x .^ ((x .^ (x .>> 32)) .& - (n .>> 5)) in
  x .>> (n .& 31).

Definition fpr_ulsh (x n : Z) : Z :=
  let x := x .^ ((x .^ u64 (x .<< 32)) .& u64 (- (n .>> 5))) in
  u64 (x .<< (n .& 31)).

Definition FPR (s e m : Z) : Z :=
  let e := e + 1076 in
  let t := u32 e .>> 31 in
  let m := m .& u64 (t - 1) in
  let t := u32 (m .>> 54) in
  let e := e .& - i32 t in
  let x := u64 ((u64 (s .<< 63) .| (m .>> 2)) + u64 (u32 e .<< 52)) in
  let f := u32 m .& 7 in
  u64 (x + ((0xC8 .>> f) .& 1)).

(** One conditional shift of the macro: by [w = 2^l] bits when the [w] top bits are zero. *)
Definition norm_step (l : Z) (st : Z * Z) : Z * Z :=
  let '(m, e) := st in
  let w := 2 ^ l in
  let nt := u32 (m .>> (64 - w)) in
  let nt := (nt .| u32 (- nt)) .>> 31 in
  (m .^ ((m .^ u64 (m .<< w)) .& u64 (nt - 1)), e + (nt .<< l)).

Definition FPR_NORM64 (m e : Z) : Z * Z :=
  let e := e - 63 in
  let '(m, e) := norm_step 1 (norm_step 2 (norm_step 3 (norm_step 4 (norm_step 5 (m, e))))) in
  let nt := u32 (m .>> 63) in
  (m .^ ((m .^ u64 (m .<< 1)) .& u64 (nt - 1)), e + nt).

(** [i] is not -2^63. *)
Definition fpr_scaled (i sc : Z) : Z :=
  let s := u64 i .>> 63 in
  let i := i .^ - s in
  let i := i + s in
  let m := u64 i in
  let e := 9 + sc in
  let '(m, e) := FPR_NORM64 m e in
  let m := m .| ((u32 m .& 0x1FF) + 0x1FF) in
  let m := m .>> 9 in
  let t := u32 (u64 (i .| - i) .>> 63) in
  let m := m .& u64 (- t) in
  let e := e .& - i32 t in
  FPR s e m.

Definition fpr_of (i : Z) : Z := fpr_scaled i 0.

(** Sign, exponent and mantissa of an operand of [fpr_add]. *)
Definition add_unpack (x : Z) : Z * Z * Z :=
  let ex := i32 (x .>> 52) in
  let sx := ex .>> 11 in
  let ex := ex .& 0x7FF in
  let m := u64 (u32 ((ex + 0x7FF) .>> 11) .<< 52) in
  let xu := u64 (((x .& ((1 .<< 52) - 1)) .| m) .<< 3) in
  (sx, ex - 1078, xu).

Definition fpr_add (x y : Z) : Z :=
  let m := (1 .<< 63) - 1 in
  let za := u64 ((x .& m) - (y .& m)) in
  let cs := u32 (za .>> 63) .| (u32 (1 - u32 (u64 (- za) .>> 63)) .& u32 (x .>> 63)) in
  let m := (x .^ y) .& u64 (- cs) in
  let x := x .^ m in
  let y := y .^ m in
  let '(sx, ex, xu) := add_unpack x in
  let '(sy, ey, yu) := add_unpack y in
  let cc := ex - ey in
  let yu := yu .& u64 (- (u32 (cc - 60) .>> 31)) in
  let cc := cc .& 63 in
  let m := u64 (fpr_ulsh 1 cc - 1) in
  let yu := yu .| u64 ((yu .& m) + m) in
  let yu := fpr_ursh yu cc in
  let xu := u64 (xu + u64 (yu - (u64 (yu .<< 1) .& u64 (- (sx .^ sy))))) in
  let '(xu, ex) := FPR_NORM64 xu ex in
  let xu := xu .| ((u32 xu .& 0x1FF) + 0x1FF) in
  let xu := xu .>> 9 in
  let ex := ex + 9 in
  FPR sx ex xu.

Definition fpr_mul (x y : Z) : Z :=
  let xu := (x .& ((1 .<< 52) - 1)) .| (1 .<< 52) in
  let yu := (y .& ((1 .<< 52) - 1)) .| (1 .<< 52) in
  let x0 := u32 xu .& 0x01FFFFFF in
  let x1 := u32 (xu .>> 25) in
  let y0 := u32 yu .& 0x01FFFFFF in
  let y1 := u32 (yu .>> 25) in
  let w := u64 (x0 * y0) in
  let z0 := u32 w .& 0x01FFFFFF in
  let z1 := u32 (w .>> 25) in
  let w := u64 (x0 * y1) in
  let z1 := u32 (z1 + (u32 w .& 0x01FFFFFF)) in
  let z2 := u32 (w .>> 25) in
  let w := u64 (x1 * y0) in
  let z1 := u32 (z1 + (u32 w .& 0x01FFFFFF)) in
  let z2 := u32 (z2 + u32 (w .>> 25)) in
  let zu := u64 (x1 * y1) in
  let z2 := u32 (z2 + (z1 .>> 25)) in
  let z1 := z1 .& 0x01FFFFFF in
  let zu := u64 (zu + z2) in
  let zu := zu .| (u32 ((z0 .| z1) + 0x01FFFFFF) .>> 25) in
  let zv := (zu .>> 1) .| (zu .& 1) in
  let w := zu .>> 55 in
  let zu := zu .^ ((zu .^ zv) .& u64 (- w)) in
  let ex := i32 ((x .>> 52) .& 0x7FF) in
  let ey := i32 ((y .>> 52) .& 0x7FF) in
  let e := ex + ey - 2100 + i32 w in
  let s := i32 ((x .^ y) .>> 63) in
  let d := ((ex + 0x7FF) .& (ey + 0x7FF)) .>> 11 in
  let zu := zu .& u64 (- d) in
  FPR s e zu.

Definition div_step (yu : Z) (i : nat) (st : Z * Z) : Z * Z :=
  let '(xu, q) := st in
  let b := u64 ((u64 (xu - yu) .>> 63) - 1) in
  let xu := u64 (xu - (b .& yu)) in
  let q := q .| (b .& 1) in
  (u64 (xu .<< 1), u64 (q .<< 1)).

Definition fpr_div (x y : Z) : Z :=
  let xu := (x .& ((1 .<< 52) - 1)) .| (1 .<< 52) in
  let yu := (y .& ((1 .<< 52) - 1)) .| (1 .<< 52) in
  let '(xu, q) := for_up 0 55 (div_step yu) (xu, 0) in
  let q := q .| ((xu .| u64 (- xu)) .>> 63) in
  let q2 := (q .>> 1) .| (q .& 1) in
  let w := q .>> 55 in
  let q := q .^ ((q .^ q2) .& u64 (- w)) in
  let ex := i32 ((x .>> 52) .& 0x7FF) in
  let ey := i32 ((y .>> 52) .& 0x7FF) in
  let e := ex - ey - 55 + i32 w in
  let s := i32 ((x .^ y) .>> 63) in
  let d := (ex + 0x7FF) .>> 11 in
  let s := s .& d in
  let e := e .& - d in
  let q := q .& u64 (- d) in
  FPR s e q.

Definition sqrt_step (i : nat) (st : Z * Z * Z * Z) : Z * Z * Z * Z :=
  let '(xu, q, s, r) := st in
  let t := u64 (s + r) in
  let b := u64 ((u64 (xu - t) .>> 63) - 1) in
  let s := u64 (s + (u64 (r .<< 1) .& b)) in
  let xu := u64 (xu - (t .& b)) in
  let q := u64 (q + (r .& b)) in
  (u64 (xu .<< 1), q, s, r .>> 1).

Definition fpr_sqrt (x : Z) : Z :=
  let xu := (x .& ((1 .<< 52) - 1)) .| (1 .<< 52) in
  let ex := i32 ((x .>> 52) .& 0x7FF) in
  let e := ex - 1023 in
  let xu := u64 (xu + (xu .& u64 (- (e .& 1)))) in
  let e := e .>> 1 in
  let xu := u64 (xu .<< 1) in
  let '(xu, q, _, _) := for_up 0 54 sqrt_step (xu, 0, 0, 1 .<< 53) in
  let q := u64 (q .<< 1) in
  let q := q .| ((xu .| u64 (- xu)) .>> 63) in
  let e := e - 54 in
  let q := q .& u64 (- ((ex + 0x7FF) .>> 11)) in
  FPR 0 e q.

Definition fpr_sub (x y : Z) : Z := fpr_add x (y .^ (1 .<< 63)).
Definition fpr_neg (x : Z) : Z := x .^ (1 .<< 63).
Definition fpr_sqr (x : Z) : Z := fpr_mul x x.
Definition fpr_inv (x : Z) : Z := fpr_div 4607182418800017408 x.

Definition fpr_half (x : Z) : Z :=
  let x := u64 (x - (1 .<< 52)) in
  let t := u32 ((u32 (x .>> 52) .& 0x7FF) + 1) .>> 11 in
  x .& u64 (t - 1).

Definition fpr_double (x : Z) : Z :=
  u64 (x + u64 (u64 (u32 ((u32 (x .>> 52) .& 0x7FF) + 0x7FF) .>> 11) .<< 52)).

Definition fpr_lt (x y : Z) : Z :=
  let sx := i64 x in
  let sy := i64 y in
  let sy := sy .& Z.lnot ((sx .^ sy) .>> 63) in
  let cc0 := i32 ((sx - sy) .>> 63) .& 1 in
  let cc1 := i32 ((sy - sx) .>> 63) .& 1 in
  cc0 .^ ((cc0 .^ cc1) .& i32 ((x .& y) .>> 63)).

(** The mantissa as an integer of 63 bits. *)
Definition int_mantissa (x : Z) : Z := (u64 (x .<< 10) .| (1 .<< 62)) .& ((1 .<< 63) - 1).

Definition fpr_rint (x : Z) : Z :=
  let m := int_mantissa x in
  let e := 1085 - (i32 (x .>> 52) .& 0x7FF) in
  let m := m .& u64 (- (u32 (e - 64) .>> 31)) in
  let e := e .& 63 in
  let d := fpr_ulsh m (63 - e) in
  let dd := u32 d .| (u32 (d .>> 32) .& 0x1FFFFFFF) in
  let f := u32 (d .>> 61) .| ((dd .| u32 (- dd)) .>> 31) in
  let m := u64 (fpr_ursh m e + ((0xC8 .>> f) .& 1)) in
  let s := u32 (x .>> 63) in
  (i64 m .^ - s) + s.

Definition fpr_floor (x : Z) : Z :=
  let e := i32 (x .>> 52) .& 0x7FF in
  let t := x .>> 63 in
  let xi := i64 (int_mantissa x) in
  let xi := (xi .^ - i64 t) + i64 t in
  let cc := 1085 - e in
  let xi := fpr_irsh xi (cc .& 63) in
  xi .^ ((xi .^ - i64 t) .& - (u32 (63 - cc) .>> 31)).

Definition fpr_trunc (x : Z) : Z :=
  let e := i32 (x .>> 52) .& 0x7FF in
  let xu := int_mantissa x in
  let cc := 1085 - e in
  let xu := fpr_ursh xu (cc .& 63) in
  let xu := xu .& u64 (- (u32 (cc - 64) .>> 31)) in
  let t := x .>> 63 in
  i64 (u64 ((xu .^ u64 (- t)) + t)).

(** The 64 top bits of the product of two 64-bit words, by halves. *)
Definition mul_high (z y : Z) : Z :=
  let z0 := u32 z in
  let z1 := u32 (z .>> 32) in
  let y0 := u32 y in
  let y1 := u32 (y .>> 32) in
  let a := u64 (u64 (z0 * y1) + (u64 (z0 * y0) .>> 32)) in
  let b := u64 (z1 * y0) in
  let c := u64 ((a .>> 32) + (b .>> 32)) in
  let c := u64 (c + (u64 (u32 a + u32 b) .>> 32)) in
  u64 (c + u64 (z1 * y1)).

Definition fpr_ptwo63 : Z := 4890909195324358656.

Definition expm_coefs : list Z :=
  [0x00000004741183A3; 0x00000036548CFC06; 0x0000024FDCBF140A; 0x0000171D939DE045; 0x0000D00CF58F6F84;
   0x000680681CF796E3; 0x002D82D8305B0FEA; 0x011111110E066FD0; 0x0555555555070F00; 0x155555555581FF00;
   0x400000000002B400; 0x7FFFFFFFFFFF4800; 0x8000000000000000].

Definition fpr_expm_p63 (x ccs : Z) : Z :=
  let y := expm_coefs !!! 0%nat in
  let z := u64 (u64 (fpr_trunc (fpr_mul x fpr_ptwo63)) .<< 1) in
  let y := for_up 1 13 (fun u y => u64 (expm_coefs !!! u - mul_high z y)) y in
  let z := u64 (u64 (fpr_trunc (fpr_mul ccs fpr_ptwo63)) .<< 1) in
  mul_high z y.
