(* ===== verification/FprPack.v ===== *)
(** FprPack: packing, normalisation and conversion from integers round correctly. *)

From Stdlib Require Import ZArith Lia.
From stdpp Require Import base numbers list.
From S2P Require Import Prelude Rounding Fpr.

(** * Packing *)

(** The constant [0xC8] tells when the three low bits ask for an increment. *)
Lemma round_bit m : 0 <= m -> (0xC8 .>> (u32 m .& 7)) .& 1 = round_ne m 4 - m / 4.
Proof.
  intros Hm. assert (u32 m .& 7 = m mod 8) as ->.
  { change 7 with (Z.ones 3). rewrite Z.land_ones, wrap_mod by lia. change (2 ^ 32) with (2 ^ 3 * 2 ^ 29). change 8 with (2 ^ 3).
    rewrite Z.rem_mul_r, Z.mul_comm, Z_mod_plus_full, Z.mod_mod by lia. reflexivity. }
  pose proof (Z.div_mod m 8 ltac:(lia)) as E. pose proof (Z.mod_pos_bound m 8 ltac:(lia)) as Hr. set (q := m / 8) in *. set (r := m mod 8) in *.
  rewrite E. clearbody q r. clear E m Hm. unfold round_ne. assert (Z.odd (2 * q) = false) as Ho by now rewrite Z.odd_mul.
  assert (forall b c, r = 4 * b + c -> 0 <= b < 2 -> 0 <= c < 4 -> (8 * q + r) / 4 = 2 * q + b /\ (8 * q + r) mod 4 = c) as Hd.
  { intros b c -> Hb Hc. split; symmetry; [apply (Z.div_unique _ _ _ c) | apply (Z.mod_unique _ _ (2 * q + b))]; lia. }
  set (t := 2 * q) in *. clearbody t.
  assert (r = 0 \/ r = 1 \/ r = 2 \/ r = 3 \/ r = 4 \/ r = 5 \/ r = 6 \/ r = 7) as Hc by lia.
  assert (exists b c, r = 4 * b + c /\ (b = 0 \/ b = 1) /\ (c = 0 \/ c = 1 \/ c = 2 \/ c = 3)) as (b & c & Er & Hb & Hcc).
  { exists (r / 4), (r mod 4). pose proof (Z.div_mod r 4 ltac:(lia)). pose proof (Z.mod_pos_bound r 4 ltac:(lia)). lia. }
  destruct (Hd b c Er) as [-> ->]; [lia..|]. clear Hd Hc. rewrite Er.
  destruct Hb as [->| ->], Hcc as [->|[->|[->| ->]]]; rewrite ?(Z.add_0_r t), ?(Z.odd_add t 1), ?Ho;
    (match goal with |- ?l = _ => let v := eval vm_compute in l in change l with v end);
    (match goal with |- context [?x ?= 4] => let v := eval vm_compute in (x ?= 4) in change (x ?= 4) with v end);
    cbn [xorb negb Z.odd]; lia.
Qed.

Lemma round_ne_4 m : 0 <= m -> m / 4 <= round_ne m 4 <= m / 4 + 1.
Proof.
  intros Hm. unfold round_ne. destruct (2 * (m mod 4) ?= 4); [destruct (Z.odd (m / 4))| |]; lia.
Qed.

(** The encoding before rounding. *)
Lemma pack_bits (s : bool) k h :
  0 <= k -> 0 <= h < 2 ^ 53 -> k * 2 ^ 52 + h < 2 ^ 63 ->
  u64 ((u64 (bit s .<< 63) .| h) + u64 (u32 k .<< 52)) = bit s * 2 ^ 63 + k * 2 ^ 52 + h.
Proof.
  intros Hk Hh Hb. rewrite (wrap_small 32 k) by (unfold in_width; lia).
  assert (u64 (bit s .<< 63) = bit s .<< 63) as -> by (apply wrap_small; rewrite Z.shiftl_mul_pow2 by lia; destruct s; unfold in_width; cbn [bit]; lia).
  rewrite lor_shiftl_add, Z.shiftl_mul_pow2 by lia. rewrite (wrap_small 64 (k * 2 ^ 52)) by (unfold in_width; lia).
  rewrite wrap_small; [lia|]. unfold in_width. destruct s; cbn [bit]; lia.
Qed.

Lemma FPR_zero (s : bool) e : FPR (bit s) e 0 = bit s * 2 ^ 63.
Proof.
  unfold FPR. cbv zeta. rewrite !Z.land_0_l. change (0 .>> 54) with 0. change (- i32 (u32 0)) with 0. rewrite Z.land_0_r.
  destruct s; reflexivity.
Qed.

Lemma FPR_spec (s : bool) e m :
  2 ^ 54 <= m < 2 ^ 55 -> -1076 <= e -> e + 1076 <= 2045 -> FPR (bit s) e m = pack s (e + 1076) (round_ne m 4).
Proof.
  intros Hm He1 He2. unfold FPR. cbv zeta. set (k := e + 1076) in *.
  assert (u32 k .>> 31 = bit false) as -> by (rewrite wrap_small by (unfold in_width; lia); rewrite Z.shiftr_div_pow2 by lia; apply Z.div_small; lia).
  rewrite mask_off by (unfold in_width; lia). cbv iota.
  assert (m .>> 54 = 1) as -> by (rewrite Z.shiftr_div_pow2 by lia; symmetry; apply (Z.div_unique _ _ _ (m - 2 ^ 54)); lia).
  change (- i32 (u32 1)) with (-1). rewrite Z.land_m1_r, Z.shiftr_div_pow2 by lia. change (2 ^ 2) with 4.
  assert (0 <= m / 4 < 2 ^ 53) by (split; [apply Z.div_pos | apply Z.div_lt_upper_bound]; lia).
  rewrite pack_bits by lia. rewrite round_bit by lia. unfold pack. pose proof (round_ne_4 m ltac:(lia)).
  rewrite wrap_small; [lia|]. unfold in_width. destruct s; cbn [bit]; lia.
Qed.

Lemma FPR_flush (s : bool) e m : in_width 64 m -> - 2 ^ 31 + 1076 <= e < -1076 -> FPR (bit s) e m = bit s * 2 ^ 63.
Proof.
  intros Hm He. rewrite <- (FPR_zero s (e)). unfold FPR at 1. cbv zeta.
  assert (u32 (e + 1076) .>> 31 = bit true) as E.
  { assert (u32 (e + 1076) = e + 1076 + 2 ^ 32) as -> by word_lia. rewrite Z.shiftr_div_pow2 by lia. symmetry. apply (Z.div_unique _ _ _ (e + 1076 + 2 ^ 31)); cbn [bit]; lia. }
  rewrite E, mask_off by (assumption || lia). unfold FPR. cbv zeta. rewrite E, Z.land_0_l. reflexivity.
Qed.

(** Packing a sticky quotient rounds the exact fraction correctly. *)
Lemma FPR_round (s : bool) e N D n d a b :
  0 < D -> 0 < d -> 2 ^ 54 * D <= N < 2 ^ 55 * D -> - 2 ^ 30 <= e -> 0 <= a -> 0 <= b -> e + 1076 = b - a ->
  4 * n * D * 2 ^ a = N * d * 2 ^ b -> n < 2 ^ (53 + 2045) * d ->
  FPR (bit s) e (stick N D) = round_to s n d.
Proof.
  intros HD Hd [HN1 HN2] He Ha Hb Hab E Hn.
  assert (2 ^ 54 <= stick N D < 2 ^ 55) as Hm by (apply stick_bounds; [exact HD | reflexivity | lia]).
  assert (1 <= 2 ^ a) as Pa by (apply (Z.pow_le_mono_r 2 0); lia). assert (1 <= 2 ^ b) as Pb by (apply (Z.pow_le_mono_r 2 0); lia).
  destruct (Z.lt_ge_cases b a) as [Hlt|Hge].
  - rewrite FPR_flush by (unfold in_width; lia). symmetry. apply round_to_small.
    assert (2 * 2 ^ b <= 2 ^ a) by (rewrite <- Z.pow_succ_r by lia; apply Z.pow_le_mono_r; lia).
    clear Hn. destruct (Z.lt_ge_cases n (2 ^ 52 * d)) as [|Hc]; [done|]. exfalso.
    assert (2 ^ 52 * d * D * (2 * 2 ^ b) <= n * D * 2 ^ a) by (apply Z.mul_le_mono_nonneg; nia).
    assert (N * d * 2 ^ b < 2 ^ 55 * D * d * 2 ^ b) by (apply Z.mul_lt_mono_pos_r; nia). lia.
  - set (k := e + 1076) in *. assert (b = a + k) as -> by lia. rewrite Z.pow_add_r in E by lia.
    assert (0 <= k) as Hk0 by lia. assert (4 * n * D = N * d * 2 ^ k) as E4 by (apply (Z.mul_cancel_r _ _ (2 ^ a)); lia). clear E Pb Pa Ha Hb Hge Hab.
    assert (1 <= 2 ^ k) as Pk by (apply (Z.pow_le_mono_r 2 0); lia).
    assert (2 ^ 52 * 2 ^ k * d <= n /\ n < 2 ^ 53 * 2 ^ k * d) as [B1 B2].
    { assert (2 ^ 54 * D * (d * 2 ^ k) <= N * (d * 2 ^ k) < 2 ^ 55 * D * (d * 2 ^ k)) as [C1 C2] by (split; [apply Z.mul_le_mono_nonneg_r | apply Z.mul_lt_mono_pos_r]; nia).
      split; [apply (Z.mul_le_mono_pos_r _ _ (4 * D)) | apply (Z.mul_lt_mono_pos_r (4 * D))]; lia. }
    assert (k <= 2045) as Hk.
    { assert (52 + k < 53 + 2045); [|lia]. apply (Z.pow_lt_mono_r_iff 2); [lia | lia |]. rewrite (Z.pow_add_r 2 52 k) by lia.
      set (T := 2 ^ (53 + 2045)) in *. clearbody T. nia. }
    clear Hn. rewrite FPR_spec by lia. fold k. change 4 with (2 ^ 2) at 1. rewrite round_ne_stick by lia. change (2 ^ 2) with 4.
    rewrite (round_to_binade s n d k) by (rewrite ?Z.pow_add_r by lia; lia). f_equal. apply round_ne_ratio; [lia | nia | nia].
Qed.

(** * Normalisation *)

Lemma norm_step_spec l m e :
  0 <= l <= 5 -> in_width 64 m ->
  norm_step l (m, e) = if 2 ^ (64 - 2 ^ l) <=? m then (m, e + 2 ^ l) else (m * 2 ^ 2 ^ l, e).
Proof.
  intros Hl Hm. unfold norm_step. cbv zeta. set (w := 2 ^ l). assert (1 <= w <= 32) as Hw.
  { unfold w. split; [apply (Z.pow_le_mono_r 2 0); lia | change 32 with (2 ^ 5); apply Z.pow_le_mono_r; lia]. }
  assert (2 ^ 64 = 2 ^ (64 - w) * 2 ^ w) as E64 by (rewrite <- Z.pow_add_r by lia; f_equal; lia).
  assert (2 ^ w <= 2 ^ 32) by (apply Z.pow_le_mono_r; lia). assert (1 <= 2 ^ (64 - w)) by (apply (Z.pow_le_mono_r 2 0); lia).
  unfold in_width in Hm. assert (0 <= m / 2 ^ (64 - w) < 2 ^ w) as Hh by (split; [apply Z.div_pos | apply Z.div_lt_upper_bound]; lia).
  rewrite (Z.shiftr_div_pow2 m) by lia. rewrite (wrap_small 32 (m / 2 ^ (64 - w))) by (unfold in_width; lia).
  pose proof (nonzero_flag 32 (m / 2 ^ (64 - w)) ltac:(lia)) as Hf. change (32 - 1) with 31 in Hf. rewrite Hf by (unfold in_width; lia).
  assert (negb (m / 2 ^ (64 - w) =? 0) = (2 ^ (64 - w) <=? m)) as ->.
  { apply eq_true_iff_eq. rewrite negb_true_iff, Z.eqb_neq, Z.leb_le. split; intros Hc.
    - destruct (Z.le_gt_cases (2 ^ (64 - w)) m) as [|Hgt]; [done|]. rewrite Z.div_small in Hc; lia.
    - assert (1 <= m / 2 ^ (64 - w)); [|lia]. apply Z.div_le_lower_bound; lia. }
  rewrite select_off by (done || lia || (apply wrap_range; lia)). destruct (Z.leb_spec (2 ^ (64 - w)) m) as [Hge|Hlt]; cbn [bit].
  - rewrite Z.shiftl_mul_pow2, Z.mul_1_l by lia. reflexivity.
  - rewrite Z.shiftl_0_l, Z.add_0_r, Z.shiftl_mul_pow2, wrap_small by (try lia; unfold in_width; nia). reflexivity.
Qed.

(** Each step halves the number of leading zeros that may be left. *)
Lemma norm_step_progress l m e :
  0 <= l <= 5 -> 2 ^ (64 - 2 ^ (l + 1)) <= m < 2 ^ 64 ->
  exists j, (j = 0 \/ j = 2 ^ l) /\ norm_step l (m, e) = (m * 2 ^ j, e + 2 ^ l - j) /\ 2 ^ (64 - 2 ^ l) <= m * 2 ^ j < 2 ^ 64.
Proof.
  intros Hl Hm. assert (1 <= 2 ^ l <= 32) as Hw.
  { split; [apply (Z.pow_le_mono_r 2 0); lia | change 32 with (2 ^ 5); apply Z.pow_le_mono_r; lia]. }
  assert (0 <= m) by (pose proof (Z.pow_nonneg 2 (64 - 2 ^ (l + 1)) ltac:(lia)); lia).
  rewrite norm_step_spec by (done || (unfold in_width; lia)). rewrite Z.pow_add_r in Hm by lia. set (w := 2 ^ l) in *.
  destruct (Z.leb_spec (2 ^ (64 - w)) m) as [Hge|Hlt].
  - exists 0. split; [now left|]. split; [f_equal; lia | lia].
  - exists w. split; [now right|]. split; [f_equal; lia|].
    assert (2 ^ 64 = 2 ^ (64 - w) * 2 ^ w) as E64 by (rewrite <- Z.pow_add_r by lia; f_equal; lia).
    assert (2 ^ (64 - w) = 2 ^ (64 - w * 2 ^ 1) * 2 ^ w) as Ew by (rewrite <- Z.pow_add_r by lia; f_equal; lia). nia.
Qed.

Lemma FPR_NORM64_spec m e :
  0 < m < 2 ^ 64 -> exists j, 0 <= j <= 63 /\ FPR_NORM64 m e = (m * 2 ^ j, e - j) /\ 2 ^ 63 <= m * 2 ^ j < 2 ^ 64.
Proof.
  intros Hm. unfold FPR_NORM64. cbv zeta.
  destruct (norm_step_progress 5 m (e - 63)) as (j5 & H5 & -> & R5); [lia | cbn; lia |].
  destruct (norm_step_progress 4 (m * 2 ^ j5) (e - 63 + 2 ^ 5 - j5)) as (j4 & H4 & -> & R4); [lia | exact R5 |].
  destruct (norm_step_progress 3 (m * 2 ^ j5 * 2 ^ j4) (e - 63 + 2 ^ 5 - j5 + 2 ^ 4 - j4)) as (j3 & H3 & -> & R3); [lia | exact R4 |].
  destruct (norm_step_progress 2 (m * 2 ^ j5 * 2 ^ j4 * 2 ^ j3) (e - 63 + 2 ^ 5 - j5 + 2 ^ 4 - j4 + 2 ^ 3 - j3)) as (j2 & H2 & -> & R2); [lia | exact R3 |].
  destruct (norm_step_progress 1 (m * 2 ^ j5 * 2 ^ j4 * 2 ^ j3 * 2 ^ j2) (e - 63 + 2 ^ 5 - j5 + 2 ^ 4 - j4 + 2 ^ 3 - j3 + 2 ^ 2 - j2))
    as (j1 & H1 & -> & R1); [lia | exact R2 |].
  clear R5 R4 R3 R2. change (2 ^ (64 - 2 ^ 1)) with (2 ^ 62) in R1. change (2 ^ 5) with 32 in *. change (2 ^ 4) with 16 in *.
  change (2 ^ 3) with 8 in *. change (2 ^ 2) with 4 in *. change (2 ^ 1) with 2 in *.
  assert (0 <= j5 <= 32) by (clear - H5; lia). assert (0 <= j4 <= 16) by (clear - H4; lia). assert (0 <= j3 <= 8) by (clear - H3; lia).
  assert (0 <= j2 <= 4) by (clear - H2; lia). assert (0 <= j1 <= 2) by (clear - H1; lia). clear H5 H4 H3 H2 H1.
  assert (m * 2 ^ j5 * 2 ^ j4 * 2 ^ j3 * 2 ^ j2 * 2 ^ j1 = m * 2 ^ (j5 + j4 + j3 + j2 + j1)) as EM by (rewrite !Z.pow_add_r by lia; ring).
  set (M := m * 2 ^ j5 * 2 ^ j4 * 2 ^ j3 * 2 ^ j2 * 2 ^ j1) in *. clearbody M.
  rewrite Z.shiftr_div_pow2 by lia.
  assert (u32 (M / 2 ^ 63) = bit (2 ^ 63 <=? M)) as ->.
  { destruct (Z.leb_spec (2 ^ 63) M); cbn [bit]; [|now rewrite Z.div_small by lia].
    assert (M / 2 ^ 63 = 1) as -> by (symmetry; apply (Z.div_unique _ _ _ (M - 2 ^ 63)); lia). reflexivity. }
  rewrite select_off by (lia || (apply wrap_range; lia) || (unfold in_width; lia)). destruct (Z.leb_spec (2 ^ 63) M); cbn [bit].
  - exists (j5 + j4 + j3 + j2 + j1). split; [lia|]. rewrite <- EM. split; [f_equal; lia | lia].
  - exists (j5 + j4 + j3 + j2 + j1 + 1). split; [lia|]. rewrite (Z.pow_add_r 2 _ 1), Z.mul_assoc, <- EM by lia.
    rewrite Z.shiftl_mul_pow2, wrap_small by (unfold in_width; lia). split; [f_equal; lia | lia].
Qed.

Lemma FPR_NORM64_zero e : FPR_NORM64 0 e = (0, e - 63).
Proof.
  unfold FPR_NORM64. cbv zeta. assert (forall l e, norm_step l (0, e) = (0, e)) as H.
  { intros l e'. unfold norm_step. rewrite Z.shiftr_0_l, Z.shiftl_0_l. change (u32 0) with 0. change (u32 (- 0)) with 0. change (u64 0) with 0.
    change ((0 .| 0) .>> 31) with 0. rewrite Z.shiftl_0_l, Z.add_0_r. reflexivity. }
  rewrite !H. cbv iota beta zeta. change (u32 (0 .>> 63)) with 0. rewrite Z.add_0_r. reflexivity.
Qed.

(** Scaling a normalised word down to 55 bits. *)
Lemma scale_down m : 2 ^ 63 <= m < 2 ^ 64 -> (m .| ((u32 m .& 0x1FF) + 0x1FF)) .>> 9 = stick m (2 ^ 9) /\ 2 ^ 54 <= stick m (2 ^ 9) < 2 ^ 55.
Proof.
  intros Hm. split; [|apply stick_bounds; [lia | reflexivity | lia]].
  assert (u32 m .& 0x1FF = m mod 2 ^ 9) as ->.
  { change 0x1FF with (Z.ones 9). rewrite Z.land_ones, wrap_mod by lia. change (2 ^ 32) with (2 ^ 9 * 2 ^ 23).
    rewrite Z.rem_mul_r, Z.mul_comm, Z_mod_plus_full, Z.mod_mod by lia. reflexivity. }
  rewrite Z.shiftr_lor, !Z.shiftr_div_pow2 by lia. unfold stick. pose proof (Z.mod_pos_bound m (2 ^ 9) ltac:(lia)).
  destruct (Z.eqb_spec (m mod 2 ^ 9) 0) as [->|Hne]; [apply Z.lor_0_r|]. f_equal.
  symmetry. apply (Z.div_unique _ _ _ (m mod 2 ^ 9 - 1)); lia.
Qed.

(** * Conversion from integers *)

Lemma sign_bit i : - 2 ^ 63 <= i < 2 ^ 63 -> u64 i .>> 63 = bit (i <? 0).
Proof.
  intros Hi. destruct (Z.ltb_spec i 0); cbn [bit].
  - assert (u64 i = i + 2 ^ 64) as -> by word_lia. rewrite Z.shiftr_div_pow2 by lia. symmetry. apply (Z.div_unique _ _ _ (i + 2 ^ 63)); lia.
  - rewrite wrap_small by (unfold in_width; lia). rewrite Z.shiftr_div_pow2 by lia. apply Z.div_small. lia.
Qed.

Lemma conditional_negate i (s : bool) : (i .^ - bit s) + bit s = if s then - i else i.
Proof. destruct s; cbn [bit]; [change (Z.opp 1) with (-1); rewrite Z.lxor_m1_r; unfold Z.lnot; lia | rewrite Z.lxor_0_r; lia]. Qed.

Lemma wrap_lor w a b : wrap w (a .| b) = wrap w a .| wrap w b.
Proof. apply Z.land_lor_distr_l. Qed.

(** The magnitude of [i * 2^sc], as a fraction. *)
Definition scaled_num (i sc : Z) : Z := Z.abs i * 2 ^ Z.max (sc + 1074) 0.
Definition scaled_den (sc : Z) : Z := 2 ^ Z.max (- (sc + 1074)) 0.

Lemma fpr_scaled_spec i sc :
  - 2 ^ 63 < i < 2 ^ 63 -> - 2 ^ 29 <= sc <= 2 ^ 29 -> representable (scaled_num i sc) (scaled_den sc) ->
  fpr_scaled i sc = round_to (i <? 0) (scaled_num i sc) (scaled_den sc).
Proof.
  intros Hi Hsc Hr. assert (0 < scaled_den sc) as Hd by (apply Z.pow_pos_nonneg; lia). apply representable_bound in Hr; [|exact Hd].
  unfold fpr_scaled. cbv zeta. rewrite sign_bit by lia. rewrite conditional_negate.
  assert ((if i <? 0 then - i else i) = Z.abs i) as -> by (destruct (Z.ltb_spec i 0); lia).
  rewrite (wrap_small 64 (Z.abs i)) by (unfold in_width; lia). destruct (Z.eq_dec i 0) as [->|Hne].
  - change (Z.abs 0) with 0. rewrite FPR_NORM64_zero. change (u64 (0 .| - 0) .>> 63) with 0. change (u64 (- u32 0)) with 0. rewrite Z.land_0_r.
    change (0 <? 0) with false. rewrite (FPR_zero false). unfold scaled_num. symmetry. apply round_to_small. lia.
  - destruct (FPR_NORM64_spec (Z.abs i) (9 + sc)) as (j & Hj & -> & Hm); [lia|]. destruct (scale_down _ Hm) as [-> Hs].
    assert (u32 (u64 (Z.abs i .| - Z.abs i) .>> 63) = 1) as ->.
    { rewrite wrap_lor, (wrap_small 64 (Z.abs i)) by (unfold in_width; lia).
      pose proof (nonzero_flag 64 (Z.abs i) ltac:(lia)) as Hf. change (64 - 1) with 63 in Hf. rewrite Hf by (unfold in_width; lia).
      destruct (Z.eqb_spec (Z.abs i) 0); [lia | reflexivity]. }
    change (- i32 1) with (-1). rewrite Z.land_m1_r. rewrite (mask_on 64 _ true) by (unfold in_width; lia).
    apply (FPR_round _ _ _ _ _ _ (j + Z.max (- (sc + 1074)) 0) (11 + Z.max (sc + 1074) 0)); try lia.
    unfold scaled_num, scaled_den. rewrite !Z.pow_add_r by lia. ring.
Qed.

(** Every 64-bit integer is converted by correct rounding. *)
Lemma fpr_of_spec i : - 2 ^ 63 < i < 2 ^ 63 -> fpr_of i = round_to (i <? 0) (Z.abs i * 2 ^ 1074) 1.
Proof.
  intros Hi. apply (fpr_scaled_spec i 0 Hi ltac:(lia)). unfold representable, scaled_num, scaled_den.
  change (0 + 1074) with 1074. change (- (1074)) with (-1074). change (Z.max 1074 0) with 1074. change (2 ^ Z.max (-1074) 0) with 1.
  rewrite Z.mul_1_r. apply Z.lt_le_trans with (2 ^ 63 * 2 ^ 1074); [apply Z.mul_lt_mono_pos_r; [reflexivity | lia]|]. apply Z.leb_le. vm_compute. reflexivity.
Qed.
