(* ===== verification/FprArith.v ===== *)
(** FprArith: multiplication, division and square root round correctly. *)

From Stdlib Require Import ZArith Lia.
From stdpp Require Import base numbers list.
From S2P Require Import Prelude Rounding Fpr FprPack.

(** * Reading an operand *)

Definition mantissa (x : Z) : Z := 2 ^ 52 + fpr_man x.

Lemma mantissa_range x : 2 ^ 52 <= mantissa x < 2 ^ 53.
Proof. unfold mantissa. assert (0 <= fpr_man x < 2 ^ 52) by (apply Z.mod_pos_bound; lia). lia. Qed.

Lemma magnitude_mantissa x : fpr_exp x <> 0 -> magnitude x = mantissa x * 2 ^ (fpr_exp x - 1).
Proof. intros H. unfold magnitude. now rewrite (proj2 (Z.eqb_neq _ _) H). Qed.

Lemma magnitude_exp0 x : fpr_exp x = 0 -> magnitude x = 0.
Proof. intros H. unfold magnitude. now rewrite H. Qed.

Lemma exp_range x : 0 <= fpr_exp x < 2 ^ 11.
Proof. apply Z.mod_pos_bound. lia. Qed.

Lemma read_mantissa x : (x .& ((1 .<< 52) - 1)) .| (1 .<< 52) = mantissa x.
Proof.
  change ((1 .<< 52) - 1) with (Z.ones 52). rewrite Z.land_ones by lia. fold (fpr_man x). rewrite Z.lor_comm.
  assert (0 <= fpr_man x < 2 ^ 52) by (apply Z.mod_pos_bound; lia). rewrite lor_shiftl_add by lia. unfold mantissa. lia.
Qed.

Lemma read_exp x : (x .>> 52) .& 0x7FF = fpr_exp x.
Proof. change 0x7FF with (Z.ones 11). rewrite Z.land_ones, Z.shiftr_div_pow2 by lia. reflexivity. Qed.

Lemma read_exp_i32 x : i32 ((x .>> 52) .& 0x7FF) = fpr_exp x.
Proof. rewrite read_exp. pose proof (exp_range x). apply sext_small; lia. Qed.

Lemma shr63 x : in_width 64 x -> x .>> 63 = bit (fpr_sign x).
Proof.
  intros Hx. rewrite (top_bit_flag 64 x ltac:(lia) Hx : x .>> 63 = bit (2 ^ 63 <=? x)). unfold fpr_sign. f_equal. unfold in_width in Hx.
  rewrite Z.testbit_eqb by lia. destruct (Z.leb_spec (2 ^ 63) x).
  - assert (x / 2 ^ 63 = 1) as -> by (symmetry; apply (Z.div_unique _ _ _ (x - 2 ^ 63)); lia). reflexivity.
  - now rewrite Z.div_small by lia.
Qed.

Lemma read_sign_xor x y : in_width 64 x -> in_width 64 y -> i32 ((x .^ y) .>> 63) = bit (xorb (fpr_sign x) (fpr_sign y)).
Proof.
  intros Hx Hy. rewrite shr63 by (apply lxor_width; lia || assumption). unfold fpr_sign. rewrite Z.lxor_spec. now destruct (xorb _ _).
Qed.

(** The test for a zero exponent. *)
Lemma exp_flag e : 0 <= e < 2 ^ 11 -> (e + 0x7FF) .>> 11 = bit (negb (e =? 0)).
Proof.
  intros He. rewrite Z.shiftr_div_pow2 by lia. destruct (Z.eqb_spec e 0) as [->|]; [reflexivity|]. symmetry.
  apply (Z.div_unique _ _ _ (e - 1)); cbn [negb bit]; lia.
Qed.

Lemma exp_flags e f : 0 <= e < 2 ^ 11 -> 0 <= f < 2 ^ 11 ->
  ((e + 0x7FF) .& (f + 0x7FF)) .>> 11 = bit (negb (e =? 0) && negb (f =? 0)).
Proof.
  intros He Hf. rewrite Z.shiftr_land, !exp_flag by done. now destruct (e =? 0), (f =? 0).
Qed.

(** One more bit is dropped when the quotient has 56 bits. *)
Lemma drop_bit N D :
  0 < D -> 2 ^ 54 * D <= N < 2 ^ 56 * D ->
  let q := stick N D in
  let w := q .>> 55 in
  exists b : bool, w = bit b /\ q .^ ((q .^ ((q .>> 1) .| (q .& 1))) .& u64 (- w)) = stick N (2 ^ bit b * D) /\
    2 ^ 54 * (2 ^ bit b * D) <= N < 2 ^ 55 * (2 ^ bit b * D).
Proof.
  intros HD HN q w. assert (2 ^ 54 <= q < 2 ^ 56) as Hq by (apply stick_bounds; [exact HD | reflexivity | lia]).
  assert ((q .>> 1) .| (q .& 1) = stick q (2 ^ 1)) as Es.
  { unfold stick. change 1 with (Z.ones 1) at 2. rewrite Z.land_ones, Z.shiftr_div_pow2 by lia. pose proof (Z.mod_pos_bound q (2 ^ 1) ltac:(lia)).
    destruct (Z.eqb_spec (q mod 2 ^ 1) 0) as [->|]; [apply Z.lor_0_r|]. replace (q mod 2 ^ 1) with 1 by lia. reflexivity. }
  rewrite Es. assert (2 ^ 53 <= stick q (2 ^ 1) < 2 ^ 55) as Hs by (apply stick_bounds; [lia | reflexivity | lia]).
  exists (2 ^ 55 <=? q). assert (w = bit (2 ^ 55 <=? q)) as ->.
  { unfold w. rewrite Z.shiftr_div_pow2 by lia. destruct (Z.leb_spec (2 ^ 55) q); cbn [bit]; [|apply Z.div_small; lia].
    symmetry. apply (Z.div_unique _ _ _ (q - 2 ^ 55)); lia. }
  rewrite select_on by (unfold in_width; lia). split; [done|]. pose proof (stick_cases N D HD) as Hc. fold q in Hc.
  destruct (Z.leb_spec (2 ^ 55) q) as [Hge|Hlt]; cbn [bit].
  - split; [unfold q; apply stick_stick; lia|]. split; [|lia]. destruct Hc as [E|(Ho & Hb & _)]; [nia|].
    assert (q <> 2 ^ 55) by (intros E; rewrite E in Ho; discriminate). pose proof (Z.div_mod N D ltac:(lia)). pose proof (Z.mod_pos_bound N D HD). nia.
  - change (2 ^ 0) with 1. rewrite Z.mul_1_l. split; [reflexivity|]. split; [lia|].
    destruct Hc as [E|(_ & Hb & _)]; [nia|]. pose proof (Z.div_mod N D ltac:(lia)). pose proof (Z.mod_pos_bound N D HD). nia.
Qed.

Lemma stick_flag n d : (n / d) .| bit (negb (n mod d =? 0)) = stick n d.
Proof. unfold stick. destruct (n mod d =? 0); cbn [negb bit]; [apply Z.lor_0_r | reflexivity]. Qed.

(** * Multiplication *)

Definition limb_product (xu yu : Z) : Z :=
  let x0 := u32 xu .& 0x01FFFFFF in
  let x1 := u32 (xu .>> 25) in
  let y0 := u32 yu .& 0x01FFFFFF in
  let y1 := u32 (yu .>> 25) in
  let w := u64 (x0 * y0) in
  let z0 := u32 w .& 0x01FFFFFF in
  let z1 := u32 (w .>> 25) in
  let w := u64 (x0 * y1) in
  let z1 := u32 (z1 + (u32 w .& 0x01FFFFFF)) in
  let z2 := u32 (w .>> 25) in
  let w := u64 (x1 * y0) in
  let z1 := u32 (z1 + (u32 w .& 0x01FFFFFF)) in
  let z2 := u32 (z2 + u32 (w .>> 25)) in
  let zu := u64 (x1 * y1) in
  let z2 := u32 (z2 + (z1 .>> 25)) in
  let z1 := z1 .& 0x01FFFFFF in
  let zu := u64 (zu + z2) in
  zu .| (u32 ((z0 .| z1) + 0x01FFFFFF) .>> 25).

Lemma low25 w : u32 w .& 0x01FFFFFF = w mod 2 ^ 25.
Proof.
  change 0x01FFFFFF with (Z.ones 25). rewrite Z.land_ones, wrap_mod by lia. change (2 ^ 32) with (2 ^ 25 * 2 ^ 7).
  rewrite Z.rem_mul_r, Z.mul_comm, Z_mod_plus_full, Z.mod_mod by lia. reflexivity.
Qed.

(** Three limbs of 25 bits give the product, the low fifty bits as a sticky bit. *)
Lemma limb_product_spec xu yu : 0 <= xu < 2 ^ 53 -> 0 <= yu < 2 ^ 53 -> limb_product xu yu = stick (xu * yu) (2 ^ 50).
Proof.
  intros Hx Hy. unfold limb_product. cbv zeta. rewrite !low25, !Z.shiftr_div_pow2 by lia.
  pose proof (Z.div_mod xu (2 ^ 25) ltac:(lia)) as Ex. pose proof (Z.mod_pos_bound xu (2 ^ 25) ltac:(lia)) as Rx0.
  pose proof (Z.div_mod yu (2 ^ 25) ltac:(lia)) as Ey. pose proof (Z.mod_pos_bound yu (2 ^ 25) ltac:(lia)) as Ry0.
  assert (0 <= xu / 2 ^ 25 < 2 ^ 28) as Rx1 by (split; [apply Z.div_pos | apply Z.div_lt_upper_bound]; lia).
  assert (0 <= yu / 2 ^ 25 < 2 ^ 28) as Ry1 by (split; [apply Z.div_pos | apply Z.div_lt_upper_bound]; lia).
  set (x0 := xu mod 2 ^ 25) in *. set (x1 := xu / 2 ^ 25) in *. set (y0 := yu mod 2 ^ 25) in *. set (y1 := yu / 2 ^ 25) in *.
  clearbody x0 x1 y0 y1. rewrite (wrap_small 32 x1), (wrap_small 32 y1) by (unfold in_width; lia).
  assert (0 <= x0 * y0 < 2 ^ 50) as R00 by nia. assert (0 <= x0 * y1 < 2 ^ 53) as R01 by nia.
  assert (0 <= x1 * y0 < 2 ^ 53) as R10 by nia. assert (0 <= x1 * y1 < 2 ^ 56) as R11 by nia.
  assert (xu * yu = x0 * y0 + (x0 * y1 + x1 * y0) * 2 ^ 25 + x1 * y1 * 2 ^ 50) as -> by (rewrite Ex, Ey; ring). clear Ex Ey Hx Hy.
  set (p00 := x0 * y0) in *. set (p01 := x0 * y1) in *. set (p10 := x1 * y0) in *. set (p11 := x1 * y1) in *. clearbody p00 p01 p10 p11.
  clear x0 x1 y0 y1 Rx0 Rx1 Ry0 Ry1. rewrite (wrap_small 64 p00), (wrap_small 64 p01), (wrap_small 64 p10), (wrap_small 64 p11) by (unfold in_width; lia).
  pose proof (Z.div_mod p00 (2 ^ 25) ltac:(lia)) as E00. pose proof (Z.mod_pos_bound p00 (2 ^ 25) ltac:(lia)) as M00.
  pose proof (Z.div_mod p01 (2 ^ 25) ltac:(lia)) as E01. pose proof (Z.mod_pos_bound p01 (2 ^ 25) ltac:(lia)) as M01.
  pose proof (Z.div_mod p10 (2 ^ 25) ltac:(lia)) as E10. pose proof (Z.mod_pos_bound p10 (2 ^ 25) ltac:(lia)) as M10.
  set (l00 := p00 mod 2 ^ 25) in *. set (h00 := p00 / 2 ^ 25) in *. set (l01 := p01 mod 2 ^ 25) in *. set (h01 := p01 / 2 ^ 25) in *.
  set (l10 := p10 mod 2 ^ 25) in *. set (h10 := p10 / 2 ^ 25) in *. clearbody l00 h00 l01 h01 l10 h10.
  assert (0 <= h00 < 2 ^ 25) by lia. assert (0 <= h01 < 2 ^ 28) by lia. assert (0 <= h10 < 2 ^ 28) by lia.
  rewrite (wrap_small 32 h00), (wrap_small 32 h01), (wrap_small 32 h10) by (unfold in_width; lia).
  rewrite (wrap_small 32 (h00 + l01)) by (unfold in_width; lia). set (z1 := h00 + l01 + l10).
  rewrite (wrap_small 32 z1) by (unfold in_width, z1; lia). rewrite (wrap_small 32 (h01 + h10)) by (unfold in_width; lia).
  pose proof (Z.div_mod z1 (2 ^ 25) ltac:(lia)) as Ez. pose proof (Z.mod_pos_bound z1 (2 ^ 25) ltac:(lia)) as Mz.
  set (l1 := z1 mod 2 ^ 25) in *. set (h1 := z1 / 2 ^ 25) in *. clearbody l1 h1. assert (0 <= h1 < 4) by (unfold z1 in *; lia).
  rewrite (wrap_small 32 (h01 + h10 + h1)) by (unfold in_width; lia). rewrite (wrap_small 64 (p11 + (h01 + h10 + h1))) by (unfold in_width; lia).
  set (Q := p11 + (h01 + h10 + h1)). set (r := l00 + l1 * 2 ^ 25).
  assert (p00 + (p01 + p10) * 2 ^ 25 + p11 * 2 ^ 50 = 2 ^ 50 * Q + r) as -> by (unfold Q, r, z1 in *; lia).
  assert (0 <= r < 2 ^ 50) as Hr by (unfold r; lia).
  rewrite <- stick_flag. rewrite (Z.mul_comm (2 ^ 50)), Z.div_add_l, (Z.div_small r), Z.add_0_r by lia. f_equal.
  rewrite (Z.add_comm (Q * 2 ^ 50) r), Z.mod_add, (Z.mod_small r) by lia. assert (in_width 25 (l00 .| l1)) as Hl by (apply lor_width; unfold in_width; lia).
  assert ((r =? 0) = (l00 .| l1 =? 0)) as ->.
  { apply eq_true_iff_eq. rewrite !Z.eqb_eq, Z.lor_eq_0_iff. unfold r. lia. }
  unfold in_width in Hl. rewrite wrap_small by (unfold in_width; lia). destruct (Z.eqb_spec (l00 .| l1) 0) as [->|]; [reflexivity|].
  symmetry. apply (Z.div_unique _ _ _ (l00 .| l1 - 1)); cbn [negb bit]; lia.
Qed.

Lemma fpr_mul_limbs x y : fpr_mul x y =
  let zu := limb_product ((x .& ((1 .<< 52) - 1)) .| (1 .<< 52)) ((y .& ((1 .<< 52) - 1)) .| (1 .<< 52)) in
  let w := zu .>> 55 in
  let ex := i32 ((x .>> 52) .& 0x7FF) in
  let ey := i32 ((y .>> 52) .& 0x7FF) in
  FPR (i32 ((x .^ y) .>> 63)) (ex + ey - 2100 + i32 w)
    ((zu .^ ((zu .^ ((zu .>> 1) .| (zu .& 1))) .& u64 (- w))) .& u64 (- (((ex + 0x7FF) .& (ey + 0x7FF)) .>> 11))).
Proof. reflexivity. Qed.

Lemma i32_bit b : i32 (bit b) = bit b.
Proof. now destruct b. Qed.

(** A zero operand. *)
Lemma magnitude_0_exp x : fpr_exp x = 0 \/ fpr_exp x <> 0 /\ 0 < magnitude x.
Proof.
  destruct (Z.eq_dec (fpr_exp x) 0) as [|Hne]; [now left | right]. split; [done|]. rewrite magnitude_mantissa by done.
  pose proof (mantissa_range x). pose proof (exp_range x). apply Z.mul_pos_pos; [lia | apply Z.pow_pos_nonneg; lia].
Qed.

Lemma fpr_mul_spec x y :
  in_width 64 x -> in_width 64 y -> representable (magnitude x * magnitude y) (2 ^ 1074) ->
  fpr_mul x y = round_to (xorb (fpr_sign x) (fpr_sign y)) (magnitude x * magnitude y) (2 ^ 1074).
Proof.
  intros Hx Hy Hr. rewrite fpr_mul_limbs. cbv zeta. rewrite !read_mantissa, !read_exp_i32, read_sign_xor by done.
  rewrite exp_flags by apply exp_range. pose proof (mantissa_range x) as Mx. pose proof (mantissa_range y) as My.
  rewrite limb_product_spec by lia. destruct (drop_bit (mantissa x * mantissa y) (2 ^ 50)) as (b & Hw & Hs & Hb); [lia | split; nia |].
  cbv zeta in Hw, Hs. rewrite Hs, Hw, i32_bit. clear Hs Hw.
  set (q := stick _ _). assert (in_width 64 q) as Hq.
  { assert (2 ^ 54 <= q < 2 ^ 55); [|unfold in_width; lia]. apply stick_bounds; [destruct b; cbn [bit]; lia | reflexivity | lia]. }
  rewrite mask_on by (lia || done).
  destruct (magnitude_0_exp x) as [E|[Ex _]]; [rewrite (magnitude_exp0 x) by done; rewrite E; cbn [Z.eqb negb andb]; rewrite FPR_zero, Z.mul_0_l; symmetry; now apply round_to_small|].
  destruct (magnitude_0_exp y) as [E|[Ey _]].
  { rewrite (magnitude_exp0 y) by done. rewrite E, (proj2 (Z.eqb_neq _ _) Ex). cbn [Z.eqb negb andb]. rewrite FPR_zero, Z.mul_0_r. symmetry. now apply round_to_small. }
  rewrite (proj2 (Z.eqb_neq _ _) Ex), (proj2 (Z.eqb_neq _ _) Ey). cbn [negb andb]. unfold q.
  pose proof (exp_range x) as Rx. pose proof (exp_range y) as Ry.
  apply (FPR_round _ _ _ _ _ _ 1024 (fpr_exp x + fpr_exp y + bit b)); try (destruct b; cbn [bit] in *; lia).
  - rewrite !magnitude_mantissa by done. set (mx := mantissa x) in *. set (my := mantissa y) in *. set (ex := fpr_exp x) in *. set (ey := fpr_exp y) in *.
    change 1074 with (50 + 1024). rewrite (Z.pow_add_r 2 50 1024) by lia. replace (ex + ey + bit b) with ((ex - 1) + (ey - 1) + 2 + bit b) by lia.
    assert (0 <= bit b) by (destruct b; cbn [bit]; lia). rewrite !(Z.pow_add_r 2 _ (bit b)), !(Z.pow_add_r 2 _ 2), (Z.pow_add_r 2 (ex - 1)) by lia.
    generalize (2 ^ 1024). intros T. ring.
  - apply representable_bound; [reflexivity | exact Hr].
Qed.

(** * Division *)

Lemma borrow_mask a b : 0 <= a < 2 ^ 63 -> 0 <= b < 2 ^ 63 -> u64 ((u64 (a - b) .>> 63) - 1) = u64 (- bit (b <=? a)).
Proof.
  intros Ha Hb. assert (u64 (a - b) .>> 63 = bit (negb (b <=? a))) as ->; [|now destruct (b <=? a)].
  rewrite sign_bit by lia. f_equal. rewrite <- Z.ltb_antisym. apply eq_true_iff_eq. rewrite !Z.ltb_lt. lia.
Qed.

(** After [i] steps the dividend times 2^i is the quotient times the divisor plus what is left. *)
Definition div_inv (xu yu : Z) (i : nat) (st : Z * Z) : Prop :=
  let '(r, q) := st in
  xu * 2 ^ Z.of_nat i = q * yu + r /\ 0 <= r < 2 * yu /\ 0 <= q < 2 * 2 ^ Z.of_nat i /\ Z.even q = true.

Lemma div_step_inv xu yu i st :
  2 ^ 52 <= yu < 2 ^ 53 -> (i < 55)%nat -> div_inv xu yu i st -> div_inv xu yu (S i) (div_step yu i st).
Proof.
  intros Hy Hi. destruct st as [r q]. unfold div_inv, div_step. intros (E & Hr & Hq & He).
  assert (2 ^ Z.of_nat (S i) = 2 * 2 ^ Z.of_nat i) as Ep by (rewrite Nat2Z.inj_succ, Z.pow_succ_r by lia; reflexivity).
  assert (2 ^ Z.of_nat i <= 2 ^ 54) by (apply Z.pow_le_mono_r; lia). set (P := 2 ^ Z.of_nat i) in *. clearbody P.
  rewrite borrow_mask by lia. rewrite (Z.land_comm _ yu), mask_on by (unfold in_width; lia). rewrite (Z.land_comm _ 1), mask_on by (unfold in_width; lia).
  set (b := yu <=? r). assert (q .| (if b then 1 else 0) = q + bit b) as ->.
  { destruct b; cbn [bit]; [|rewrite Z.lor_0_r; lia]. rewrite lor_1, <- Z.negb_even, He. reflexivity. }
  assert (0 <= r - (if b then yu else 0) < yu) as Hr' by (unfold b; destruct (Z.leb_spec yu r); lia).
  rewrite (wrap_small 64 (r - _)) by (unfold in_width; lia). rewrite !Z.shiftl_mul_pow2 by lia. change (2 ^ 1) with 2.
  assert (0 <= bit b <= 1) by (destruct b; cbn [bit]; lia). rewrite !wrap_small by (unfold in_width; lia).
  split; [rewrite Ep; destruct b; cbn [bit] in *; lia|]. split; [lia|].
  split; [split; [lia|] | now rewrite Z.even_mul, orb_true_r].
  apply Z.even_spec in He as [h ->]. lia.
Qed.

Lemma div_loop xu yu :
  2 ^ 52 <= xu < 2 ^ 53 -> 2 ^ 52 <= yu < 2 ^ 53 ->
  let '(r, q) := for_up 0 55 (div_step yu) (xu, 0) in
  q .| ((r .| u64 (- r)) .>> 63) = stick (xu * 2 ^ 55) yu.
Proof.
  intros Hx Hy. assert (div_inv xu yu 55 (for_up 0 55 (div_step yu) (xu, 0))) as H.
  { apply (for_up_inv (div_step yu) (div_inv xu yu)); [lia | cbn; lia |]. intros i st Hi. apply div_step_inv; [lia | lia]. }
  destruct (for_up 0 55 (div_step yu) (xu, 0)) as [r q]. destruct H as (E & Hr & Hq & He). change (Z.of_nat 55) with 55 in *.
  rewrite (nonzero_flag 64 r ltac:(lia) ltac:(unfold in_width; lia) : (r .| u64 (- r)) .>> 63 = _).
  rewrite E. unfold stick. rewrite (Z.add_comm (q * yu)), Z.mod_add, Z.div_add by lia.
  assert (q .| 1 = q + 1) as E1 by (rewrite lor_1, <- Z.negb_even, He; reflexivity).
  destruct (Z.lt_ge_cases r yu) as [Hlt|Hge].
  - rewrite Z.mod_small, Z.div_small, Z.add_0_l by lia. destruct (r =? 0); cbn [negb bit]; [apply Z.lor_0_r | reflexivity].
  - assert (r / yu = 1) as -> by (symmetry; apply (Z.div_unique _ _ _ (r - yu)); lia). assert (r mod yu = r - yu) as -> by (symmetry; apply (Z.mod_unique _ _ 1); lia).
    rewrite (proj2 (Z.eqb_neq r 0)) by lia. cbn [negb bit]. rewrite E1, (Z.add_comm 1 q).
    destruct (r - yu =? 0); [reflexivity|]. rewrite lor_1, Z.add_1_r, Z.odd_succ, He. reflexivity.
Qed.

Lemma fpr_div_spec x y :
  in_width 64 x -> in_width 64 y -> fpr_exp y <> 0 -> representable (magnitude x * 2 ^ 1074) (magnitude y) ->
  fpr_div x y = round_to (xorb (fpr_sign x) (fpr_sign y) && negb (fpr_exp x =? 0)) (magnitude x * 2 ^ 1074) (magnitude y).
Proof.
  intros Hx Hy Ey Hr. unfold fpr_div. cbv zeta. rewrite !read_mantissa, !read_exp_i32, read_sign_xor by done.
  pose proof (mantissa_range x) as Mx. pose proof (mantissa_range y) as My. pose proof (exp_range x) as Rx. pose proof (exp_range y) as Ry.
  pose proof (div_loop _ _ Mx My) as Hl. destruct (for_up 0 55 _ _) as [r q0]. rewrite Hl. clear Hl r q0.
  destruct (drop_bit (mantissa x * 2 ^ 55) (mantissa y)) as (b & Hw & Hs & Hb); [lia | lia |].
  cbv zeta in Hw, Hs. rewrite Hs, Hw, i32_bit. clear Hs Hw. rewrite exp_flag by done.
  set (q := stick _ _). assert (in_width 64 q) as Hq.
  { assert (2 ^ 54 <= q < 2 ^ 55); [|unfold in_width; lia]. apply stick_bounds; [destruct b; cbn [bit]; lia | reflexivity | lia]. }
  rewrite mask_on by (lia || done). destruct (magnitude_0_exp y) as [|[_ Hy0]]; [contradiction|].
  destruct (magnitude_0_exp x) as [E|[Ex _]].
  - rewrite (magnitude_exp0 x) by done. rewrite E. cbn [Z.eqb negb bit]. change (- 0) with 0. rewrite !Z.land_0_r, andb_false_r.
    change 0 with (bit false) at 1. rewrite FPR_zero. symmetry. apply round_to_small. lia.
  - rewrite (proj2 (Z.eqb_neq _ _) Ex). cbn [negb bit]. change (Z.opp 1) with (-1). rewrite Z.land_m1_r, andb_true_r.
    assert (forall s, bit s .& 1 = bit s) as -> by (intros s; now destruct s). unfold q.
    apply (FPR_round _ _ _ _ _ _ (fpr_exp y) (fpr_exp x + 1021 + bit b)); try (destruct b; cbn [bit] in *; lia).
    + rewrite !magnitude_mantissa by done. set (mx := mantissa x) in *. set (my := mantissa y) in *. set (ex := fpr_exp x) in *. set (ey := fpr_exp y) in *.
      change 1074 with (53 + 1021). rewrite (Z.pow_add_r 2 53 1021) by lia. replace (2 ^ ey) with (2 ^ (ey - 1 + 1)) by (f_equal; lia).
      replace (ex + 1021 + bit b) with ((ex - 1) + 1 + 1021 + bit b) by lia.
      assert (0 <= bit b) by (destruct b; cbn [bit]; lia). rewrite !(Z.pow_add_r 2 _ (bit b)), !(Z.pow_add_r 2 _ 1021), !(Z.pow_add_r 2 _ 1) by lia.
      generalize (2 ^ 1021). intros T. ring.
    + apply representable_bound; [exact Hy0 | exact Hr].
Qed.

(** * Square root *)

(** After [i] steps [q] is the square root of [w * 2^53] rounded down to a multiple of [2^(54 - i)]. *)
Definition sqrt_inv (w : Z) (i : nat) (st : Z * Z * Z * Z) : Prop :=
  let '(xu, q, s, r) := st in
  let g := 2 ^ (54 - Z.of_nat i) in
  xu * g = 2 * (w * 2 ^ 53 - q * q) /\ 0 <= xu /\ w * 2 ^ 53 < (q + g) * (q + g) /\ 0 <= q < 2 ^ 54 /\ q mod g = 0 /\ s = 2 * q /\ r = g / 2.

Lemma sqrt_step_inv w i st :
  2 ^ 53 <= w < 2 ^ 55 -> (i < 54)%nat -> sqrt_inv w i st -> sqrt_inv w (S i) (sqrt_step i st).
Proof.
  intros Hw Hi. destruct st as [[[xu q] s] r]. unfold sqrt_inv, sqrt_step. intros (E & Hx & Hlt & Hq & Hm & -> & ->).
  assert (2 ^ (54 - Z.of_nat i) = 2 * 2 ^ (54 - Z.of_nat (S i))) as Eg by (rewrite <- Z.pow_succ_r by lia; f_equal; lia).
  assert (1 <= 2 ^ (54 - Z.of_nat (S i)) <= 2 ^ 53) as Hg by (apply pow2_le; lia).
  assert (2 ^ 54 = 2 ^ Z.of_nat i * (2 * 2 ^ (54 - Z.of_nat (S i)))) as E54 by (rewrite <- Eg, <- Z.pow_add_r by lia; f_equal; lia).
  rewrite Eg in *. set (g := 2 ^ (54 - Z.of_nat (S i))) in *. clearbody g. rewrite (Z.mul_comm 2 g) in *. rewrite Z.div_mul by lia.
  apply Z.mod_divide in Hm as [c Hc]; [|lia]. set (V := w * 2 ^ 53) in *. assert (2 ^ 106 <= V < 2 ^ 108) as HV by (unfold V; lia). clearbody V.
  assert (q + g * 2 <= 2 ^ 54) as Hq2.
  { set (P := 2 ^ Z.of_nat i) in *. clearbody P. rewrite E54 in *. assert (c < P) by (apply (Z.mul_lt_mono_pos_r (g * 2)); lia).
    assert ((c + 1) * (g * 2) <= P * (g * 2)) by (apply Z.mul_le_mono_nonneg_r; lia). lia. }
  clear E54 Eg. assert (xu * g = V - q * q) as E1 by lia. assert (xu < 4 * q + 4 * g) as Hxu by (apply (Z.mul_lt_mono_pos_r g); lia).
  rewrite (wrap_small 64 (2 * q + g)) by (unfold in_width; lia). rewrite borrow_mask by lia.
  rewrite (Z.shiftl_mul_pow2 g) by lia. change (2 ^ 1) with 2. rewrite (wrap_small 64 (g * 2)) by (unfold in_width; lia).
  rewrite !mask_on by (unfold in_width; lia). set (b := 2 * q + g <=? xu).
  assert (0 <= xu - (if b then 2 * q + g else 0)) as Hpos by (unfold b; destruct (Z.leb_spec (2 * q + g) xu); lia).
  rewrite (wrap_small 64 (xu - _)) by (unfold in_width; destruct b; lia). rewrite Z.shiftl_mul_pow2 by lia. change (2 ^ 1) with 2.
  rewrite (wrap_small 64 ((xu - _) * 2)) by (unfold in_width; destruct b; lia).
  rewrite (wrap_small 64 (2 * q + _)) by (unfold in_width; destruct b; lia). rewrite (wrap_small 64 (q + _)) by (unfold in_width; destruct b; lia).
  rewrite Z.shiftr_div_pow2 by lia. change (2 ^ 1) with 2. unfold b in *. clear b.
  destruct (Z.leb_spec (2 * q + g) xu) as [Hle|Hgt]; rewrite ?Z.sub_0_r, ?Z.add_0_r.
  - split_and!; [lia | lia | lia | lia | lia | | lia | reflexivity].
    rewrite Hc. replace (c * (g * 2) + g) with ((2 * c + 1) * g) by ring. apply Z.mod_mul. lia.
  - assert (xu * g < (2 * q + g) * g) by (apply Z.mul_lt_mono_pos_r; lia).
    split_and!; [lia | lia | lia | lia | lia | | reflexivity | reflexivity].
    rewrite Hc. replace (c * (g * 2)) with ((2 * c) * g) by ring. apply Z.mod_mul. lia.
Qed.

Lemma sqrt_loop w :
  2 ^ 53 <= w < 2 ^ 55 ->
  let '(xu, q, _, _) := for_up 0 54 sqrt_step (w, 0, 0, 1 .<< 53) in
  q * q <= w * 2 ^ 53 < (q + 1) * (q + 1) /\ 2 ^ 53 <= q < 2 ^ 54 /\ 0 <= xu < 2 ^ 56 /\ (xu = 0 <-> w * 2 ^ 53 = q * q).
Proof.
  intros Hw. assert (sqrt_inv w 54 (for_up 0 54 sqrt_step (w, 0, 0, 1 .<< 53))) as H.
  { apply (for_up_inv sqrt_step (sqrt_inv w)); [lia | |].
    - unfold sqrt_inv. change (2 ^ (54 - Z.of_nat 0)) with (2 ^ 54). split_and!; [lia | lia | lia | lia | lia | reflexivity | reflexivity | reflexivity].
    - intros i st Hi. apply sqrt_step_inv; [done | lia]. }
  destruct (for_up 0 54 _ _) as [[[xu q] s] r]. unfold sqrt_inv in H. change (2 ^ (54 - Z.of_nat 54)) with 1 in H.
  destruct H as (E & Hx & Hlt & Hq & _). rewrite Z.mul_1_r in E. set (V := w * 2 ^ 53) in *.
  assert (2 ^ 106 <= V < 2 ^ 108) as HV by (unfold V; lia). clearbody V.
  assert (2 ^ 53 <= q) by (destruct (Z.lt_ge_cases q (2 ^ 53)); [|done]; assert ((q + 1) * (q + 1) <= 2 ^ 53 * 2 ^ 53) by (apply Z.mul_le_mono_nonneg; lia); lia).
  split; [lia|]. split; [lia|]. split; [lia|]. split; lia.
Qed.

(** [m] is the integer nearest to the square root of [v / s^2]; there are no ties. *)
Definition nearest_sqrt (v s m : Z) : Prop := (2 * m - 1) ^ 2 * s ^ 2 < 4 * v < (2 * m + 1) ^ 2 * s ^ 2.

Lemma nearest_sqrt_scale v s m t : 0 < t -> nearest_sqrt v s m -> nearest_sqrt (v * t ^ 2) (s * t) m.
Proof.
  unfold nearest_sqrt. intros Ht [H1 H2]. assert (0 < t ^ 2) by nia. rewrite Z.pow_mul_l, !Z.mul_assoc.
  split; apply Z.mul_lt_mono_pos_r; lia.
Qed.

(** The 54-bit root with its sticky bit rounds to the nearest. *)
Lemma root_round q xu W :
  0 < q -> q * q <= W < (q + 1) * (q + 1) -> (xu = 0 <-> W = q * q) -> Z.even W = true ->
  let m := round_ne (2 * q + bit (negb (xu =? 0))) 4 in
  (2 * m - 1) ^ 2 < W < (2 * m + 1) ^ 2.
Proof.
  intros Hq HW Hz Hev. cbv zeta. pose proof (round_ne_spec (2 * q + bit (negb (xu =? 0))) 4 ltac:(lia)) as H.
  set (m := round_ne _ 4) in *. clearbody m. rewrite !Z.pow_2_r. destruct (Z.eqb_spec xu 0) as [E|E]; cbn [negb bit] in *.
  - apply Hz in E. subst W. rewrite Z.even_mul, orb_diag in Hev. apply Z.even_spec in Hev as [h ->].
    assert (m = h) as -> by lia. lia.
  - assert (W <> q * q) by tauto. assert (q = 2 * m - 1 \/ q = 2 * m) as [->| ->] by lia; lia.
Qed.

Lemma round_sticky_range q b : 2 ^ 53 <= q < 2 ^ 54 -> 2 ^ 52 <= round_ne (2 * q + bit b) 4 <= 2 ^ 53.
Proof. intros Hq. apply round_ne_range; destruct b; cbn [bit]; lia. Qed.

(** The exact square root is the root of [magnitude x * 2^1074] in the unit of magnitudes. *)
Lemma fpr_sqrt_spec x : fpr_exp x <= 2046 ->
  (fpr_exp x = 0 /\ fpr_sqrt x = 0) \/
  (exists k m, fpr_sqrt x = pack false k m /\ 0 <= k <= 2044 /\ 2 ^ 52 <= m <= 2 ^ 53 /\
     nearest_sqrt (magnitude x * 2 ^ 1074) (2 ^ k) m /\ (2 ^ (52 + k)) ^ 2 <= magnitude x * 2 ^ 1074 < (2 ^ (53 + k)) ^ 2).
Proof.
  intros Hfin. unfold fpr_sqrt. cbv zeta. rewrite read_mantissa, read_exp_i32. pose proof (mantissa_range x) as Mx. pose proof (exp_range x) as Rx.
  assert ((fpr_exp x - 1023) .& 1 = bit (Z.odd (fpr_exp x - 1023))) as ->.
  { change 1 with (Z.ones 1). rewrite Z.land_ones by lia. change (2 ^ 1) with 2. rewrite Zmod_odd. now destruct (Z.odd _). }
  rewrite mask_on by (unfold in_width; lia). set (p := Z.odd (fpr_exp x - 1023)).
  assert (u64 (mantissa x + (if p then mantissa x else 0)) = mantissa x * 2 ^ bit p) as ->.
  { rewrite wrap_small by (unfold in_width; destruct p; lia). destruct p; cbn [bit]; lia. }
  rewrite Z.shiftl_mul_pow2, wrap_small by (try lia; unfold in_width; destruct p; cbn [bit]; lia).
  set (w := mantissa x * 2 ^ bit p * 2 ^ 1). assert (2 ^ 53 <= w < 2 ^ 55) as Hw by (unfold w; destruct p; cbn [bit]; lia).
  pose proof (sqrt_loop w Hw) as Hl. destruct (for_up 0 54 _ _) as [[[xu q] s] r]. destruct Hl as (Hq & Rq & Hxu & Hz).
  rewrite (Z.shiftl_mul_pow2 q) by lia. change (2 ^ 1) with 2. rewrite (wrap_small 64 (q * 2)) by (unfold in_width; lia).
  rewrite (nonzero_flag 64 xu ltac:(lia) ltac:(unfold in_width; lia) : (xu .| u64 (- xu)) .>> 63 = _). set (b := negb (xu =? 0)).
  assert ((q * 2) .| bit b = 2 * q + bit b) as ->.
  { pose proof (lor_shiftl_add q 1 (bit b) ltac:(lia) ltac:(destruct b; cbn; lia)) as H. rewrite Z.shiftl_mul_pow2 in H by lia. change (2 ^ 1) with 2 in H. lia. }
  rewrite exp_flag by done. rewrite mask_on by (unfold in_width; destruct b; cbn [bit]; lia).
  rewrite Z.shiftr_div_pow2 by lia. change (2 ^ 1) with 2. destruct (Z.eqb_spec (fpr_exp x) 0) as [E|E]; cbn [negb].
  - left. split; [done|]. change 0 with (bit false) at 1. apply FPR_zero.
  - right. set (e := (fpr_exp x - 1023) / 2). assert (fpr_exp x = 2 * e + bit p + 1023) as Ee.
    { unfold e, p. pose proof (Z.div_mod (fpr_exp x - 1023) 2 ltac:(lia)) as Hd. rewrite Zmod_odd in Hd. destruct (Z.odd _); cbn [bit]; lia. }
    exists (e + 1022), (round_ne (2 * q + bit b) 4). assert (-512 <= e <= 1022) as He by (destruct p; cbn [bit] in *; lia).
    split. { change 0 with (bit false) at 1. rewrite FPR_spec by (try lia; destruct b; cbn [bit]; lia). f_equal. lia. }
    split; [lia|]. split; [now apply round_sticky_range|].
    assert (magnitude x * 2 ^ 1074 = w * 2 ^ 53 * (2 ^ (e + 1021)) ^ 2) as EV.
    { rewrite magnitude_mantissa by done. unfold w. rewrite <- Z.pow_mul_r by lia. rewrite <- !Z.mul_assoc. f_equal.
      assert (0 <= bit p) by (destruct p; cbn [bit]; lia). rewrite <- !Z.pow_add_r by lia. f_equal. lia. }
    assert (Z.even (w * 2 ^ 53) = true) as Hev by (rewrite Z.even_mul; apply orb_true_r).
    pose proof (root_round q xu (w * 2 ^ 53) ltac:(lia) Hq Hz Hev) as [H1 H2]. cbv zeta in H1, H2. fold b in H1, H2. set (m := round_ne _ 4) in *.
    rewrite EV. assert (2 ^ (e + 1022) = 2 * 2 ^ (e + 1021)) as E2 by (rewrite <- Z.pow_succ_r by lia; f_equal; lia).
    set (t := 2 ^ (e + 1021)) in *. assert (0 < t) as Ht by (apply Z.pow_pos_nonneg; lia). split.
    + rewrite E2. apply (nearest_sqrt_scale _ 2); [done|]. unfold nearest_sqrt. lia.
    + replace (52 + (e + 1022)) with (53 + (e + 1021)) by lia. replace (53 + (e + 1022)) with (54 + (e + 1021)) by lia.
      rewrite !(Z.pow_add_r 2 _ (e + 1021)) by lia. fold t. rewrite !Z.pow_mul_l. assert (0 < t ^ 2) by nia.
      split; [apply Z.mul_le_mono_nonneg_r | apply Z.mul_lt_mono_pos_r]; lia.
Qed.
