(* ===== verification/FprAdd.v ===== *)
(** FprAdd: addition and subtraction round correctly. *)

From Stdlib Require Import ZArith Lia.
From stdpp Require Import base numbers list.
From S2P Require Import Prelude Rounding Fpr FprPack FprArith.

(** * Shifts by a variable count *)

Lemma count_high n : 0 <= n < 64 -> n .>> 5 = bit (32 <=? n) /\ n .& 31 = n - 32 * bit (32 <=? n).
Proof.
  intros Hn. change 31 with (Z.ones 5). rewrite Z.land_ones, Z.shiftr_div_pow2 by lia. change (2 ^ 5) with 32.
  destruct (Z.leb_spec 32 n); cbn [bit]; split.
  - symmetry. apply (Z.div_unique _ _ _ (n - 32)); lia.
  - symmetry. apply (Z.mod_unique _ _ 1); lia.
  - apply Z.div_small. lia.
  - rewrite Z.mod_small; lia.
Qed.

Lemma fpr_ursh_spec x n : in_width 64 x -> 0 <= n < 64 -> fpr_ursh x n = x / 2 ^ n.
Proof.
  intros Hx Hn. unfold fpr_ursh. destruct (count_high n Hn) as [-> ->].
  assert (in_width 64 (x .>> 32)) by (rewrite Z.shiftr_div_pow2 by lia; unfold in_width in *; split; [apply Z.div_pos | apply Z.div_lt_upper_bound]; lia).
  cbv zeta. rewrite select_on by (done || lia). destruct (Z.leb_spec 32 n); cbn [bit].
  - rewrite Z.shiftr_shiftr, Z.shiftr_div_pow2 by lia. do 2 f_equal. lia.
  - rewrite Z.shiftr_div_pow2 by lia. do 2 f_equal. lia.
Qed.

Lemma fpr_ulsh_spec x n : in_width 64 x -> 0 <= n < 64 -> fpr_ulsh x n = u64 (x * 2 ^ n).
Proof.
  intros Hx Hn. unfold fpr_ulsh. destruct (count_high n Hn) as [-> ->]. cbv zeta. rewrite select_on by (done || lia || (apply wrap_range; lia)).
  destruct (Z.leb_spec 32 n); cbn [bit]; rewrite !Z.shiftl_mul_pow2 by lia.
  - rewrite !wrap_mod by lia. rewrite Z.mul_mod_idemp_l by lia. rewrite <- Z.mul_assoc, <- Z.pow_add_r by lia. do 3 f_equal. lia.
  - do 3 f_equal. lia.
Qed.

(** A right shift that keeps a sticky bit. *)
Lemma sticky_shift x c : 0 <= x -> 0 <= c -> (x .| ((x mod 2 ^ c) + (2 ^ c - 1))) / 2 ^ c = stick x (2 ^ c).
Proof.
  intros Hx Hc. assert (0 < 2 ^ c) as Hp by (apply Z.pow_pos_nonneg; lia). rewrite <- Z.shiftr_div_pow2 by lia.
  rewrite Z.shiftr_lor, !Z.shiftr_div_pow2 by lia. rewrite <- stick_flag. f_equal. pose proof (Z.mod_pos_bound x (2 ^ c) Hp).
  destruct (Z.eqb_spec (x mod 2 ^ c) 0) as [->|Hne]; cbn [negb bit]; [apply Z.div_small; lia|].
  symmetry. apply (Z.div_unique _ _ _ (x mod 2 ^ c - 1)); lia.
Qed.

(** * Operands *)

(** The significand: zero for a zero. *)
Definition significand (x : Z) : Z := if fpr_exp x =? 0 then 0 else mantissa x.

Lemma magnitude_significand x : magnitude x = significand x * 2 ^ (fpr_exp x - 1).
Proof. unfold magnitude, significand. destruct (fpr_exp x =? 0); [lia | reflexivity]. Qed.

Lemma significand_cases x : (fpr_exp x = 0 /\ significand x = 0) \/ (1 <= fpr_exp x /\ 2 ^ 52 <= significand x < 2 ^ 53).
Proof.
  unfold significand. pose proof (exp_range x). pose proof (mantissa_range x). destruct (Z.eqb_spec (fpr_exp x) 0); [left; lia | right; lia].
Qed.

Lemma add_unpack_spec x : fpr_ok x -> add_unpack x = (bit (fpr_sign x), fpr_exp x - 1078, 8 * significand x).
Proof.
  intros [Hw _ Hn]. unfold add_unpack. cbv zeta.
  assert (0 <= x .>> 52 < 2 ^ 12) as H12 by (rewrite Z.shiftr_div_pow2 by lia; unfold in_width in Hw; split; [apply Z.div_pos | apply Z.div_lt_upper_bound]; lia).
  rewrite (sext_small 32 (x .>> 52)) by lia. rewrite Z.shiftr_shiftr by lia. change (52 + 11) with 63. rewrite shr63, read_exp by done.
  pose proof (exp_range x) as Re. rewrite exp_flag by done. rewrite (wrap_small 32 (bit _)) by (destruct (negb _); unfold in_width; cbn [bit]; lia).
  assert (u64 (bit (negb (fpr_exp x =? 0)) .<< 52) = if fpr_exp x =? 0 then 0 else 2 ^ 52) as -> by (destruct (fpr_exp x =? 0); reflexivity).
  change ((1 .<< 52) - 1) with (Z.ones 52). rewrite Z.land_ones by lia. fold (fpr_man x).
  assert (0 <= fpr_man x < 2 ^ 52) as Hm by (apply Z.mod_pos_bound; lia). f_equal.
  assert (fpr_man x .| (if fpr_exp x =? 0 then 0 else 2 ^ 52) = significand x) as ->.
  { unfold significand, mantissa. destruct (Z.eqb_spec (fpr_exp x) 0) as [E|E]; [rewrite (Hn E); reflexivity|].
    rewrite Z.lor_comm. change (2 ^ 52) with (1 .<< 52) at 1. rewrite lor_shiftl_add by lia. lia. }
  destruct (significand_cases x) as [[_ H]|[_ H]]; rewrite Z.shiftl_mul_pow2, wrap_small by (try lia; unfold in_width; lia); lia.
Qed.

(** The encoding without its sign orders the magnitudes. *)
Definition unsigned (x : Z) : Z := x mod 2 ^ 63.

Lemma unsigned_split x : in_width 64 x -> unsigned x = fpr_exp x * 2 ^ 52 + fpr_man x /\ x = bit (fpr_sign x) * 2 ^ 63 + unsigned x.
Proof.
  intros Hx. unfold unsigned, fpr_exp, fpr_man. split.
  - change (2 ^ 63) with (2 ^ 52 * 2 ^ 11). rewrite Z.rem_mul_r by lia. lia.
  - rewrite <- shr63, Z.shiftr_div_pow2 by (done || lia). pose proof (Z.div_mod x (2 ^ 63) ltac:(lia)). lia.
Qed.

Lemma unsigned_order x y : fpr_ok x -> fpr_ok y -> unsigned y <= unsigned x ->
  fpr_exp y <= fpr_exp x /\ (fpr_exp y = fpr_exp x -> significand y <= significand x) /\ (unsigned y = unsigned x <-> magnitude x = magnitude y).
Proof.
  intros Hx Hy Hu. destruct (unsigned_split x (fpr_width _ Hx)) as [Ex _]. destruct (unsigned_split y (fpr_width _ Hy)) as [Ey _].
  assert (0 <= fpr_man x < 2 ^ 52) as Mx by (apply Z.mod_pos_bound; lia). assert (0 <= fpr_man y < 2 ^ 52) as My by (apply Z.mod_pos_bound; lia).
  split; [lia|]. split.
  - intros E. unfold significand, mantissa. rewrite E. destruct (fpr_exp x =? 0); lia.
  - pose proof (fpr_normal _ Hx). pose proof (fpr_normal _ Hy). split; intros H'.
    + assert (fpr_exp y = fpr_exp x /\ fpr_man y = fpr_man x) as [E1 E2] by lia. unfold magnitude. now rewrite E1, E2.
    + rewrite !magnitude_significand in H'. destruct (significand_cases x) as [[E1 S1]|[E1 S1]], (significand_cases y) as [[E2 S2]|[E2 S2]].
      * rewrite Ex, Ey, E1, E2 in *. lia.
      * rewrite S1 in H'. pose proof (Z.pow_pos_nonneg 2 (fpr_exp y - 1) ltac:(lia) ltac:(lia)). nia.
      * rewrite S2 in H'. pose proof (Z.pow_pos_nonneg 2 (fpr_exp x - 1) ltac:(lia) ltac:(lia)). nia.
      * assert (fpr_exp y = fpr_exp x) as E.
        { destruct (Z.eq_dec (fpr_exp y) (fpr_exp x)) as [|Hne]; [done|]. exfalso.
          pose proof (Z.pow_pos_nonneg 2 (fpr_exp y - 1) ltac:(lia) ltac:(lia)).
          assert (2 * 2 ^ (fpr_exp y - 1) <= 2 ^ (fpr_exp x - 1)) by (rewrite <- Z.pow_succ_r by lia; apply Z.pow_le_mono_r; lia). nia. }
        rewrite E in *. apply Z.mul_cancel_r in H'; [|apply Z.pow_nonzero; lia]. unfold significand, mantissa in H'.
        rewrite E in H'. destruct (Z.eqb_spec (fpr_exp x) 0); lia.
Qed.

Lemma magnitude_twice x : 2 * magnitude x = significand x * 2 ^ fpr_exp x.
Proof.
  rewrite magnitude_significand. destruct (significand_cases x) as [[_ ->]|[H _]]; [lia|].
  rewrite Z.mul_assoc, (Z.mul_comm 2), <- Z.mul_assoc. f_equal. rewrite <- Z.pow_succ_r by lia. f_equal. apply Z.succ_pred.
Qed.

Lemma representable_magnitude x : fpr_ok x -> representable (magnitude x) 1.
Proof.
  intros Hx. unfold representable. destruct (fpr_cases x Hx) as [[_ ->]|(k & m & _ & Hk & Hm & ->)]; [reflexivity|].
  assert (2 ^ k <= 2 * 2 ^ 2044) by (rewrite <- Z.pow_succ_r by lia; apply Z.pow_le_mono_r; lia).
  assert (0 < 2 ^ k) by (apply Z.pow_pos_nonneg; lia). set (T := 2 ^ 2044) in *. clearbody T. nia.
Qed.

(** * Sticky sums *)

Lemma stick_unique n d m : 0 < d -> n = m * d \/ (Z.odd m = true /\ Z.abs (n - m * d) < d) -> stick n d = m.
Proof.
  intros Hd [->|[Ho H]]; [now apply stick_exact|]. unfold stick. pose proof (Z.div_mod n d ltac:(lia)) as E. pose proof (Z.mod_pos_bound n d Hd).
  set (q := n / d) in *. set (r := n mod d) in *. clearbody q r.
  assert (n - m * d = (q - m) * d + r) as E' by lia. rewrite E' in H. assert (q = m \/ (q = m - 1 /\ r <> 0)) as Hq by nia.
  destruct Hq as [->|[-> Hr]].
  - rewrite lor_1, Ho. now destruct (r =? 0).
  - rewrite (proj2 (Z.eqb_neq _ _) Hr), lor_1. replace (m - 1) with (Z.pred m) by lia. rewrite Z.odd_pred, <- Z.negb_odd, Ho. cbn [negb]. lia.
Qed.

(** Adding to, or subtracting from, an even number commutes with taking the sticky bit. *)
Lemma stick_add h n d (sub : bool) :
  0 < d -> stick (2 * h * d + (if sub then - n else n)) d = 2 * h + (if sub then - stick n d else stick n d).
Proof.
  intros Hd. apply stick_unique; [done|]. destruct (stick_cases n d Hd) as [E|(Ho & _ & Hn)].
  - left. set (t := stick n d) in *. clearbody t. subst n. destruct sub; ring.
  - right. split.
    + rewrite Z.odd_add, Z.odd_mul. cbn [Z.odd andb]. destruct sub; rewrite ?Z.odd_opp, Ho; reflexivity.
    + destruct sub; [replace (_ - _) with (- (n - stick n d * d)) by ring; lia | replace (_ - _) with (n - stick n d * d) by ring; lia].
Qed.

(** The result of an addition: normalise, scale down, pack. *)
Definition finish_sum (s e z : Z) : Z :=
  let '(m, e) := FPR_NORM64 z e in
  FPR s (e + 9) ((m .| ((u32 m .& 0x1FF) + 0x1FF)) .>> 9).

Lemma finish_sum_zero (s : bool) e : finish_sum (bit s) e 0 = bit s * 2 ^ 63.
Proof. unfold finish_sum. rewrite FPR_NORM64_zero. apply FPR_zero. Qed.

(** Exact sums. *)
Lemma finish_sum_exact (s : bool) k z n :
  0 < z < 2 ^ 64 -> 0 <= k <= 2046 -> n * 2 ^ 4 = z * 2 ^ k -> representable n 1 ->
  finish_sum (bit s) (k - 1078) z = round_to s n 1.
Proof.
  intros Hz Hk E Hr. unfold finish_sum. destruct (FPR_NORM64_spec z (k - 1078) Hz) as (j & Hj & -> & Hm). destruct (scale_down _ Hm) as [-> _].
  apply (FPR_round _ _ _ _ _ _ (4 + j) (k + 11)); try lia; [|now apply representable_bound]. rewrite !Z.pow_add_r, Z.mul_1_r by lia.
  transitivity (n * 2 ^ 4 * (2 ^ 11 * 2 ^ j)); [ring|]. rewrite E. ring.
Qed.

Lemma stick_low h n d : 0 < d -> Z.even h = true -> h <= stick n d -> h * d <= n.
Proof.
  intros Hd He H. destruct (stick_cases n d Hd) as [E|(Ho & _ & Hn)]; [rewrite E; nia|].
  assert (stick n d <> h) by (intros Es; rewrite Es, <- Z.negb_even, He in Ho; discriminate). set (t := stick n d) in *. clearbody t. nia.
Qed.

Lemma stick_high h n d : 0 < d -> Z.even h = true -> stick n d < h -> n < h * d.
Proof. intros Hd He H. destruct (stick_cases n d Hd) as [E|(Ho & _ & Hn)]; set (t := stick n d) in *; clearbody t; nia. Qed.

(** Sums with a sticky bit keep enough bits. *)
Lemma finish_sum_sticky (s : bool) k N D n :
  0 < D -> 2 ^ 54 <= stick N D < 2 ^ 57 -> 0 <= k <= 2046 -> n * D * 2 ^ 4 = N * 2 ^ k -> representable n 1 ->
  finish_sum (bit s) (k - 1078) (stick N D) = round_to s n 1.
Proof.
  intros HD Hz Hk E Hr. unfold finish_sum. destruct (FPR_NORM64_spec (stick N D) (k - 1078)) as (j & Hj & -> & Hm); [lia|].
  destruct (scale_down _ Hm) as [-> _].
  assert (7 <= j <= 9) as Hj'.
  { split.
    - destruct (Z.le_gt_cases 7 j) as [|Hlt]; [done|]. exfalso. pose proof (Z.pow_le_mono_r 2 j 6 ltac:(lia) ltac:(lia)). nia.
    - destruct (Z.le_gt_cases j 9) as [|Hlt]; [done|]. exfalso. pose proof (Z.pow_le_mono_r 2 10 j ltac:(lia) ltac:(lia)). nia. }
  assert (2 ^ 9 = 2 ^ (9 - j) * 2 ^ j) as E9 by (rewrite <- Z.pow_add_r by lia; f_equal; lia).
  assert (0 < 2 ^ j) as Pj by (apply Z.pow_pos_nonneg; lia). assert (0 < 2 ^ (9 - j)) as P9 by (apply Z.pow_pos_nonneg; lia).
  assert (stick (stick N D * 2 ^ j) (2 ^ 9) = stick N (2 ^ (9 - j) * D)) as ->.
  { rewrite E9. transitivity (stick (stick N D) (2 ^ (9 - j))).
    - apply stick_unique; [nia|]. destruct (stick_cases (stick N D) (2 ^ (9 - j)) P9) as [Es|(Ho & _ & Hn)].
      + left. rewrite Es at 1. ring.
      + right. split; [exact Ho|]. replace (_ - _) with ((stick N D - stick (stick N D) (2 ^ (9 - j)) * 2 ^ (9 - j)) * 2 ^ j) by ring.
        rewrite Z.abs_mul, (Z.abs_eq (2 ^ j)) by lia. apply Z.mul_lt_mono_pos_r; lia.
    - destruct (Z.eq_dec j 9) as [->|]; [|apply stick_stick; lia]. change (2 ^ (9 - 9)) with 1. rewrite Z.mul_1_l.
      rewrite <- (Z.mul_1_r (stick N D)) at 1. apply stick_exact. lia. }
  assert (2 ^ 63 = 2 ^ (63 - j) * 2 ^ j) as E63 by (rewrite <- Z.pow_add_r by lia; f_equal; lia).
  assert (2 ^ 64 = 2 ^ (64 - j) * 2 ^ j) as E64 by (rewrite <- Z.pow_add_r by lia; f_equal; lia).
  assert (forall i, 1 <= i -> Z.even (2 ^ i) = true) as Hev by (intros i Hi; rewrite Z.even_pow by lia; reflexivity).
  assert (2 ^ (63 - j) * D <= N) as B1 by (apply stick_low; [exact HD | apply Hev; lia | nia]).
  assert (N < 2 ^ (64 - j) * D) as B2 by (apply stick_high; [exact HD | apply Hev; lia | nia]).
  apply (FPR_round _ _ _ _ _ _ 4 (k + (11 - j))); try lia.
  - rewrite !Z.mul_assoc, <- !Z.pow_add_r by lia. replace (54 + (9 - j)) with (63 - j) by lia. replace (55 + (9 - j)) with (64 - j) by lia. lia.
  - rewrite (Z.pow_add_r 2 k), Z.mul_1_r by lia. replace (11 - j) with (9 - j + 2) by lia. rewrite (Z.pow_add_r 2 (9 - j) 2) by lia.
    transitivity (n * D * 2 ^ 4 * (2 ^ (9 - j) * 2 ^ 2)); [ring|]. rewrite E. ring.
  - now apply representable_bound.
Qed.

(** * Ordered operands *)

(** The body of [fpr_add] after the operands have been put in order. *)
Definition add_ordered (x y : Z) : Z :=
  let '(sx, ex, xu) := add_unpack x in
  let '(sy, ey, yu) := add_unpack y in
  let cc := ex - ey in
  let yu := yu .& u64 (- (u32 (cc - 60) .>> 31)) in
  let cc := cc .& 63 in
  let m := u64 (fpr_ulsh 1 cc - 1) in
  let yu := yu .| u64 ((yu .& m) + m) in
  let yu := fpr_ursh yu cc in
  finish_sum sx ex (u64 (xu + u64 (yu - (u64 (yu .<< 1) .& u64 (- (sx .^ sy)))))).

Lemma fpr_add_ordered x y : fpr_add x y =
  let m := (1 .<< 63) - 1 in
  let za := u64 ((x .& m) - (y .& m)) in
  let cs := u32 (za .>> 63) .| (u32 (1 - u32 (u64 (- za) .>> 63)) .& u32 (x .>> 63)) in
  let m := (x .^ y) .& u64 (- cs) in
  add_ordered (x .^ m) (y .^ m).
Proof.
  unfold fpr_add, add_ordered, finish_sum. cbv zeta. destruct (add_unpack (x .^ _)) as [[sx ex] xu], (add_unpack (y .^ _)) as [[sy ey] yu].
  now destruct (FPR_NORM64 _ ex).
Qed.

Lemma fpr_add_swap x y : fpr_ok x -> fpr_ok y ->
  fpr_add x y = if (unsigned x <? unsigned y) || ((unsigned x =? unsigned y) && fpr_sign x) then add_ordered y x else add_ordered x y.
Proof.
  intros [Hx _ _] [Hy _ _]. rewrite fpr_add_ordered. cbv zeta. change ((1 .<< 63) - 1) with (Z.ones 63). rewrite !Z.land_ones by lia.
  fold (unsigned x) (unsigned y). rewrite (shr63 x) by done.
  assert (0 <= unsigned x < 2 ^ 63) as Ux by (apply Z.mod_pos_bound; lia). assert (0 <= unsigned y < 2 ^ 63) as Uy by (apply Z.mod_pos_bound; lia).
  rewrite sign_bit by lia. set (ux := unsigned x) in *. set (uy := unsigned y) in *. clearbody ux uy.
  assert (u32 (bit (ux - uy <? 0)) .| (u32 (1 - u32 (u64 (- u64 (ux - uy)) .>> 63)) .& u32 (bit (fpr_sign x)))
    = bit ((ux <? uy) || ((ux =? uy) && fpr_sign x))) as ->.
  { assert (u64 (- u64 (ux - uy)) = u64 (uy - ux)) as -> by word_lia. rewrite sign_bit by lia.
    destruct (Z.ltb_spec (ux - uy) 0), (Z.ltb_spec (uy - ux) 0), (Z.ltb_spec ux uy), (Z.eqb_spec ux uy); try lia; now destruct (fpr_sign x). }
  rewrite (select_on 64 x y) by (done || lia). rewrite (Z.lxor_comm x y), (select_on 64 y x) by (done || lia). now destruct (_ || _).
Qed.

Lemma sum_mask cc : 0 <= cc < 2 ^ 11 -> u32 (cc - 60) .>> 31 = bit (cc <? 60).
Proof.
  intros H. destruct (Z.ltb_spec cc 60); cbn [bit]; rewrite Z.shiftr_div_pow2 by lia.
  - assert (u32 (cc - 60) = cc - 60 + 2 ^ 32) as -> by word_lia. symmetry. apply (Z.div_unique _ _ _ (cc - 60 + 2 ^ 31)); lia.
  - rewrite wrap_small by (unfold in_width; lia). apply Z.div_small. lia.
Qed.

(** The smaller significand, aligned on the larger one with a sticky bit. *)
Lemma align_spec yu c : 0 <= yu < 2 ^ 56 -> 0 <= c < 64 ->
  (let m := u64 (fpr_ulsh 1 c - 1) in fpr_ursh (yu .| u64 ((yu .& m) + m)) c) = stick yu (2 ^ c).
Proof.
  intros Hy Hc. cbv zeta. assert (0 < 2 ^ c < 2 ^ 64) as Hp by (split; [apply Z.pow_pos_nonneg | apply Z.pow_lt_mono_r]; lia).
  rewrite fpr_ulsh_spec, Z.mul_1_l by (lia || (unfold in_width; lia)). rewrite (wrap_small 64 (2 ^ c)) by (unfold in_width; lia).
  rewrite (wrap_small 64 (2 ^ c - 1)) by (unfold in_width; lia). assert (2 ^ c - 1 = Z.ones c) as E by (rewrite Z.ones_equiv; lia).
  rewrite E at 1. rewrite Z.land_ones by lia. pose proof (Z.mod_pos_bound yu (2 ^ c) ltac:(lia)) as Hr.
  assert (yu mod 2 ^ c + (2 ^ c - 1) < 2 ^ 64) as Hlt.
  { destruct (Z.le_gt_cases c 62) as [Hle|Hgt]; [pose proof (Z.pow_le_mono_r 2 c 62 ltac:(lia) Hle); lia|].
    replace c with 63 by lia. pose proof (Z.mod_le yu (2 ^ 63) ltac:(lia) ltac:(lia)). lia. }
  rewrite (wrap_small 64 (yu mod 2 ^ c + _)) by (unfold in_width; lia).
  rewrite fpr_ursh_spec, sticky_shift by (lia || (apply lor_width; unfold in_width; lia)). reflexivity.
Qed.

(** Conditional subtraction of the aligned operand. *)
Lemma signed_term yu (sub : bool) : 0 <= yu < 2 ^ 63 -> u64 (yu - (u64 (yu .<< 1) .& u64 (- bit sub))) = u64 (if sub then - yu else yu).
Proof.
  intros Hy. rewrite Z.shiftl_mul_pow2, (wrap_small 64 (yu * 2 ^ 1)), mask_on by (lia || (unfold in_width; lia)). f_equal. destruct sub; lia.
Qed.

Lemma add_ordered_sum x y : fpr_ok x -> fpr_ok y -> fpr_exp y <= fpr_exp x ->
  let cc := fpr_exp x - fpr_exp y in
  let sub := xorb (fpr_sign x) (fpr_sign y) in
  let yu := if cc <? 60 then stick (8 * significand y) (2 ^ cc) else 0 in
  add_ordered x y = finish_sum (bit (fpr_sign x)) (fpr_exp x - 1078) (u64 (8 * significand x + (if sub then - yu else yu))).
Proof.
  intros Hx Hy He cc sub yu. unfold add_ordered. rewrite !add_unpack_spec by done. cbv iota beta zeta. f_equal.
  replace (fpr_exp x - 1078 - (fpr_exp y - 1078)) with cc by lia. assert (0 <= cc < 2 ^ 11) as Hcc by (pose proof (exp_range x); pose proof (exp_range y); lia).
  assert (bit (fpr_sign x) .^ bit (fpr_sign y) = bit sub) as -> by (unfold sub; now destruct (fpr_sign x), (fpr_sign y)).
  rewrite sum_mask by done. assert (0 <= 8 * significand y < 2 ^ 56) as Hs by (destruct (significand_cases y); lia).
  rewrite mask_on by (unfold in_width; lia). pose proof (align_spec (if cc <? 60 then 8 * significand y else 0) (cc .& 63)) as Ha. cbv zeta in Ha.
  assert (cc .& 63 = cc mod 2 ^ 6) as Hc by (change 63 with (Z.ones 6); apply Z.land_ones; lia).
  pose proof (Z.mod_pos_bound cc (2 ^ 6) ltac:(lia)) as Hm.
  rewrite Ha by (rewrite ?Hc; destruct (cc <? 60); lia). clear Ha.
  assert (stick (if cc <? 60 then 8 * significand y else 0) (2 ^ (cc .& 63)) = yu) as ->.
  { unfold yu. destruct (Z.ltb_spec cc 60); [rewrite Hc, Z.mod_small by lia; reflexivity|].
    rewrite Hc. rewrite <- (Z.mul_0_l (2 ^ (cc mod 2 ^ 6))) at 1. apply stick_exact. apply Z.pow_pos_nonneg; lia. }
  assert (0 <= yu < 2 ^ 56) as Hyu.
  { unfold yu. destruct (Z.ltb_spec cc 60); [|lia]. pose proof (pow2_le 0 cc ltac:(lia)). apply stick_bounds; [lia | reflexivity | nia]. }
  rewrite signed_term by lia. rewrite Z.add_comm, wrap_add_l by lia. f_equal. lia.
Qed.

Lemma magnitude_order x y : fpr_ok x -> fpr_ok y -> unsigned y <= unsigned x -> magnitude y <= magnitude x.
Proof.
  intros Hx Hy Hu. destruct (unsigned_order x y Hx Hy Hu) as (He & Hs & _). pose proof (magnitude_twice x). pose proof (magnitude_twice y).
  destruct (Z.eq_dec (fpr_exp y) (fpr_exp x)) as [E|Hne].
  - specialize (Hs E). rewrite E in *. assert (0 < 2 ^ fpr_exp x) by (pose proof (exp_range x); apply Z.pow_pos_nonneg; lia). nia.
  - pose proof (exp_range y). assert (0 < 2 ^ fpr_exp y) by (apply Z.pow_pos_nonneg; lia).
    assert (2 * 2 ^ fpr_exp y <= 2 ^ fpr_exp x) by (rewrite <- Z.pow_succ_r by lia; apply Z.pow_le_mono_r; lia).
    destruct (significand_cases x) as [[? _]|[_ Sx]]; [lia|]. destruct (significand_cases y) as [[_ Sy]|[_ Sy]]; nia.
Qed.

(** Signed combination of the magnitudes. *)
Definition combine (sub : bool) (a b : Z) : Z := a + (if sub then - b else b).

(** An operand more than sixty binades below the other does not change the result. *)
Lemma round_to_absorb s x y (sub : bool) : fpr_ok x -> 60 <= fpr_exp x - fpr_exp y ->
  round_to s (combine sub (magnitude x) (magnitude y)) 1 = round_to s (magnitude x) 1.
Proof.
  intros Hx Hc. pose proof (exp_range y). destruct (significand_cases x) as [[? _]|[_ Sx]]; [lia|].
  assert (0 <= magnitude y < 2 ^ (fpr_exp x - 8)) as Hy.
  { split; [apply magnitude_nonneg|]. pose proof (magnitude_twice y) as E. destruct (significand_cases y) as [[_ Sy]|[_ Sy]].
    - rewrite Sy in E. pose proof (Z.pow_pos_nonneg 2 (fpr_exp x - 8) ltac:(lia) ltac:(lia)). lia.
    - assert (2 * 2 ^ (fpr_exp x - 8) = 2 ^ (fpr_exp x - 60 - fpr_exp y) * (2 ^ 53 * 2 ^ fpr_exp y)) as E2.
      { rewrite <- Z.pow_succ_r, <- !Z.pow_add_r by lia. f_equal. lia. }
      pose proof (Z.pow_pos_nonneg 2 (fpr_exp x - 60 - fpr_exp y) ltac:(lia) ltac:(lia)). pose proof (Z.pow_pos_nonneg 2 (fpr_exp y) ltac:(lia) ltac:(lia)).
      assert (significand y * 2 ^ fpr_exp y < 2 ^ 53 * 2 ^ fpr_exp y) by (apply Z.mul_lt_mono_pos_r; lia). nia. }
  rewrite (magnitude_significand x). set (k := fpr_exp x - 1) in *. set (X := significand x) in *. set (b := magnitude y) in *. clearbody b X.
  assert (2 ^ k = 2 ^ (fpr_exp x - 8) * 2 ^ 7) as Ek by (rewrite <- Z.pow_add_r by lia; f_equal; lia).
  assert (2 ^ k = 2 * 2 ^ (k - 1)) as Ek1 by (rewrite <- Z.pow_succ_r by lia; f_equal; lia).
  set (p := 2 ^ (fpr_exp x - 8)) in *. set (p1 := 2 ^ (k - 1)) in *.
  assert (round_to s (X * 2 ^ k) 1 = pack s k X) as ->.
  { rewrite (round_to_binade s _ 1 k) by (rewrite ?Z.pow_add_r by lia; nia). f_equal. apply round_ne_unique; [nia|]. left. lia. }
  unfold combine. destruct (Z.lt_ge_cases (X * 2 ^ k + (if sub then - b else b)) (2 ^ 52 * 2 ^ k)) as [Hlt|Hge].
  - assert (sub = true) as -> by (destruct sub; [done | nia]). assert (X = 2 ^ 52) as -> by nia.
    rewrite (round_to_binade s _ 1 (k - 1)) by (rewrite ?Z.pow_add_r by lia; fold p1; nia). fold p1.
    rewrite (round_ne_unique _ _ (2 ^ 53)) by (try left; lia). rewrite pack_carry. now replace (k - 1 + 1) with k by lia.
  - rewrite (round_to_binade s _ 1 k) by (rewrite ?Z.pow_add_r by lia; destruct sub; nia). f_equal.
    apply round_ne_unique; [lia|]. left. destruct sub; lia.
Qed.

Lemma add_ordered_close (s sub : bool) ex cc X Y n :
  0 <= cc < 60 -> 0 <= ex <= 2046 -> 0 <= n -> representable n 1 ->
  (X = 0 /\ cc = 0 \/ 2 ^ 52 <= X < 2 ^ 53) -> 0 <= Y < 2 ^ 53 ->
  n * 2 ^ cc * 2 ^ 4 = combine sub (8 * X * 2 ^ cc) (8 * Y) * 2 ^ ex ->
  let yu := stick (8 * Y) (2 ^ cc) in
  finish_sum (bit s) (ex - 1078) (u64 (combine sub (8 * X) yu)) = round_to s n 1.
Proof.
  intros Hcc Hex Hn Hr HX HY E yu. set (D := 2 ^ cc) in *. assert (1 <= D) as HD by (apply (Z.pow_le_mono_r 2 0); lia).
  assert (0 < 2 ^ ex) as Pe by (apply Z.pow_pos_nonneg; lia). set (N := combine sub (8 * X * D) (8 * Y)) in *.
  assert (combine sub (8 * X) yu = stick N D) as ->.
  { unfold N, combine, yu. replace (8 * X) with (2 * (4 * X)) by ring. symmetry. apply stick_add. lia. }
  assert (0 <= N) as HN by nia.
  assert (N < 2 ^ 57 * D) as HN2 by (unfold N, combine; destruct sub; nia).
  assert (0 <= stick N D < 2 ^ 57) as Hz by (apply stick_bounds; [lia | reflexivity | lia]).
  rewrite wrap_small by (unfold in_width; lia). destruct (Z.eq_dec (stick N D) 0) as [Ez|Hne].
  - rewrite Ez, finish_sum_zero. assert (N = 0) as EN by (destruct (stick_cases N D ltac:(lia)) as [En|[Ho _]]; [lia | rewrite Ez in Ho; discriminate]).
    rewrite EN in E. assert (n = 0) as -> by nia. symmetry. now apply round_to_small.
  - destruct (Z.le_gt_cases cc 3) as [Hle|Hgt].
    + assert (8 = 2 ^ (3 - cc) * D) as E8 by (unfold D; rewrite <- Z.pow_add_r by lia; replace (3 - cc + cc) with 3 by lia; reflexivity).
      assert (exists M, N = M * D) as [M EM].
      { exists (combine sub (8 * X) (2 ^ (3 - cc) * Y)). unfold N, combine. rewrite E8. destruct sub; ring. }
      apply finish_sum_exact; [lia | lia | | exact Hr]. rewrite EM in *. rewrite stick_exact in * by lia. apply (Z.mul_cancel_r _ _ D); lia.
    + apply finish_sum_sticky; [lia | | lia | exact E | exact Hr]. split; [|lia]. apply (stick_bounds N D (2 ^ 54) (2 ^ 57)); [lia | reflexivity|].
      assert (2 ^ 4 <= D) by (apply Z.pow_le_mono_r; lia). split; [|lia]. unfold N, combine. destruct sub; nia.
Qed.

Lemma add_ordered_spec x y : fpr_ok x -> fpr_ok y -> unsigned y <= unsigned x ->
  let n := combine (xorb (fpr_sign x) (fpr_sign y)) (magnitude x) (magnitude y) in
  representable n 1 -> add_ordered x y = round_to (fpr_sign x) n 1.
Proof.
  intros Hx Hy Hu n Hr. destruct (unsigned_order x y Hx Hy Hu) as (He & _). pose proof (magnitude_order x y Hx Hy Hu) as Hm.
  rewrite add_ordered_sum by done. cbv zeta. pose proof (magnitude_nonneg y) as Hm0. pose proof (exp_range x). pose proof (exp_range y).
  pose proof (fpr_finite _ Hx) as Fx. set (sub := xorb _ _) in *. set (cc := fpr_exp x - fpr_exp y).
  destruct (Z.ltb_spec cc 60) as [Hc|Hc].
  - apply (add_ordered_close (fpr_sign x) sub (fpr_exp x) cc);
      [lia | lia | unfold n, combine; destruct sub; lia | exact Hr | destruct (significand_cases x); lia | destruct (significand_cases y); lia |].
    assert (2 ^ fpr_exp x = 2 ^ cc * 2 ^ fpr_exp y) as E2 by (rewrite <- Z.pow_add_r by lia; f_equal; lia).
    pose proof (magnitude_twice x) as E. pose proof (magnitude_twice y) as E'. unfold n, combine. destruct sub.
    + transitivity (8 * 2 ^ cc * (2 * magnitude x - 2 * magnitude y)); [ring | rewrite E, E', E2; ring].
    + transitivity (8 * 2 ^ cc * (2 * magnitude x + 2 * magnitude y)); [ring | rewrite E, E', E2; ring].
  - unfold n. rewrite (round_to_absorb _ x y sub Hx Hc). replace (8 * significand x + _) with (8 * significand x) by (destruct sub; lia).
    destruct (significand_cases x) as [[? _]|[_ Sx]]; [lia|]. rewrite wrap_small by (unfold in_width; lia).
    apply finish_sum_exact; [lia | lia | | now apply representable_magnitude].
    transitivity (8 * (2 * magnitude x)); [ring | rewrite magnitude_twice; ring].
Qed.

Lemma add_ordered_value x y : fpr_ok x -> fpr_ok y -> unsigned y <= unsigned x ->
  (unsigned y = unsigned x -> fpr_sign x = true -> fpr_sign y = true) ->
  let v := value x + value y in
  combine (xorb (fpr_sign x) (fpr_sign y)) (magnitude x) (magnitude y) = Z.abs v /\
  fpr_sign x = (v <? 0) || ((v =? 0) && (fpr_sign x && fpr_sign y)).
Proof.
  intros Hx Hy Hu Hs v. pose proof (magnitude_order x y Hx Hy Hu) as Hm. destruct (unsigned_order x y Hx Hy Hu) as (_ & _ & Heq).
  pose proof (magnitude_nonneg y). unfold v, value, combine.
  set (a := magnitude x) in *. set (b := magnitude y) in *. clearbody a b.
  destruct (fpr_sign x), (fpr_sign y); cbn [xorb andb]; (split; [lia|]);
    match goal with |- context [?t <? 0] => destruct (Z.ltb_spec t 0), (Z.eqb_spec t 0) end; try reflexivity; try lia; exfalso.
  all: specialize (Hs (proj2 Heq ltac:(lia)) eq_refl); discriminate.
Qed.

(** Addition is correctly rounded; a zero sum is negative only when both operands are. *)
Lemma fpr_add_spec x y : fpr_ok x -> fpr_ok y ->
  let v := value x + value y in
  representable (Z.abs v) 1 ->
  fpr_add x y = round_to ((v <? 0) || ((v =? 0) && (fpr_sign x && fpr_sign y))) (Z.abs v) 1.
Proof.
  intros Hx Hy v Hr. rewrite fpr_add_swap by done.
  destruct (Z.ltb_spec (unsigned x) (unsigned y)), (Z.eqb_spec (unsigned x) (unsigned y)), (fpr_sign x) eqn:Sx; cbn [orb andb]; try lia.
  1-3: destruct (add_ordered_value y x Hy Hx) as [En Es]; [lia | intros; first [lia | assumption] |];
    rewrite Z.add_comm in En, Es; fold v in En, Es; rewrite add_ordered_spec by (done || lia || (rewrite En; exact Hr)); rewrite En;
    f_equal; rewrite Sx in Es; rewrite ?andb_true_r, ?andb_false_r in Es; rewrite ?andb_false_r; exact Es.
  all: destruct (add_ordered_value x y Hx Hy) as [En Es]; [lia | intros; first [lia | congruence] |];
    fold v in En, Es; rewrite add_ordered_spec by (done || lia || (rewrite En; exact Hr)); rewrite En;
    f_equal; rewrite Sx in Es |- *; cbn [andb] in Es; exact Es.
Qed.
