(* ===== verification/FprConv.v ===== *)
(** FprConv: subtraction, comparison, halving, conversion to integers and the exponential. *)

From Stdlib Require Import ZArith Lia.
From stdpp Require Import base numbers list.
From S2P Require Import Prelude Rounding Fpr FprPack FprArith FprAdd.

(** * Signs *)

Lemma sign_flip x : in_width 64 x -> x .^ (1 .<< 63) = (if fpr_sign x then x - 2 ^ 63 else x + 2 ^ 63).
Proof.
  intros Hx. destruct (unsigned_split x Hx) as [_ E]. assert (0 <= unsigned x < 2 ^ 63) as Hu by (apply Z.mod_pos_bound; lia).
  assert (forall b : bool, bit b * 2 ^ 63 + unsigned x = (bit b .<< 63) .^ unsigned x) as Hl.
  { intros b. rewrite <- lor_shiftl_add by lia. symmetry. apply Z.bits_inj'. intros k Hk. rewrite Z.lor_spec, Z.lxor_spec, Z.shiftl_spec by lia.
    destruct (Z.lt_ge_cases k 63); [rewrite Z.testbit_neg_r by lia; now destruct (Z.testbit (unsigned x) k)|].
    assert (Z.testbit (unsigned x) k = false) as ->; [|now destruct (Z.testbit (bit b) (k - 63))].
    unfold unsigned. rewrite <- wrap_mod, wrap_testbit by lia. now rewrite (proj2 (Z.ltb_ge k 63)) by lia. }
  rewrite E at 1. rewrite Hl, Z.lxor_assoc, (Z.lxor_comm (unsigned x)), <- Z.lxor_assoc.
  assert ((bit (fpr_sign x) .<< 63) .^ (1 .<< 63) = bit (negb (fpr_sign x)) .<< 63) as -> by (destruct (fpr_sign x); reflexivity).
  rewrite <- Hl. destruct (fpr_sign x); cbn [bit negb] in *; lia.
Qed.

Lemma fpr_neg_spec x : fpr_ok x -> fpr_ok (fpr_neg x) /\ value (fpr_neg x) = - value x /\ fpr_sign (fpr_neg x) = negb (fpr_sign x).
Proof.
  intros Hx. pose proof (fpr_width _ Hx) as Hw. unfold fpr_neg. assert (in_width 64 (x .^ (1 .<< 63))) as Hn by (apply lxor_width; [lia | exact Hw | vm_compute; split; congruence]).
  assert (fpr_sign (x .^ (1 .<< 63)) = negb (fpr_sign x)) as Es.
  { unfold fpr_sign. rewrite Z.lxor_spec. change (Z.testbit (1 .<< 63) 63) with true. apply xorb_true_r. }
  assert (unsigned (x .^ (1 .<< 63)) = unsigned x) as Eu.
  { unfold unsigned. rewrite sign_flip by done. destruct (fpr_sign x);
    [rewrite <- (Z_mod_plus_full (x - 2 ^ 63) 1 (2 ^ 63)); f_equal; lia | rewrite <- (Z_mod_plus_full x 1 (2 ^ 63)); f_equal; lia]. }
  destruct (unsigned_split _ Hn) as [E1 _], (unsigned_split _ Hw) as [E2 _]. rewrite Eu, E2 in E1.
  assert (0 <= fpr_man x < 2 ^ 52) by (apply Z.mod_pos_bound; lia). assert (0 <= fpr_man (x .^ (1 .<< 63)) < 2 ^ 52) by (apply Z.mod_pos_bound; lia).
  assert (fpr_exp (x .^ (1 .<< 63)) = fpr_exp x /\ fpr_man (x .^ (1 .<< 63)) = fpr_man x) as [Ee Em] by lia.
  pose proof (fpr_finite _ Hx). pose proof (fpr_normal _ Hx). split; [constructor; [exact Hn | lia | rewrite Ee, Em; assumption]|]. split; [|exact Es].
  unfold value, magnitude. rewrite Es, Ee, Em. destruct (fpr_sign x); cbn [negb]; lia.
Qed.

(** Subtraction is correctly rounded. *)
Lemma fpr_sub_spec x y : fpr_ok x -> fpr_ok y ->
  let v := value x - value y in
  representable (Z.abs v) 1 ->
  fpr_sub x y = round_to ((v <? 0) || ((v =? 0) && (fpr_sign x && negb (fpr_sign y)))) (Z.abs v) 1.
Proof.
  intros Hx Hy v Hr. destruct (fpr_neg_spec y Hy) as (Hn & Hv & Hs). pose proof (fpr_add_spec x (fpr_neg y) Hx Hn) as H. cbv zeta in H.
  rewrite Hv, Hs, Z.add_opp_r in H. exact (H Hr).
Qed.

(** * Conversion to integers *)

Lemma int_mantissa_spec x : int_mantissa x = mantissa x * 2 ^ 10.
Proof.
  unfold int_mantissa, mantissa. change ((1 .<< 63) - 1) with (Z.ones 63). rewrite Z.land_lor_distr_l, Z.land_ones by lia.
  change ((1 .<< 62) .& Z.ones 63) with (1 .<< 62). rewrite Z.shiftl_mul_pow2, wrap_mod by lia.
  assert ((x * 2 ^ 10) mod 2 ^ 64 mod 2 ^ 63 = (x mod 2 ^ 53) * 2 ^ 10) as ->.
  { change (2 ^ 64) with (2 ^ 63 * 2). rewrite Z.rem_mul_r by lia. rewrite (Z.mul_comm (2 ^ 63)), Z_mod_plus_full, Z.mod_mod by lia.
    change (2 ^ 63) with (2 ^ 53 * 2 ^ 10). apply Z.mul_mod_distr_r; lia. }
  change (2 ^ 53) with (2 ^ 52 * 2). rewrite Z.rem_mul_r by lia. fold (fpr_man x).
  assert (0 <= fpr_man x < 2 ^ 52) by (apply Z.mod_pos_bound; lia). pose proof (Z.mod_pos_bound (x / 2 ^ 52) 2 ltac:(lia)).
  replace ((fpr_man x + 2 ^ 52 * ((x / 2 ^ 52) mod 2)) * 2 ^ 10) with ((x / 2 ^ 52) mod 2 * 2 ^ 62 + fpr_man x * 2 ^ 10) by lia.
  rewrite <- lor_shiftl_add by lia. rewrite <- Z.lor_assoc, (Z.lor_comm (fpr_man x * 2 ^ 10)), Z.lor_assoc.
  assert ((((x / 2 ^ 52) mod 2) .<< 62) .| (1 .<< 62) = 1 .<< 62) as ->.
  { assert ((x / 2 ^ 52) mod 2 = 0 \/ (x / 2 ^ 52) mod 2 = 1) as [->| ->] by lia; reflexivity. }
  rewrite lor_shiftl_add by lia. lia.
Qed.

(** The integer part of a number is its mantissa shifted right by [1085 - exponent]. *)
Lemma int_part x : fpr_exp x <> 0 -> fpr_exp x <= 1085 -> magnitude x * 2 ^ (1085 - fpr_exp x) = mantissa x * 2 ^ 10 * 2 ^ 1074.
Proof.
  intros H0 H1. pose proof (exp_range x). rewrite magnitude_mantissa by done. rewrite <- Z.mul_assoc, <- Z.pow_add_r by lia.
  replace (fpr_exp x - 1 + (1085 - fpr_exp x)) with (10 + 1074) by lia. rewrite (Z.pow_add_r 2 10 1074) by lia. apply Z.mul_assoc.
Qed.

(** Numbers below one half. *)
Lemma small_magnitude x c : fpr_exp x <= 1085 - c -> 0 <= c -> magnitude x * 2 ^ c < 2 ^ 63 * 2 ^ 1074.
Proof.
  intros He Hc. destruct (Z.eq_dec (fpr_exp x) 0) as [E|Hne]; [rewrite magnitude_exp0, Z.mul_0_l by done; reflexivity|].
  pose proof (exp_range x). pose proof (int_part x Hne ltac:(lia)) as Hi. pose proof (mantissa_range x).
  assert (2 ^ c <= 2 ^ (1085 - fpr_exp x)) by (apply Z.pow_le_mono_r; lia). pose proof (magnitude_nonneg x).
  assert (magnitude x * 2 ^ c <= magnitude x * 2 ^ (1085 - fpr_exp x)) by (apply Z.mul_le_mono_nonneg_l; lia).
  assert (0 < 2 ^ 1074) by reflexivity. generalize dependent (2 ^ 1074). intros T Hi HT. rewrite Hi in *. nia.
Qed.

Lemma round_ne_shift n d h : 0 < d -> Z.even h = true -> round_ne (h * d + n) d = h + round_ne n d.
Proof.
  intros Hd Hh. apply round_ne_unique; [done|]. pose proof (round_ne_spec n d Hd) as H. set (m := round_ne n d) in *.
  replace (h * d + n - (h + m) * d) with (n - m * d) by ring. rewrite Z.even_add, Hh. destruct H as [H|[H ->]]; [left | right]; auto.
Qed.

(** The rounding increment of [fpr_rint]. *)
Lemma rint_increment M e : 2 ^ 62 <= M < 2 ^ 63 -> 0 <= e < 64 ->
  let d := fpr_ulsh M (63 - e) in
  let dd := u32 d .| (u32 (d .>> 32) .& 0x1FFFFFFF) in
  let f := u32 (d .>> 61) .| ((dd .| u32 (- dd)) .>> 31) in
  fpr_ursh M e + ((0xC8 .>> f) .& 1) = round_ne M (2 ^ e).
Proof.
  intros HM He. cbv zeta. assert (0 < 2 ^ e) as Pe by (apply Z.pow_pos_nonneg; lia).
  rewrite fpr_ursh_spec, fpr_ulsh_spec by (lia || (unfold in_width; lia)). set (d := u64 _).
  assert (0 <= d < 2 ^ 64) as Hd by (apply wrap_range; lia).
  assert (d = M mod 2 ^ (e + 1) * 2 ^ (63 - e)) as Ed.
  { unfold d. rewrite wrap_mod by lia. replace 64 with (e + 1 + (63 - e)) at 1 by lia. rewrite (Z.pow_add_r 2 (e + 1)) by lia.
    apply Z.mul_mod_distr_r; apply Z.pow_nonzero; lia. }
  clearbody d. set (dd := u32 d .| _).
  assert (in_width 32 dd) as Hdd.
  { apply lor_width; [lia | apply wrap_range; lia |]. change 0x1FFFFFFF with (Z.ones 29). rewrite Z.land_ones by lia. pose proof (Z.mod_pos_bound (u32 (d .>> 32)) (2 ^ 29)). unfold in_width. lia. }
  pose proof (nonzero_flag 32 dd ltac:(lia)) as Hf. change (32 - 1) with 31 in Hf. rewrite Hf by done.
  assert ((dd =? 0) = (d mod 2 ^ 61 =? 0)) as ->.
  { apply eq_true_iff_eq. rewrite !Z.eqb_eq. unfold dd. rewrite Z.lor_eq_0_iff, Z.shiftr_div_pow2, !wrap_mod by lia.
    change 0x1FFFFFFF with (Z.ones 29). rewrite Z.land_ones by lia.
    assert ((d / 2 ^ 32) mod 2 ^ 32 mod 2 ^ 29 = (d / 2 ^ 32) mod 2 ^ 29) as ->.
    { rewrite (Z.mod_small (d / 2 ^ 32) (2 ^ 32)) by (split; [apply Z.div_pos | apply Z.div_lt_upper_bound]; lia). reflexivity. }
    change (2 ^ 61) with (2 ^ 32 * 2 ^ 29). rewrite Z.rem_mul_r by lia. pose proof (Z.mod_pos_bound d (2 ^ 32) ltac:(lia)).
    pose proof (Z.mod_pos_bound (d / 2 ^ 32) (2 ^ 29) ltac:(lia)). lia. }
  rewrite (Z.shiftr_div_pow2 d) by lia. assert (0 <= d / 2 ^ 61 < 8) as H8 by (split; [apply Z.div_pos | apply Z.div_lt_upper_bound]; lia).
  rewrite (wrap_small 32 (d / 2 ^ 61)) by (unfold in_width; lia). rewrite stick_flag.
  assert (0 <= stick d (2 ^ 61) < 8) as Hs by (apply stick_bounds; [lia | reflexivity | lia]).
  assert (stick d (2 ^ 61) = u32 (stick d (2 ^ 61)) .& 7) as Ef.
  { rewrite wrap_small by (unfold in_width; lia). change 7 with (Z.ones 3). rewrite Z.land_ones, Z.mod_small by lia. reflexivity. }
  rewrite Ef, round_bit by lia. change 4 with (2 ^ 2). rewrite round_ne_stick by lia.
  assert (stick d (2 ^ 61) / 2 ^ 2 = d / 2 ^ 63) as ->.
  { transitivity (stick d (2 ^ 61) .>> 2); [now rewrite Z.shiftr_div_pow2 by lia|]. rewrite <- stick_flag, Z.shiftr_lor, !Z.shiftr_div_pow2 by lia.
    rewrite Z.div_div by lia. change (2 ^ 61 * 2 ^ 2) with (2 ^ 63). destruct (d mod 2 ^ 61 =? 0); apply Z.lor_0_r. }
  change (2 ^ 2 * 2 ^ 61) with (2 ^ 63). pose proof (Z.div_mod M (2 ^ (e + 1)) ltac:(apply Z.pow_nonzero; lia)) as EM.
  set (h := M / 2 ^ (e + 1)) in *. set (r := M mod 2 ^ (e + 1)) in *. clearbody h r. rewrite (Z.pow_add_r 2 e 1) in EM by lia. change (2 ^ 1) with 2 in EM.
  assert (0 < 2 ^ (63 - e)) as P63 by (apply Z.pow_pos_nonneg; lia). assert (2 ^ 63 = 2 ^ e * 2 ^ (63 - e)) as E63 by (rewrite <- Z.pow_add_r by lia; f_equal; lia).
  assert (d / 2 ^ 63 = r / 2 ^ e) as -> by (rewrite Ed, E63; apply Z.div_mul_cancel_r; lia).
  rewrite (round_ne_ratio d (2 ^ 63) r (2 ^ e)) by (lia || (rewrite Ed, E63; ring)).
  rewrite EM. replace (2 ^ e * 2 * h + r) with (2 * h * 2 ^ e + r) by ring. rewrite Z.div_add_l, round_ne_shift by (lia || (rewrite Z.even_mul; reflexivity)). lia.
Qed.

Lemma count_range e : 0 <= e <= 1085 -> u32 (1085 - e - 64) .>> 31 = bit (1021 <? e) /\ (1085 - e) .& 63 = (1085 - e) mod 64.
Proof.
  intros He. split; [|change 63 with (Z.ones 6); apply Z.land_ones; lia]. rewrite (top_bit_flag 32 (u32 (1085 - e - 64)) ltac:(lia) ltac:(apply wrap_range; lia) : _ .>> 31 = _).
  f_equal. apply eq_true_iff_eq. rewrite Z.leb_le, Z.ltb_lt. destruct (Z.lt_ge_cases 1021 e).
  - assert (u32 (1085 - e - 64) = 1085 - e - 64 + 2 ^ 32) as -> by word_lia. change (32 - 1) with 31. lia.
  - rewrite wrap_small by (unfold in_width; lia). change (32 - 1) with 31. lia.
Qed.

(** A number below one half, and the others, through their mantissas. *)
Lemma int_cases x : fpr_exp x <= 1085 ->
  (fpr_exp x <= 1021 /\ 0 <= 2 * magnitude x < 2 ^ 1074) \/
  (1021 < fpr_exp x /\ magnitude x * 2 ^ (1085 - fpr_exp x) = mantissa x * 2 ^ 10 * 2 ^ 1074).
Proof.
  intros He. destruct (Z.le_gt_cases (fpr_exp x) 1021) as [Hle|Hgt].
  - left. split; [exact Hle|]. pose proof (small_magnitude x 64 ltac:(lia) ltac:(lia)) as H. pose proof (magnitude_nonneg x).
    generalize dependent (2 ^ 1074). intros T HT. lia.
  - right. split; [exact Hgt|]. apply int_part; lia.
Qed.

Lemma magnitude_int_bound x : fpr_exp x <= 1085 -> 0 <= magnitude x <= (2 ^ 63 - 1) * 2 ^ 1074.
Proof.
  intros He. pose proof (magnitude_nonneg x). split; [lia|]. pose proof (mantissa_range x). destruct (Z.eq_dec (fpr_exp x) 1085) as [E|Hne].
  - pose proof (int_part x ltac:(lia) He) as Hi. rewrite E in Hi. change (2 ^ (1085 - 1085)) with 1 in Hi.
    assert (0 < 2 ^ 1074) by reflexivity. generalize dependent (2 ^ 1074). intros T Hi HT. nia.
  - pose proof (small_magnitude x 1 ltac:(lia) ltac:(lia)). assert (0 < 2 ^ 1074) by reflexivity. generalize dependent (2 ^ 1074). intros T Hs HT. lia.
Qed.

Lemma rint_range x : fpr_exp x <= 1085 -> 0 <= round_ne (magnitude x) (2 ^ 1074) < 2 ^ 63.
Proof.
  intros He. pose proof (magnitude_int_bound x He) as Hb. pose proof (round_ne_range (magnitude x) (2 ^ 1074) 0 (2 ^ 63 - 1) ltac:(reflexivity)) as Hr.
  rewrite Z.mul_0_l in Hr. specialize (Hr Hb). lia.
Qed.

(** [fpr_rint] is the nearest integer, ties to even. *)
Lemma fpr_rint_spec x : fpr_ok x -> fpr_exp x <= 1085 ->
  fpr_rint x = if fpr_sign x then - round_ne (magnitude x) (2 ^ 1074) else round_ne (magnitude x) (2 ^ 1074).
Proof.
  intros Hx He. pose proof (fpr_width _ Hx) as Hw. unfold fpr_rint. cbv zeta. rewrite int_mantissa_spec.
  pose proof (exp_range x) as Re. pose proof (mantissa_range x) as Hm.
  assert (i32 (x .>> 52) .& 0x7FF = fpr_exp x) as ->.
  { rewrite <- (read_exp x). f_equal. apply sext_small; [lia|]. rewrite Z.shiftr_div_pow2 by lia. unfold in_width in Hw.
    assert (0 <= x / 2 ^ 52 < 2 ^ 12) by (split; [apply Z.div_pos | apply Z.div_lt_upper_bound]; lia). lia. }
  destruct (count_range (fpr_exp x) ltac:(lia)) as [-> ->]. rewrite mask_on by (unfold in_width; lia).
  rewrite shr63 by done. assert (u32 (bit (fpr_sign x)) = bit (fpr_sign x)) as -> by now destruct (fpr_sign x).
  pose proof (Z.mod_pos_bound (1085 - fpr_exp x) 64 ltac:(lia)) as Hc.
  assert (forall m r, m = r -> 0 <= r < 2 ^ 63 ->
    (i64 (u64 m) .^ - bit (fpr_sign x)) + bit (fpr_sign x) = if fpr_sign x then - r else r) as Hsign.
  { intros m r -> Hr. rewrite (wrap_small 64 r), sext_small by (unfold in_width; lia). apply conditional_negate. }
  apply Hsign; clear Hsign.
  - destruct (int_cases x He) as [[Hlt Hmag]|[Hgt Hi]].
    + rewrite (proj2 (Z.ltb_ge _ _) Hlt). rewrite (round_ne_unique (magnitude x) (2 ^ 1074) 0);
        [|reflexivity | left; generalize dependent (2 ^ 1074); intros; lia].
      rewrite !fpr_ulsh_spec, !fpr_ursh_spec by (try lia; unfold in_width; lia). rewrite Z.mul_0_l, Z.div_0_l by (apply Z.pow_nonzero; lia). reflexivity.
    + rewrite (proj2 (Z.ltb_lt _ _) Hgt). rewrite (Z.mod_small (1085 - _)) by lia. pose proof (rint_increment (mantissa x * 2 ^ 10) (1085 - fpr_exp x)) as Hr.
      cbv zeta in Hr. rewrite Hr by lia. symmetry. apply round_ne_ratio; [reflexivity | apply Z.pow_pos_nonneg; lia | exact Hi].
  - pose proof (rint_range x He). lia.
Qed.

Lemma read_exp_int x : fpr_ok x -> i32 (x .>> 52) .& 0x7FF = fpr_exp x.
Proof.
  intros [Hw _ _]. rewrite <- (read_exp x). f_equal. rewrite Z.shiftr_div_pow2 by lia. unfold in_width in Hw.
  assert (0 <= x / 2 ^ 52 < 2 ^ 12) by (split; [apply Z.div_pos | apply Z.div_lt_upper_bound]; lia). apply sext_small; lia.
Qed.

Lemma int_mantissa_range x : 2 ^ 62 <= int_mantissa x < 2 ^ 63.
Proof. rewrite int_mantissa_spec. pose proof (mantissa_range x). lia. Qed.

Lemma i64_bit b : i64 (bit b) = bit b.
Proof. now destruct b. Qed.

Lemma land_minus_bit x b : x .& - bit b = if b then x else 0.
Proof. destruct b; [apply Z.land_m1_r | apply Z.land_0_r]. Qed.

Lemma fpr_irsh_spec x n : - 2 ^ 63 <= x < 2 ^ 63 -> 0 <= n < 64 -> fpr_irsh x n = x / 2 ^ n.
Proof.
  intros Hx Hn. unfold fpr_irsh. destruct (count_high n Hn) as [-> ->]. cbv zeta. rewrite land_minus_bit. destruct (Z.leb_spec 32 n); cbn [bit].
  - rewrite <- Z.lxor_assoc, Z.lxor_nilpotent, Z.lxor_0_l, Z.shiftr_shiftr, Z.shiftr_div_pow2 by lia. do 2 f_equal. lia.
  - rewrite Z.lxor_0_r, Z.shiftr_div_pow2 by lia. do 2 f_equal. lia.
Qed.

(** [fpr_floor] is the floor, except that it sends minus zero to -1. *)
Lemma fpr_floor_spec x : fpr_ok x -> fpr_exp x <= 1085 ->
  fpr_floor x = if x =? 2 ^ 63 then -1 else value x / 2 ^ 1074.
Proof.
  intros Hx He. pose proof (fpr_width _ Hx) as Hw. unfold fpr_floor. cbv zeta. rewrite read_exp_int, shr63, i64_bit by done.
  pose proof (int_mantissa_range x) as HM. pose proof (exp_range x). rewrite (sext_small 64 (int_mantissa x)) by lia. rewrite conditional_negate.
  destruct (count_range (fpr_exp x) ltac:(lia)) as [_ ->]. pose proof (Z.mod_pos_bound (1085 - fpr_exp x) 64 ltac:(lia)).
  rewrite fpr_irsh_spec by (destruct (fpr_sign x); lia).
  assert (u32 (63 - (1085 - fpr_exp x)) .>> 31 = bit (fpr_exp x <=? 1021)) as ->.
  { destruct (Z.leb_spec (fpr_exp x) 1021); cbn [bit]; rewrite Z.shiftr_div_pow2 by lia.
    - assert (u32 (63 - (1085 - fpr_exp x)) = 63 - (1085 - fpr_exp x) + 2 ^ 32) as -> by word_lia.
      symmetry. apply (Z.div_unique _ _ _ (63 - (1085 - fpr_exp x) + 2 ^ 31)); lia.
    - rewrite wrap_small by (unfold in_width; lia). apply Z.div_small. lia. }
  rewrite land_minus_bit. destruct (int_cases x He) as [[Hlt Hm]|[Hgt Hi]].
  - rewrite (proj2 (Z.leb_le _ _) Hlt). rewrite <- Z.lxor_assoc, Z.lxor_nilpotent, Z.lxor_0_l.
    destruct (unsigned_split x Hw) as [Eu Ex]. unfold value. destruct (fpr_sign x) eqn:Es; cbn [bit] in *.
    + destruct (Z.eqb_spec x (2 ^ 63)) as [|Hne]; [reflexivity|]. change (- (1)) with (-1).
      assert (0 < magnitude x) as Hp.
      { destruct (magnitude_0_exp x) as [E0|[_ Hp]]; [|exact Hp]. exfalso. rewrite E0, (fpr_normal _ Hx E0) in Eu. lia. }
      apply (Z.div_unique _ _ _ (2 ^ 1074 - magnitude x)); generalize dependent (2 ^ 1074); intros; lia.
    + destruct (Z.eqb_spec x (2 ^ 63)) as [->|Hne]; [discriminate|]. symmetry. apply Z.div_small. generalize dependent (2 ^ 1074). intros; lia.
  - rewrite (proj2 (Z.leb_gt (fpr_exp x) 1021)) by lia. rewrite Z.lxor_0_r, Z.mod_small by lia.
    destruct (Z.eqb_spec x (2 ^ 63)) as [->|Hne]; [exfalso; revert Hgt; vm_compute; discriminate|].
    rewrite int_mantissa_spec. apply div_ratio; [apply Z.pow_pos_nonneg; lia | reflexivity |]. unfold value. destruct (fpr_sign x); lia.
Qed.

Lemma sext_wrap z : i64 (u64 z) = i64 z.
Proof. unfold sext. now rewrite wrap_idem by lia. Qed.

Lemma wrap_lxor w a b : wrap w (a .^ b) = wrap w a .^ wrap w b.
Proof.
  apply Z.bits_inj'. intros k Hk. unfold wrap. rewrite Z.lxor_spec, !Z.land_spec, Z.lxor_spec.
  now destruct (Z.testbit a k), (Z.testbit b k), (Z.testbit (Z.ones w) k).
Qed.

(** [fpr_trunc] drops the fractional part. *)
Lemma fpr_trunc_spec x : fpr_ok x -> fpr_exp x <= 1085 -> fpr_trunc x = Z.quot (value x) (2 ^ 1074).
Proof.
  intros Hx He. pose proof (fpr_width _ Hx) as Hw. unfold fpr_trunc. cbv zeta. rewrite read_exp_int, shr63 by done.
  pose proof (int_mantissa_range x) as HM. pose proof (exp_range x). destruct (count_range (fpr_exp x) ltac:(lia)) as [-> ->].
  pose proof (Z.mod_pos_bound (1085 - fpr_exp x) 64 ltac:(lia)). rewrite fpr_ursh_spec by (lia || (unfold in_width; lia)).
  assert (0 <= int_mantissa x / 2 ^ ((1085 - fpr_exp x) mod 64) < 2 ^ 63) as Hq.
  { split; [apply Z.div_pos; [lia | apply Z.pow_pos_nonneg; lia]|]. pose proof (pow2_le 0 ((1085 - fpr_exp x) mod 64) ltac:(lia)).
    apply Z.div_lt_upper_bound; [lia|]. nia. }
  rewrite mask_on by (unfold in_width; lia).
  assert ((if 1021 <? fpr_exp x then int_mantissa x / 2 ^ ((1085 - fpr_exp x) mod 64) else 0) = magnitude x / 2 ^ 1074) as Em.
  { destruct (int_cases x He) as [[Hlt Hm]|[Hgt Hi]].
    - rewrite (proj2 (Z.ltb_ge _ _) Hlt). symmetry. apply Z.div_small. generalize dependent (2 ^ 1074). intros; lia.
    - rewrite (proj2 (Z.ltb_lt _ _) Hgt), Z.mod_small, int_mantissa_spec by lia. apply div_ratio; [apply Z.pow_pos_nonneg; lia | reflexivity | lia]. }
  rewrite Em. assert (0 <= magnitude x / 2 ^ 1074 < 2 ^ 63) as Hr by (rewrite <- Em; destruct (1021 <? fpr_exp x); lia). clear Em Hq.
  pose proof (magnitude_nonneg x). assert (value x ÷ 2 ^ 1074 = if fpr_sign x then - (magnitude x / 2 ^ 1074) else magnitude x / 2 ^ 1074) as ->.
  { unfold value. destruct (fpr_sign x); rewrite ?Z.quot_opp_l by discriminate; rewrite Z.quot_div_nonneg by (try assumption; reflexivity); reflexivity. }
  set (r := magnitude x / 2 ^ 1074) in *. clearbody r. rewrite <- (wrap_small 64 r) at 1 by (unfold in_width; lia).
  rewrite <- wrap_lxor, wrap_add_l, conditional_negate by lia. rewrite sext_wrap. apply sext_small; destruct (fpr_sign x); lia.
Qed.

(** * Comparison *)

Lemma i64_split x : in_width 64 x -> i64 x = unsigned x - bit (fpr_sign x) * 2 ^ 63.
Proof.
  intros Hx. destruct (unsigned_split x Hx) as [_ E]. assert (0 <= unsigned x < 2 ^ 63) by (apply Z.mod_pos_bound; lia).
  unfold sext. rewrite wrap_small by done. change (64 - 1) with 63. destruct (fpr_sign x); cbn [bit] in *; destruct (Z.ltb_spec x (2 ^ 63)); lia.
Qed.

Lemma magnitude_lt x y : fpr_ok x -> fpr_ok y -> (magnitude x < magnitude y <-> unsigned x < unsigned y).
Proof.
  intros Hx Hy. destruct (Z.le_gt_cases (unsigned y) (unsigned x)) as [Hle|Hgt].
  - pose proof (magnitude_order x y Hx Hy Hle). lia.
  - pose proof (magnitude_order y x Hy Hx ltac:(lia)). destruct (unsigned_order y x Hy Hx ltac:(lia)) as (_ & _ & He). lia.
Qed.

(** The sign of a difference of 64-bit integers. *)
Lemma difference_bit d : - 2 ^ 63 <= d < 2 ^ 63 -> i32 (d .>> 63) .& 1 = bit (d <? 0).
Proof.
  intros Hd. rewrite Z.shiftr_div_pow2 by lia. destruct (Z.ltb_spec d 0); cbn [bit].
  - assert (d / 2 ^ 63 = -1) as -> by (symmetry; apply (Z.div_unique _ _ _ (d + 2 ^ 63)); lia). reflexivity.
  - rewrite Z.div_small by lia. reflexivity.
Qed.

Lemma sign_spread a : - 2 ^ 63 <= a < 2 ^ 63 -> a .>> 63 = - bit (a <? 0).
Proof.
  intros Ha. rewrite Z.shiftr_div_pow2 by lia. destruct (Z.ltb_spec a 0); cbn [bit]; [|apply Z.div_small; lia].
  symmetry. apply (Z.div_unique _ _ _ (a + 2 ^ 63)); lia.
Qed.

(** The second operand of the subtractions of [fpr_lt]. *)
Lemma fpr_lt_operand x y : in_width 64 x -> in_width 64 y ->
  i64 y .& Z.lnot ((i64 x .^ i64 y) .>> 63) = if xorb (fpr_sign x) (fpr_sign y) then 0 else i64 y.
Proof.
  intros Hx Hy. rewrite Z.shiftr_lxor. assert (0 <= unsigned x < 2 ^ 63) by (apply Z.mod_pos_bound; lia).
  assert (0 <= unsigned y < 2 ^ 63) by (apply Z.mod_pos_bound; lia). pose proof (i64_split x Hx) as Ex. pose proof (i64_split y Hy) as Ey.
  rewrite !sign_spread by (destruct (fpr_sign x), (fpr_sign y); cbn [bit] in *; lia).
  assert ((i64 x <? 0) = fpr_sign x) as -> by (destruct (fpr_sign x); cbn [bit] in *; destruct (Z.ltb_spec (i64 x) 0); lia).
  assert ((i64 y <? 0) = fpr_sign y) as -> by (destruct (fpr_sign y); cbn [bit] in *; destruct (Z.ltb_spec (i64 y) 0); lia).
  destruct (fpr_sign x), (fpr_sign y); cbn [xorb]; first [apply Z.land_m1_r | apply Z.land_0_r].
Qed.

(** [fpr_lt] compares values, except that it puts minus zero below zero; its second subtraction leaves the
    range of [int64_t] when it compares minus zero with a number that has no sign. *)
Lemma fpr_lt_spec x y : fpr_ok x -> fpr_ok y ->
  fpr_lt x y = bit ((value x <? value y) || ((x =? 2 ^ 63) && (y =? 0))).
Proof.
  intros Hx Hy. pose proof (fpr_width _ Hx) as Wx. pose proof (fpr_width _ Hy) as Wy. unfold fpr_lt. cbv zeta.
  rewrite fpr_lt_operand by done. assert ((x .& y) .>> 63 = bit (fpr_sign x && fpr_sign y)) as ->.
  { rewrite Z.shiftr_land, !shr63 by done. now destruct (fpr_sign x), (fpr_sign y). }
  rewrite i32_bit. destruct (unsigned_split x Wx) as [Ex1 Ex], (unsigned_split y Wy) as [Ey1 Ey].
  rewrite !i64_split by done. assert (0 <= unsigned x < 2 ^ 63) by (apply Z.mod_pos_bound; lia).
  assert (0 <= unsigned y < 2 ^ 63) by (apply Z.mod_pos_bound; lia). pose proof (magnitude_lt x y Hx Hy) as Lxy. pose proof (magnitude_lt y x Hy Hx) as Lyx.
  assert (0 < magnitude x <-> 0 < unsigned x) as Px by (apply (magnitude_lt 0 x); [|exact Hx]; constructor; [vm_compute; split; congruence | vm_compute; congruence | reflexivity]).
  assert (0 < magnitude y <-> 0 < unsigned y) as Py by (apply (magnitude_lt 0 y); [|exact Hy]; constructor; [vm_compute; split; congruence | vm_compute; congruence | reflexivity]).
  pose proof (magnitude_nonneg x). pose proof (magnitude_nonneg y). unfold value.
  set (mx := magnitude x) in *. set (my := magnitude y) in *. set (ux := unsigned x) in *. set (uy := unsigned y) in *. clearbody mx my ux uy.
  clear Ex1 Ey1 Hx Hy. destruct (fpr_sign x), (fpr_sign y); cbn [xorb andb bit] in *.
  - rewrite !difference_bit by lia. assert (forall a b, bit a .^ ((bit a .^ bit b) .& 1) = bit b) as -> by (intros [] []; reflexivity). f_equal.
    apply eq_true_iff_eq. rewrite orb_true_iff, andb_true_iff, !Z.ltb_lt, !Z.eqb_eq. lia.
  - rewrite Z.land_0_r, Z.lxor_0_r, difference_bit by lia. f_equal.
    apply eq_true_iff_eq. rewrite orb_true_iff, andb_true_iff, !Z.ltb_lt, !Z.eqb_eq. lia.
  - rewrite Z.land_0_r, Z.lxor_0_r, difference_bit by lia. f_equal.
    apply eq_true_iff_eq. rewrite orb_true_iff, andb_true_iff, !Z.ltb_lt, !Z.eqb_eq. lia.
  - rewrite Z.land_0_r, Z.lxor_0_r, difference_bit by lia. f_equal.
    apply eq_true_iff_eq. rewrite orb_true_iff, andb_true_iff, !Z.ltb_lt, !Z.eqb_eq. lia.
Qed.

(** * Halving and doubling *)

Lemma fields_shift x k : fpr_ok x -> 1 <= fpr_exp x -> 0 <= fpr_exp x + k <= 2046 -> (fpr_exp x + k = 0 -> fpr_man x = 0) ->
  let y := x + k * 2 ^ 52 in
  fpr_ok y /\ fpr_sign y = fpr_sign x /\ fpr_exp y = fpr_exp x + k /\ fpr_man y = fpr_man x.
Proof.
  intros Hx H1 Hk Hz y. destruct (unsigned_split x (fpr_width _ Hx)) as [Eu Ex]. assert (0 <= fpr_man x < 2 ^ 52) as Hm by (apply Z.mod_pos_bound; lia).
  assert (y = (bit (fpr_sign x) * 2 ^ 11 + (fpr_exp x + k)) * 2 ^ 52 + fpr_man x) as Ey by (unfold y; rewrite Ex at 1; rewrite Eu; lia).
  assert (in_width 64 y) as Hw by (unfold in_width; rewrite Ey; destruct (fpr_sign x); cbn [bit]; lia).
  assert (fpr_man y = fpr_man x) as E1 by (unfold fpr_man at 1; rewrite Ey, Z.add_comm, Z.mod_add, Z.mod_small by lia; reflexivity).
  assert (fpr_exp y = fpr_exp x + k) as E2.
  { unfold fpr_exp at 1. rewrite Ey, Z.div_add_l, Z.div_small, Z.add_0_r by lia. symmetry. apply (Z.mod_unique _ _ (bit (fpr_sign x))); lia. }
  assert (fpr_sign y = fpr_sign x) as E3.
  { pose proof (shr63 y Hw) as E. rewrite Z.shiftr_div_pow2 in E by lia. assert (y / 2 ^ 63 = bit (fpr_sign x)) as E4.
    { symmetry. apply (Z.div_unique _ _ _ ((fpr_exp x + k) * 2 ^ 52 + fpr_man x)); lia. }
    rewrite E4 in E. now destruct (fpr_sign x), (fpr_sign y). }
  split; [|auto]. constructor; [exact Hw | lia | rewrite E1, E2; exact Hz].
Qed.

Lemma fpr_double_spec x : fpr_ok x -> fpr_exp x <= 2045 -> fpr_ok (fpr_double x) /\ value (fpr_double x) = 2 * value x.
Proof.
  intros Hx He. unfold fpr_double. assert (u32 (x .>> 52) .& 0x7FF = fpr_exp x) as ->.
  { rewrite <- (read_exp x). f_equal. rewrite Z.shiftr_div_pow2 by lia. pose proof (fpr_width _ Hx) as Hw. unfold in_width in Hw.
    assert (0 <= x / 2 ^ 52 < 2 ^ 12) by (split; [apply Z.div_pos | apply Z.div_lt_upper_bound]; lia). apply wrap_small. unfold in_width. lia. }
  pose proof (exp_range x) as Re. rewrite (wrap_small 32 (fpr_exp x + 0x7FF)) by (unfold in_width; lia). rewrite exp_flag by done. destruct (Z.eqb_spec (fpr_exp x) 0) as [E|Hne]; cbn [negb bit].
  - change (u64 (u64 0 .<< 52)) with 0. rewrite Z.add_0_r, wrap_small by apply Hx. split; [exact Hx|]. unfold value. rewrite magnitude_exp0 by done. destruct (fpr_sign x); lia.
  - change (u64 (u64 1 .<< 52)) with (1 * 2 ^ 52). destruct (fields_shift x 1 Hx) as (Hok & Es & Ee & Em); [lia..|].
    rewrite wrap_small by apply Hok. split; [exact Hok|]. unfold value, magnitude. rewrite Es, Ee, Em. rewrite (proj2 (Z.eqb_neq _ _) Hne), (proj2 (Z.eqb_neq (fpr_exp x + 1) 0)) by lia.
    assert (2 ^ (fpr_exp x + 1 - 1) = 2 * 2 ^ (fpr_exp x - 1)) as -> by (rewrite <- Z.pow_succ_r by lia; f_equal; lia). destruct (fpr_sign x); lia.
Qed.

(** Halving is exact when the result is a normal number; zeros give zero. *)
Lemma fpr_half_spec x : fpr_ok x -> fpr_exp x <> 1 -> fpr_ok (fpr_half x) /\ 2 * value (fpr_half x) = value x.
Proof.
  intros Hx H1. pose proof (fpr_width _ Hx) as Hw. unfold fpr_half. cbv zeta. change (1 .<< 52) with (2 ^ 52).
  assert (forall y, in_width 64 y -> y .& u64 ((u32 ((u32 (y .>> 52) .& 0x7FF) + 1) .>> 11) - 1) = if fpr_exp y =? 2047 then 0 else y) as Hmask.
  { intros y Hy. assert (u32 (y .>> 52) .& 0x7FF = fpr_exp y) as ->.
    { rewrite <- (read_exp y). f_equal. rewrite Z.shiftr_div_pow2 by lia. unfold in_width in Hy.
      assert (0 <= y / 2 ^ 52 < 2 ^ 12) by (split; [apply Z.div_pos | apply Z.div_lt_upper_bound]; lia). apply wrap_small. unfold in_width. lia. }
    pose proof (exp_range y) as Re. rewrite (wrap_small 32 (fpr_exp y + 1)) by (unfold in_width; lia).
    assert ((fpr_exp y + 1) .>> 11 = bit (fpr_exp y =? 2047)) as ->.
    { rewrite Z.shiftr_div_pow2 by lia. destruct (Z.eqb_spec (fpr_exp y) 2047) as [->|]; [reflexivity | apply Z.div_small; lia]. }
    rewrite mask_off by done. reflexivity. }
  rewrite Hmask by (apply wrap_range; lia). destruct (Z.eq_dec (fpr_exp x) 0) as [E|Hne].
  - destruct (unsigned_split x Hw) as [Eu Ex]. rewrite E, (fpr_normal _ Hx E) in Eu. assert (x = bit (fpr_sign x) * 2 ^ 63) as Ex' by lia.
    assert (value x = 0) as -> by (unfold value; rewrite magnitude_exp0 by done; now destruct (fpr_sign x)).
    assert ((if fpr_exp (u64 (x - 2 ^ 52)) =? 2047 then 0 else u64 (x - 2 ^ 52)) = 0) as -> by (rewrite Ex'; destruct (fpr_sign x); reflexivity).
    split; [|reflexivity]. constructor; [unfold in_width; lia | vm_compute; congruence | reflexivity].
  - pose proof (exp_range x). pose proof (fpr_finite _ Hx). destruct (fields_shift x (-1) Hx) as (Hok & Es & Ee & Em); [lia..|].
    replace (x - 2 ^ 52) with (x + -1 * 2 ^ 52) by lia. rewrite wrap_small by apply Hok. rewrite Ee, (proj2 (Z.eqb_neq (fpr_exp x + -1) 2047)) by lia.
    split; [exact Hok|]. unfold value, magnitude. rewrite Es, Ee, Em. rewrite (proj2 (Z.eqb_neq _ _) Hne), (proj2 (Z.eqb_neq (fpr_exp x + -1) 0)) by lia.
    assert (2 ^ (fpr_exp x - 1) = 2 * 2 ^ (fpr_exp x + -1 - 1)) as -> by (rewrite <- Z.pow_succ_r by lia; f_equal; lia). destruct (fpr_sign x); lia.
Qed.
