(* ===== verification/FprExpm.v ===== *)
(** FprExpm: the fixed-point exponential of the signature sampler. *)

From Stdlib Require Import ZArith Lia.
From stdpp Require Import base numbers list.
From S2P Require Import Prelude Rounding Fpr FprPack FprArith FprAdd FprConv.

(** The product by halves is the high word of the full product. *)
Lemma mul_high_spec z y : in_width 64 z -> in_width 64 y -> mul_high z y = z * y / 2 ^ 64.
Proof.
  intros Hz Hy. unfold mul_high, in_width in *. cbv zeta. rewrite !Z.shiftr_div_pow2 by lia.
  assert (forall v, 0 <= v < 2 ^ 64 -> exists l h, u32 v = l /\ u32 (v / 2 ^ 32) = h /\ v / 2 ^ 32 = h /\ v = h * 2 ^ 32 + l /\ 0 <= l < 2 ^ 32 /\ 0 <= h < 2 ^ 32) as Hsplit.
  { intros v Hv. exists (v mod 2 ^ 32), (v / 2 ^ 32). assert (0 <= v / 2 ^ 32 < 2 ^ 32) by (split; [apply Z.div_pos | apply Z.div_lt_upper_bound]; lia).
    pose proof (Z.div_mod v (2 ^ 32) ltac:(lia)). pose proof (Z.mod_pos_bound v (2 ^ 32) ltac:(lia)).
    rewrite wrap_mod, wrap_small by (lia || (unfold in_width; lia)). repeat split; lia. }
  destruct (Hsplit z Hz) as (z0 & z1 & -> & -> & _ & Ez & Hz0 & Hz1). destruct (Hsplit y Hy) as (y0 & y1 & -> & -> & _ & Ey & Hy0 & Hy1).
  assert (0 <= z0 * y0 <= (2 ^ 32 - 1) * (2 ^ 32 - 1)) as H00 by nia. assert (0 <= z0 * y1 <= (2 ^ 32 - 1) * (2 ^ 32 - 1)) as H01 by nia.
  assert (0 <= z1 * y0 <= (2 ^ 32 - 1) * (2 ^ 32 - 1)) as H10 by nia. assert (0 <= z1 * y1 <= (2 ^ 32 - 1) * (2 ^ 32 - 1)) as H11 by nia.
  assert (z * y = z1 * y1 * 2 ^ 64 + (z0 * y1 + z1 * y0) * 2 ^ 32 + z0 * y0) as -> by (rewrite Ez, Ey; ring).
  set (p00 := z0 * y0) in *. set (p01 := z0 * y1) in *. set (p10 := z1 * y0) in *. set (p11 := z1 * y1) in *. clearbody p00 p01 p10 p11.
  clear Ez Ey Hz Hy Hz0 Hz1 Hy0 Hy1 z y z0 z1 y0 y1.
  rewrite (wrap_small 64 p00), (wrap_small 64 p01), (wrap_small 64 p10), (wrap_small 64 p11) by (unfold in_width; lia).
  destruct (Hsplit p00) as (l00 & h00 & _ & _ & -> & E00 & R00 & R00'); [lia|].
  rewrite (wrap_small 64 (p01 + h00)) by (unfold in_width; lia).
  destruct (Hsplit (p01 + h00)) as (l & h & -> & _ & -> & Ea & Ra & Ra'); [lia|]. destruct (Hsplit p10) as (l' & h' & -> & _ & -> & Eb & Rb & Rb'); [lia|].
  rewrite (wrap_small 64 (h + h')), (wrap_small 64 (l + l')) by (unfold in_width; lia).
  pose proof (Z.div_mod (l + l') (2 ^ 32) ltac:(lia)) as Ec. pose proof (Z.mod_pos_bound (l + l') (2 ^ 32) ltac:(lia)).
  set (c := (l + l') / 2 ^ 32) in *. set (r := (l + l') mod 2 ^ 32) in *. clearbody c r.
  assert (p11 * 2 ^ 64 + (p01 + p10) * 2 ^ 32 + p00 = (p11 + (h + h' + c)) * 2 ^ 64 + (r * 2 ^ 32 + l00)) as Et by lia.
  assert (0 <= p11 + (h + h' + c)) by lia. assert (p11 + (h + h' + c) < 2 ^ 64) by lia.
  rewrite (wrap_small 64 (h + h' + c)), wrap_small by (unfold in_width; lia). rewrite Et. rewrite Z.div_add_l, (Z.div_small (r * 2 ^ 32 + l00)) by lia. lia.
Qed.

(** * Fixed-point evaluation *)

(** Exact Horner evaluation of the polynomial, scaled by [2^(64 u)]. *)
Fixpoint expm_exact (z : Z) (u : nat) : Z :=
  match u with
  | O => expm_coefs !!! 0%nat
  | S u' => expm_coefs !!! u * 2 ^ (64 * Z.of_nat u) - z * expm_exact z u'
  end.

(** The same evaluation with the high product, as the code does it. *)
Fixpoint expm_high (z : Z) (u : nat) : Z :=
  match u with
  | O => expm_coefs !!! 0%nat
  | S u' => expm_coefs !!! u - z * expm_high z u' / 2 ^ 64
  end.

(** A fraction as a 64-bit fixed-point number. *)
Definition fixed64 (x : Z) : Z := 2 * (value x * 2 ^ 63 / 2 ^ 1074).

Lemma expm_coefs_order u : (u < 12)%nat -> 0 < expm_coefs !!! u < expm_coefs !!! S u.
Proof. intros Hu. do 12 (destruct u as [|u]; [vm_compute; split; reflexivity|]). lia. Qed.

Lemma expm_high_range z u : 0 <= z < 2 ^ 64 -> (u <= 12)%nat -> 0 <= expm_high z u <= expm_coefs !!! u.
Proof.
  intros Hz. induction u as [|u IH]; intros Hu; [vm_compute; split; congruence|]. cbn [expm_high]. specialize (IH ltac:(lia)).
  pose proof (expm_coefs_order u ltac:(lia)). set (y := expm_high z u) in *.
  assert (0 <= z * y / 2 ^ 64) by (apply Z.div_pos; nia). assert (z * y / 2 ^ 64 <= y) by (apply Z.div_le_upper_bound; nia). lia.
Qed.

(** Each product loses less than one unit. *)
Lemma expm_high_error z u : 0 <= z < 2 ^ 64 -> (u <= 12)%nat ->
  Z.abs (expm_high z u * 2 ^ (64 * Z.of_nat u) - expm_exact z u) <= Z.of_nat u * 2 ^ (64 * Z.of_nat u).
Proof.
  intros Hz. induction u as [|u IH]; intros Hu; [cbn; lia|]. cbn [expm_high expm_exact]. specialize (IH ltac:(lia)).
  replace (64 * Z.of_nat (S u)) with (64 + 64 * Z.of_nat u) by lia. rewrite (Z.pow_add_r 2 64) by lia.
  assert (0 < 2 ^ (64 * Z.of_nat u)) as HP by (apply Z.pow_pos_nonneg; lia). set (P := 2 ^ (64 * Z.of_nat u)) in *. clearbody P.
  set (y := expm_high z u) in *. set (e := expm_exact z u) in *. set (c := expm_coefs !!! S u). clearbody y e c.
  pose proof (Z.div_mod (z * y) (2 ^ 64) ltac:(lia)) as E. pose proof (Z.mod_pos_bound (z * y) (2 ^ 64) ltac:(lia)) as R.
  set (q := z * y / 2 ^ 64) in *. set (r := (z * y) mod 2 ^ 64) in *. clearbody q r.
  replace ((c - q) * (2 ^ 64 * P) - (c * (2 ^ 64 * P) - z * e)) with (r * P - z * (y * P - e)) by (replace (q * (2 ^ 64 * P)) with ((z * y - r) * P) by (rewrite E; ring); ring_simplify; nia).
  assert (Z.abs (r * P - z * (y * P - e)) <= r * P + z * Z.abs (y * P - e)) by nia. rewrite Nat2Z.inj_succ. nia.
Qed.

(** * Fixed-point conversion *)

Lemma round_to_exact s k m : 0 <= k -> 2 ^ 52 <= m < 2 ^ 53 -> round_to s (m * 2 ^ k) 1 = pack s k m.
Proof.
  intros Hk Hm. assert (0 < 2 ^ k) by (apply Z.pow_pos_nonneg; lia). rewrite (round_to_binade s _ 1 k) by (rewrite ?Z.pow_add_r by lia; nia).
  f_equal. apply round_ne_unique; [lia|]. left. lia.
Qed.

Lemma pack_ok s k m : 0 <= k <= 2045 -> 2 ^ 52 <= m < 2 ^ 53 -> fpr_ok (pack s k m).
Proof. intros Hk Hm. destruct (pack_fields s k m) as (H1 & _ & H3 & _); [lia..|]. constructor; [exact H1 | lia | lia]. Qed.

(** Multiplying by [2^63] is exact. *)
Lemma scale_up x : fpr_ok x -> fpr_sign x = false -> fpr_exp x <= 1022 ->
  fpr_ok (fpr_mul x fpr_ptwo63) /\ fpr_exp (fpr_mul x fpr_ptwo63) <= 1085 /\ value (fpr_mul x fpr_ptwo63) = value x * 2 ^ 63.
Proof.
  intros Hx Hs He. assert (magnitude fpr_ptwo63 = 2 ^ 63 * 2 ^ 1074 /\ fpr_sign fpr_ptwo63 = false) as [E63 S63] by (vm_compute; split; reflexivity).
  assert (round_to false (magnitude x * 2 ^ 63) 1 = fpr_mul x fpr_ptwo63) as <-.
  { rewrite fpr_mul_spec; [|apply Hx | vm_compute; split; congruence|].
    - rewrite Hs, S63, E63. apply round_to_ratio; [reflexivity | reflexivity |]. rewrite Z.mul_1_r. symmetry. apply Z.mul_assoc.
    - rewrite E63. pose proof (small_magnitude x 63 ltac:(lia) ltac:(lia)) as Hm. unfold representable. rewrite Z.mul_assoc. apply Z.mul_lt_mono_pos_r; [reflexivity|].
      apply Z.lt_trans with (2 ^ 63 * 2 ^ 1074); [exact Hm | reflexivity]. }
  unfold value at 2. rewrite Hs. destruct (fpr_cases x Hx) as [[_ ->]|(k & m & Ex & Hk & Hm & ->)].
  - rewrite Z.mul_0_l. change (round_to false 0 1) with 0. split; [constructor; vm_compute; (split || idtac); congruence|]. split; [vm_compute; congruence | reflexivity].
  - rewrite Hs in Ex. destruct (pack_fields false k m) as (_ & _ & Ee & _); [lia..|]. rewrite <- Ex in Ee.
    rewrite <- Z.mul_assoc, <- Z.pow_add_r, round_to_exact by lia. split; [apply pack_ok; lia|].
    destruct (pack_fields false (k + 63) m) as (_ & Es & Ee' & _); [lia..|]. rewrite Ee'. split; [lia|].
    unfold value. rewrite Es, magnitude_pack by lia. reflexivity.
Qed.

Lemma fixed64_read x : fpr_ok x -> fpr_sign x = false -> fpr_exp x <= 1022 ->
  u64 (u64 (fpr_trunc (fpr_mul x fpr_ptwo63)) .<< 1) = fixed64 x /\ 0 <= fixed64 x < 2 ^ 64.
Proof.
  intros Hx Hs He. destruct (scale_up x Hx Hs He) as (Hok & Hexp & Hv). rewrite fpr_trunc_spec, Hv by done.
  assert (value x = magnitude x) as Em by (unfold value; now rewrite Hs). pose proof (magnitude_nonneg x) as H0.
  pose proof (small_magnitude x 63 ltac:(lia) ltac:(lia)) as Hm. unfold fixed64. rewrite Em, Z.quot_div_nonneg by (reflexivity || lia).
  assert (0 <= magnitude x * 2 ^ 63 / 2 ^ 1074 < 2 ^ 63) as Hq.
  { split; [apply Z.div_pos; [lia | reflexivity]|]. apply Z.div_lt_upper_bound; [reflexivity|]. rewrite Z.mul_comm in Hm. rewrite (Z.mul_comm (2 ^ 1074)), (Z.mul_comm (magnitude x)). exact Hm. }
  set (q := _ / _) in *. clearbody q. rewrite Z.shiftl_mul_pow2, !wrap_small by (try lia; unfold in_width; try rewrite wrap_small by (unfold in_width; lia); lia). lia.
Qed.

(** The exponential, without overflow: the polynomial is evaluated to twelve units, then scaled. *)
Lemma fpr_expm_p63_spec x ccs :
  fpr_ok x -> fpr_sign x = false -> fpr_exp x <= 1022 -> fpr_ok ccs -> fpr_sign ccs = false -> fpr_exp ccs <= 1022 ->
  fpr_expm_p63 x ccs = fixed64 ccs * expm_high (fixed64 x) 12 / 2 ^ 64 /\ 0 <= fpr_expm_p63 x ccs <= 2 ^ 63.
Proof.
  intros Hx Sx Ex Hc Sc Ec. unfold fpr_expm_p63. cbv zeta. destruct (fixed64_read x Hx Sx Ex) as [-> Rx]. destruct (fixed64_read ccs Hc Sc Ec) as [-> Rc].
  set (z := fixed64 x) in *. set (c := fixed64 ccs) in *. clearbody z c.
  assert (forall u, (u <= 12)%nat -> 0 <= expm_high z u < 2 ^ 64) as Hr.
  { intros u Hu. pose proof (expm_high_range z u Rx Hu). assert (expm_coefs !!! u < 2 ^ 64) by (do 13 (destruct u as [|u]; [reflexivity|]); lia). lia. }
  assert (for_up 1 13 (fun u y => u64 (expm_coefs !!! u - mul_high z y)) (expm_coefs !!! 0%nat) = expm_high z 12) as ->.
  { refine (for_up_inv _ (fun u y => y = expm_high z (u - 1)) 1 13 _ _ _ _); [lia | reflexivity|]. intros u y Hu ->.
    destruct u as [|u]; [lia|]. replace (S u - 1)%nat with u by lia. replace (S (S u) - 1)%nat with (S u) by lia.
    rewrite mul_high_spec by (apply Hr || exact Rx; lia). cbn [expm_high]. apply wrap_small. apply (Hr (S u)). lia. }
  pose proof (expm_high_range z 12 Rx ltac:(lia)) as H12. change (expm_coefs !!! 12%nat) with (2 ^ 63) in H12.
  rewrite mul_high_spec by (exact Rc || apply Hr; lia). split; [reflexivity|]. set (y := expm_high z 12) in *. clearbody y.
  split; [apply Z.div_pos; nia | apply Z.div_le_upper_bound; nia].
Qed.
