(* ===== verification/FprSpec.v ===== *)
(** FprSpec: the promises of the emulated floating point, operation by operation.

    The specification of an operation is IEEE 754's: the result is the number nearest to the exact real
    result.  Differences from IEEE 754 are in the statements: results below the normal range are flushed
    to zero, and overflow is outside the contract of [fpr.h]. *)

From Stdlib Require Import ZArith Lia.
From stdpp Require Import base numbers list.
From S2P Require Import Prelude Rounding Fpr FprPack FprArith FprAdd FprConv FprExpm.

(** [r] rounds plus or minus [n / d]: the encoding is the one of [round_to], a valid number, and none is nearer. *)
Definition correctly_rounded (s : bool) (n d r : Z) : Prop :=
  r = round_to s n d /\ fpr_ok r /\
  (2 ^ 52 * d <= n -> let v := if s then - n else n in
   forall y, fpr_ok y -> Z.abs (v - value r * d) <= Z.abs (v - value y * d)).

Lemma round_to_correct s n d : 0 < d -> 0 <= n -> representable n d -> correctly_rounded s n d (round_to s n d).
Proof.
  intros Hd Hn Hr. split; [reflexivity|]. split; [now apply round_to_ok|]. intros Hs v y Hy. now apply round_to_nearest.
Qed.

(** [r] is nearest to the square root of [v]: the midpoints with the other numbers are on the right side. *)
Definition root_rounded (v r : Z) : Prop :=
  fpr_ok r /\ fpr_sign r = false /\
  forall y, fpr_ok y -> 0 <= value y ->
    (value r < value y -> 4 * v < (value r + value y) ^ 2) /\ (value y < value r -> (value r + value y) ^ 2 < 4 * v).

(** Numbers above [2^(52 + k)] are multiples of [2^k]. *)
Lemma value_grid y k : fpr_ok y -> 0 <= k -> value y < 2 ^ 52 * 2 ^ k \/ exists c, value y = c * 2 ^ k.
Proof.
  intros Hy Hk. assert (0 < 2 ^ k) by (apply Z.pow_pos_nonneg; lia). pose proof (magnitude_nonneg y). unfold value.
  destruct (fpr_sign y); [left; nia|]. destruct (fpr_cases y Hy) as [[_ ->]|(ky & my & _ & Hky & Hmy & ->)]; [left; nia|].
  destruct (Z.le_gt_cases k ky) as [Hle|Hlt].
  - right. exists (my * 2 ^ (ky - k)). rewrite <- Z.mul_assoc, <- Z.pow_add_r by lia. do 2 f_equal. lia.
  - left. assert (2 * 2 ^ ky <= 2 ^ k) by (rewrite <- Z.pow_succ_r by lia; apply Z.pow_le_mono_r; lia). nia.
Qed.

Lemma fpr_sqrt_rounded x : fpr_ok x -> root_rounded (magnitude x * 2 ^ 1074) (fpr_sqrt x).
Proof.
  intros Hx. assert (0 < 2 ^ 1074) as HT by reflexivity. destruct (fpr_sqrt_spec x (fpr_finite _ Hx)) as [[E ->]|(k & m & -> & Hk & Hm & [H1 H2] & H3)].
  - rewrite (magnitude_exp0 x E), Z.mul_0_l. split; [constructor; vm_compute; (split || idtac); congruence|]. split; [reflexivity|].
    intros y _ Hy. change (value 0) with 0. split; intros; nia.
  - assert (fpr_ok (pack false k m)) as Hok.
    { destruct (Z.eq_dec m (2 ^ 53)) as [->|]; [rewrite pack_carry|]; apply pack_ok; lia. }
    assert (fpr_sign (pack false k m) = false) as Es by (apply sign_pack; lia). split; [exact Hok|]. split; [exact Es|].
    intros y Hy Hv. assert (value (pack false k m) = m * 2 ^ k) as -> by (unfold value; rewrite Es, magnitude_pack by lia; reflexivity).
    pose proof (value_grid y k Hy ltac:(lia)) as Hg. rewrite (Z.pow_add_r 2 52 k) in H3 by lia. set (V := magnitude x * 2 ^ 1074) in *. clearbody V.
    assert (0 < 2 ^ k) as Hp by (apply Z.pow_pos_nonneg; lia). set (p := 2 ^ k) in *. clearbody p. destruct H3 as [H3 _]. set (u := value y) in *. clearbody u.
    rewrite <- Z.pow_mul_l in H1, H2. split; intros Hlt.
    + destruct Hg as [Hg|[c ->]]; [nia|]. assert (m + 1 <= c) by nia.
      apply Z.lt_le_trans with (((2 * m + 1) * p) ^ 2); [exact H2|]. apply Z.pow_le_mono_l. nia.
    + destruct (Z.eq_dec m (2 ^ 52)) as [->|Hne].
      * apply Z.lt_le_trans with ((2 * (2 ^ 52 * p)) ^ 2); [apply Z.pow_lt_mono_l; lia|]. rewrite Z.pow_mul_l. lia.
      * apply Z.le_lt_trans with (((2 * m - 1) * p) ^ 2); [|exact H1]. apply Z.pow_le_mono_l. destruct Hg as [Hg|[c ->]]; [nia|].
        assert (c <= m - 1) by nia. nia.
Qed.

(** C23 (functional).  The emulated arithmetic is correctly rounded: on zeros and normal numbers, addition, subtraction,
    multiplication and division return the number nearest to the exact result, ties to even, with the right
    sign (a zero sum or quotient included), results below the normal range being flushed to zero; the square root
    is nearest to the exact root.  Every result is again a zero or a normal number. *)
Theorem fpr_arith_correct (x y : Z) :
  fpr_ok x -> fpr_ok y ->
  (let v := value x + value y in representable (Z.abs v) 1 ->
   correctly_rounded ((v <? 0) || ((v =? 0) && (fpr_sign x && fpr_sign y))) (Z.abs v) 1 (fpr_add x y)) /\
  (let v := value x - value y in representable (Z.abs v) 1 ->
   correctly_rounded ((v <? 0) || ((v =? 0) && (fpr_sign x && negb (fpr_sign y)))) (Z.abs v) 1 (fpr_sub x y)) /\
  (representable (magnitude x * magnitude y) (2 ^ 1074) ->
   correctly_rounded (xorb (fpr_sign x) (fpr_sign y)) (magnitude x * magnitude y) (2 ^ 1074) (fpr_mul x y)) /\
  (value y <> 0 -> representable (magnitude x * 2 ^ 1074) (magnitude y) ->
   correctly_rounded (xorb (fpr_sign x) (fpr_sign y) && negb (value x =? 0)) (magnitude x * 2 ^ 1074) (magnitude y) (fpr_div x y)) /\
  root_rounded (magnitude x * 2 ^ 1074) (fpr_sqrt x).
Proof.
  intros Hx Hy. pose proof (magnitude_nonneg x) as Mx. pose proof (magnitude_nonneg y) as My. assert (0 < 2 ^ 1074) as HT by reflexivity.
  split_and!.
  - intros v Hr. rewrite fpr_add_spec by done. apply round_to_correct; [lia | lia | exact Hr].
  - intros v Hr. rewrite fpr_sub_spec by done. apply round_to_correct; [lia | lia | exact Hr].
  - intros Hr. rewrite fpr_mul_spec by (done || apply Hx || apply Hy). apply round_to_correct; [done | nia | exact Hr].
  - intros Hv Hr. destruct (magnitude_0_exp y) as [E|[Ey Hp]].
    { exfalso. apply Hv. unfold value. rewrite (magnitude_exp0 y E). now destruct (fpr_sign y). }
    rewrite fpr_div_spec by (done || apply Hx || apply Hy).
    assert ((value x =? 0) = (fpr_exp x =? 0)) as ->; [|apply round_to_correct; [done | nia | exact Hr]].
    apply eq_true_iff_eq. rewrite !Z.eqb_eq. unfold value. destruct (magnitude_0_exp x) as [E|[Ex Hpx]].
    + rewrite (magnitude_exp0 x E), E. destruct (fpr_sign x); tauto.
    + destruct (fpr_sign x); lia.
  - now apply fpr_sqrt_rounded.
Qed.

(** 1.5 and -2.25: the sum is -0.75, the product is -3.375. *)
Lemma fpr_arith_correct_witness :
  fpr_ok 4609434218613702656 /\ fpr_ok 13835621005235585024 /\
  correctly_rounded true (3 * 2 ^ 1072) 1 (fpr_add 4609434218613702656 13835621005235585024) /\
  fpr_add 4609434218613702656 13835621005235585024 = 13828302655841107968.
Proof.
  assert (fpr_ok 4609434218613702656) as H1 by (constructor; vm_compute; (split || idtac); congruence).
  assert (fpr_ok 13835621005235585024) as H2 by (constructor; vm_compute; (split || idtac); congruence).
  split; [exact H1|]. split; [exact H2|]. destruct (fpr_arith_correct _ _ H1 H2) as (H & _). split; [|vm_compute; reflexivity].
  specialize (H ltac:(unfold representable; vm_compute; reflexivity)).
  exact H.
Defined.

(** * Conversions and comparison *)

(** [r] is the integer nearest to [x], ties to even. *)
Definition nearest_integer (x r : Z) : Prop :=
  let u := 2 ^ 1074 in
  2 * Z.abs (value x - r * u) < u \/ (2 * Z.abs (value x - r * u) = u /\ Z.even r = true).

Lemma fpr_rint_nearest x : fpr_ok x -> fpr_exp x <= 1085 -> nearest_integer x (fpr_rint x) /\ - 2 ^ 63 < fpr_rint x < 2 ^ 63.
Proof.
  intros Hx He. rewrite fpr_rint_spec by done. pose proof (rint_range x He) as Hr.
  pose proof (round_ne_spec (magnitude x) (2 ^ 1074) ltac:(reflexivity)) as Hs. set (r := round_ne _ _) in *. unfold nearest_integer, value. cbv zeta.
  assert (0 < 2 ^ 1074) as HT by reflexivity. set (u := 2 ^ 1074) in *. clearbody u r.
  destruct (fpr_sign x); [|split; [exact Hs | lia]]. split; [|lia]. rewrite Z.even_opp.
  replace (- magnitude x - - r * u) with (- (magnitude x - r * u)) by ring. rewrite Z.abs_opp. exact Hs.
Qed.

(** C29 (functional).  Conversions, comparison and scaling of emulated floats.  Integers (with a power of two) are converted by correct
    rounding.  Below 2^63 in absolute value, [fpr_rint] returns the nearest integer, ties to even, [fpr_floor]
    the floor, except for minus zero, and [fpr_trunc] drops the fraction; [fpr_lt] compares values, except
    that minus zero is below zero; negation, doubling and halving are exact. *)
Theorem fpr_convert_correct (x y i sc : Z) :
  fpr_ok x -> fpr_ok y ->
  (- 2 ^ 63 < i < 2 ^ 63 -> - 2 ^ 29 <= sc <= 2 ^ 29 -> representable (scaled_num i sc) (scaled_den sc) ->
   correctly_rounded (i <? 0) (scaled_num i sc) (scaled_den sc) (fpr_scaled i sc)) /\
  (- 2 ^ 63 < i < 2 ^ 63 -> correctly_rounded (i <? 0) (Z.abs i * 2 ^ 1074) 1 (fpr_of i)) /\
  (fpr_exp x <= 1085 ->
   nearest_integer x (fpr_rint x) /\ - 2 ^ 63 < fpr_rint x < 2 ^ 63 /\
   fpr_floor x = (if x =? 2 ^ 63 then -1 else value x / 2 ^ 1074) /\
   fpr_trunc x = Z.quot (value x) (2 ^ 1074)) /\
  fpr_lt x y = bit ((value x <? value y) || ((x =? 2 ^ 63) && (y =? 0))) /\
  (fpr_ok (fpr_neg x) /\ value (fpr_neg x) = - value x) /\
  (fpr_exp x <= 2045 -> fpr_ok (fpr_double x) /\ value (fpr_double x) = 2 * value x) /\
  (fpr_exp x <> 1 -> fpr_ok (fpr_half x) /\ 2 * value (fpr_half x) = value x).
Proof.
  intros Hx Hy. split_and!.
  - intros Hi Hsc Hr. rewrite fpr_scaled_spec by done. apply round_to_correct; [apply Z.pow_pos_nonneg; lia | | exact Hr].
    unfold scaled_num. pose proof (Z.pow_nonneg 2 (Z.max (sc + 1074) 0) ltac:(lia)). lia.
  - intros Hi. rewrite fpr_of_spec by done. assert (0 < 2 ^ 1074) as HT by reflexivity. apply round_to_correct; [lia | nia |].
    unfold representable. rewrite Z.mul_1_r. apply Z.le_lt_trans with (2 ^ 63 * 2 ^ 1074); [apply Z.mul_le_mono_nonneg_r; lia | reflexivity].
  - intros He. destruct (fpr_rint_nearest x Hx He) as [Hn Hr]. split; [exact Hn|]. split; [exact Hr|].
    split; [now apply fpr_floor_spec | now apply fpr_trunc_spec].
  - now apply fpr_lt_spec.
  - now apply fpr_neg_spec.
  - now apply fpr_neg_spec.
  - now apply fpr_double_spec.
  - now apply fpr_half_spec.
Qed.

(** -2.5 rounds to -2, its floor is -3; 2^53 + 1 is not representable. *)
Lemma fpr_convert_correct_witness :
  fpr_ok 13836183955189006336 /\ nearest_integer 13836183955189006336 (-2) /\ fpr_floor 13836183955189006336 = -3 /\
  correctly_rounded false (9007199254740993 * 2 ^ 1074) 1 4845873199050653696.
Proof.
  assert (fpr_ok 13836183955189006336) as H1 by (constructor; vm_compute; (split || idtac); congruence).
  destruct (fpr_convert_correct 13836183955189006336 13836183955189006336 9007199254740993 0 H1 H1) as (_ & H2 & H3 & _).
  destruct (H3 ltac:(vm_compute; congruence)) as (H4 & _ & H5 & _).
  split; [exact H1|]. split; [exact H4|]. split; [rewrite H5; vm_compute; reflexivity|].
  assert (fpr_of 9007199254740993 = 4845873199050653696) as E by (vm_compute; reflexivity). rewrite <- E. exact (H2 ltac:(lia)).
Defined.
