(* ===== verification/Sampler.v ===== *)
(** Sampler: the discrete Gaussian sampler of [sign.c]. *)

From Stdlib Require Import ZArith Lia.
From stdpp Require Import base numbers list.
From S2P Require Import Prelude Prng Rounding Fpr FprPack FprArith FprAdd FprConv FprExpm.

Definition dist : list Z :=
  [10745844; 3068844; 3741698; 5559083; 1580863; 8248194; 2260429; 13669192; 2736639; 708981; 4421575; 10046180;
   169348; 7122675; 4136815; 30538; 13063405; 7650655; 4132; 14505003; 7826148; 417; 16768101; 11363290;
   31; 8444042; 8086568; 1; 12844466; 265321; 0; 1232676; 13644283; 0; 38047; 9111839;
   0; 870; 6138264; 0; 14; 12545723; 0; 0; 3104126; 0; 0; 28824; 0; 0; 198; 0; 0; 1].

Definition gaussian0_sampler (p : prng) : prng * Z :=
  let '(p, lo) := prng_get_u64 p in
  let '(p, hi) := prng_get_u8 p in
  let v0 := u32 lo .& 0xFFFFFF in
  let v1 := u32 (lo .>> 24) .& 0xFFFFFF in
  let v2 := u32 (lo .>> 48) .| u32 (hi .<< 16) in
  let z := for_up 0 18 (fun k z =>
    let u := (3 * k)%nat in
    let w0 := dist !!! (u + 2)%nat in
    let w1 := dist !!! (u + 1)%nat in
    let w2 := dist !!! u in
    let cc := u32 (v0 - w0) .>> 31 in
    let cc := u32 (v1 - w1 - cc) .>> 31 in
    let cc := u32 (v2 - w2 - cc) .>> 31 in
    z + cc) 0 in
  (p, z).

Definition fpr_log2 : Z := 4604418534313441775.
Definition fpr_inv_log2 : Z := 4609176140021203710.
Definition fpr_inv_2sqrsigma0 : Z := 4594603506513722306.
Definition fpr_sigma_min : list Z :=
  [0; 4607707126469777035; 4607777455861499430; 4607846828256951418; 4607949175006100261; 4608049571757433526;
   4608148125896792003; 4608244935301382692; 4608340089478362016; 4608433670533905013; 4608525754002622308].

(** The lazy comparison of [z] with random bytes: [i] bits are left. *)
Fixpoint ber_loop (fuel : nat) (p : prng) (z i : Z) : option (prng * Z) :=
  match fuel with
  | O => None
  | S fuel =>
      let i := i - 8 in
      let '(p, b) := prng_get_u8 p in
      let w := u32 (b - (u32 (z .>> i) .& 0xFF)) in
      if (w =? 0) && (0 <? i) then ber_loop fuel p z i else Some (p, i32 (w .>> 31))
  end.

(** The reduction of [x] modulo log 2. *)
Definition ber_reduce (x : Z) : Z * Z :=
  let s := i32 (fpr_trunc (fpr_mul x fpr_inv_log2)) in
  (s, fpr_sub x (fpr_mul (fpr_of s) fpr_log2)).

Definition ber_threshold (x ccs : Z) : Z :=
  let '(s, r) := ber_reduce x in
  let sw := u32 s in
  let sw := sw .^ ((sw .^ 63) .& u32 (- (u32 (63 - sw) .>> 31))) in
  let s := i32 sw in
  u64 (u64 (fpr_expm_p63 r ccs .<< 1) - 1) .>> s.

Definition BerExp (p : prng) (x ccs : Z) : option (prng * Z) := ber_loop 8 p (ber_threshold x ccs) 64.

Record sampler_context := mk_sampler_context { spc_p : prng; sigma_min : Z }.

(** One candidate: the integer [z] and whether it is kept. *)
Definition sampler_try (p : prng) (r dss ccs : Z) : option (prng * Z * Z) :=
  let '(p, z0) := gaussian0_sampler p in
  let '(p, b) := prng_get_u8 p in
  let b := b .& 1 in
  let z := b + ((b .<< 1) - 1) * z0 in
  let x := fpr_mul (fpr_sqr (fpr_sub (fpr_of z) r)) dss in
  let x := fpr_sub x (fpr_mul (fpr_of (z0 * z0)) fpr_inv_2sqrsigma0) in
  '(p, keep) ← BerExp p x ccs;
  Some (p, z, keep).

Fixpoint sampler_loop (fuel : nat) (p : prng) (s r dss ccs : Z) : option (prng * Z) :=
  match fuel with
  | O => None
  | S fuel =>
      '(p, z, keep) ← sampler_try p r dss ccs;
      if keep =? 0 then sampler_loop fuel p s r dss ccs else Some (p, s + z)
  end.

Definition sampler (fuel : nat) (spc : sampler_context) (mu isigma : Z) : option (sampler_context * Z) :=
  let s := i32 (fpr_floor mu) in
  let r := fpr_sub mu (fpr_of s) in
  let dss := fpr_half (fpr_sqr isigma) in
  let ccs := fpr_mul isigma (sigma_min spc) in
  '(p, z) ← sampler_loop fuel (spc_p spc) s r dss ccs;
  Some (mk_sampler_context p (sigma_min spc), z).

(** * The half-Gaussian table *)

(** The 72-bit threshold of row [k]: the value is above [k] when the random word is below it. *)
Definition cdt (k : nat) : Z := dist !!! (3 * k)%nat * 2 ^ 48 + dist !!! (3 * k + 1)%nat * 2 ^ 24 + dist !!! (3 * k + 2)%nat.

(** The 72 random bits that a call uses. *)
Definition random72 (p : prng) : Z := (prng_get_u64 p).2 + 2 ^ 64 * (prng_get_u8 (prng_get_u64 p).1).2.

Lemma borrow_limb a b c : 0 <= a < 2 ^ 24 -> 0 <= b < 2 ^ 24 -> 0 <= c <= 1 -> u32 (a - b - c) .>> 31 = bit (a - b - c <? 0).
Proof.
  intros Ha Hb Hc. rewrite Z.shiftr_div_pow2 by lia. destruct (Z.ltb_spec (a - b - c) 0); cbn [bit].
  - assert (u32 (a - b - c) = a - b - c + 2 ^ 32) as -> by word_lia. symmetry. apply (Z.div_unique _ _ _ (a - b - c + 2 ^ 31)); lia.
  - rewrite wrap_small by (unfold in_width; lia). apply Z.div_small. lia.
Qed.

(** Subtraction by limbs compares the numbers. *)
Lemma compare_limbs v0 v1 v2 w0 w1 w2 :
  0 <= v0 < 2 ^ 24 -> 0 <= v1 < 2 ^ 24 -> 0 <= v2 < 2 ^ 24 -> 0 <= w0 < 2 ^ 24 -> 0 <= w1 < 2 ^ 24 -> 0 <= w2 < 2 ^ 24 ->
  u32 (v2 - w2 - (u32 (v1 - w1 - (u32 (v0 - w0) .>> 31)) .>> 31)) .>> 31 =
  bit (v2 * 2 ^ 48 + v1 * 2 ^ 24 + v0 <? w2 * 2 ^ 48 + w1 * 2 ^ 24 + w0).
Proof.
  intros H0 H1 H2 W0 W1 W2. rewrite <- (Z.sub_0_r (v0 - w0)). rewrite (borrow_limb v0 w0 0) by lia.
  rewrite (borrow_limb v1 w1) by (try lia; destruct (_ <? _); cbn [bit]; lia). rewrite (borrow_limb v2 w2) by (try lia; destruct (_ <? _); cbn [bit]; lia).
  f_equal. apply eq_true_iff_eq. rewrite !Z.ltb_lt. destruct (Z.ltb_spec (v0 - w0 - 0) 0); cbn [bit];
    [destruct (Z.ltb_spec (v1 - w1 - 1) 0) | destruct (Z.ltb_spec (v1 - w1 - 0) 0)]; cbn [bit]; lia.
Qed.

(** The number of rows above [v]. *)
Definition cdt_count (v : Z) : Z := for_up 0 18 (fun k z => z + bit (v <? cdt k)) 0.

Lemma dist_limbs k : (k < 54)%nat -> 0 <= dist !!! k < 2 ^ 24.
Proof.
  intros Hk. assert (Forall (fun w => 0 <= w < 2 ^ 24) dist) as H by by_decide. apply (Forall_lookup_total (fun w => 0 <= w < 2 ^ 24)); [exact H | exact Hk].
Qed.

Lemma get_u64_width p : prng_ok p -> prng_ok (prng_get_u64 p).1 /\ in_width 64 (prng_get_u64 p).2.
Proof. intros Hp. destruct (get_u64_spec p Hp) as [H1 ->]. split; [exact H1 | now apply word_source_width]. Qed.

Lemma get_u8_width p : prng_ok p -> prng_ok (prng_get_u8 p).1 /\ in_width 8 (prng_get_u8 p).2.
Proof.
  intros Hp. destruct (get_u8_spec p 0 Hp) as [H1 _]. split; [exact H1|]. unfold prng_get_u8. cbn [snd].
  apply Forall_lookup_total; [apply Hp | rewrite (ok_buf _ Hp); apply Hp].
Qed.

Lemma gaussian0_spec p : prng_ok p ->
  prng_ok (gaussian0_sampler p).1 /\ 0 <= random72 p < 2 ^ 72 /\ (gaussian0_sampler p).2 = cdt_count (random72 p).
Proof.
  intros Hp. unfold gaussian0_sampler, random72. destruct (get_u64_width p Hp) as [Hp1 Hlo]. destruct (prng_get_u64 p) as [p1 lo]. cbn [fst snd] in *.
  destruct (get_u8_width p1 Hp1) as [Hp2 Hhi]. destruct (prng_get_u8 p1) as [p2 hi]. cbn [fst snd] in *. unfold in_width in Hlo, Hhi.
  split; [exact Hp2|]. split; [lia|]. unfold cdt_count. apply for_up_ext. intros k z Hk. cbv zeta. f_equal.
  change 0xFFFFFF with (Z.ones 24). rewrite !Z.land_ones, !(Z.shiftr_div_pow2 lo) by lia.
  set (lo0 := lo mod 2 ^ 24). set (lo1 := (lo / 2 ^ 24) mod 2 ^ 24). set (lo2 := lo / 2 ^ 48).
  assert (u32 lo mod 2 ^ 24 = lo0) as ->.
  { rewrite wrap_mod by lia. change (2 ^ 32) with (2 ^ 24 * 2 ^ 8). rewrite Z.rem_mul_r, Z.mul_comm, Z_mod_plus_full, Z.mod_mod by lia. reflexivity. }
  assert (u32 (lo / 2 ^ 24) mod 2 ^ 24 = lo1) as ->.
  { rewrite wrap_mod by lia. change (2 ^ 32) with (2 ^ 24 * 2 ^ 8). rewrite Z.rem_mul_r, Z.mul_comm, Z_mod_plus_full, Z.mod_mod by lia. reflexivity. }
  assert (0 <= lo2 < 2 ^ 16) as R2 by (unfold lo2; split; [apply Z.div_pos | apply Z.div_lt_upper_bound]; lia).
  assert (0 <= lo0 < 2 ^ 24) as R0 by (apply Z.mod_pos_bound; lia). assert (0 <= lo1 < 2 ^ 24) as R1 by (apply Z.mod_pos_bound; lia).
  assert (lo = lo2 * 2 ^ 48 + lo1 * 2 ^ 24 + lo0) as El.
  { unfold lo0, lo1, lo2. change (2 ^ 48) with (2 ^ 24 * 2 ^ 24). rewrite <- Z.div_div by lia.
    pose proof (Z.div_mod lo (2 ^ 24) ltac:(lia)). pose proof (Z.div_mod (lo / 2 ^ 24) (2 ^ 24) ltac:(lia)). lia. }
  rewrite (wrap_small 32 lo2) by (unfold in_width; lia). rewrite (wrap_small 32 (hi .<< 16)) by (rewrite Z.shiftl_mul_pow2; unfold in_width; lia).
  rewrite Z.lor_comm, lor_shiftl_add by lia. rewrite compare_limbs by (lia || apply dist_limbs; lia). unfold cdt. do 2 f_equal. rewrite El. lia.
Qed.

Lemma cdt_decreasing k : (k < 17)%nat -> cdt (S k) < cdt k.
Proof.
  intros Hk. assert (Forall (fun k => cdt (S k) < cdt k) (seq 0 17)) as H by by_decide.
  rewrite Forall_forall in H. apply H, elem_of_seq. lia.
Qed.

Lemma cdt_antitone i j : (i <= j < 18)%nat -> cdt j <= cdt i.
Proof.
  intros [Hij Hj]. induction j as [|j IH]; [now replace i with 0%nat by lia|]. destruct (decide (i = S j)) as [->|]; [lia|].
  pose proof (cdt_decreasing j ltac:(lia)). specialize (IH ltac:(lia) ltac:(lia)). lia.
Qed.

(** The table decreases, so the count is the interval of the random word. *)
Lemma cdt_count_interval v : 0 <= v ->
  0 <= cdt_count v <= 18 /\
  forall k : nat, (k <= 18)%nat -> cdt_count v = Z.of_nat k <-> (k = 0%nat \/ v < cdt (k - 1)) /\ (k = 18%nat \/ cdt k <= v).
Proof.
  intros Hv. assert (forall n, (n <= 18)%nat -> let c := for_up 0 n (fun k z => z + bit (v <? cdt k)) 0 in
    0 <= c <= Z.of_nat n /\ (forall k : nat, (k <= n)%nat -> c = Z.of_nat k <-> (k = 0%nat \/ v < cdt (k - 1)) /\ (k = n \/ cdt k <= v))) as H.
  { induction n as [|n IH]; intros Hn c; [split; [cbn; lia | intros k Hk; replace k with 0%nat by lia; cbn; intuition lia]|].
    unfold c. rewrite for_up_snoc by lia. clear c. specialize (IH ltac:(lia)). cbv zeta in IH. set (c := for_up 0 n _ 0) in *. destruct IH as [Hc IH].
    clearbody c. destruct (Z.ltb_spec v (cdt n)) as [Hlt|Hge]; cbn [bit].
    - assert (c = Z.of_nat n) as ->.
      { apply IH; [lia|]. split; [|now left]. destruct n as [|n]; [now left | right]. pose proof (cdt_decreasing n ltac:(lia)).
        replace (S n - 1)%nat with n by lia. lia. }
      split; [lia|]. intros k Hk. split.
      + intros E. assert (k = S n) as -> by lia. split; [right; now replace (S n - 1)%nat with n by lia | now left].
      + intros [_ [->|Hge]]; [lia|]. destruct (decide (k = S n)); [lia|]. exfalso. pose proof (cdt_antitone k n ltac:(lia)). lia.
    - split; [lia|]. intros k Hk. rewrite Z.add_0_r. destruct (decide (k = S n)) as [->|Hne].
      + split; [lia|]. intros [[|Hlt] _]; [lia|]. replace (S n - 1)%nat with n in Hlt by lia. lia.
      + rewrite IH by lia. split; intros [H1 H2]; (split; [exact H1|]); [destruct H2 as [->|H2]; [right; lia | now right] | destruct H2; [lia | now right]]. }
  exact (H 18%nat (Nat.le_refl 18)).
Qed.

(** * The Bernoulli trial *)

(** A big-endian number. *)
Fixpoint be_load (bs : list Z) : Z :=
  match bs with [] => 0 | b :: bs => b * 2 ^ (8 * Z.of_nat (length bs)) + be_load bs end.

Lemma be_load_range bs : Forall (in_width 8) bs -> 0 <= be_load bs < 2 ^ (8 * Z.of_nat (length bs)).
Proof.
  induction 1 as [|b bs Hb _ IH]; [cbn; lia|]. cbn [be_load length]. rewrite Nat2Z.inj_succ. unfold in_width in Hb.
  replace (8 * Z.succ (Z.of_nat (length bs))) with (8 + 8 * Z.of_nat (length bs)) by lia. rewrite Z.pow_add_r by lia. nia.
Qed.

Lemma get_u8s_width n : forall p, prng_ok p -> prng_ok (get_u8s n p).1 /\ Forall (in_width 8) (get_u8s n p).2 /\ length (get_u8s n p).2 = n.
Proof.
  induction n as [|n IH]; intros p Hp; [cbn; auto|]. cbn [get_u8s]. destruct (get_u8_width p Hp) as [H1 H2]. destruct (prng_get_u8 p) as [p' v].
  cbn [fst snd] in *. destruct (IH p' H1) as (H3 & H4 & H5). destruct (get_u8s n p') as [p'' vs]. cbn [fst snd length] in *. auto.
Qed.

Lemma byte_difference b y : 0 <= b < 2 ^ 8 -> 0 <= y < 2 ^ 8 -> (u32 (b - y) =? 0) = (b =? y) /\ i32 (u32 (b - y) .>> 31) = bit (b <? y).
Proof.
  intros Hb Hy. rewrite Z.shiftr_div_pow2 by lia. destruct (Z.ltb_spec b y).
  - assert (u32 (b - y) = b - y + 2 ^ 32) as -> by word_lia. assert ((b - y + 2 ^ 32) / 2 ^ 31 = 1) as -> by (symmetry; apply (Z.div_unique _ _ _ (b - y + 2 ^ 31)); lia).
    split; [|reflexivity]. rewrite (proj2 (Z.eqb_neq b y)), (proj2 (Z.eqb_neq (b - y + 2 ^ 32) 0)) by lia. reflexivity.
  - rewrite wrap_small by (unfold in_width; lia). rewrite Z.div_small by lia. split; [|reflexivity].
    apply eq_true_iff_eq. rewrite !Z.eqb_eq. lia.
Qed.

Lemma threshold_byte z m : 0 <= z -> 0 <= m -> u32 (z .>> m) .& 0xFF = (z / 2 ^ m) mod 2 ^ 8 /\
  z mod 2 ^ (8 + m) = (z / 2 ^ m) mod 2 ^ 8 * 2 ^ m + z mod 2 ^ m.
Proof.
  intros Hz Hm. split.
  - change 0xFF with (Z.ones 8). rewrite Z.land_ones, Z.shiftr_div_pow2, wrap_mod by lia. change (2 ^ 32) with (2 ^ 8 * 2 ^ 24).
    rewrite Z.rem_mul_r, (Z.mul_comm (2 ^ 8)), Z_mod_plus_full, Z.mod_mod by lia. reflexivity.
  - rewrite (Z.add_comm 8), Z.pow_add_r by lia. assert (0 < 2 ^ m) by (apply Z.pow_pos_nonneg; lia). rewrite Z.rem_mul_r by lia. lia.
Qed.

(** The comparison stops at the first byte that differs, and decides whether the random bytes are below the
    threshold. *)
Lemma ber_loop_spec n : forall p z, prng_ok p -> 0 <= z ->
  exists c, (1 <= c <= S n)%nat /\
    ber_loop (S n) p z (8 * Z.of_nat (S n)) = Some ((get_u8s c p).1, bit (be_load (get_u8s (S n) p).2 <? z mod 2 ^ (8 * Z.of_nat (S n)))).
Proof.
  assert (forall n p z, prng_ok p -> 0 <= z ->
    (forall p, prng_ok p -> n <> 0%nat -> exists c, (1 <= c <= n)%nat /\
      ber_loop n p z (8 * Z.of_nat n) = Some ((get_u8s c p).1, bit (be_load (get_u8s n p).2 <? z mod 2 ^ (8 * Z.of_nat n)))) ->
    exists c, (1 <= c <= S n)%nat /\
      ber_loop (S n) p z (8 * Z.of_nat (S n)) = Some ((get_u8s c p).1, bit (be_load (get_u8s (S n) p).2 <? z mod 2 ^ (8 * Z.of_nat (S n))))) as Hstep.
  2: { induction n as [|n IH]; intros p z Hp Hz; apply Hstep; try done. intros q Hq _. now apply IH. }
  clear n. intros n p z Hp Hz IH. set (m := 8 * Z.of_nat n). assert (8 * Z.of_nat (S n) = 8 + m) as -> by (unfold m; lia).
  cbn [ber_loop get_u8s]. replace (8 + m - 8) with m by lia. destruct (get_u8_width p Hp) as [Hp' Hb]. destruct (prng_get_u8 p) as [p1 b] eqn:E8.
  cbn [fst snd] in *. unfold in_width in Hb. destruct (threshold_byte z m Hz ltac:(unfold m; lia)) as [-> ->].
  assert (0 <= (z / 2 ^ m) mod 2 ^ 8 < 2 ^ 8) as Hy by (apply Z.mod_pos_bound; lia). set (y := (z / 2 ^ m) mod 2 ^ 8) in *. clearbody y.
  destruct (byte_difference b y Hb Hy) as [-> ->]. assert (0 < 2 ^ m) as Pm by (apply Z.pow_pos_nonneg; unfold m; lia).
  pose proof (Z.mod_pos_bound z (2 ^ m) Pm) as Hr. destruct (get_u8s_width n p1 Hp') as (_ & Hw & Hl). pose proof (be_load_range _ Hw) as Hbe. rewrite Hl in Hbe. fold m in Hbe.
  destruct (Z.eqb_spec b y) as [->|Hne].
  - destruct (decide (n = 0%nat)) as [->|Hn].
    + exists 1%nat. split; [lia|]. cbn [get_u8s]. rewrite E8. change (2 ^ m) with 1. rewrite Z.mod_1_r. change (0 <? m) with false. cbn [andb fst snd be_load length]. change (2 ^ (8 * Z.of_nat 0)) with 1. now rewrite !Z.ltb_irrefl.
    + rewrite (proj2 (Z.ltb_lt 0 m)) by (unfold m; lia). cbn [andb]. destruct (IH p1 Hp' Hn) as (c & Hc & Hi). fold m in Hi. rewrite Hi. exists (S c). split; [lia|].
      cbn [get_u8s]. rewrite E8. destruct (get_u8s c p1) as [pc vc]. cbn [fst]. do 3 f_equal. destruct (get_u8s n p1) as [pn vn]. cbn [snd be_load] in *.
      rewrite Hl. fold m. apply eq_true_iff_eq. rewrite !Z.ltb_lt. lia.
  - cbn [andb]. exists 1%nat. split; [lia|]. cbn [get_u8s]. rewrite E8. cbn [fst]. do 3 f_equal. destruct (get_u8s n p1) as [pn vn]. cbn [snd be_load] in *.
    rewrite Hl. fold m. apply eq_true_iff_eq. rewrite !Z.ltb_lt. nia.
Qed.

(** * Reduction modulo log 2 *)

(** Rounding is monotone. *)
Lemma round_to_mono n d n' d' :
  0 < d -> 0 < d' -> 0 <= n -> n * d' <= n' * d -> representable n d -> representable n' d' ->
  value (round_to false n d) <= value (round_to false n' d').
Proof.
  intros Hd Hd' Hn Hle Hr Hr'. assert (forall n d, 0 < d -> 0 <= n -> representable n d -> 0 <= value (round_to false n d)) as Hpos.
  { clear. intros n d Hd Hn Hr. assert (0 < 2 ^ 52) by lia. destruct (Z.lt_ge_cases n (2 ^ 52 * d)) as [Hs|Hs]; [rewrite round_to_small by done; vm_compute; congruence|].
    pose proof (round_to_nearest false n d 0 Hd Hs Hr ltac:(constructor; vm_compute; (split || idtac); congruence)) as Hz. cbv iota zeta in Hz.
    change (value 0) with 0 in Hz. set (R := value _) in *. clearbody R. destruct (Z.le_gt_cases 0 R) as [|Hlt]; [done|].
    assert (R * d <= - 1 * d) by (apply Z.mul_le_mono_nonneg_r; lia). lia. }
  assert (0 <= n') as Hn' by (apply (Z.mul_le_mono_pos_r _ _ d Hd); apply Z.le_trans with (n * d'); [nia | exact Hle]). destruct (Z.lt_ge_cases n (2 ^ 52 * d)) as [Hs|Hs]; [rewrite (round_to_small false n d) by done; change (value (bit false * 2 ^ 63)) with 0; now apply Hpos|].
  assert (2 ^ 52 * d' <= n') as Hs'.
  { apply (Z.mul_le_mono_pos_r _ _ d Hd). apply Z.le_trans with (n * d'); [|exact Hle]. replace (2 ^ 52 * d' * d) with (2 ^ 52 * d * d') by ring. apply Z.mul_le_mono_nonneg_r; lia. }
  pose proof (round_to_nearest false n d _ Hd Hs Hr (round_to_ok false n' d' Hd' Hn' Hr')) as H1.
  pose proof (round_to_nearest false n' d' _ Hd' Hs' Hr' (round_to_ok false n d Hd Hn Hr)) as H2. cbv iota zeta in H1, H2.
  set (R := value (round_to false n d)) in *. set (R' := value (round_to false n' d')) in *. destruct (Z.le_gt_cases R R') as [|Hgt]; [done|]. exfalso.
  assert ((R + R') * d <= 2 * n) by nia. assert (2 * n' <= (R + R') * d') by nia.
  assert (n * d' = n' * d) as E by nia. assert (R = R') by (unfold R, R'; f_equal; now apply round_to_ratio). lia.
Qed.

(** The error of rounding. *)
Lemma round_to_error n d : 0 < d -> 0 <= n -> representable n d -> 2 ^ 53 * Z.abs (n - value (round_to false n d) * d) <= n \/ n < 2 ^ 52 * d /\ round_to false n d = 0.
Proof.
  intros Hd Hn Hr. destruct (Z.lt_ge_cases n (2 ^ 52 * d)) as [Hs|Hs]; [right; split; [done | now apply round_to_small]|]. left.
  destruct (round_to_cases false n d 2045 Hd ltac:(lia) (conj Hs (representable_bound n d Hd Hr))) as (k & Hk & [Hb _] & -> & Hm).
  unfold value. rewrite sign_pack, magnitude_pack by lia. assert (0 < 2 ^ k) by (apply Z.pow_pos_nonneg; lia). rewrite Z.pow_add_r in Hb by lia.
  pose proof (round_ne_spec n (d * 2 ^ k) ltac:(nia)) as Hs'. set (m := round_ne _ _) in *. replace (m * 2 ^ k * d) with (m * (d * 2 ^ k)) by ring. lia.
Qed.

(** The multiple of log 2 that is subtracted, and the number the exact remainder is at most. *)
Definition log2_multiple (s : Z) : Z := fpr_mul (fpr_of s) fpr_log2.
Definition next_reduced (s : Z) : Z := log2_multiple (s + 1) + 2.

(** The value of a number, computed by shifting. *)
Definition shift_value (x : Z) : Z :=
  let v := if fpr_exp x =? 0 then 0 else (2 ^ 52 + fpr_man x) .<< (fpr_exp x - 1) in
  if fpr_sign x then - v else v.

Lemma shift_value_spec x : shift_value x = value x.
Proof.
  unfold shift_value, value, magnitude. cbv zeta. pose proof (exp_range x). destruct (Z.eqb_spec (fpr_exp x) 0); [reflexivity|].
  now rewrite Z.shiftl_mul_pow2 by lia.
Qed.

(** What is checked of each quotient [s], of the multiple [y] and of the bound [t]: the product with 1 / log 2 just below the multiple is below [s], the
    product at [next_reduced] is at least [s + 1], the remainder stays below 0.694, the multiple is accurate. *)
Definition quotient_ok (s y t u : Z) : bool :=
  (((s =? 0) && (y =? 0)) ||
   ((0 <? y - 1) && (y <? 2 ^ 63) && (1 <=? fpr_exp (y - 1)) && (1 <=? fpr_exp y) && (fpr_exp y <=? 1100) && (fpr_exp (y - 1) <=? 1100) &&
    (shift_value (fpr_mul (y - 1) fpr_inv_log2) <? s * u))) &&
  ((0 <? t - 1) && (t <? 2 ^ 63) && (1 <=? fpr_exp (t - 1)) && (fpr_exp (t - 1) <=? 1100) && (1 <=? fpr_exp t) && (fpr_exp t <=? 1100) &&
   ((s + 1) * u <=? shift_value (fpr_mul t fpr_inv_log2))) &&
  (10000 * (shift_value t - shift_value y) <=? 6935 * u) && (2 ^ 46 * Z.abs (s * shift_value fpr_log2 - shift_value y) <=? u).

Definition quotient_check (k : nat) : bool :=
  let s := Z.of_nat k in quotient_ok s (log2_multiple s) (next_reduced s) (1 .<< 1074).

Lemma forallb_seq (f : nat -> bool) n k : forallb f (seq 0 n) = true -> (k < n)%nat -> f k = true.
Proof. intros H Hk. rewrite forallb_forall in H. apply H, in_seq. lia. Qed.

Lemma quotients_check_true : forallb quotient_check (seq 0 200) = true.
Proof. vm_cast_no_check (eq_refl true). Qed.

(** A nonnegative number is ordered as its encoding. *)
Lemma positive_ok x : 0 <= x < 2 ^ 63 -> 1 <= fpr_exp x <= 2046 -> fpr_ok x /\ fpr_sign x = false /\ unsigned x = x.
Proof.
  intros Hx He. split; [constructor; [unfold in_width; lia | lia | lia]|]. split; [|apply Z.mod_small; lia].
  assert (in_width 64 x) as Hw by (unfold in_width; lia). pose proof (shr63 x Hw) as E. rewrite Z.shiftr_div_pow2, Z.div_small in E by lia. now destruct (fpr_sign x).
Qed.

Lemma value_order x y : fpr_ok x -> fpr_ok y -> fpr_sign x = false -> fpr_sign y = false -> (value x < value y <-> x < y) /\ (value x <= value y <-> x <= y).
Proof.
  intros Hx Hy Sx Sy. pose proof (magnitude_lt x y Hx Hy) as H. pose proof (magnitude_lt y x Hy Hx) as H'. unfold value. rewrite Sx, Sy.
  destruct (unsigned_split x (fpr_width _ Hx)) as [_ Ex], (unsigned_split y (fpr_width _ Hy)) as [_ Ey]. rewrite Sx in Ex. rewrite Sy in Ey. cbn [bit] in *.
  replace (unsigned x) with x in * by lia. replace (unsigned y) with y in * by lia. lia.
Qed.

(** The scaled operand. *)
Lemma times_inv_log2 x : fpr_ok x -> fpr_sign x = false -> fpr_exp x <= 1100 ->
  representable (magnitude x * magnitude fpr_inv_log2) (2 ^ 1074) /\ fpr_mul x fpr_inv_log2 = round_to false (magnitude x * magnitude fpr_inv_log2) (2 ^ 1074).
Proof.
  intros Hx Sx He. assert (representable (magnitude x * magnitude fpr_inv_log2) (2 ^ 1074)) as Hr.
  { destruct (magnitude_0_exp x) as [E|[Hne _]]; [rewrite (magnitude_exp0 x E); vm_compute; reflexivity|]. rewrite magnitude_mantissa by done.
    pose proof (mantissa_range x). pose proof (exp_range x). assert (2 ^ (fpr_exp x - 1) <= 2 ^ 1099) by (apply Z.pow_le_mono_r; lia).
    pose proof (Z.pow_pos_nonneg 2 (fpr_exp x - 1) ltac:(lia) ltac:(lia)). unfold representable.
    apply Z.le_lt_trans with (2 ^ 53 * 2 ^ 1099 * magnitude fpr_inv_log2); [|vm_compute; reflexivity].
    apply Z.mul_le_mono_nonneg_r; [apply magnitude_nonneg|]. apply Z.mul_le_mono_nonneg; lia. }
  split; [exact Hr|]. rewrite fpr_mul_spec; [|apply Hx | vm_compute; split; congruence | exact Hr]. rewrite Sx. reflexivity.
Qed.

Lemma times_inv_log2_mono x y : fpr_ok x -> fpr_ok y -> fpr_sign x = false -> fpr_sign y = false -> fpr_exp x <= 1100 -> fpr_exp y <= 1100 ->
  x <= y -> value (fpr_mul x fpr_inv_log2) <= value (fpr_mul y fpr_inv_log2).
Proof.
  intros Hx Hy Sx Sy Ex Ey Hle. destruct (times_inv_log2 x Hx Sx Ex) as [Rx ->]. destruct (times_inv_log2 y Hy Sy Ey) as [Ry ->].
  apply (proj2 (value_order x y Hx Hy Sx Sy)) in Hle. unfold value in Hle. rewrite Sx, Sy in Hle. pose proof (magnitude_nonneg x). pose proof (magnitude_nonneg fpr_inv_log2).
  apply round_to_mono; [reflexivity | reflexivity | now apply Z.mul_nonneg_nonneg | | exact Rx | exact Ry].
  apply Z.mul_le_mono_nonneg_r; [vm_compute; congruence|]. now apply Z.mul_le_mono_nonneg_r.
Qed.

Lemma quotient_facts s : 0 <= s < 200 ->
  let y := log2_multiple s in
  let t := next_reduced s in
  ((s = 0 /\ y = 0) \/
   (0 < y - 1 /\ y < 2 ^ 63 /\ 1 <= fpr_exp (y - 1) <= 1100 /\ 1 <= fpr_exp y <= 1100 /\ value (fpr_mul (y - 1) fpr_inv_log2) < s * 2 ^ 1074)) /\
  (0 < t - 1 /\ t < 2 ^ 63 /\ 1 <= fpr_exp (t - 1) <= 1100 /\ 1 <= fpr_exp t <= 1100 /\ (s + 1) * 2 ^ 1074 <= value (fpr_mul t fpr_inv_log2)) /\
  10000 * (value t - value y) <= 6935 * 2 ^ 1074 /\ 2 ^ 46 * Z.abs (s * value fpr_log2 - value y) <= 2 ^ 1074.
Proof.
  intros Hs y t. pose proof (forallb_seq _ _ (Z.to_nat s) quotients_check_true ltac:(lia)) as H. unfold quotient_check, quotient_ok in H. cbv zeta in H.
  rewrite Z2Nat.id in H by lia. rewrite !shift_value_spec, Z.shiftl_1_l in H. fold y t in H.
  rewrite !andb_true_iff, orb_true_iff, !andb_true_iff, !Z.leb_le, !Z.ltb_lt, !Z.eqb_eq in H. clearbody y t. intuition.
Qed.

(** The multiple as a number. *)
Lemma log2_multiple_ok s : 0 <= s < 200 -> fpr_ok (log2_multiple s) /\ fpr_sign (log2_multiple s) = false.
Proof.
  intros Hs. destruct (quotient_facts s Hs) as ([[_ ->]|(H1 & H2 & _ & H3 & _)] & _).
  - split; [constructor; vm_compute; (split || idtac); congruence | reflexivity].
  - destruct (positive_ok (log2_multiple s) ltac:(lia) ltac:(lia)) as (H4 & H5 & _). now split.
Qed.

(** The quotient: how [x] compares with the multiples. *)
Lemma quotient_bounds x s : fpr_ok x -> fpr_sign x = false -> fpr_exp x <= 1100 -> 0 <= s < 200 ->
  s * 2 ^ 1074 <= value (fpr_mul x fpr_inv_log2) < (s + 1) * 2 ^ 1074 ->
  value (log2_multiple s) <= value x <= value (next_reduced s).
Proof.
  intros Hx Sx Ex Hs [Hlo Hhi]. destruct (quotient_facts s Hs) as (Hy & (Ht1 & Ht2 & _ & Ht3 & Ht4) & _). destruct (log2_multiple_ok s Hs) as [Hok Sy].
  destruct (positive_ok (next_reduced s) ltac:(lia) ltac:(lia)) as (Hok' & St & _). split.
  - apply (value_order _ x Hok Hx Sy Sx). destruct (Z.le_gt_cases (log2_multiple s) x) as [|Hlt]; [done|]. exfalso.
    destruct Hy as [[_ E]|(H1 & H2 & H3 & _ & H4)]; [rewrite E in Hlt; pose proof (fpr_width _ Hx); unfold in_width in *; lia|].
    destruct (positive_ok (log2_multiple s - 1) ltac:(lia) ltac:(lia)) as (Hok1 & Sy1 & _).
    pose proof (times_inv_log2_mono x (log2_multiple s - 1) Hx Hok1 Sx Sy1 Ex ltac:(lia) ltac:(lia)). lia.
  - apply (value_order x _ Hx Hok' Sx St). destruct (Z.le_gt_cases x (next_reduced s)) as [|Hlt]; [done|]. exfalso.
    pose proof (times_inv_log2_mono (next_reduced s) x Hok' Hx St Sx ltac:(lia) Ex ltac:(lia)). lia.
Qed.

Lemma exp_bound x e : 1 <= e -> magnitude x < 2 ^ 52 * 2 ^ e -> fpr_exp x <= e.
Proof.
  intros He Hm. destruct (Z.le_gt_cases (fpr_exp x) e) as [|Hgt]; [done|]. exfalso. rewrite magnitude_mantissa in Hm by lia.
  pose proof (mantissa_range x). assert (0 < 2 ^ e) by (apply Z.pow_pos_nonneg; lia).
  assert (2 ^ e <= 2 ^ (fpr_exp x - 1)) by (apply Z.pow_le_mono_r; lia).
  assert (2 ^ 52 * 2 ^ e <= mantissa x * 2 ^ (fpr_exp x - 1)) by (apply Z.mul_le_mono_nonneg; lia). lia.
Qed.

Lemma round_to_sign s n d : 0 < d -> representable n d -> fpr_sign (round_to s n d) = s.
Proof.
  intros Hd Hr. destruct (Z.lt_ge_cases n (2 ^ 52 * d)) as [Hs|Hs]; [rewrite round_to_small by done; apply magnitude_zero|].
  destruct (round_to_cases s n d 2045 Hd ltac:(lia) (conj Hs (representable_bound n d Hd Hr))) as (k & Hk & _ & -> & Hm). now apply sign_pack.
Qed.

(** The quotient by log 2. *)
Lemma quotient_range x : fpr_ok x -> fpr_sign x = false -> value x < 138 * 2 ^ 1074 ->
  fpr_exp x <= 1100 /\ exists s, 0 <= s < 200 /\ i32 (fpr_trunc (fpr_mul x fpr_inv_log2)) = s /\
    s * 2 ^ 1074 <= value (fpr_mul x fpr_inv_log2) < (s + 1) * 2 ^ 1074.
Proof.
  intros Hx Sx Hv. assert (value x = magnitude x) as Em by (unfold value; now rewrite Sx). pose proof (magnitude_nonneg x) as M0.
  assert (fpr_exp x <= 1100) as Ex.
  { apply exp_bound; [lia|]. rewrite <- Em. apply Z.lt_trans with (138 * 2 ^ 1074); [exact Hv | reflexivity]. }
  split; [exact Ex|]. destruct (times_inv_log2 x Hx Sx Ex) as [Hr EP].
  assert (0 <= magnitude x * magnitude fpr_inv_log2) as Hn by (apply Z.mul_nonneg_nonneg; [exact M0 | apply magnitude_nonneg]).
  assert (0 < 2 ^ 1074) as HT by reflexivity. pose proof (round_to_ok false _ _ HT Hn Hr) as Hok. pose proof (round_to_sign false _ _ HT Hr) as Hsign. rewrite <- EP in Hok, Hsign.
  assert (value (fpr_mul x fpr_inv_log2) < 200 * 2 ^ 1074) as Hub.
  { pose proof (positive_ok (fpr_of 138) ltac:(by_decide) ltac:(by_decide)) as (H1 & H2 & _).
    apply Z.le_lt_trans with (value (fpr_mul (fpr_of 138) fpr_inv_log2)); [|vm_compute; reflexivity].
    apply times_inv_log2_mono; [exact Hx | exact H1 | exact Sx | exact H2 | exact Ex | by_decide |].
    apply (value_order x _ Hx H1 Sx H2). apply Z.lt_le_incl, Z.lt_le_trans with (138 * 2 ^ 1074); [exact Hv | vm_compute; congruence]. }
  assert (value (fpr_mul x fpr_inv_log2) = magnitude (fpr_mul x fpr_inv_log2)) as Em' by (unfold value; now rewrite Hsign).
  pose proof (magnitude_nonneg (fpr_mul x fpr_inv_log2)) as M0'. set (P := fpr_mul x fpr_inv_log2) in *. clearbody P. clear EP Hn Hr Hv.
  assert (fpr_exp P <= 1085) as EP by (apply exp_bound; [lia|]; rewrite <- Em'; apply Z.lt_trans with (200 * 2 ^ 1074); [exact Hub | reflexivity]).
  rewrite fpr_trunc_spec by done. rewrite Em' in *. rewrite Z.quot_div_nonneg by (reflexivity || exact M0').
  set (u := 2 ^ 1074) in *. clearbody u.
  assert (0 <= magnitude P / u < 200) as Hq by (split; [apply Z.div_pos | apply Z.div_lt_upper_bound]; lia).
  exists (magnitude P / u). split; [exact Hq|]. split; [apply sext_small; lia|].
  pose proof (Z.div_mod (magnitude P) u ltac:(lia)). pose proof (Z.mod_pos_bound (magnitude P) u HT). lia.
Qed.

Lemma ber_reduce_quotient x s : i32 (fpr_trunc (fpr_mul x fpr_inv_log2)) = s -> ber_reduce x = (s, fpr_sub x (log2_multiple s)).
Proof. intros E. unfold ber_reduce, log2_multiple. now rewrite E. Qed.

(** [BerExp] reduces [x] modulo log 2: the remainder is between 0 and 0.694 and the identity is accurate. *)
Lemma ber_reduce_spec x : fpr_ok x -> fpr_sign x = false -> value x < 138 * 2 ^ 1074 ->
  let '(s, r) := ber_reduce x in
  0 <= s < 200 /\ fpr_ok r /\ fpr_sign r = false /\ 0 <= 1000 * value r <= 694 * 2 ^ 1074 /\
  2 ^ 45 * Z.abs (value x - (s * value fpr_log2 + value r)) <= 2 ^ 1074.
Proof.
  intros Hx Sx Hv. destruct (quotient_range x Hx Sx Hv) as (Ex & s & Hs & Es & Hb). rewrite (ber_reduce_quotient x s Es).
  pose proof (quotient_bounds x s Hx Sx Ex Hs Hb) as Hx2. destruct (quotient_facts s Hs) as (_ & _ & Hw & Ha). destruct (log2_multiple_ok s Hs) as [Hok Sy].
  split; [exact Hs|]. set (y := log2_multiple s) in *. set (t := next_reduced s) in *. clearbody y t. clear Hb Es.
  assert (representable (value x - value y) 1) as Hr.
  { unfold representable. apply Z.lt_trans with (2 ^ 1074); [|vm_compute; reflexivity]. assert (0 < 2 ^ 1074) by reflexivity.
    generalize dependent (2 ^ 1074). intros u. lia. }
  pose proof (fpr_sub_spec x y Hx Hok) as Hsub. cbv zeta in Hsub. rewrite Sx, andb_false_r, orb_false_r in Hsub.
  rewrite Z.abs_eq, (proj2 (Z.ltb_ge _ 0)) in Hsub by lia. specialize (Hsub Hr). rewrite Hsub.
  set (v := value x - value y) in *. assert (0 <= v) as Hv0 by (unfold v; lia).
  split; [now apply round_to_ok|]. pose proof (round_to_sign false v 1 ltac:(lia) Hr) as Hsr. split; [exact Hsr|].
  assert (0 <= value (round_to false v 1)) as Hr0 by (unfold value; rewrite Hsr; apply magnitude_nonneg).
  assert (2 ^ 100 < 2 ^ 1074) as Hbig by reflexivity.
  destruct (round_to_error v 1 ltac:(lia) Hv0 Hr) as [He|[He ->]].
  - rewrite Z.mul_1_r in He. set (r := value (round_to false v 1)) in *. clearbody r. clear Hr Hsub Hv Hsr.
    assert (10000 * v <= 6935 * 2 ^ 1074) as Hv1 by (unfold v; lia). generalize dependent (2 ^ 1074). intros u. intros.
    assert (value x = v + value y) as E by (unfold v; lia). rewrite E. clearbody v. lia.
  - change (value 0) with 0. clear Hr Hsub Hv Hsr. generalize dependent (2 ^ 1074). intros u. intros.
    assert (value x = v + value y) as E by (unfold v; lia). rewrite E. clearbody v. lia.
Qed.

(** * The acceptance threshold *)

Lemma fixed64_bounds x : fpr_ok x -> fpr_sign x = false -> fpr_exp x <= 1022 ->
  fixed64 x * 2 ^ 1074 <= value x * 2 ^ 64 < (fixed64 x + 2) * 2 ^ 1074.
Proof.
  intros Hx Sx Ex. unfold fixed64. assert (0 < 2 ^ 1074) as HT by reflexivity. set (u := 2 ^ 1074) in *. clearbody u.
  pose proof (Z.div_mod (value x * 2 ^ 63) u ltac:(lia)). pose proof (Z.mod_pos_bound (value x * 2 ^ 63) u HT). lia.
Qed.

(** For a scaling of at least one half the exponential is positive. *)
Lemma expm_positive r ccs : fpr_ok r -> fpr_sign r = false -> 1000 * value r <= 694 * 2 ^ 1074 ->
  fpr_ok ccs -> fpr_sign ccs = false -> fpr_exp ccs = 1022 -> fpr_exp r <= 1022 /\ 0 < fpr_expm_p63 r ccs <= 2 ^ 63.
Proof.
  intros Hr Sr Vr Hc Sc Ec. assert (value r = magnitude r) as Er by (unfold value; now rewrite Sr).
  assert (fpr_exp r <= 1022) as Xr.
  { apply exp_bound; [lia|]. rewrite <- Er. change 1074 with (52 + 1022) in Vr. rewrite (Z.pow_add_r 2 52 1022) in Vr by lia.
    assert (0 < 2 ^ 1022) by reflexivity. generalize dependent (2 ^ 1022). intros u. lia. }
  split; [exact Xr|]. destruct (fpr_expm_p63_spec r ccs Hr Sr Xr Hc Sc ltac:(lia)) as [-> Hb]. split; [|lia].
  destruct (fixed64_read r Hr Sr Xr) as [_ Rz]. pose proof (fixed64_bounds r Hr Sr Xr) as Bz. pose proof (fixed64_bounds ccs Hc Sc ltac:(lia)) as Bc.
  assert (2 ^ 73 * 2 ^ 1000 <= value ccs) as Vc.
  { unfold value. rewrite Sc, magnitude_mantissa, Ec by lia. pose proof (mantissa_range ccs). change (2 ^ (1022 - 1)) with (2 ^ 21 * 2 ^ 1000).
    assert (0 < 2 ^ 1000) by reflexivity. generalize dependent (2 ^ 1000). intros u. nia. }
  change (2 ^ 1074) with (2 ^ 74 * 2 ^ 1000) in *. assert (0 < 2 ^ 1000) as HT by reflexivity. set (u := 2 ^ 1000) in *. clearbody u.
  set (z := fixed64 r) in *. set (c := fixed64 ccs) in *. assert (2 ^ 63 - 2 < c) as Hc2 by nia. assert (1000 * z <= 694 * 2 ^ 64) as Hz by nia.
  pose proof (expm_high_range z 11 Rz ltac:(lia)) as H11. change (expm_coefs !!! 11%nat) with 0x7FFFFFFFFFFF4800 in H11.
  assert (2 ^ 61 <= expm_high z 12) as Hy.
  { change (expm_high z 12) with (2 ^ 63 - z * expm_high z 11 / 2 ^ 64). assert (z * expm_high z 11 / 2 ^ 64 <= 3 * 2 ^ 61); [|lia].
    apply Z.div_le_upper_bound; [lia|]. set (y := expm_high z 11) in *. clearbody y z. nia. }
  assert (1 <= c * expm_high z 12 / 2 ^ 64); [|lia]. apply Z.div_le_lower_bound; [lia|]. nia.
Qed.

Lemma ber_threshold_spec x ccs s r : ber_reduce x = (s, r) -> 0 <= s < 200 -> 0 < fpr_expm_p63 r ccs <= 2 ^ 63 ->
  ber_threshold x ccs = (2 * fpr_expm_p63 r ccs - 1) / 2 ^ Z.min s 63 /\ 0 <= ber_threshold x ccs < 2 ^ 64.
Proof.
  intros E Hs He. unfold ber_threshold. rewrite E. cbv zeta. set (e := fpr_expm_p63 r ccs) in *. clearbody e.
  rewrite (wrap_small 32 s) by (unfold in_width; lia). assert (u32 (63 - s) .>> 31 = bit (63 <? s)) as ->.
  { rewrite Z.shiftr_div_pow2 by lia. destruct (Z.ltb_spec 63 s); cbn [bit].
    - assert (u32 (63 - s) = 63 - s + 2 ^ 32) as -> by word_lia. symmetry. apply (Z.div_unique _ _ _ (63 - s + 2 ^ 31)); lia.
    - rewrite wrap_small by (unfold in_width; lia). apply Z.div_small. lia. }
  rewrite select_on by (lia || (unfold in_width; lia)). assert (i32 (if 63 <? s then 63 else s) = Z.min s 63) as ->.
  { destruct (Z.ltb_spec 63 s); [rewrite Z.min_r by lia; reflexivity | rewrite Z.min_l, sext_small by lia; reflexivity]. }
  rewrite (Z.shiftl_mul_pow2 e), <- Z.add_opp_r, wrap_add_l, Z.add_opp_r by lia.
  rewrite Z.shiftr_div_pow2 by lia. replace (e * 2 ^ 1 - 1) with (2 * e - 1) by lia.
  rewrite wrap_small by (unfold in_width; lia). split; [reflexivity|]. assert (0 < 2 ^ Z.min s 63) by (apply Z.pow_pos_nonneg; lia).
  split; [apply Z.div_pos; lia | apply Z.div_lt_upper_bound; nia].
Qed.

(** * The sampler *)

Lemma ber_exp_total p x ccs : prng_ok p ->
  exists c, (1 <= c <= 8)%nat /\
    BerExp p x ccs = Some ((get_u8s c p).1, bit (be_load (get_u8s 8 p).2 <? ber_threshold x ccs mod 2 ^ 64)).
Proof.
  intros Hp. unfold BerExp. destruct (ber_loop_spec 7 p (ber_threshold x ccs) Hp) as (c & Hc & E).
  - unfold ber_threshold. destruct (ber_reduce x) as [s r]. cbv zeta. apply Z.shiftr_nonneg. apply wrap_range. lia.
  - exists c. split; [exact Hc | exact E].
Qed.

(** A candidate is between -18 and 19 and leaves the generator well formed. *)
Lemma sampler_try_total p r dss ccs : prng_ok p ->
  exists p' z keep, sampler_try p r dss ccs = Some (p', z, keep) /\ prng_ok p' /\ -18 <= z <= 19.
Proof.
  intros Hp. unfold sampler_try. destruct (gaussian0_spec p Hp) as (Hp1 & Hv & Hz). pose proof (cdt_count_interval (random72 p) ltac:(lia)) as [Hr _].
  rewrite <- Hz in Hr. destruct (gaussian0_sampler p) as [p1 z0]. cbn [fst snd] in *. destruct (get_u8_width p1 Hp1) as [Hp2 Hb].
  destruct (prng_get_u8 p1) as [p2 b]. cbn [fst snd] in *. cbv zeta. destruct (ber_exp_total p2 (fpr_sub (fpr_mul (fpr_sqr (fpr_sub
    (fpr_of ((b .& 1) + (((b .& 1) .<< 1) - 1) * z0)) r)) dss) (fpr_mul (fpr_of (z0 * z0)) fpr_inv_2sqrsigma0)) ccs Hp2) as (c & _ & ->).
  cbn [mbind option_bind]. eexists _, _, _. split; [reflexivity|]. split; [apply (get_u8s_width c p2 Hp2)|].
  change (b .& 1) with (b .& Z.ones 1). rewrite Z.land_ones, Z.shiftl_mul_pow2 by lia. change (2 ^ 1) with 2. pose proof (Z.mod_pos_bound b 2 ltac:(lia)).
  assert (b mod 2 = 0 \/ b mod 2 = 1) as [->| ->] by lia; lia.
Qed.

(** The generator after [n] candidates, and the next candidate. *)
Fixpoint after_tries (n : nat) (p : prng) (r dss ccs : Z) : prng :=
  match n with
  | O => p
  | S n => match sampler_try p r dss ccs with Some (p, _, _) => after_tries n p r dss ccs | None => p end
  end.

Definition candidate (n : nat) (p : prng) (r dss ccs : Z) : option (prng * Z * Z) := sampler_try (after_tries n p r dss ccs) r dss ccs.

Definition rejected (x : option (prng * Z * Z)) : Prop := match x with Some (_, _, keep) => keep = 0 | None => True end.

(** The loop returns the first candidate that is kept. *)
Lemma sampler_loop_spec fuel : forall p s r dss ccs, prng_ok p ->
  match sampler_loop fuel p s r dss ccs with
  | Some (p', v) => exists n z keep, (n < fuel)%nat /\ candidate n p r dss ccs = Some (p', z, keep) /\ keep <> 0 /\
      (forall k, (k < n)%nat -> rejected (candidate k p r dss ccs)) /\ v = s + z /\ -18 <= z <= 19 /\ prng_ok p'
  | None => forall k, (k < fuel)%nat -> rejected (candidate k p r dss ccs)
  end.
Proof.
  induction fuel as [|fuel IH]; intros p s r dss ccs Hp; cbn [sampler_loop]; [lia|].
  destruct (sampler_try_total p r dss ccs Hp) as (p1 & z & keep & E & Hp1 & Hz). rewrite E. cbn [mbind option_bind].
  assert (forall k, candidate (S k) p r dss ccs = candidate k p1 r dss ccs) as Hnext by (intros k; unfold candidate; cbn [after_tries]; now rewrite E).
  destruct (Z.eqb_spec keep 0) as [->|Hk].
  - specialize (IH p1 s r dss ccs Hp1). destruct (sampler_loop fuel p1 s r dss ccs) as [[p' v]|].
    + destruct IH as (n & z' & keep & Hn & Hc & Hk & Hrej & Hv & Hz' & Hp'). exists (S n), z', keep. rewrite Hnext. split; [lia|]. split_and!; try done; [|lia..].
      intros [|k] Hlt; [unfold candidate; cbn [after_tries]; now rewrite E | rewrite Hnext; apply Hrej; lia].
    + intros [|k] Hlt; [unfold candidate; cbn [after_tries]; now rewrite E | rewrite Hnext; apply IH; lia].
  - exists 0%nat, z, keep. split; [lia|]. split; [exact E|]. split_and!; try done; lia.
Qed.

(** Integers of at most 53 bits are converted exactly. *)
Lemma fpr_of_exact i : - 2 ^ 53 < i < 2 ^ 53 -> fpr_ok (fpr_of i) /\ value (fpr_of i) = i * 2 ^ 1074.
Proof.
  intros Hi. rewrite fpr_of_spec by lia. destruct (Z.eq_dec i 0) as [->|Hne]; [split; [constructor; vm_compute; (split || idtac); congruence | reflexivity]|].
  set (j := 52 - Z.log2 (Z.abs i)). pose proof (Z.log2_spec (Z.abs i) ltac:(lia)) as [L1 L2]. pose proof (Z.log2_nonneg (Z.abs i)).
  assert (Z.log2 (Z.abs i) < 53) by (apply Z.log2_lt_pow2; lia).
  assert (Z.abs i * 2 ^ 1074 = Z.abs i * 2 ^ j * 2 ^ (1074 - j)) as ->.
  { rewrite <- Z.mul_assoc, <- Z.pow_add_r by lia. do 2 f_equal. lia. }
  assert (2 ^ 52 = 2 ^ j * 2 ^ Z.log2 (Z.abs i)) as E1 by (rewrite <- Z.pow_add_r by lia; f_equal; lia).
  assert (2 ^ 53 = 2 ^ j * 2 ^ Z.succ (Z.log2 (Z.abs i))) as E2 by (rewrite <- Z.pow_add_r by lia; f_equal; lia).
  assert (0 < 2 ^ j) by (apply Z.pow_pos_nonneg; lia). assert (2 ^ 52 <= Z.abs i * 2 ^ j < 2 ^ 53) as Hm by nia.
  rewrite round_to_exact by lia. split; [apply pack_ok; lia|]. unfold value. rewrite sign_pack, magnitude_pack by lia.
  assert (Z.abs i * 2 ^ j * 2 ^ (1074 - j) = Z.abs i * 2 ^ 1074) as -> by (rewrite <- Z.mul_assoc, <- Z.pow_add_r by lia; do 2 f_equal; lia).
  destruct (Z.ltb_spec i 0); lia.
Qed.

Lemma value_one : value (round_to false (2 ^ 1074) 1) = 2 ^ 1074.
Proof. vm_cast_no_check (eq_refl (2 ^ 1074)). Qed.

Lemma representable_one : representable (2 ^ 1074) 1.
Proof. unfold representable. apply Z.ltb_lt. vm_cast_no_check (eq_refl true). Qed.

Lemma round_fraction v (b : bool) : 0 <= v <= 2 ^ 1074 ->
  let r := round_to ((v <? 0) || ((v =? 0) && b)) v 1 in fpr_ok r /\ 0 <= value r <= 2 ^ 1074.
Proof.
  intros [Hv0 Hv1] r. pose proof value_one as H1. pose proof representable_one as R1. set (u := 2 ^ 1074) in *. clearbody u.
  assert (representable v 1) as Hr by (unfold representable in *; apply Z.le_lt_trans with u; assumption).
  unfold r. clear r. rewrite (proj2 (Z.ltb_ge v 0)) by lia. cbn [orb]. destruct (Z.eqb_spec v 0) as [->|Hne]; cbn [andb].
  - rewrite round_to_small by lia. destruct b; (split; [constructor; vm_compute; (split || idtac); congruence|]);
      (destruct (magnitude_zero true) as [Mt _], (magnitude_zero false) as [Mf _]; unfold value; rewrite ?Mt, ?Mf; destruct (fpr_sign _); lia).
  - split; [exact (round_to_ok false v 1 ltac:(lia) Hv0 Hr)|]. split.
    + unfold value. rewrite (round_to_sign false v 1 ltac:(lia) Hr). apply magnitude_nonneg.
    + rewrite <- H1 at 1. apply round_to_mono; (assumption || lia).
Qed.

(** The centre is split into an integer and a fraction between 0 and 1; 1 is reached, because the difference
    is rounded. *)
Lemma sampler_centre mu : fpr_ok mu -> fpr_exp mu <= 1052 ->
  let s := i32 (fpr_floor mu) in
  let r := fpr_sub mu (fpr_of s) in
  s = fpr_floor mu /\ s * 2 ^ 1074 <= value mu <= (s + 1) * 2 ^ 1074 /\ - 2 ^ 30 - 1 <= s < 2 ^ 30 /\
  fpr_ok r /\ 0 <= value r <= 2 ^ 1074.
Proof.
  intros Hmu Emu s r. pose proof (fpr_floor_spec mu Hmu ltac:(lia)) as Hf.
  pose proof (small_magnitude mu 33 ltac:(lia) ltac:(lia)) as Hb. pose proof (magnitude_nonneg mu) as M0.
  assert (0 < 2 ^ 1074) as HT by reflexivity.
  assert (fpr_floor mu * 2 ^ 1074 <= value mu <= (fpr_floor mu + 1) * 2 ^ 1074 /\ - 2 ^ 30 - 1 <= fpr_floor mu < 2 ^ 30) as [Hfl Hrange].
  { rewrite Hf. destruct (Z.eqb_spec mu (2 ^ 63)) as [->|Hne].
    - change (value (2 ^ 63)) with 0. generalize dependent (2 ^ 1074). intros; lia.
    - assert (- 2 ^ 30 * 2 ^ 1074 <= value mu < 2 ^ 30 * 2 ^ 1074) as Hv.
      { unfold value. generalize dependent (2 ^ 1074). intros. destruct (fpr_sign mu); lia. }
      clear Hf Hb. set (u := 2 ^ 1074) in *. clearbody u. pose proof (Z.div_mod (value mu) u ltac:(lia)). pose proof (Z.mod_pos_bound (value mu) u HT).
      split; [lia|]. split; [|apply Z.div_lt_upper_bound; lia]. apply Z.le_trans with (- 2 ^ 30); [lia | apply Z.div_le_lower_bound; lia]. }
  assert (s = fpr_floor mu) as Es by (apply sext_small; lia). rewrite <- Es in *. split; [done|]. split; [exact Hfl|]. split; [exact Hrange|].
  destruct (fpr_of_exact s ltac:(lia)) as [Hok Hval]. pose proof (fpr_sub_spec mu (fpr_of s) Hmu Hok) as Hsub. cbv zeta in Hsub. rewrite Hval in Hsub. fold r in Hsub.
  set (v := value mu - s * 2 ^ 1074) in *. assert (0 <= v <= 2 ^ 1074) as Hv by (unfold v; generalize dependent (2 ^ 1074); intros; lia).
  rewrite Z.abs_eq in Hsub by lia. assert (representable v 1) as Hr by (unfold representable; apply Z.le_lt_trans with (2 ^ 1074); [lia | vm_compute; reflexivity]).
  specialize (Hsub Hr). rewrite Hsub. exact (round_fraction v _ Hv).
Qed.

(** C28 (functional).  The half-Gaussian sampler is inversion of its table: a call takes 72 random bits [v] from the generator, and
    the comparison by limbs with borrows returns the [k] such that [v] is below row [k - 1] of the table and not below
    row [k]; with uniform bits each [k] has probability exactly (row [k - 1] - row [k]) / 2^72. *)
Theorem gaussian0_correct (p : prng) :
  prng_ok p ->
  let '(p', z) := gaussian0_sampler p in
  prng_ok p' /\ 0 <= random72 p < 2 ^ 72 /\ 0 <= z <= 18 /\
  forall k : nat, (k <= 18)%nat -> z = Z.of_nat k <-> (k = 0%nat \/ random72 p < cdt (k - 1)) /\ (k = 18%nat \/ cdt k <= random72 p).
Proof.
  intros Hp. destruct (gaussian0_spec p Hp) as (H1 & H2 & H3). destruct (cdt_count_interval (random72 p) ltac:(lia)) as [H4 H5].
  rewrite <- H3 in *. destruct (gaussian0_sampler p) as [p' z]. cbn [fst snd] in *. auto.
Qed.

(** A generator whose first bytes are zero. *)
Definition zero_generator : prng := mk_prng (replicate 512 0) 0 (replicate 64 0).

Lemma gaussian0_correct_witness : prng_ok zero_generator /\ (gaussian0_sampler zero_generator).2 = 18.
Proof.
  assert (prng_ok zero_generator) as H.
  { constructor; [reflexivity | apply Forall_replicate; unfold in_width; lia | cbn; lia | reflexivity | apply Forall_replicate; unfold in_width; lia]. }
  split; [exact H|]. pose proof (gaussian0_correct zero_generator H) as G. destruct (gaussian0_sampler zero_generator) as [p' z].
  cbn [snd]. destruct G as (_ & _ & _ & G). apply (G 18%nat ltac:(lia)). split; [right; vm_compute; reflexivity | now left].
Defined.

(** C24 (functional).  The Bernoulli trial.  For [0 <= x < 138] and a scaling [ccs] in [1/2, 1), [BerExp] reduces
    [x] to [s log 2 + r] with [0 <= r <= 0.694], up to 2^-45; the fixed-point exponential [E] of [r], scaled by
    [ccs], is evaluated without overflow and to twelve units by the polynomial, the units being those of a 64-bit
    word in which the code scales values by 2^63, that is twelve times 2^-63 of the value; the threshold is
    [2 E - 1] shifted right by [min(s, 63)]; and the trial always returns, after at most eight random bytes, 1
    exactly when the eight bytes ahead, read as a big-endian number, are below the threshold. *)
Theorem ber_exp_correct (p : prng) (x ccs : Z) :
  prng_ok p -> fpr_ok x -> fpr_sign x = false -> value x < 138 * 2 ^ 1074 ->
  fpr_ok ccs -> fpr_sign ccs = false -> fpr_exp ccs = 1022 ->
  let '(s, r) := ber_reduce x in
  let e := fpr_expm_p63 r ccs in
  let y := expm_high (fixed64 r) 12 in
  (0 <= s < 200 /\ 0 <= 1000 * value r <= 694 * 2 ^ 1074 /\ 2 ^ 45 * Z.abs (value x - (s * value fpr_log2 + value r)) <= 2 ^ 1074) /\
  (e = fixed64 ccs * y / 2 ^ 64 /\ 0 < e <= 2 ^ 63 /\ Z.abs (y * 2 ^ 768 - expm_exact (fixed64 r) 12) <= 12 * 2 ^ 768) /\
  ber_threshold x ccs = (2 * e - 1) / 2 ^ Z.min s 63 /\
  exists c, (1 <= c <= 8)%nat /\ BerExp p x ccs = Some ((get_u8s c p).1, bit (be_load (get_u8s 8 p).2 <? ber_threshold x ccs)).
Proof.
  intros Hp Hx Sx Vx Hc Sc Ec. pose proof (ber_reduce_spec x Hx Sx Vx) as Hred. destruct (ber_reduce x) as [s r] eqn:E.
  destruct Hred as (Hs & Hr & Sr & Vr & Ha). cbv zeta. destruct (expm_positive r ccs Hr Sr (proj2 Vr) Hc Sc Ec) as [Xr He].
  destruct (fpr_expm_p63_spec r ccs Hr Sr Xr Hc Sc ltac:(lia)) as [Hexp _]. destruct (fixed64_read r Hr Sr Xr) as [_ Rz].
  pose proof (expm_high_error (fixed64 r) 12 Rz ltac:(lia)) as Herr. replace (64 * Z.of_nat 12) with 768 in Herr by reflexivity.
  replace (Z.of_nat 12) with 12 in Herr by reflexivity.
  destruct (ber_threshold_spec x ccs s r E Hs He) as [Ht Hw]. split; [exact (conj Hs (conj Vr Ha))|].
  split; [split; [exact Hexp|]; split; [exact He | exact Herr]|]. split; [exact Ht|].
  destruct (ber_exp_total p x ccs Hp) as (c & Hcc & Hb). rewrite Z.mod_small in Hb by exact Hw. exists c. exact (conj Hcc Hb).
Qed.

(** With [x = 1/2] and scaling 3/4 the zero bytes are below the threshold. *)
Lemma ber_exp_correct_witness :
  prng_ok zero_generator /\ fpr_ok 4602678819172646912 /\ fpr_ok 4604930618986332160 /\
  exists c, (1 <= c <= 8)%nat /\
    BerExp zero_generator 4602678819172646912 4604930618986332160 = Some ((get_u8s c zero_generator).1, 1).
Proof.
  assert (prng_ok zero_generator) as H.
  { constructor; [reflexivity | apply Forall_replicate; unfold in_width; lia | cbn; lia | reflexivity | apply Forall_replicate; unfold in_width; lia]. }
  assert (fpr_ok 4602678819172646912) as H1 by (constructor; vm_compute; (split || idtac); congruence).
  assert (fpr_ok 4604930618986332160) as H2 by (constructor; vm_compute; (split || idtac); congruence).
  split; [exact H|]. split; [exact H1|]. split; [exact H2|].
  pose proof (ber_exp_correct zero_generator 4602678819172646912 4604930618986332160 H H1 eq_refl ltac:(vm_compute; reflexivity) H2 eq_refl eq_refl) as G.
  destruct (ber_reduce 4602678819172646912) as [s r]. destruct G as (_ & _ & _ & c & Hc & Hb). exists c. split; [exact Hc|].
  rewrite Hb. assert ((be_load (get_u8s 8 zero_generator).2 <? ber_threshold 4602678819172646912 4604930618986332160) = true) as -> by (vm_compute; reflexivity).
  reflexivity.
Defined.

(** C27 (functional).  The sampler.  The centre is split into its floor [s] and a rest [r] between 0 and 1, both ends included; the loop
    returns [s + z] for the first candidate [z] that [BerExp] keeps, with [-18 <= z <= 19], it returns within [fuel]
    rounds exactly when one of the first [fuel] candidates is kept, and the generator stays well formed. *)
Theorem sampler_correct (fuel : nat) (spc : sampler_context) (mu isigma : Z) :
  prng_ok (spc_p spc) -> fpr_ok mu -> fpr_exp mu <= 1052 ->
  let s := fpr_floor mu in
  let r := fpr_sub mu (fpr_of s) in
  let try n := candidate n (spc_p spc) r (fpr_half (fpr_sqr isigma)) (fpr_mul isigma (sigma_min spc)) in
  (s * 2 ^ 1074 <= value mu <= (s + 1) * 2 ^ 1074 /\ fpr_ok r /\ 0 <= value r <= 2 ^ 1074) /\
  match sampler fuel spc mu isigma with
  | Some (spc', v) => exists n z keep, (n < fuel)%nat /\ try n = Some (spc_p spc', z, keep) /\ keep <> 0 /\
      (forall k, (k < n)%nat -> rejected (try k)) /\ v = s + z /\ -18 <= z <= 19 /\ - 2 ^ 31 <= v < 2 ^ 31 /\
      prng_ok (spc_p spc') /\ sigma_min spc' = sigma_min spc
  | None => forall k, (k < fuel)%nat -> rejected (try k)
  end.
Proof.
  intros Hp Hmu Emu s r try. destruct (sampler_centre mu Hmu Emu) as (Es & Hv & Hs & Hr & Hr01). cbv zeta in *. rewrite Es in Hv, Hs, Hr, Hr01.
  split; [exact (conj Hv (conj Hr Hr01))|]. unfold sampler. cbv zeta. rewrite Es. fold s. fold r.
  pose proof (sampler_loop_spec fuel (spc_p spc) s r (fpr_half (fpr_sqr isigma)) (fpr_mul isigma (sigma_min spc)) Hp) as H.
  destruct (sampler_loop fuel _ _ _ _ _) as [[p' v]|]; cbn [mbind option_bind]; [|exact H].
  destruct H as (n & z & keep & Hn & Hc & Hk & Hrej & -> & Hz & Hp'). exists n, z, keep. cbn [spc_p sigma_min]. unfold s in *.
  split_and!; try done; lia.
Qed.

(** The centre -2^-60: the rest is rounded to 1. *)
Example sampler_rest_one : fpr_floor 13560830983399768064 = -1 /\ fpr_sub 13560830983399768064 (fpr_of (-1)) = fpr_of 1.
Proof. vm_compute. split; reflexivity. Qed.

(** Sigma is 1.5 and the centre 2.5; the zero generator gives 18, a candidate that the trial rejects or keeps. *)
Lemma sampler_correct_witness :
  let spc := mk_sampler_context zero_generator (fpr_sigma_min !!! 9%nat) in
  fpr_ok 4612811918334230528 /\ value 4612811918334230528 = 5 * 2 ^ 1073 /\
  exists spc' v, sampler 40 spc 4612811918334230528 4604180019048437077 = Some (spc', v) /\ - 16 <= v <= 21.
Proof.
  assert (prng_ok zero_generator) as H.
  { constructor; [reflexivity | apply Forall_replicate; unfold in_width; lia | cbn; lia | reflexivity | apply Forall_replicate; unfold in_width; lia]. }
  assert (fpr_ok 4612811918334230528) as H1 by (constructor; vm_compute; (split || idtac); congruence).
  intros spc. split; [exact H1|]. split; [vm_compute; reflexivity|].
  pose proof (sampler_correct 40 spc 4612811918334230528 4604180019048437077 H H1 ltac:(vm_compute; congruence)) as [_ G].
  destruct (sampler 40 spc 4612811918334230528 4604180019048437077) as [[spc' v]|] eqn:E.
  - exists spc', v. split; [reflexivity|]. destruct G as (n & z & keep & _ & _ & _ & _ & -> & Hz & _).
    change (fpr_floor 4612811918334230528) with 2. lia.
  - exfalso. revert E. vm_compute. discriminate.
Defined.
