(* ===== verification/Modp.v ===== *)
(** Modp: arithmetic modulo the small primes of [keygen.c] (31 bits), in Montgomery form. *)

From Stdlib Require Import ZArith Lia Zpow_facts.
From stdpp Require Import base numbers list.
From S2P Require Import Prelude NumberTheory.

Definition modp_set (x p : Z) : Z :=
  let w := u32 x in
  u32 (w + (p .& u32 (- (w .>> 31)))).

Definition modp_norm (x p : Z) : Z := i32 (u32 (x - (p .& u32 ((u32 (x - (u32 (p + 1) .>> 1)) .>> 31) - 1)))).

Definition modp_ninv31 (p : Z) : Z :=
  let y := u32 (2 - p) in
  let y := u32 (y * u32 (2 - u32 (p * y))) in
  let y := u32 (y * u32 (2 - u32 (p * y))) in
  let y := u32 (y * u32 (2 - u32 (p * y))) in
  let y := u32 (y * u32 (2 - u32 (p * y))) in
  0x7FFFFFFF .& u32 (- y).

Definition modp_R (p : Z) : Z := u32 (u32 (1 .<< 31) - p).

Definition modp_add (a b p : Z) : Z :=
  let d := u32 (u32 (a + b) - p) in
  u32 (d + (p .& u32 (- (d .>> 31)))).

Definition modp_sub (a b p : Z) : Z :=
  let d := u32 (a - b) in
  u32 (d + (p .& u32 (- (d .>> 31)))).

Definition modp_montymul (a b p p0i : Z) : Z :=
  let z := u64 (a * b) in
  let w := u64 ((u64 (z * p0i) .& 0x7FFFFFFF) * p) in
  let d := u32 (u32 (u64 (z + w) .>> 31) - p) in
  u32 (d + (p .& u32 (- (d .>> 31)))).

Definition modp_R2 (p p0i : Z) : Z :=
  let z := modp_R p in
  let z := modp_add z z p in
  let z := modp_montymul z z p p0i in
  let z := modp_montymul z z p p0i in
  let z := modp_montymul z z p p0i in
  let z := modp_montymul z z p p0i in
  let z := modp_montymul z z p p0i in
  u32 (z + (p .& u32 (- (z .& 1)))) .>> 1.

(** [for (i = 0; (1U << i) <= x; i ++)]; 32 turns exhaust the bits of [x]. *)
Fixpoint Rx_loop (fuel : nat) (i x p p0i r z : Z) : option Z :=
  match fuel with
  | O => None
  | S fuel =>
      if u32 (1 .<< i) <=? x then
        let z := if negb ((x .& u32 (1 .<< i)) =? 0) then modp_montymul z r p p0i else z in
        let r := modp_montymul r r p p0i in
        Rx_loop fuel (i + 1) x p p0i r z
      else Some z
  end.

Definition modp_Rx (x p p0i R2 : Z) : option Z :=
  let x := u32 (x - 1) in
  Rx_loop 32 0 x p p0i R2 (modp_R p).

Definition modp_div (a b p p0i R : Z) : Z :=
  let e := u32 (p - 2) in
  let z := for_down 31 (fun i z =>
    let z := modp_montymul z z p p0i in
    let z2 := modp_montymul z b p p0i in
    z .^ ((z .^ z2) .& u32 (- ((e .>> Z.of_nat i) .& 1)))) R in
  let z := modp_montymul z 1 p p0i in
  modp_montymul a z p p0i.

(** * Masks *)

(** [p & -c] for a bit [c]. *)
Lemma mask_bit p c : in_width 32 p -> p .& u32 (- bit c) = if c then p else 0.
Proof. now apply mask_on. Qed.

(** The top bit of a word. *)
Lemma top_bit32 d : in_width 32 d -> d .>> 31 = bit (2 ^ 31 <=? d).
Proof. now apply (top_bit_flag 32). Qed.

(** [d += p & -(d >> 31)]: [p] is added back when the subtraction went below zero. *)
Lemma add_back d p :
  0 < p < 2 ^ 31 -> - p <= d < p -> u32 (u32 d + (p .& u32 (- (u32 d .>> 31)))) = d mod p.
Proof.
  intros Hp Hd. rewrite top_bit32, mask_bit by (unfold in_width; try apply wrap_range; lia).
  destruct (Z.leb_spec (2 ^ 31) (u32 d)) as [H|H].
  - assert (d < 0) by (revert H; word_lia). rewrite (Z.mod_eq d p) by lia. rewrite <- (Z.div_unique d p (-1) (d + p)) by lia. word_lia.
  - assert (0 <= d) by (revert H; word_lia). rewrite Z.mod_small by lia. word_lia.
Qed.

Lemma word_bit0 x : x .& 1 = bit (Z.odd x).
Proof. change 1 with (Z.ones 1) at 1. rewrite Z.land_ones, Z.pow_1_r, Zmod_odd by lia. now destruct (Z.odd x). Qed.

Lemma low_bits_succ x i : 0 <= i -> x mod 2 ^ (i + 1) = x mod 2 ^ i + 2 ^ i * Z.b2z (Z.testbit x i).
Proof.
  intros Hi. rewrite Z.pow_add_r, Z.pow_1_r by lia. rewrite Z.rem_mul_r by (try apply Z.pow_nonzero; lia).
  now rewrite Z.testbit_spec' by done.
Qed.

(** * The operations *)

(** [-1/p mod 2^31]. *)
Definition is_ninv (p p0i : Z) : Prop := in_width 31 p0i /\ p * p0i ≡[2 ^ 31] -1.

Lemma wrap_cong w x : 0 <= w -> wrap w x ≡[2 ^ w] x.
Proof. intros Hw. rewrite wrap_mod by done. apply cong_mod. apply Z.pow_pos_nonneg; lia. Qed.

Lemma newton_step p y k : 1 - p * y ≡[2 ^ 32] k -> 1 - p * u32 (y * u32 (2 - u32 (p * y))) ≡[2 ^ 32] k * k.
Proof. intros H. rewrite !(wrap_cong 32) by lia. rewrite <- H. apply (cong_intro _ _ _ 0). ring. Qed.

(** Newton iteration: each turn doubles the number of right bits. *)
Lemma modp_ninv31_spec p : Z.odd p = true -> is_ninv p (modp_ninv31 p).
Proof.
  intros Ho. unfold modp_ninv31. cbv zeta. assert (1 - p * u32 (2 - p) ≡[2 ^ 32] (p - 1) * (p - 1)) as H0.
  { rewrite (wrap_cong 32) by lia. apply (cong_intro _ _ _ 0). ring. }
  apply newton_step, newton_step, newton_step, newton_step in H0. set (y := u32 (_ * _)) in *. clearbody y.
  apply Z.odd_spec in Ho as [m ->]. assert (1 - (2 * m + 1) * y ≡[2 ^ 32] 0) as H.
  { rewrite H0. apply (cong_intro _ _ _ (m ^ 32)). ring. }
  change 0x7FFFFFFF with (Z.ones 31). rewrite Z.land_comm, Z.land_ones by lia. split; [apply Z.mod_pos_bound; lia|].
  rewrite cong_mod by lia. apply cong_elim in H as [k Hk].
  assert (u32 (- y) ≡[2 ^ 31] - y) as ->. { rewrite wrap_mod by lia. rewrite Z.mod_eq by lia. apply (cong_intro _ _ _ (- (2 * (- y / 2 ^ 32)))). ring. }
  apply (cong_intro _ _ _ (2 * k)). lia.
Qed.

Section Modulus.
Context (p p0i : Z) (Hp : 2 ^ 30 < p < 2 ^ 31) (Hodd : Z.odd p = true) (Hp0i : is_ninv p p0i).

Definition residue (x : Z) : Prop := 0 <= x < p.

Lemma p_width : in_width 32 p.
Proof using Hp. unfold in_width. lia. Qed.

Lemma modp_set_spec x : - p < x < p -> modp_set x p = x mod p.
Proof using Hp. intros Hx. apply add_back; lia. Qed.

(** The representative of least absolute value. *)
Lemma modp_norm_spec x : residue x -> - (p / 2) <= modp_norm x p <= p / 2 /\ modp_norm x p ≡[p] x.
Proof using Hp Hodd.
  unfold residue. intros Hx. unfold modp_norm. rewrite (wrap_small 32 (p + 1)) by (unfold in_width; lia).
  assert ((p + 1) .>> 1 = (p + 1) / 2) as -> by now rewrite Z.shiftr_div_pow2 by lia.
  apply Z.odd_spec in Hodd as [m Hm]. assert ((p + 1) / 2 = m + 1) as -> by (rewrite Hm; replace (2 * m + 1 + 1) with ((m + 1) * 2) by ring; now apply Z.div_mul).
  assert (p / 2 = m) as -> by (rewrite Hm, Z.mul_comm, Z.div_add_l by lia; change (1 / 2) with 0; lia).
  rewrite top_bit32 by (apply wrap_range; lia). destruct (Z.leb_spec (2 ^ 31) (u32 (x - (m + 1)))) as [H|H]; cbn [bit].
  - assert (x <= m) by (revert H; word_lia). change (u32 (1 - 1)) with 0. rewrite Z.land_0_r, Z.sub_0_r, wrap_small by (unfold in_width; lia).
    rewrite sext_small by lia. split; [lia | reflexivity].
  - assert (m < x) by (revert H; word_lia). change (u32 (0 - 1)) with (Z.ones 32). rewrite Z.land_ones, (Z.mod_small p) by lia.
    assert (i32 (u32 (x - p)) = x - p) as ->.
    { unfold sext. rewrite wrap_idem by lia. assert (u32 (x - p) = x - p + 2 ^ 32) as -> by word_lia.
      destruct (Z.ltb_spec (x - p + 2 ^ 32) (2 ^ (32 - 1))); lia. }
    split; [lia|]. apply (cong_intro _ _ _ (-1)). ring.
Qed.

Lemma modp_R_spec : modp_R p = 2 ^ 31 mod p.
Proof using Hp.
  unfold modp_R. change (u32 (1 .<< 31)) with (2 ^ 31). rewrite wrap_small by (unfold in_width; lia).
  rewrite (Z.mod_eq (2 ^ 31)) by lia. rewrite <- (Z.div_unique (2 ^ 31) p 1 (2 ^ 31 - p)) by lia. ring.
Qed.

Lemma modp_add_spec a b : residue a -> residue b -> modp_add a b p = (a + b) mod p.
Proof using Hp.
  unfold residue, modp_add. intros Ha Hb. rewrite (wrap_small 32 (a + b)) by (unfold in_width; lia).
  rewrite add_back by lia. apply cong_mod_iff; [lia|]. apply (cong_intro _ _ _ (-1)). ring.
Qed.

Lemma modp_sub_spec a b : residue a -> residue b -> modp_sub a b p = (a - b) mod p.
Proof using Hp. unfold residue, modp_sub. intros Ha Hb. apply add_back; lia. Qed.

(** The Montgomery product of a word below 2^31 and of a residue: [a * b / 2^31]. *)
Lemma modp_montymul_spec a b :
  0 <= a -> 0 <= b -> a * b < 2 ^ 31 * p -> residue (modp_montymul a b p p0i) /\ modp_montymul a b p p0i * 2 ^ 31 ≡[p] a * b.
Proof using Hp Hp0i.
  intros Ha Hb Hab. assert (0 <= a * b) by nia. destruct Hp0i as [Hr Hn]. unfold modp_montymul. cbv zeta.
  rewrite (wrap_small 64 (a * b)) by (unfold in_width; nia). set (z := a * b) in *. clearbody z. clear a b Ha Hb.
  change 0x7FFFFFFF with (Z.ones 31). rewrite Z.land_ones by lia. set (m := u64 (z * p0i) mod 2 ^ 31).
  assert (0 <= m < 2 ^ 31) as Hm by (apply Z.mod_pos_bound; lia).
  rewrite (wrap_small 64 (m * p)) by (unfold in_width; nia). rewrite (wrap_small 64 (z + m * p)) by (unfold in_width; nia).
  assert (z + m * p ≡[2 ^ 31] 0) as Hz.
  { unfold m. rewrite (cong_mod (2 ^ 31)) by lia. assert (u64 (z * p0i) ≡[2 ^ 31] z * p0i) as ->.
    { rewrite wrap_mod, Z.mod_eq by lia. apply (cong_intro _ _ _ (- (2 ^ 33 * (z * p0i / 2 ^ 64)))). ring. }
    replace (z + z * p0i * p) with (z * (1 + p * p0i)) by ring. rewrite Hn. apply (cong_intro _ _ _ 0). ring. }
  apply cong_elim in Hz as [k Hk]. rewrite Hk, Z.add_0_l. rewrite Z.shiftr_div_pow2, Z.mul_comm, Z.div_mul by lia.
  assert (0 <= k < 2 * p) as Hkr by nia. rewrite (wrap_small 32 k) by (unfold in_width; lia). rewrite add_back by lia.
  split; [apply Z.mod_pos_bound; lia|]. rewrite (cong_mod p) by lia. apply (cong_intro _ _ _ (m - 2 ^ 31)). lia.
Qed.
(** * Montgomery form *)

(** 2^31 is invertible. *)
Lemma two31_cancel a b : a * 2 ^ 31 ≡[p] b * 2 ^ 31 -> a ≡[p] b.
Proof using Hp0i.
  intros H. destruct Hp0i as [_ Hn]. apply cong_elim in Hn as [k Hk].
  assert (forall x, x ≡[p] x * 2 ^ 31 * k) as Hinv by (intros x; apply (cong_intro _ _ _ (- (p0i * x))); nia).
  rewrite (Hinv a), (Hinv b). now rewrite H.
Qed.

(** [z] is the Montgomery form of [x]. *)
Definition monty (z x : Z) : Prop := residue z /\ z ≡[p] x * 2 ^ 31.

Lemma monty_unique z z' x : monty z x -> monty z' x -> z = z'.
Proof using Type.
  intros [Hz Hx] [Hz' Hx']. apply (cong_eq p); [exact Hz | exact Hz' |]. now rewrite Hx, Hx'.
Qed.

Lemma monty_cong z x x' : x ≡[p] x' -> monty z x -> monty z x'.
Proof using Type. intros H [Hz Hx]. split; [done|]. now rewrite Hx, H. Qed.

Lemma monty_mul z w x y : monty z x -> monty w y -> monty (modp_montymul z w p p0i) (x * y).
Proof using Hp Hp0i.
  intros [Hz Hx] [Hw Hy]. unfold residue in *. destruct (modp_montymul_spec z w) as [Hr Hm]; [lia | lia | nia |].
  split; [exact Hr|]. apply two31_cancel. rewrite Hm, Hx, Hy. apply (cong_intro _ _ _ 0). ring.
Qed.

Lemma monty_R : monty (modp_R p) 1.
Proof using Hp.
  rewrite modp_R_spec. split; [apply Z.mod_pos_bound; lia|]. rewrite cong_mod by lia. apply (cong_intro _ _ _ 0). ring.
Qed.

Lemma modp_R2_spec : modp_R2 p p0i = 2 ^ 62 mod p.
Proof using Hp Hodd Hp0i.
  unfold modp_R2. cbv zeta. pose proof monty_R as HR. destruct (HR) as [HRr HRc].
  assert (monty (modp_add (modp_R p) (modp_R p) p) 2) as H2.
  { rewrite modp_add_spec by done. split; [apply Z.mod_pos_bound; lia|]. rewrite (cong_mod p), HRc by lia.
    apply (cong_intro _ _ _ 0). ring. }
  set (z0 := modp_add _ _ p) in *. clearbody z0. do 5 (apply (monty_mul _ _ _ _ H2) in H2).
  set (z := modp_montymul _ _ p p0i) in *. clearbody z. destruct H2 as [Hz Hc]. unfold residue in Hz.
  rewrite word_bit0, mask_bit by apply p_width. rewrite Z.shiftr_div_pow2 by lia.
  assert (forall h, 0 <= h < p -> 2 * h ≡[p] z -> h = 2 ^ 62 mod p) as Hh.
  { intros h Hr Hh. apply cong_canonical; [done|]. rewrite Hc in Hh. apply Z.odd_spec in Hodd as [m Hm].
    assert (forall x, x ≡[p] (m + 1) * (2 * x)) as Hhalf by (intros x; apply (cong_intro _ _ _ (- x)); rewrite Hm; ring).
    rewrite (Hhalf h), Hh, (Hhalf (2 ^ 62)). apply (cong_intro _ _ _ 0). ring. }
  destruct (Z.odd z) eqn:Hoz.
  - apply Z.odd_spec in Hoz as [u Hu]. apply Z.odd_spec in Hodd as [m Hm]. rewrite wrap_small by (unfold in_width; lia).
    assert (z + p = (u + m + 1) * 2) as He by lia. rewrite He. change (2 ^ 1) with 2. rewrite Z.div_mul by lia. apply Hh; [lia|].
    apply (cong_intro _ _ _ 1). lia.
  - rewrite <- Z.negb_even, negb_false_iff in Hoz. apply Z.even_spec in Hoz as [u Hu]. rewrite Z.add_0_r, wrap_small by (unfold in_width; lia).
    change (2 ^ 1) with 2. rewrite Hu, Z.mul_comm, Z.div_mul by lia. apply Hh; [lia|]. apply (cong_intro _ _ _ 0). lia.
Qed.

Lemma monty_R2 : monty (modp_R2 p p0i) (2 ^ 31).
Proof using Hp Hodd Hp0i.
  rewrite modp_R2_spec. split; [apply Z.mod_pos_bound; lia|]. rewrite cong_mod by lia. reflexivity.
Qed.

(** Square and multiply over the bits of [x], low bits first. *)
Lemma Rx_loop_spec fuel : forall i x r z,
  0 <= i -> i + Z.of_nat fuel <= 32 -> (0 < fuel)%nat -> 0 <= x < 2 ^ (i + Z.of_nat fuel - 1) ->
  monty r ((2 ^ 31) ^ (2 ^ i)) -> monty z ((2 ^ 31) ^ (x mod 2 ^ i)) ->
  exists z', Rx_loop fuel i x p p0i r z = Some z' /\ monty z' ((2 ^ 31) ^ x).
Proof using Hp Hp0i.
  induction fuel as [|fuel IH]; intros i x r z Hi Hf H0 Hx Hr Hz; [lia|]. cbn [Rx_loop].
  assert (0 < 2 ^ i) as Hpow by (apply Z.pow_pos_nonneg; lia).
  assert (2 ^ i < 2 ^ 32) by (apply Z.pow_lt_mono_r; lia).
  rewrite Z.shiftl_mul_pow2, Z.mul_1_l, (wrap_small 32 (2 ^ i)) by (unfold in_width; lia).
  destruct (Z.leb_spec (2 ^ i) x) as [Hle|Hgt].
  - destruct fuel as [|fuel].
    { replace (i + Z.of_nat 1 - 1) with i in Hx by lia. lia. }
    assert (2 ^ (i + 1) = 2 * 2 ^ i) as Hsucc by (rewrite Z.pow_add_r by lia; lia).
    apply IH; [lia | lia | lia | replace (i + 1 + Z.of_nat (S fuel) - 1) with (i + Z.of_nat (S (S fuel)) - 1) by lia; lia | |].
    + apply (monty_cong _ ((2 ^ 31) ^ 2 ^ i * (2 ^ 31) ^ 2 ^ i)); [|now apply monty_mul].
      rewrite <- Z.pow_add_r, Z.add_diag, <- Hsucc by lia. reflexivity.
    + rewrite (low_bits_succ x i Hi), land_pow2 by done. destruct (Z.testbit x i); cbn [Z.b2z].
      * destruct (Z.eqb_spec (2 ^ i) 0); [lia|]. cbn [negb].
        rewrite Z.mul_1_r, Z.pow_add_r by (try apply Z.mod_pos_bound; lia). now apply monty_mul.
      * cbn [Z.eqb negb]. now rewrite Z.mul_0_r, Z.add_0_r.
  - exists z. split; [done|]. now rewrite Z.mod_small in Hz by lia.
Qed.

(** [modp_Rx] is [2^(31 x)], up to the length of the largest integers. *)
Lemma modp_Rx_spec x : 1 <= x <= 2 ^ 11 -> modp_Rx x p p0i (modp_R2 p p0i) = Some (2 ^ (31 * x) mod p).
Proof using Hp Hodd Hp0i.
  intros Hx. unfold modp_Rx. cbv zeta. rewrite (wrap_small 32 (x - 1)) by (unfold in_width; lia).
  destruct (Rx_loop_spec 32 0 (x - 1) (modp_R2 p p0i) (modp_R p)) as (z & -> & [Hr Hc]); [lia | lia | lia | | | |].
  - change (2 ^ (0 + Z.of_nat 32 - 1)) with (2 ^ 31). lia.
  - apply monty_R2.
  - rewrite Z.mod_1_r. apply monty_R.
  - f_equal. apply cong_canonical; [exact Hr|]. rewrite Hc, Z.pow_mul_r by lia.
    replace x with (x - 1 + 1) at 2 by lia. rewrite (Z.pow_add_r (2 ^ 31) (x - 1) 1) by lia. reflexivity.
Qed.

(** * Division *)

Lemma select_bit z z2 c :
  in_width 32 z -> in_width 32 z2 -> z .^ ((z .^ z2) .& u32 (- bit c)) = if c then z2 else z.
Proof using Type. apply (select_on 32). discriminate. Qed.

Lemma residue_width x : residue x -> in_width 32 x.
Proof using Hp. unfold residue, in_width. lia. Qed.

(** Square and multiply over the 31 bits of [p - 2], high bits first. *)
Lemma modp_div_loop b beta :
  monty b beta ->
  monty (for_down 31 (fun i z =>
    let z := modp_montymul z z p p0i in
    let z2 := modp_montymul z b p p0i in
    z .^ ((z .^ z2) .& u32 (- ((u32 (p - 2) .>> Z.of_nat i) .& 1)))) (modp_R p)) (beta ^ (p - 2)).
Proof using Hp Hp0i.
  intros Hb. rewrite (wrap_small 32 (p - 2)) by (unfold in_width; lia).
  set (body := fun (i : nat) (z : Z) => _). rewrite <- (Z.div_1_r (p - 2)) at 1.
  apply (for_down_inv body (fun i z => monty z (beta ^ ((p - 2) / 2 ^ Z.of_nat i)))).
  - rewrite Z.div_small by lia. apply monty_R.
  - intros i z _ Hz. unfold body. cbv zeta.
    assert ((p - 2) / 2 ^ Z.of_nat (S i) = (p - 2) / 2 ^ Z.of_nat i / 2) as E2
      by (rewrite Nat2Z.inj_succ, Z.pow_succ_r, Z.mul_comm, Z.div_div by lia; reflexivity).
    rewrite E2 in Hz. clear E2. pose proof (monty_mul _ _ _ _ Hz Hz) as Hs. pose proof (monty_mul _ _ _ _ Hs Hb) as Hm.
    rewrite word_bit0, select_bit by (apply residue_width; [apply Hs || apply Hm]). rewrite Z.shiftr_div_pow2 by lia.
    set (e := (p - 2) / 2 ^ Z.of_nat i) in *. assert (0 <= e) as He by (apply Z.div_pos; lia). clearbody e.
    assert (0 <= e / 2) by (apply Z.div_pos; lia). destruct (Z.odd e) eqn:Ho.
    + apply Z.odd_spec in Ho as [m ->]. assert ((2 * m + 1) / 2 = m) as E by (rewrite Z.mul_comm, Z.div_add_l by lia; change (1 / 2) with 0; lia).
      rewrite E in *. now rewrite Z.pow_add_r, Z.pow_1_r, <- Z.add_diag, Z.pow_add_r by lia.
    + rewrite <- Z.negb_even, negb_false_iff in Ho. apply Z.even_spec in Ho as [m ->].
      assert ((2 * m) / 2 = m) as E by (rewrite Z.mul_comm; apply Z.div_mul; lia). rewrite E in *.
      now rewrite <- Z.add_diag, Z.pow_add_r by lia.
Qed.

Lemma modp_div_spec a b :
  Z.prime p -> residue a -> residue b -> residue (modp_div a b p p0i (modp_R p)) /\
  (b <> 0 -> modp_div a b p p0i (modp_R p) * b ≡[p] a) /\ (b = 0 -> modp_div a b p p0i (modp_R p) = 0).
Proof using Hp Hodd Hp0i.
  intros Hprime Ha Hb. destruct Hp0i as [_ Hn]. apply cong_elim in Hn as [k Hk].
  assert (monty b (b * k)) as Hbm by (split; [exact Hb | apply (cong_intro _ _ _ (- (b * p0i))); nia]).
  unfold modp_div. cbv zeta. pose proof (modp_div_loop b (b * k) Hbm) as [Hz Hc].
  set (z := for_down 31 _ (modp_R p)) in *. clearbody z. unfold residue in *.
  destruct (modp_montymul_spec z 1) as [Hz' Hc']; [lia.. |]. set (z' := modp_montymul z 1 p p0i) in *. clearbody z'.
  rewrite Z.mul_1_r, Hc in Hc'. apply two31_cancel in Hc'. unfold residue in *.
  destruct (modp_montymul_spec a z') as [Hr Hm]; [lia | lia | nia |]. set (r := modp_montymul a z' p p0i) in *. clearbody r.
  split; [exact Hr|]. rewrite Hc' in Hm. split; intros Hb0.
  - apply two31_cancel. assert (b * k * 2 ^ 31 ≡[p] b) as Hbk by (apply (cong_intro _ _ _ (b * p0i)); nia).
    assert (r * b * 2 ^ 31 ≡[p] a * (b * k * (b * k) ^ (p - 2)) * 2 ^ 31) as ->.
    { replace (r * b * 2 ^ 31) with (r * 2 ^ 31 * b) by ring. rewrite Hm. rewrite <- Hbk at 2. apply (cong_intro _ _ _ 0). ring. }
    rewrite (fermat_inverse p (b * k)); [apply (cong_intro _ _ _ 0); ring | exact Hprime |].
    intros H0. apply Hb0. apply (cong_eq p); [exact Hb | lia |]. rewrite <- Hbk, <- (cong_mod p (b * k)), H0 by lia. reflexivity.
  - subst b. apply (cong_eq p); [exact Hr | lia |]. apply two31_cancel. rewrite Hm, Z.mul_0_l, Z.pow_0_l, Z.mul_0_r by lia. reflexivity.
Qed.
End Modulus.
