(* ===== verification/Primes.v ===== *)
(** Primes: the table of small primes of [keygen.c], and what its comment says of it. *)

From Stdlib Require Import ZArith Lia Zpow_facts.
From stdpp Require Import base numbers list.
From S2P Require Import Prelude NumberTheory Modp.

Record small_prime := mk_prime { sp_p : Z; sp_g : Z; sp_s : Z }.

#[export] Instance small_prime_inhabited : Inhabited small_prime := populate (mk_prime 0 0 0).

Definition PRIMES : list small_prime :=
  [
    mk_prime 2147473409 383167813 10239; mk_prime 2147389441 211808905 471403745; mk_prime 2147387393 37672282 1329335065;
    mk_prime 2147377153 1977035326 968223422; mk_prime 2147358721 1067163706 132460015; mk_prime 2147352577 1606082042 598693809;
    mk_prime 2147346433 2033915641 1056257184; mk_prime 2147338241 1653770625 421286710; mk_prime 2147309569 631200819 1111201074;
    mk_prime 2147297281 2038364663 1042003613; mk_prime 2147295233 1962540515 19440033; mk_prime 2147239937 2100082663 353296760;
    mk_prime 2147235841 1991153006 1703918027; mk_prime 2147217409 516405114 1258919613; mk_prime 2147205121 409347988 1089726929;
    mk_prime 2147196929 927788991 1946238668; mk_prime 2147178497 1136922411 1347028164; mk_prime 2147100673 868626236 701164723;
    mk_prime 2147082241 1897279176 617820870; mk_prime 2147074049 1888819123 158382189; mk_prime 2147051521 25006327 522758543;
    mk_prime 2147043329 327546255 37227845; mk_prime 2147039233 766324424 1133356428; mk_prime 2146988033 1862817362 73861329;
    mk_prime 2146963457 404622040 653019435; mk_prime 2146959361 1936581214 995143093; mk_prime 2146938881 1559770096 634921513;
    mk_prime 2146908161 422623708 1985060172; mk_prime 2146885633 1751189170 298238186; mk_prime 2146871297 578919515 291810829;
    mk_prime 2146846721 1114060353 915902322; mk_prime 2146834433 2069565474 47859524; mk_prime 2146818049 1552824584 646281055;
    mk_prime 2146775041 1906267847 1597832891; mk_prime 2146756609 1847414714 1228090888; mk_prime 2146744321 1818792070 1176377637;
    mk_prime 2146738177 1118066398 1054971214; mk_prime 2146736129 52057278 933422153; mk_prime 2146713601 592259376 1406621510;
    mk_prime 2146695169 263161877 1514178701; mk_prime 2146656257 685363115 384505091; mk_prime 2146650113 927727032 537575289;
    mk_prime 2146646017 52575506 1799464037; mk_prime 2146643969 1276803876 1348954416; mk_prime 2146603009 814028633 1521547704;
    mk_prime 2146572289 1846678872 1310832121; mk_prime 2146547713 919368090 1019041349; mk_prime 2146508801 671847612 38582496;
    mk_prime 2146492417 283911680 532424562; mk_prime 2146490369 1780044827 896447978; mk_prime 2146459649 327980850 1327906900;
    mk_prime 2146447361 1310561493 958645253; mk_prime 2146441217 412148926 287271128; mk_prime 2146437121 293186449 2009822534;
    mk_prime 2146430977 179034356 1359155584; mk_prime 2146418689 1517345488 1790248672; mk_prime 2146406401 1615820390 1584833571;
    mk_prime 2146404353 826651445 607120498; mk_prime 2146379777 3816988 1897049071; mk_prime 2146363393 1221409784 1986921567;
    mk_prime 2146355201 1388081168 849968120; mk_prime 2146336769 1803473237 1655544036; mk_prime 2146312193 1023484977 273671831;
    mk_prime 2146293761 1074591448 467406983; mk_prime 2146283521 831604668 1523950494; mk_prime 2146203649 712865423 1170834574;
    mk_prime 2146154497 1764991362 1064856763; mk_prime 2146142209 627386213 1406840151; mk_prime 2146127873 1638674429 2088393537;
    mk_prime 2146099201 1516001018 690673370; mk_prime 2146093057 1294931393 315136610; mk_prime 2146091009 1942399533 973539425;
    mk_prime 2146078721 1843461814 2132275436; mk_prime 2146060289 1098740778 360423481; mk_prime 2146048001 1617213232 1951981294;
    mk_prime 2146041857 1805783169 2075683489; mk_prime 2146019329 272027909 1753219918; mk_prime 2145986561 1206530344 2034028118;
    mk_prime 2145976321 1243769360 1173377644; mk_prime 2145964033 887200839 1281344586; mk_prime 2145906689 1651026455 906178216;
    mk_prime 2145875969 1673238256 1043521212; mk_prime 2145871873 1226591210 1399796492; mk_prime 2145841153 1465353397 1324527802;
    mk_prime 2145832961 1150638905 554084759; mk_prime 2145816577 221601706 427340863; mk_prime 2145785857 608896761 316590738;
    mk_prime 2145755137 1712054942 1684294304; mk_prime 2145742849 1302302867 724873116; mk_prime 2145728513 516717693 431671476;
    mk_prime 2145699841 524575579 1619722537; mk_prime 2145691649 1925625239 982974435; mk_prime 2145687553 463795662 1293154300;
    mk_prime 2145673217 771716636 881778029; mk_prime 2145630209 1509556977 837364988; mk_prime 2145595393 229091856 851648427;
    mk_prime 2145587201 1796903241 635342424; mk_prime 2145525761 715310882 1677228081; mk_prime 2145495041 1040930522 200685896;
    mk_prime 2145466369 949804237 1809146322; mk_prime 2145445889 1673903706 95316881; mk_prime 2145390593 806941852 1428671135;
    mk_prime 2145372161 1402525292 159350694; mk_prime 2145361921 2124760298 1589134749; mk_prime 2145359873 1217503067 1561543010;
    mk_prime 2145355777 338341402 83865711; mk_prime 2145343489 1381532164 641430002; mk_prime 2145325057 1883895478 1528469895;
    mk_prime 2145318913 1335370424 65809740; mk_prime 2145312769 2000008042 1919775760; mk_prime 2145300481 961450962 1229540578;
    mk_prime 2145282049 910466767 1964062701; mk_prime 2145232897 816527501 450152063; mk_prime 2145218561 1435128058 1794509700;
    mk_prime 2145187841 33505311 1272467582; mk_prime 2145181697 269767433 1380363849; mk_prime 2145175553 56386299 1316870546;
    mk_prime 2145079297 2106880293 1391797340; mk_prime 2145021953 1347906152 720510798; mk_prime 2145015809 206769262 1651459955;
    mk_prime 2145003521 1885513236 1393381284; mk_prime 2144960513 1810381315 31937275; mk_prime 2144944129 1306487838 2019419520;
    mk_prime 2144935937 37304730 1841489054; mk_prime 2144894977 1601434616 157985831; mk_prime 2144888833 98749330 2128592228;
    mk_prime 2144880641 1772327002 2076128344; mk_prime 2144864257 1404514762 2029969964; mk_prime 2144827393 801236594 406627220;
    mk_prime 2144806913 349217443 1501080290; mk_prime 2144796673 1542656776 2084736519; mk_prime 2144778241 1210734884 1746416203;
    mk_prime 2144759809 1146598851 716464489; mk_prime 2144757761 286328400 1823728177; mk_prime 2144729089 1347555695 1836644881;
    mk_prime 2144727041 1795703790 520296412; mk_prime 2144696321 1302475157 852964281; mk_prime 2144667649 1075877614 504992927;
    mk_prime 2144573441 198765808 1617144982; mk_prime 2144555009 321528767 155821259; mk_prime 2144550913 814139516 1819937644;
    mk_prime 2144536577 571143206 962942255; mk_prime 2144524289 1746733766 2471321; mk_prime 2144512001 1821415077 124190939;
    mk_prime 2144468993 917871546 1260072806; mk_prime 2144458753 378417981 1569240563; mk_prime 2144421889 175229668 1825620763;
    mk_prime 2144409601 1699216963 351648117; mk_prime 2144370689 1071885991 958186029; mk_prime 2144348161 1763151227 540353574;
    mk_prime 2144335873 1060214804 919598847; mk_prime 2144329729 663515846 1448552668; mk_prime 2144327681 1057776305 590222840;
    mk_prime 2144309249 1705149168 1459294624; mk_prime 2144296961 325823721 1649016934; mk_prime 2144290817 738775789 447427206;
    mk_prime 2144243713 962347618 893050215; mk_prime 2144237569 1655257077 900860862; mk_prime 2144161793 242206694 1567868672;
    mk_prime 2144155649 769415308 1247993134; mk_prime 2144137217 320492023 515841070; mk_prime 2144120833 1639388522 770877302;
    mk_prime 2144071681 1761785233 964296120; mk_prime 2144065537 419817825 204564472; mk_prime 2144028673 666050597 2091019760;
    mk_prime 2144010241 1413657615 1518702610; mk_prime 2143952897 1238327946 475672271; mk_prime 2143940609 307063413 1176750846;
    mk_prime 2143918081 2062905559 786785803; mk_prime 2143899649 1338112849 1562292083; mk_prime 2143891457 68149545 87166451;
    mk_prime 2143885313 921750778 394460854; mk_prime 2143854593 719766593 133877196; mk_prime 2143836161 1149399850 1861591875;
    mk_prime 2143762433 1848739366 1335934145; mk_prime 2143756289 1326674710 102999236; mk_prime 2143713281 808061791 1156900308;
    mk_prime 2143690753 388399459 1926468019; mk_prime 2143670273 1427891374 1756689401; mk_prime 2143666177 1912173949 986629565;
    mk_prime 2143645697 2041160111 371842865; mk_prime 2143641601 1279906897 2023974350; mk_prime 2143635457 720473174 1389027526;
    mk_prime 2143621121 1298309455 1732632006; mk_prime 2143598593 1548762216 1825417506; mk_prime 2143567873 620475784 1073787233;
    mk_prime 2143561729 1932954575 949167309; mk_prime 2143553537 354315656 1652037534; mk_prime 2143541249 577424288 1097027618;
    mk_prime 2143531009 357862822 478640055; mk_prime 2143522817 2017706025 1550531668; mk_prime 2143506433 2078127419 1824320165;
    mk_prime 2143488001 613475285 1604011510; mk_prime 2143469569 1466594987 502095196; mk_prime 2143426561 1115430331 1044637111;
    mk_prime 2143383553 9778045 1902463734; mk_prime 2143377409 1557401276 2056861771; mk_prime 2143363073 652036455 1965915971;
    mk_prime 2143260673 1464581171 1523257541; mk_prime 2143246337 1876119649 764541916; mk_prime 2143209473 1614992673 1920672844;
    mk_prime 2143203329 981052047 2049774209; mk_prime 2143160321 1847355533 728535665; mk_prime 2143129601 965558457 603052992;
    mk_prime 2143123457 2140817191 8348679; mk_prime 2143100929 1547263683 694209023; mk_prime 2143092737 643459066 1979934533;
    mk_prime 2143082497 188603778 2026175670; mk_prime 2143062017 1657329695 377451099; mk_prime 2143051777 114967950 979255473;
    mk_prime 2143025153 1698431342 1449196896; mk_prime 2143006721 1862741675 1739650365; mk_prime 2142996481 756660457 996160050;
    mk_prime 2142976001 927864010 1166847574; mk_prime 2142965761 905070557 661974566; mk_prime 2142916609 40932754 1787161127;
    mk_prime 2142892033 1987985648 675335382; mk_prime 2142885889 797497211 1323096997; mk_prime 2142871553 2068025830 1411877159;
    mk_prime 2142861313 1217177090 1438410687; mk_prime 2142830593 409906375 1767860634; mk_prime 2142803969 1197788993 359782919;
    mk_prime 2142785537 643817365 513932862; mk_prime 2142779393 1717046338 218943121; mk_prime 2142724097 89336830 416687049;
    mk_prime 2142707713 5944581 1356813523; mk_prime 2142658561 887942135 2074011722; mk_prime 2142638081 151851972 1647339939;
    mk_prime 2142564353 1691505537 1483107336; mk_prime 2142533633 1989920200 1135938817; mk_prime 2142529537 959263126 1531961857;
    mk_prime 2142527489 453251129 1725566162; mk_prime 2142502913 1536028102 182053257; mk_prime 2142498817 570138730 701443447;
    mk_prime 2142416897 326965800 411931819; mk_prime 2142363649 1675665410 1517191733; mk_prime 2142351361 968529566 1575712703;
    mk_prime 2142330881 1384953238 1769087884; mk_prime 2142314497 1977173242 1833745524; mk_prime 2142289921 95082313 1714775493;
    mk_prime 2142283777 109377615 1070584533; mk_prime 2142277633 16960510 702157145; mk_prime 2142263297 553850819 431364395;
    mk_prime 2142208001 241466367 2053967982; mk_prime 2142164993 1795661326 1031836848; mk_prime 2142097409 1212530046 712772031;
    mk_prime 2142087169 1763869720 822276067; mk_prime 2142078977 644065713 1765268066; mk_prime 2142074881 112671944 643204925;
    mk_prime 2142044161 1387785471 1297890174; mk_prime 2142025729 783885537 1000425730; mk_prime 2142011393 905662232 1679401033;
    mk_prime 2141974529 799788433 468119557; mk_prime 2141943809 1932544124 449305555; mk_prime 2141933569 1527403256 841867925;
    mk_prime 2141931521 1247076451 743823916; mk_prime 2141902849 1199660531 401687910; mk_prime 2141890561 150132350 1720336972;
    mk_prime 2141857793 1287438162 663880489; mk_prime 2141833217 618017731 1819208266; mk_prime 2141820929 999578638 1403090096;
    mk_prime 2141786113 81834325 1523542501; mk_prime 2141771777 120001928 463556492; mk_prime 2141759489 122455485 2124928282;
    mk_prime 2141749249 141986041 940339153; mk_prime 2141685761 889088734 477141499; mk_prime 2141673473 324212681 1122558298;
    mk_prime 2141669377 1175806187 1373818177; mk_prime 2141655041 1113654822 296887082; mk_prime 2141587457 991103258 1585913875;
    mk_prime 2141583361 1401451409 1802457360; mk_prime 2141575169 1571977166 712760980; mk_prime 2141546497 1107849376 1250270109;
    mk_prime 2141515777 196544219 356001130; mk_prime 2141495297 1733571506 1060744866; mk_prime 2141483009 321552363 1168297026;
    mk_prime 2141458433 505818251 733225819; mk_prime 2141360129 1026840098 948342276; mk_prime 2141325313 945133744 2129965998;
    mk_prime 2141317121 1871100260 1843844634; mk_prime 2141286401 1790639498 1750465696; mk_prime 2141267969 1376858592 186160720;
    mk_prime 2141255681 2129698296 1876677959; mk_prime 2141243393 2138900688 1340009628; mk_prime 2141214721 1933049835 1087819477;
    mk_prime 2141212673 1898664939 1786328049; mk_prime 2141202433 990234828 940682169; mk_prime 2141175809 1406392421 993089586;
    mk_prime 2141165569 1263518371 289019479; mk_prime 2141073409 1485624211 507864514; mk_prime 2141052929 1885134788 311252465;
    mk_prime 2141040641 1285021247 280941862; mk_prime 2141028353 1527610374 375035110; mk_prime 2141011969 1400626168 164696620;
    mk_prime 2140999681 632959608 966175067; mk_prime 2140997633 2045628978 1290889438; mk_prime 2140993537 1412755491 375366253;
    mk_prime 2140942337 719477232 785367828; mk_prime 2140925953 45224252 836552317; mk_prime 2140917761 1157376588 1001839569;
    mk_prime 2140887041 278480752 2098732796; mk_prime 2140837889 1663139953 924094810; mk_prime 2140788737 802501511 2045368990;
    mk_prime 2140766209 1820083885 1800295504; mk_prime 2140764161 1169561905 2106792035; mk_prime 2140696577 127781498 1885987531;
    mk_prime 2140684289 16014477 1098116827; mk_prime 2140653569 665960598 1796728247; mk_prime 2140594177 1043085491 377310938;
    mk_prime 2140579841 1732838211 1504505945; mk_prime 2140569601 302071939 358291016; mk_prime 2140567553 192393733 1909137143;
    mk_prime 2140557313 406595731 1175330270; mk_prime 2140549121 1748850918 525007007; mk_prime 2140477441 499436566 1031159814;
    mk_prime 2140469249 1886004401 1029951320; mk_prime 2140426241 1483168100 1676273461; mk_prime 2140420097 1779917297 846024476;
    mk_prime 2140413953 522948893 1816354149; mk_prime 2140383233 1931364473 1296921241; mk_prime 2140366849 1917356555 147196204;
    mk_prime 2140354561 16466177 1349052107; mk_prime 2140348417 1875366972 1860485634; mk_prime 2140323841 456498717 1790256483;
    mk_prime 2140321793 1629493973 150031888; mk_prime 2140315649 1904063898 395510935; mk_prime 2140280833 1784104328 831417909;
    mk_prime 2140250113 256087139 697349101; mk_prime 2140229633 388553070 243875754; mk_prime 2140223489 747459608 1396270850;
    mk_prime 2140200961 507423743 1895572209; mk_prime 2140162049 580106016 2045297469; mk_prime 2140149761 712426444 785217995;
    mk_prime 2140137473 1441607584 536866543; mk_prime 2140119041 346538902 1740434653; mk_prime 2140090369 282642885 21051094;
    mk_prime 2140076033 1407456228 319910029; mk_prime 2140047361 1619330500 1488632070; mk_prime 2140041217 2089408064 2012026134;
    mk_prime 2140008449 1705524800 1613440760; mk_prime 2139924481 1846208233 1280649481; mk_prime 2139906049 989438755 1185646076;
    mk_prime 2139867137 1522314850 372783595; mk_prime 2139842561 1681587377 216848235; mk_prime 2139826177 2066284988 1784999464;
    mk_prime 2139824129 480888214 1513323027; mk_prime 2139789313 847937200 858192859; mk_prime 2139783169 1642000434 1583261448;
    mk_prime 2139770881 940699589 179702100; mk_prime 2139768833 315623242 964612676; mk_prime 2139666433 331649203 764666914;
    mk_prime 2139641857 2118730799 1313764644; mk_prime 2139635713 519149027 519212449; mk_prime 2139598849 1526413634 1769667104;
    mk_prime 2139574273 551148610 820739925; mk_prime 2139568129 1386800242 472447405; mk_prime 2139549697 813760130 1412328531;
    mk_prime 2139537409 1615286260 1609362979; mk_prime 2139475969 1352559299 1696720421; mk_prime 2139455489 1048691649 1584935400;
    mk_prime 2139432961 836025845 950121150; mk_prime 2139424769 1558281165 1635486858; mk_prime 2139406337 1728402143 1674423301;
    mk_prime 2139396097 1727715782 1483470544; mk_prime 2139383809 1092853491 1741699084; mk_prime 2139369473 690776899 1242798709;
    mk_prime 2139351041 1768782380 2120712049; mk_prime 2139334657 1739968247 1427249225; mk_prime 2139332609 1547189119 623011170;
    mk_prime 2139310081 1346827917 1605466350; mk_prime 2139303937 369317948 828392831; mk_prime 2139301889 1560417239 1788073219;
    mk_prime 2139283457 1303121623 595079358; mk_prime 2139248641 1354555286 573424177; mk_prime 2139240449 60974056 885781403;
    mk_prime 2139222017 355573421 1221054839; mk_prime 2139215873 566477826 1724006500; mk_prime 2139150337 871437673 1609133294;
    mk_prime 2139144193 1478130914 1137491905; mk_prime 2139117569 1854880922 964728507; mk_prime 2139076609 202405335 756508944;
    mk_prime 2139062273 1399715741 884826059; mk_prime 2139045889 1051045798 1202295476; mk_prime 2139033601 1707715206 632234634;
    mk_prime 2139006977 2035853139 231626690; mk_prime 2138951681 183867876 838350879; mk_prime 2138945537 1403254661 404460202;
    mk_prime 2138920961 310865011 1282911681; mk_prime 2138910721 1328496553 103472415; mk_prime 2138904577 78831681 993513549;
    mk_prime 2138902529 1319697451 1055904361; mk_prime 2138816513 384338872 1706202469; mk_prime 2138810369 1084868275 405677177;
    mk_prime 2138787841 401181788 1964773901; mk_prime 2138775553 1850532988 1247087473; mk_prime 2138767361 874261901 1576073565;
    mk_prime 2138757121 1187474742 993541415; mk_prime 2138748929 1782458888 1043206483; mk_prime 2138744833 1221500487 800141243;
    mk_prime 2138738689 413465368 1450660558; mk_prime 2138695681 739045140 342611472; mk_prime 2138658817 1355845756 672674190;
    mk_prime 2138644481 608379162 1538874380; mk_prime 2138632193 1444914034 686911254; mk_prime 2138607617 484707818 1435142134;
    mk_prime 2138591233 539460669 1290458549; mk_prime 2138572801 2093538990 2011138646; mk_prime 2138552321 1149786988 1076414907;
    mk_prime 2138546177 840688206 2108985273; mk_prime 2138533889 209669619 198172413; mk_prime 2138523649 1975879426 1277003968;
    mk_prime 2138490881 1351891144 1976858109; mk_prime 2138460161 1817321013 1979278293; mk_prime 2138429441 1950077177 203441928;
    mk_prime 2138400769 908970113 628395069; mk_prime 2138398721 219890864 758486760; mk_prime 2138376193 1306654379 977554090;
    mk_prime 2138351617 298822498 2004708503; mk_prime 2138337281 441457816 1049002108; mk_prime 2138320897 1517731724 1442269609;
    mk_prime 2138290177 1355911197 1647139103; mk_prime 2138234881 531313247 1746591962; mk_prime 2138214401 1899410930 781416444;
    mk_prime 2138202113 1813477173 1622508515; mk_prime 2138191873 1086458299 1025408615; mk_prime 2138183681 1998800427 827063290;
    mk_prime 2138173441 1921308898 749670117; mk_prime 2138103809 1620902804 2126787647; mk_prime 2138099713 828647069 1892961817;
    mk_prime 2138085377 179405355 1525506535; mk_prime 2138060801 615683235 1259580138; mk_prime 2138044417 2030277840 1731266562;
    mk_prime 2138042369 2087222316 1627902259; mk_prime 2138032129 126388712 1108640984; mk_prime 2138011649 715026550 1017980050;
    mk_prime 2137993217 1693714349 1351778704; mk_prime 2137888769 1289762259 1053090405; mk_prime 2137853953 199991890 1254192789;
    mk_prime 2137833473 941421685 896995556; mk_prime 2137817089 750416446 1251031181; mk_prime 2137792513 798075119 368077456;
    mk_prime 2137786369 878543495 1035375025; mk_prime 2137767937 9351178 1156563902; mk_prime 2137755649 1382297614 1686559583;
    mk_prime 2137724929 1345472850 1681096331; mk_prime 2137704449 834666929 630551727; mk_prime 2137673729 1646165729 1892091571;
    mk_prime 2137620481 778943821 48456461; mk_prime 2137618433 1730837875 1713336725; mk_prime 2137581569 805610339 1378891359;
    mk_prime 2137538561 204342388 1950165220; mk_prime 2137526273 1947629754 1500789441; mk_prime 2137516033 719902645 1499525372;
    mk_prime 2137491457 230451261 556382829; mk_prime 2137440257 979573541 412760291; mk_prime 2137374721 927841248 1954137185;
    mk_prime 2137362433 1243778559 861024672; mk_prime 2137313281 1341338501 980638386; mk_prime 2137311233 937415182 1793212117;
    mk_prime 2137255937 795331324 1410253405; mk_prime 2137243649 150756339 1966999887; mk_prime 2137182209 163346914 1939301431;
    mk_prime 2137171969 1952552395 758913141; mk_prime 2137159681 570788721 218668666; mk_prime 2137147393 1896656810 2045670345;
    mk_prime 2137141249 358493842 518199643; mk_prime 2137139201 1505023029 674695848; mk_prime 2137133057 27911103 830956306;
    mk_prime 2137122817 439771337 1555268614; mk_prime 2137116673 790988579 1871449599; mk_prime 2137110529 432109234 811805080;
    mk_prime 2137102337 1357900653 1184997641; mk_prime 2137098241 515119035 1715693095; mk_prime 2137090049 408575203 2085660657;
    mk_prime 2137085953 2097793407 1349626963; mk_prime 2137055233 1556739954 1449960883; mk_prime 2137030657 1545758650 1369303716;
    mk_prime 2136987649 332602570 103875114; mk_prime 2136969217 1499989506 1662964115; mk_prime 2136924161 857040753 4738842;
    mk_prime 2136895489 1948872712 570436091; mk_prime 2136893441 58969960 1568349634; mk_prime 2136887297 2127193379 273612548;
    mk_prime 2136850433 111208983 1181257116; mk_prime 2136809473 1627275942 1680317971; mk_prime 2136764417 1574888217 14011331;
    mk_prime 2136741889 14011055 1129154251; mk_prime 2136727553 35862563 1838555253; mk_prime 2136721409 310235666 1363928244;
    mk_prime 2136698881 1612429202 1560383828; mk_prime 2136649729 1138540131 800014364; mk_prime 2136606721 602323503 1433096652;
    mk_prime 2136563713 182209265 1919611038; mk_prime 2136555521 324156477 165591039; mk_prime 2136549377 195513113 217165345;
    mk_prime 2136526849 1050768046 939647887; mk_prime 2136508417 1886286237 1619926572; mk_prime 2136477697 609647664 35065157;
    mk_prime 2136471553 679352216 1452259468; mk_prime 2136457217 128630031 824816521; mk_prime 2136422401 19787464 1526049830;
    mk_prime 2136420353 698316836 1530623527; mk_prime 2136371201 1651862373 1804812805; mk_prime 2136334337 326596005 336977082;
    mk_prime 2136322049 63253370 1904972151; mk_prime 2136297473 312176076 172182411; mk_prime 2136248321 381261841 369032670;
    mk_prime 2136242177 358688773 1640007994; mk_prime 2136229889 512677188 75585225; mk_prime 2136219649 2095003250 1970086149;
    mk_prime 2136207361 1909650722 537760675; mk_prime 2136176641 1334616195 1533487619; mk_prime 2136158209 2096285632 1793285210;
    mk_prime 2136143873 1897347517 293843959; mk_prime 2136133633 923586222 1022655978; mk_prime 2136096769 1464868191 1515074410;
    mk_prime 2136094721 2020679520 2061636104; mk_prime 2136076289 290798503 1814726809; mk_prime 2136041473 156415894 1250757633;
    mk_prime 2135996417 297459940 1132158924; mk_prime 2135955457 538755304 1688831340; mk_prime 0 0 0 ].

(** The entries before the terminator, and those that degree 512 uses (the longest integers of key
    generation have [MAX_BL_LARGE[8]] words). *)
Definition num_primes : nat := 521.
Definition num_used : nat := 157.

(** What is checked of an entry, [last] being the previous prime: the last test rules out the only
    possible small divisors. *)
Definition check_prime (last : Z) (x : small_prime) : bool :=
  let p := sp_p x in
  (2 ^ 30 <? p) && (p <? last) && (p mod 2048 =? 1) && (Zpow_mod (sp_g x) 1024 p =? p - 1) &&
  forallb (fun j => negb (p mod (2048 * Z.of_nat (S j) + 1) =? 0)) (seq 0 22).

Fixpoint check_primes (last : Z) (ps : list small_prime) : bool :=
  match ps with
  | [] => true
  | x :: ps => check_prime last x && check_primes (sp_p x) ps
  end.

Definition check_inverse (prod : Z) (x : small_prime) : bool :=
  (sp_s x <? sp_p x) && (0 <=? sp_s x) && (sp_s x * (prod mod sp_p x) mod sp_p x =? 2 ^ 31 mod sp_p x).

Fixpoint check_inverses (prod : Z) (ps : list small_prime) : bool :=
  match ps with
  | [] => true
  | x :: ps => check_inverse prod x && check_inverses (prod * sp_p x) ps
  end.

Lemma primes_checked : check_primes (2 ^ 31) (take num_primes PRIMES) = true.
Proof. vm_compute. reflexivity. Qed.

Lemma inverses_checked : check_inverses 1 (take num_used PRIMES) = true.
Proof. vm_compute. reflexivity. Qed.

Record good_prime (x : small_prime) : Prop := {
  good_range : 2 ^ 30 < sp_p x < 2 ^ 31;
  good_odd : Z.odd (sp_p x) = true;
  good_is_prime : Z.prime (sp_p x);
  good_2048 : sp_p x mod 2048 = 1;
  good_root : sp_g x ^ 1024 ≡[sp_p x] -1
}.

Lemma check_prime_good last x : check_prime last x = true -> last <= 2 ^ 31 -> good_prime x.
Proof.
  unfold check_prime. rewrite !andb_true_iff, !Z.eqb_eq, !Z.ltb_lt. intros ((((Hlo & Hhi) & Hm) & Hg) & Hd) Hl.
  assert (Z.odd (sp_p x) = true) as Ho.
  { apply Z.odd_spec. exists (sp_p x / 2048 * 1024). rewrite (Z.div_mod (sp_p x) 2048) at 1 by lia. lia. }
  assert (sp_g x ^ 1024 ≡[sp_p x] -1) as Hroot.
  { rewrite Zpow_mod_correct in Hg by lia. apply cong_mod_iff; [lia|]. rewrite Hg. apply (Z.mod_unique _ _ (-1)); lia. }
  constructor; try assumption; [lia|]. apply (prime_by_root _ 11 (sp_g x) 22); [lia | lia | done | lia | exact Hroot |].
  intros j Hj. rewrite forallb_forall in Hd. specialize (Hd (Z.to_nat (j - 1))).
  rewrite negb_true_iff, Z.eqb_neq in Hd. replace (2 ^ 11 * j + 1) with (2048 * Z.of_nat (S (Z.to_nat (j - 1))) + 1) by lia.
  apply Hd. apply in_seq. lia.
Qed.

Lemma check_primes_good ps : forall last,
  check_primes last ps = true -> last <= 2 ^ 31 -> Forall good_prime ps /\ Forall (fun x => sp_p x < last) ps.
Proof.
  induction ps as [|x ps IH]; intros last H Hl; [now constructor|]. cbn [check_primes] in H. apply andb_true_iff in H as [Hx H].
  assert (sp_p x < last) as Hlt by (unfold check_prime in Hx; rewrite !andb_true_iff, !Z.ltb_lt in Hx; tauto).
  destruct (IH _ H ltac:(lia)) as [H1 H2]. split; constructor; [now apply (check_prime_good last) | done | done |].
  eapply Forall_impl; [exact H2|]. cbn. lia.
Qed.

Lemma PRIMES_length : length PRIMES = S num_primes.
Proof. reflexivity. Qed.

Lemma PRIMES_good i : (i < num_primes)%nat -> good_prime (PRIMES !!! i).
Proof.
  intros Hi. destruct (check_primes_good _ _ primes_checked ltac:(lia)) as [H _]. rewrite Forall_lookup_total in H.
  rewrite <- (lookup_total_take_lt PRIMES num_primes i) by done. apply H. rewrite length_take, PRIMES_length. lia.
Qed.

Lemma check_primes_decreasing ps : forall last i,
  check_primes last ps = true -> (S i < length ps)%nat -> sp_p (ps !!! S i) < sp_p (ps !!! i).
Proof.
  induction ps as [|x ps IH]; intros last i H Hi; [cbn in Hi; lia|]. cbn [check_primes] in H. apply andb_true_iff in H as [_ H].
  destruct i as [|i]; [|apply (IH (sp_p x)); [exact H | cbn in Hi; lia]].
  destruct ps as [|y ps]; [cbn in Hi; lia|]. cbn [check_primes] in H. unfold check_prime in H.
  rewrite !andb_true_iff, !Z.ltb_lt in H. exact (proj2 (proj1 (proj1 (proj1 (proj1 H))))).
Qed.

Lemma PRIMES_decreasing i : (i < num_primes)%nat -> (0 < i)%nat -> sp_p (PRIMES !!! i) < sp_p (PRIMES !!! (i - 1)%nat).
Proof.
  intros Hi H0. pose proof (check_primes_decreasing _ _ (i - 1) primes_checked) as H.
  rewrite length_take, PRIMES_length, !lookup_total_take_lt in H by lia. replace (S (i - 1)) with i in H by lia. apply H. lia.
Qed.

(** The product of the first [n] primes. *)
Definition prod_primes (n : nat) : Z := foldr Z.mul 1 (sp_p <$> take n PRIMES).

Lemma foldr_mul_snoc l x : foldr Z.mul 1 (l ++ [x]) = foldr Z.mul 1 l * x.
Proof. induction l as [|y l IH]; cbn [app foldr]; [lia|]. rewrite IH. ring. Qed.

Lemma prod_primes_S n : (n < num_primes)%nat -> prod_primes (S n) = prod_primes n * sp_p (PRIMES !!! n).
Proof.
  intros Hn. unfold prod_primes. rewrite (take_S_r PRIMES n (PRIMES !!! n)).
  - rewrite fmap_app. apply foldr_mul_snoc.
  - apply list_lookup_lookup_total_lt. rewrite PRIMES_length. lia.
Qed.

Lemma check_inverses_lookup ps : forall prod i,
  check_inverses prod ps = true -> (i < length ps)%nat ->
  check_inverse (prod * foldr Z.mul 1 (sp_p <$> take i ps)) (ps !!! i) = true.
Proof.
  induction ps as [|x ps IH]; intros prod i H Hi; [cbn in Hi; lia|]. cbn [check_inverses] in H. apply andb_true_iff in H as [Hx H].
  destruct i as [|i]; [cbn [take fmap list_fmap foldr]; now rewrite Z.mul_1_r|].
  cbn [take fmap list_fmap foldr]. rewrite Z.mul_assoc. apply (IH _ i H). cbn in Hi. lia.
Qed.

(** [s] is the inverse of the product of the primes before it, in Montgomery form. *)
Lemma PRIMES_inverse i :
  (i < num_used)%nat -> monty (sp_p (PRIMES !!! i)) (sp_s (PRIMES !!! i) * prod_primes i mod sp_p (PRIMES !!! i)) 1 /\
  0 <= sp_s (PRIMES !!! i) < sp_p (PRIMES !!! i).
Proof.
  intros Hi. pose proof (check_inverses_lookup _ 1 i inverses_checked) as H.
  rewrite length_take, PRIMES_length, Nat.min_l in H by (unfold num_used, num_primes; lia). specialize (H Hi).
  rewrite lookup_total_take_lt, take_take, Nat.min_l, Z.mul_1_l in H by lia. fold (prod_primes i) in H.
  pose proof (good_range _ (PRIMES_good i ltac:(unfold num_used, num_primes in *; lia))) as Hr.
  set (x := PRIMES !!! i) in *. clearbody x. unfold check_inverse in H. rewrite !andb_true_iff, Z.eqb_eq, Z.ltb_lt, Z.leb_le in H.
  destruct H as [[H1 H2] H3]. split; [|lia]. split; [apply Z.mod_pos_bound; lia|]. rewrite cong_mod by lia.
  rewrite Z.mul_1_l. apply cong_mod_iff; [lia|]. rewrite <- H3. symmetry. now rewrite Zmult_mod_idemp_r.
Qed.

(** * The arithmetic, for every prime of the table *)

Section Entry.
Context (i : nat) (Hi : (i < num_primes)%nat).
Abbreviation p := (sp_p (PRIMES !!! i)).

Lemma entry_range : 2 ^ 30 < p < 2 ^ 31.
Proof using Hi. apply (PRIMES_good i Hi). Qed.

Lemma entry_odd : Z.odd p = true.
Proof using Hi. apply (PRIMES_good i Hi). Qed.

Lemma entry_ninv : is_ninv p (modp_ninv31 p).
Proof using Hi. apply modp_ninv31_spec, entry_odd. Qed.
End Entry.

(** The table of small primes is what its comment says: the first 521 entries are primes
    between 2^30 and 2^31 in decreasing order, equal to 1 modulo 2048, [g] is a root of X^1024 + 1, and, for
    the 157 entries that key generation of degree 512 uses, [s] is the inverse of the product of the
    previous primes in Montgomery form. *)
Theorem PRIMES_correct (i : nat) :
  (i < num_primes)%nat ->
  let p := sp_p (PRIMES !!! i) in
  2 ^ 30 < p < 2 ^ 31 /\ Z.prime p /\ p mod 2048 = 1 /\ ((0 < i)%nat -> p < sp_p (PRIMES !!! (i - 1)%nat)) /\
  sp_g (PRIMES !!! i) ^ 1024 ≡[p] -1 /\
  ((i < num_used)%nat -> 0 <= sp_s (PRIMES !!! i) < p /\ sp_s (PRIMES !!! i) * prod_primes i ≡[p] 2 ^ 31).
Proof.
  intros Hi p. destruct (PRIMES_good i Hi) as [H1 H2 H3 H4 H5]. split; [exact H1|]. split; [exact H3|]. split; [exact H4|].
  split; [now apply PRIMES_decreasing|]. split; [exact H5|]. intros Hu. destruct (PRIMES_inverse i Hu) as [[_ Hs] Hr].
  split; [exact Hr|]. rewrite cong_mod, Z.mul_1_l in Hs by lia. exact Hs.
Qed.

Lemma PRIMES_correct_witness :
  (0 < num_primes)%nat /\ Z.prime 2147473409 /\ sp_p (PRIMES !!! 0%nat) = 2147473409.
Proof.
  assert (0 < num_primes)%nat as H by (apply Nat.ltb_lt; reflexivity). split; [exact H|]. split; [|reflexivity].
  exact (proj1 (proj2 (PRIMES_correct 0 H))).
Defined.

(** Arithmetic modulo every prime p of the table: [modp_set] and [modp_norm] convert between
    signed values and residues, sums and differences are reduced, [modp_ninv31] is -1/p modulo 2^31, [modp_R]
    and [modp_R2] are 2^31 and 2^62, the Montgomery product of two residues is the residue of a b / 2^31,
    [modp_Rx] is 2^(31 x), and [modp_div] is the quotient, 0 when the divisor is 0. *)
Theorem modp_ops_correct (i : nat) (a b : Z) :
  (i < num_primes)%nat ->
  let p := sp_p (PRIMES !!! i) in
  let p0i := modp_ninv31 p in
  0 <= a < p -> 0 <= b < p ->
  is_ninv p p0i /\ (forall x, - p < x < p -> modp_set x p = x mod p) /\
  (- (p / 2) <= modp_norm a p <= p / 2 /\ modp_norm a p ≡[p] a) /\
  modp_add a b p = (a + b) mod p /\ modp_sub a b p = (a - b) mod p /\
  modp_R p = 2 ^ 31 mod p /\ modp_R2 p p0i = 2 ^ 62 mod p /\
  (0 <= modp_montymul a b p p0i < p /\ modp_montymul a b p p0i * 2 ^ 31 ≡[p] a * b) /\
  (forall x, 1 <= x <= 2 ^ 11 -> modp_Rx x p p0i (modp_R2 p p0i) = Some (2 ^ (31 * x) mod p)) /\
  (0 <= modp_div a b p p0i (modp_R p) < p /\
   (b <> 0 -> modp_div a b p p0i (modp_R p) * b ≡[p] a) /\ (b = 0 -> modp_div a b p p0i (modp_R p) = 0)).
Proof.
  intros Hi p p0i Ha Hb. pose proof (entry_range i Hi) as Hp. pose proof (entry_odd i Hi) as Ho. pose proof (entry_ninv i Hi) as Hn.
  split; [exact Hn|]. split; [intros; now apply modp_set_spec|]. split; [now apply modp_norm_spec|]. split; [now apply modp_add_spec|].
  split; [now apply modp_sub_spec|]. split; [now apply modp_R_spec|]. split; [now apply modp_R2_spec|].
  split; [apply modp_montymul_spec; try assumption; fold p in Hp |- *; nia|]. split; [intros; now apply modp_Rx_spec|].
  apply modp_div_spec; try assumption. apply (PRIMES_good i Hi).
Qed.

Lemma modp_ops_correct_witness :
  modp_add 2147473408 5 2147473409 = 4 /\ modp_div 6 3 2147473409 (modp_ninv31 2147473409) (modp_R 2147473409) * 3 ≡[2147473409] 6.
Proof.
  assert (0 < num_primes)%nat as H by (apply Nat.ltb_lt; reflexivity). split.
  - exact (proj1 (proj2 (proj2 (proj2 (modp_ops_correct 0 2147473408 5 H ltac:(vm_compute; split; congruence) ltac:(vm_compute; split; congruence)))))).
  - destruct (modp_ops_correct 0 6 3 H ltac:(vm_compute; split; congruence) ltac:(vm_compute; split; congruence)) as (_ & _ & _ & _ & _ & _ & _ & _ & _ & _ & Hd & _).
    apply Hd. discriminate.
Defined.
