(* ===== verification/ModpNtt.v ===== *)
(** ModpNtt: the number theoretic transform of [keygen.c], modulo its 31-bit primes.

    [modp_mkgm2] fills the tables of twiddle factors from a 2048-th root of unity of the prime;
    [modp_NTT2_ext] and [modp_iNTT2_ext] transform the elements a[0], a[stride], a[2 stride]... of an array.
    The reference is again evaluation at the roots of X^n + 1, through [Butterfly]. *)

From Stdlib Require Import ZArith Lia.
From stdpp Require Import base numbers list.
From S2P Require Import Prelude NumberTheory Polynomial Pass Butterfly Modp Primes.

Definition REV10 : list Z := [
    0; 512; 256; 768; 128; 640; 384; 896; 64; 576; 320; 832; 192; 704; 448; 960; 32; 544; 288; 800; 160; 672; 416;
    928; 96; 608; 352; 864; 224; 736; 480; 992; 16; 528; 272; 784; 144; 656; 400; 912; 80; 592; 336; 848; 208; 720;
    464; 976; 48; 560; 304; 816; 176; 688; 432; 944; 112; 624; 368; 880; 240; 752; 496; 1008; 8; 520; 264; 776; 136;
    648; 392; 904; 72; 584; 328; 840; 200; 712; 456; 968; 40; 552; 296; 808; 168; 680; 424; 936; 104; 616; 360; 872;
    232; 744; 488; 1000; 24; 536; 280; 792; 152; 664; 408; 920; 88; 600; 344; 856; 216; 728; 472; 984; 56; 568; 312;
    824; 184; 696; 440; 952; 120; 632; 376; 888; 248; 760; 504; 1016; 4; 516; 260; 772; 132; 644; 388; 900; 68; 580;
    324; 836; 196; 708; 452; 964; 36; 548; 292; 804; 164; 676; 420; 932; 100; 612; 356; 868; 228; 740; 484; 996; 20;
    532; 276; 788; 148; 660; 404; 916; 84; 596; 340; 852; 212; 724; 468; 980; 52; 564; 308; 820; 180; 692; 436; 948;
    116; 628; 372; 884; 244; 756; 500; 1012; 12; 524; 268; 780; 140; 652; 396; 908; 76; 588; 332; 844; 204; 716; 460;
    972; 44; 556; 300; 812; 172; 684; 428; 940; 108; 620; 364; 876; 236; 748; 492; 1004; 28; 540; 284; 796; 156; 668;
    412; 924; 92; 604; 348; 860; 220; 732; 476; 988; 60; 572; 316; 828; 188; 700; 444; 956; 124; 636; 380; 892; 252;
    764; 508; 1020; 2; 514; 258; 770; 130; 642; 386; 898; 66; 578; 322; 834; 194; 706; 450; 962; 34; 546; 290; 802;
    162; 674; 418; 930; 98; 610; 354; 866; 226; 738; 482; 994; 18; 530; 274; 786; 146; 658; 402; 914; 82; 594; 338;
    850; 210; 722; 466; 978; 50; 562; 306; 818; 178; 690; 434; 946; 114; 626; 370; 882; 242; 754; 498; 1010; 10; 522;
    266; 778; 138; 650; 394; 906; 74; 586; 330; 842; 202; 714; 458; 970; 42; 554; 298; 810; 170; 682; 426; 938; 106;
    618; 362; 874; 234; 746; 490; 1002; 26; 538; 282; 794; 154; 666; 410; 922; 90; 602; 346; 858; 218; 730; 474; 986;
    58; 570; 314; 826; 186; 698; 442; 954; 122; 634; 378; 890; 250; 762; 506; 1018; 6; 518; 262; 774; 134; 646; 390;
    902; 70; 582; 326; 838; 198; 710; 454; 966; 38; 550; 294; 806; 166; 678; 422; 934; 102; 614; 358; 870; 230; 742;
    486; 998; 22; 534; 278; 790; 150; 662; 406; 918; 86; 598; 342; 854; 214; 726; 470; 982; 54; 566; 310; 822; 182;
    694; 438; 950; 118; 630; 374; 886; 246; 758; 502; 1014; 14; 526; 270; 782; 142; 654; 398; 910; 78; 590; 334; 846;
    206; 718; 462; 974; 46; 558; 302; 814; 174; 686; 430; 942; 110; 622; 366; 878; 238; 750; 494; 1006; 30; 542; 286;
    798; 158; 670; 414; 926; 94; 606; 350; 862; 222; 734; 478; 990; 62; 574; 318; 830; 190; 702; 446; 958; 126; 638;
    382; 894; 254; 766; 510; 1022; 1; 513; 257; 769; 129; 641; 385; 897; 65; 577; 321; 833; 193; 705; 449; 961; 33;
    545; 289; 801; 161; 673; 417; 929; 97; 609; 353; 865; 225; 737; 481; 993; 17; 529; 273; 785; 145; 657; 401; 913;
    81; 593; 337; 849; 209; 721; 465; 977; 49; 561; 305; 817; 177; 689; 433; 945; 113; 625; 369; 881; 241; 753; 497;
    1009; 9; 521; 265; 777; 137; 649; 393; 905; 73; 585; 329; 841; 201; 713; 457; 969; 41; 553; 297; 809; 169; 681;
    425; 937; 105; 617; 361; 873; 233; 745; 489; 1001; 25; 537; 281; 793; 153; 665; 409; 921; 89; 601; 345; 857; 217;
    729; 473; 985; 57; 569; 313; 825; 185; 697; 441; 953; 121; 633; 377; 889; 249; 761; 505; 1017; 5; 517; 261; 773;
    133; 645; 389; 901; 69; 581; 325; 837; 197; 709; 453; 965; 37; 549; 293; 805; 165; 677; 421; 933; 101; 613; 357;
    869; 229; 741; 485; 997; 21; 533; 277; 789; 149; 661; 405; 917; 85; 597; 341; 853; 213; 725; 469; 981; 53; 565;
    309; 821; 181; 693; 437; 949; 117; 629; 373; 885; 245; 757; 501; 1013; 13; 525; 269; 781; 141; 653; 397; 909; 77;
    589; 333; 845; 205; 717; 461; 973; 45; 557; 301; 813; 173; 685; 429; 941; 109; 621; 365; 877; 237; 749; 493; 1005;
    29; 541; 285; 797; 157; 669; 413; 925; 93; 605; 349; 861; 221; 733; 477; 989; 61; 573; 317; 829; 189; 701; 445;
    957; 125; 637; 381; 893; 253; 765; 509; 1021; 3; 515; 259; 771; 131; 643; 387; 899; 67; 579; 323; 835; 195; 707;
    451; 963; 35; 547; 291; 803; 163; 675; 419; 931; 99; 611; 355; 867; 227; 739; 483; 995; 19; 531; 275; 787; 147;
    659; 403; 915; 83; 595; 339; 851; 211; 723; 467; 979; 51; 563; 307; 819; 179; 691; 435; 947; 115; 627; 371; 883;
    243; 755; 499; 1011; 11; 523; 267; 779; 139; 651; 395; 907; 75; 587; 331; 843; 203; 715; 459; 971; 43; 555; 299;
    811; 171; 683; 427; 939; 107; 619; 363; 875; 235; 747; 491; 1003; 27; 539; 283; 795; 155; 667; 411; 923; 91; 603;
    347; 859; 219; 731; 475; 987; 59; 571; 315; 827; 187; 699; 443; 955; 123; 635; 379; 891; 251; 763; 507; 1019; 7;
    519; 263; 775; 135; 647; 391; 903; 71; 583; 327; 839; 199; 711; 455; 967; 39; 551; 295; 807; 167; 679; 423; 935;
    103; 615; 359; 871; 231; 743; 487; 999; 23; 535; 279; 791; 151; 663; 407; 919; 87; 599; 343; 855; 215; 727; 471;
    983; 55; 567; 311; 823; 183; 695; 439; 951; 119; 631; 375; 887; 247; 759; 503; 1015; 15; 527; 271; 783; 143; 655;
    399; 911; 79; 591; 335; 847; 207; 719; 463; 975; 47; 559; 303; 815; 175; 687; 431; 943; 111; 623; 367; 879; 239;
    751; 495; 1007; 31; 543; 287; 799; 159; 671; 415; 927; 95; 607; 351; 863; 223; 735; 479; 991; 63; 575; 319; 831;
    191; 703; 447; 959; 127; 639; 383; 895; 255; 767; 511; 1023 ].

Definition modp_mkgm2 (gm igm : list Z) (logn : nat) (g p p0i : Z) : list Z * list Z :=
  let n := (2 ^ logn)%nat in
  let R2 := modp_R2 p p0i in
  let g := modp_montymul g R2 p p0i in
  let g := for_up logn 10 (fun _ g => modp_montymul g g p p0i) g in
  let ig := modp_div R2 g p p0i (modp_R p) in
  let k := 10 - Z.of_nat logn in
  let x1 := modp_R p in
  (for_up 0 n (fun u '(x1, x2, (gm, igm)) =>
     let v := Z.to_nat (REV10 !!! Z.to_nat (Z.of_nat u .<< k)) in
     let gm := <[v := x1]> gm in
     let igm := <[v := x2]> igm in
     (modp_montymul x1 g p p0i, modp_montymul x2 ig p p0i, (gm, igm))) (x1, x1, (gm, igm))).2.

(** One turn of the loop on [m]; [r1] and [r2] are the offsets of the pointers of the source. *)
Definition modp_NTT2_level (stride m t : nat) (gm : list Z) (p p0i : Z) (a : list Z) : list Z :=
  let ht := (t / 2)%nat in
  (for_up 0 m (fun u '(v1, a) =>
     let s := gm !!! (m + u)%nat in
     let r1 := (v1 * stride)%nat in
     let r2 := (r1 + ht * stride)%nat in
     ((v1 + t)%nat, for_up 0 ht (fun v a =>
        let x := a !!! (r1 + v * stride)%nat in
        let y := modp_montymul (a !!! (r2 + v * stride)%nat) s p p0i in
        let a := <[(r1 + v * stride)%nat := modp_add x y p]> a in
        <[(r2 + v * stride)%nat := modp_sub x y p]> a) a)) (0%nat, a)).2.

(** [for (m = 1; m < n; m <<= 1)]. *)
Fixpoint modp_NTT2_levels (fuel n stride m t : nat) (gm : list Z) (p p0i : Z) (a : list Z) : list Z :=
  match fuel with
  | O => a
  | S fuel =>
      if (m <? n)%nat then modp_NTT2_levels fuel n stride (2 * m) (t / 2) gm p p0i (modp_NTT2_level stride m t gm p p0i a)
      else a
  end.

Definition modp_NTT2_ext (a : list Z) (stride : nat) (gm : list Z) (logn : nat) (p p0i : Z) : list Z :=
  if (logn =? 0)%nat then a else
  let n := (2 ^ logn)%nat in modp_NTT2_levels (S logn) n stride 1 n gm p p0i a.

Definition modp_iNTT2_level (stride hm t : nat) (igm : list Z) (p p0i : Z) (a : list Z) : list Z :=
  let dt := (2 * t)%nat in
  (for_up 0 hm (fun u '(v1, a) =>
     let s := igm !!! (hm + u)%nat in
     let r1 := (v1 * stride)%nat in
     let r2 := (r1 + t * stride)%nat in
     ((v1 + dt)%nat, for_up 0 t (fun v a =>
        let x := a !!! (r1 + v * stride)%nat in
        let y := a !!! (r2 + v * stride)%nat in
        let a := <[(r1 + v * stride)%nat := modp_add x y p]> a in
        <[(r2 + v * stride)%nat := modp_montymul (modp_sub x y p) s p p0i]> a) a)) (0%nat, a)).2.

(** [for (m = n; m > 1; m >>= 1)]. *)
Fixpoint modp_iNTT2_levels (fuel stride m t : nat) (igm : list Z) (p p0i : Z) (a : list Z) : list Z :=
  match fuel with
  | O => a
  | S fuel =>
      if (1 <? m)%nat then modp_iNTT2_levels fuel stride (m / 2) (2 * t) igm p p0i (modp_iNTT2_level stride (m / 2) t igm p p0i a)
      else a
  end.

Definition modp_iNTT2_ext (a : list Z) (stride : nat) (igm : list Z) (logn : nat) (p p0i : Z) : list Z :=
  if (logn =? 0)%nat then a else
  let n := (2 ^ logn)%nat in
  let a := modp_iNTT2_levels (S logn) stride n 1 igm p p0i a in
  let ni := u32 (1 .<< (31 - Z.of_nat logn)) in
  for_up 0 n (fun k a => <[(k * stride)%nat := modp_montymul (a !!! (k * stride)%nat) ni p p0i]> a) a.

Definition modp_NTT2 (a gm : list Z) (logn : nat) (p p0i : Z) : list Z := modp_NTT2_ext a 1 gm logn p p0i.
Definition modp_iNTT2 (a igm : list Z) (logn : nat) (p p0i : Z) : list Z := modp_iNTT2_ext a 1 igm logn p p0i.

Definition modp_poly_rec_res (f : list Z) (logn : nat) (p p0i R2 : Z) : list Z :=
  let hn := (2 ^ (logn - 1))%nat in
  for_up 0 hn (fun u f =>
    let w0 := f !!! (2 * u + 0)%nat in
    let w1 := f !!! (2 * u + 1)%nat in
    <[u := modp_montymul (modp_montymul w0 w1 p p0i) R2 p p0i]> f) f.

Example ntt2_smoke :
  let p := 2147473409 in
  let p0i := modp_ninv31 p in
  let '(gm, igm) := modp_mkgm2 (replicate 4 0) (replicate 4 0) 2 383167813 p p0i in
  modp_iNTT2 (modp_NTT2 [1; 2; 3; 2147473408] gm 2 p p0i) igm 2 p p0i = [1; 2; 3; 2147473408] /\
  modp_iNTT2_ext (modp_NTT2_ext [1; 9; 2; 8; 3; 7; 5] 2 gm 2 p p0i) 2 igm 2 p p0i = [1; 9; 2; 8; 3; 7; 5].
Proof. vm_compute. split; reflexivity. Qed.

(** * The bit-reversal table *)

Definition rv (v : nat) : nat := Z.to_nat (REV10 !!! v).

Definition rev_check : bool :=
  forallb (fun logn =>
    let k := (10 - logn)%nat in
    let n := (2 ^ logn)%nat in
    forallb (fun u =>
      let v := rv (u * 2 ^ k) in
      (v <? n)%nat && (rv v =? u * 2 ^ k)%nat && (rv u mod 2 ^ k =? 0)%nat && (rv u <? 1024)%nat && (rv (rv u) =? u)%nat) (seq 0 n))
    (seq 0 11) &&
  forallb (fun h => (2 * rv h =? (if h =? 1 then 1024 else rv (h / 2) + (if Nat.even h then 0 else 1024)))%nat) (seq 1 1023).

Lemma rev_checked : rev_check = true.
Proof. vm_compute. reflexivity. Qed.

Lemma rv_entry v : Z.to_nat (REV10 !!! v) = rv v.
Proof. reflexivity. Qed.

#[local] Opaque rv.

Section Reversal.
Context (logn : nat) (Hlogn : (logn <= 10)%nat).
Abbreviation n := (2 ^ logn)%nat.
Abbreviation k := (10 - logn)%nat.

(** Position [v] of the tables holds the power of index [slot v]. *)
Definition slot (v : nat) : nat := (rv v / 2 ^ k)%nat.

Lemma rev_facts u :
  (u < n)%nat ->
  (rv (u * 2 ^ k) < n /\ rv (rv (u * 2 ^ k)) = u * 2 ^ k /\ rv u = slot u * 2 ^ k /\ slot u < n /\ rv (slot u * 2 ^ k) = u)%nat.
Proof using Hlogn.
  intros Hu. pose proof rev_checked as H. unfold rev_check in H. apply andb_true_iff in H as [H _].
  rewrite forallb_forall in H. specialize (H logn ltac:(apply in_seq; lia)). cbv zeta in H.
  rewrite forallb_forall in H. specialize (H u ltac:(apply in_seq; lia)).
  rewrite !andb_true_iff, !Nat.eqb_eq, !Nat.ltb_lt in H. destruct H as ((((H1 & H2) & H3) & H4) & H5).
  assert (rv u = slot u * 2 ^ k)%nat as E.
  { unfold slot. pose proof (Nat.div_mod_eq (rv u) (2 ^ k)). rewrite H3 in *. lia. }
  split; [exact H1|]. split; [exact H2|]. split; [exact E|]. rewrite <- E. split; [|exact H5].
  assert (1024 = n * 2 ^ k)%nat as En by (rewrite <- Nat.pow_add_r; replace (logn + k)%nat with 10%nat by lia; reflexivity).
  apply Nat.Div0.div_lt_upper_bound. lia.
Qed.

Lemma slot_inv u v : (u < n)%nat -> (v < n)%nat -> slot v = u <-> v = rv (u * 2 ^ k).
Proof using Hlogn.
  intros Hu Hv. split.
  - intros <-. symmetry. apply rev_facts. exact Hv.
  - intros ->. destruct (rev_facts u Hu) as (H1 & H2 & _). unfold slot. rewrite H2. apply Nat.div_mul, Nat.pow_nonzero. lia.
Qed.
End Reversal.

(** Entry [h] is half of entry [h / 2], up to half a turn. *)
Lemma rev_half h :
  (1 <= h < 1024)%nat -> (2 * rv h = if h =? 1 then 1024 else rv (h / 2) + (if Nat.even h then 0 else 1024))%nat.
Proof.
  intros Hh. pose proof rev_checked as H. unfold rev_check in H. apply andb_true_iff in H as [_ H].
  rewrite forallb_forall in H. specialize (H h ltac:(apply in_seq; lia)). now apply Nat.eqb_eq in H.
Qed.

(** A primitive 2048-th root of unity. *)
Definition half_turn (p gamma : Z) : Prop := gamma ^ 1024 ≡[p] -1.

Section Modulus.
Context (p p0i gamma : Z) (Hp : 2 ^ 30 < p < 2 ^ 31) (Hodd : Z.odd p = true) (Hp0i : is_ninv p p0i) (Hprime : Z.prime p)
  (Hgamma : 0 <= gamma < 2 ^ 31) (Hroot : half_turn p gamma).

Abbreviation monty := (monty p).

(** The twiddle factors out of Montgomery form, and their inverses. *)
Definition mtw (v : nat) : Z := gamma ^ Z.of_nat (rv v).
Definition mitw (v : nat) : Z := (gamma ^ 2047) ^ Z.of_nat (rv v).

Lemma gamma_inverse : gamma * gamma ^ 2047 ≡[p] 1.
Proof using Hroot.
  rewrite <- (Z.pow_succ_r gamma 2047) by lia. change (Z.succ 2047) with (1024 * 2).
  rewrite Z.pow_mul_r by lia. unfold half_turn in Hroot. rewrite Hroot. reflexivity.
Qed.

Lemma mtw_mitw v : mtw v * mitw v ≡[p] 1.
Proof using Hroot.
  unfold mtw, mitw. rewrite <- Z.pow_mul_l. apply cong_1_pow; [exact gamma_inverse | lia].
Qed.

Lemma mtw_sqr v : (1 <= v < 1024)%nat -> mtw v * mtw v ≡[p] tree_root mtw v.
Proof using Hroot.
  intros Hv. unfold mtw at 1 2. rewrite <- Z.pow_add_r by lia. rewrite <- Nat2Z.inj_add.
  replace (rv v + rv v)%nat with (2 * rv v)%nat by lia. rewrite (rev_half v Hv). unfold tree_root.
  destruct (Nat.eqb_spec v 1); [exact Hroot|]. destruct (Nat.even v); [now rewrite Nat.add_0_r|].
  rewrite Nat2Z.inj_add, Z.pow_add_r by lia. change (Z.of_nat 1024) with 1024. unfold half_turn in Hroot. rewrite Hroot. unfold mtw.
  apply (cong_intro _ _ _ 0). ring.
Qed.

Lemma p_above_2 : 2 < p.
Proof using Hp. clear - Hp. lia. Qed.

(** * The tables *)

Definition tables_ok (logn : nat) (gm igm : list Z) : Prop :=
  forall v, (v < 2 ^ logn)%nat -> monty (gm !!! v) (mtw v) /\ monty (igm !!! v) (mitw v).

Lemma monty_residue x : 0 <= x < 2 ^ 31 -> monty (modp_montymul x (modp_R2 p p0i) p p0i) x.
Proof using Hp Hodd Hp0i.
  intros Hx. destruct (monty_R2 p p0i Hp Hodd Hp0i) as [Hr Hc]. unfold residue in Hr.
  destruct (modp_montymul_spec p p0i Hp Hp0i x (modp_R2 p p0i)) as [H1 H2]; [lia | lia | nia |].
  split; [exact H1|]. apply (two31_cancel p p0i Hp0i). rewrite H2, Hc. apply (cong_intro _ _ _ 0). ring.
Qed.

Lemma squared_root logn z :
  (logn <= 10)%nat -> monty z gamma ->
  monty (for_up logn 10 (fun _ g => modp_montymul g g p p0i) z) (gamma ^ 2 ^ Z.of_nat (10 - logn)).
Proof using Hp Hp0i Hgamma.
  intros Hl Hz. apply (for_up_inv _ (fun j z => monty z (gamma ^ 2 ^ Z.of_nat (j - logn)))).
  - exact Hl.
  - rewrite Nat.sub_diag. change (2 ^ Z.of_nat 0) with 1. now rewrite Z.pow_1_r.
  - intros j y Hj Hy. replace (S j - logn)%nat with (S (j - logn)) by lia. rewrite Nat2Z.inj_succ, Z.pow_succ_r by lia.
    replace (2 * 2 ^ Z.of_nat (j - logn)) with (2 ^ Z.of_nat (j - logn) + 2 ^ Z.of_nat (j - logn)) by ring.
    rewrite Z.pow_add_r by (apply Z.pow_nonneg; lia). now apply (monty_mul p p0i Hp Hp0i).
Qed.

Lemma quotient_step z d G D r : r ≡[p] 2 ^ 31 * 2 ^ 31 ->
  z ≡[p] G * 2 ^ 31 -> G * D ≡[p] 1 -> d * z ≡[p] r -> d ≡[p] D * 2 ^ 31.
Proof using Hp0i.
  intros Hr Hc HGD Hm. rewrite Hc, Hr in Hm.
  assert (d * G ≡[p] 2 ^ 31) as Hdg by (apply (two31_cancel p p0i Hp0i); rewrite <- Hm; apply (cong_intro _ _ _ 0); ring).
  transitivity (d * (G * D)); [rewrite HGD; apply (cong_intro _ _ _ 0); ring|].
  rewrite Z.mul_assoc, Hdg. apply (cong_intro _ _ _ 0). ring.
Qed.

Lemma monty_nonzero z G D : monty z G -> G * D ≡[p] 1 -> z <> 0.
Proof using Hp Hp0i.
  intros [_ Hc] HGD ->. assert (0 ≡[p] 1) as H1.
  { apply (two31_cancel p p0i Hp0i). transitivity (G * 2 ^ 31 * D); [rewrite <- Hc; apply (cong_intro _ _ _ 0); ring|].
    transitivity (G * D * 2 ^ 31); [apply (cong_intro _ _ _ 0); ring | rewrite HGD; reflexivity]. }
  apply cong_mod_iff in H1; [|clear - Hp; lia]. rewrite Z.mod_0_l, Z.mod_small in H1 by (clear - Hp; lia). discriminate H1.
Qed.

Lemma monty_quotient z G D :
  monty z G -> G * D ≡[p] 1 -> monty (modp_div (modp_R2 p p0i) z p p0i (modp_R p)) D.
Proof using Hp Hodd Hp0i Hprime.
  intros Hz HGD. pose proof (monty_R2 p p0i Hp Hodd Hp0i) as [Hr HrC].
  destruct (modp_div_spec p p0i Hp Hodd Hp0i (modp_R2 p p0i) z Hprime Hr (proj1 Hz)) as (Hd & Hm & _).
  split; [exact Hd|]. exact (quotient_step _ _ _ _ _ HrC (proj2 Hz) HGD (Hm (monty_nonzero _ _ _ Hz HGD))).
Qed.

Lemma modp_mkgm2_spec gm igm logn :
  (logn <= 10)%nat -> length gm = (2 ^ logn)%nat -> length igm = (2 ^ logn)%nat ->
  let r := modp_mkgm2 gm igm logn gamma p p0i in
  length r.1 = (2 ^ logn)%nat /\ length r.2 = (2 ^ logn)%nat /\ tables_ok logn r.1 r.2.
Proof using Hp Hodd Hp0i Hprime Hgamma Hroot.
  intros Hl Hg Hi. cbv zeta. unfold modp_mkgm2. cbv zeta.
  pose proof (squared_root logn _ Hl (monty_residue gamma Hgamma)) as HG.
  set (g := for_up logn 10 _ _) in *. clearbody g. set (G := gamma ^ 2 ^ Z.of_nat (10 - logn)) in *.
  set (D := (gamma ^ 2047) ^ 2 ^ Z.of_nat (10 - logn)).
  assert (G * D ≡[p] 1) as HGD.
  { unfold G, D. rewrite <- Z.pow_mul_l. apply cong_1_pow; [exact gamma_inverse | apply Z.pow_nonneg; lia]. }
  pose proof (monty_quotient g G D HG HGD) as HD. set (ig := modp_div _ _ _ _ _) in *. clearbody ig.
  assert (forall u v, rv v = (u * 2 ^ (10 - logn))%nat -> mtw v = G ^ Z.of_nat u /\ mitw v = D ^ Z.of_nat u) as HE.
  { intros u v E. unfold mtw, mitw, G, D. rewrite E, Nat2Z.inj_mul, Nat2Z.inj_pow, (Z.mul_comm (Z.of_nat u)).
    change (Z.of_nat 2) with 2. assert (0 <= 2 ^ Z.of_nat (10 - logn)) as Hpos by (apply Z.pow_nonneg; discriminate).
    split; apply Z.pow_mul_r; (exact Hpos || apply Nat2Z.is_nonneg). }
  clearbody G D.
  set (n := (2 ^ logn)%nat) in *. set (body := fun (u : nat) (st : Z * Z * (list Z * list Z)) => _).
  pose (inv (u : nat) (st : Z * Z * (list Z * list Z)) :=
    let '(x1, x2, (gm, igm)) := st in
    monty x1 (G ^ Z.of_nat u) /\ monty x2 (D ^ Z.of_nat u) /\ length gm = n /\ length igm = n /\
    forall v, (v < n)%nat -> (slot logn v < u)%nat -> monty (gm !!! v) (mtw v) /\ monty (igm !!! v) (mitw v)).
  assert (inv n (for_up 0 n body (modp_R p, modp_R p, (gm, igm)))) as H.
  { apply (for_up_inv _ inv); [lia | |].
    - pose proof (monty_R p Hp). split; [done|]. split; [done|]. split; [done|]. split; [done|]. intros v _ Hv. lia.
    - intros u [[x1 x2] [a b]] Hu (H1 & H2 & H3 & H4 & H5).
      assert (Z.to_nat (REV10 !!! Z.to_nat (Z.of_nat u .<< (10 - Z.of_nat logn))) = rv (u * 2 ^ (10 - logn))) as Ev.
      { rewrite rv_entry. f_equal. rewrite Z.shiftl_mul_pow2 by lia. replace (10 - Z.of_nat logn) with (Z.of_nat (10 - logn)) by lia.
        rewrite <- (Nat2Z.inj_pow 2), <- Nat2Z.inj_mul. apply Nat2Z.id. }
      unfold body. cbv zeta. rewrite Ev. destruct (rev_facts logn Hl u ltac:(fold n; lia)) as (Hv & Hvv & _).
      set (v0 := rv (u * 2 ^ (10 - logn))) in *. fold n in Hv.
      destruct (HE u v0 Hvv) as [Em Ei].
      unfold inv. rewrite Nat2Z.inj_succ, !Z.pow_succ_r, (Z.mul_comm G), (Z.mul_comm D) by lia.
      split; [now apply (monty_mul p p0i Hp Hp0i)|]. split; [now apply (monty_mul p p0i Hp Hp0i)|].
      split; [now rewrite length_insert|]. split; [now rewrite length_insert|].
      intros v Hvn Hs. destruct (decide (v = v0)) as [->|Hne].
      + rewrite !list_lookup_total_insert_eq by lia. rewrite Em, Ei. now split.
      + rewrite !list_lookup_total_insert_ne by done. apply H5; [done|].
        enough (slot logn v <> u) by lia. intros E. apply Hne. now apply (slot_inv logn Hl u v).
  }
  destruct (for_up 0 n body _) as [[x1 x2] [a b]]. destruct H as (_ & _ & H3 & H4 & H5). cbn [fst snd].
  split; [exact H3|]. split; [exact H4|]. intros v Hv. apply H5; [exact Hv|]. apply (rev_facts logn Hl v Hv).
Qed.
End Modulus.

(** * Strided arrays

    [strided a0 a b]: the elements a[0], a[stride], ... of [a] are the list [b], its other cells are
    those of [a0]. *)

Section Strided.
Context (stride n : nat) (Hstride : (0 < stride)%nat).

Definition column (a : list Z) : list Z := (fun k => a !!! (k * stride)%nat) <$> seq 0 n.

Definition fits_in (a : list Z) : Prop := forall k, (k < n)%nat -> (k * stride < length a)%nat.

Definition strided (a0 a b : list Z) : Prop :=
  length a = length a0 /\ length b = n /\ (forall k, (k < n)%nat -> a !!! (k * stride)%nat = b !!! k) /\
  (forall i, (forall k, (k < n)%nat -> i <> (k * stride)%nat) -> a !!! i = a0 !!! i).

Lemma column_lookup a k : (k < n)%nat -> column a !!! k = a !!! (k * stride)%nat.
Proof.
  intros Hk. unfold column. rewrite (@list_lookup_total_fmap nat Z (fun k => a !!! (k * stride)%nat) _ _) by now rewrite length_seq.
  now rewrite lookup_total_seq_lt.
Qed.

Lemma length_column a : length (column a) = n.
Proof. unfold column. now rewrite length_fmap, length_seq. Qed.

Lemma strided_start a : strided a a (column a).
Proof. split; [done|]. split; [apply length_column|]. split; [intros; now rewrite column_lookup | done]. Qed.

Lemma strided_column a0 a b : strided a0 a b -> b = column a.
Proof.
  intros (_ & Hb & Hk & _). apply list_eq_total; [now rewrite length_column|]. rewrite Hb. intros k Hlt.
  rewrite column_lookup by done. symmetry. now apply Hk.
Qed.

Lemma strided_insert a0 a b k x :
  fits_in a0 -> strided a0 a b -> (k < n)%nat -> strided a0 (<[(k * stride)%nat := x]> a) (<[k := x]> b).
Proof using Hstride.
  intros Hf (Ha & Hb & Hl & Ho) Hk. split; [now rewrite length_insert|]. split; [now rewrite length_insert|]. split.
  - intros j Hj. destruct (decide (k = j)) as [->|Hne].
    + rewrite !list_lookup_total_insert_eq; [done | lia | rewrite Ha; now apply Hf].
    + rewrite !list_lookup_total_insert_ne; [now apply Hl | done | nia].
  - intros i Hi. rewrite list_lookup_total_insert_ne; [now apply Ho | apply not_eq_sym; now apply Hi].
Qed.

(** Two strided arrays over the same cells with the same column are equal. *)
Lemma strided_eq a0 a b c : strided a0 a c -> strided a0 b c -> a = b.
Proof using Type. clear Hstride.
  intros (H1 & _ & H2 & H3) (H1' & _ & H2' & H3'). apply list_eq_total; [lia|]. intros j _.
  destruct (decide (Exists (fun k => j = (k * stride)%nat) (seq 0 n))) as [H|H].
  - apply Exists_exists in H as (k & Hk%elem_of_seq & ->). rewrite H2, H2' by lia. reflexivity.
  - assert (forall k, (k < n)%nat -> j <> (k * stride)%nat) as Hj.
    { intros k Hk E. apply H, Exists_exists. exists k. split; [apply elem_of_seq; lia | exact E]. }
    now rewrite H3, H3'.
Qed.

Lemma strided_trans a0 a b c d : strided a0 a b -> strided a c d -> strided a0 c d.
Proof using Type. clear Hstride.
  intros (H1 & _ & _ & H3) (H1' & H2' & H3' & H4'). split; [lia|]. split; [done|]. split; [done|].
  intros j Hj. now rewrite H4', H3.
Qed.

Lemma fits_in_strided a0 a b : fits_in a0 -> strided a0 a b -> fits_in a.
Proof using Type. clear Hstride. intros H (Hl & _) k Hk. rewrite Hl. now apply H. Qed.

(** A level on the strided elements is a pass on the column. *)
Lemma strided_bfly F G a0 a b ht j1 j v :
  fits_in a0 -> strided a0 a b -> (j1 + 2 * ht <= n)%nat -> (v < ht)%nat -> j = (j1 + v)%nat ->
  let i1 := (j1 * stride + v * stride)%nat in
  let i2 := (j1 * stride + ht * stride + v * stride)%nat in
  strided a0 (<[i2 := G (a !!! i1) (a !!! i2)]> (<[i1 := F (a !!! i1) (a !!! i2)]> a)) (bfly F G ht j b).
Proof using Hstride.
  intros Hf Hs Hj Hv ->. cbv zeta.
  replace (j1 * stride + v * stride)%nat with ((j1 + v) * stride)%nat by lia.
  replace (j1 * stride + ht * stride + v * stride)%nat with ((j1 + v + ht) * stride)%nat by lia.
  pose proof Hs as (_ & _ & Hl & _). rewrite !Hl by lia. unfold bfly.
  apply strided_insert; [done | | lia]. apply strided_insert; [done | done | lia].
Qed.

Lemma strided_pass F G a0 a b cnt ht :
  fits_in a0 -> strided a0 a b -> n = (cnt * (2 * ht))%nat ->
  strided a0
    (for_up 0 cnt (fun u '(v1, a) =>
       ((v1 + 2 * ht)%nat, for_up 0 ht (fun v a =>
          let i1 := (v1 * stride + v * stride)%nat in
          let i2 := (v1 * stride + ht * stride + v * stride)%nat in
          <[i2 := G u (a !!! i1) (a !!! i2)]> (<[i1 := F u (a !!! i1) (a !!! i2)]> a)) a)) (0%nat, a)).2
    (pass F G cnt ht b).
Proof using Hstride.
  intros Hf Hs Hn. unfold pass.
  pose (Rel (k : nat) (s s' : nat * list Z) := s.1 = (k * (2 * ht))%nat /\ s'.1 = (k * (2 * ht))%nat /\ strided a0 s.2 s'.2).
  match goal with |- strided _ (for_up _ _ ?B ?S).2 (for_up _ _ ?B' ?S').2 => set (body := B); set (body' := B'); set (s := S); set (s' := S') end.
  apply (for_up_sim body body' Rel 0 0 cnt s s'); [done|]. clear s s' Hs a b. intros k [v1 a] [j1 b] Hk (H1 & H2 & H3).
  cbn [fst snd] in H1, H2, H3. subst v1 j1. rewrite !Nat.add_0_l. unfold body, body', Rel. cbn [fst snd].
  split; [lia|]. split; [lia|]. replace ht with (0 + ht)%nat at 3 by lia.
  apply (for_up_sim _ _ (fun _ => strided a0) 0 (k * (2 * ht)) ht a b); [exact H3|].
  intros v r r' Hv Hr. rewrite Nat.add_0_l. apply (strided_bfly (F k) (G k) a0 r r' ht (k * (2 * ht))); [done | done | nia | done | done].
Qed.
End Strided.

(** Stride 1: the whole array. *)
Lemma column_1 n a : length a = n -> column 1 n a = a.
Proof.
  intros Hl. apply list_eq_total; [now rewrite length_column|]. rewrite length_column. intros k Hk.
  rewrite column_lookup by done. now rewrite Nat.mul_1_r.
Qed.

Lemma strided_1 n a r b : length a = n -> strided 1 n a r b -> r = b.
Proof.
  intros Hl (H1 & H2 & H3 & _). apply list_eq_total; [lia|]. intros k Hk. rewrite <- H3 by lia. now rewrite Nat.mul_1_r.
Qed.

Lemma fits_in_1 n a : length a = n -> fits_in 1 n a.
Proof. intros Hl k Hk. lia. Qed.

(** * The transforms *)

Definition ntt2_F (s p p0i u v : Z) : Z := modp_add u (modp_montymul v s p p0i) p.
Definition ntt2_G (s p p0i u v : Z) : Z := modp_sub u (modp_montymul v s p p0i) p.
Definition intt2_F (p u v : Z) : Z := modp_add u v p.
Definition intt2_G (s p p0i u v : Z) : Z := modp_montymul (modp_sub u v p) s p p0i.

Section Levels.
Context (stride n : nat) (Hstride : (0 < stride)%nat) (p p0i : Z).

Lemma modp_NTT2_level_pass m ht gm a0 a b :
  fits_in stride n a0 -> strided stride n a0 a b -> n = (m * (2 * ht))%nat ->
  strided stride n a0 (modp_NTT2_level stride m (2 * ht) gm p p0i a)
    (pass (fun u => ntt2_F (gm !!! (m + u)%nat) p p0i) (fun u => ntt2_G (gm !!! (m + u)%nat) p p0i) m ht b).
Proof using Hstride.
  intros Hf Hs Hn. unfold modp_NTT2_level. rewrite (Nat.mul_comm 2 ht), Nat.div_mul, (Nat.mul_comm ht 2) by lia.
  exact (strided_pass stride n Hstride (fun u => ntt2_F (gm !!! (m + u)%nat) p p0i) (fun u => ntt2_G (gm !!! (m + u)%nat) p p0i) a0 a b m ht Hf Hs Hn).
Qed.

Lemma modp_iNTT2_level_pass hm t igm a0 a b :
  fits_in stride n a0 -> strided stride n a0 a b -> n = (hm * (2 * t))%nat ->
  strided stride n a0 (modp_iNTT2_level stride hm t igm p p0i a)
    (pass (fun _ => intt2_F p) (fun u => intt2_G (igm !!! (hm + u)%nat) p p0i) hm t b).
Proof using Hstride.
  intros Hf Hs Hn. unfold modp_iNTT2_level.
  exact (strided_pass stride n Hstride (fun _ => intt2_F p) (fun u => intt2_G (igm !!! (hm + u)%nat) p p0i) a0 a b hm t Hf Hs Hn).
Qed.
End Levels.

Section Transform.
Context (p p0i gamma : Z) (Hp : 2 ^ 30 < p < 2 ^ 31) (Hodd : Z.odd p = true) (Hp0i : is_ninv p p0i) (Hprime : Z.prime p)
  (Hgamma : 0 <= gamma < 2 ^ 31) (Hroot : half_turn p gamma).
(** Multiplication by a twiddle factor in Montgomery form. *)
Lemma montymul_by x s t : residue p x -> monty p s t -> residue p (modp_montymul x s p p0i) /\ modp_montymul x s p p0i ≡[p] x * t.
Proof using Hp Hp0i.
  clear - Hp Hp0i. intros Hx [Hs Hc]. unfold residue in *. destruct (modp_montymul_spec p p0i Hp Hp0i x s) as [H1 H2]; [lia | lia | nia |].
  split; [exact H1|]. apply (two31_cancel p p0i Hp0i). rewrite H2, Hc. apply (cong_intro _ _ _ 0). ring.
Qed.

Lemma add_residue u v : residue p u -> residue p v -> residue p (modp_add u v p) /\ modp_add u v p ≡[p] u + v.
Proof using Hp.
  intros Hu Hv. rewrite (modp_add_spec p Hp u v Hu Hv). split; [apply Z.mod_pos_bound|apply cong_mod]; clear - Hp; lia.
Qed.

Lemma sub_residue u v : residue p u -> residue p v -> residue p (modp_sub u v p) /\ modp_sub u v p ≡[p] u - v.
Proof using Hp.
  intros Hu Hv. rewrite (modp_sub_spec p Hp u v Hu Hv). split; [apply Z.mod_pos_bound|apply cong_mod]; clear - Hp; lia.
Qed.

Lemma ntt2_linear s t : monty p s t -> linear p (ntt2_F s p p0i) 1 t /\ linear p (ntt2_G s p p0i) 1 (- t).
Proof using Hp Hp0i.
  intros Hs. split; intros u v Hu Hv; destruct (montymul_by v s t Hv Hs) as [Hm Hc].
  - destruct (add_residue u _ Hu Hm) as [Ha Hac]. split; [exact Ha|]. unfold ntt2_F. rewrite Hac, Hc. apply (cong_intro _ _ _ 0). ring.
  - destruct (sub_residue u _ Hu Hm) as [Ha Hac]. split; [exact Ha|]. unfold ntt2_G. rewrite Hac, Hc. apply (cong_intro _ _ _ 0). ring.
Qed.

Lemma intt2_linear s t : monty p s t -> linear p (intt2_F p) 1 1 /\ linear p (intt2_G s p p0i) t (- t).
Proof using Hp Hp0i.
  intros Hs. split; intros u v Hu Hv.
  - destruct (add_residue u v Hu Hv) as [Ha Hac]. split; [exact Ha|]. unfold intt2_F. rewrite Hac. apply (cong_intro _ _ _ 0). ring.
  - destruct (sub_residue u v Hu Hv) as [Ha Hac]. destruct (montymul_by _ s t Ha Hs) as [Hm Hc].
    split; [exact Hm|]. unfold intt2_G. rewrite Hc, Hac. apply (cong_intro _ _ _ 0). ring.
Qed.

Context (logn : nat) (Hlogn : (logn <= 10)%nat).
Abbreviation n := (2 ^ logn)%nat.
Abbreviation tw := (mtw gamma).
Abbreviation rho k := (tree_root tw (n + k)).

Lemma n_at_most : (1 <= n <= 1024)%nat.
Proof using Hlogn. clear - Hlogn. pose proof (pow2_nat_pos logn). split; [lia|]. change 1024%nat with (2 ^ 10)%nat. apply Nat.pow_le_mono_r; lia. Qed.

Lemma tw_square k : (1 <= k < n)%nat -> tw k * tw k ≡[p] tree_root tw k.
Proof using Hroot Hlogn. intros H. pose proof n_at_most. apply (mtw_sqr p gamma Hroot). lia. Qed.

(** The points are roots of X^n + 1, and determine polynomials. *)
Lemma mpoint_root k : (k < n)%nat -> rho k ^ Z.of_nat n ≡[p] -1.
Proof using Hp Hprime Hroot Hlogn. exact (tree_point_root p tw logn Hprime (p_above_2 p Hp) tw_square k). Qed.

Lemma mpoints_determine a b :
  length a = n -> length b = n -> (forall k, (k < n)%nat -> peval a (rho k) ≡[p] peval b (rho k)) -> pcong p a b.
Proof using Hp Hprime Hroot Hlogn. exact (tree_points_determine p tw logn Hprime (p_above_2 p Hp) tw_square a b). Qed.

Context (stride : nat) (Hstride : (0 < stride)%nat).

(** Forward: from blocks of size 2^j to single cells. *)
Lemma modp_NTT2_levels_inv gm igm a0 b0 j : tables_ok p gamma logn gm igm -> fits_in stride n a0 -> forall fuel m a b,
  (j < fuel)%nat -> n = (m * 2 ^ j)%nat -> strided stride n a0 a b -> forward_inv p tw logn b0 (2 ^ j) b ->
  exists b', strided stride n a0 (modp_NTT2_levels fuel n stride m (2 ^ j) gm p p0i a) b' /\ forward_inv p tw logn b0 1 b'.
Proof using Hp Hp0i Hprime Hgamma Hroot Hstride Hlogn.
  intros Ht Hfit. induction j as [|j IH]; intros fuel m a b Hf Hn Hs Hb; (destruct fuel as [|fuel]; [lia|]); cbn [modp_NTT2_levels].
  - destruct (Nat.ltb_spec m n); [simpl in Hn; lia | now exists b].
  - pose proof n_at_most. assert (2 ^ S j = 2 * 2 ^ j)%nat as H2 by (simpl; lia). pose proof (pow2_nat_pos j). rewrite H2 in *.
    destruct (Nat.ltb_spec m n); [|nia].
    replace (2 * 2 ^ j / 2)%nat with (2 ^ j)%nat by (rewrite Nat.mul_comm, Nat.div_mul; lia).
    eapply IH; [lia | nia | apply modp_NTT2_level_pass; eassumption |].
    apply (forward_pass p tw logn Hprime (p_above_2 p Hp) tw_square); [done | | done].
    intros i Hi. apply ntt2_linear, Ht. nia.
Qed.

(** [modp_NTT2_ext] evaluates the strided polynomial, and leaves the rest of the array alone. *)
Lemma modp_NTT2_ext_spec gm igm a :
  tables_ok p gamma logn gm igm -> fits_in stride n a -> pok p n (column stride n a) ->
  exists b, strided stride n a (modp_NTT2_ext a stride gm logn p p0i) b /\ pok p n b /\
    forall k, (k < n)%nat -> b !!! k ≡[p] peval (column stride n a) (rho k).
Proof using Hp Hp0i Hprime Hgamma Hroot Hstride Hlogn.
  intros Ht Hfit Hok. assert (exists b, strided stride n a (modp_NTT2_ext a stride gm logn p p0i) b /\
    forward_inv p tw logn (column stride n a) 1 b) as (b & Hs & Hb).
  { unfold modp_NTT2_ext. destruct (Nat.eqb_spec logn 0) as [H0|H0].
    - exists (column stride n a). split; [apply strided_start|]. pose proof (forward_start p tw logn _ Hok) as H. now rewrite H0 in H |- *.
    - apply (modp_NTT2_levels_inv gm igm a _ logn Ht Hfit _ _ _ (column stride n a)); [lia | lia | apply strided_start | now apply forward_start]. }
  exists b. split; [exact Hs|]. split; [exact (proj1 Hb)|]. intros k Hk. exact (forward_end p tw logn _ _ _ Hb Hk).
Qed.

(** Inverse: from single cells to the whole array. *)
Lemma modp_iNTT2_levels_inv gm igm a0 vals k : tables_ok p gamma logn gm igm -> fits_in stride n a0 -> forall fuel j a b,
  (k < fuel)%nat -> logn = (k + j)%nat -> strided stride n a0 a b -> inverse_inv p tw logn vals (2 ^ j) b ->
  exists b', strided stride n a0 (modp_iNTT2_levels fuel stride (2 ^ k) (2 ^ j) igm p p0i a) b' /\ inverse_inv p tw logn vals n b'.
Proof using Hp Hp0i Hprime Hgamma Hroot Hstride Hlogn.
  intros Ht Hfit. induction k as [|k IH]; intros fuel j a b Hf Hn Hs Hb; (destruct fuel as [|fuel]; [lia|]); cbn [modp_iNTT2_levels].
  - destruct (Nat.ltb_spec 1 (2 ^ 0)); [simpl in *; lia|]. exists b. split; [exact Hs|]. replace n with (2 ^ j)%nat by (now rewrite Hn). exact Hb.
  - assert (2 ^ S k = 2 * 2 ^ k)%nat as H2 by (simpl; lia). pose proof (pow2_nat_pos k).
    destruct (Nat.ltb_spec 1 (2 ^ S k)); [|lia].
    replace (2 ^ S k / 2)%nat with (2 ^ k)%nat by (rewrite H2, Nat.mul_comm, Nat.div_mul; lia).
    assert (n = 2 ^ k * (2 * 2 ^ j))%nat as En.
    { rewrite Hn. change (2 * 2 ^ j)%nat with (2 ^ S j)%nat. rewrite <- Nat.pow_add_r. f_equal. lia. }
    change (2 * 2 ^ j)%nat with (2 ^ S j)%nat at 1. eapply IH; [lia | lia | apply modp_iNTT2_level_pass; eassumption |].
    change (2 ^ S j)%nat with (2 * 2 ^ j)%nat.
    apply (inverse_pass p tw logn Hprime (p_above_2 p Hp) tw_square (mitw gamma) (fun _ => intt2_F p)
      (fun i => intt2_G (igm !!! (2 ^ k + i)%nat) p p0i) vals (2 ^ k) j b En); [|exact Hb].
    pose proof n_at_most. pose proof (pow2_nat_pos j). assert (2 * 2 ^ k <= n)%nat by nia. intros i Hi.
    destruct (Ht (2 ^ k + i)%nat ltac:(lia)) as [_ Hig].
    split; [exact (proj1 (intt2_linear _ _ Hig))|]. split; [exact (proj2 (intt2_linear _ _ Hig)) | apply (mtw_mitw p gamma Hroot)].
Qed.

(** The last loop divides by n: [ni] is 1/n in Montgomery form. *)
Lemma inverse_of_n : (1 <= logn)%nat ->
  let ni := u32 (1 .<< (31 - Z.of_nat logn)) in 0 <= ni < p /\ Z.of_nat n * ni = 2 ^ 31.
Proof using Hp Hlogn.
  clear - Hp Hlogn. intros H1. cbv zeta. rewrite Z.shiftl_mul_pow2, Z.mul_1_l by lia.
  assert (2 ^ (31 - Z.of_nat logn) <= 2 ^ 30) by (apply Z.pow_le_mono_r; lia).
  assert (0 < 2 ^ (31 - Z.of_nat logn)) by (apply Z.pow_pos_nonneg; lia).
  rewrite wrap_small by (unfold in_width; lia). split; [lia|]. rewrite Nat2Z.inj_pow, <- Z.pow_add_r by lia. f_equal. lia.
Qed.

Lemma n_cancel x y : (1 <= logn)%nat -> Z.of_nat n * x ≡[p] Z.of_nat n * y -> x ≡[p] y.
Proof using Hp Hp0i Hlogn.
  intros H1 H. destruct (inverse_of_n H1) as [_ Hn]. apply (two31_cancel p p0i Hp0i). rewrite <- Hn.
  set (ni := u32 _) in *. clearbody ni. transitivity (ni * (Z.of_nat n * x)); [apply (cong_intro _ _ _ 0); ring|].
  rewrite H. apply (cong_intro _ _ _ 0). ring.
Qed.

(** The elements of a strided array, one by one. *)
Lemma strided_elementwise (f : Z -> Z) a0 a b : fits_in stride n a0 -> strided stride n a0 a b ->
  strided stride n a0 (for_up 0 n (fun k a => <[(k * stride)%nat := f (a !!! (k * stride)%nat)]> a) a)
    (for_up 0 n (fun k b => <[k := f (b !!! k)]> b) b).
Proof using Hstride.
  intros Hf Hs. apply (for_up_sim _ _ (fun _ => strided stride n a0) 0 0 n a b Hs). intros k r r' Hk Hr. rewrite !Nat.add_0_l.
  pose proof Hr as (_ & _ & Hl & _). rewrite Hl by done. now apply strided_insert.
Qed.

(** [modp_iNTT2_ext] interpolates. *)
Lemma modp_iNTT2_ext_spec gm igm a :
  tables_ok p gamma logn gm igm -> fits_in stride n a -> pok p n (column stride n a) ->
  exists b, strided stride n a (modp_iNTT2_ext a stride igm logn p p0i) b /\ pok p n b /\
    forall k, (k < n)%nat -> peval b (rho k) ≡[p] a !!! (k * stride)%nat.
Proof using Hp Hp0i Hprime Hgamma Hroot Hstride Hlogn.
  intros Ht Hfit Hok. unfold modp_iNTT2_ext. destruct (Nat.eqb_spec logn 0) as [H0|H0].
  { exists (column stride n a). split; [apply strided_start|]. split; [exact Hok|]. rewrite H0. intros k Hk.
    assert (k = 0)%nat as -> by (simpl in Hk; lia). cbn. apply (cong_intro _ _ _ 0). ring. }
  destruct (modp_iNTT2_levels_inv gm igm a (fun k => column stride n a !!! k) logn Ht Hfit (S logn) 0 a (column stride n a)) as (b & Hs & Hbok & Hev);
    [lia | lia | apply strided_start | now apply inverse_start |]. change (2 ^ 0)%nat with 1%nat in *.
  destruct (inverse_of_n ltac:(lia)) as [Hni Hn]. set (ni := u32 _) in *. clearbody ni.
  pose proof (strided_elementwise (fun x => modp_montymul x ni p p0i) a _ b Hfit Hs) as Hs'. cbv beta in Hs'.
  set (r := for_up 0 n (fun k b => <[k := modp_montymul (b !!! k) ni p p0i]> b) b) in *.
  exists r. split; [exact Hs'|]. destruct (for_up_elementwise (fun _ x => modp_montymul x ni p p0i) n b) as [Hl Hk].
  fold r in Hl, Hk. pose proof (proj1 Hbok) as Hbl.
  assert (forall k, (k < n)%nat -> residue p (r !!! k) /\ r !!! k * 2 ^ 31 ≡[p] b !!! k * ni) as Hr.
  { intros k Hlt. rewrite Hk by lia. destruct (Nat.ltb_spec k n); [|lia]. pose proof (pok_lookup p n b k Hbok Hlt).
    apply (modp_montymul_spec p p0i Hp Hp0i); [lia | lia |].
    pose proof (Z.mul_le_mono_nonneg_l ni (2 ^ 31) (b !!! k)). lia. }
  split; [apply pok_intro; [lia | intros; now apply Hr]|]. intros k Hlt. apply (n_cancel _ _ ltac:(lia)).
  specialize (Hev k Hlt). rewrite Nat.div_small, slice_all, column_lookup in Hev by (done || lia).
  rewrite <- Hev. apply (two31_cancel p p0i Hp0i).
  assert (pcong p (Z.mul (2 ^ 31) <$> r) (Z.mul ni <$> b)) as Hc.
  { apply pcong_lookup; [rewrite !length_fmap; lia|]. rewrite length_fmap. intros i Hi.
    rewrite (@list_lookup_total_fmap Z Z (Z.mul (2 ^ 31)) _ _), (@list_lookup_total_fmap Z Z (Z.mul ni) _ _) by lia.
    rewrite Z.mul_comm, (Z.mul_comm ni). apply Hr. lia. }
  transitivity (Z.of_nat n * peval (Z.mul (2 ^ 31) <$> r) (rho k)); [rewrite peval_scale; apply (cong_intro _ _ _ 0); ring|].
  rewrite Hc, peval_scale, <- Hn. apply (cong_intro _ _ _ 0). ring.
Qed.
End Transform.

(** * The primes of the table *)

Lemma generators_checked : forallb (fun x => (0 <=? sp_g x) && (sp_g x <? 2 ^ 31)) (take num_primes PRIMES) = true.
Proof. vm_compute. reflexivity. Qed.

Section Entry.
Context (i : nat) (Hi : (i < num_primes)%nat).
Abbreviation p := (sp_p (PRIMES !!! i)).
Abbreviation g := (sp_g (PRIMES !!! i)).
Abbreviation p0i := (modp_ninv31 p).

Lemma entry_prime : Z.prime p.
Proof using Hi. apply (PRIMES_good i Hi). Qed.

Lemma entry_half_turn : half_turn p g.
Proof using Hi. apply (PRIMES_good i Hi). Qed.

Lemma entry_generator : 0 <= g < 2 ^ 31.
Proof using Hi.
  pose proof generators_checked as H. rewrite forallb_forall in H.
  specialize (H (PRIMES !!! i)). rewrite andb_true_iff, Z.leb_le, Z.ltb_lt in H. apply H.
  rewrite <- (lookup_total_take_lt PRIMES num_primes i) by done. apply list_elem_of_In, list_elem_of_lookup_total_2.
  rewrite length_take, PRIMES_length. lia.
Qed.

Lemma entry_tables logn gm igm :
  (logn <= 10)%nat -> length gm = (2 ^ logn)%nat -> length igm = (2 ^ logn)%nat ->
  let r := modp_mkgm2 gm igm logn g p p0i in
  length r.1 = (2 ^ logn)%nat /\ length r.2 = (2 ^ logn)%nat /\ tables_ok p g logn r.1 r.2.
Proof using Hi.
  apply (modp_mkgm2_spec p p0i g (entry_range i Hi) (entry_odd i Hi) (entry_ninv i Hi) entry_prime entry_generator entry_half_turn).
Qed.

Section Transforms.
Context (logn stride : nat) (Hlogn : (logn <= 10)%nat) (Hstride : (0 < stride)%nat) (gm igm : list Z) (Ht : tables_ok p g logn gm igm).
Abbreviation n := (2 ^ logn)%nat.

Lemma entry_NTT a : fits_in stride n a -> pok p n (column stride n a) ->
  exists b, strided stride n a (modp_NTT2_ext a stride gm logn p p0i) b /\ pok p n b /\
    forall k, (k < n)%nat -> b !!! k ≡[p] peval (column stride n a) (tree_root (mtw g) (n + k)).
Proof using Hi Hlogn Hstride Ht.
  exact (modp_NTT2_ext_spec p p0i g (entry_range i Hi) (entry_ninv i Hi) entry_prime entry_generator entry_half_turn logn Hlogn stride Hstride gm igm a Ht).
Qed.

Lemma entry_iNTT a : fits_in stride n a -> pok p n (column stride n a) ->
  exists b, strided stride n a (modp_iNTT2_ext a stride igm logn p p0i) b /\ pok p n b /\
    forall k, (k < n)%nat -> peval b (tree_root (mtw g) (n + k)) ≡[p] a !!! (k * stride)%nat.
Proof using Hi Hlogn Hstride Ht.
  exact (modp_iNTT2_ext_spec p p0i g (entry_range i Hi) (entry_ninv i Hi) entry_prime entry_generator entry_half_turn logn Hlogn stride Hstride gm igm a Ht).
Qed.

Lemma entry_roundtrip a : fits_in stride n a -> pok p n (column stride n a) ->
  modp_iNTT2_ext (modp_NTT2_ext a stride gm logn p p0i) stride igm logn p p0i = a /\
  modp_NTT2_ext (modp_iNTT2_ext a stride igm logn p p0i) stride gm logn p p0i = a.
Proof using Hi Hlogn Hstride Ht.
  intros Hf Hok.
  assert (forall b, pok p n b -> (forall k, (k < n)%nat -> peval b (tree_root (mtw g) (n + k)) ≡[p] peval (column stride n a) (tree_root (mtw g) (n + k))) ->
    b = column stride n a) as Hdet.
  { intros b Hb He. apply (pok_eq p n); [done | done |]. apply (mpoints_determine p g (entry_range i Hi) entry_prime entry_half_turn logn Hlogn); [apply Hb | apply Hok | exact He]. }
  split.
  - destruct (entry_NTT a Hf Hok) as (b & Hs & Hb & Hv). set (a' := modp_NTT2_ext a stride gm logn p p0i) in *.
    pose proof (strided_column _ _ _ _ _ Hs) as Ec. rewrite Ec in Hb. destruct (entry_iNTT a') as (c & Hs' & Hc & Hv'); [now apply (fits_in_strided _ _ a a' b) | exact Hb |].
    apply (strided_eq stride n a _ _ (column stride n a)); [|apply strided_start]. rewrite <- (Hdet c Hc).
    + now apply (strided_trans _ _ a a' b).
    + intros k Hk. rewrite Hv', <- Hv by done. destruct Hs as (_ & _ & Hl & _). now rewrite Hl.
  - destruct (entry_iNTT a Hf Hok) as (b & Hs & Hb & Hv). set (a' := modp_iNTT2_ext a stride igm logn p p0i) in *.
    pose proof (strided_column _ _ _ _ _ Hs) as Ec. rewrite Ec in Hb. destruct (entry_NTT a') as (c & Hs' & Hc & Hv'); [now apply (fits_in_strided _ _ a a' b) | exact Hb |].
    apply (strided_eq stride n a _ _ (column stride n a)); [|apply strided_start].
    assert (c = column stride n a) as <-; [|now apply (strided_trans _ _ a a' b)].
    apply (pok_eq p n); [done | done |]. apply pcong_lookup; [rewrite length_column; apply Hc|]. intros k Hk. assert (k < n)%nat as Hkn by (destruct Hc; lia).
    rewrite Hv', column_lookup, <- Ec, Hv by done. reflexivity.
Qed.
End Transforms.

(** Arrays of consecutive elements. *)
Section Consecutive.
Context (logn : nat) (Hlogn : (logn <= 10)%nat) (gm igm : list Z) (Ht : tables_ok p g logn gm igm).
Abbreviation n := (2 ^ logn)%nat.

Lemma entry_NTT2 a : pok p n a ->
  pok p n (modp_NTT2 a gm logn p p0i) /\ forall k, (k < n)%nat -> modp_NTT2 a gm logn p p0i !!! k ≡[p] peval a (tree_root (mtw g) (n + k)).
Proof using Hi Hlogn Ht.
  intros Ha. pose proof (proj1 Ha) as Hl. destruct (entry_NTT logn 1 Hlogn ltac:(lia) gm igm Ht a (fits_in_1 _ a Hl)) as (b & Hs & Hb & Hv).
  { now rewrite column_1. }
  unfold modp_NTT2. rewrite (strided_1 _ _ _ _ Hl Hs), column_1 in * by done. now split.
Qed.

Lemma entry_iNTT2 a : pok p n a ->
  pok p n (modp_iNTT2 a igm logn p p0i) /\ forall k, (k < n)%nat -> peval (modp_iNTT2 a igm logn p p0i) (tree_root (mtw g) (n + k)) ≡[p] a !!! k.
Proof using Hi Hlogn Ht.
  intros Ha. pose proof (proj1 Ha) as Hl. destruct (entry_iNTT logn 1 Hlogn ltac:(lia) gm igm Ht a (fits_in_1 _ a Hl)) as (b & Hs & Hb & Hv).
  { now rewrite column_1. }
  unfold modp_iNTT2. rewrite (strided_1 _ _ _ _ Hl Hs). split; [exact Hb|]. intros k Hk. rewrite Hv by done. now rewrite Nat.mul_1_r.
Qed.
End Consecutive.
End Entry.

(** C15 (equivalence).  The transform of key generation, for every prime p of the table, every degree
    n = 2^logn <= 1024 and every stride: the generated tables make the forward transform replace the
    elements a[0], a[stride], ... by the values of their polynomial at n pairwise distinct roots of
    X^n + 1 modulo p, leaving the other cells alone, and the two transforms are inverse of each other. *)
Theorem modp_ntt_correct (i logn stride : nat) (a gm0 igm0 : list Z) :
  (i < num_primes)%nat -> (logn <= 10)%nat -> (0 < stride)%nat ->
  let p := sp_p (PRIMES !!! i) in
  let g := sp_g (PRIMES !!! i) in
  let p0i := modp_ninv31 p in
  let n := (2 ^ logn)%nat in
  let points := tree_points (mtw g) n in
  let tables := modp_mkgm2 gm0 igm0 logn g p p0i in
  let ntt := modp_NTT2_ext a stride tables.1 logn p p0i in
  length gm0 = n -> length igm0 = n -> fits_in stride n a -> pok p n (column stride n a) ->
  (column stride n ntt = (fun x => peval (column stride n a) x mod p) <$> points /\ length ntt = length a /\
   (forall j, (forall k, (k < n)%nat -> j <> (k * stride)%nat) -> ntt !!! j = a !!! j)) /\
  (length points = n /\ pdistinct p points /\ Forall (fun x => x ^ Z.of_nat n ≡[p] -1) points) /\
  modp_iNTT2_ext ntt stride tables.2 logn p p0i = a /\
  modp_NTT2_ext (modp_iNTT2_ext a stride tables.2 logn p p0i) stride tables.1 logn p p0i = a.
Proof.
  intros Hi Hl Hs p g p0i n points tables ntt Hg0 Hig0 Hf Hok.
  destruct (entry_tables i Hi logn gm0 igm0 Hl Hg0 Hig0) as (_ & _ & Ht). fold p g p0i tables in Ht.
  split; [|split; [|exact (entry_roundtrip i Hi logn stride Hl Hs _ _ Ht a Hf Hok)]].
  - destruct (entry_NTT i Hi logn stride Hl Hs _ _ Ht a Hf Hok) as (b & Hst & Hb & Hv). fold p p0i ntt n in Hst.
    pose proof Hst as (H1 & _ & _ & H3). split; [|now split]. rewrite <- (strided_column _ _ _ _ _ Hst).
    apply list_eq_total; [unfold points; rewrite length_fmap, length_tree_points; apply Hb|]. intros k Hk.
    assert (k < n)%nat as Hkn by (destruct Hb; lia).
    rewrite (@list_lookup_total_fmap Z Z (fun x => peval (column stride n a) x mod p) _ _) by (unfold points; now rewrite length_tree_points).
    unfold points. rewrite tree_points_lookup by done. apply cong_canonical; [now apply (pok_lookup p n) | now apply Hv].
  - unfold points. pose proof (tw_square p g (entry_half_turn i Hi) logn Hl) as Hsq. pose proof (entry_range i Hi) as Hr.
    split; [apply length_tree_points|]. split; [exact (tree_points_distinct p (mtw g) logn (entry_prime i Hi) (p_above_2 p Hr) Hsq)|].
    rewrite Forall_lookup_total, length_tree_points. intros k Hk. rewrite tree_points_lookup by done.
    exact (mpoint_root p g Hr (entry_prime i Hi) (entry_half_turn i Hi) logn Hl k Hk).
Qed.

Lemma modp_ntt_correct_witness :
  pok 2147473409 (2 ^ 2) [1; 2; 3; 5] /\
  let tables := modp_mkgm2 (replicate 4 0) (replicate 4 0) 2 383167813 2147473409 (modp_ninv31 2147473409) in
  modp_iNTT2_ext (modp_NTT2_ext [1; 9; 2; 8; 3; 7; 5] 2 tables.1 2 2147473409 (modp_ninv31 2147473409)) 2
    tables.2 2 2147473409 (modp_ninv31 2147473409) = [1; 9; 2; 8; 3; 7; 5].
Proof.
  assert (pok 2147473409 (2 ^ 2) [1; 2; 3; 5]) as H by (split; [reflexivity | by_decide]). split; [exact H|].
  refine (proj1 (proj2 (proj2 (modp_ntt_correct 0 2 2 [1; 9; 2; 8; 3; 7; 5] (replicate 4 0) (replicate 4 0) _ _ _ eq_refl eq_refl _ H)))).
  - apply Nat.ltb_lt. reflexivity.
  - lia.
  - lia.
  - intros k Hk. cbn in *. lia.
Defined.
