(* ===== verification/Zint.v ===== *)
(** Zint: the big integers of [keygen.c], arrays of 31-bit words, low word first.

    A function gets the array from its pointer on and a number of words; [zval] is the value of words,
    [zsigned] their two's complement value.  The loops that propagate a carry are instances of
    [carry_loop]. *)

From Stdlib Require Import ZArith Lia.
From stdpp Require Import base numbers list.
From S2P Require Import Prelude NumberTheory Modp.

(** * The operations *)

Definition zint_sub (a b : list Z) (len : nat) (ctl : Z) : Z * list Z :=
  let m := u32 (- ctl) in
  for_up 0 len (fun u '(cc, a) =>
    let aw := a !!! u in
    let w := u32 (u32 (aw - b !!! u) - cc) in
    let cc := w .>> 31 in
    let aw := aw .^ (((w .& 0x7FFFFFFF) .^ aw) .& m) in
    (cc, <[u := aw]> a)) (0, a).

Definition zint_mul_small (m : list Z) (mlen : nat) (x : Z) : Z * list Z :=
  for_up 0 mlen (fun u '(cc, m) =>
    let z := u64 (u64 ((m !!! u) * x) + cc) in
    (u32 (z .>> 31), <[u := u32 z .& 0x7FFFFFFF]> m)) (0, m).

Definition zint_mod_small_unsigned (d : list Z) (dlen : nat) (p p0i R2 : Z) : Z :=
  for_down dlen (fun u x =>
    let x := modp_montymul x R2 p p0i in
    let w := u32 (d !!! u - p) in
    let w := u32 (w + (p .& u32 (- (w .>> 31)))) in
    modp_add x w p) 0.

Definition zint_mod_small_signed (d : list Z) (dlen : nat) (p p0i R2 Rx : Z) : Z :=
  if (dlen =? 0)%nat then 0
  else
    let z := zint_mod_small_unsigned d dlen p p0i R2 in
    modp_sub z (Rx .& u32 (- ((d !!! (dlen - 1)%nat) .>> 30))) p.

Definition zint_add_mul_small (x y : list Z) (len : nat) (s : Z) : list Z :=
  let '(cc, x) := for_up 0 len (fun u '(cc, x) =>
    let xw := x !!! u in
    let yw := y !!! u in
    let z := u64 (u64 (u64 (yw * s) + xw) + cc) in
    (u32 (z .>> 31), <[u := u32 z .& 0x7FFFFFFF]> x)) (0, x) in
  <[len := cc]> x.

Definition zint_norm_zero (x p : list Z) (len : nat) : list Z :=
  let '(bb, r) := for_down len (fun u '(bb, r) =>
    let wx := x !!! u in
    let wp := ((p !!! u) .>> 1) .| u32 (bb .<< 30) in
    let bb := (p !!! u) .& 1 in
    let cc := u32 (wp - wx) in
    let cc := (u32 (- cc) .>> 31) .| u32 (- (cc .>> 31)) in
    (bb, r .| (cc .& u32 ((r .& 1) - 1)))) (0, 0) in
  snd (zint_sub x p len (r .>> 31)).

Definition zint_negate (a : list Z) (len : nat) (ctl : Z) : list Z :=
  let m := u32 (- ctl) .>> 1 in
  snd (for_up 0 len (fun u '(cc, a) =>
    let aw := a !!! u in
    let aw := u32 ((aw .^ m) + cc) in
    (aw .>> 31, <[u := aw .& 0x7FFFFFFF]> a)) (ctl, a)).

(** * Values *)

Definition zwords (l : list Z) : Prop := Forall (in_width 31) l.

(** [e 0 + 2^31 e 1 + ... + 2^(31 (n-1)) e (n-1)]. *)
Fixpoint wsum (n : nat) (e : nat -> Z) : Z :=
  match n with
  | O => 0
  | S n => wsum n e + 2 ^ (31 * Z.of_nat n) * e n
  end.

Definition zval (l : list Z) : Z := wsum (length l) (fun u => l !!! u).

(** Two's complement on [31 * length l] bits. *)
Definition zsigned (l : list Z) : Z :=
  zval l - (if 2 ^ 30 <=? l !!! (length l - 1)%nat then 2 ^ (31 * Z.of_nat (length l)) else 0).

Lemma wsum_ext n e e' : (forall u, (u < n)%nat -> e u = e' u) -> wsum n e = wsum n e'.
Proof. induction n as [|n IH]; intros H; simpl; [done|]. rewrite IH, H by (intros; try apply H; lia). done. Qed.

Lemma wsum_lin n a b e e' : wsum n (fun u => a * e u + b * e' u) = a * wsum n e + b * wsum n e'.
Proof. induction n as [|n IH]; simpl; [lia|]. rewrite IH. ring. Qed.

Lemma wsum_scale n a e : wsum n (fun u => a * e u) = a * wsum n e.
Proof. induction n as [|n IH]; simpl; [lia|]. rewrite IH. ring. Qed.

Lemma pow31_S n : 2 ^ (31 * Z.of_nat (S n)) = 2 ^ (31 * Z.of_nat n) * 2 ^ 31.
Proof. rewrite <- Z.pow_add_r by lia. f_equal. lia. Qed.

Lemma pow31_pos n : 0 < 2 ^ (31 * Z.of_nat n).
Proof. apply Z.pow_pos_nonneg; lia. Qed.

Lemma wsum_const n : wsum n (fun _ => 2 ^ 31 - 1) = 2 ^ (31 * Z.of_nat n) - 1.
Proof. induction n as [|n IH]; [done|]. cbn [wsum]. rewrite IH, pow31_S. ring. Qed.

Lemma zval_take n l : (n <= length l)%nat -> zval (take n l) = wsum n (fun u => l !!! u).
Proof.
  intros Hn. unfold zval. rewrite length_take, Nat.min_l by done. apply wsum_ext. intros u Hu. now apply lookup_total_take_lt.
Qed.

Lemma zval_range l : zwords l -> 0 <= zval l < 2 ^ (31 * Z.of_nat (length l)).
Proof.
  intros Hl. unfold zwords in Hl. rewrite Forall_lookup_total in Hl. unfold zval. revert Hl. generalize (length l) as n.
  induction n as [|n IH]; intros Hl; [cbn; lia|]. cbn [wsum]. rewrite pow31_S. specialize (IH ltac:(intros; apply Hl; lia)).
  specialize (Hl n ltac:(lia)). unfold in_width in Hl. nia.
Qed.

Lemma zwords_word l u : zwords l -> (u < length l)%nat -> 0 <= l !!! u < 2 ^ 31.
Proof. intros Hl Hu. unfold zwords in Hl. rewrite Forall_lookup_total in Hl. now apply Hl. Qed.

Lemma zwords_take n l : zwords l -> zwords (take n l).
Proof. apply Forall_take. Qed.

Lemma zwords_take_word l n u : zwords (take n l) -> (u < n)%nat -> (n <= length l)%nat -> 0 <= l !!! u < 2 ^ 31.
Proof.
  intros Hl Hu Hn. rewrite <- (lookup_total_take_lt l n u) by done. apply zwords_word; [done|]. rewrite length_take. lia.
Qed.

Lemma zval_snoc l w : zval (l ++ [w]) = zval l + 2 ^ (31 * Z.of_nat (length l)) * w.
Proof.
  unfold zval. rewrite length_app, Nat.add_1_r. cbn [wsum]. rewrite lookup_total_app_r by lia. rewrite Nat.sub_diag. f_equal.
  apply wsum_ext. intros u Hu. now rewrite lookup_total_app_l.
Qed.

(** * Carry propagation

    A loop that leaves in word [u] the low 31 bits of [e u + carry] and carries the rest. *)

Section Carry.
Context {K : Type} (carry : K -> Z) (ok : K -> Prop) (body : nat -> K * list Z -> K * list Z) (e : nat -> Z) (n : nat) (a : list Z).

Definition carry_step : Prop := forall u k r,
  (u < n)%nat -> r !!! u = a !!! u -> ok k ->
  exists lo k', body u (k, r) = (k', <[u := lo]> r) /\ 0 <= lo < 2 ^ 31 /\ lo + 2 ^ 31 * carry k' = e u + carry k /\ ok k'.

Definition carried (k0 : K) (out : K * list Z) : Prop :=
  ok out.1 /\ length out.2 = length a /\ drop n out.2 = drop n a /\ zwords (take n out.2) /\
  zval (take n out.2) + 2 ^ (31 * Z.of_nat n) * carry out.1 = wsum n e + carry k0.

Lemma carry_loop k0 : (n <= length a)%nat -> ok k0 -> carry_step -> carried k0 (for_up 0 n body (k0, a)).
Proof using Type.
  intros Hn H0 Hstep.
  enough (let out := for_up 0 n body (k0, a) in
    ok out.1 /\ length out.2 = length a /\ (forall u, (n <= u < length a)%nat -> out.2 !!! u = a !!! u) /\
    (forall u, (u < n)%nat -> 0 <= out.2 !!! u < 2 ^ 31) /\
    wsum n (fun u => out.2 !!! u) + 2 ^ (31 * Z.of_nat n) * carry out.1 = wsum n e + carry k0) as (H1 & H2 & H3 & H4 & H5).
  { split; [done|]. split; [done|]. split; [|split].
    - apply list_eq_total; [rewrite !length_drop; lia|]. intros u Hu. rewrite length_drop in Hu.
      rewrite !lookup_total_drop. apply H3. lia.
    - apply Forall_lookup_total. intros u Hu. rewrite length_take in Hu. rewrite lookup_total_take_lt by lia. apply H4. lia.
    - rewrite zval_take by lia. exact H5. }
  cbv zeta. apply (for_up_inv body (fun i out => ok out.1 /\ length out.2 = length a /\
    (forall u, (i <= u < length a)%nat -> out.2 !!! u = a !!! u) /\ (forall u, (u < i)%nat -> 0 <= out.2 !!! u < 2 ^ 31) /\
    wsum i (fun u => out.2 !!! u) + 2 ^ (31 * Z.of_nat i) * carry out.1 = wsum i e + carry k0)); [lia | |].
  - cbn [fst snd wsum]. split_and!; [done | done | done | lia |]. change (2 ^ (31 * Z.of_nat 0)) with 1. lia.
  - intros u [k r] Hu (H1 & H2 & H3 & H4 & H5). cbn [fst snd] in *.
    destruct (Hstep u k r) as (lo & k' & -> & Hlo & He & Hk); [lia | apply H3; lia | done |]. cbn [fst snd].
    split_and!; [done | now rewrite length_insert | | |].
    + intros v Hv. rewrite list_lookup_total_insert_ne by lia. apply H3. lia.
    + intros v Hv. destruct (decide (v = u)) as [->|Hne].
      * now rewrite list_lookup_total_insert_eq by lia.
      * rewrite list_lookup_total_insert_ne by lia. apply H4. lia.
    + cbn [wsum]. rewrite list_lookup_total_insert_eq by lia.
      rewrite (wsum_ext u _ (fun v => r !!! v)) by (intros v Hv; rewrite list_lookup_total_insert_ne by lia; done).
      rewrite pow31_S. nia.
Qed.
End Carry.

(** The low 31 bits, and the rest. *)
Lemma low31 w : w .& 0x7FFFFFFF = w mod 2 ^ 31.
Proof. change 0x7FFFFFFF with (Z.ones 31). now rewrite Z.land_ones. Qed.

Lemma u32_mod31 z : u32 z mod 2 ^ 31 = z mod 2 ^ 31.
Proof.
  rewrite wrap_mod by lia. change (2 ^ 32) with (2 ^ 31 * 2).
  rewrite Z.rem_mul_r, Z.mul_comm, Z_mod_plus_full, Z.mod_mod by lia. reflexivity.
Qed.

Lemma shr31 w : w .>> 31 = w / 2 ^ 31.
Proof. now rewrite Z.shiftr_div_pow2. Qed.

Lemma carry_loop_on {K} (carry : K -> Z) (ok : K -> Prop) body (e : nat -> Z) n a k0 out :
  for_up 0 n body (k0, a) = out -> (n <= length a)%nat -> ok k0 -> carry_step carry ok body e n a ->
  carried carry ok e n a k0 out.
Proof. intros <-. apply carry_loop. Qed.

Definition is_bit (c : Z) : Prop := c = 0 \/ c = 1.

Lemma select_low aw lo c : in_width 32 aw -> in_width 32 lo -> aw .^ ((lo .^ aw) .& u32 (- bit c)) = if c then lo else aw.
Proof. intros Ha Hl. rewrite (Z.lxor_comm lo). now apply select_bit. Qed.

(** One word of a subtraction with borrow. *)
Lemma borrow_word x y cc :
  0 <= x < 2 ^ 31 -> 0 <= y < 2 ^ 31 -> is_bit cc ->
  let w := u32 (u32 (x - y) - cc) in
  0 <= w .& 0x7FFFFFFF < 2 ^ 31 /\ (w .& 0x7FFFFFFF) - 2 ^ 31 * (w .>> 31) = x - y - cc /\ is_bit (w .>> 31).
Proof.
  intros Hx Hy Hc. cbv zeta. rewrite low31, shr31. unfold is_bit in *.
  assert (u32 (u32 (x - y) - cc) = if x - y - cc <? 0 then x - y - cc + 2 ^ 32 else x - y - cc) as ->.
  { destruct (Z.ltb_spec (x - y - cc) 0); destruct Hc; subst cc; word_lia. }
  destruct (Z.ltb_spec (x - y - cc) 0).
  - assert (x - y - cc + 2 ^ 32 = 1 * 2 ^ 31 + (x - y - cc + 2 ^ 31)) as -> by lia.
    rewrite Z.div_add_l, Z.div_small, Z.add_comm, Z_mod_plus_full, Z.mod_small by lia. lia.
  - rewrite Z.div_small, Z.mod_small by lia. lia.
Qed.

Lemma zint_sub_spec a b len :
  zwords (take len a) -> zwords (take len b) -> (len <= length a)%nat -> (len <= length b)%nat ->
  let out := zint_sub a b len 1 in
  is_bit out.1 /\ length out.2 = length a /\ drop len out.2 = drop len a /\ zwords (take len out.2) /\
  zval (take len out.2) = zval (take len a) - zval (take len b) + 2 ^ (31 * Z.of_nat len) * out.1.
Proof.
  intros Ha Hb Hla Hlb. cbv zeta.
  destruct (carry_loop_on (fun c => - c) is_bit _ (fun u => 1 * a !!! u + (-1) * b !!! u) len a 0 _ (eq_refl (zint_sub a b len 1)))
    as (H1 & H2 & H3 & H4 & H5); [exact Hla | now left | |].
  - intros u cc r Hu Hr Hc. pose proof (zwords_take_word a len u Ha ltac:(lia) ltac:(lia)) as Hx. pose proof (zwords_take_word b len u Hb ltac:(lia) ltac:(lia)) as Hy.
    destruct (borrow_word _ _ cc Hx Hy Hc) as (Hlo & He & Hbit). do 2 eexists. split; [reflexivity|].
    rewrite Hr. change (u32 (- (1))) with (u32 (- bit true)). rewrite select_low by (unfold in_width; lia).
    split_and!; [exact (proj1 Hlo) | exact (proj2 Hlo) | lia | exact Hbit].
  - rewrite wsum_lin, <- !zval_take in H5 by done. split_and!; try done. lia.
Qed.

(** With [ctl = 0] only the borrow is computed. *)
Lemma zint_sub_compare a b len :
  zwords (take len a) -> zwords (take len b) -> (len <= length a)%nat -> (len <= length b)%nat ->
  zint_sub a b len 0 = ((zint_sub a b len 1).1, a).
Proof.
  intros Ha Hb Hla Hlb. unfold zint_sub. set (body0 := fun (u : nat) (st : Z * list Z) => _).
  set (body1 := fun (u : nat) (st : Z * list Z) => _).
  enough (for_up 0 len body0 (0, a) = ((for_up 0 len body1 (0, a)).1, a) /\
    is_bit (for_up 0 len body1 (0, a)).1 /\
    forall u, (len <= u)%nat -> (for_up 0 len body1 (0, a)).2 !!! u = a !!! u) as [H _] by exact H.
  assert (forall n, (n <= len)%nat -> for_up 0 n body0 (0, a) = ((for_up 0 n body1 (0, a)).1, a) /\
    is_bit (for_up 0 n body1 (0, a)).1 /\ forall u, (n <= u)%nat -> (for_up 0 n body1 (0, a)).2 !!! u = a !!! u) as Hall;
    [|now apply Hall].
  induction n as [|n IH]; intros Hn; [split_and!; [done | now left | done]|].
  destruct IH as (E & Hbit & Hr); [lia|]. rewrite !for_up_snoc by lia. rewrite E. clear E.
  destruct (for_up 0 n body1 (0, a)) as [cc r]. cbn [fst snd] in *. unfold body0, body1. cbn [fst snd].
  pose proof (zwords_take_word a len n Ha ltac:(lia) ltac:(lia)) as Hx. pose proof (zwords_take_word b len n Hb ltac:(lia) ltac:(lia)) as Hy.
  destruct (borrow_word _ _ cc Hx Hy Hbit) as (Hlo & _ & Hb').
  rewrite Hr by lia. change (u32 (- 0)) with (u32 (- bit false)). rewrite select_low by (unfold in_width; lia).
  split_and!.
  - f_equal. apply list_insert_id, list_lookup_lookup_total_lt. lia.
  - exact Hb'.
  - intros u Hu. rewrite list_lookup_total_insert_ne by lia. apply Hr. lia.
Qed.

(** * Products by a small integer *)

(** The two halves of a 64-bit accumulator. *)
Lemma split31 z : 0 <= z < 2 ^ 62 ->
  u32 z .& 0x7FFFFFFF = z mod 2 ^ 31 /\ u32 (z .>> 31) = z / 2 ^ 31 /\ 0 <= z / 2 ^ 31 < 2 ^ 31.
Proof.
  intros Hz. rewrite low31, shr31. assert (0 <= z / 2 ^ 31 < 2 ^ 31) as Hd
    by (split; [apply Z.div_pos; lia | apply Z.div_lt_upper_bound; lia]).
  split; [word_lia|]. split; [|exact Hd]. apply wrap_small. unfold in_width. lia.
Qed.

Lemma zint_mul_small_spec m mlen x :
  zwords (take mlen m) -> (mlen <= length m)%nat -> 0 <= x < 2 ^ 31 ->
  let out := zint_mul_small m mlen x in
  0 <= out.1 < 2 ^ 31 /\ length out.2 = length m /\ drop mlen out.2 = drop mlen m /\ zwords (take mlen out.2) /\
  zval (take mlen out.2) + 2 ^ (31 * Z.of_nat mlen) * out.1 = x * zval (take mlen m).
Proof.
  intros Hm Hl Hx. cbv zeta.
  destruct (carry_loop_on id (fun c => 0 <= c < 2 ^ 31) _ (fun u => x * m !!! u) mlen m 0 _ (eq_refl (zint_mul_small m mlen x)))
    as (H1 & H2 & H3 & H4 & H5); [exact Hl | lia | |].
  - intros u cc r Hu Hr Hc. pose proof (zwords_take_word m mlen u Hm ltac:(lia) ltac:(lia)) as Hw.
    rewrite <- Hr in Hw |- *. set (w := r !!! u) in *. assert (0 <= w * x <= (2 ^ 31 - 1) * (2 ^ 31 - 1)) as Hp by nia.
    rewrite (wrap_small 64 (w * x)), wrap_small by (unfold in_width; lia). fold w.
    destruct (split31 (w * x + cc)) as (E1 & E2 & E3); [lia|]. do 2 eexists. split; [reflexivity|]. rewrite E1, E2. unfold id.
    split; [apply Z.mod_pos_bound; lia|]. split; [|exact E3]. pose proof (Z.div_mod (w * x + cc) (2 ^ 31) ltac:(lia)). lia.
  - rewrite wsum_scale, <- zval_take, Z.add_0_r in H5 by done. unfold id in H5. now split_and!.
Qed.

(** [x + s * y], one word longer. *)
Lemma zint_add_mul_small_spec x y len s :
  zwords (take len x) -> zwords (take len y) -> (len < length x)%nat -> (len <= length y)%nat -> 0 <= s < 2 ^ 31 ->
  let r := zint_add_mul_small x y len s in
  length r = length x /\ drop (S len) r = drop (S len) x /\ zwords (take (S len) r) /\
  zval (take (S len) r) = zval (take len x) + s * zval (take len y).
Proof.
  intros Hx Hy Hlx Hly Hs. cbv zeta. unfold zint_add_mul_small.
  destruct (for_up 0 len _ (0, x)) as [cc r] eqn:E.
  destruct (carry_loop_on id (fun c => 0 <= c < 2 ^ 31) _ (fun u => 1 * x !!! u + s * y !!! u) len x 0 _ E)
    as (H1 & H2 & H3 & H4 & H5); [lia | lia | |].
  - intros u c q Hu Hr Hc. pose proof (zwords_take_word x len u Hx ltac:(lia) ltac:(lia)) as Hw. pose proof (zwords_take_word y len u Hy ltac:(lia) ltac:(lia)) as Hv.
    rewrite <- Hr in Hw |- *. set (w := q !!! u) in *. set (v := y !!! u) in *.
    assert (0 <= v * s <= (2 ^ 31 - 1) * (2 ^ 31 - 1)) as Hp by nia.
    rewrite (wrap_small 64 (v * s)), (wrap_small 64 (v * s + w)), (wrap_small 64 (v * s + w + c)) by (unfold in_width; lia).
    destruct (split31 (v * s + w + c)) as (E1 & E2 & E3); [lia|]. do 2 eexists. split; [reflexivity|]. rewrite E1, E2. unfold id.
    split; [apply Z.mod_pos_bound; lia|]. split; [|exact E3]. pose proof (Z.div_mod (v * s + w + c) (2 ^ 31) ltac:(lia)). lia.
  - unfold id in *. cbn [fst snd] in *. rewrite wsum_lin, <- !zval_take, Z.add_0_r, Z.mul_1_l in H5 by lia.
    assert (take (S len) (<[len:=cc]> r) = take len r ++ [cc]) as Ht.
    { rewrite (take_S_r _ len cc) by (apply list_lookup_insert_eq; lia). now rewrite take_insert_ge. }
    split; [now rewrite length_insert|]. split; [|split].
    + rewrite drop_insert_lt by lia. rewrite <- Nat.add_1_r, <- !drop_drop, H3. reflexivity.
    + rewrite Ht. apply Forall_app_2; [exact H4|]. constructor; [exact H1 | constructor].
    + rewrite Ht, <- H5, zval_snoc, length_take, Nat.min_l by lia. reflexivity.
Qed.

Lemma lxor_ones_mod t : exists l, t .^ Z.ones 31 = 2 ^ 31 - 1 - t + 2 ^ 31 * l.
Proof.
  assert ((t .^ Z.ones 31) mod 2 ^ 31 = Z.lnot t mod 2 ^ 31) as H.
  { rewrite <- !Z.land_ones by lia. apply Z.bits_inj'. intros k Hk. rewrite !Z.land_spec, Z.lxor_spec, Z.lnot_spec by done.
    destruct (Z.ltb_spec k 31); [rewrite Z.ones_spec_low by lia; now destruct (Z.testbit t k) | rewrite Z.ones_spec_high by lia; now rewrite !andb_false_r]. }
  unfold Z.lnot in H. rewrite !Z.mod_eq in H by lia.
  exists ((t .^ Z.ones 31) / 2 ^ 31 - Z.pred (- t) / 2 ^ 31 - 1). lia.
Qed.

(** One word of a conditional negation. *)
Lemma negate_word w (c : bool) : 0 <= w < 2 ^ 31 -> w .^ (u32 (- bit c) .>> 1) = if c then 2 ^ 31 - 1 - w else w.
Proof.
  intros Hw. destruct c; [|apply Z.lxor_0_r]. change (u32 (- bit true) .>> 1) with (Z.ones 31). now apply (lxor_ones 31).
Qed.

Lemma negate_words a n (c : bool) :
  zwords (take n a) -> (n <= length a)%nat ->
  carried id is_bit (fun u => if c then 2 ^ 31 - 1 - a !!! u else a !!! u) n a (bit c)
    (for_up 0 n (fun u '(cc, a) =>
      let aw := a !!! u in
      let aw := u32 ((aw .^ (u32 (- bit c) .>> 1)) + cc) in
      (aw .>> 31, <[u := aw .& 0x7FFFFFFF]> a)) (bit c, a)).
Proof.
  intros Ha Hl. apply carry_loop; [exact Hl | destruct c; [now right | now left] |].
  intros u k q Hu Hr Hk. pose proof (zwords_take_word a n u Ha ltac:(lia) ltac:(lia)) as Hw. rewrite <- Hr in Hw |- *.
  cbv beta iota zeta. rewrite negate_word by exact Hw. set (t := if c then 2 ^ 31 - 1 - q !!! u else q !!! u) in *.
  assert (0 <= t < 2 ^ 31) as Ht by (unfold t; destruct c; lia). clearbody t.
  rewrite (wrap_small 32 (t + k)) by (destruct Hk; subst k; unfold in_width; lia). do 2 eexists. split; [reflexivity|].
  rewrite low31, shr31. unfold id, is_bit in *. split; [apply Z.mod_pos_bound; lia|].
  pose proof (Z.div_mod (t + k) (2 ^ 31) ltac:(lia)). split; [lia|].
  destruct (Z.ltb_spec (t + k) (2 ^ 31)); [left; apply Z.div_small; lia|].
  right. symmetry. apply (Z.div_unique _ _ _ (t + k - 2 ^ 31)); lia.
Qed.

Lemma wsum_negated n e (c : bool) : wsum n (fun u => if c then 2 ^ 31 - 1 - e u else e u) = if c then 2 ^ (31 * Z.of_nat n) - 1 - wsum n e else wsum n e.
Proof.
  destruct c; [|done]. rewrite (wsum_ext n _ (fun u => 1 * (2 ^ 31 - 1) + (-1) * e u)) by (intros; lia).
  rewrite (wsum_lin n 1 (-1) (fun _ => 2 ^ 31 - 1)), wsum_const. lia.
Qed.

(** Conditional negation modulo 2^(31 (n + 1)); the top word may have 32 bits. *)
Lemma zint_negate_spec a n (c : bool) :
  zwords (take n a) -> length a = S n -> in_width 32 (a !!! n) ->
  let r := zint_negate a (S n) (bit c) in
  length r = S n /\ zwords r /\
  zval r = (if c then - (zval (take n a) + 2 ^ (31 * Z.of_nat n) * a !!! n) else zval (take n a) + 2 ^ (31 * Z.of_nat n) * a !!! n)
           mod 2 ^ (31 * Z.of_nat (S n)).
Proof.
  intros Ha Hl Ht. cbv zeta. unfold zint_negate. cbv zeta. rewrite for_up_snoc by lia.
  pose proof (negate_words a n c Ha ltac:(lia)) as H. cbv zeta in H. destruct (for_up (St := Z * list Z) 0 n _ (bit c, a)) as [cc r].
  destruct H as (_ & H2 & H3 & H4 & H5). unfold id in H5. cbn [fst snd] in *.
  assert (r !!! n = a !!! n) as Et.
  { pose proof (f_equal (fun l => l !!! 0%nat) H3) as E. cbv beta in E. now rewrite !lookup_total_drop, !Nat.add_0_r in E. }
  rewrite Et. set (t := a !!! n) in *. set (z := (t .^ (u32 (- bit c) .>> 1)) + cc).
  rewrite low31, u32_mod31.
  assert (r = take n r ++ [r !!! n]) as Er.
  { rewrite <- (take_drop n r) at 1. f_equal. rewrite (drop_S r (r !!! n) n) by (apply list_lookup_lookup_total_lt; lia).
    now rewrite drop_ge by lia. }
  assert (<[n := z mod 2 ^ 31]> r = take n r ++ [z mod 2 ^ 31]) as ->.
  { rewrite Er at 1. rewrite insert_app_r_alt by (rewrite length_take; lia). rewrite length_take, Nat.min_l, Nat.sub_diag by lia. reflexivity. }
  split; [rewrite length_app, length_take, Nat.min_l by lia; cbn; lia|].
  pose proof (Z.mod_pos_bound z (2 ^ 31) ltac:(lia)) as Hz.
  assert (zwords (take n r ++ [z mod 2 ^ 31])) as Hw by (apply Forall_app_2; [exact H4 | constructor; [exact Hz | constructor]]).
  split; [exact Hw|]. pose proof (zval_range _ Hw) as Hr. rewrite length_app, length_take, Nat.min_l, Nat.add_1_r in Hr by lia.
  apply cong_canonical; [exact Hr|]. rewrite zval_snoc, length_take, Nat.min_l by lia.
  rewrite wsum_negated, <- zval_take in H5 by lia. set (W := zval (take n a)) in *. set (B := 2 ^ (31 * Z.of_nat n)) in *.
  assert (exists k, z mod 2 ^ 31 = (if c then 2 ^ 31 - 1 - t else t) + cc + 2 ^ 31 * k) as [k Hk].
  { rewrite Z.mod_eq by lia. unfold z.
    assert (exists l, t .^ (u32 (- bit c) .>> 1) = (if c then 2 ^ 31 - 1 - t else t) + 2 ^ 31 * l) as [l ->].
    { destruct c; [|exists 0; rewrite Z.lxor_0_r; lia]. change (u32 (- bit true) .>> 1) with (Z.ones 31).
      destruct (lxor_ones_mod t) as [l Hl']. exists l. exact Hl'. }
    exists (l - ((if c then 2 ^ 31 - 1 - t else t) + 2 ^ 31 * l + cc) / 2 ^ 31). ring. }
  rewrite Hk. replace (zval (take n r)) with (zval (take n r) + B * cc - B * cc) by ring. rewrite H5, pow31_S. fold B.
  destruct c; cbn [bit].
  - apply (cong_intro _ _ _ (k + 1)). ring.
  - apply (cong_intro _ _ _ k). ring.
Qed.

(** * Reduction modulo a small prime *)

Lemma zval_cons w l : zval (w :: l) = w + 2 ^ 31 * zval l.
Proof.
  unfold zval. cbn [length]. generalize (length l) as n. induction n as [|n IH]; [cbn; lia|].
  change (wsum (S (S n)) (fun u => (w :: l) !!! u)) with (wsum (S n) (fun u => (w :: l) !!! u) + 2 ^ (31 * Z.of_nat (S n)) * l !!! n).
  rewrite IH, pow31_S. cbn [wsum]. ring.
Qed.

Lemma zval_nil : zval [] = 0.
Proof. reflexivity. Qed.

Lemma drop_take_cons (l : list Z) n u :
  (u < n)%nat -> (n <= length l)%nat -> drop u (take n l) = l !!! u :: drop (S u) (take n l).
Proof.
  intros Hu Hn. rewrite <- (lookup_total_take_lt l n u) by done. apply drop_S, list_lookup_lookup_total_lt.
  rewrite length_take. lia.
Qed.

Section Small.
Context (p : Z) (Hp : 2 ^ 30 < p < 2 ^ 31) (Hodd : Z.odd p = true).
Abbreviation p0i := (modp_ninv31 p).
Abbreviation R2 := (modp_R2 p p0i).

Lemma word_mod_p w : 0 <= w < 2 ^ 31 -> u32 (u32 (w - p) + (p .& u32 (- (u32 (w - p) .>> 31)))) = w mod p.
Proof using Hp.
  intros Hw. rewrite add_back by lia. rewrite <- (Z_mod_plus_full (w - p) 1 p). f_equal. lia.
Qed.

Lemma zint_mod_small_unsigned_spec d dlen :
  zwords (take dlen d) -> (dlen <= length d)%nat -> zint_mod_small_unsigned d dlen p p0i R2 = zval (take dlen d) mod p.
Proof using Hp Hodd.
  intros Hd Hl. pose proof (modp_ninv31_spec p Hodd) as Hn. unfold zint_mod_small_unsigned.
  set (body := fun (u : nat) (x : Z) => _). change (take dlen d) with (drop 0 (take dlen d)).
  apply (for_down_inv body (fun u x => x = zval (drop u (take dlen d)) mod p)).
  - rewrite drop_ge by (rewrite length_take; lia). rewrite zval_nil. symmetry. apply Z.mod_0_l. lia.
  - intros u x Hu ->. unfold body. cbv zeta. rewrite (drop_take_cons d dlen u), zval_cons by lia.
    set (X := zval (drop (S u) (take dlen d))). pose proof (Z.mod_pos_bound X p ltac:(lia)) as Hx.
    rewrite word_mod_p by (apply (zwords_take_word d dlen); [done | lia | lia]). set (w := d !!! u).
    pose proof (Z.mod_pos_bound w p ltac:(lia)) as Hw. rewrite modp_R2_spec by assumption.
    pose proof (Z.mod_pos_bound (2 ^ 62) p ltac:(lia)) as HR.
    destruct (modp_montymul_spec p p0i Hp Hn (X mod p) (2 ^ 62 mod p)) as [Hr Hc]; [lia | lia | nia |].
    rewrite (modp_add_spec p Hp) by (assumption || exact Hw). apply cong_mod_iff; [lia|]. rewrite (cong_mod p w) by lia.
    assert (modp_montymul (X mod p) (2 ^ 62 mod p) p p0i ≡[p] X * 2 ^ 31) as ->.
    { apply (two31_cancel p p0i Hn). rewrite Hc, !(cong_mod p) by lia. apply (cong_intro _ _ _ 0). ring. }
    apply (cong_intro _ _ _ 0). ring.
Qed.

Lemma zint_mod_small_signed_spec d dlen :
  zwords (take dlen d) -> (dlen <= length d)%nat ->
  zint_mod_small_signed d dlen p p0i R2 (2 ^ (31 * Z.of_nat dlen) mod p) = zsigned (take dlen d) mod p.
Proof using Hp Hodd.
  intros Hd Hl. unfold zint_mod_small_signed. destruct (Nat.eqb_spec dlen 0) as [->|Hne].
  { symmetry. apply Z.mod_0_l. lia. }
  rewrite zint_mod_small_unsigned_spec by done. unfold zsigned.
  rewrite length_take, Nat.min_l, lookup_total_take_lt by lia. set (top := d !!! (dlen - 1)%nat).
  pose proof (zwords_take_word d dlen (dlen - 1) Hd ltac:(lia) ltac:(lia)) as Ht. fold top in Ht.
  set (X := zval (take dlen d)). set (Rx := 2 ^ (31 * Z.of_nat dlen)).
  pose proof (Z.mod_pos_bound X p ltac:(lia)) as HX. pose proof (Z.mod_pos_bound Rx p ltac:(lia)) as HR.
  assert (top .>> 30 = bit (2 ^ 30 <=? top)) as ->.
  { rewrite Z.shiftr_div_pow2 by lia. destruct (Z.leb_spec (2 ^ 30) top); cbn [bit]; [|apply Z.div_small; lia].
    symmetry. apply (Z.div_unique _ _ _ (top - 2 ^ 30)); lia. }
  rewrite mask_bit by (unfold in_width; lia). rewrite (modp_sub_spec p Hp).
  - apply cong_mod_iff; [lia|]. rewrite (cong_mod p X) by lia. destruct (_ <=? _); [|reflexivity].
    rewrite (cong_mod p Rx) by lia. reflexivity.
  - exact HX.
  - unfold residue. destruct (_ <=? _); lia.
Qed.
End Small.

(** The top bit of the top word is the sign. *)
Lemma zsigned_top l :
  zwords l -> (0 < length l)%nat ->
  zsigned l = zval l - (if 2 ^ (31 * Z.of_nat (length l) - 1) <=? zval l then 2 ^ (31 * Z.of_nat (length l)) else 0).
Proof.
  intros Hl H0. unfold zsigned. f_equal. f_equal. set (n := (length l - 1)%nat).
  assert (length l = S n) as Hn by lia. pose proof (zwords_word l n Hl ltac:(lia)) as Hw.
  assert (zval l = zval (take n l) + 2 ^ (31 * Z.of_nat n) * l !!! n) as Hv.
  { rewrite zval_take by lia. unfold zval. now rewrite Hn. }
  pose proof (zval_range _ (zwords_take n l Hl)) as Hr. rewrite length_take, Nat.min_l in Hr by lia.
  assert (2 ^ (31 * Z.of_nat (length l) - 1) = 2 ^ (31 * Z.of_nat n) * 2 ^ 30) as Hp
    by (rewrite <- Z.pow_add_r by lia; f_equal; lia).
  rewrite Hv, Hp. set (B := 2 ^ (31 * Z.of_nat n)) in *. set (w := l !!! n) in *.
  destruct (Z.leb_spec (2 ^ 30) w), (Z.leb_spec (B * 2 ^ 30) (zval (take n l) + B * w)); try reflexivity; nia.
Qed.

(** * Normalisation around zero *)

Lemma land1 w : w .& 1 = w mod 2.
Proof. change 1 with (Z.ones 1). now rewrite Z.land_ones. Qed.

(** -1, 0 or 1 as a 32-bit word. *)
Definition sign_word (s : Z) : Z := u32 (Z.sgn s).

Lemma compare_word wp wx : 0 <= wp < 2 ^ 31 -> 0 <= wx < 2 ^ 31 ->
  let cc := u32 (wp - wx) in (u32 (- cc) .>> 31) .| u32 (- (cc .>> 31)) = sign_word (wp - wx).
Proof.
  intros Hp Hx. cbv zeta. rewrite !shr31. unfold sign_word. destruct (Z.lt_trichotomy wp wx) as [H|[H|H]].
  - assert (u32 (wp - wx) = wp - wx + 2 ^ 32) as -> by word_lia.
    assert ((wp - wx + 2 ^ 32) / 2 ^ 31 = 1) as -> by (symmetry; apply (Z.div_unique _ _ _ (wp - wx + 2 ^ 31)); lia).
    assert (u32 (- (wp - wx + 2 ^ 32)) = wx - wp) as -> by word_lia. rewrite Z.div_small by lia.
    rewrite Z.sgn_neg by lia. reflexivity.
  - subst wx. rewrite Z.sub_diag. reflexivity.
  - rewrite (wrap_small 32 (wp - wx)) by (unfold in_width; lia). rewrite (Z.div_small (wp - wx)) by lia.
    assert (u32 (- (wp - wx)) = 2 ^ 32 - (wp - wx)) as -> by word_lia.
    assert ((2 ^ 32 - (wp - wx)) / 2 ^ 31 = 1) as -> by (symmetry; apply (Z.div_unique _ _ _ (2 ^ 31 - (wp - wx))); lia).
    rewrite Z.sgn_pos by lia. reflexivity.
Qed.

Lemma keep_sign s t : sign_word s .| (sign_word t .& u32 ((sign_word s .& 1) - 1)) = sign_word (if s =? 0 then t else s).
Proof.
  unfold sign_word. destruct (Z.eqb_spec s 0) as [->|Hs]; [now destruct t as [|t|t]|].
  destruct s as [|s|s]; [done | now destruct t | now destruct t].
Qed.

(** The comparison of half the modulus with [x], high words first. *)
Lemma norm_compare x p len :
  zwords (take len x) -> zwords (take len p) -> (len <= length x)%nat -> (len <= length p)%nat ->
  let out := for_down len (fun u '(bb, r) =>
    let wx := x !!! u in
    let wp := ((p !!! u) .>> 1) .| u32 (bb .<< 30) in
    let bb := (p !!! u) .& 1 in
    let cc := u32 (wp - wx) in
    let cc := (u32 (- cc) .>> 31) .| u32 (- (cc .>> 31)) in
    (bb, r .| (cc .& u32 ((r .& 1) - 1)))) (0, 0) in
  out.2 = sign_word (zval (take len p) / 2 - zval (take len x)).
Proof.
  intros Hx Hp Hlx Hlp. cbv zeta. set (body := fun (u : nat) (st : Z * Z) => _).
  enough ((fun u out => out.1 = zval (drop u (take len p)) mod 2 /\
    out.2 = sign_word (zval (drop u (take len p)) / 2 - zval (drop u (take len x)))) 0%nat (for_down len body (0, 0))) as [_ H] by exact H.
  apply (for_down_inv body (fun u out => out.1 = zval (drop u (take len p)) mod 2 /\
    out.2 = sign_word (zval (drop u (take len p)) / 2 - zval (drop u (take len x))))).
  - rewrite !drop_ge by (rewrite length_take; lia). rewrite zval_nil. now split.
  - intros u [bb r] Hu [Hbb Hr]. cbn [fst snd] in Hbb, Hr. subst bb r. unfold body. cbn [fst snd].
    pose proof (zwords_take_word x len u Hx ltac:(lia) ltac:(lia)) as Hwx. pose proof (zwords_take_word p len u Hp ltac:(lia) ltac:(lia)) as Hwp.
    rewrite (drop_take_cons p len u), (drop_take_cons x len u), !zval_cons by done.
    set (P' := zval (drop (S u) (take len p))). set (X' := zval (drop (S u) (take len x))).
    set (wp := p !!! u) in *. set (wx := x !!! u) in *. rewrite (land1 wp).
    pose proof (Z.mod_pos_bound P' 2 ltac:(lia)) as Hb. rewrite (Z.shiftr_div_pow2 wp 1), Z.shiftl_mul_pow2 by lia.
    rewrite (wrap_small 32 (P' mod 2 * 2 ^ 30)) by (unfold in_width; lia). change (2 ^ 1) with 2.
    assert (0 <= wp / 2 < 2 ^ 30) as Hh by (split; [apply Z.div_pos; lia | apply Z.div_lt_upper_bound; lia]).
    assert ((wp / 2) .| (P' mod 2 * 2 ^ 30) = P' mod 2 * 2 ^ 30 + wp / 2) as ->
      by (rewrite Z.lor_comm, <- Z.shiftl_mul_pow2 by lia; rewrite lor_shiftl_add by lia; now rewrite Z.shiftl_mul_pow2 by lia).
    rewrite compare_word, keep_sign by lia.
    split; [replace (wp + 2 ^ 31 * P') with (wp + 2 ^ 30 * P' * 2) by ring; now rewrite Z.mod_add by lia|].
    assert ((wp + 2 ^ 31 * P') / 2 = P' mod 2 * 2 ^ 30 + wp / 2 + 2 ^ 31 * (P' / 2)) as ->.
    { rewrite (Z.div_mod P' 2) at 1 by lia. replace (wp + 2 ^ 31 * (2 * (P' / 2) + P' mod 2)) with (wp + (P' mod 2 * 2 ^ 30 + 2 ^ 31 * (P' / 2)) * 2) by ring.
      rewrite Z.div_add by lia. ring. }
    unfold sign_word. f_equal. set (h := P' mod 2 * 2 ^ 30 + wp / 2) in *.
    assert (0 <= h < 2 ^ 31) by (unfold h; lia).
    destruct (Z.eqb_spec (P' / 2 - X') 0); [f_equal; lia|].
    destruct (Z.lt_trichotomy (P' / 2 - X') 0) as [H'|[H'|H']]; [rewrite !Z.sgn_neg by lia; reflexivity | lia | rewrite !Z.sgn_pos by lia; reflexivity].
Qed.

(** A residue modulo an odd modulus gets its representative of least absolute value, in two's
    complement. *)
Lemma zint_norm_zero_spec x p len :
  zwords (take len x) -> zwords (take len p) -> (len <= length x)%nat -> (len <= length p)%nat -> (0 < len)%nat ->
  let P := zval (take len p) in
  let X := zval (take len x) in
  Z.odd P = true -> X < P ->
  let r := zint_norm_zero x p len in
  length r = length x /\ drop len r = drop len x /\ zwords (take len r) /\
  zsigned (take len r) = if P / 2 <? X then X - P else X.
Proof.
  intros Hx Hp Hlx Hlp H0. cbv zeta. intros Ho HX. unfold zint_norm_zero.
  pose proof (norm_compare x p len Hx Hp Hlx Hlp) as Hc. cbv zeta in Hc. destruct (for_down len _ (0, 0)) as [bb r]. cbn [snd] in Hc.
  subst r. pose proof (zval_range _ Hp) as HPr. pose proof (zval_range _ Hx) as HXr.
  rewrite length_take, Nat.min_l in HPr, HXr by done.
  set (P := zval (take len p)) in *. set (X := zval (take len x)) in *.
  assert (sign_word (P / 2 - X) .>> 31 = bit (P / 2 <? X)) as ->.
  { unfold sign_word. destruct (Z.ltb_spec (P / 2) X); [rewrite Z.sgn_neg by lia; reflexivity|].
    destruct (decide (P / 2 = X)) as [E|E]; [rewrite E, Z.sub_diag; reflexivity | rewrite Z.sgn_pos by lia; reflexivity]. }
  assert (forall l, length l = len -> zwords l -> zsigned l = zval l - (if 2 ^ (31 * Z.of_nat len - 1) <=? zval l then 2 ^ (31 * Z.of_nat len) else 0)) as Hsig.
  { intros l Hl Hw. rewrite <- Hl in H0 |- *. now apply zsigned_top. }
  assert (2 ^ (31 * Z.of_nat len) = 2 * 2 ^ (31 * Z.of_nat len - 1)) as Hhalf by (rewrite <- Z.pow_succ_r by lia; f_equal; lia).
  apply Z.odd_spec in Ho as [m Hm]. assert (P / 2 = m) as Hdiv by (rewrite Hm, Z.mul_comm, Z.div_add_l by lia; change (1 / 2) with 0; lia).
  destruct (Z.ltb_spec (P / 2) X) as [Hlt|Hge]; cbn [bit].
  - destruct (zint_sub_spec x p len Hx Hp Hlx Hlp) as (Hb & Hl & Hd & Hw & Hv). set (out := zint_sub x p len 1) in *.
    split; [done|]. split; [done|]. split; [done|]. fold P X in Hv. pose proof (zval_range _ Hw) as Hrng.
    rewrite length_take, Nat.min_l in Hrng by lia. rewrite Hsig by (try done; rewrite length_take; lia).
    destruct Hb as [Hb|Hb]; rewrite Hb in Hv; [lia|]. destruct (Z.leb_spec (2 ^ (31 * Z.of_nat len - 1)) (zval (take len out.2))); lia.
  - rewrite zint_sub_compare by done. cbn [snd]. split; [done|]. split; [done|]. split; [exact Hx|].
    rewrite Hsig by (try exact Hx; rewrite length_take; lia). fold X.
    destruct (Z.leb_spec (2 ^ (31 * Z.of_nat len - 1)) X); lia.
Qed.
