(* ===== verification/Crt.v ===== *)
(** Crt: integers from their residues, [zint_rebuild_CRT] of [keygen.c].

    The integers are consecutive or interleaved in one array: integer [v] starts at word [v * xstride].
    A pointer into the array is the array from that word on ([splice]). *)

From Stdlib Require Import ZArith Lia.
From stdpp Require Import base numbers list.
From S2P Require Import Prelude NumberTheory Modp Primes Zint.

(** A function of the array from word [off] on. *)
Definition splice (off : nat) (f : list Z -> list Z) (mem : list Z) : list Z := take off mem ++ f (drop off mem).

Definition rebuild_word (u : nat) (tmp : list Z) (p s p0i R2 : Z) (x : list Z) : list Z :=
  let xp := x !!! u in
  let xq := zint_mod_small_unsigned x u p p0i R2 in
  let xr := modp_montymul s (modp_sub xp xq p) p p0i in
  zint_add_mul_small x tmp u xr.

Definition zint_rebuild_CRT (xx : list Z) (xlen xstride num : nat) (primes : list small_prime) (normalize_signed : bool)
    (tmp : list Z) : list Z * list Z :=
  let tmp := <[0%nat := sp_p (primes !!! 0%nat)]> tmp in
  let '(xx, tmp) := for_up 1 xlen (fun u '(xx, tmp) =>
    let p := sp_p (primes !!! u) in
    let s := sp_s (primes !!! u) in
    let p0i := modp_ninv31 p in
    let R2 := modp_R2 p p0i in
    let xx := for_up 0 num (fun v xx => splice (v * xstride) (rebuild_word u tmp p s p0i R2) xx) xx in
    let '(cc, tmp) := zint_mul_small tmp u p in
    (xx, <[u := cc]> tmp)) (xx, tmp) in
  let xx := if normalize_signed
            then for_up 0 num (fun u xx => splice (u * xstride) (fun x => zint_norm_zero x tmp xlen) xx) xx
            else xx in
  (xx, tmp).

(** * Loops over the integers of an array *)

Section Slices.
Context (w stride : nat).

Definition slice (v : nat) (mem : list Z) : list Z := take w (drop (v * stride) mem).

(** Outside the first [n] integers. *)
Definition outside (n k : nat) : Prop := forall v, (v < n)%nat -> ~ (v * stride <= k < v * stride + w)%nat.

Definition same_outside (n : nat) (mem mem' : list Z) : Prop :=
  length mem' = length mem /\ forall k, (k < length mem)%nat -> outside n k -> mem' !!! k = mem !!! k.

Lemma slice_length v mem : (v * stride + w <= length mem)%nat -> length (slice v mem) = w.
Proof using Type. intros H. unfold slice. rewrite length_take, length_drop. lia. Qed.

Lemma word_of_slice v mem u : (u < w)%nat -> slice v mem !!! u = mem !!! (v * stride + u)%nat.
Proof using Type. intros Hu. unfold slice. now rewrite lookup_total_take_lt, lookup_total_drop by done. Qed.

Lemma slice_ext v mem mem' :
  length mem' = length mem -> (v * stride + w <= length mem)%nat ->
  (forall u, (u < w)%nat -> mem' !!! (v * stride + u)%nat = mem !!! (v * stride + u)%nat) -> slice v mem' = slice v mem.
Proof using Type.
  intros Hl Hv Hu. apply list_eq_total; [rewrite !slice_length; lia|]. rewrite slice_length by lia. intros u Hlt.
  rewrite !word_of_slice by done. now apply Hu.
Qed.

(** A function that reads and writes the first [w] words at most. *)
Lemma splice_spec off (f : list Z -> list Z) mem :
  (off <= length mem)%nat -> length (f (drop off mem)) = length (drop off mem) ->
  drop w (f (drop off mem)) = drop w (drop off mem) ->
  length (splice off f mem) = length mem /\ drop off (splice off f mem) = f (drop off mem) /\
  forall k, (k < length mem)%nat -> ~ (off <= k < off + w)%nat -> splice off f mem !!! k = mem !!! k.
Proof using Type.
  intros Hoff Hl Hd. unfold splice. assert (length (take off mem) = off) as Ht by (rewrite length_take; lia).
  split; [rewrite length_app, Hl, length_drop; lia|]. split; [now rewrite drop_app_length' by done|].
  intros k Hk Hout. destruct (Nat.ltb_spec k off).
  - rewrite lookup_total_app_l by lia. now apply lookup_total_take_lt.
  - rewrite lookup_total_app_r by lia. rewrite Ht.
    replace (k - off)%nat with (w + (k - off - w))%nat by lia. rewrite <- lookup_total_drop, Hd, !lookup_total_drop. f_equal. lia.
Qed.

Lemma slices_loop (f : nat -> list Z -> list Z) (Pre : nat -> list Z -> Prop) (R : nat -> list Z -> list Z -> Prop) n mem :
  (w <= stride)%nat ->
  (forall v, (v < n)%nat -> (v * stride + w <= length mem)%nat) ->
  (forall v, (v < n)%nat -> Pre v (slice v mem)) ->
  (forall v l, (v < n)%nat -> (w <= length l)%nat -> Pre v (take w l) ->
     length (f v l) = length l /\ drop w (f v l) = drop w l /\ R v (take w l) (take w (f v l))) ->
  let mem' := for_up 0 n (fun v mem => splice (v * stride) (f v) mem) mem in
  same_outside n mem mem' /\ forall v, (v < n)%nat -> R v (slice v mem) (slice v mem').
Proof using Type.
  intros Hws Hfit Hpre Hf. cbv zeta.
  apply (for_up_inv _ (fun i mem' => same_outside i mem mem' /\
    (forall v, (v < i)%nat -> R v (slice v mem) (slice v mem')))); [lia | split; [now split | lia] |].
  intros v m Hv [[Hl Hout] HR]. pose proof (Hfit v ltac:(lia)) as Hfv.
  assert (slice v m = slice v mem) as Hsl.
  { apply slice_ext; [done | done |]. intros u Hu. apply Hout; [lia|]. intros v' Hv'. nia. }
  destruct (Hf v (drop (v * stride) m)) as (H1 & H2 & H3); [lia | rewrite length_drop; lia | fold (slice v m); rewrite Hsl; apply Hpre; lia |].
  destruct (splice_spec (v * stride) (f v) m) as (G1 & G2 & G3); [lia | done | done |]. split; [split|].
  - lia.
  - intros k Hk Ho. rewrite G3; [|lia | apply Ho; lia]. apply Hout; [lia|]. intros v' Hv'. apply Ho. lia.
  - intros v' Hv'. destruct (decide (v' = v)) as [->|Hne].
    + rewrite <- Hsl. unfold slice at 2. rewrite G2. exact H3.
    + pose proof (Hfit v' ltac:(lia)).
      assert (slice v' (splice (v * stride) (f v) m) = slice v' m) as ->; [|apply HR; lia].
      apply slice_ext; [done | lia |]. intros u Hu. apply G3; [lia|]. nia.
Qed.

Lemma same_outside_trans n mem mem' mem'' : same_outside n mem mem' -> same_outside n mem' mem'' -> same_outside n mem mem''.
Proof using Type.
  intros [H1 H2] [H3 H4]. split; [lia|]. intros k Hk Ho. rewrite H4 by (done || lia). now apply H2.
Qed.
End Slices.

(** * Garner's recombination *)

Lemma prod_primes_pos n : (n <= num_primes)%nat -> 0 < prod_primes n.
Proof.
  induction n as [|n IH]; intros Hn; [cbn; lia|]. rewrite prod_primes_S by lia.
  pose proof (good_range _ (PRIMES_good n ltac:(lia))). specialize (IH ltac:(lia)). nia.
Qed.

Lemma prod_primes_odd n : (n <= num_primes)%nat -> Z.odd (prod_primes n) = true.
Proof.
  induction n as [|n IH]; intros Hn; [done|]. rewrite prod_primes_S, Z.odd_mul, IH by lia.
  now rewrite (good_odd _ (PRIMES_good n ltac:(lia))).
Qed.

Lemma prod_primes_width n : (n <= num_primes)%nat -> prod_primes n <= 2 ^ (31 * Z.of_nat n).
Proof.
  induction n as [|n IH]; intros Hn; [cbn; lia|]. rewrite prod_primes_S, pow31_S by lia.
  pose proof (good_range _ (PRIMES_good n ltac:(lia))). pose proof (prod_primes_pos n ltac:(lia)). specialize (IH ltac:(lia)). nia.
Qed.

Lemma used_prime u : (u < num_used)%nat -> (u < num_primes)%nat.
Proof. intros H. apply (Nat.lt_le_trans _ num_used); [exact H|]. apply Nat.leb_le. reflexivity. Qed.

Lemma first_product : 2 ^ 30 < prod_primes 1 < 2 ^ 31.
Proof. vm_compute. split; reflexivity. Qed.

(** A multiple of [q] that vanishes modulo the next prime is a multiple of the next product. *)
Lemma next_modulus u x z :
  (u < num_used)%nat -> x ≡[prod_primes u] z -> x ≡[sp_p (PRIMES !!! u)] z -> x ≡[prod_primes (S u)] z.
Proof.
  intros Hused [k ->]%cong_elim Hp. rewrite prod_primes_S by now apply used_prime.
  destruct (PRIMES_inverse u Hused) as [[_ Hs] _]. destruct (PRIMES_good u (used_prime u Hused)) as [Hr Ho _ _ _].
  set (p := sp_p (PRIMES !!! u)) in *. set (s := sp_s (PRIMES !!! u)) in *. set (q := prod_primes u) in *.
  rewrite cong_mod in Hs by lia. assert (k ≡[p] 0) as [l ->]%cong_elim.
  { apply (two31_cancel p _ (modp_ninv31_spec p Ho)). assert (q * k ≡[p] 0) as Hqk.
    { replace (q * k) with (z + q * k - z) by ring. rewrite Hp. apply (cong_intro _ _ _ 0). ring. }
    assert (k * 2 ^ 31 ≡[p] s * (q * k)) as ->; [|rewrite Hqk; apply (cong_intro _ _ _ 0); ring].
    replace (s * (q * k)) with (k * (s * q)) by ring. rewrite Hs. apply (cong_intro _ _ _ 0). ring. }
  apply (cong_intro _ _ _ l). ring.
Qed.

(** Integer [z] half rebuilt: the first [u] words hold [z] modulo the product of [u] primes, the
    others its residues. *)
Definition rebuilt (w u : nat) (z : Z) (sl : list Z) : Prop :=
  zwords (take u sl) /\ zval (take u sl) = z mod prod_primes u /\
  forall j, (u <= j < w)%nat -> sl !!! j = z mod sp_p (PRIMES !!! j).

(** The running product. *)
Definition product_words (u : nat) (tmp : list Z) : Prop := zwords (take u tmp) /\ zval (take u tmp) = prod_primes u.

Lemma take_take_le (l : list Z) a b : (a <= b)%nat -> take a (take b l) = take a l.
Proof. intros H. now rewrite take_take, Nat.min_l. Qed.

Lemma rebuild_word_spec w u z tmp l :
  (0 < u < w)%nat -> (u < num_used)%nat -> (w <= length l)%nat -> (u <= length tmp)%nat -> product_words u tmp ->
  rebuilt w u z (take w l) ->
  let p := sp_p (PRIMES !!! u) in
  let r := rebuild_word u tmp p (sp_s (PRIMES !!! u)) (modp_ninv31 p) (modp_R2 p (modp_ninv31 p)) l in
  length r = length l /\ drop w r = drop w l /\ rebuilt w (S u) z (take w r).
Proof.
  intros Hu Hused Hl Htl [Htw Htv] (Hxw & Hxv & Hxr). cbv zeta.
  destruct (PRIMES_good u (used_prime u Hused)) as [Hr Ho _ _ _].
  destruct (PRIMES_inverse u Hused) as [[_ Hs] Hsr].
  rewrite take_take_le in Hxw, Hxv by lia. specialize (Hxr u ltac:(lia)) as Hxu. rewrite lookup_total_take_lt in Hxu by lia.
  pose proof (modp_ninv31_spec (sp_p (PRIMES !!! u)) Ho) as Hn.
  set (p := sp_p (PRIMES !!! u)) in *. set (s := sp_s (PRIMES !!! u)) in *. set (q := prod_primes u) in *.
  pose proof (prod_primes_pos u (Nat.lt_le_incl _ _ (used_prime u Hused))) as Hq. fold q in Hq.
  unfold rebuild_word. rewrite (zint_mod_small_unsigned_spec p Hr Ho) by (done || lia). rewrite Hxu, Hxv.
  pose proof (Z.mod_pos_bound z p ltac:(lia)) as Hz1. pose proof (Z.mod_pos_bound (z mod q) p ltac:(lia)) as Hz2.
  rewrite (modp_sub_spec p Hr) by assumption. set (d := (z mod p - z mod q mod p) mod p).
  pose proof (Z.mod_pos_bound (z mod p - z mod q mod p) p ltac:(lia)) as Hd. fold d in Hd.
  destruct (modp_montymul_spec p _ Hr Hn s d) as [Hxrr Hxrc]; [lia | lia | nia |]. unfold residue in Hxrr.
  set (xr := modp_montymul s d p (modp_ninv31 p)) in *.
  destruct (zint_add_mul_small_spec l tmp u xr) as (G1 & G2 & G3 & G4); [done | done | lia | done | lia |].
  set (r := zint_add_mul_small l tmp u xr) in *. rewrite Hxv, Htv in G4.
  split; [done|]. split.
  { replace w with (S u + (w - S u))%nat by lia. now rewrite <- !drop_drop, G2. }
  split; [now rewrite take_take_le by lia|]. split.
  - rewrite take_take_le by lia. pose proof (Z.mod_pos_bound z q ltac:(lia)) as Hzq.
    apply cong_canonical.
    + rewrite G4. rewrite prod_primes_S by now apply used_prime. fold q p. nia.
    + rewrite G4. apply next_modulus; [done | |].
      * fold q. rewrite (cong_mod q z) by lia. apply (cong_intro _ _ _ xr). ring.
      * fold p. apply (two31_cancel p _ Hn). rewrite cong_mod in Hs by lia.
        replace ((z mod q + xr * q) * 2 ^ 31) with (z mod q * 2 ^ 31 + q * (xr * 2 ^ 31)) by ring. rewrite Hxrc.
        assert (q * (s * d) ≡[p] 2 ^ 31 * (z - z mod q)) as ->; [|apply (cong_intro _ _ _ 0); ring].
        replace (q * (s * d)) with (s * q * d) by ring. rewrite Hs. unfold d. rewrite (cong_mod p (_ - _)), (cong_mod p z), (cong_mod p (z mod q)) by lia. apply (cong_intro _ _ _ 0). ring.
  - intros j Hj. rewrite lookup_total_take_lt by lia. replace j with (S u + (j - S u))%nat by lia.
    rewrite <- lookup_total_drop, G2, lookup_total_drop. replace (S u + (j - S u))%nat with j by lia.
    rewrite <- Hxr by lia. now rewrite lookup_total_take_lt by lia.
Qed.

(** Appending the carry of the product. *)
Lemma product_step u tmp :
  (0 < u)%nat -> (u < num_primes)%nat -> (u < length tmp)%nat -> product_words u tmp ->
  let '(cc, t) := zint_mul_small tmp u (sp_p (PRIMES !!! u)) in
  length (<[u := cc]> t) = length tmp /\ product_words (S u) (<[u := cc]> t).
Proof.
  intros H0 Hu Hl [Hw Hv]. destruct (good_range _ (PRIMES_good u Hu)) as [Hr1 Hr2].
  pose proof (zint_mul_small_spec tmp u (sp_p (PRIMES !!! u)) Hw ltac:(lia) ltac:(lia)) as H. cbv zeta in H.
  destruct (zint_mul_small tmp u _) as [cc t]. cbn [fst snd] in H. destruct H as (H1 & H2 & H3 & H4 & H5).
  split; [now rewrite length_insert|]. unfold product_words.
  assert (take (S u) (<[u:=cc]> t) = take u t ++ [cc]) as ->.
  { rewrite (take_S_r _ u cc) by (apply list_lookup_insert_eq; lia). now rewrite take_insert_ge. }
  split; [apply Forall_app_2; [exact H4|]; constructor; [exact H1 | constructor]|].
  rewrite zval_snoc, length_take, Nat.min_l by lia. rewrite H5, Hv, prod_primes_S by lia. ring.
Qed.

Lemma centered_residue Q z : Z.odd Q = true -> 0 < Q -> Z.abs (2 * z) < Q -> (if Q / 2 <? z mod Q then z mod Q - Q else z mod Q) = z.
Proof.
  intros [m Hm]%Z.odd_spec HQ Hz. assert (Q / 2 = m) as -> by (rewrite Hm, Z.mul_comm, Z.div_add_l by lia; change (1 / 2) with 0; lia).
  destruct (Z.le_gt_cases 0 z).
  - rewrite Z.mod_small by lia. destruct (Z.ltb_spec m z); lia.
  - assert (z mod Q = z + Q) as -> by (symmetry; apply (Z.mod_unique _ _ (-1)); lia). destruct (Z.ltb_spec m (z + Q)); lia.
Qed.

Section Rebuild.
Context (xlen xstride num : nat) (zs : list Z) (xx : list Z).
Context (H0 : (0 < xlen)%nat) (Hused : (xlen <= num_used)%nat) (Hstride : (xlen <= xstride)%nat).
Context (Hfit : forall v, (v < num)%nat -> (v * xstride + xlen <= length xx)%nat).
Context (Hres : forall v u, (v < num)%nat -> (u < xlen)%nat ->
  xx !!! (v * xstride + u)%nat = zs !!! v mod sp_p (PRIMES !!! u)).

Abbreviation sl := (slice xlen xstride).

Lemma residue_slices v : (v < num)%nat -> rebuilt xlen 1 (zs !!! v) (sl v xx).
Proof using All.
  intros Hv. pose proof (Hfit v Hv). assert (sl v xx !!! 0%nat = zs !!! v mod prod_primes 1) as E.
  { rewrite word_of_slice by lia. apply (Hres v 0%nat); lia. }
  assert (take 1 (sl v xx) = [zs !!! v mod prod_primes 1]) as Ht.
  { rewrite <- E. pose proof (slice_length xlen xstride v xx ltac:(lia)) as Hl. destruct (sl v xx) as [|w l]; [cbn in Hl; lia|]. reflexivity. }
  pose proof first_product as Hp.
  pose proof (Z.mod_pos_bound (zs !!! v) (prod_primes 1) ltac:(lia)). split; [|split].
  - rewrite Ht. constructor; [unfold in_width; lia | constructor].
  - rewrite Ht, zval_cons, zval_nil. lia.
  - intros j Hj. rewrite word_of_slice by lia. apply Hres; lia.
Qed.

(** The state after [u] primes. *)
Definition crt_state (tmp : list Z) (u : nat) (st : list Z * list Z) : Prop :=
  same_outside xlen xstride num xx st.1 /\ (forall v, (v < num)%nat -> rebuilt xlen u (zs !!! v) (sl v st.1)) /\
  length st.2 = length tmp /\ product_words u st.2.

Lemma crt_loop tmp :
  (xlen <= length tmp)%nat ->
  crt_state tmp xlen (for_up 1 xlen (fun u '(xx, tmp) =>
    let p := sp_p (PRIMES !!! u) in
    let s := sp_s (PRIMES !!! u) in
    let p0i := modp_ninv31 p in
    let R2 := modp_R2 p p0i in
    let xx := for_up 0 num (fun v xx => splice (v * xstride) (rebuild_word u tmp p s p0i R2) xx) xx in
    let '(cc, tmp) := zint_mul_small tmp u p in
    (xx, <[u := cc]> tmp)) (xx, <[0%nat := sp_p (PRIMES !!! 0%nat)]> tmp)).
Proof using All.
  intros Ht. apply (for_up_inv _ (crt_state tmp)); [lia | |].
  - split; [now split|]. split; [exact residue_slices|]. cbn [snd]. split; [now rewrite length_insert|].
    pose proof first_product as Hp. destruct tmp as [|w tmp]; [cbn in Ht; lia|].
    change (product_words 1 (prod_primes 1 :: tmp)). split; [constructor; [unfold in_width; lia | constructor]|].
    change (take 1 (prod_primes 1 :: tmp)) with [prod_primes 1]. rewrite zval_cons, zval_nil. lia.
  - intros u [m t] Hu (Hout & Hreb & Hlt & Hprod). cbn [fst snd] in *. cbv zeta. assert (u < num_used)%nat as Huu by lia.
    destruct (slices_loop xlen xstride (fun _ => rebuild_word u t (sp_p (PRIMES !!! u)) (sp_s (PRIMES !!! u)) (modp_ninv31 (sp_p (PRIMES !!! u)))
        (modp_R2 (sp_p (PRIMES !!! u)) (modp_ninv31 (sp_p (PRIMES !!! u)))))
      (fun v s => rebuilt xlen u (zs !!! v) s) (fun v _ s' => rebuilt xlen (S u) (zs !!! v) s') num m) as [G1 G2].
    + exact Hstride.
    + intros v Hv. rewrite (proj1 Hout). now apply Hfit.
    + exact Hreb.
    + intros v l Hv Hl Hpre. apply rebuild_word_spec; [lia | exact Huu | exact Hl | lia | exact Hprod | exact Hpre].
    + pose proof (product_step u t ltac:(lia) (used_prime u Huu) ltac:(lia) Hprod) as Hp.
      destruct (zint_mul_small t u _) as [cc t']. destruct Hp as [Hp1 Hp2].
      split; [exact (same_outside_trans _ _ _ _ _ _ Hout G1)|]. split; [exact G2|]. cbn [snd]. split; [lia | exact Hp2].
Qed.

Lemma rebuild_spec (normalize_signed : bool) (tmp : list Z) :
  (xlen <= length tmp)%nat ->
  (forall v, (v < num)%nat -> if normalize_signed then Z.abs (2 * zs !!! v) < prod_primes xlen else 0 <= zs !!! v < prod_primes xlen) ->
  let '(xx', tmp') := zint_rebuild_CRT xx xlen xstride num PRIMES normalize_signed tmp in
  same_outside xlen xstride num xx xx' /\
  (forall v, (v < num)%nat -> zwords (sl v xx') /\ (if normalize_signed then zsigned else zval) (sl v xx') = zs !!! v) /\
  product_words xlen tmp'.
Proof using All.
  intros Ht Hz. unfold zint_rebuild_CRT. pose proof (crt_loop tmp Ht) as H. cbv zeta in H.
  cbv zeta. revert H. destruct (for_up (St := list Z * list Z) 1 xlen _ _) as [m t]. intros H. destruct H as (Hout & Hreb & Hlt & Hpw & Hpv). cbn [fst snd] in *.
  assert (xlen <= num_primes)%nat as Hnp by (apply (Nat.le_trans _ num_used); [exact Hused | apply Nat.lt_le_incl, Nat.leb_le; reflexivity]).
  pose proof (prod_primes_pos xlen Hnp) as HQ.
  assert (forall v, (v < num)%nat -> zwords (sl v m) /\ zval (sl v m) = zs !!! v mod prod_primes xlen) as Hv.
  { intros v Hv. destruct (Hreb v Hv) as (H1 & H2 & _). pose proof (Hfit v Hv). pose proof (proj1 Hout).
    rewrite (take_ge (sl v m)) in H1, H2 by (rewrite slice_length; lia). now split. }
  destruct normalize_signed.
  - destruct (slices_loop xlen xstride (fun _ x => zint_norm_zero x t xlen)
      (fun v s => zwords s /\ zval s = zs !!! v mod prod_primes xlen) (fun v _ s' => zwords s' /\ zsigned s' = zs !!! v) num m) as [G1 G2].
    + exact Hstride.
    + intros v Hlt'. rewrite (proj1 Hout). now apply Hfit.
    + exact Hv.
    + intros v l Hlt' Hl [Hw Hval]. pose proof (prod_primes_odd xlen Hnp) as Ho.
      pose proof (Z.mod_pos_bound (zs !!! v) (prod_primes xlen) HQ) as Hb.
      destruct (zint_norm_zero_spec l t xlen Hw Hpw Hl ltac:(lia) H0) as (E1 & E2 & E3 & E4); [rewrite Hpv; exact Ho | rewrite Hpv; lia |].
      split; [exact E1|]. split; [exact E2|]. split; [exact E3|]. rewrite E4, Hpv, Hval.
      apply centered_residue; [exact Ho | exact HQ | now apply Hz].
    + split; [exact (same_outside_trans _ _ _ _ _ _ Hout G1)|]. split; [exact G2 | now split].
  - split; [exact Hout|]. split; [|now split]. intros v Hlt'. destruct (Hv v Hlt') as [H1 H2]. split; [exact H1|].
    rewrite H2. apply Z.mod_small. now apply Hz.
Qed.
End Rebuild.

(** * The property *)

(** C21 (roundtrip).  Rebuilding integers from their residues: when word [u] of integer [v] holds its residue
    modulo the [u]-th prime of the table, [zint_rebuild_CRT] replaces each integer by its 31-bit words, for
    every integer between 0 and the product of the primes, and with [normalize_signed] for every integer
    of absolute value below half the product, in two's complement; the words between the integers are left
    as they were.  The number of primes is at most 157 ([num_used]), enough for every call at degree 512 and
    below. *)
Theorem zint_rebuild_roundtrip (xlen xstride num : nat) (zs xx tmp : list Z) (normalize_signed : bool) :
  (0 < xlen <= num_used)%nat -> (xlen <= xstride)%nat -> (xlen <= length tmp)%nat ->
  (forall v, (v < num)%nat -> (v * xstride + xlen <= length xx)%nat /\
    (if normalize_signed then Z.abs (2 * zs !!! v) < prod_primes xlen else 0 <= zs !!! v < prod_primes xlen) /\
    forall u, (u < xlen)%nat -> xx !!! (v * xstride + u)%nat = zs !!! v mod sp_p (PRIMES !!! u)) ->
  let '(xx', tmp') := zint_rebuild_CRT xx xlen xstride num PRIMES normalize_signed tmp in
  same_outside xlen xstride num xx xx' /\
  (forall v, (v < num)%nat -> zwords (slice xlen xstride v xx') /\
    (if normalize_signed then zsigned else zval) (slice xlen xstride v xx') = zs !!! v) /\
  product_words xlen tmp'.
Proof.
  intros [H0 Hu] Hs Ht H. apply (rebuild_spec xlen xstride num zs xx); try assumption; intros; now apply H.
Qed.

(** Two integers, one of them negative, with a word between them. *)
Definition demo_residues : list Z :=
  [1000; 1000; 77; (-5) mod sp_p (PRIMES !!! 0%nat); (-5) mod sp_p (PRIMES !!! 1%nat); 77].

Lemma zint_rebuild_roundtrip_witness :
  let '(xx', _) := zint_rebuild_CRT demo_residues 2 3 2 PRIMES true [0; 0] in
  zsigned (slice 2 3 1 xx') = -5 /\ xx' !!! 2%nat = 77.
Proof.
  assert (forall v, (v < 2)%nat -> (v * 3 + 2 <= length demo_residues)%nat /\ Z.abs (2 * [1000; -5] !!! v) < prod_primes 2 /\
    forall u, (u < 2)%nat -> demo_residues !!! (v * 3 + u)%nat = [1000; -5] !!! v mod sp_p (PRIMES !!! u)) as Hpre.
  { intros v Hv. assert (v = 0 \/ v = 1)%nat as [-> | ->] by lia; (split; [apply Nat.leb_le; reflexivity|]; split; [vm_compute; reflexivity|];
      intros u Hu; assert (u = 0 \/ u = 1)%nat as [-> | ->] by lia; vm_compute; reflexivity). }
  pose proof (zint_rebuild_roundtrip 2 3 2 [1000; -5] demo_residues [0; 0] true ltac:(split; apply Nat.leb_le; reflexivity)
    ltac:(lia) ltac:(cbn; lia) Hpre) as H.
  destruct (zint_rebuild_CRT demo_residues 2 3 2 PRIMES true [0; 0]) as [xx' t]. destruct H as ((_ & Hout) & Hv & _).
  split; [exact (proj2 (Hv 1%nat ltac:(lia)))|]. rewrite Hout; [reflexivity | cbn; lia | intros v Hlt; lia].
Defined.
