(* ===== verification/Bezout.v ===== *)
(** Bezout: the extended binary GCD of [keygen.c], thirty-one steps at a time.

    Signed 64-bit coefficients are integers: the bounds proved below keep them far from overflow. *)

From Stdlib Require Import ZArith Lia.
From stdpp Require Import base numbers list.
From S2P Require Import Prelude NumberTheory Modp Zint.

Definition zint_co_reduce (a b : list Z) (len : nat) (xa xb ya yb : Z) : Z * list Z * list Z :=
  let '(cca, ccb, a, b) := for_up 0 len (fun u '(cca, ccb, a, b) =>
    let wa := a !!! u in
    let wb := b !!! u in
    let za := u64 (u64 (u64 (wa * u64 xa) + u64 (wb * u64 xb)) + u64 cca) in
    let zb := u64 (u64 (u64 (wa * u64 ya) + u64 (wb * u64 yb)) + u64 ccb) in
    let '(a, b) := if (0 <? u)%nat
                   then (<[(u - 1)%nat := u32 za .& 0x7FFFFFFF]> a, <[(u - 1)%nat := u32 zb .& 0x7FFFFFFF]> b)
                   else (a, b) in
    (i64 za .>> 31, i64 zb .>> 31, a, b)) (0, 0, a, b) in
  let a := <[(len - 1)%nat := u32 cca]> a in
  let b := <[(len - 1)%nat := u32 ccb]> b in
  let nega := u32 (u64 cca .>> 63) in
  let negb := u32 (u64 ccb .>> 63) in
  let a := zint_negate a len nega in
  let b := zint_negate b len negb in
  (nega .| u32 (negb .<< 1), a, b).

Definition zint_finish_mod (a : list Z) (len : nat) (m : list Z) (neg : Z) : list Z :=
  let cc := for_up 0 len (fun u cc => u32 (u32 (a !!! u - m !!! u) - cc) .>> 31) 0 in
  let xm := u32 (- neg) .>> 1 in
  let ym := u32 (- (neg .| u32 (1 - cc))) in
  let cc := neg in
  snd (for_up 0 len (fun u '(cc, a) =>
    let aw := a !!! u in
    let mw := (m !!! u .^ xm) .& ym in
    let aw := u32 (u32 (aw - mw) - cc) in
    (aw .>> 31, <[u := aw .& 0x7FFFFFFF]> a)) (cc, a)).

Definition zint_co_reduce_mod (a b m : list Z) (len : nat) (m0i xa xb ya yb : Z) : list Z * list Z :=
  let fa := u32 (u32 (u32 (a !!! 0%nat * u32 xa) + u32 (b !!! 0%nat * u32 xb)) * m0i) .& 0x7FFFFFFF in
  let fb := u32 (u32 (u32 (a !!! 0%nat * u32 ya) + u32 (b !!! 0%nat * u32 yb)) * m0i) .& 0x7FFFFFFF in
  let '(cca, ccb, a, b) := for_up 0 len (fun u '(cca, ccb, a, b) =>
    let wa := a !!! u in
    let wb := b !!! u in
    let za := u64 (u64 (u64 (u64 (wa * u64 xa) + u64 (wb * u64 xb)) + u64 (m !!! u * fa)) + u64 cca) in
    let zb := u64 (u64 (u64 (u64 (wa * u64 ya) + u64 (wb * u64 yb)) + u64 (m !!! u * fb)) + u64 ccb) in
    let '(a, b) := if (0 <? u)%nat
                   then (<[(u - 1)%nat := u32 za .& 0x7FFFFFFF]> a, <[(u - 1)%nat := u32 zb .& 0x7FFFFFFF]> b)
                   else (a, b) in
    (i64 za .>> 31, i64 zb .>> 31, a, b)) (0, 0, a, b) in
  let a := <[(len - 1)%nat := u32 cca]> a in
  let b := <[(len - 1)%nat := u32 ccb]> b in
  (zint_finish_mod a len m (u32 (u64 cca .>> 63)), zint_finish_mod b len m (u32 (u64 ccb .>> 63))).

(** The top words of [a] and [b]: the scan from the high end. *)
Definition top_scan (a b : list Z) (len : nat) : Z * Z * Z * Z * Z * Z :=
  for_down len (fun j '(c0, c1, a0, a1, b0, b1) =>
    let aw := a !!! j in
    let bw := b !!! j in
    let a0 := a0 .^ ((a0 .^ aw) .& c0) in
    let a1 := a1 .^ ((a1 .^ aw) .& c1) in
    let b0 := b0 .^ ((b0 .^ bw) .& c0) in
    let b1 := b1 .^ ((b1 .^ bw) .& c1) in
    let c1 := c0 in
    let c0 := c0 .& u32 ((u32 ((aw .| bw) + 0x7FFFFFFF) .>> 31) - 1) in
    (c0, c1, a0, a1, b0, b1)) (u32 (-1), u32 (-1), 0, 0, 0, 0).

Definition top_words (a b : list Z) (len : nat) : Z * Z :=
  let '(c0, c1, a0, a1, b0, b1) := top_scan a b len in
  let a1 := a1 .| (a0 .& c1) in
  let a0 := a0 .& u32 (Z.lnot c1) in
  let b1 := b1 .| (b0 .& c1) in
  let b0 := b0 .& u32 (Z.lnot c1) in
  (u64 (u64 (a0 .<< 31) + a1), u64 (u64 (b0 .<< 31) + b1)).

(** The variables of the loop that computes the reduction factors. *)
Record factors := mk_factors { a_hi : Z; b_hi : Z; a_lo : Z; b_lo : Z; pa : Z; pb : Z; qa : Z; qb : Z }.

Definition factor_step (i : nat) (s : factors) : factors :=
  let '(mk_factors a_hi b_hi a_lo b_lo pa pb qa qb) := s in
  let rz := u64 (b_hi - a_hi) in
  let rt := u32 ((rz .^ ((a_hi .^ b_hi) .& (a_hi .^ rz))) .>> 63) in
  let oa := (a_lo .>> Z.of_nat i) .& 1 in
  let ob := (b_lo .>> Z.of_nat i) .& 1 in
  let cAB := (oa .& ob) .& rt in
  let cBA := (oa .& ob) .& u32 (Z.lnot rt) in
  let cA := cAB .| (oa .^ 1) in
  let a_lo := u32 (a_lo - (b_lo .& u32 (- cAB))) in
  let a_hi := u64 (a_hi - (b_hi .& u64 (- cAB))) in
  let pa := pa - (qa .& - cAB) in
  let pb := pb - (qb .& - cAB) in
  let b_lo := u32 (b_lo - (a_lo .& u32 (- cBA))) in
  let b_hi := u64 (b_hi - (a_hi .& u64 (- cBA))) in
  let qa := qa - (pa .& - cBA) in
  let qb := qb - (pb .& - cBA) in
  let a_lo := u32 (a_lo + (a_lo .& u32 (cA - 1))) in
  let pa := pa + (pa .& (cA - 1)) in
  let pb := pb + (pb .& (cA - 1)) in
  let a_hi := a_hi .^ ((a_hi .^ (a_hi .>> 1)) .& u64 (- cA)) in
  let b_lo := u32 (b_lo + (b_lo .& u32 (- cA))) in
  let qa := qa + (qa .& - cA) in
  let qb := qb + (qb .& - cA) in
  let b_hi := b_hi .^ ((b_hi .^ (b_hi .>> 1)) .& u64 (cA - 1)) in
  mk_factors a_hi b_hi a_lo b_lo pa pb qa qb.

(** The six integers. *)
Record gcd_state := mk_gcd { ga : list Z; gb : list Z; gu0 : list Z; gu1 : list Z; gv0 : list Z; gv1 : list Z }.

Definition gcd_step (x y : list Z) (len : nat) (x0i y0i : Z) (st : gcd_state) : gcd_state :=
  let '(mk_gcd a b u0 u1 v0 v1) := st in
  let '(a_hi, b_hi) := top_words a b len in
  let f := for_up 0 31 factor_step (mk_factors a_hi b_hi (a !!! 0%nat) (b !!! 0%nat) 1 0 0 1) in
  let '(mk_factors _ _ _ _ pa pb qa qb) := f in
  let '(r, a, b) := zint_co_reduce a b len pa pb qa qb in
  let pa := pa - ((pa + pa) .& - (r .& 1)) in
  let pb := pb - ((pb + pb) .& - (r .& 1)) in
  let qa := qa - ((qa + qa) .& - (r .>> 1)) in
  let qb := qb - ((qb + qb) .& - (r .>> 1)) in
  let '(u0, u1) := zint_co_reduce_mod u0 u1 y len y0i pa pb qa qb in
  let '(v0, v1) := zint_co_reduce_mod v0 v1 x len x0i pa pb qa qb in
  mk_gcd a b u0 u1 v0 v1.

(** [for (num = 62 * len + 30; num >= 30; num -= 30)]. *)
Fixpoint gcd_loop (fuel : nat) (num : Z) (body : gcd_state -> gcd_state) (st : gcd_state) : option gcd_state :=
  if 30 <=? num then
    match fuel with
    | O => None
    | S fuel => gcd_loop fuel (u32 (num - 30)) body (body st)
    end
  else Some st.

(** The result and the two arrays it fills. *)
Definition zint_bezout (x y : list Z) (len : nat) : option (Z * list Z * list Z) :=
  if (len =? 0)%nat then Some (0, [], [])
  else
    let x0i := modp_ninv31 (x !!! 0%nat) in
    let y0i := modp_ninv31 (y !!! 0%nat) in
    let a := take len x in
    let b := take len y in
    let u0 := 1 :: replicate (len - 1) 0 in
    let v0 := replicate len 0 in
    let u1 := take len y in
    let v1 := take len x in
    let v1 := <[0%nat := u32 (v1 !!! 0%nat - 1)]> v1 in
    st ← gcd_loop (2 * len + (2 * len + 30) / 30 + 1) (u32 (62 * Z.of_nat len + 30)) (gcd_step x y len x0i y0i)
           (mk_gcd a b u0 u1 v0 v1);
    let rc := ga st !!! 0%nat .^ 1 in
    let rc := for_up 1 len (fun j rc => rc .| ga st !!! j) rc in
    Some (u32 (1 - ((rc .| u32 (- rc)) .>> 31)) .& x !!! 0%nat .& y !!! 0%nat, gu0 st, gv0 st).

Example bezout_smoke : zint_bezout [15] [7] 1 = Some (1, [1], [2]).
Proof. vm_compute. reflexivity. Qed.

Example bezout_two_words : exists u v, zint_bezout [12345; 6789] [98765; 4321] 2 = Some (1, u, v) /\
  zval [12345; 6789] * zval u - zval [98765; 4321] * zval v = 1.
Proof. do 2 eexists. split; [vm_compute; reflexivity|]. vm_compute. reflexivity. Qed.

Example bezout_y1 : zint_bezout [15] [1] 1 = Some (1, [0], [14]).
Proof. vm_compute. reflexivity. Qed.

(** * The reduction factors *)

Lemma land_bit b z : bit b .& z = bit (b && Z.odd z).
Proof.
  destruct b; cbn [bit andb]; [|reflexivity]. rewrite Z.land_comm. apply word_bit0.
Qed.

Lemma land_mone q c : q .& - bit c = if c then q else 0.
Proof. destruct c; cbn [bit]; [apply Z.land_m1_r | apply Z.land_0_r]. Qed.

Lemma land_pred q c : q .& (bit c - 1) = if c then 0 else q.
Proof. destruct c; cbn [bit]; [apply Z.land_0_r | apply Z.land_m1_r]. Qed.

Lemma land_u32_pred x c : in_width 32 x -> x .& u32 (bit c - 1) = if c then 0 else x.
Proof.
  intros Hx. replace (bit c - 1) with (- bit (negb c)) by (destruct c; reflexivity). rewrite mask_bit by done. now destruct c.
Qed.

Lemma shr_bit x i : (x .>> Z.of_nat i) .& 1 = bit (Z.testbit x (Z.of_nat i)).
Proof. rewrite word_bit0, <- Z.bit0_odd, Z.shiftr_spec by lia. reflexivity. Qed.

(** The four cases of the step, on the factors alone. *)
Definition factor_case (sub_ab sub_ba halve_a : bool) (p q : Z) : Z * Z :=
  let p := if sub_ab then p - q else p in
  let q := if sub_ba then q - p else q in
  (if halve_a then p else p + p, if halve_a then q + q else q).

Lemma u32_sub_mask x y c : in_width 32 y -> u32 (x - (y .& u32 (- bit c))) = u32 (if c then x - y else x).
Proof. intros Hy. rewrite mask_bit by done. destruct c; [done | now rewrite Z.sub_0_r]. Qed.

(** After [i] steps the low words hold the combinations modulo 2^32, both combinations are multiples of
    2^i, and the factors of either add up to at most 2^i. *)
Record factors_ok (wa wb : Z) (i : nat) (s : factors) : Prop := {
  f_alo : a_lo s = u32 (wa * pa s + wb * pb s);
  f_blo : b_lo s = u32 (wa * qa s + wb * qb s);
  f_adiv : a_lo s mod 2 ^ Z.of_nat i = 0;
  f_bdiv : b_lo s mod 2 ^ Z.of_nat i = 0;
  f_p : Z.abs (pa s) + Z.abs (pb s) <= 2 ^ Z.of_nat i;
  f_q : Z.abs (qa s) + Z.abs (qb s) <= 2 ^ Z.of_nat i
}.

Definition step_flags (oa ob r : bool) : bool * bool * bool := (oa && ob && r, oa && ob && negb r, oa && ob && r || negb oa).

Lemma factor_step_cases i ah bh al bl p1 p2 q1 q2 :
  in_width 32 al -> in_width 32 bl ->
  exists r ah' bh', let '(ab, ba, h) := step_flags (Z.testbit al (Z.of_nat i)) (Z.testbit bl (Z.of_nat i)) r in
    factor_step i (mk_factors ah bh al bl p1 p2 q1 q2) =
      mk_factors ah' bh' (u32 (factor_case ab ba h al bl).1) (u32 (factor_case ab ba h al bl).2)
        (factor_case ab ba h p1 q1).1 (factor_case ab ba h p2 q2).1 (factor_case ab ba h p1 q1).2 (factor_case ab ba h p2 q2).2.
Proof.
  intros Ha Hb. unfold factor_step. rewrite !shr_bit. set (rt := u32 (_ .>> 63)).
  set (oa := Z.testbit al (Z.of_nat i)). set (ob := Z.testbit bl (Z.of_nat i)). exists (Z.odd rt). unfold step_flags.
  assert ((bit oa .& bit ob) = bit (oa && ob)) as E by (rewrite land_bit; now destruct oa, ob). cbv zeta. rewrite E, !land_bit.
  assert (Z.odd (u32 (Z.lnot rt)) = negb (Z.odd rt)) as Hneg.
  { rewrite <- !Z.bit0_odd, wrap_testbit, Z.lnot_spec by lia. reflexivity. }
  rewrite Hneg. set (r := Z.odd rt). clearbody r oa ob. clear E Hneg.
  assert (bit (oa && ob && r) .| (bit oa .^ 1) = bit (oa && ob && r || negb oa)) as -> by now destruct oa, ob, r.
  set (ab := oa && ob && r). set (ba := oa && ob && negb r). set (h := ab || negb oa).
  do 2 eexists. unfold factor_case. cbn [fst snd]. rewrite !land_mone, !land_pred, !u32_sub_mask by (assumption || (apply wrap_range; lia)).
  rewrite !land_u32_pred, !mask_bit by (apply wrap_range; lia).
  f_equal.
  1, 2: rewrite !wrap_mod by lia; apply (cong_mod_iff (2 ^ 32)); [lia|]; destruct ab, ba, h; rewrite ?(cong_mod (2 ^ 32)) by lia;
    apply (cong_intro _ _ _ 0); ring.
  all: destruct ab, ba, h; lia.
Qed.

Lemma low_bit_clear x i : x mod 2 ^ Z.of_nat i = 0 -> x mod 2 ^ Z.of_nat (S i) = if Z.testbit x (Z.of_nat i) then 2 ^ Z.of_nat i else 0.
Proof.
  intros H. rewrite Nat2Z.inj_succ. unfold Z.succ. rewrite low_bits_succ by lia. rewrite H. destruct (Z.testbit x (Z.of_nat i)); cbn [Z.b2z]; lia.
Qed.

(** The case distinction keeps both combinations multiples of the next power of two. *)
Lemma flags_divide i al bl r :
  (i < 31)%nat -> al mod 2 ^ Z.of_nat i = 0 -> bl mod 2 ^ Z.of_nat i = 0 ->
  let '(ab, ba, h) := step_flags (Z.testbit al (Z.of_nat i)) (Z.testbit bl (Z.of_nat i)) r in
  (factor_case ab ba h al bl).1 ≡[2 ^ Z.of_nat (S i)] 0 /\ (factor_case ab ba h al bl).2 ≡[2 ^ Z.of_nat (S i)] 0.
Proof.
  intros Hi Ha Hb. pose proof (low_bit_clear al i Ha) as Ha'. pose proof (low_bit_clear bl i Hb) as Hb'.
  set (x := Z.testbit al _) in *. set (y := Z.testbit bl _) in *. clearbody x y.
  assert (0 < 2 ^ Z.of_nat (S i)) as Hpos by (apply Z.pow_pos_nonneg; lia).
  assert (forall a c, a mod 2 ^ Z.of_nat (S i) = c -> a ≡[2 ^ Z.of_nat (S i)] c) as Hc by (intros a c <-; symmetry; now apply cong_mod).
  apply Hc in Ha', Hb'. assert (2 ^ Z.of_nat (S i) = 2 * 2 ^ Z.of_nat i) as E by (rewrite Nat2Z.inj_succ, Z.pow_succ_r by lia; reflexivity).
  unfold step_flags, factor_case.
  destruct x, y, r; cbn [andb orb negb fst snd]; split; rewrite ?Ha', ?Hb';
    first [apply (cong_intro _ _ _ 0); lia | apply (cong_intro _ _ _ 1); lia | apply (cong_intro _ _ _ (-1)); lia].
Qed.

Lemma flags_exclusive oa ob r : let '(ab, ba, h) := step_flags oa ob r in (ab = true -> ba = false /\ h = true) /\ (ba = true -> h = false).
Proof. destruct oa, ob, r; cbn; split; intros; (split || idtac); (done || idtac). Qed.

Lemma factor_step_ok wa wb i s : (i < 31)%nat -> factors_ok wa wb i s -> factors_ok wa wb (S i) (factor_step i s).
Proof.
  intros Hi [H1 H2 H3 H4 H5 H6]. destruct s as [ah bh al bl p1 p2 q1 q2]. cbn [a_lo b_lo pa pb qa qb] in *.
  destruct (factor_step_cases i ah bh al bl p1 p2 q1 q2) as (r & ah' & bh' & H);
    [subst; apply wrap_range; lia | subst; apply wrap_range; lia|].
  pose proof (flags_divide i al bl r Hi H3 H4) as Hd.
  pose proof (flags_exclusive (Z.testbit al (Z.of_nat i)) (Z.testbit bl (Z.of_nat i)) r) as Hx.
  destruct (step_flags _ _ r) as [[ab ba] h]. rewrite H. clear H. destruct Hd as [Hd1 Hd2], Hx as [Hx1 Hx2].
  assert (2 ^ Z.of_nat (S i) = 2 * 2 ^ Z.of_nat i) as E by (rewrite Nat2Z.inj_succ, Z.pow_succ_r by lia; reflexivity).
  assert (forall z, z ≡[2 ^ Z.of_nat (S i)] 0 -> u32 z mod 2 ^ Z.of_nat (S i) = 0) as Hlow.
  { intros z Hz. rewrite <- (Z.mod_0_l (2 ^ Z.of_nat (S i))) by (apply Z.pow_nonzero; lia).
    apply cong_mod_iff; [apply Z.pow_pos_nonneg; lia|]. rewrite <- Hz. rewrite wrap_mod by lia.
    assert (2 ^ 32 = 2 ^ Z.of_nat (S i) * 2 ^ (32 - Z.of_nat (S i))) as Epow by (rewrite <- Z.pow_add_r by lia; f_equal; lia).
    rewrite Z.mod_eq by lia. rewrite Epow at 1. apply (cong_intro _ _ _ (- (2 ^ (32 - Z.of_nat (S i)) * (z / 2 ^ 32)))). ring. }
  constructor; cbn [a_lo b_lo pa pb qa qb]; try (now apply Hlow).
  - rewrite H1, H2, !wrap_mod by lia. apply (cong_mod_iff (2 ^ 32)); [lia|]. unfold factor_case; destruct ab, ba, h; cbn [fst snd];
      rewrite ?(cong_mod (2 ^ 32)) by lia; apply (cong_intro _ _ _ 0); ring.
  - rewrite H1, H2, !wrap_mod by lia. apply (cong_mod_iff (2 ^ 32)); [lia|]. unfold factor_case; destruct ab, ba, h; cbn [fst snd];
      rewrite ?(cong_mod (2 ^ 32)) by lia; apply (cong_intro _ _ _ 0); ring.
  - unfold factor_case. destruct ab, ba, h; cbn [fst snd]; try (destruct (Hx1 eq_refl); discriminate); try (discriminate (Hx2 eq_refl)); lia.
  - unfold factor_case. destruct ab, ba, h; cbn [fst snd]; try (destruct (Hx1 eq_refl); discriminate); try (discriminate (Hx2 eq_refl)); lia.
Qed.

Lemma factors_spec wa wb ah bh :
  in_width 32 wa -> in_width 32 wb -> factors_ok wa wb 31 (for_up 0 31 factor_step (mk_factors ah bh wa wb 1 0 0 1)).
Proof.
  intros Ha Hb. apply (for_up_inv factor_step (fun i s => factors_ok wa wb i s)); [lia | |].
  - constructor; cbn [a_lo b_lo pa pb qa qb]; [rewrite Z.mul_1_r, Z.mul_0_r, Z.add_0_r; symmetry; now apply wrap_small
      | rewrite Z.mul_1_r, Z.mul_0_r, Z.add_0_l; symmetry; now apply wrap_small | apply Z.mod_1_r | apply Z.mod_1_r | cbn; lia | cbn; lia].
  - intros i s Hi. apply factor_step_ok. lia.
Qed.

(** * Combinations divided by 2^31

    The common shape of [zint_co_reduce] and [zint_co_reduce_mod]: word [u] of both arrays is read, the low
    bits of the accumulators go to word [u - 1], the rest is carried. *)

Section Shift.
Context (ea eb : nat -> Z) (ok : Z -> Prop) (n : nat) (a b : list Z).
Context (body : nat -> Z * Z * list Z * list Z -> Z * Z * list Z * list Z).

Definition shift_body (u : nat) (st : Z * Z * list Z * list Z) : Z * Z * list Z * list Z :=
  let '(ca, cb, a, b) := st in
  ((ea u + ca) / 2 ^ 31, (eb u + cb) / 2 ^ 31,
   if (0 <? u)%nat then <[(u - 1)%nat := (ea u + ca) mod 2 ^ 31]> a else a,
   if (0 <? u)%nat then <[(u - 1)%nat := (eb u + cb) mod 2 ^ 31]> b else b).

(** One of the two results: [n - 1] words, the carry on top of them. *)
Definition shifted (e : nat -> Z) (n : nat) (a0 a : list Z) (c : Z) : Prop :=
  ok c /\ length a = length a0 /\ (forall k, (n <= k < length a0)%nat -> a !!! k = a0 !!! k) /\
  (forall k, (S k < n)%nat -> 0 <= a !!! k < 2 ^ 31) /\
  2 ^ 31 * (wsum (n - 1) (fun k => a !!! k) + 2 ^ (31 * Z.of_nat (n - 1)) * c) + e 0%nat mod 2 ^ 31 = wsum n e.

Lemma shifted_step e u a0 r c :
  (u < length a0)%nat -> (forall k, (u <= k < length a0)%nat -> r !!! k = a0 !!! k) ->
  (u = 0%nat /\ c = 0 /\ length r = length a0 \/ shifted e u a0 r c) -> ok ((e u + c) / 2 ^ 31) ->
  shifted e (S u) a0 (if (0 <? u)%nat then <[(u - 1)%nat := (e u + c) mod 2 ^ 31]> r else r) ((e u + c) / 2 ^ 31).
Proof using Type.
  intros Hu Hsame Hc Hok. pose proof (Z.div_mod (e u + c) (2 ^ 31) ltac:(lia)) as Hdm.
  pose proof (Z.mod_pos_bound (e u + c) (2 ^ 31) ltac:(lia)) as Hlo.
  destruct Hc as [(-> & -> & Hl)|(_ & Hl & Hk & Hw & Hv)].
  - cbn [Nat.ltb Nat.leb]. split_and!; [done | done | intros; apply Hsame; lia | lia |]. cbn [wsum Nat.sub].
    change (2 ^ (31 * Z.of_nat 0)) with 1. rewrite Z.add_0_r in *. lia.
  - destruct u as [|u].
    + cbn [wsum Nat.sub] in Hv. change (2 ^ (31 * Z.of_nat 0)) with 1 in Hv. pose proof (Z.mod_pos_bound (e 0%nat) (2 ^ 31) ltac:(lia)).
      assert (c = 0) as -> by lia. cbn [Nat.ltb Nat.leb]. split_and!; [done | done | intros; apply Hsame; lia | lia |]. cbn [wsum Nat.sub].
      change (2 ^ (31 * Z.of_nat 0)) with 1. rewrite Z.add_0_r in *. lia.
    + cbn [Nat.ltb Nat.leb]. replace (S u - 1)%nat with u in * by lia. set (lo := (e (S u) + c) mod 2 ^ 31) in *.
      split_and!; [done | now rewrite length_insert | | |].
      * intros k Hkr. rewrite list_lookup_total_insert_ne by lia. apply Hk. lia.
      * intros k Hkr. destruct (decide (k = u)) as [->|Hne]; [now rewrite list_lookup_total_insert_eq by lia|].
        rewrite list_lookup_total_insert_ne by lia. apply Hw. lia.
      * replace (S (S u) - 1)%nat with (S u) by lia.
        change (wsum (S (S u)) e) with (wsum (S u) e + 2 ^ (31 * Z.of_nat (S u)) * e (S u)). rewrite <- Hv. cbn [wsum].
        rewrite list_lookup_total_insert_eq by lia.
        rewrite (wsum_ext u _ (fun k => r !!! k)) by (intros k Hkr; rewrite list_lookup_total_insert_ne by lia; done).
        rewrite pow31_S. nia.
Qed.

Lemma shift_loop :
  (0 < n)%nat -> (n <= length a)%nat -> (n <= length b)%nat -> ok 0 ->
  (forall u c, (u < n)%nat -> ok c -> ok ((ea u + c) / 2 ^ 31) /\ ok ((eb u + c) / 2 ^ 31)) ->
  (forall u ca cb a' b', (u < n)%nat -> a' !!! u = a !!! u -> b' !!! u = b !!! u -> ok ca -> ok cb ->
     body u (ca, cb, a', b') = shift_body u (ca, cb, a', b')) ->
  let '(ca, cb, a', b') := for_up 0 n body (0, 0, a, b) in shifted ea n a a' ca /\ shifted eb n b b' cb.
Proof using Type.
  intros H0 Hna Hnb Hok0 Hok Hbody.
  enough ((fun u '(ca, cb, a', b') =>
    (u = 0%nat /\ ca = 0 /\ length a' = length a \/ shifted ea u a a' ca) /\ (forall k, (u <= k < length a)%nat -> a' !!! k = a !!! k) /\ ok ca /\
    (u = 0%nat /\ cb = 0 /\ length b' = length b \/ shifted eb u b b' cb) /\ (forall k, (u <= k < length b)%nat -> b' !!! k = b !!! k) /\ ok cb)
    n (for_up 0 n body (0, 0, a, b))) as H.
  { destruct (for_up 0 n body (0, 0, a, b)) as [[[ca cb] a'] b']. cbn beta iota in H. destruct H as (Ha & _ & _ & Hb & _ & _).
    split; [destruct Ha as [[? _]|Ha]; [lia | exact Ha] | destruct Hb as [[? _]|Hb]; [lia | exact Hb]]. }
  apply (for_up_inv body (fun u '(ca, cb, a', b') =>
    (u = 0%nat /\ ca = 0 /\ length a' = length a \/ shifted ea u a a' ca) /\ (forall k, (u <= k < length a)%nat -> a' !!! k = a !!! k) /\ ok ca /\
    (u = 0%nat /\ cb = 0 /\ length b' = length b \/ shifted eb u b b' cb) /\ (forall k, (u <= k < length b)%nat -> b' !!! k = b !!! k) /\ ok cb)); [lia | |].
  - split_and!; (left; done) || done.
  - intros u [[[ca cb] a'] b'] Hu (Ha & Hak & Hca & Hb & Hbk & Hcb).
    rewrite Hbody by (try apply Hak; try apply Hbk; assumption || lia). unfold shift_body.
    pose proof (shifted_step ea u a a' ca ltac:(lia) Hak Ha (proj1 (Hok u ca ltac:(lia) Hca))) as Sa.
    pose proof (shifted_step eb u b b' cb ltac:(lia) Hbk Hb (proj2 (Hok u cb ltac:(lia) Hcb))) as Sb.
    split_and!; [right; exact Sa | apply Sa | apply Sa | right; exact Sb | apply Sb | apply Sb].
Qed.
End Shift.

(** A 64-bit accumulator holding a signed value. *)
Lemma acc_value z t : z = u64 t -> - 2 ^ 63 <= t < 2 ^ 63 -> i64 z = t /\ u32 z .& 0x7FFFFFFF = t mod 2 ^ 31.
Proof.
  intros -> Ht. split.
  - assert (sext 64 (wrap 64 t) = sext 64 t) as -> by (unfold sext; now rewrite wrap_idem by lia). apply sext_small; lia.
  - rewrite low31, !wrap_mod by lia. change (2 ^ 64) with (2 ^ 31 * 2 ^ 33). change (2 ^ 32) with (2 ^ 31 * 2).
    rewrite !Z.rem_mul_r by lia. rewrite !(Z.mul_comm (2 ^ 31)). rewrite !Z_mod_plus_full. now rewrite !Z.mod_mod by lia.
Qed.

Ltac same_u64 := rewrite !wrap_mod by lia; apply (cong_mod_iff (2 ^ 64)); [lia|]; rewrite !(cong_mod (2 ^ 64)) by lia;
  apply (cong_intro _ _ _ 0); ring.

Lemma mac_u64 wa wb xa xb cc :
  u64 (u64 (u64 (wa * u64 xa) + u64 (wb * u64 xb)) + u64 cc) = u64 (wa * xa + wb * xb + cc).
Proof. same_u64. Qed.

Lemma mac_mod_u64 wa wb xa xb mf cc :
  u64 (u64 (u64 (u64 (wa * u64 xa) + u64 (wb * u64 xb)) + u64 mf) + u64 cc) = u64 (wa * xa + wb * xb + mf + cc).
Proof. same_u64. Qed.

Lemma mac_bound wa wb xa xb :
  0 <= wa < 2 ^ 31 -> 0 <= wb < 2 ^ 31 -> Z.abs xa + Z.abs xb <= 2 ^ 31 -> Z.abs (wa * xa + wb * xb) <= (2 ^ 31 - 1) * 2 ^ 31.
Proof.
  intros Ha Hb Hx. assert (Z.abs (wa * xa + wb * xb) <= Z.abs (wa * xa) + Z.abs (wb * xb)) by lia.
  rewrite !Z.abs_mul, (Z.abs_eq wa), (Z.abs_eq wb) in * by lia. nia.
Qed.

Definition carry_range (c : Z) : Prop := - 2 ^ 31 <= c <= 2 ^ 31.

(** The words before the negation. *)
Lemma co_reduce_loop a b len xa xb ya yb :
  (0 < len)%nat -> zwords a -> zwords b -> length a = len -> length b = len ->
  Z.abs xa + Z.abs xb <= 2 ^ 31 -> Z.abs ya + Z.abs yb <= 2 ^ 31 ->
  let '(cca, ccb, a', b') := for_up 0 len (fun u '(cca, ccb, a, b) =>
    let wa := a !!! u in
    let wb := b !!! u in
    let za := u64 (u64 (u64 (wa * u64 xa) + u64 (wb * u64 xb)) + u64 cca) in
    let zb := u64 (u64 (u64 (wa * u64 ya) + u64 (wb * u64 yb)) + u64 ccb) in
    let '(a, b) := if (0 <? u)%nat
                   then (<[(u - 1)%nat := u32 za .& 0x7FFFFFFF]> a, <[(u - 1)%nat := u32 zb .& 0x7FFFFFFF]> b)
                   else (a, b) in
    (i64 za .>> 31, i64 zb .>> 31, a, b)) (0, 0, a, b) in
  shifted carry_range (fun u => a !!! u * xa + b !!! u * xb) len a a' cca /\
  shifted carry_range (fun u => a !!! u * ya + b !!! u * yb) len b b' ccb.
Proof.
  intros H0 Ha Hb Hla Hlb Hx Hy.
  assert (forall u, (u < len)%nat -> Z.abs (a !!! u * xa + b !!! u * xb) <= (2 ^ 31 - 1) * 2 ^ 31 /\
    Z.abs (a !!! u * ya + b !!! u * yb) <= (2 ^ 31 - 1) * 2 ^ 31) as Hmac.
  { intros u Hu. split; (apply mac_bound; [apply zwords_word; [assumption | lia].. | assumption]). }
  apply (shift_loop (fun u => a !!! u * xa + b !!! u * xb) (fun u => a !!! u * ya + b !!! u * yb) carry_range);
    [done | lia | lia | unfold carry_range; lia | |].
  - intros u c Hu Hc. destruct (Hmac u Hu) as [H1 H2]. unfold carry_range in *.
    split; (split; [apply Z.div_le_lower_bound; lia | apply Z.div_le_upper_bound; lia]).
  - intros u ca cb a' b' Hu Ea Eb Hca Hcb. destruct (Hmac u Hu) as [H1 H2]. unfold carry_range in *. cbv zeta. rewrite !mac_u64, Ea, Eb.
    destruct (acc_value _ (a !!! u * xa + b !!! u * xb + ca) eq_refl) as [E1 E2]; [lia|].
    destruct (acc_value _ (a !!! u * ya + b !!! u * yb + cb) eq_refl) as [E3 E4]; [lia|].
    rewrite E1, E2, E3, E4, !shr31. unfold shift_body. now destruct (0 <? u)%nat.
Qed.

(** * [zint_co_reduce] *)

(** A result with a carry on top, as an integer. *)
Definition top_value (n : nat) (a : list Z) (c : Z) : Z := wsum n (fun k => a !!! k) + 2 ^ (31 * Z.of_nat n) * c.

Lemma shifted_words ok e n a0 a c :
  length a0 = S n -> shifted ok e (S n) a0 a c ->
  zwords (take n a) /\ length a = S n /\ zval (take n a) = wsum n (fun k => a !!! k).
Proof.
  intros Hl (_ & H2 & _ & H4 & _). split; [|split; [lia | apply zval_take; lia]].
  apply Forall_lookup_total. intros k Hk. rewrite length_take in Hk. rewrite lookup_total_take_lt by lia. apply H4. lia.
Qed.

(** When the low bits of the combination are zero nothing is lost. *)
Lemma shifted_exact ok e n a0 a c :
  shifted ok e (S n) a0 a c -> e 0%nat mod 2 ^ 31 = 0 -> 2 ^ 31 * top_value n a c = wsum (S n) e.
Proof.
  intros (_ & _ & _ & _ & H5) H0. rewrite H0, Z.add_0_r in H5. replace (S n - 1)%nat with n in H5 by lia. exact H5.
Qed.

Lemma wsum_range n a : zwords (take n a) -> (n <= length a)%nat -> 0 <= wsum n (fun k => a !!! k) < 2 ^ (31 * Z.of_nat n).
Proof. intros Ha Hl. rewrite <- zval_take by done. pose proof (zval_range _ Ha) as H. now rewrite length_take, Nat.min_l in H. Qed.

Lemma top_sign n a c :
  zwords (take n a) -> (n <= length a)%nat -> (top_value n a c <? 0) = (c <? 0).
Proof.
  intros Ha Hl. pose proof (wsum_range n a Ha Hl). pose proof (pow31_pos n). unfold top_value.
  destruct (Z.ltb_spec c 0); [apply Z.ltb_lt; nia | apply Z.ltb_ge; nia].
Qed.

Lemma sign_flag c : - 2 ^ 63 <= c < 2 ^ 63 -> u32 (u64 c .>> 63) = bit (c <? 0).
Proof.
  intros Hc. rewrite Z.shiftr_div_pow2 by lia. destruct (Z.ltb_spec c 0); cbn [bit].
  - assert (u64 c = c + 2 ^ 64) as -> by word_lia. assert ((c + 2 ^ 64) / 2 ^ 63 = 1) as ->; [|reflexivity].
    symmetry. apply (Z.div_unique _ _ _ (c + 2 ^ 63)); lia.
  - rewrite (wrap_small 64 c), Z.div_small by (unfold in_width; lia). reflexivity.
Qed.

(** Negating a result whose sign is that of its carry. *)
Lemma negate_result n a c V :
  zwords (take n a) -> length a = S n -> - 2 ^ 63 <= c < 2 ^ 63 -> top_value n a c = V -> Z.abs V < 2 ^ (31 * Z.of_nat (S n)) ->
  let r := zint_negate (<[n := u32 c]> a) (S n) (u32 (u64 c .>> 63)) in
  length r = S n /\ zwords r /\ zval r = Z.abs V.
Proof.
  intros Ha Hl Hc HV HB. cbv zeta. rewrite sign_flag by done.
  assert (take n (<[n := u32 c]> a) = take n a) as Et by now apply take_insert_ge.
  assert (<[n := u32 c]> a !!! n = u32 c) as El by (apply list_lookup_total_insert_eq; lia).
  destruct (zint_negate_spec (<[n := u32 c]> a) n (c <? 0)) as (H1 & H2 & H3);
    [now rewrite Et | now rewrite length_insert | rewrite El; apply wrap_range; lia |].
  split; [exact H1|]. split; [exact H2|]. rewrite H3, Et, El, zval_take by lia.
  pose proof (top_sign n a c Ha ltac:(lia)) as Hs. rewrite HV in Hs. set (w := wsum n (fun k => a !!! k)) in *.
  assert (exists k, u32 c = c + 2 ^ 31 * k) as [k ->].
  { rewrite wrap_mod, Z.mod_eq by lia. exists (- (2 * (c / 2 ^ 32))). lia. }
  unfold top_value in HV. fold w in HV. rewrite pow31_S in *. set (B := 2 ^ (31 * Z.of_nat n)) in *.
  destruct (c <? 0).
  - apply Z.ltb_lt in Hs. rewrite Z.abs_neq in * by lia. symmetry. apply (Z.mod_unique _ _ (- k)); [lia|]. rewrite <- HV. ring.
  - apply Z.ltb_ge in Hs. rewrite Z.abs_eq in * by lia. symmetry. apply (Z.mod_unique _ _ k); [lia|]. rewrite <- HV. ring.
Qed.

Lemma combination_bound A B xa xb M :
  0 <= A < M -> 0 <= B < M -> Z.abs xa + Z.abs xb <= 2 ^ 31 -> Z.abs (A * xa + B * xb) < 2 ^ 31 * M.
Proof.
  intros HA HB Hx. assert (Z.abs (A * xa + B * xb) <= Z.abs (A * xa) + Z.abs (B * xb)) by lia.
  rewrite !Z.abs_mul, (Z.abs_eq A), (Z.abs_eq B) in * by lia.
  assert (A * Z.abs xa <= (M - 1) * Z.abs xa) by nia. assert (B * Z.abs xb <= (M - 1) * Z.abs xb) by nia. nia.
Qed.

(** Both combinations, divided by 2^31 and made nonnegative; the flags say which changed sign. *)
Lemma zint_co_reduce_spec a b n xa xb ya yb :
  zwords a -> zwords b -> length a = S n -> length b = S n ->
  Z.abs xa + Z.abs xb <= 2 ^ 31 -> Z.abs ya + Z.abs yb <= 2 ^ 31 ->
  (a !!! 0%nat * xa + b !!! 0%nat * xb) mod 2 ^ 31 = 0 -> (a !!! 0%nat * ya + b !!! 0%nat * yb) mod 2 ^ 31 = 0 ->
  let '(r, a', b') := zint_co_reduce a b (S n) xa xb ya yb in
  exists sa sb, r = bit sa + 2 * bit sb /\ zwords a' /\ zwords b' /\ length a' = S n /\ length b' = S n /\
    2 ^ 31 * zval a' = (if sa then -1 else 1) * (zval a * xa + zval b * xb) /\
    2 ^ 31 * zval b' = (if sb then -1 else 1) * (zval a * ya + zval b * yb).
Proof.
  intros Ha Hb Hla Hlb Hx Hy H0x H0y. unfold zint_co_reduce.
  pose proof (co_reduce_loop a b (S n) xa xb ya yb ltac:(lia) Ha Hb Hla Hlb Hx Hy) as H. cbv zeta in H. cbv zeta.
  destruct (for_up (St := Z * Z * list Z * list Z) 0 (S n) _ _) as [[[cca ccb] a'] b']. destruct H as [Sa Sb].
  pose proof (shifted_words _ _ n a a' cca Hla Sa) as (Wa & La & _). pose proof (shifted_words _ _ n b b' ccb Hlb Sb) as (Wb & Lb & _).
  pose proof (shifted_exact _ _ _ _ _ _ Sa H0x) as Ea. pose proof (shifted_exact _ _ _ _ _ _ Sb H0y) as Eb.
  rewrite (wsum_ext _ _ (fun u => xa * a !!! u + xb * b !!! u)) in Ea by (intros; ring).
  rewrite (wsum_ext _ _ (fun u => ya * a !!! u + yb * b !!! u)) in Eb by (intros; ring).
  rewrite wsum_lin, <- !zval_take, !take_ge in Ea, Eb by lia. pose proof (zval_range a Ha) as Ra. pose proof (zval_range b Hb) as Rb.
  rewrite Hla in Ra. rewrite Hlb in Rb.
  pose proof (combination_bound _ _ _ _ _ Ra Rb Hx) as Bx. pose proof (combination_bound _ _ _ _ _ Ra Rb Hy) as By.
  destruct Sa as [Ra' _], Sb as [Rb' _]. unfold carry_range in Ra', Rb'. replace (S n - 1)%nat with n by lia.
  destruct (negate_result n a' cca _ Wa La ltac:(lia) eq_refl) as (A1 & A2 & A3); [lia|].
  destruct (negate_result n b' ccb _ Wb Lb ltac:(lia) eq_refl) as (B1 & B2 & B3); [lia|].
  exists (cca <? 0), (ccb <? 0). split; [rewrite !sign_flag by lia; now destruct (cca <? 0), (ccb <? 0)|].
  split; [exact A2|]. split; [exact B2|]. split; [exact A1|]. split; [exact B1|]. rewrite A3, B3.
  pose proof (top_sign n a' cca Wa ltac:(lia)) as <-. pose proof (top_sign n b' ccb Wb ltac:(lia)) as <-.
  destruct (Z.ltb_spec (top_value n a' cca) 0), (Z.ltb_spec (top_value n b' ccb) 0); lia.
Qed.

(** * [zint_finish_mod] *)

(** Subtraction of the words [w] with a borrow in; the top word may have 32 bits, and only its low bits
    are kept. *)
Definition sub_body (w : nat -> Z) (u : nat) (st : Z * list Z) : Z * list Z :=
  let '(cc, a) := st in
  let aw := u32 (u32 (a !!! u - w u) - cc) in
  (aw .>> 31, <[u := aw .& 0x7FFFFFFF]> a).

Lemma sub_words w a n c0 :
  zwords (take n a) -> (n <= length a)%nat -> (forall u, (u < n)%nat -> 0 <= w u < 2 ^ 31) -> is_bit c0 ->
  carried (fun c => - c) is_bit (fun u => 1 * a !!! u + (-1) * w u) n a c0 (for_up 0 n (sub_body w) (c0, a)).
Proof.
  intros Ha Hl Hw Hc. apply carry_loop; [exact Hl | exact Hc |]. intros u cc r Hu Hr Hcc.
  pose proof (zwords_take_word a n u Ha ltac:(lia) ltac:(lia)) as Hx. unfold sub_body. rewrite Hr.
  destruct (borrow_word _ _ cc Hx (Hw u Hu) Hcc) as (Hlo & He & Hb). do 2 eexists. split; [reflexivity|]. split; [exact Hlo|].
  split; [lia | exact Hb].
Qed.

Lemma sub_words_top w a n c0 :
  zwords (take n a) -> length a = S n -> (forall u, (u <= n)%nat -> 0 <= w u < 2 ^ 31) -> is_bit c0 ->
  let r := snd (for_up 0 (S n) (sub_body w) (c0, a)) in
  length r = S n /\ zwords r /\
  zval r = (wsum (S n) (fun u => a !!! u) - wsum (S n) w - c0) mod 2 ^ (31 * Z.of_nat (S n)).
Proof.
  intros Ha Hl Hw Hc. cbv zeta. rewrite for_up_snoc by lia.
  pose proof (sub_words w a n c0 Ha ltac:(lia) ltac:(intros; apply Hw; lia) Hc) as H.
  destruct (for_up 0 n (sub_body w) (c0, a)) as [cc r]. destruct H as (_ & H2 & H3 & H4 & H5). cbn [fst snd] in *.
  assert (r !!! n = a !!! n) as Et.
  { pose proof (f_equal (fun l => l !!! 0%nat) H3) as E. cbv beta in E. now rewrite !lookup_total_drop, !Nat.add_0_r in E. }
  unfold sub_body. cbn [snd]. rewrite Et, low31. set (z := u32 _).
  assert (<[n := z mod 2 ^ 31]> r = take n r ++ [z mod 2 ^ 31]) as ->.
  { rewrite <- (take_drop n r) at 1. rewrite (drop_S r (r !!! n) n), drop_ge by (lia || (apply list_lookup_lookup_total_lt; lia)).
    rewrite insert_app_r_alt by (rewrite length_take; lia). rewrite length_take, Nat.min_l, Nat.sub_diag by lia. reflexivity. }
  pose proof (Z.mod_pos_bound z (2 ^ 31) ltac:(lia)) as Hz.
  assert (zwords (take n r ++ [z mod 2 ^ 31])) as Hwd by (apply Forall_app_2; [exact H4 | constructor; [exact Hz | constructor]]).
  pose proof (zval_range _ Hwd) as Hr. rewrite length_app, length_take, Nat.min_l, Nat.add_1_r in * by lia.
  split; [reflexivity|]. split; [exact Hwd|]. apply cong_canonical; [exact Hr|]. rewrite zval_snoc, length_take, Nat.min_l by lia.
  rewrite wsum_lin in H5. cbn [wsum]. set (Wa := wsum n (fun u => a !!! u)) in *. set (Ww := wsum n w) in *.
  assert (exists k, z mod 2 ^ 31 = a !!! n - w n - cc + 2 ^ 31 * k) as [k ->].
  { unfold z. rewrite !wrap_mod by lia. set (q1 := (a !!! n - w n) / 2 ^ 32).
    rewrite (Z.mod_eq (a !!! n - w n)) by lia. fold q1. set (t := a !!! n - w n - 2 ^ 32 * q1 - cc).
    rewrite (Z.mod_eq t (2 ^ 32)) by lia. set (q2 := t / 2 ^ 32). rewrite Z.mod_eq by lia. set (q3 := (_ - _) / 2 ^ 31).
    exists (- (2 * q1) - 2 * q2 - q3). subst t. ring. }
  rewrite pow31_S. set (B := 2 ^ (31 * Z.of_nat n)) in *. apply (cong_intro _ _ _ k). nia.
Qed.

(** One bit of borrow: the top bit of a 32-bit difference. *)
Lemma borrow_top t : - 2 ^ 31 <= t < 2 ^ 31 -> u32 t .>> 31 = bit (t <? 0).
Proof.
  intros Ht. destruct (Z.ltb_spec t 0); rewrite shr31; cbn [bit].
  - assert (u32 t = t + 2 ^ 32) as -> by word_lia. symmetry. apply (Z.div_unique _ _ _ (t + 2 ^ 31)); lia.
  - rewrite wrap_small by (unfold in_width; lia). apply Z.div_small. lia.
Qed.

(** The first pass compares the value with the modulus, provided it is below twice the modulus. *)
Lemma finish_compare a m n c :
  zwords (take n a) -> length a = S n -> a !!! n = u32 c -> zwords (take (S n) m) -> (S n <= length m)%nat ->
  0 <= top_value n a c < 2 * zval (take (S n) m) ->
  for_up 0 (S n) (fun u cc => u32 (u32 (a !!! u - m !!! u) - cc) .>> 31) 0 = bit (top_value n a c <? zval (take (S n) m)).
Proof.
  intros Ha Hl Ht Hm Hlm HV. rewrite for_up_snoc by lia. set (body := fun (u : nat) (cc : Z) => _).
  assert (forall u, (u <= n)%nat -> 0 <= m !!! u < 2 ^ 31) as Hmw by (intros u Hu; apply (zwords_take_word m (S n)); [done | lia | lia]).
  assert (is_bit (for_up 0 n body 0) /\ exists X, 0 <= X < 2 ^ (31 * Z.of_nat n) /\
    wsum n (fun u => a !!! u) - wsum n (fun u => m !!! u) = X - 2 ^ (31 * Z.of_nat n) * for_up 0 n body 0) as [Hb (X & HX & HE)].
  { apply (for_up_inv body (fun i cc => is_bit cc /\ exists X, 0 <= X < 2 ^ (31 * Z.of_nat i) /\
      wsum i (fun u => a !!! u) - wsum i (fun u => m !!! u) = X - 2 ^ (31 * Z.of_nat i) * cc)); [lia | |].
    - split; [now left|]. exists 0. cbn [wsum]. change (2 ^ (31 * Z.of_nat 0)) with 1. lia.
    - intros u cc Hu (Hc & X & HX & HE). pose proof (zwords_take_word a n u Ha ltac:(lia) ltac:(lia)) as Hx.
      destruct (borrow_word _ _ cc Hx (Hmw u ltac:(lia)) Hc) as (Hlo & He & Hbit). split; [exact Hbit|].
      unfold body. set (lo := _ .& 0x7FFFFFFF) in *. set (k := _ .>> 31) in *. exists (X + 2 ^ (31 * Z.of_nat u) * lo).
      cbn [wsum]. rewrite pow31_S. nia. }
  set (cc := for_up 0 n body 0) in *. unfold body. rewrite Ht. rewrite zval_take in * by lia. cbn [wsum] in HV |- *.
  unfold top_value in *. set (Wa := wsum n (fun u => a !!! u)) in *. set (Wm := wsum n (fun u => m !!! u)) in *.
  pose proof (wsum_range n a Ha ltac:(lia)) as Ra. fold Wa in Ra. pose proof (Hmw n (le_n n)) as Hmn.
  assert (0 <= Wm < 2 ^ (31 * Z.of_nat n)) as Rm.
  { apply (wsum_range n m); [|lia]. apply Forall_lookup_total. intros u Hu. rewrite length_take in Hu. rewrite lookup_total_take_lt by lia. apply Hmw. lia. }
  pose proof (pow31_pos n) as HB. set (B := 2 ^ (31 * Z.of_nat n)) in *. set (mn := m !!! n) in *.
  assert (u32 (u32 (u32 c - mn) - cc) = u32 (c - mn - cc)) as -> by (rewrite !wrap_mod by lia; apply (cong_mod_iff (2 ^ 32)); [lia|];
    rewrite !(cong_mod (2 ^ 32)) by lia; reflexivity).
  assert (- 2 ^ 31 <= c - mn - cc < 2 ^ 31) as Ht'.
  { assert (- (mn + 1) * B <= (c - mn - cc) * B + X < (mn + 1) * B) as [H1 H2] by lia. split; [|]; destruct Hb; nia. }
  rewrite borrow_top by done. f_equal. apply eq_true_iff_eq.
  rewrite !Z.ltb_lt. split; intros; nia.
Qed.

(** One conditional addition or subtraction of the modulus brings the value in range. *)
Lemma zint_finish_mod_spec a m n c (s : bool) :
  zwords (take n a) -> length a = S n -> a !!! n = u32 c -> zwords (take (S n) m) -> (S n <= length m)%nat ->
  (if s then - zval (take (S n) m) <= top_value n a c < 0 else 0 <= top_value n a c < 2 * zval (take (S n) m)) ->
  let r := zint_finish_mod a (S n) m (bit s) in
  length r = S n /\ zwords r /\ zval r = top_value n a c mod zval (take (S n) m).
Proof.
  intros Ha Hl Ht Hm Hlm HV. cbv zeta. unfold zint_finish_mod. cbv zeta. set (ym := u32 (- (bit s .| _))).
  set (M := zval (take (S n) m)) in *. set (V := top_value n a c) in *.
  pose (add := s). pose (sub := negb s && (M <=? V)).
  assert (forall u, (u <= n)%nat -> 0 <= m !!! u < 2 ^ 31) as Hmw by (intros u Hu; apply (zwords_take_word m (S n)); [done | lia | lia]).
  assert (ym = u32 (- bit (add || sub))) as Hym.
  { unfold ym, add, sub. destruct s; cbn [negb andb orb].
    - rewrite for_up_snoc by lia. set (y := u32 (u32 _ - _)). assert (in_width 32 y) as Hy by (apply wrap_range; lia).
      rewrite top_bit32 by done. destruct (2 ^ 31 <=? y); reflexivity.
    - rewrite (finish_compare a m n c) by assumption. fold V M. rewrite Z.ltb_antisym. destruct (M <=? V); reflexivity. }
  rewrite Hym. clear Hym ym.
  pose (w := fun u => if add then 2 ^ 31 - 1 - m !!! u else if sub then m !!! u else 0).
  assert (forall u, (u <= n)%nat -> 0 <= w u < 2 ^ 31) as Hw by (intros u Hu; specialize (Hmw u Hu); unfold w; destruct add, sub; lia).
  match goal with |- context [for_up 0 (S n) ?f (bit s, a)] =>
    assert (for_up 0 (S n) f (bit s, a) = for_up 0 (S n) (sub_body w) (bit s, a)) as -> end.
  { apply for_up_ext. intros u [cc r] Hu. unfold sub_body, w. cbv zeta. rewrite negate_word by (apply Hmw; lia).
    rewrite mask_bit by (specialize (Hmw u ltac:(lia)); unfold in_width; destruct s; lia).
    unfold add. destruct s, sub; reflexivity. }
  destruct (sub_words_top w a n (bit s)) as (H1 & H2 & H3); [assumption | assumption | assumption | destruct s; [now right | now left] |].
  cbv zeta in H1, H2, H3. split; [exact H1|]. split; [exact H2|]. rewrite H3. clear H1 H2 H3.
  assert (wsum (S n) w = if add then 2 ^ (31 * Z.of_nat (S n)) - 1 - M else if sub then M else 0) as ->.
  { unfold w, M. rewrite zval_take by lia. destruct add.
    - apply (wsum_negated (S n) (fun u => m !!! u) true).
    - destruct sub; [done|]. rewrite (wsum_ext _ _ (fun u => 0 * m !!! u)), wsum_scale by (intros; lia). lia. }
  pose proof (zval_range _ Hm) as RM. rewrite length_take, Nat.min_l in RM by lia. fold M in RM.
  assert (exists k, a !!! n = c + 2 ^ 31 * k) as [k Hk].
  { rewrite Ht, wrap_mod, Z.mod_eq by lia. exists (- (2 * (c / 2 ^ 32))). lia. }
  cbn [wsum]. rewrite Hk. unfold top_value in V. rewrite pow31_S in *. set (B := 2 ^ (31 * Z.of_nat n)) in *.
  set (Wa := wsum n (fun u => a !!! u)) in *. unfold add, sub in *. clear add sub w Hw. destruct s; cbn [negb andb bit].
  - symmetry. rewrite <- (Z.mod_unique V M (-1) (V + M)) by lia. apply (Z.mod_unique _ _ (k - 1)); [lia|]. unfold V. ring.
  - destruct (Z.leb_spec M V).
    + rewrite <- (Z.mod_unique V M 1 (V - M)) by lia. symmetry. apply (Z.mod_unique _ _ k); [lia|]. unfold V. ring.
    + rewrite (Z.mod_small V M) by lia. symmetry. apply (Z.mod_unique _ _ k); [lia|]. unfold V. ring.
Qed.

(** * [zint_co_reduce_mod] *)

(** The multiple of the modulus that clears the low bits. *)
Lemma clear_low a0 b0 xa xb m0 m0i :
  is_ninv m0 m0i ->
  let f := u32 (u32 (u32 (a0 * u32 xa) + u32 (b0 * u32 xb)) * m0i) .& 0x7FFFFFFF in
  0 <= f < 2 ^ 31 /\ (a0 * xa + b0 * xb + m0 * f) mod 2 ^ 31 = 0.
Proof.
  intros [Hw Hi]. cbv zeta. rewrite low31. split; [apply Z.mod_pos_bound; lia|].
  rewrite <- (Z.mod_0_l (2 ^ 31)) by lia. apply cong_mod_iff; [lia|]. rewrite cong_mod by lia.
  assert (forall z, u32 z ≡[2 ^ 31] z) as H32 by (intros z; apply cong_mod_iff; [lia | apply u32_mod31]).
  rewrite !H32. transitivity ((a0 * xa + b0 * xb) * (1 + m0 * m0i)); [apply (cong_intro _ _ _ 0); ring|].
  rewrite Hi. apply (cong_intro _ _ _ 0). ring.
Qed.

Definition carry_range_mod (c : Z) : Prop := - 2 ^ 31 <= c < 2 ^ 32.

Lemma co_reduce_mod_loop a b m len fa fb xa xb ya yb :
  (0 < len)%nat -> zwords a -> zwords b -> length a = len -> length b = len -> zwords (take len m) -> (len <= length m)%nat ->
  Z.abs xa + Z.abs xb <= 2 ^ 31 -> Z.abs ya + Z.abs yb <= 2 ^ 31 -> 0 <= fa < 2 ^ 31 -> 0 <= fb < 2 ^ 31 ->
  let '(cca, ccb, a', b') := for_up 0 len (fun u '(cca, ccb, a, b) =>
    let wa := a !!! u in
    let wb := b !!! u in
    let za := u64 (u64 (u64 (u64 (wa * u64 xa) + u64 (wb * u64 xb)) + u64 (m !!! u * fa)) + u64 cca) in
    let zb := u64 (u64 (u64 (u64 (wa * u64 ya) + u64 (wb * u64 yb)) + u64 (m !!! u * fb)) + u64 ccb) in
    let '(a, b) := if (0 <? u)%nat
                   then (<[(u - 1)%nat := u32 za .& 0x7FFFFFFF]> a, <[(u - 1)%nat := u32 zb .& 0x7FFFFFFF]> b)
                   else (a, b) in
    (i64 za .>> 31, i64 zb .>> 31, a, b)) (0, 0, a, b) in
  shifted carry_range_mod (fun u => a !!! u * xa + b !!! u * xb + m !!! u * fa) len a a' cca /\
  shifted carry_range_mod (fun u => a !!! u * ya + b !!! u * yb + m !!! u * fb) len b b' ccb.
Proof.
  intros H0 Ha Hb Hla Hlb Hm Hlm Hx Hy Hfa Hfb.
  assert (forall u f xa xb, (u < len)%nat -> 0 <= f < 2 ^ 31 -> Z.abs xa + Z.abs xb <= 2 ^ 31 ->
    - ((2 ^ 31 - 1) * 2 ^ 31) <= a !!! u * xa + b !!! u * xb + m !!! u * f <= (2 ^ 31 - 1) * (2 ^ 32 - 1)) as Hmac.
  { intros u f xa' xb' Hu Hf Hx'.
    pose proof (mac_bound (a !!! u) (b !!! u) xa' xb' (zwords_word a u Ha ltac:(lia)) (zwords_word b u Hb ltac:(lia)) Hx') as Hab.
    pose proof (zwords_take_word m len u Hm Hu Hlm). assert (0 <= m !!! u * f <= (2 ^ 31 - 1) * (2 ^ 31 - 1)) by nia. lia. }
  apply (shift_loop (fun u => a !!! u * xa + b !!! u * xb + m !!! u * fa) (fun u => a !!! u * ya + b !!! u * yb + m !!! u * fb) carry_range_mod);
    [done | lia | lia | unfold carry_range_mod; lia | |].
  - intros u c Hu Hc. pose proof (Hmac u fa xa xb Hu Hfa Hx). pose proof (Hmac u fb ya yb Hu Hfb Hy). unfold carry_range_mod in *.
    split; (split; [apply Z.div_le_lower_bound; lia | apply Z.div_lt_upper_bound; lia]).
  - intros u ca cb a' b' Hu Ea Eb Hca Hcb. pose proof (Hmac u fa xa xb Hu Hfa Hx). pose proof (Hmac u fb ya yb Hu Hfb Hy).
    unfold carry_range_mod in *. cbv zeta. rewrite !mac_mod_u64, Ea, Eb.
    destruct (acc_value _ (a !!! u * xa + b !!! u * xb + m !!! u * fa + ca) eq_refl) as [E1 E2]; [lia|].
    destruct (acc_value _ (a !!! u * ya + b !!! u * yb + m !!! u * fb + cb) eq_refl) as [E3 E4]; [lia|].
    rewrite E1, E2, E3, E4, !shr31. unfold shift_body. now destruct (0 <? u)%nat.
Qed.

(** One of the two results: divided by 2^31 modulo the modulus. *)
Lemma finish_result a b m n f xa xb a0 a' c :
  zwords a -> zwords b -> length a = S n -> length b = S n -> zwords (take (S n) m) -> (S n <= length m)%nat -> length a0 = S n ->
  Z.abs xa + Z.abs xb <= 2 ^ 31 -> 0 <= f < 2 ^ 31 -> (a !!! 0%nat * xa + b !!! 0%nat * xb + m !!! 0%nat * f) mod 2 ^ 31 = 0 ->
  0 < zval (take (S n) m) -> zval a <= zval (take (S n) m) -> zval b <= zval (take (S n) m) ->
  shifted carry_range_mod (fun u => a !!! u * xa + b !!! u * xb + m !!! u * f) (S n) a0 a' c ->
  let r := zint_finish_mod (<[n := u32 c]> a') (S n) m (u32 (u64 c .>> 63)) in
  length r = S n /\ zwords r /\ 0 <= zval r < zval (take (S n) m) /\ 2 ^ 31 * zval r ≡[zval (take (S n) m)] zval a * xa + zval b * xb.
Proof.
  intros Ha Hb Hla Hlb Hm Hlm Hl0 Hx Hf H0 HM HaM HbM HS. cbv zeta.
  pose proof (shifted_words _ _ n a0 a' c Hl0 HS) as (W & L & _). pose proof (shifted_exact _ _ _ _ _ _ HS H0) as E.
  rewrite (wsum_ext _ _ (fun u => 1 * (xa * a !!! u + xb * b !!! u) + f * m !!! u)) in E by (intros; ring).
  rewrite (wsum_lin _ _ _ (fun u => xa * a !!! u + xb * b !!! u)), wsum_lin, <- !zval_take, (take_ge a), (take_ge b), Z.mul_1_l in E by lia.
  pose proof (zval_range a Ha) as Ra. pose proof (zval_range b Hb) as Rb. set (M := zval (take (S n) m)) in *.
  pose proof (combination_bound (zval a) (zval b) xa xb (M + 1) ltac:(lia) ltac:(lia) Hx) as Bx.
  assert (Z.abs (zval a * xa + zval b * xb) <= 2 ^ 31 * M) as Bx'.
  { assert (Z.abs (zval a * xa + zval b * xb) <= Z.abs (zval a * xa) + Z.abs (zval b * xb)) by lia.
    rewrite !Z.abs_mul, (Z.abs_eq (zval a)), (Z.abs_eq (zval b)) in * by lia. nia. }
  destruct HS as [Rc _]. unfold carry_range_mod in Rc. rewrite sign_flag by lia.
  assert (top_value n (<[n := u32 c]> a') c = top_value n a' c) as Etv.
  { unfold top_value. f_equal. apply wsum_ext. intros u Hu. now rewrite list_lookup_total_insert_ne by lia. }
  pose proof (top_sign n a' c W ltac:(lia)) as Hs. set (V := top_value n a' c) in *.
  destruct (zint_finish_mod_spec (<[n := u32 c]> a') m n c (c <? 0)) as (H1 & H2 & H3).
  - rewrite take_insert_ge by lia. exact W.
  - now rewrite length_insert.
  - apply list_lookup_total_insert_eq. lia.
  - exact Hm.
  - exact Hlm.
  - rewrite Etv. fold V M. destruct (c <? 0); [apply Z.ltb_lt in Hs | apply Z.ltb_ge in Hs]; nia.
  - split; [exact H1|]. split; [exact H2|]. rewrite H3, Etv. fold V M. split; [apply Z.mod_pos_bound; lia|].
    rewrite (cong_mod M V) by lia. rewrite E. apply (cong_intro _ _ _ f). ring.
Qed.

Lemma zint_co_reduce_mod_spec a b m n m0i xa xb ya yb :
  zwords a -> zwords b -> length a = S n -> length b = S n -> zwords (take (S n) m) -> (S n <= length m)%nat ->
  is_ninv (m !!! 0%nat) m0i -> Z.abs xa + Z.abs xb <= 2 ^ 31 -> Z.abs ya + Z.abs yb <= 2 ^ 31 ->
  let M := zval (take (S n) m) in
  0 < M -> zval a <= M -> zval b <= M ->
  let '(a', b') := zint_co_reduce_mod a b m (S n) m0i xa xb ya yb in
  (length a' = S n /\ zwords a' /\ 0 <= zval a' < M /\ 2 ^ 31 * zval a' ≡[M] zval a * xa + zval b * xb) /\
  (length b' = S n /\ zwords b' /\ 0 <= zval b' < M /\ 2 ^ 31 * zval b' ≡[M] zval a * ya + zval b * yb).
Proof.
  intros Ha Hb Hla Hlb Hm Hlm Hi Hx Hy M HM HaM HbM. unfold zint_co_reduce_mod.
  destruct (clear_low (a !!! 0%nat) (b !!! 0%nat) xa xb _ _ Hi) as [Rfa Hfa].
  destruct (clear_low (a !!! 0%nat) (b !!! 0%nat) ya yb _ _ Hi) as [Rfb Hfb]. cbv zeta in Rfa, Hfa, Rfb, Hfb.
  cbv zeta. set (fa := _ .& 0x7FFFFFFF) in Rfa, Hfa |- *. set (fb := _ .& 0x7FFFFFFF) in Rfb, Hfb |- *. clearbody fa fb.
  pose proof (co_reduce_mod_loop a b m (S n) fa fb xa xb ya yb ltac:(lia) Ha Hb Hla Hlb Hm Hlm Hx Hy Rfa Rfb) as H. cbv zeta in H.
  destruct (for_up (St := Z * Z * list Z * list Z) 0 (S n) _ _) as [[[cca ccb] a'] b']. destruct H as [Sa Sb].
  replace (S n - 1)%nat with n by lia. split; [exact (finish_result a b m n fa xa xb a a' cca Ha Hb Hla Hlb Hm Hlm Hla Hx Rfa Hfa HM HaM HbM Sa)
    | exact (finish_result a b m n fb ya yb b b' ccb Ha Hb Hla Hlb Hm Hlm Hlb Hy Rfb Hfb HM HaM HbM Sb)].
Qed.

(** * The loop *)

Lemma zval_parity l : (0 < length l)%nat -> Z.odd (zval l) = Z.odd (l !!! 0%nat).
Proof.
  destruct l as [|w l]; [cbn; lia|]. intros _. rewrite zval_cons, Z.odd_add, Z.odd_mul. now rewrite xorb_false_r.
Qed.

Lemma cofactor_step K M A B U0 U1 p q A' U' :
  Z.odd M = true -> K * U0 ≡[M] A -> K * U1 ≡[M] B -> 2 ^ 31 * U' ≡[M] U0 * p + U1 * q -> 2 ^ 31 * A' = A * p + B * q -> K * U' ≡[M] A'.
Proof.
  intros HM H0 H1 HU HA. apply (two31_cancel M (modp_ninv31 M) (modp_ninv31_spec M HM)).
  transitivity (K * (2 ^ 31 * U')); [apply (cong_intro _ _ _ 0); ring|]. rewrite HU.
  transitivity ((K * U0) * p + (K * U1) * q); [apply (cong_intro _ _ _ 0); ring|].
  rewrite H0, H1, <- HA. apply (cong_intro _ _ _ 0). ring.
Qed.

Lemma sign_restored (p : Z) (s : bool) : p - ((p + p) .& - bit s) = (if s then -1 else 1) * p.
Proof. rewrite land_mone. destruct s; lia. Qed.

Lemma flag_bits (sa sb : bool) : (bit sa + 2 * bit sb) .& 1 = bit sa /\ (bit sa + 2 * bit sb) .>> 1 = bit sb.
Proof. now destruct sa, sb. Qed.
Lemma zval_zeros n : zval (replicate n 0) = 0.
Proof. induction n as [|n IH]; [done|]. cbn [replicate]. rewrite zval_cons, IH. reflexivity. Qed.

Lemma zval_insert0 l w : (0 < length l)%nat -> zval (<[0%nat := w]> l) = zval l - l !!! 0%nat + w.
Proof. destruct l as [|h l]; [cbn; lia|]. intros _. change (<[0%nat := w]> (h :: l)) with (w :: l). rewrite !zval_cons. cbn. lia. Qed.

Section Gcd.
Context (x y : list Z) (n : nat).
Hypothesis (Hx : zwords (take (S n) x)) (Hy : zwords (take (S n) y)) (Hlx : (S n <= length x)%nat) (Hly : (S n <= length y)%nat).

Abbreviation X := (zval (take (S n) x)).
Abbreviation Y := (zval (take (S n) y)).

(** [a] is [x * u] modulo [y] and [- y * v] modulo [x]. *)
Record cofactors (a u v : list Z) : Prop := {
  co_la : length a = S n; co_lu : length u = S n; co_lv : length v = S n;
  co_wa : zwords a; co_wu : zwords u; co_wv : zwords v;
  co_u : X * zval u ≡[Y] zval a;
  co_v : Y * zval v ≡[X] - zval a;
  co_bu : zval u <= Y; co_bv : zval v <= X
}.

Definition gcd_ok (st : gcd_state) : Prop := cofactors (ga st) (gu0 st) (gv0 st) /\ cofactors (gb st) (gu1 st) (gv1 st).

Lemma X_range : 0 <= X < 2 ^ (31 * Z.of_nat (S n)).
Proof using All. pose proof (zval_range _ Hx) as H. now rewrite length_take, Nat.min_l in H by lia. Qed.

Lemma Y_range : 0 <= Y < 2 ^ (31 * Z.of_nat (S n)).
Proof using All. pose proof (zval_range _ Hy) as H. now rewrite length_take, Nat.min_l in H by lia. Qed.

Hypothesis (Hox : Z.odd (x !!! 0%nat) = true) (Hoy : Z.odd (y !!! 0%nat) = true).

Lemma X_odd : Z.odd X = true.
Proof using All. rewrite zval_parity by (rewrite length_take; lia). now rewrite lookup_total_take_lt by lia. Qed.

Lemma Y_odd : Z.odd Y = true.
Proof using All. rewrite zval_parity by (rewrite length_take; lia). now rewrite lookup_total_take_lt by lia. Qed.

Abbreviation step := (gcd_step x y (S n) (modp_ninv31 (x !!! 0%nat)) (modp_ninv31 (y !!! 0%nat))).

Lemma gcd_step_ok st : gcd_ok st -> gcd_ok (step st) /\ zval (gu0 (step st)) < Y /\ zval (gv0 (step st)) < X.
Proof using All.
  intros [Ca Cb]. destruct st as [a b u0 u1 v0 v1]. cbn [ga gb gu0 gu1 gv0 gv1] in Ca, Cb. unfold gcd_step.
  destruct (top_words a b (S n)) as [ah bh]. destruct Ca, Cb.
  pose proof (factors_spec (a !!! 0%nat) (b !!! 0%nat) ah bh) as Hf.
  destruct (for_up 0 31 factor_step _) as [ah' bh' al bl p1 p2 q1 q2].
  destruct Hf as [F1 F2 F3 F4 F5 F6]; cbn [a_lo b_lo pa pb qa qb] in *;
    [apply (in_width_le 31); [lia | apply zwords_word; [assumption | lia]].. |].
  change (2 ^ Z.of_nat 31) with (2 ^ 31) in *.
  pose proof (zint_co_reduce_spec a b n p1 p2 q1 q2) as Hr. destruct (zint_co_reduce a b (S n) p1 p2 q1 q2) as [[r a'] b'].
  destruct Hr as (sa & sb & -> & Wa & Wb & La & Lb & Ea & Eb); try assumption.
  { now rewrite <- F3, F1, u32_mod31. }
  { now rewrite <- F4, F2, u32_mod31. }
  destruct (flag_bits sa sb) as [-> ->]. rewrite !sign_restored. set (ca := if sa then -1 else 1) in *. set (cb := if sb then -1 else 1) in *.
  assert (Z.abs (ca * p1) + Z.abs (ca * p2) <= 2 ^ 31) as Hp by (unfold ca; destruct sa; lia).
  assert (Z.abs (cb * q1) + Z.abs (cb * q2) <= 2 ^ 31) as Hq by (unfold cb; destruct sb; lia).
  pose proof X_range as RX. pose proof Y_range as RY. pose proof X_odd as OX. pose proof Y_odd as OY.
  assert (0 < X) by (destruct (Z.eq_dec X 0) as [E|E]; [rewrite E in OX; discriminate | lia]).
  assert (0 < Y) by (destruct (Z.eq_dec Y 0) as [E|E]; [rewrite E in OY; discriminate | lia]).
  pose proof (zint_co_reduce_mod_spec u0 u1 y n (modp_ninv31 (y !!! 0%nat)) (ca * p1) (ca * p2) (cb * q1) (cb * q2)) as Hu.
  destruct (zint_co_reduce_mod u0 u1 y _ _ _ _ _ _) as [u0' u1'].
  destruct Hu as [(U1 & U2 & U3 & U4) (U5 & U6 & U7 & U8)]; try assumption; [now apply modp_ninv31_spec|].
  pose proof (zint_co_reduce_mod_spec v0 v1 x n (modp_ninv31 (x !!! 0%nat)) (ca * p1) (ca * p2) (cb * q1) (cb * q2)) as Hv.
  destruct (zint_co_reduce_mod v0 v1 x _ _ _ _ _ _) as [v0' v1'].
  destruct Hv as [(V1 & V2 & V3 & V4) (V5 & V6 & V7 & V8)]; try assumption; [now apply modp_ninv31_spec|].
  unfold gcd_ok. cbn [ga gb gu0 gu1 gv0 gv1]. split; [split; constructor; try assumption; try lia | lia].
  - eapply (cofactor_step _ _ (zval a) (zval b)); [exact OY | eassumption.. |]. lia.
  - eapply (cofactor_step _ _ (- zval a) (- zval b)); [exact OX | eassumption.. |]. lia.
  - eapply (cofactor_step _ _ (zval a) (zval b)); [exact OY | eassumption.. |]. lia.
  - eapply (cofactor_step _ _ (- zval a) (- zval b)); [exact OX | eassumption.. |]. lia.
Qed.
Lemma gcd_start : 1 <= Y ->
  gcd_ok (mk_gcd (take (S n) x) (take (S n) y) (1 :: replicate n 0) (take (S n) y) (replicate (S n) 0)
    (<[0%nat := u32 (take (S n) x !!! 0%nat - 1)]> (take (S n) x))).
Proof using All.
  intros H1. assert (length (take (S n) x) = S n) as Lx by (rewrite length_take; lia). assert (length (take (S n) y) = S n) as Ly by (rewrite length_take; lia).
  pose proof (zwords_word (take (S n) x) 0 Hx ltac:(lia)) as Hx0. assert (0 < take (S n) x !!! 0%nat) as Hpos.
  { rewrite lookup_total_take_lt by lia. rewrite lookup_total_take_lt in Hx0 by lia. destruct (Z.eq_dec (x !!! 0%nat) 0) as [E|]; [rewrite E in Hox; discriminate | lia]. }
  rewrite wrap_small by (unfold in_width; lia). pose proof (zval_range _ Hx).
  assert (zval (<[0%nat := take (S n) x !!! 0%nat - 1]> (take (S n) x)) = X - 1) as Ev by (rewrite zval_insert0 by lia; ring).
  assert (zval (1 :: replicate n 0) = 1) as E1 by (rewrite zval_cons, zval_zeros; reflexivity).
  split; constructor; cbn [ga gb gu0 gu1 gv0 gv1]; rewrite ?length_insert, ?Ev, ?E1, ?zval_zeros; try assumption; try lia.
  - cbn [length]. now rewrite length_replicate.
  - apply length_replicate.
  - constructor; [unfold in_width; lia | apply Forall_replicate; unfold in_width; lia].
  - apply Forall_replicate. unfold in_width. lia.
  - rewrite Z.mul_1_r. reflexivity.
  - apply (cong_intro _ _ _ 1). ring.
  - apply Forall_insert; [exact Hx | unfold in_width; lia].
  - apply (cong_intro _ _ _ (X - 1)). ring.
  - apply (cong_intro _ _ _ Y). ring.
Qed.
End Gcd.

(** The loop runs [num / 30] times. *)
Lemma gcd_loop_iter body fuel : forall num st,
  0 <= num < 2 ^ 32 -> num / 30 <= Z.of_nat fuel -> gcd_loop fuel num body st = Some (Nat.iter (Z.to_nat (num / 30)) body st).
Proof.
  induction fuel as [|fuel IH]; intros num st Hn Hf; cbn [gcd_loop]; destruct (Z.leb_spec 30 num).
  - assert (30 / 30 <= num / 30) by (apply Z.div_le_mono; lia). change (30 / 30) with 1 in *. lia.
  - now rewrite Z.div_small by lia.
  - rewrite wrap_small by (unfold in_width; lia). assert (num / 30 = (num - 30) / 30 + 1) as E.
    { replace num with (num - 30 + 1 * 30) at 1 by lia. now rewrite Z.div_add by lia. }
    rewrite IH by lia. rewrite E, Z2Nat.inj_add, Nat.add_1_r by (try lia; apply Z.div_pos; lia). now rewrite Nat.iter_succ_r.
  - now rewrite Z.div_small by lia.
Qed.

(** The final test: is the number one? *)
Lemma or_scan (a : list Z) (n : nat) (rc : Z) :
  zwords a -> (n <= length a)%nat -> 0 <= rc < 2 ^ 31 ->
  let r := for_up 1 n (fun j rc => rc .| a !!! j) rc in
  0 <= r < 2 ^ 31 /\ (r = 0 -> rc = 0 /\ forall j, (1 <= j < n)%nat -> a !!! j = 0).
Proof.
  intros Ha Hn Hrc. cbv zeta. destruct n as [|n]; [split; [exact Hrc | intros H; split; [exact H | lia]]|].
  apply (for_up_inv (fun j rc => rc .| a !!! j) (fun i r => 0 <= r < 2 ^ 31 /\ (r = 0 -> rc = 0 /\ forall j, (1 <= j < i)%nat -> a !!! j = 0))); [lia | |].
  - split; [exact Hrc | intros H; split; [exact H | lia]].
  - intros i r Hi [Hr H0]. pose proof (zwords_word a i Ha ltac:(lia)) as Hw. split.
    + now apply (lor_width 31).
    + intros [-> Hai]%Z.lor_eq_0_iff. destruct (H0 eq_refl) as [-> Hj]. split; [done|]. intros j Hji.
      destruct (decide (j = i)) as [->|]; [exact Hai | apply Hj; lia].
Qed.

Lemma is_zero_word rc : 0 <= rc < 2 ^ 31 -> u32 (1 - ((rc .| u32 (- rc)) .>> 31)) = bit (rc =? 0).
Proof.
  intros Hr. rewrite Z.shiftr_lor. destruct (Z.eqb_spec rc 0) as [->|Hne]; [reflexivity|].
  rewrite (shr31 rc), Z.div_small, Z.lor_0_l, top_bit32 by (lia || (apply wrap_range; lia)).
  assert (u32 (- rc) = 2 ^ 32 - rc) as -> by word_lia. assert ((2 ^ 31 <=? 2 ^ 32 - rc) = true) as -> by (apply Z.leb_le; lia). reflexivity.
Qed.

Lemma zval_one a n : zwords a -> length a = S n ->
  for_up 1 (S n) (fun j rc => rc .| a !!! j) (a !!! 0%nat .^ 1) = 0 -> zval a = 1.
Proof.
  intros Ha Hl H. pose proof (zwords_word a 0 Ha ltac:(lia)) as H0.
  destruct (or_scan a (S n) (a !!! 0%nat .^ 1) Ha) as [_ Hz]; [lia | apply lxor_width; unfold in_width; lia |].
  destruct (Hz H) as [E Hj]. apply Z.lxor_eq in E. destruct a as [|w a]; [discriminate|]. rewrite zval_cons.
  change ((w :: a) !!! 0%nat) with w in E. subst w. enough (zval a = 0) by lia. unfold zval.
  rewrite (wsum_ext _ _ (fun u => 0 * 0)); [rewrite (wsum_scale _ 0 (fun _ => 0)); lia|].
  intros u Hu. specialize (Hj (S u)). cbn in Hl. change ((1 :: a) !!! S u) with (a !!! u) in Hj. rewrite Hj by lia. reflexivity.
Qed.

(** Whatever the inputs, the step leaves [len] words of 31 bits in [a]. *)
Lemma zint_negate_words a ctl : zwords (zint_negate a (length a) ctl) /\ length (zint_negate a (length a) ctl) = length a.
Proof.
  unfold zint_negate. set (body := fun (u : nat) (st : Z * list Z) => _).
  enough (length (for_up 0 (length a) body (ctl, a)).2 = length a /\
    forall u, (u < length a)%nat -> 0 <= (for_up 0 (length a) body (ctl, a)).2 !!! u < 2 ^ 31) as [H1 H2].
  { split; [apply Forall_lookup_total; intros u Hu; apply H2; lia | exact H1]. }
  apply (for_up_inv body (fun i st => length st.2 = length a /\ forall u, (u < i)%nat -> 0 <= st.2 !!! u < 2 ^ 31)); [lia | split; [done | lia] |].
  intros u [cc r] Hu [Hl Hw]. unfold body. cbn [snd] in *. rewrite low31. split; [now rewrite length_insert|]. intros v Hv.
  destruct (decide (v = u)) as [->|]; [rewrite list_lookup_total_insert_eq by lia; apply Z.mod_pos_bound; lia
    | rewrite list_lookup_total_insert_ne by lia; apply Hw; lia].
Qed.

Lemma zint_co_reduce_words a b len xa xb ya yb :
  length a = len -> let '(_, a', _) := zint_co_reduce a b len xa xb ya yb in zwords a' /\ length a' = len.
Proof.
  intros Hl. unfold zint_co_reduce. set (body := fun (u : nat) (st : Z * Z * list Z * list Z) => _).
  assert ((fun st : Z * Z * list Z * list Z => length st.1.2 = len) (for_up 0 len body (0, 0, a, b))) as H.
  { apply (for_up_inv body (fun _ st => length st.1.2 = len)); [lia | exact Hl |]. intros u [[[ca cb] a'] b'] _ Hs. unfold body. cbv zeta.
    destruct (0 <? u)%nat; cbn [fst snd] in *; now rewrite ?length_insert. }
  destruct (for_up 0 len body (0, 0, a, b)) as [[[ca cb] a'] b']. cbn [fst snd] in H. cbv zeta.
  set (c := <[(len - 1)%nat := u32 ca]> a'). assert (length c = len) as Hc by (unfold c; now rewrite length_insert).
  pose proof (zint_negate_words c (u32 (u64 ca .>> 63))) as Hn. rewrite Hc in Hn. exact Hn.
Qed.

Lemma gcd_step_words x y len x0i y0i st :
  length (ga st) = len -> zwords (ga (gcd_step x y len x0i y0i st)) /\ length (ga (gcd_step x y len x0i y0i st)) = len.
Proof.
  intros Hl. destruct st as [a b u0 u1 v0 v1]. unfold gcd_step. destruct (top_words a b len) as [ah bh].
  destruct (for_up 0 31 factor_step _) as [ah' bh' al bl p1 p2 q1 q2]. pose proof (zint_co_reduce_words a b len p1 p2 q1 q2 Hl) as H.
  destruct (zint_co_reduce a b len p1 p2 q1 q2) as [[r a'] b'].
  destruct (zint_co_reduce_mod u0 u1 _ _ _ _ _ _ _), (zint_co_reduce_mod v0 v1 _ _ _ _ _ _ _). exact H.
Qed.

(** The test of the result and of the parity of both numbers. *)
Lemma final_test a x0 y0 n : zwords a -> length a = S n ->
  let rc := for_up 1 (S n) (fun j rc => rc .| a !!! j) (a !!! 0%nat .^ 1) in
  exists b, u32 (1 - ((rc .| u32 (- rc)) .>> 31)) .& x0 .& y0 = bit b /\
    (b = true -> zval a = 1 /\ Z.odd x0 = true /\ Z.odd y0 = true).
Proof.
  intros Ha Hl. cbv zeta. pose proof (zwords_word a 0 Ha ltac:(lia)) as H0.
  destruct (or_scan a (S n) (a !!! 0%nat .^ 1) Ha) as [Hr _]; [lia | apply lxor_width; unfold in_width; lia |].
  pose proof (zval_one a n Ha Hl) as H1. set (rc := for_up 1 (S n) _ _) in *. rewrite is_zero_word, !land_bit by exact Hr.
  eexists. split; [reflexivity|]. intros [[Hb%Z.eqb_eq ?]%andb_prop ?]%andb_prop. auto.
Qed.

Lemma bezout_equation X Y u v :
  0 <= u < Y -> 0 <= v < X -> 1 < Y -> X * u ≡[Y] 1 -> Y * v ≡[X] -1 -> X * u - Y * v = 1.
Proof.
  intros Hu Hv HY H1 H2. assert ((X * Y | X * u - Y * v - 1)) as [k Hk].
  { apply cong_elim in H1 as [j Hj], H2 as [k Hk]. exists ((j - v) * u - (u - k) * j).
    transitivity ((X * u - Y * v - 1) * (X * u - Y * j)); [rewrite Hj; ring|].
    transitivity (Y * (j - v) * (X * u) - X * (u - k) * (Y * j)); [|ring].
    assert (Y * (j - v) = X * u - Y * v - 1) as -> by (rewrite Hj; ring). assert (X * (u - k) = X * u - Y * v - 1) as -> by (rewrite Hk; ring). ring. }
  assert (- (X * Y) < X * u - Y * v - 1 < X * Y) by nia. assert (k = 0) by nia. lia.
Qed.

(** The fuel of the loop covers its decreasing counter. *)
Lemma gcd_loop_runs n body st (len := S n) : 62 * Z.of_nat len + 30 < 2 ^ 32 ->
  exists k, gcd_loop (2 * len + (2 * len + 30) / 30 + 1) (u32 (62 * Z.of_nat len + 30)) body st = Some (body (Nat.iter k body st)).
Proof.
  intros Hn. unfold len in *. set (num := 62 * Z.of_nat (S n) + 30) in *. rewrite (wrap_small 32 num) by (unfold in_width; lia).
  rewrite gcd_loop_iter; [|unfold num; lia |].
  - exists (Z.to_nat (num / 30) - 1)%nat. f_equal. assert (60 / 30 <= num / 30) by (apply Z.div_le_mono; unfold num; lia).
    change (60 / 30) with 2 in *. now destruct (Z.to_nat (num / 30)) as [|k] eqn:E; [lia|]; rewrite Nat.sub_succ, Nat.sub_0_r.
  - assert (num / 30 = 2 * Z.of_nat (S n) + (2 * Z.of_nat (S n) + 30) / 30) as ->.
    { unfold num. replace (62 * Z.of_nat (S n) + 30) with (2 * Z.of_nat (S n) * 30 + (2 * Z.of_nat (S n) + 30)) by ring. now rewrite Z.div_add_l by lia. }
    rewrite !Nat2Z.inj_add, Nat2Z.inj_div, !Nat2Z.inj_add, !Nat2Z.inj_mul. lia.
Qed.

(** [zint_bezout] returns, whatever the words. *)
Lemma zint_bezout_returns x y n : 62 * Z.of_nat n + 30 < 2 ^ 32 -> exists r, zint_bezout x y n = Some r.
Proof.
  intros Hn. unfold zint_bezout. destruct n as [|n]; [now eexists|]. cbn [Nat.eqb]. cbv zeta.
  match goal with |- context [gcd_loop _ _ ?body ?st] => destruct (gcd_loop_runs n body st Hn) as [k ->] end. now eexists.
Qed.

(** C20 (functional).  [zint_bezout] returns on every input; when it returns 1 and the second number is
    not 1, the two arrays hold the B\'ezout coefficients in their ranges. *)
Theorem zint_bezout_correct x y n :
  zwords x -> zwords y -> length x = S n -> length y = S n -> 62 * Z.of_nat (S n) + 30 < 2 ^ 32 ->
  exists r u v, zint_bezout x y (S n) = Some (r, u, v) /\ (r = 0 \/ r = 1) /\
    (r = 1 -> 1 < zval y ->
     length u = S n /\ length v = S n /\ zwords u /\ zwords v /\ 0 <= zval u < zval y /\ 0 <= zval v < zval x /\
     zval x * zval u - zval y * zval v = 1).
Proof.
  intros Hx Hy Hlx Hly Hn. unfold zint_bezout. cbn [Nat.eqb]. cbv zeta. rewrite !Nat.sub_succ, Nat.sub_0_r.
  set (st0 := mk_gcd _ _ _ _ _ _). set (step := gcd_step _ _ _ _ _). destruct (gcd_loop_runs n step st0 Hn) as [k ->].
  cbn [mbind option_bind]. set (st := Nat.iter k step st0).
  assert (length (ga st) = S n) as Hla.
  { unfold st. induction k as [|k IH]; [cbn; now rewrite length_take, Hlx, Nat.min_id | apply gcd_step_words, IH]. }
  destruct (gcd_step_words x y (S n) (modp_ninv31 (x !!! 0%nat)) (modp_ninv31 (y !!! 0%nat)) st Hla) as [Wa La].
  destruct (final_test _ (x !!! 0%nat) (y !!! 0%nat) n Wa La) as (b & Hb & Htrue).
  do 3 eexists. split; [reflexivity|]. fold step in Hb, Htrue. rewrite Hb. split; [destruct b; [now right | now left]|].
  intros Hb1 HY. destruct b; [|discriminate]. destruct (Htrue eq_refl) as (HA & Hox & Hoy).
  assert (zwords (take (S n) x) /\ zwords (take (S n) y)) as [Hx' Hy'] by (split; now apply zwords_take).
  assert (take (S n) x = x /\ take (S n) y = y) as [Ex Ey] by (split; apply take_ge; lia).
  assert (gcd_ok x y n st) as Hst.
  { unfold st. clear - Hx' Hy' Hlx Hly Hox Hoy HY Ey. induction k as [|k IH].
    - apply gcd_start; [assumption.. | lia | lia | assumption | assumption | rewrite Ey; lia].
    - apply gcd_step_ok; [assumption.. | lia | lia | assumption | assumption | exact IH]. }
  destruct (gcd_step_ok x y n Hx' Hy' ltac:(lia) ltac:(lia) Hox Hoy st Hst) as ([[? Lu Lv ? Wu Wv Cu Cv ? ?] _] & Bu & Bv).
  fold step in Lu, Lv, Wu, Wv, Cu, Cv, Bu, Bv. rewrite Ex, Ey, HA in *.
  split; [exact Lu|]. split; [exact Lv|]. split; [exact Wu|]. split; [exact Wv|].
  pose proof (zval_range _ Wu). pose proof (zval_range _ Wv). split; [lia|]. split; [lia|].
  apply bezout_equation; [lia | lia | lia | exact Cu | exact Cv].
Qed.

Lemma zint_bezout_correct_witness : exists r u v, zint_bezout [15] [7] 1 = Some (r, u, v) /\ (r = 0 \/ r = 1) /\
  (r = 1 -> 1 < zval [7] ->
   length u = 1%nat /\ length v = 1%nat /\ zwords u /\ zwords v /\ 0 <= zval u < zval [7] /\ 0 <= zval v < zval [15] /\
   zval [15] * zval u - zval [7] * zval v = 1).
Proof.
  apply (zint_bezout_correct [15] [7] 0); [repeat constructor; lia | repeat constructor; lia | reflexivity | reflexivity | lia].
Defined.
