(* ===== verification/Fft.v ===== *)
(** Fft: the Fast Fourier Transform of [fft.c] and its operations on polynomials in FFT representation.

    The functions are written over a class [Reals] of real arithmetic: the operations of [fpr.h] they call
    and the two tables of [fpr.c].  [FftTable] gives the instance that the program computes with, the
    emulated binary64 numbers of [Fpr], and [FftSpec] the real numbers, on which correctness is stated.  The
    complex number of index j is kept in the cells j and j + n/2 of an array.  Which point of the plane
    index j belongs to is stated by [FftSpec.point]: the comment above [FFT] in the source orders the points
    differently from its code. *)

From Stdlib Require Import ZArith Lia.
From stdpp Require Import base numbers list.
From S2P Require Import Prelude.

Class Reals (T : Type) := {
  r_zero : T;
  r_add : T -> T -> T;
  r_sub : T -> T -> T;
  r_mul : T -> T -> T;
  r_neg : T -> T;
  r_half : T -> T;
  r_double : T -> T;
  r_sqr : T -> T;
  r_inv : T -> T;
  gm_tab : nat -> T;
  p2_tab : nat -> T
}.

#[export] Instance Reals_inhabited {T} `{Reals T} : Inhabited T := populate r_zero.

Section Fft.
Context {T : Type} `{R : Reals T}.
Implicit Types (a b d f g : list T) (z : T * T).

(** * Complex numbers *)

Definition FPC_ADD (a b : T * T) : T * T := (r_add a.1 b.1, r_add a.2 b.2).

Definition FPC_SUB (a b : T * T) : T * T := (r_sub a.1 b.1, r_sub a.2 b.2).

Definition FPC_MUL (a b : T * T) : T * T :=
  (r_sub (r_mul a.1 b.1) (r_mul a.2 b.2), r_add (r_mul a.1 b.2) (r_mul a.2 b.1)).

Definition FPC_SQR (a : T * T) : T * T :=
  (r_sub (r_sqr a.1) (r_sqr a.2), r_double (r_mul a.1 a.2)).

Definition FPC_INV (a : T * T) : T * T :=
  let m := r_inv (r_add (r_sqr a.1) (r_sqr a.2)) in
  (r_mul a.1 m, r_mul (r_neg a.2) m).

Definition FPC_DIV (a b : T * T) : T * T :=
  let m := r_inv (r_add (r_sqr b.1) (r_sqr b.2)) in
  let b := (r_mul b.1 m, r_mul (r_neg b.2) m) in
  (r_sub (r_mul a.1 b.1) (r_mul a.2 b.2), r_add (r_mul a.1 b.2) (r_mul a.2 b.1)).

(** The complex number of index [j] of an array of [2 * hn] reals. *)
Definition cget (hn : nat) (f : list T) (j : nat) : T * T := (f !!! j, f !!! (j + hn)%nat).
Definition cset (hn : nat) (j : nat) (z : T * T) (f : list T) : list T := <[(j + hn)%nat := z.2]> (<[j := z.1]> f).
Definition cconj (z : T * T) : T * T := (z.1, r_neg z.2).

(** Entry [k] of [fpr_gm_tab], a pair of cells. *)
Definition gm (k : nat) : T * T := (gm_tab (2 * k + 0), gm_tab (2 * k + 1)).

(** * The transforms *)

Definition fft_butterfly (s : T * T) (hn ht j : nat) (f : list T) : list T :=
  let x := cget hn f j in
  let y := FPC_MUL (cget hn f (j + ht)) s in
  cset hn (j + ht) (FPC_SUB x y) (cset hn j (FPC_ADD x y) f).

Definition fft_level (hn m t : nat) (f : list T) : list T :=
  let ht := (t / 2)%nat in
  let hm := (m / 2)%nat in
  (for_up 0 hm (fun i1 '(j1, f) =>
     let j2 := (j1 + ht)%nat in
     ((j1 + t)%nat, for_up j1 j2 (fft_butterfly (gm (m + i1)) hn ht) f)) (0%nat, f)).2.

Definition FFT (f : list T) (logn : nat) : list T :=
  let n := (2 ^ logn)%nat in
  let hn := (n / 2)%nat in
  (for_up 1 logn (fun _ '(m, t, f) => ((2 * m)%nat, (t / 2)%nat, fft_level hn m t f)) (2%nat, hn, f)).2.

Definition ifft_butterfly (s : T * T) (hn t j : nat) (f : list T) : list T :=
  let x := cget hn f j in
  let y := cget hn f (j + t) in
  cset hn (j + t) (FPC_MUL (FPC_SUB x y) s) (cset hn j (FPC_ADD x y) f).

(** The loop on [i1] stops when [j1] reaches [hn]: after [hn / dt] turns, [dt] being a divisor of [hn]. *)
Definition ifft_level (hn m t : nat) (f : list T) : list T :=
  let hm := (m / 2)%nat in
  let dt := (2 * t)%nat in
  (for_up 0 (hn / dt) (fun i1 '(j1, f) =>
     let j2 := (j1 + t)%nat in
     ((j1 + dt)%nat, for_up j1 j2 (ifft_butterfly (cconj (gm (hm + i1))) hn t) f)) (0%nat, f)).2.

Definition iFFT (f : list T) (logn : nat) : list T :=
  let n := (2 ^ logn)%nat in
  let hn := (n / 2)%nat in
  let f := (for_up 1 logn (fun _ '(m, t, f) => ((m / 2)%nat, (2 * t)%nat, ifft_level hn m t f)) (n, 1%nat, f)).2 in
  if (0 <? logn)%nat then
    let ni := p2_tab logn in
    for_up 0 n (fun u f => <[u := r_mul (f !!! u) ni]> f) f
  else f.

(** * Operations on polynomials *)

Definition poly_add (a b : list T) (logn : nat) : list T :=
  for_up 0 (2 ^ logn) (fun u a => <[u := r_add (a !!! u) (b !!! u)]> a) a.

Definition poly_sub (a b : list T) (logn : nat) : list T :=
  for_up 0 (2 ^ logn) (fun u a => <[u := r_sub (a !!! u) (b !!! u)]> a) a.

Definition poly_neg (a : list T) (logn : nat) : list T :=
  for_up 0 (2 ^ logn) (fun u a => <[u := r_neg (a !!! u)]> a) a.

Definition poly_adj_fft (a : list T) (logn : nat) : list T :=
  let n := (2 ^ logn)%nat in
  for_up (n / 2) n (fun u a => <[u := r_neg (a !!! u)]> a) a.

Definition poly_mul_fft (a b : list T) (logn : nat) : list T :=
  let hn := (2 ^ logn / 2)%nat in
  for_up 0 hn (fun u a => cset hn u (FPC_MUL (cget hn a u) (cget hn b u)) a) a.

Definition poly_muladj_fft (a b : list T) (logn : nat) : list T :=
  let hn := (2 ^ logn / 2)%nat in
  for_up 0 hn (fun u a => cset hn u (FPC_MUL (cget hn a u) (cconj (cget hn b u))) a) a.

Definition poly_mulselfadj_fft (a : list T) (logn : nat) : list T :=
  let hn := (2 ^ logn / 2)%nat in
  for_up 0 hn (fun u a =>
    let '(a_re, a_im) := cget hn a u in
    cset hn u (r_add (r_sqr a_re) (r_sqr a_im), r_zero) a) a.

Definition poly_mulconst (a : list T) (x : T) (logn : nat) : list T :=
  for_up 0 (2 ^ logn) (fun u a => <[u := r_mul (a !!! u) x]> a) a.

Definition poly_div_fft (a b : list T) (logn : nat) : list T :=
  let hn := (2 ^ logn / 2)%nat in
  for_up 0 hn (fun u a => cset hn u (FPC_DIV (cget hn a u) (cget hn b u)) a) a.

(** [d] is a half-length array. *)
Definition poly_invnorm2_fft (d a b : list T) (logn : nat) : list T :=
  let hn := (2 ^ logn / 2)%nat in
  for_up 0 hn (fun u d =>
    let '(a_re, a_im) := cget hn a u in
    let '(b_re, b_im) := cget hn b u in
    <[u := r_inv (r_add (r_add (r_sqr a_re) (r_sqr a_im)) (r_add (r_sqr b_re) (r_sqr b_im)))]> d) d.

Definition poly_add_muladj_fft (d F G f g : list T) (logn : nat) : list T :=
  let hn := (2 ^ logn / 2)%nat in
  for_up 0 hn (fun u d =>
    let a := FPC_MUL (cget hn F u) (cconj (cget hn f u)) in
    let b := FPC_MUL (cget hn G u) (cconj (cget hn g u)) in
    cset hn u (FPC_ADD a b) d) d.

Definition poly_mul_autoadj_fft (a b : list T) (logn : nat) : list T :=
  let hn := (2 ^ logn / 2)%nat in
  for_up 0 hn (fun u a =>
    let '(a_re, a_im) := cget hn a u in
    cset hn u (r_mul a_re (b !!! u), r_mul a_im (b !!! u)) a) a.

Definition poly_div_autoadj_fft (a b : list T) (logn : nat) : list T :=
  let hn := (2 ^ logn / 2)%nat in
  for_up 0 hn (fun u a =>
    let ib := r_inv (b !!! u) in
    let '(a_re, a_im) := cget hn a u in
    cset hn u (r_mul a_re ib, r_mul a_im ib) a) a.

(** The loop body shared by the two LDL decompositions: the new values of [g01] and [g11]. *)
Definition ldl_step (g00 g01 g11 : T * T) : (T * T) * (T * T) :=
  let mu := FPC_DIV g01 g00 in
  let g01 := FPC_MUL mu (cconj g01) in
  (cconj mu, FPC_SUB g11 g01).

Definition poly_LDL_fft (g00 g01 g11 : list T) (logn : nat) : list T * list T :=
  let hn := (2 ^ logn / 2)%nat in
  for_up 0 hn (fun u '(g01, g11) =>
    let '(l10, d11) := ldl_step (cget hn g00 u) (cget hn g01 u) (cget hn g11 u) in
    (cset hn u l10 g01, cset hn u d11 g11)) (g01, g11).

Definition poly_LDLmv_fft (d11 l10 g00 g01 g11 : list T) (logn : nat) : list T * list T :=
  let hn := (2 ^ logn / 2)%nat in
  for_up 0 hn (fun u '(d11, l10) =>
    let '(l, d) := ldl_step (cget hn g00 u) (cget hn g01 u) (cget hn g11 u) in
    (cset hn u d d11, cset hn u l l10)) (d11, l10).

(** [f0] and [f1] are half-length arrays. *)
Definition poly_split_fft (f0 f1 f : list T) (logn : nat) : list T * list T :=
  let hn := (2 ^ logn / 2)%nat in
  let qn := (hn / 2)%nat in
  let f0 := <[0%nat := f !!! 0%nat]> f0 in
  let f1 := <[0%nat := f !!! hn]> f1 in
  for_up 0 qn (fun u '(f0, f1) =>
    let a := cget hn f (2 * u + 0) in
    let b := cget hn f (2 * u + 1) in
    let t := FPC_ADD a b in
    let f0 := cset qn u (r_half t.1, r_half t.2) f0 in
    let t := FPC_MUL (FPC_SUB a b) (cconj (gm (u + hn))) in
    let f1 := cset qn u (r_half t.1, r_half t.2) f1 in
    (f0, f1)) (f0, f1).

Definition poly_merge_fft (f f0 f1 : list T) (logn : nat) : list T :=
  let hn := (2 ^ logn / 2)%nat in
  let qn := (hn / 2)%nat in
  let f := <[0%nat := f0 !!! 0%nat]> f in
  let f := <[hn := f1 !!! 0%nat]> f in
  for_up 0 qn (fun u f =>
    let a := cget qn f0 u in
    let b := FPC_MUL (cget qn f1 u) (gm (u + hn)) in
    let f := cset hn (2 * u + 0) (FPC_ADD a b) f in
    cset hn (2 * u + 1) (FPC_SUB a b) f) f.
End Fft.
