(* ===== verification/FftSpec.v ===== *)
(** FftSpec: the transform of [fft.c] in exact arithmetic.

    The functions of [Fft] are instantiated by the real numbers, with the cosines and sines that the table of
    [fpr.c] approximates ([FftAccuracy] says how well).  Then the transform is an evaluation at roots of
    X^n + 1, and the operations on transformed polynomials are those of the ring R[X]/(X^n + 1). *)

From Stdlib Require Import ZArith Lia Reals Lra.
From stdpp Require Import base numbers list.
From S2P Require Import Prelude Pass Fft.

#[local] Open Scope R_scope.

(** * Real numbers as an instance of [Reals] *)

(** The argument of entry [k] of the table: pi times the reversed bits of k over 1024. *)
Fixpoint gm_angle (k : positive) : R :=
  match k with
  | xH => PI / 2
  | xO k => gm_angle k / 2
  | xI k => gm_angle k / 2 + PI / 2
  end.

#[export] Instance exact_reals : Reals R := {
  r_zero := 0;
  r_add := Rplus;
  r_sub := Rminus;
  r_mul := Rmult;
  r_neg := Ropp;
  r_half x := x / 2;
  r_double x := 2 * x;
  r_sqr x := x * x;
  r_inv := Rinv;
  gm_tab k := let a := gm_angle (Pos.of_nat (k / 2)) in if Nat.even k then cos a else sin a;
  p2_tab k := 2 / 2 ^ k
}.

(** * Complex numbers *)

Abbreviation C := (R * R)%type.
Definition C0 : C := (0, 0).
Definition C1 : C := (1, 0).
Definition Ci : C := (0, 1).
Definition Copp (z : C) : C := (- z.1, - z.2).
Definition of_R (x : R) : C := (x, 0).
Definition cexp (t : R) : C := (cos t, sin t).

Lemma C_ring : @ring_theory C C0 C1 FPC_ADD FPC_MUL FPC_SUB Copp eq.
Proof.
  unfold FPC_ADD, FPC_MUL, FPC_SUB, Copp, C0, C1. cbn.
  constructor; intros; destruct_and?; repeat match goal with z : C |- _ => destruct z end; cbn; f_equal; ring.
Qed.

Declare Scope C_scope.
Delimit Scope C_scope with C.
Infix "+" := FPC_ADD : C_scope.
Infix "*" := FPC_MUL : C_scope.
Infix "-" := FPC_SUB : C_scope.
Notation "- z" := (Copp z) : C_scope.
Add Ring C_ring_inst : C_ring.

Lemma cexp_add s t : cexp (s + t) = (cexp s * cexp t)%C.
Proof. unfold cexp, FPC_MUL. cbn. rewrite cos_plus, sin_plus. f_equal; ring. Qed.

Lemma cexp_pi t : cexp (t + PI) = (- cexp t)%C.
Proof. unfold cexp, Copp. cbn. now rewrite neg_cos, neg_sin. Qed.

Lemma cexp_unit t : (cexp t * cconj (cexp t))%C = C1.
Proof. unfold cexp, cconj, FPC_MUL, C1. cbn. pose proof (sin2_cos2 t) as H. unfold Rsqr in H. f_equal; lra. Qed.

Lemma cexp_conj t : cconj (cexp t) = cexp (- t).
Proof. unfold cexp, cconj. cbn. now rewrite cos_neg, sin_neg. Qed.

Fixpoint Cpow (z : C) (n : nat) : C := match n with O => C1 | S n => (z * Cpow z n)%C end.

Lemma Cpow_add z m n : Cpow z (m + n) = (Cpow z m * Cpow z n)%C.
Proof. induction m as [|m IH]; cbn [Nat.add Cpow]; [|rewrite IH]; ring. Qed.

Lemma Cpow_double z n : Cpow z (2 * n) = Cpow (z * z)%C n.
Proof. induction n as [|n IH]; [done|]. replace (2 * S n)%nat with (S (S (2 * n))) by lia. cbn [Cpow]. rewrite IH. ring. Qed.

(** * Polynomials *)

Fixpoint ceval (p : list C) (z : C) : C := match p with [] => C0 | c :: p => (c + z * ceval p z)%C end.

(** The value of a polynomial with real coefficients. *)
Definition reval (f : list R) (z : C) : C := ceval (of_R <$> f) z.

Lemma ceval_app p p' z : ceval (p ++ p') z = (ceval p z + Cpow z (length p) * ceval p' z)%C.
Proof. induction p as [|c p IH]; cbn [app ceval length Cpow]; [|rewrite IH]; ring. Qed.

Lemma ceval_zip (H : C -> C -> C) s p p' z :
  (forall u v, H u v = (u + s * v)%C) -> length p = length p' -> ceval (zip_with H p p') z = (ceval p z + s * ceval p' z)%C.
Proof.
  intros HH. revert p'. induction p as [|c p IH]; intros [|c' p'] Hl; try done; cbn [zip_with ceval].
  - ring.
  - rewrite IH by (cbn in Hl; lia). rewrite HH. ring.
Qed.

(** * The roots

    Node [v] of the tree of moduli stands for X^t - root v.  The children of a node have the two square
    roots of its root. *)

Fixpoint root_angle (v : positive) : R :=
  match v with
  | xH => PI / 2
  | xO v => root_angle v / 2
  | xI v => root_angle v / 2 + PI
  end.

Definition root (v : nat) : C := cexp (root_angle (Pos.of_nat v)).

Lemma of_nat_double k : (1 <= k)%nat -> Pos.of_nat (2 * k) = xO (Pos.of_nat k) /\ Pos.of_nat (2 * k + 1) = xI (Pos.of_nat k).
Proof. intros Hk. split; apply Pos2Nat.inj; rewrite ?Pos2Nat.inj_xO, ?Pos2Nat.inj_xI, (Nat2Pos.id k), Nat2Pos.id by lia; lia. Qed.

Lemma root_children v : (1 <= v)%nat ->
  (root (2 * v) * root (2 * v))%C = root v /\ root (2 * v + 1) = (- root (2 * v))%C.
Proof.
  intros Hv. unfold root. destruct (of_nat_double v Hv) as [-> ->]. cbn [root_angle]. split; [|apply cexp_pi].
  rewrite <- cexp_add. f_equal. lra.
Qed.

(** Entry [k] of the table. *)
Lemma gm_cexp k : gm (T := R) k = cexp (gm_angle (Pos.of_nat k)).
Proof.
  unfold gm, gm_tab, exact_reals, cexp. rewrite Nat.add_0_r, Nat.even_mul, Nat.even_add, Nat.even_mul. cbn [Nat.even orb eqb].
  rewrite <- (Nat.div_unique (2 * k) 2 k 0), <- (Nat.div_unique (2 * k + 1) 2 k 1) by lia. done.
Qed.

(** The entries of the level of [m] nodes are the roots of the even nodes of the next one. *)
Lemma gm_root l : forall i, (i < 2 ^ l)%nat -> gm_angle (Pos.of_nat (2 * 2 ^ l + i)) = root_angle (Pos.of_nat (2 ^ l + i)) / 2.
Proof.
  induction l as [|l IH]; intros i Hi; [replace i with 0%nat by (cbn in Hi; lia); reflexivity|].
  pose proof (pow2_nat_pos l). pose proof (Nat.div_mod_eq i 2) as Hd. pose proof (Nat.mod_upper_bound i 2 ltac:(lia)).
  rewrite Nat.pow_succ_r' in *. specialize (IH (i / 2)%nat ltac:(lia)). set (h := (i / 2)%nat) in *. clearbody h.
  destruct (of_nat_double (2 * 2 ^ l + h) ltac:(lia)) as [G0 G1], (of_nat_double (2 ^ l + h) ltac:(lia)) as [R0 R1].
  assert (i = 2 * h \/ i = 2 * h + 1)%nat as [->| ->] by lia.
  - replace (2 * (2 * 2 ^ l) + 2 * h)%nat with (2 * (2 * 2 ^ l + h))%nat by lia. replace (2 * 2 ^ l + 2 * h)%nat with (2 * (2 ^ l + h))%nat by lia.
    rewrite G0, R0. cbn [gm_angle root_angle]. rewrite IH. lra.
  - replace (2 * (2 * 2 ^ l) + (2 * h + 1))%nat with (2 * (2 * 2 ^ l + h) + 1)%nat by lia. replace (2 * 2 ^ l + (2 * h + 1))%nat with (2 * (2 ^ l + h) + 1)%nat by lia.
    rewrite G1, R1. cbn [gm_angle root_angle]. rewrite IH. lra.
Qed.

Lemma gm_even l i : (i < 2 ^ l)%nat -> gm (2 * 2 ^ l + i) = root (2 * (2 ^ l + i)).
Proof.
  intros Hi. pose proof (pow2_nat_pos l). rewrite gm_cexp, gm_root by done. unfold root.
  now destruct (of_nat_double (2 ^ l + i) ltac:(lia)) as [-> _].
Qed.

(** The powers of a root are those of its ancestors. *)
Lemma complex_root_pow j : forall v, (2 ^ j <= v)%nat -> Cpow (root v) (2 ^ j) = root (v / 2 ^ j).
Proof.
  induction j as [|j IH]; intros v Hv; [rewrite Nat.div_1_r; cbn; ring|].
  rewrite Nat.pow_succ_r' in *. pose proof (pow2_nat_pos j). rewrite Cpow_double.
  pose proof (Nat.div_mod_eq v 2). pose proof (Nat.mod_upper_bound v 2 ltac:(lia)).
  destruct (root_children (v / 2) ltac:(lia)) as [Hr1 Hr2].
  rewrite <- Nat.Div0.div_div, <- IH by lia. f_equal. set (h := (v / 2)%nat) in *. clearbody h.
  assert (v = 2 * h \/ v = 2 * h + 1)%nat as [->| ->] by lia; [exact Hr1|]. rewrite Hr2. transitivity (root (2 * h) * root (2 * h))%C; [ring | exact Hr1].
Qed.

(** The order of the points: bits of the index reversed. *)
Fixpoint bit_reverse (l j : nat) : nat :=
  match l with O => 0 | S l => (bit_reverse l (j / 2) + j mod 2 * 2 ^ l)%nat end.

(** Point [j] of the transform of [2 ^ logn] reals. *)
Definition point (logn j : nat) : C := cexp (INR (4 * bit_reverse (logn - 1) j + 1) * PI / 2 ^ logn).

Lemma point_is_root l : forall j, (j < 2 ^ l)%nat -> point (S l) j = root (2 ^ l + j).
Proof.
  unfold point, root. rewrite Nat.sub_succ, Nat.sub_0_r. intros j Hj. f_equal. revert j Hj.
  induction l as [|l IH]; intros j Hj; [replace j with 0%nat by (cbn in Hj; lia); change (1 * PI / 2 ^ 1 = PI / 2); lra|].
  pose proof (pow2_nat_pos l). pose proof (Nat.div_mod_eq j 2) as Hd. pose proof (Nat.mod_upper_bound j 2 ltac:(lia)).
  cbn [bit_reverse]. rewrite Nat.pow_succ_r' in *. specialize (IH (j / 2)%nat ltac:(lia)). set (h := (j / 2)%nat) in *. set (b := (j mod 2)%nat) in *.
  destruct (of_nat_double (2 ^ l + h) ltac:(lia)) as [R0 R1]. set (w := bit_reverse l h) in *.
  assert (2 ^ l <> 0) as Hp by (apply pow_nonzero; lra).
  assert (INR (4 * (w + b * 2 ^ l) + 1) = INR (4 * w + 1) + 4 * INR b * 2 ^ l) as ->
    by (rewrite !plus_INR, !mult_INR, plus_INR, mult_INR, pow_INR; replace (INR 4) with 4 by (cbn; lra); replace (INR 2) with 2 by (cbn; lra); cbn [INR]; lra).
  assert (j = 2 * h \/ j = 2 * h + 1)%nat as Hc by lia. destruct Hc as [Hc|Hc].
  - replace (2 * 2 ^ l + j)%nat with (2 * (2 ^ l + h))%nat by lia. rewrite R0. cbn [root_angle]. rewrite <- IH. replace b with 0%nat by lia. cbn. field. exact Hp.
  - replace (2 * 2 ^ l + j)%nat with (2 * (2 ^ l + h) + 1)%nat by lia. rewrite R1. cbn [root_angle]. rewrite <- IH. replace b with 1%nat by lia. cbn. field. exact Hp.
Qed.

(** * Arrays as lists of complex numbers *)

(** The [hn] complex numbers of an array of [2 * hn] reals. *)
Definition cells (hn : nat) (f : list R) : list C := cget hn f <$> seq 0 hn.

Lemma length_cells hn f : length (cells hn f) = hn.
Proof. unfold cells. now rewrite length_fmap, length_seq. Qed.

Lemma cells_lookup hn f j : (j < hn)%nat -> cells hn f !!! j = cget hn f j.
Proof.
  intros Hj. unfold cells. rewrite (@list_lookup_total_fmap nat C (cget hn f) _ _) by now rewrite length_seq. now rewrite lookup_total_seq_lt.
Qed.

Lemma cells_inj hn f g : length f = (2 * hn)%nat -> length g = (2 * hn)%nat -> cells hn f = cells hn g -> f = g.
Proof.
  intros Hf Hg He. apply list_eq_total; [lia|]. intros p Hp.
  assert (forall j, (j < hn)%nat -> cget hn f j = cget hn g j) as H by (intros j Hj; now rewrite <- !cells_lookup, He).
  unfold cget in H. destruct (decide (p < hn)%nat) as [Hlt|Hge]; [specialize (H p Hlt); now injection H|].
  specialize (H (p - hn)%nat ltac:(lia)). injection H as _ H. now replace (p - hn + hn)%nat with p in H by lia.
Qed.

Lemma length_cset hn j z (f : list R) : length (cset hn j z f) = length f.
Proof. unfold cset. now rewrite !length_insert. Qed.

Lemma cget_cset hn (f : list R) j k z : length f = (2 * hn)%nat -> (j < hn)%nat -> (k < hn)%nat ->
  cget hn (cset hn j z f) k = if decide (j = k) then z else cget hn f k.
Proof.
  intros Hf Hj Hk. unfold cget, cset. rewrite (list_lookup_total_insert_ne _ (j + hn) k) by lia.
  destruct (decide (j = k)) as [->|Hne].
  - rewrite !list_lookup_total_insert_eq by (rewrite ?length_insert; lia). now destruct z.
  - now rewrite !list_lookup_total_insert_ne by lia.
Qed.

Lemma cells_cset hn f j z : length f = (2 * hn)%nat -> (j < hn)%nat -> cells hn (cset hn j z f) = <[j := z]> (cells hn f).
Proof.
  intros Hf Hj. apply list_eq_total; [now rewrite length_insert, !length_cells|]. rewrite length_cells. intros k Hk.
  rewrite cells_lookup, cget_cset by done. destruct (decide (j = k)) as [->|Hne].
  - now rewrite list_lookup_total_insert_eq by now rewrite length_cells.
  - now rewrite list_lookup_total_insert_ne, cells_lookup by done.
Qed.

(** A level of the C code, on an array of reals, is a pass on its cells. *)
Definition level (F G : nat -> C -> C -> C) (hn cnt ht : nat) (f : list R) : list R :=
  (for_up 0 cnt (fun i '(j1, f) =>
     ((j1 + 2 * ht)%nat, for_up j1 (j1 + ht) (fun j f =>
        let x := cget hn f j in
        let y := cget hn f (j + ht) in
        cset hn (j + ht) (G i x y) (cset hn j (F i x y) f)) f)) (0%nat, f)).2.

Lemma level_cells F G hn cnt ht f : hn = (cnt * (2 * ht))%nat -> length f = (2 * hn)%nat ->
  length (level F G hn cnt ht f) = (2 * hn)%nat /\ cells hn (level F G hn cnt ht f) = pass F G cnt ht (cells hn f).
Proof.
  intros Hn Hf. unfold level, pass.
  pose (Rel (i : nat) (s : nat * list R) (s' : nat * list C) := s.1 = (i * (2 * ht))%nat /\ s'.1 = s.1 /\ length s.2 = (2 * hn)%nat /\ cells hn s.2 = s'.2).
  enough (Rel cnt (for_up 0 (0 + cnt) (fun i '(j1, f) =>
     ((j1 + 2 * ht)%nat, for_up j1 (j1 + ht) (fun j f =>
        let x := cget hn f j in
        let y := cget hn f (j + ht) in
        cset hn (j + ht) (G i x y) (cset hn j (F i x y) f)) f)) (0%nat, f))
    (for_up 0 (0 + cnt) (fun i '(j1, a) => ((j1 + 2 * ht)%nat, for_up j1 (j1 + ht) (bfly (F i) (G i) ht) a)) (0%nat, cells hn f))) as (_ & _ & H) by exact H.
  apply for_up_sim; [by repeat split|]. intros i [j1 s] [j1' s'] Hi (Hj & Hj' & Hl & Hc). cbn [fst snd] in *. subst j1 j1' s'.
  split; [cbn; lia|]. split; [done|]. cbn [snd].
  apply (for_up_sim (fun j f => cset hn (j + ht) (G i (cget hn f j) (cget hn f (j + ht))) (cset hn j (F i (cget hn f j) (cget hn f (j + ht))) f))
    (bfly (F i) (G i) ht) (fun _ s s' => length s = (2 * hn)%nat /\ cells hn s = s')); [done|].
  intros k r r' Hk [Hlr <-]. assert (i * (2 * ht) + k + ht < hn)%nat by nia.
  unfold bfly. rewrite !length_cset, !cells_cset, !cells_lookup by (rewrite ?length_cset; lia). done.
Qed.

(** * Passes on cells

    Pass [k] of the transform of [2 ^ L] complex numbers has [2 ^ k] blocks. *)

Definition smul (x : R) (a : list C) : list C := FPC_MUL (of_R x) <$> a.

Definition fwd_pass (L k : nat) : list C -> list C :=
  pass (fun i u v => u + v * gm (2 * 2 ^ k + i))%C (fun i u v => u - v * gm (2 * 2 ^ k + i))%C (2 ^ k) (2 ^ (L - 1 - k)).

Definition bwd_pass (L k : nat) : list C -> list C :=
  pass (fun _ u v => u + v)%C (fun i u v => (u - v) * cconj (gm (2 * 2 ^ k + i)))%C (2 ^ k) (2 ^ (L - 1 - k)).

Fixpoint fwd (L k : nat) (a : list C) : list C :=
  match k with O => a | S k => fwd_pass L k (fwd L k a) end.

Fixpoint bwd (L k : nat) (a : list C) : list C :=
  match k with O => a | S k => bwd_pass L (L - 1 - k) (bwd L k a) end.

Lemma blocks L k : (k < L)%nat -> (2 ^ L = 2 ^ k * (2 * 2 ^ (L - 1 - k)))%nat.
Proof. intros Hk. rewrite <- Nat.pow_succ_r', <- Nat.pow_add_r. f_equal. lia. Qed.

Lemma length_smul x a : length (smul x a) = length a.
Proof. apply length_fmap. Qed.

Lemma smul_lookup x a p : (p < length a)%nat -> smul x a !!! p = (of_R x * a !!! p)%C.
Proof. intros Hp. unfold smul. now rewrite (@list_lookup_total_fmap C C (FPC_MUL (of_R x)) _ _). Qed.

Lemma smul_smul x y a : smul x (smul y a) = smul (x * y) a.
Proof. unfold smul. rewrite <- list_fmap_compose. apply list_fmap_ext. intros _ z _. cbn. unfold FPC_MUL, of_R. cbn. f_equal; ring. Qed.

Lemma smul_1 a : smul 1 a = a.
Proof. unfold smul. rewrite <- (list_fmap_id a) at 2. apply list_fmap_ext. intros _ [x y] _. unfold FPC_MUL, of_R. cbn. f_equal; ring. Qed.

Lemma gm_unit k : (gm k * cconj (gm k))%C = C1.
Proof. rewrite gm_cexp. apply cexp_unit. Qed.

Lemma bwd_fwd_pass L k a : (k < L)%nat -> length a = (2 ^ L)%nat -> bwd_pass L k (fwd_pass L k a) = smul 2 a.
Proof.
  intros Hk Ha. apply (pass_pass _ _ _ _ (smul 2)); [rewrite Ha; now apply blocks | apply length_smul|].
  intros i lo hi Hi Hlo Hhi. cbv zeta. rewrite !smul_lookup by done. set (w := gm (2 * 2 ^ k + i)).
  replace (of_R 2) with (C1 + C1)%C by (unfold FPC_ADD, C1, of_R; cbn; f_equal; lra). split; [ring|].
  transitivity ((C1 + C1) * a !!! hi * (w * cconj w))%C; [ring | unfold w; rewrite gm_unit; ring].
Qed.

Lemma fwd_bwd_pass L k a : (k < L)%nat -> length a = (2 ^ L)%nat -> fwd_pass L k (bwd_pass L k a) = smul 2 a.
Proof.
  intros Hk Ha. apply (pass_pass _ _ _ _ (smul 2)); [rewrite Ha; now apply blocks | apply length_smul|].
  intros i lo hi Hi Hlo Hhi. cbv zeta. rewrite !smul_lookup by done. set (w := gm (2 * 2 ^ k + i)).
  replace (of_R 2) with (C1 + C1)%C by (unfold FPC_ADD, C1, of_R; cbn; f_equal; lra).
  split; [transitivity (a !!! lo + a !!! hi + (a !!! lo - a !!! hi) * (w * cconj w))%C | transitivity (a !!! lo + a !!! hi - (a !!! lo - a !!! hi) * (w * cconj w))%C];
    try ring; unfold w; rewrite gm_unit; ring.
Qed.

Lemma pass_smul F G cnt ht x a : length a = (cnt * (2 * ht))%nat ->
  (forall i u v, F i (of_R x * u)%C (of_R x * v)%C = (of_R x * F i u v)%C /\ G i (of_R x * u)%C (of_R x * v)%C = (of_R x * G i u v)%C) ->
  pass F G cnt ht (smul x a) = smul x (pass F G cnt ht a).
Proof.
  intros Ha H. assert (length (smul x a) = (cnt * (2 * ht))%nat) as Ha' by now rewrite length_smul.
  destruct (pass_spec F G cnt ht a Ha) as [Hl _], (pass_spec F G cnt ht (smul x a) Ha') as [Hl' _].
  apply list_eq_total; [rewrite length_smul; lia|]. rewrite Hl'. intros p Hp. destruct (block_split cnt ht p ltac:(lia)) as (i & j & Hi & Hj & Hc).
  destruct (pass_lookup F G cnt ht a i j Ha Hi Hj) as [H1 H2], (pass_lookup F G cnt ht _ i j Ha' Hi Hj) as [H3 H4].
  rewrite smul_lookup by lia. rewrite !smul_lookup in H3, H4 by nia. destruct Hc as [-> | ->]; [rewrite H1, H3 | rewrite H2, H4]; apply H.
Qed.

Lemma length_passes L k a : (k < L)%nat -> length a = (2 ^ L)%nat -> length (fwd_pass L k a) = (2 ^ L)%nat /\ length (bwd_pass L k a) = (2 ^ L)%nat.
Proof. intros Hk Ha. rewrite <- Ha. split; (apply pass_spec; rewrite Ha; now apply blocks). Qed.

Lemma passes_smul L k x a : (k < L)%nat -> length a = (2 ^ L)%nat ->
  fwd_pass L k (smul x a) = smul x (fwd_pass L k a) /\ bwd_pass L k (smul x a) = smul x (bwd_pass L k a).
Proof. intros Hk Ha. split; (apply pass_smul; [rewrite Ha; now apply blocks|]); intros; split; ring. Qed.

Lemma length_states L k a : (k <= L)%nat -> length a = (2 ^ L)%nat -> length (fwd L k a) = (2 ^ L)%nat /\ length (bwd L k a) = (2 ^ L)%nat.
Proof.
  intros Hk Ha. induction k as [|k IH]; [done|]. cbn [fwd bwd]. split; apply length_passes; try apply IH; lia.
Qed.

(** The two transforms undo each other, up to a factor. *)
Lemma bwd_fwd L a : length a = (2 ^ L)%nat -> bwd L L (fwd L L a) = smul (2 ^ L) a.
Proof.
  intros Ha. enough (forall j, (j <= L)%nat -> bwd L j (fwd L L a) = smul (2 ^ j) (fwd L (L - j) a)) as H
    by (rewrite H, Nat.sub_diag by lia; done).
  induction j as [|j IH]; intros Hj; [cbn [bwd pow]; now rewrite smul_1, Nat.sub_0_r|]. cbn [bwd]. rewrite IH by lia.
  destruct (length_states L (L - 1 - j) a ltac:(lia) Ha) as [Hl _].
  replace (L - j)%nat with (S (L - 1 - j)) by lia. replace (L - S j)%nat with (L - 1 - j)%nat by lia. cbn [fwd].
  destruct (length_passes L (L - 1 - j) _ ltac:(lia) Hl) as [Hl' _].
  destruct (passes_smul L (L - 1 - j) (2 ^ j) _ ltac:(lia) Hl') as [_ ->]. rewrite bwd_fwd_pass, smul_smul by (lia || done). f_equal. cbn [pow]. ring.
Qed.

Lemma fwd_bwd L a : length a = (2 ^ L)%nat -> fwd L L (bwd L L a) = smul (2 ^ L) a.
Proof.
  intros Ha. enough (forall j, (j <= L)%nat -> fwd L j (bwd L L a) = smul (2 ^ j) (bwd L (L - j) a)) as H
    by (rewrite H, Nat.sub_diag by lia; done).
  induction j as [|j IH]; intros Hj; [cbn [fwd pow]; now rewrite smul_1, Nat.sub_0_r|]. cbn [fwd]. rewrite IH by lia.
  destruct (length_states L (L - 1 - j) a ltac:(lia) Ha) as [_ Hl].
  replace (L - j)%nat with (S (L - 1 - j)) by lia. replace (L - S j)%nat with (L - 1 - j)%nat by lia. cbn [bwd].
  replace (L - 1 - (L - 1 - j))%nat with j by lia.
  destruct (length_passes L j _ ltac:(lia) Hl) as [_ Hl'].
  destruct (passes_smul L j (2 ^ j) _ ltac:(lia) Hl') as [-> _]. rewrite fwd_bwd_pass, smul_smul by (lia || done). f_equal. cbn [pow]. ring.
Qed.

(** * Evaluation

    After [k] passes the block of an index has, at the point of that index, the value of the polynomial. *)

Lemma ceval_slice_split a i ht z : (i * (2 * ht) + 2 * ht <= length a)%nat ->
  ceval (slice a i (2 * ht)) z = (ceval (slice a (2 * i) ht) z + Cpow z ht * ceval (slice a (2 * i + 1) ht) z)%C.
Proof. intros H. rewrite slice_split, ceval_app, length_slice by lia. done. Qed.

Lemma fwd_eval L a : length a = (2 ^ L)%nat -> forall k p, (k <= L)%nat -> (p < 2 ^ L)%nat ->
  ceval (slice (fwd L k a) (p / 2 ^ (L - k)) (2 ^ (L - k))) (root (2 ^ L + p)) = ceval a (root (2 ^ L + p)).
Proof.
  intros Ha k p Hk Hp. induction k as [|k IH]; [now rewrite Nat.sub_0_r, Nat.div_small, slice_all|].
  rewrite <- IH by lia. clear IH. cbn [fwd]. destruct (length_states L k a ltac:(lia) Ha) as [Hl _].
  set (b := fwd L k a) in *. replace (L - S k)%nat with (L - 1 - k)%nat by lia. pose proof (blocks L k Hk) as HL.
  replace (L - k)%nat with (S (L - 1 - k)) by lia. rewrite Nat.pow_succ_r'. set (ht := (2 ^ (L - 1 - k))%nat) in *.
  assert (0 < ht)%nat as Hht by apply pow2_nat_pos. set (i := (p / (2 * ht))%nat).
  assert (i < 2 ^ k)%nat as Hi by (apply Nat.Div0.div_lt_upper_bound; lia).
  assert (Cpow (root (2 ^ L + p)) ht = root (2 * 2 ^ k + p / ht)) as Hr.
  { unfold ht at 1. rewrite complex_root_pow by (fold ht; nia). fold ht. f_equal. rewrite HL at 1.
    replace (2 ^ k * (2 * ht) + p)%nat with (2 * 2 ^ k * ht + p)%nat by lia. now rewrite Nat.div_add_l by lia. }
  destruct (root_children (2 ^ k + i) ltac:(pose proof (pow2_nat_pos k); lia)) as [_ Ho].
  rewrite ceval_slice_split, Hr by (rewrite Hl; nia). unfold fwd_pass. fold ht.
  destruct (pass_spec (fun i u v => u + v * gm (2 * 2 ^ k + i))%C (fun i u v => u - v * gm (2 * 2 ^ k + i))%C (2 ^ k) ht b ltac:(lia)) as [_ Hps].
  destruct (Hps i Hi) as [H1 H2]. assert (length (slice b (2 * i) ht) = ht /\ length (slice b (2 * i + 1) ht) = ht) as [Hs0 Hs1] by (split; apply length_slice; nia).
  destruct (even_or_odd_block p ht Hht) as [Hc|Hc]; fold i in Hc.
  - rewrite Hc, H1. replace (2 * 2 ^ k + 2 * i)%nat with (2 * (2 ^ k + i))%nat by lia. rewrite <- gm_even by done.
    apply ceval_zip; [intros; ring | lia].
  - rewrite Hc, H2. replace (2 * 2 ^ k + (2 * i + 1))%nat with (2 * (2 ^ k + i) + 1)%nat by lia. rewrite Ho, <- gm_even by done.
    apply ceval_zip; [intros; ring | lia].
Qed.

Lemma fwd_value L a p : length a = (2 ^ L)%nat -> (p < 2 ^ L)%nat -> fwd L L a !!! p = ceval a (point (S L) p).
Proof.
  intros Ha Hp. rewrite point_is_root, <- (fwd_eval L a Ha L p) by done. rewrite Nat.sub_diag, Nat.div_1_r.
  rewrite slice_one by now rewrite (proj1 (length_states L L a (le_n _) Ha)). cbn. ring.
Qed.

(** The points are roots of X^n + 1, at which the two halves of a real polynomial make one complex one. *)
Lemma point_pow L p : (p < 2 ^ L)%nat -> Cpow (point (S L) p) (2 ^ L) = Ci.
Proof.
  intros Hp. rewrite point_is_root, complex_root_pow by lia. replace ((2 ^ L + p) / 2 ^ L)%nat with 1%nat.
  - change (root 1) with (cexp (PI / 2)). unfold cexp. now rewrite cos_PI2, sin_PI2.
  - apply (Nat.div_unique _ _ _ p); lia.
Qed.

Lemma ceval_cells hn f z : length f = (2 * hn)%nat -> Cpow z hn = Ci -> ceval (cells hn f) z = reval f z.
Proof.
  intros Hf Hz. unfold reval. rewrite <- (take_drop hn f) at 2. rewrite fmap_app, ceval_app, length_fmap, length_take_le, Hz by lia.
  assert (cells hn f = zip_with (fun u v => (u + Ci * v)%C) (of_R <$> take hn f) (of_R <$> drop hn f)) as ->.
  - apply list_eq_total; [rewrite length_cells, length_zip_with, !length_fmap, length_take, length_drop; lia|]. rewrite length_cells. intros j Hj.
    rewrite cells_lookup by done. rewrite (lookup_total_zip_with _ _ _ _) by (rewrite length_fmap, ?length_take, ?length_drop; lia).
    rewrite !(@list_lookup_total_fmap R C of_R _ _) by (rewrite ?length_take, ?length_drop; lia).
    rewrite lookup_total_take_lt, lookup_total_drop by done. unfold cget, FPC_ADD, FPC_MUL, of_R, Ci. cbn. rewrite (Nat.add_comm j hn). f_equal; ring.
  - apply ceval_zip; [intros; ring | rewrite !length_fmap, length_take, length_drop; lia].
Qed.

(** * The functions of the source *)

Lemma fft_fwd L f : length f = (2 ^ S L)%nat ->
  length (FFT f (S L)) = (2 ^ S L)%nat /\ cells (2 ^ L) (FFT f (S L)) = fwd L L (cells (2 ^ L) f).
Proof.
  intros Hf. unfold FFT. rewrite Nat.pow_succ_r' in *. rewrite (Nat.mul_comm 2), Nat.div_mul by lia.
  pose (Rel (k : nat) (s : nat * nat * list R) (_ : unit) := s.1.1 = (2 * 2 ^ k)%nat /\ s.1.2 = (2 ^ (L - k))%nat /\
    length s.2 = (2 * 2 ^ L)%nat /\ cells (2 ^ L) s.2 = fwd L k (cells (2 ^ L) f)).
  assert (Rel L (for_up 1 (1 + L) (fun _ '(m, t, f) => ((2 * m)%nat, (t / 2)%nat, fft_level (2 ^ L) m t f)) (2%nat, 2 ^ L, f)%nat)
    (for_up 1 (1 + L) (fun _ u => u) ())) as (_ & _ & Hl & Hc).
  - apply for_up_sim; [unfold Rel; cbn [fst snd fwd]; rewrite Nat.sub_0_r; repeat split; lia|].
    intros k [[m t] s] [] Hk (Hm & Ht & Hl & Hc). cbn [fst snd] in *. subst m t. unfold Rel. cbn [fst snd fwd]. rewrite <- Hc.
    split; [rewrite Nat.pow_succ_r'; lia|]. pose proof (blocks L k Hk) as HB.
    replace (L - k)%nat with (S (L - 1 - k)) by lia. replace (L - S k)%nat with (L - 1 - k)%nat by lia. rewrite Nat.pow_succ_r'.
    rewrite (Nat.mul_comm 2 (2 ^ (L - 1 - k))), Nat.div_mul by lia. split; [done|]. rewrite (Nat.mul_comm _ 2).
    replace (fft_level (2 ^ L) (2 * 2 ^ k) (2 * 2 ^ (L - 1 - k)) s) with
      (level (fun i u v => u + v * gm (2 * 2 ^ k + i))%C (fun i u v => u - v * gm (2 * 2 ^ k + i))%C (2 ^ L) (2 ^ k) (2 ^ (L - 1 - k)) s).
    + apply level_cells; lia.
    + unfold fft_level, level. now rewrite !(Nat.mul_comm 2), !Nat.div_mul by lia.
  - change (1 + L)%nat with (S L) in *. rewrite (Nat.mul_comm _ 2). split; [exact Hl | exact Hc].
Qed.

Lemma ifft_bwd L f : length f = (2 ^ S L)%nat ->
  length (iFFT f (S L)) = (2 ^ S L)%nat /\ cells (2 ^ L) (iFFT f (S L)) = smul (/ 2 ^ L) (bwd L L (cells (2 ^ L) f)).
Proof.
  intros Hf. unfold iFFT. rewrite Nat.pow_succ_r' in *. rewrite (Nat.mul_comm 2 (2 ^ L)), Nat.div_mul by lia.
  pose (Rel (k : nat) (s : nat * nat * list R) (_ : unit) := s.1.1 = (2 ^ (S L - k))%nat /\ s.1.2 = (2 ^ k)%nat /\
    length s.2 = (2 * 2 ^ L)%nat /\ cells (2 ^ L) s.2 = bwd L k (cells (2 ^ L) f)).
  assert (Rel L (for_up 1 (1 + L) (fun _ '(m, t, f) => ((m / 2)%nat, (2 * t)%nat, ifft_level (2 ^ L) m t f)) (2 ^ L * 2, 1, f)%nat)
    (for_up 1 (1 + L) (fun _ u => u) ())) as (_ & _ & Hl & Hc).
  - apply for_up_sim; [unfold Rel; cbn [fst snd bwd]; rewrite Nat.sub_0_r, Nat.pow_succ_r'; repeat split; lia|].
    intros k [[m t] s] [] Hk (Hm & Ht & Hl & Hc). cbn [fst snd] in *. subst m t. unfold Rel. cbn [fst snd bwd]. rewrite <- Hc.
    pose proof (blocks L (L - 1 - k) ltac:(lia)) as HB. replace (L - 1 - (L - 1 - k))%nat with k in HB by lia.
    replace (S L - k)%nat with (S (S (L - 1 - k))) by lia. replace (S L - S k)%nat with (S (L - 1 - k)) by lia. rewrite !Nat.pow_succ_r'.
    rewrite (Nat.mul_comm 2 (2 * _)), Nat.div_mul by lia. split; [done|]. split; [done|].
    replace (ifft_level (2 ^ L) (2 * 2 ^ (L - 1 - k) * 2) (2 ^ k) s) with
      (level (fun _ u v => u + v)%C (fun i u v => (u - v) * cconj (gm (2 * 2 ^ (L - 1 - k) + i)))%C (2 ^ L) (2 ^ (L - 1 - k)) (2 ^ k) s).
    + unfold bwd_pass. replace (L - 1 - (L - 1 - k))%nat with k by lia. apply level_cells; lia.
    + unfold ifft_level, level. rewrite Nat.div_mul by lia. replace (2 ^ L / (2 * 2 ^ k))%nat with (2 ^ (L - 1 - k))%nat; [done|].
      rewrite HB. pose proof (pow2_nat_pos k). now rewrite Nat.div_mul by lia.
  - change (1 + L)%nat with (S L) in *. cbn [Nat.ltb Nat.leb].
    set (g := (for_up 1 (S L) _ _).2) in *. rewrite (for_up_imap (fun _ x => r_mul x (p2_tab (S L)))) by lia.
    split; [now rewrite length_imap, Nat.mul_comm|]. rewrite <- Hc.
    apply list_eq_total; [now rewrite length_smul, !length_cells|]. rewrite length_cells. intros j Hj.
    rewrite smul_lookup, !cells_lookup by (rewrite ?length_cells; done). unfold cget. rewrite !lookup_total_imap by lia.
    unfold FPC_MUL, of_R. cbn. assert (2 ^ L <> 0) as Hp by (apply pow_nonzero; lra). f_equal; field; exact Hp.
Qed.

Lemma length_FFT f L : length f = (2 ^ S L)%nat -> length (FFT f (S L)) = (2 ^ S L)%nat /\ length (iFFT f (S L)) = (2 ^ S L)%nat.
Proof. intros Hf. split; [apply fft_fwd | apply ifft_bwd]; exact Hf. Qed.

Lemma ifft_fft L f : length f = (2 ^ S L)%nat -> iFFT (FFT f (S L)) (S L) = f.
Proof.
  intros Hf. destruct (fft_fwd L f Hf) as [Hl Hc]. destruct (ifft_bwd L _ Hl) as [Hl' Hc']. rewrite Nat.pow_succ_r' in *.
  apply (cells_inj (2 ^ L)); [done | done |]. rewrite Hc', Hc, bwd_fwd, smul_smul by apply length_cells.
  rewrite <- (smul_1 (cells _ f)) at 2. f_equal. apply Rinv_l, pow_nonzero. lra.
Qed.

Lemma fft_ifft L f : length f = (2 ^ S L)%nat -> FFT (iFFT f (S L)) (S L) = f.
Proof.
  intros Hf. destruct (ifft_bwd L f Hf) as [Hl Hc]. destruct (fft_fwd L _ Hl) as [Hl' Hc']. rewrite Nat.pow_succ_r' in *.
  apply (cells_inj (2 ^ L)); [done | done |]. rewrite Hc', Hc. pose proof (length_cells (2 ^ L) f) as Hlc.
  assert (forall k a, (k <= L)%nat -> length a = (2 ^ L)%nat -> fwd L k (smul (/ 2 ^ L) a) = smul (/ 2 ^ L) (fwd L k a)) as Hs.
  { induction k as [|k IH]; intros a Hk Ha; [done|]. cbn [fwd]. rewrite IH by (lia || done).
    apply passes_smul; [lia|]. apply length_states; [lia | done]. }
  rewrite Hs, fwd_bwd, smul_smul by (done || apply length_states; done). rewrite <- (smul_1 (cells _ f)) at 2. f_equal. apply Rinv_l, pow_nonzero. lra.
Qed.

Lemma fft_value L f j : length f = (2 ^ S L)%nat -> (j < 2 ^ L)%nat -> cget (2 ^ L) (FFT f (S L)) j = reval f (point (S L) j).
Proof.
  intros Hf Hj. destruct (fft_fwd L f Hf) as [Hl Hc]. rewrite <- cells_lookup, Hc, fwd_value by (done || apply length_cells).
  apply ceval_cells; [rewrite Nat.pow_succ_r' in Hf; exact Hf | now apply point_pow].
Qed.

(** * The ring R[X]/(X^n + 1) *)

Definition rshift (f : list R) : list R :=
  match f with [] => [] | _ :: _ => (- (f !!! (length f - 1)%nat)) :: take (length f - 1) f end.

Definition radd (f g : list R) : list R := zip_with Rplus f g.

(** The product, by Horner's rule. *)
Fixpoint rmul (n : nat) (f g : list R) : list R :=
  match f with
  | [] => replicate n 0
  | c :: f => radd (Rmult c <$> g) (rshift (rmul n f g))
  end.

(** The adjoint f(1/X): f[0], -f[n-1], ..., -f[1]. *)
Definition radj (f : list R) : list R :=
  match f with [] => [] | c :: f => c :: rev (Ropp <$> f) end.

Lemma reval_cons c f z : reval (c :: f) z = (of_R c + z * reval f z)%C.
Proof. done. Qed.

Lemma reval_app f g z : reval (f ++ g) z = (reval f z + Cpow z (length f) * reval g z)%C.
Proof. unfold reval. now rewrite fmap_app, ceval_app, length_fmap. Qed.

Lemma of_R_add x y : of_R (x + y) = (of_R x + of_R y)%C.
Proof. unfold of_R, FPC_ADD. cbn. f_equal. ring. Qed.

Lemma of_R_mul x y : of_R (x * y) = (of_R x * of_R y)%C.
Proof. unfold of_R, FPC_MUL. cbn. f_equal; ring. Qed.

Lemma of_R_opp x : of_R (- x) = (- of_R x)%C.
Proof. unfold of_R, Copp. cbn. f_equal. ring. Qed.

Lemma reval_radd f : forall g z, length f = length g -> reval (radd f g) z = (reval f z + reval g z)%C.
Proof.
  induction f as [|c f IH]; intros [|d g] z Hl; try done; [cbn; unfold FPC_ADD; cbn; f_equal; ring|].
  change (radd (c :: f) (d :: g)) with (c + d :: radd f g). rewrite !reval_cons, IH, of_R_add by (cbn in Hl; lia). ring.
Qed.

Lemma reval_scale c f z : reval (Rmult c <$> f) z = (of_R c * reval f z)%C.
Proof.
  induction f as [|d f IH]; [cbn; ring|]. change (Rmult c <$> d :: f) with (c * d :: (Rmult c <$> f)). rewrite !reval_cons, IH, of_R_mul. ring.
Qed.

Lemma reval_zeros n z : reval (replicate n 0) z = C0.
Proof. induction n as [|n IH]; [done|]. cbn [replicate]. rewrite reval_cons, IH. change (of_R 0) with C0. ring. Qed.

Lemma reval_rshift f z : Cpow z (length f) = (- C1)%C -> reval (rshift f) z = (z * reval f z)%C.
Proof.
  destruct f as [|c f] using rev_ind; [cbn; intros _; ring|]. clear IHf. intros Hz. rewrite length_app in Hz. cbn [length] in Hz.
  assert (rshift (f ++ [c]) = - c :: f) as ->.
  { unfold rshift. rewrite length_app. cbn [length]. rewrite Nat.add_sub. destruct (f ++ [c]) eqn:E; [now destruct f|]. rewrite <- E.
    rewrite lookup_total_app_r, Nat.sub_diag, take_app_length by lia. done. }
  rewrite reval_cons, reval_app, of_R_opp. cbn [reval fmap list_fmap]. change (reval [c] z) with (of_R c + z * C0)%C.
  rewrite Cpow_add in Hz. cbn [Cpow] in Hz. transitivity (z * reval f z + of_R c * (Cpow z (length f) * (z * C1)))%C; [rewrite Hz; ring | ring].
Qed.

Lemma length_rshift f : length (rshift f) = length f.
Proof. destruct f as [|c f]; [done|]. cbn [rshift length]. rewrite length_take. cbn. lia. Qed.

Lemma length_rmul n f g : length g = n -> length (rmul n f g) = n.
Proof.
  intros Hg. induction f as [|c f IH]; cbn [rmul]; [apply length_replicate|].
  unfold radd. rewrite length_zip_with, length_fmap, length_rshift, IH. lia.
Qed.

Lemma reval_rmul n f g z : length g = n -> Cpow z n = (- C1)%C -> reval (rmul n f g) z = (reval f z * reval g z)%C.
Proof.
  intros Hg Hz. induction f as [|c f IH]; cbn [rmul]; [rewrite reval_zeros; change (reval [] z) with C0; ring|].
  pose proof (length_rmul n f g Hg) as Hl. rewrite reval_radd, reval_scale, reval_rshift, IH, reval_cons by (rewrite ?length_fmap, ?length_rshift, ?Hl; done). ring.
Qed.

(** * Conjugation *)

Lemma cconj_add z w : cconj (z + w)%C = (cconj z + cconj w)%C.
Proof. unfold cconj, FPC_ADD. cbn. f_equal. ring. Qed.

Lemma cconj_mul z w : cconj (z * w)%C = (cconj z * cconj w)%C.
Proof. unfold cconj, FPC_MUL. cbn. f_equal; ring. Qed.

Lemma cconj_involutive z : cconj (cconj z) = z.
Proof. destruct z as [x y]. unfold cconj. cbn. f_equal. ring. Qed.

Lemma cconj_reval f z : cconj (reval f z) = reval f (cconj z).
Proof.
  induction f as [|c f IH]; [unfold cconj, reval; cbn; unfold C0; f_equal; ring|]. rewrite !reval_cons, cconj_add, cconj_mul, IH. f_equal.
  unfold cconj, of_R. cbn. f_equal. ring.
Qed.

Lemma Cpow_1 n : Cpow C1 n = C1.
Proof. induction n as [|n IH]; cbn [Cpow]; [|rewrite IH]; ring. Qed.

Lemma Cpow_mul z w n : Cpow (z * w)%C n = (Cpow z n * Cpow w n)%C.
Proof. induction n as [|n IH]; cbn [Cpow]; [|rewrite IH]; ring. Qed.

(** On the unit circle the conjugate is the inverse. *)
Lemma reval_rev f z : (z * cconj z)%C = C1 -> (Cpow z (length f) * reval f (cconj z))%C = (z * reval (rev f) z)%C.
Proof.
  intros Hz. induction f as [|c f IH]; [cbn; ring|]. cbn [rev length Cpow]. rewrite reval_cons, reval_app, length_rev.
  change (reval [c] z) with (of_R c + z * C0)%C.
  transitivity (z * Cpow z (length f) * of_R c + (z * cconj z) * (Cpow z (length f) * reval f (cconj z)))%C; [ring|]. rewrite Hz, IH. ring.
Qed.

Lemma reval_opp f z : reval (Ropp <$> f) z = (- reval f z)%C.
Proof.
  induction f as [|c f IH]; [cbn; ring|]. change (Ropp <$> c :: f) with (- c :: (Ropp <$> f)). rewrite !reval_cons, IH, of_R_opp. ring.
Qed.

Lemma length_radj f : length (radj f) = length f.
Proof. destruct f as [|c f]; [done|]. cbn [radj length]. now rewrite length_rev, length_fmap. Qed.

Lemma reval_radj f z : (z * cconj z)%C = C1 -> Cpow z (length f) = (- C1)%C -> reval (radj f) z = cconj (reval f z).
Proof.
  intros Hu Hz. rewrite cconj_reval. destruct f as [|c f]; [done|]. cbn [radj length Cpow] in *. rewrite !reval_cons.
  pose proof (reval_rev (Ropp <$> f) z Hu) as H. rewrite reval_opp, length_fmap in H.
  assert (Cpow z (length f) = - cconj z)%C as Hp.
  { transitivity ((z * cconj z) * Cpow z (length f))%C; [rewrite Hu; ring|]. transitivity (cconj z * (z * Cpow z (length f)))%C; [ring|]. rewrite Hz. ring. }
  rewrite Hp in H. f_equal. rewrite <- H. ring.
Qed.

(** * Operations on transformed polynomials *)

Lemma cell_loop (H : nat -> C -> C) hn f : length f = (2 * hn)%nat ->
  let r := for_up 0 hn (fun u a => cset hn u (H u (cget hn a u)) a) f in
  length r = (2 * hn)%nat /\ forall u, (u < hn)%nat -> cget hn r u = H u (cget hn f u).
Proof.
  intros Hf. cbv zeta.
  pose (P (k : nat) (r : list R) := length r = (2 * hn)%nat /\ (forall u, (u < k)%nat -> cget hn r u = H u (cget hn f u)) /\
    (forall u, (k <= u < hn)%nat -> cget hn r u = cget hn f u)).
  assert (P hn (for_up 0 hn (fun u a => cset hn u (H u (cget hn a u)) a) f)) as (Hl & H1 & _); [|split; [exact Hl | exact H1]].
  apply for_up_inv; [lia | by repeat split; intros; lia |]. intros k r Hk (Hl & H1 & H2). split; [now rewrite length_cset|]. split.
  - intros u Hu. rewrite cget_cset by lia. destruct (decide (k = u)) as [->|Hne]; [now rewrite H2 by lia | apply H1; lia].
  - intros u Hu. rewrite cget_cset by lia. destruct (decide (k = u)); [lia|]. apply H2. lia.
Qed.

Lemma hn_pow L : (2 ^ S L / 2)%nat = (2 ^ L)%nat.
Proof. rewrite Nat.pow_succ_r', Nat.mul_comm. now apply Nat.div_mul. Qed.

(** An array is the transform of [f] when its numbers are the values of [f]. *)
Lemma fft_unique L f g : length f = (2 ^ S L)%nat -> length g = (2 ^ S L)%nat ->
  (forall u, (u < 2 ^ L)%nat -> cget (2 ^ L) g u = reval f (point (S L) u)) -> g = FFT f (S L).
Proof.
  intros Hf Hg H. destruct (length_FFT f L Hf) as [Hl _]. rewrite Nat.pow_succ_r' in Hg, Hl. apply (cells_inj (2 ^ L)); [done | done |].
  apply list_eq_total; [now rewrite !length_cells|]. rewrite length_cells. intros u Hu.
  now rewrite !cells_lookup, H, fft_value.
Qed.

Lemma point_circle L u : (u < 2 ^ L)%nat ->
  (point (S L) u * cconj (point (S L) u))%C = C1 /\ Cpow (point (S L) u) (2 ^ S L) = (- C1)%C.
Proof.
  intros Hu. split; [apply cexp_unit|]. rewrite Nat.pow_succ_r'. replace (2 * 2 ^ L)%nat with (2 ^ L + 2 ^ L)%nat by lia.
  rewrite Cpow_add, point_pow by done. unfold FPC_MUL, Ci, C1, Copp. cbn. f_equal; ring.
Qed.

Section Operations.
Context (L : nat) (f g : list R) (Hf : length f = (2 ^ S L)%nat) (Hg : length g = (2 ^ S L)%nat).
Abbreviation logn := (S L).
Abbreviation z u := (point logn u).

Lemma operand h : length h = (2 ^ S L)%nat -> length (FFT h logn) = (2 * 2 ^ L)%nat.
Proof. intros Hh. now destruct (length_FFT h L Hh). Qed.

(** A loop on cells transforms [h] when each cell gets the value of [h]. *)
Lemma cell_loop_fft (H : nat -> C -> C) h : length h = (2 ^ S L)%nat ->
  (forall u, (u < 2 ^ L)%nat -> H u (reval f (z u)) = reval h (z u)) ->
  for_up 0 (2 ^ S L / 2) (fun u a => cset (2 ^ S L / 2) u (H u (cget (2 ^ S L / 2) a u)) a) (FFT f logn) = FFT h logn.
Proof using Hf.
  intros Hh HH. rewrite hn_pow. destruct (cell_loop H (2 ^ L) (FFT f logn) (operand f Hf)) as [Hl Hc]. cbv zeta in Hl, Hc.
  apply fft_unique; [done | rewrite Hl; now rewrite Nat.pow_succ_r' |]. intros u Hu. now rewrite Hc, fft_value, HH.
Qed.

Lemma poly_add_fft : poly_add (FFT f logn) (FFT g logn) logn = FFT (radd f g) logn.
Proof using Hf Hg.
  unfold poly_add. pose proof (operand f Hf) as Hlf. pose proof (operand g Hg) as Hlg.
  rewrite (for_up_imap (fun u x => r_add x (FFT g logn !!! u))) by (rewrite Hlf; now rewrite Nat.pow_succ_r').
  assert (length (radd f g) = (2 ^ S L)%nat) as Hr by (unfold radd; rewrite length_zip_with; lia).
  apply fft_unique; [done | now rewrite length_imap |]. intros u Hu. rewrite reval_radd, <- !fft_value by (done || lia).
  unfold cget, FPC_ADD. cbn. now rewrite !lookup_total_imap by lia.
Qed.

Lemma poly_mul_fft_product : poly_mul_fft (FFT f logn) (FFT g logn) logn = FFT (rmul (2 ^ logn) f g) logn.
Proof using Hf Hg.
  apply (cell_loop_fft (fun u x => FPC_MUL x (cget _ (FFT g logn) u))); [now apply length_rmul|]. intros u Hu.
  rewrite hn_pow, fft_value, reval_rmul by (done || now apply point_circle). done.
Qed.

Lemma poly_muladj_fft_product : poly_muladj_fft (FFT f logn) (FFT g logn) logn = FFT (rmul (2 ^ logn) f (radj g)) logn.
Proof using Hf Hg.
  assert (length (radj g) = (2 ^ logn)%nat) as Hj by now rewrite length_radj.
  apply (cell_loop_fft (fun u x => FPC_MUL x (cconj (cget _ (FFT g logn) u)))); [now apply length_rmul|]. intros u Hu.
  destruct (point_circle L u Hu) as [H1 H2]. rewrite hn_pow, fft_value, reval_rmul, reval_radj by (done || now rewrite Hg). done.
Qed.

Lemma poly_mulselfadj_fft_product : poly_mulselfadj_fft (FFT f logn) logn = FFT (rmul (2 ^ logn) f (radj f)) logn.
Proof using Hf.
  assert (length (radj f) = (2 ^ logn)%nat) as Hj by now rewrite length_radj.
  rewrite <- (cell_loop_fft (fun _ x => (r_add (r_sqr x.1) (r_sqr x.2), r_zero)) (rmul (2 ^ logn) f (radj f))).
  - unfold poly_mulselfadj_fft. apply for_up_ext. intros u a _. now destruct (cget _ a u).
  - now apply length_rmul.
  - intros u Hu. destruct (point_circle L u Hu) as [H1 H2]. rewrite reval_rmul, reval_radj by (done || now rewrite Hf).
    unfold FPC_MUL, cconj. cbn. f_equal; ring.
Qed.

Lemma poly_adj_fft_adjoint : poly_adj_fft (FFT f logn) logn = FFT (radj f) logn.
Proof using Hf.
  clear Hg. unfold poly_adj_fft. rewrite hn_pow. pose proof (operand f Hf) as Hlf. rewrite Nat.pow_succ_r' in *.
  pose (P (k : nat) (a : list R) := length a = (2 * 2 ^ L)%nat /\
    forall p, (p < 2 * 2 ^ L)%nat -> a !!! p = if decide (2 ^ L <= p < k)%nat then - (FFT f logn !!! p) else FFT f logn !!! p).
  assert (P (2 * 2 ^ L)%nat (for_up (2 ^ L) (2 * 2 ^ L) (fun u a => <[u := r_neg (a !!! u)]> a) (FFT f logn))) as [Hl Hp].
  { apply for_up_inv; [lia | split; [exact Hlf | intros p _; now rewrite decide_False by lia] |].
    intros k a Hk [Hl Hp]. split; [now rewrite length_insert|]. intros p Hpl. destruct (decide (k = p)) as [->|Hne].
    - rewrite list_lookup_total_insert_eq, Hp, decide_False, decide_True by lia. done.
    - rewrite list_lookup_total_insert_ne, Hp by lia. destruct (decide (2 ^ L <= p < k)%nat), (decide (2 ^ L <= p < S k)%nat); done || lia. }
  apply fft_unique; [now rewrite length_radj, Nat.pow_succ_r' | now rewrite Nat.pow_succ_r' |]. intros u Hu.
  destruct (point_circle L u Hu) as [H1 H2]. rewrite reval_radj, <- fft_value by (rewrite ?Hf, ?Nat.pow_succ_r' in *; done).
  unfold cget, cconj. cbn [fst snd]. rewrite !Hp, decide_False, decide_True by lia. done.
Qed.

(** Division: where the divisor vanishes nowhere. *)
Lemma cdiv x y : y <> C0 -> (FPC_DIV x y * y)%C = x.
Proof.
  intros Hy. destruct x as [xr xi], y as [yr yi]. assert (yr * yr + yi * yi <> 0) as Hn.
  { intros H. apply Hy. assert (yr = 0) by nra. assert (yi = 0) by nra. now subst. }
  unfold FPC_DIV, FPC_MUL. cbn. f_equal; field; exact Hn.
Qed.

Lemma poly_div_fft_quotient : (forall u, (u < 2 ^ L)%nat -> reval g (z u) <> C0) ->
  rmul (2 ^ logn) (iFFT (poly_div_fft (FFT f logn) (FFT g logn) logn) logn) g = f.
Proof using Hf Hg.
  intros Hnz. pose proof (operand f Hf) as Hlf.
  destruct (cell_loop (fun u x => FPC_DIV x (cget (2 ^ L) (FFT g logn) u)) (2 ^ L) (FFT f logn) Hlf) as [Hl Hc]. cbv zeta in Hl, Hc.
  unfold poly_div_fft. rewrite hn_pow. set (q := for_up _ _ _ _) in *. rewrite <- Nat.pow_succ_r' in Hl.
  destruct (length_FFT q L Hl) as [_ Hli]. rewrite <- (ifft_fft L (rmul _ _ _)) by now apply length_rmul. transitivity (iFFT (FFT f logn) logn); [|now apply ifft_fft].
  f_equal. symmetry. apply fft_unique; [now apply length_rmul | now rewrite Hlf, Nat.pow_succ_r' |]. intros u Hu.
  destruct (point_circle L u Hu) as [_ H2]. rewrite reval_rmul, <- !fft_value, fft_ifft, Hc by done. symmetry. apply cdiv. rewrite fft_value by done. now apply Hnz.
Qed.
End Operations.

(** A polynomial is determined by its values at the points. *)
Lemma values_determine L f g : length f = (2 ^ S L)%nat -> length g = (2 ^ S L)%nat ->
  (forall u, (u < 2 ^ L)%nat -> reval f (point (S L) u) = reval g (point (S L) u)) -> f = g.
Proof.
  intros Hf Hg H. rewrite <- (ifft_fft L f), <- (ifft_fft L g) by done. f_equal. apply fft_unique; [done | now apply length_FFT |].
  intros u Hu. now rewrite fft_value, H.
Qed.

(** * Even and odd coefficients *)

Fixpoint uninterleave (f : list R) : list R * list R :=
  match f with [] => ([], []) | c :: f => let '(e, o) := uninterleave f in (c :: o, e) end.

Lemma length_uninterleave f : length (uninterleave f).1 = ((length f + 1) / 2)%nat /\ length (uninterleave f).2 = (length f / 2)%nat.
Proof.
  induction f as [|c f [IH1 IH2]]; [done|]. cbn [uninterleave]. destruct (uninterleave f) as [e o]. cbn [fst snd length] in *. split.
  - rewrite IH2. replace (S (length f) + 1)%nat with (length f + 1 * 2)%nat by lia. rewrite Nat.div_add; lia.
  - rewrite IH1. f_equal. lia.
Qed.

Lemma length_uninterleave_pow f L : length f = (2 ^ S L)%nat -> length (uninterleave f).1 = (2 ^ L)%nat /\ length (uninterleave f).2 = (2 ^ L)%nat.
Proof.
  intros Hf. destruct (length_uninterleave f) as [-> ->]. rewrite Hf, Nat.pow_succ_r'. split.
  - symmetry. apply (Nat.div_unique _ _ _ 1); lia.
  - rewrite Nat.mul_comm. now apply Nat.div_mul.
Qed.

Lemma reval_uninterleave f z : reval f z = (reval (uninterleave f).1 (z * z) + z * reval (uninterleave f).2 (z * z))%C.
Proof.
  induction f as [|c f IH]; [cbn; ring|]. rewrite reval_cons, IH. cbn [uninterleave]. destruct (uninterleave f) as [e o]. cbn [fst snd]. rewrite reval_cons. ring.
Qed.

(** The points of the halves are the squares of those of the whole. *)
Lemma point_halves L u : (u < 2 ^ L)%nat ->
  gm (u + 2 ^ S L) = point (S (S L)) (2 * u) /\ point (S (S L)) (2 * u + 1) = (- point (S (S L)) (2 * u))%C /\
  (point (S (S L)) (2 * u) * point (S (S L)) (2 * u))%C = point (S L) u.
Proof.
  intros Hu. rewrite !point_is_root by (rewrite ?Nat.pow_succ_r'; lia). rewrite Nat.pow_succ_r'.
  replace (u + 2 * 2 ^ L)%nat with (2 * 2 ^ L + u)%nat by lia. rewrite gm_even by done.
  replace (2 * 2 ^ L + 2 * u)%nat with (2 * (2 ^ L + u))%nat by lia. replace (2 * 2 ^ L + (2 * u + 1))%nat with (2 * (2 ^ L + u) + 1)%nat by lia.
  destruct (root_children (2 ^ L + u) ltac:(pose proof (pow2_nat_pos L); lia)) as [H1 H2]. done.
Qed.

Lemma fft_values_halves L f u : length f = (2 ^ S (S L))%nat -> (u < 2 ^ L)%nat ->
  let e := reval (uninterleave f).1 (point (S L) u) in
  let o := reval (uninterleave f).2 (point (S L) u) in
  cget (2 ^ S L) (FFT f (S (S L))) (2 * u) = (e + gm (u + 2 ^ S L) * o)%C /\
  cget (2 ^ S L) (FFT f (S (S L))) (2 * u + 1) = (e - gm (u + 2 ^ S L) * o)%C.
Proof.
  intros Hf Hu. cbv zeta. destruct (point_halves L u Hu) as (-> & H1 & H2). rewrite !fft_value, H1, !(reval_uninterleave f) by (done || rewrite Nat.pow_succ_r'; lia).
  set (w := point (S (S L)) (2 * u)) in *. replace (- w * - w)%C with (w * w)%C by ring. rewrite H2. split; ring.
Qed.

Lemma half_cells (x y : C) : (x = y + y)%C -> (r_half x.1, r_half x.2) = y.
Proof. intros ->. destruct y as [a b]. cbn. f_equal; field. Qed.

Lemma poly_split_fft_halves L f a0 a1 : length f = (2 ^ S L)%nat -> length a0 = (2 ^ L)%nat -> length a1 = (2 ^ L)%nat ->
  poly_split_fft a0 a1 (FFT f (S L)) (S L) = (FFT (uninterleave f).1 L, FFT (uninterleave f).2 L).
Proof.
  intros Hf H0 H1. destruct (length_uninterleave_pow f L Hf) as [He Ho]. destruct L as [|L].
  - destruct f as [|x [|y [|]]]; try done. destruct a0 as [|? [|]]; try done. destruct a1 as [|? [|]]; try done.
  - unfold poly_split_fft. rewrite !hn_pow, for_up_pair. set (b0 := <[_ := _]> a0). set (b1 := <[_ := _]> a1).
    assert (length b0 = (2 * 2 ^ L)%nat /\ length b1 = (2 * 2 ^ L)%nat) as [Hb0 Hb1] by (unfold b0, b1; now rewrite !length_insert, <- Nat.pow_succ_r').
    set (c0 u := let t := FPC_ADD (cget (2 ^ S L) (FFT f (S (S L))) (2 * u + 0)) (cget (2 ^ S L) (FFT f (S (S L))) (2 * u + 1)) in (r_half t.1, r_half t.2)).
    set (c1 u := let t := FPC_MUL (FPC_SUB (cget (2 ^ S L) (FFT f (S (S L))) (2 * u + 0)) (cget (2 ^ S L) (FFT f (S (S L))) (2 * u + 1))) (cconj (gm (u + 2 ^ S L))) in (r_half t.1, r_half t.2)).
    destruct (cell_loop (fun u _ => c0 u) (2 ^ L) b0 Hb0) as [Hl0 Hc0], (cell_loop (fun u _ => c1 u) (2 ^ L) b1 Hb1) as [Hl1 Hc1].
    cbv zeta in Hl0, Hl1, Hc0, Hc1. f_equal; (apply fft_unique; [done | now rewrite Nat.pow_succ_r' |]); intros u Hu.
    + refine (eq_trans (Hc0 u Hu) _). apply half_cells. rewrite Nat.add_0_r. destruct (fft_values_halves L f u Hf Hu) as [-> ->]. ring.
    + refine (eq_trans (Hc1 u Hu) _). apply half_cells. rewrite Nat.add_0_r. destruct (fft_values_halves L f u Hf Hu) as [-> ->].
      set (o := reval (uninterleave f).2 _). set (w := gm _). transitivity ((o + o) * (w * cconj w))%C; [ring|]. unfold w. rewrite gm_unit. ring.
Qed.

Lemma poly_merge_fft_halves L f b : length f = (2 ^ S L)%nat -> length b = (2 ^ S L)%nat ->
  poly_merge_fft b (FFT (uninterleave f).1 L) (FFT (uninterleave f).2 L) (S L) = FFT f (S L).
Proof.
  intros Hf Hb. destruct (length_uninterleave_pow f L Hf) as [He Ho]. destruct L as [|L].
  - destruct f as [|x [|y [|]]]; try done. destruct b as [|? [|? [|]]]; done.
  - unfold poly_merge_fft. rewrite !hn_pow. set (b' := <[_ := _]> (<[_ := _]> b)).
    assert (length b' = (2 * 2 ^ S L)%nat) as Hb' by (unfold b'; now rewrite !length_insert, <- Nat.pow_succ_r').
    match goal with |- for_up 0 _ ?B b' = _ => set (body := B) end.
    pose (P (k : nat) (r : list R) := length r = (2 * 2 ^ S L)%nat /\ forall v, (v < 2 * k)%nat -> cget (2 ^ S L) r v = cget (2 ^ S L) (FFT f (S (S L))) v).
    assert (P (2 ^ L)%nat (for_up 0 (2 ^ L) body b')) as [Hl Hc].
    { apply for_up_inv; [lia | split; [exact Hb' | intros; lia] |]. intros k r Hk [Hl Hc]. pose proof (Nat.pow_succ_r' 2 L) as HL.
      unfold body. rewrite Nat.add_0_r. split; [now rewrite !length_cset|]. intros v Hv.
      destruct (fft_values_halves L f k Hf ltac:(lia)) as [V0 V1]. rewrite <- !fft_value in V0, V1 by (done || lia).
      rewrite !cget_cset by (rewrite ?length_cset; lia).
      destruct (decide (2 * k + 1 = v)%nat) as [<-|]; [rewrite V1; ring|]. destruct (decide (2 * k = v)%nat) as [<-|]; [rewrite V0; ring|]. apply Hc. lia. }
    assert (length (for_up 0 (2 ^ L) body b') = 2 ^ S (S L))%nat as Hl' by now rewrite (Nat.pow_succ_r' 2 (S L)).
    apply fft_unique; [done | exact Hl' |]. intros u Hu. rewrite Hc by (rewrite Nat.pow_succ_r' in Hu; exact Hu). now apply fft_value.
Qed.

(** * The LDL decomposition *)

Lemma ldl_cells g00 g01 g11 : cconj g00 = g00 -> g00 <> C0 ->
  let '(l10, d11) := ldl_step g00 g01 g11 in
  (l10 * g00)%C = cconj g01 /\ (d11 + l10 * cconj l10 * g00)%C = g11.
Proof.
  intros Hr Hnz. unfold ldl_step. set (mu := FPC_DIV g01 g00). pose proof (cdiv g01 g00 Hnz) as Hmu. fold mu in Hmu.
  assert (cconj mu * g00 = cconj g01)%C as Hc by (rewrite <- Hr, <- cconj_mul, Hmu; done). split; [exact Hc|].
  rewrite cconj_involutive, <- Hc. ring.
Qed.

Lemma poly_LDL_loop hn g00 g01 g11 : length g01 = (2 * hn)%nat -> length g11 = (2 * hn)%nat ->
  let '(l10, d11) := for_up 0 hn (fun u '(g01, g11) =>
    let '(l10, d11) := ldl_step (cget hn g00 u) (cget hn g01 u) (cget hn g11 u) in
    (cset hn u l10 g01, cset hn u d11 g11)) (g01, g11) in
  length l10 = (2 * hn)%nat /\ length d11 = (2 * hn)%nat /\
  forall u, (u < hn)%nat -> (cget hn l10 u, cget hn d11 u) = ldl_step (cget hn g00 u) (cget hn g01 u) (cget hn g11 u).
Proof.
  intros H1 H2. match goal with |- let '(_, _) := ?r in _ => assert (exists s, r = s /\ length s.1 = (2 * hn)%nat /\ length s.2 = (2 * hn)%nat /\
    (forall u, (u < hn)%nat -> (cget hn s.1 u, cget hn s.2 u) = ldl_step (cget hn g00 u) (cget hn g01 u) (cget hn g11 u))) as ([l d] & -> & H) end.
  - eexists. split; [reflexivity|].
    pose (P (k : nat) (s : list R * list R) := length s.1 = (2 * hn)%nat /\ length s.2 = (2 * hn)%nat /\
      (forall u, (u < k)%nat -> (cget hn s.1 u, cget hn s.2 u) = ldl_step (cget hn g00 u) (cget hn g01 u) (cget hn g11 u)) /\
      (forall u, (k <= u < hn)%nat -> cget hn s.1 u = cget hn g01 u /\ cget hn s.2 u = cget hn g11 u)).
    match goal with |- length ?r.1 = _ /\ _ => enough (P hn r) as (? & ? & ? & _) by done end.
    apply for_up_inv; [lia | split; [done|]; split; [done|]; split; [intros; lia | done] |]. intros k [l d] Hk (L1 & L2 & Hd & Hu). cbn [fst snd] in *.
    destruct (Hu k ltac:(lia)) as [-> ->]. destruct (ldl_step _ _ _) as [l' d'] eqn:E. unfold P. cbn [fst snd]. rewrite !length_cset.
    split; [exact L1|]. split; [exact L2|]. split; intros u Hu'; rewrite !cget_cset by lia; destruct (decide (k = u)) as [<-|Hne]; try lia; [now rewrite E | apply Hd; lia | apply Hu; lia].
  - exact H.
Qed.

Lemma poly_LDL_fft_decomposes L G00 G01 G11 :
  length G00 = (2 ^ S L)%nat -> length G01 = (2 ^ S L)%nat -> length G11 = (2 ^ S L)%nat -> radj G00 = G00 ->
  (forall u, (u < 2 ^ L)%nat -> reval G00 (point (S L) u) <> C0) ->
  let '(l10, d11) := poly_LDL_fft (FFT G00 (S L)) (FFT G01 (S L)) (FFT G11 (S L)) (S L) in
  let L10 := iFFT l10 (S L) in
  let D11 := iFFT d11 (S L) in
  rmul (2 ^ S L) L10 G00 = radj G01 /\ radd D11 (rmul (2 ^ S L) (rmul (2 ^ S L) L10 (radj L10)) G00) = G11.
Proof.
  intros H00 H01 H11 Hs Hnz. unfold poly_LDL_fft. rewrite hn_pow.
  pose proof (poly_LDL_loop (2 ^ L) (FFT G00 (S L)) (FFT G01 (S L)) (FFT G11 (S L)) (operand L G01 H01) (operand L G11 H11)) as H.
  destruct (for_up _ _ _ _) as [l d]. destruct H as (Hl & Hd & Hc). rewrite <- Nat.pow_succ_r' in Hl, Hd. cbv zeta.
  destruct (length_FFT l L Hl) as [_ Hli], (length_FFT d L Hd) as [_ Hdi].
  assert (forall u, (u < 2 ^ L)%nat -> let z := point (S L) u in let a := reval (iFFT l (S L)) z in
    (a * reval G00 z)%C = cconj (reval G01 z) /\ (reval (iFFT d (S L)) z + a * cconj a * reval G00 z)%C = reval G11 z) as Hcells.
  { intros u Hu. cbv zeta. specialize (Hc u Hu). rewrite !fft_value in Hc by done. destruct (point_circle L u Hu) as [P1 P2].
    rewrite <- !(fft_value L (iFFT _ _)), !fft_ifft by done.
    pose proof (ldl_cells (reval G00 (point (S L) u)) (reval G01 (point (S L) u)) (reval G11 (point (S L) u))) as HL.
    rewrite <- Hc in HL. apply HL; [|now apply Hnz]. rewrite <- reval_radj, Hs by (rewrite ?H00; done). done. }
  assert (length (radj G01) = (2 ^ S L)%nat /\ length (radj (iFFT l (S L))) = (2 ^ S L)%nat) as [Hj1 Hj2] by (now rewrite !length_radj).
  split; (apply (values_determine L); [| done |]).
  - now apply length_rmul.
  - intros u Hu. destruct (point_circle L u Hu) as [P1 P2]. rewrite reval_rmul, (reval_radj G01) by (rewrite ?H01; done). now apply Hcells.
  - unfold radd. rewrite length_zip_with, length_rmul by done. lia.
  - intros u Hu. destruct (point_circle L u Hu) as [P1 P2]. rewrite reval_radd, !reval_rmul, reval_radj by (rewrite ?length_rmul, ?Hli; done). now apply Hcells.
Qed.

(** The comment of the source has the value at exp(3 i pi / 4) in slot 1 for four coefficients; the transform of
    X has exp(5 i pi / 4) there. *)
Lemma fft_order_differs :
  cget 2 (FFT [0; 1; 0; 0] 2) 1 = cexp (5 * PI / 4) /\ reval [0; 1; 0; 0] (cexp (3 * PI / 4)) = cexp (3 * PI / 4) /\ cexp (5 * PI / 4) <> cexp (3 * PI / 4).
Proof.
  assert (forall z, reval [0; 1; 0; 0] z = z) as X by (intros [x y]; unfold reval, ceval, of_R, FPC_ADD, FPC_MUL; cbn; f_equal; ring).
  split; [|split; [apply X|]].
  - pose proof (fft_value 1 [0; 1; 0; 0] 1 ltac:(reflexivity) ltac:(cbn; lia)) as H. cbn [Nat.pow Nat.mul Nat.add] in H. rewrite H, X. unfold point. f_equal.
    change (bit_reverse (2 - 1) 1) with 1%nat. cbn [Nat.mul Nat.add INR pow]. lra.
  - intros H. apply (f_equal snd) in H. cbn in H. assert (0 < sin (3 * PI / 4)) by (apply sin_gt_0; pose proof PI_RGT_0; lra).
    assert (sin (5 * PI / 4) < 0) by (apply sin_lt_0; pose proof PI_RGT_0; lra). lra.
Qed.

(** * What the transform promises *)

(** C16 (equivalence).  In exact arithmetic the Fast Fourier Transform of a real polynomial of 2^logn
    coefficients is its evaluation: the complex number of index j is the value at
    exp(i pi (4 rev(j) + 1) / 2^logn), rev(j) being j with its logn - 1 bits reversed; and the inverse transform
    undoes it, on both sides.  The order is that of the code: the comment above [FFT] in the source puts the
    value at exp(i pi (2 k + 1) / 2^logn) in the slot whose reversed index is k, which is another point unless
    k = 0 ([fft_order_differs]). *)
Theorem fft_correct logn (f : list R) :
  (1 <= logn)%nat -> length f = (2 ^ logn)%nat ->
  (forall j, (j < 2 ^ logn / 2)%nat -> cget (2 ^ logn / 2) (FFT f logn) j = reval f (point logn j)) /\
  iFFT (FFT f logn) logn = f /\ FFT (iFFT f logn) logn = f.
Proof.
  intros Hlogn Hf. destruct logn as [|L]; [lia|]. rewrite hn_pow. split; [intros; now apply fft_value|]. split; [now apply ifft_fft | now apply fft_ifft].
Qed.

Lemma fft_correct_witness : length [1; 2; 3; 4] = (2 ^ 2)%nat /\ iFFT (FFT [1; 2; 3; 4] 2) 2 = [1; 2; 3; 4] /\
  cget 2 (FFT [1; 2; 3; 4] 2) 1 = reval [1; 2; 3; 4] (point 2 1).
Proof.
  destruct (fft_correct 2 [1; 2; 3; 4] ltac:(lia) ltac:(reflexivity)) as (H1 & H2 & _).
  split; [reflexivity|]. split; [exact H2 | apply (H1 1%nat); cbn; lia].
Defined.

(** C17 (equivalence).  In exact arithmetic the operations on transformed polynomials are those of the ring
    R[X]/(X^n + 1): sum, product, adjoint, product by an adjoint, quotient (when the divisor has no zero among
    the points), and the decomposition L D L* of a self-adjoint 2 x 2 matrix. *)
Theorem fft_ring_correct logn (f g h : list R) :
  (1 <= logn)%nat -> length f = (2 ^ logn)%nat -> length g = (2 ^ logn)%nat -> length h = (2 ^ logn)%nat ->
  poly_add (FFT f logn) (FFT g logn) logn = FFT (radd f g) logn /\
  poly_mul_fft (FFT f logn) (FFT g logn) logn = FFT (rmul (2 ^ logn) f g) logn /\
  poly_adj_fft (FFT f logn) logn = FFT (radj f) logn /\
  poly_muladj_fft (FFT f logn) (FFT g logn) logn = FFT (rmul (2 ^ logn) f (radj g)) logn /\
  poly_mulselfadj_fft (FFT f logn) logn = FFT (rmul (2 ^ logn) f (radj f)) logn /\
  ((forall u, (u < 2 ^ logn / 2)%nat -> reval g (point logn u) <> C0) ->
   rmul (2 ^ logn) (iFFT (poly_div_fft (FFT f logn) (FFT g logn) logn) logn) g = f /\
   (radj g = g ->
    let '(l10, d11) := poly_LDL_fft (FFT g logn) (FFT f logn) (FFT h logn) logn in
    rmul (2 ^ logn) (iFFT l10 logn) g = radj f /\
    radd (iFFT d11 logn) (rmul (2 ^ logn) (rmul (2 ^ logn) (iFFT l10 logn) (radj (iFFT l10 logn))) g) = h)).
Proof.
  intros Hlogn Hf Hg Hh. destruct logn as [|L]; [lia|]. rewrite hn_pow.
  split; [now apply poly_add_fft|]. split; [now apply poly_mul_fft_product|]. split; [now apply (poly_adj_fft_adjoint L f)|].
  split; [now apply poly_muladj_fft_product|]. split; [now apply (poly_mulselfadj_fft_product L f)|]. intros Hnz.
  split; [now apply poly_div_fft_quotient|]. intros Hs. exact (poly_LDL_fft_decomposes L g f h Hg Hf Hh Hs Hnz).
Qed.

(** (1 + 2 X) (3 + 4 X) = -5 + 10 X modulo X^2 + 1; and 3 is self-adjoint, with no zero. *)
Lemma fft_ring_correct_witness :
  iFFT (poly_mul_fft (FFT [1; 2] 1) (FFT [3; 4] 1) 1) 1 = [-5; 10] /\
  rmul 2 (iFFT (poly_div_fft (FFT [1; 2] 1) (FFT [3; 0] 1) 1) 1) [3; 0] = [1; 2].
Proof.
  split.
  - destruct (fft_ring_correct 1 [1; 2] [3; 4] [5; 6] ltac:(lia) eq_refl eq_refl eq_refl) as (_ & -> & _).
    rewrite (ifft_fft 0) by reflexivity. cbn. repeat f_equal; ring.
  - destruct (fft_ring_correct 1 [1; 2] [3; 0] [5; 6] ltac:(lia) eq_refl eq_refl eq_refl) as (_ & _ & _ & _ & _ & H).
    apply H. intros u Hu E. assert (u = 0)%nat as -> by (cbn in Hu; lia). apply (f_equal fst) in E. revert E.
    unfold reval, point, cexp. cbn. lra.
Defined.

(** C18 (roundtrip).  In exact arithmetic splitting the transform of a polynomial gives the transforms of the
    polynomials of its even and of its odd coefficients, and merging these gives the transform back, whatever
    the arrays that receive the results held. *)
Theorem fft_split_correct logn (f b a0 a1 : list R) :
  (1 <= logn)%nat -> length f = (2 ^ logn)%nat -> length b = (2 ^ logn)%nat ->
  length a0 = (2 ^ (logn - 1))%nat -> length a1 = (2 ^ (logn - 1))%nat ->
  let '(f0, f1) := poly_split_fft a0 a1 (FFT f logn) logn in
  f0 = FFT (uninterleave f).1 (logn - 1) /\ f1 = FFT (uninterleave f).2 (logn - 1) /\
  poly_merge_fft b f0 f1 logn = FFT f logn.
Proof.
  intros Hlogn Hf Hb H0 H1. destruct logn as [|L]; [lia|]. rewrite Nat.sub_succ, Nat.sub_0_r in *.
  rewrite poly_split_fft_halves by done. split; [done|]. split; [done|]. now apply poly_merge_fft_halves.
Qed.

Lemma fft_split_correct_witness :
  poly_split_fft [0; 0] [0; 0] (FFT [1; 2; 3; 4] 2) 2 = (FFT [1; 3] 1, FFT [2; 4] 1) /\
  poly_merge_fft [0; 0; 0; 0] (FFT [1; 3] 1) (FFT [2; 4] 1) 2 = FFT [1; 2; 3; 4] 2.
Proof.
  pose proof (fft_split_correct 2 [1; 2; 3; 4] [0; 0; 0; 0] [0; 0] [0; 0] ltac:(lia) eq_refl eq_refl eq_refl eq_refl) as H.
  destruct (poly_split_fft [0; 0] [0; 0] (FFT [1; 2; 3; 4] 2) 2) as [f0 f1]. destruct H as (-> & -> & H). split; [reflexivity | exact H].
Defined.
