(* ===== verification/FftTable.v ===== *)
(** FftTable: the tables of [fpr.c] and the emulated numbers as an instance of [Reals]. *)

From Stdlib Require Import ZArith Lia.
From stdpp Require Import base numbers list.
From S2P Require Import Prelude Fpr Fft.

Definition fpr_gm_tab : list Z := [
    0; 0; 9223372036854775808; 4607182418800017408; 4604544271217802189; 4604544271217802189; 13827916308072577997;
    4604544271217802189; 4606496786581982534; 4600565431771507043; 13823937468626282851; 4606496786581982534;
    4600565431771507043; 4606496786581982534; 13829868823436758342; 4600565431771507043; 4607009347991985328;
    4596196889902818827; 13819568926757594635; 4607009347991985328; 4603179351334086856; 4605664432017547683;
    13829036468872323491; 4603179351334086856; 4605664432017547683; 4603179351334086856; 13826551388188862664;
    4605664432017547683; 4596196889902818827; 4607009347991985328; 13830381384846761136; 4596196889902818827;
    4607139046673687846; 4591727299969791020; 13815099336824566828; 4607139046673687846; 4603889326261607894;
    4605137878724712257; 13828509915579488065; 4603889326261607894; 4606118860100255153; 4602163548591158843;
    13825535585445934651; 4606118860100255153; 4598900923775164166; 4606794571824115162; 13830166608678890970;
    4598900923775164166; 4606794571824115162; 4598900923775164166; 13822272960629939974; 4606794571824115162;
    4602163548591158843; 4606118860100255153; 13829490896955030961; 4602163548591158843; 4605137878724712257;
    4603889326261607894; 13827261363116383702; 4605137878724712257; 4591727299969791020; 4607139046673687846;
    13830511083528463654; 4591727299969791020; 4607171569234046334; 4587232218149935124; 13810604255004710932;
    4607171569234046334; 4604224084862889120; 4604849113969373103; 13828221150824148911; 4604224084862889120;
    4606317631232591731; 4601373767755717824; 13824745804610493632; 4606317631232591731; 4599740487990714333;
    4606655894547498725; 13830027931402274533; 4599740487990714333; 4606912484326125783; 4597922303871901467;
    13821294340726677275; 4606912484326125783; 4602805845399633902; 4605900952042040894; 13829272988896816702;
    4602805845399633902; 4605409869824231233; 4603540801876750389; 13826912838731526197; 4605409869824231233;
    4594454542771183930; 4607084929468638487; 13830456966323414295; 4594454542771183930; 4607084929468638487;
    4594454542771183930; 13817826579625959738; 4607084929468638487; 4603540801876750389; 4605409869824231233;
    13828781906679007041; 4603540801876750389; 4605900952042040894; 4602805845399633902; 13826177882254409710;
    4605900952042040894; 4597922303871901467; 4606912484326125783; 13830284521180901591; 4597922303871901467;
    4606655894547498725; 4599740487990714333; 13823112524845490141; 4606655894547498725; 4601373767755717824;
    4606317631232591731; 13829689668087367539; 4601373767755717824; 4604849113969373103; 4604224084862889120;
    13827596121717664928; 4604849113969373103; 4587232218149935124; 4607171569234046334; 13830543606088822142;
    4587232218149935124; 4607179706000002317; 4582730748936808062; 13806102785791583870; 4607179706000002317;
    4604386048625945823; 4604698657331085206; 13828070694185861014; 4604386048625945823; 4606409688975526202;
    4600971798440897930; 13824343835295673738; 4606409688975526202; 4600154912527631775; 4606578871587619388;
    13829950908442395196; 4600154912527631775; 4606963563043808649; 4597061974398750563; 13820434011253526371;
    4606963563043808649; 4602994049708411683; 4605784983948558848; 13829157020803334656; 4602994049708411683;
    4605539368864982914; 4603361638657888991; 13826733675512664799; 4605539368864982914; 4595327571478659014;
    4607049811591515049; 13830421848446290857; 4595327571478659014; 4607114680469659603; 4593485039402578702;
    13816857076257354510; 4607114680469659603; 4603716733069447353; 4605276012900672507; 13828648049755448315;
    4603716733069447353; 4606012266443150634; 4602550884377336506; 13825922921232112314; 4606012266443150634;
    4598476289818621559; 4606856142606846307; 13830228179461622115; 4598476289818621559; 4606727809065869586;
    4599322407794599425; 13822694444649375233; 4606727809065869586; 4601771097584682078; 4606220668805321205;
    13829592705660097013; 4601771097584682078; 4604995550503212910; 4604058477489546729; 13827430514344322537;
    4604995550503212910; 4589965306122607094; 4607158013403433018; 13830530050258208826; 4589965306122607094;
    4607158013403433018; 4589965306122607094; 13813337342977382902; 4607158013403433018; 4604058477489546729;
    4604995550503212910; 13828367587357988718; 4604058477489546729; 4606220668805321205; 4601771097584682078;
    13825143134439457886; 4606220668805321205; 4599322407794599425; 4606727809065869586; 13830099845920645394;
    4599322407794599425; 4606856142606846307; 4598476289818621559; 13821848326673397367; 4606856142606846307;
    4602550884377336506; 4606012266443150634; 13829384303297926442; 4602550884377336506; 4605276012900672507;
    4603716733069447353; 13827088769924223161; 4605276012900672507; 4593485039402578702; 4607114680469659603;
    13830486717324435411; 4593485039402578702; 4607049811591515049; 4595327571478659014; 13818699608333434822;
    4607049811591515049; 4603361638657888991; 4605539368864982914; 13828911405719758722; 4603361638657888991;
    4605784983948558848; 4602994049708411683; 13826366086563187491; 4605784983948558848; 4597061974398750563;
    4606963563043808649; 13830335599898584457; 4597061974398750563; 4606578871587619388; 4600154912527631775;
    13823526949382407583; 4606578871587619388; 4600971798440897930; 4606409688975526202; 13829781725830302010;
    4600971798440897930; 4604698657331085206; 4604386048625945823; 13827758085480721631; 4604698657331085206;
    4582730748936808062; 4607179706000002317; 13830551742854778125; 4582730748936808062; 4607181740574479067;
    4578227681973159812; 13801599718827935620; 4607181740574479067; 4604465633578481725; 4604621949701367983;
    13827993986556143791; 4604465633578481725; 4606453861145241227; 4600769149537129431; 13824141186391905239;
    4606453861145241227; 4600360675823176935; 4606538458821337243; 13829910495676113051; 4600360675823176935;
    4606987119037722413; 4596629994023683153; 13820002030878458961; 4606987119037722413; 4603087070374583113;
    4605725276488455441; 13829097313343231249; 4603087070374583113; 4605602459698789090; 4603270878689749849;
    13826642915544525657; 4605602459698789090; 4595762727260045105; 4607030246558998647; 13830402283413774455;
    4595762727260045105; 4607127537664763515; 4592606767730311893; 13815978804585087701; 4607127537664763515;
    4603803453461190356; 4605207475328619533; 13828579512183395341; 4603803453461190356; 4606066157444814153;
    4602357870542944470; 13825729907397720278; 4606066157444814153; 4598688984595225406; 4606826008603986804;
    13830198045458762612; 4598688984595225406; 4606761837001494797; 4599112075441176914; 13822484112295952722;
    4606761837001494797; 4601967947786150793; 4606170366472647579; 13829542403327423387; 4601967947786150793;
    4605067233569943231; 4603974338538572089; 13827346375393347897; 4605067233569943231; 4590846768565625881;
    4607149205763218185; 13830521242617993993; 4590846768565625881; 4607165468267934125; 4588998070480937184;
    13812370107335712992; 4607165468267934125; 4604141730443515286; 4604922840319727473; 13828294877174503281;
    4604141730443515286; 4606269759522929756; 4601573027631668967; 13824945064486444775; 4606269759522929756;
    4599531889160152938; 4606692493141721470; 13830064529996497278; 4599531889160152938; 4606884969294623682;
    4598262871476403630; 13821634908331179438; 4606884969294623682; 4602710690099904183; 4605957195211051218;
    13829329232065827026; 4602710690099904183; 4605343481119364930; 4603629178146150899; 13827001215000926707;
    4605343481119364930; 4594016801320007031; 4607100477024622401; 13830472513879398209; 4594016801320007031;
    4607068040143112603; 4594891488091520602; 13818263524946296410; 4607068040143112603; 4603451617570386922;
    4605475169017376660; 13828847205872152468; 4603451617570386922; 4605843545406134034; 4602900303344142735;
    13826272340198918543; 4605843545406134034; 4597492765973365521; 4606938683557690074; 13830310720412465882;
    4597492765973365521; 4606618018794815019; 4599948172872067014; 13823320209726842822; 4606618018794815019;
    4601173347964633034; 4606364276725003740; 13829736313579779548; 4601173347964633034; 4604774382555066977;
    4604305528345395596; 13827677565200171404; 4604774382555066977; 4585465300892538317; 4607176315382986589;
    13830548352237762397; 4585465300892538317; 4607176315382986589; 4585465300892538317; 13808837337747314125;
    4607176315382986589; 4604305528345395596; 4604774382555066977; 13828146419409842785; 4604305528345395596;
    4606364276725003740; 4601173347964633034; 13824545384819408842; 4606364276725003740; 4599948172872067014;
    4606618018794815019; 13829990055649590827; 4599948172872067014; 4606938683557690074; 4597492765973365521;
    13820864802828141329; 4606938683557690074; 4602900303344142735; 4605843545406134034; 13829215582260909842;
    4602900303344142735; 4605475169017376660; 4603451617570386922; 13826823654425162730; 4605475169017376660;
    4594891488091520602; 4607068040143112603; 13830440076997888411; 4594891488091520602; 4607100477024622401;
    4594016801320007031; 13817388838174782839; 4607100477024622401; 4603629178146150899; 4605343481119364930;
    13828715517974140738; 4603629178146150899; 4605957195211051218; 4602710690099904183; 13826082726954679991;
    4605957195211051218; 4598262871476403630; 4606884969294623682; 13830257006149399490; 4598262871476403630;
    4606692493141721470; 4599531889160152938; 13822903926014928746; 4606692493141721470; 4601573027631668967;
    4606269759522929756; 13829641796377705564; 4601573027631668967; 4604922840319727473; 4604141730443515286;
    13827513767298291094; 4604922840319727473; 4588998070480937184; 4607165468267934125; 13830537505122709933;
    4588998070480937184; 4607149205763218185; 4590846768565625881; 13814218805420401689; 4607149205763218185;
    4603974338538572089; 4605067233569943231; 13828439270424719039; 4603974338538572089; 4606170366472647579;
    4601967947786150793; 13825339984640926601; 4606170366472647579; 4599112075441176914; 4606761837001494797;
    13830133873856270605; 4599112075441176914; 4606826008603986804; 4598688984595225406; 13822061021450001214;
    4606826008603986804; 4602357870542944470; 4606066157444814153; 13829438194299589961; 4602357870542944470;
    4605207475328619533; 4603803453461190356; 13827175490315966164; 4605207475328619533; 4592606767730311893;
    4607127537664763515; 13830499574519539323; 4592606767730311893; 4607030246558998647; 4595762727260045105;
    13819134764114820913; 4607030246558998647; 4603270878689749849; 4605602459698789090; 13828974496553564898;
    4603270878689749849; 4605725276488455441; 4603087070374583113; 13826459107229358921; 4605725276488455441;
    4596629994023683153; 4606987119037722413; 13830359155892498221; 4596629994023683153; 4606538458821337243;
    4600360675823176935; 13823732712677952743; 4606538458821337243; 4600769149537129431; 4606453861145241227;
    13829825898000017035; 4600769149537129431; 4604621949701367983; 4604465633578481725; 13827837670433257533;
    4604621949701367983; 4578227681973159812; 4607181740574479067; 13830553777429254875; 4578227681973159812;
    4607182249242036882; 4573724215515480177; 13797096252370255985; 4607182249242036882; 4604505071555817232;
    4604583231088591477; 13827955267943367285; 4604505071555817232; 4606475480113671417; 4600667422348321968;
    13824039459203097776; 4606475480113671417; 4600463181646572228; 4606517779747998088; 13829889816602773896;
    4600463181646572228; 4606998399608725124; 4596413578358834022; 13819785615213609830; 4606998399608725124;
    4603133304188877240; 4605694995810664660; 13829067032665440468; 4603133304188877240; 4605633586259814045;
    4603225210076562971; 13826597246931338779; 4605633586259814045; 4595979936813835462; 4607019963775302583;
    13830392000630078391; 4595979936813835462; 4607133460805585796; 4592167175087283203; 13815539211942059011;
    4607133460805585796; 4603846496621587377; 4605172808754305228; 13828544845609081036; 4603846496621587377;
    4606092657816072624; 4602260871257280788; 13825632908112056596; 4606092657816072624; 4598795050632330097;
    4606810452769876110; 13830182489624651918; 4598795050632330097; 4606778366364612594; 4599006600037663623;
    13822378636892439431; 4606778366364612594; 4602065906208722008; 4606144763310860551; 13829516800165636359;
    4602065906208722008; 4605102686554936490; 4603931940768740167; 13827303977623515975; 4605102686554936490;
    4591287158938884897; 4607144295058764886; 13830516331913540694; 4591287158938884897; 4607168688050493276;
    4588115294056142819; 13811487330910918627; 4607168688050493276; 4604183020748362039; 4604886103475043762;
    13828258140329819570; 4604183020748362039; 4606293848208650998; 4601473544562720001; 13824845581417495809;
    4606293848208650998; 4599636300858866724; 4606674353838411301; 13830046390693187109; 4599636300858866724;
    4606898891031025132; 4598136582470364665; 13821508619325140473; 4606898891031025132; 4602758354025980442;
    4605929219593405673; 13829301256448181481; 4602758354025980442; 4605376811039722786; 4603585091850767959;
    13826957128705543767; 4605376811039722786; 4594235767444503503; 4607092871118901179; 13830464907973676987;
    4594235767444503503; 4607076652372832968; 4594673119063280916; 13818045155918056724; 4607076652372832968;
    4603496309891590679; 4605442656228245717; 13828814693083021525; 4603496309891590679; 4605872393621214213;
    4602853162432841185; 13826225199287616993; 4605872393621214213; 4597707695679609371; 4606925748668145757;
    13830297785522921565; 4597707695679609371; 4606637115963965612; 4599844446633109139; 13823216483487884947;
    4606637115963965612; 4601273700967202825; 4606341107699334546; 13829713144554110354; 4601273700967202825;
    4604811873195349477; 4604264921241055824; 13827636958095831632; 4604811873195349477; 4586348876009622851;
    4607174111710118367; 13830546148564894175; 4586348876009622851; 4607178180169683960; 4584498631466405633;
    13807870668321181441; 4607178180169683960; 4604345904647073908; 4604736643460027021; 13828108680314802829;
    4604345904647073908; 4606387137437298591; 4601072712526242277; 13824444749381018085; 4606387137437298591;
    4600051662802353687; 4606598603759044570; 13829970640613820378; 4600051662802353687; 4606951288507767453;
    4597277522845151878; 13820649559699927686; 4606951288507767453; 4602947266358709886; 4605814408482919348;
    13829186445337695156; 4602947266358709886; 4605507406967535927; 4603406726595779752; 13826778763450555560;
    4605507406967535927; 4595109641634432498; 4607059093103722971; 13830431129958498779; 4595109641634432498;
    4607107746899444102; 4593797652641645341; 13817169689496421149; 4607107746899444102; 4603673059103075106;
    4605309881318010327; 13828681918172786135; 4603673059103075106; 4605984877841711338; 4602646891659203088;
    13826018928513978896; 4605984877841711338; 4598369669086960528; 4606870719641066940; 13830242756495842748;
    4598369669086960528; 4606710311774494716; 4599427256825614420; 13822799293680390228; 4606710311774494716;
    4601672213217083403; 4606245366082353408; 13829617402937129216; 4601672213217083403; 4604959323120302796;
    4604100215502905499; 13827472252357681307; 4604959323120302796; 4589524267239410099; 4607161910007591876;
    13830533946862367684; 4589524267239410099; 4607153778602162496; 4590406145430462614; 13813778182285238422;
    4607153778602162496; 4604016517974851588; 4605031521104517324; 13828403557959293132; 4604016517974851588;
    4606195668621671667; 4601869677011524443; 13825241713866300251; 4606195668621671667; 4599217346014614711;
    4606744984357082948; 13830117021211858756; 4599217346014614711; 4606841238740778884; 4598582729657176439;
    13821954766511952247; 4606841238740778884; 4602454542796181607; 4606039359984203741; 13829411396838979549;
    4602454542796181607; 4605241877142478242; 4603760198400967492; 13827132235255743300; 4605241877142478242;
    4593046061348462537; 4607121277474223905; 13830493314328999713; 4593046061348462537; 4607040195955932526;
    4595545269419264690; 13818917306274040498; 4607040195955932526; 4603316355454250015; 4605571053506370248;
    13828943090361146056; 4603316355454250015; 4605755272910869620; 4603040651631881451; 13826412688486657259;
    4605755272910869620; 4596846128749438754; 4606975506703684317; 13830347543558460125; 4596846128749438754;
    4606558823023444576; 4600257918160607478; 13823629955015383286; 4606558823023444576; 4600870609507958271;
    4606431930490633905; 13829803967345409713; 4600870609507958271; 4604660425598397818; 4604425958770613225;
    13827797995625389033; 4604660425598397818; 4580962600092897021; 4607180892816495009; 13830552929671270817;
    4580962600092897021; 4607180892816495009; 4580962600092897021; 13804334636947672829; 4607180892816495009;
    4604425958770613225; 4604660425598397818; 13828032462453173626; 4604425958770613225; 4606431930490633905;
    4600870609507958271; 13824242646362734079; 4606431930490633905; 4600257918160607478; 4606558823023444576;
    13829930859878220384; 4600257918160607478; 4606975506703684317; 4596846128749438754; 13820218165604214562;
    4606975506703684317; 4603040651631881451; 4605755272910869620; 13829127309765645428; 4603040651631881451;
    4605571053506370248; 4603316355454250015; 13826688392309025823; 4605571053506370248; 4595545269419264690;
    4607040195955932526; 13830412232810708334; 4595545269419264690; 4607121277474223905; 4593046061348462537;
    13816418098203238345; 4607121277474223905; 4603760198400967492; 4605241877142478242; 13828613913997254050;
    4603760198400967492; 4606039359984203741; 4602454542796181607; 13825826579650957415; 4606039359984203741;
    4598582729657176439; 4606841238740778884; 13830213275595554692; 4598582729657176439; 4606744984357082948;
    4599217346014614711; 13822589382869390519; 4606744984357082948; 4601869677011524443; 4606195668621671667;
    13829567705476447475; 4601869677011524443; 4605031521104517324; 4604016517974851588; 13827388554829627396;
    4605031521104517324; 4590406145430462614; 4607153778602162496; 13830525815456938304; 4590406145430462614;
    4607161910007591876; 4589524267239410099; 13812896304094185907; 4607161910007591876; 4604100215502905499;
    4604959323120302796; 13828331359975078604; 4604100215502905499; 4606245366082353408; 4601672213217083403;
    13825044250071859211; 4606245366082353408; 4599427256825614420; 4606710311774494716; 13830082348629270524;
    4599427256825614420; 4606870719641066940; 4598369669086960528; 13821741705941736336; 4606870719641066940;
    4602646891659203088; 4605984877841711338; 13829356914696487146; 4602646891659203088; 4605309881318010327;
    4603673059103075106; 13827045095957850914; 4605309881318010327; 4593797652641645341; 4607107746899444102;
    13830479783754219910; 4593797652641645341; 4607059093103722971; 4595109641634432498; 13818481678489208306;
    4607059093103722971; 4603406726595779752; 4605507406967535927; 13828879443822311735; 4603406726595779752;
    4605814408482919348; 4602947266358709886; 13826319303213485694; 4605814408482919348; 4597277522845151878;
    4606951288507767453; 13830323325362543261; 4597277522845151878; 4606598603759044570; 4600051662802353687;
    13823423699657129495; 4606598603759044570; 4601072712526242277; 4606387137437298591; 13829759174292074399;
    4601072712526242277; 4604736643460027021; 4604345904647073908; 13827717941501849716; 4604736643460027021;
    4584498631466405633; 4607178180169683960; 13830550217024459768; 4584498631466405633; 4607174111710118367;
    4586348876009622851; 13809720912864398659; 4607174111710118367; 4604264921241055824; 4604811873195349477;
    13828183910050125285; 4604264921241055824; 4606341107699334546; 4601273700967202825; 13824645737821978633;
    4606341107699334546; 4599844446633109139; 4606637115963965612; 13830009152818741420; 4599844446633109139;
    4606925748668145757; 4597707695679609371; 13821079732534385179; 4606925748668145757; 4602853162432841185;
    4605872393621214213; 13829244430475990021; 4602853162432841185; 4605442656228245717; 4603496309891590679;
    13826868346746366487; 4605442656228245717; 4594673119063280916; 4607076652372832968; 13830448689227608776;
    4594673119063280916; 4607092871118901179; 4594235767444503503; 13817607804299279311; 4607092871118901179;
    4603585091850767959; 4605376811039722786; 13828748847894498594; 4603585091850767959; 4605929219593405673;
    4602758354025980442; 13826130390880756250; 4605929219593405673; 4598136582470364665; 4606898891031025132;
    13830270927885800940; 4598136582470364665; 4606674353838411301; 4599636300858866724; 13823008337713642532;
    4606674353838411301; 4601473544562720001; 4606293848208650998; 13829665885063426806; 4601473544562720001;
    4604886103475043762; 4604183020748362039; 13827555057603137847; 4604886103475043762; 4588115294056142819;
    4607168688050493276; 13830540724905269084; 4588115294056142819; 4607144295058764886; 4591287158938884897;
    13814659195793660705; 4607144295058764886; 4603931940768740167; 4605102686554936490; 13828474723409712298;
    4603931940768740167; 4606144763310860551; 4602065906208722008; 13825437943063497816; 4606144763310860551;
    4599006600037663623; 4606778366364612594; 13830150403219388402; 4599006600037663623; 4606810452769876110;
    4598795050632330097; 13822167087487105905; 4606810452769876110; 4602260871257280788; 4606092657816072624;
    13829464694670848432; 4602260871257280788; 4605172808754305228; 4603846496621587377; 13827218533476363185;
    4605172808754305228; 4592167175087283203; 4607133460805585796; 13830505497660361604; 4592167175087283203;
    4607019963775302583; 4595979936813835462; 13819351973668611270; 4607019963775302583; 4603225210076562971;
    4605633586259814045; 13829005623114589853; 4603225210076562971; 4605694995810664660; 4603133304188877240;
    13826505341043653048; 4605694995810664660; 4596413578358834022; 4606998399608725124; 13830370436463500932;
    4596413578358834022; 4606517779747998088; 4600463181646572228; 13823835218501348036; 4606517779747998088;
    4600667422348321968; 4606475480113671417; 13829847516968447225; 4600667422348321968; 4604583231088591477;
    4604505071555817232; 13827877108410593040; 4604583231088591477; 4573724215515480177; 4607182249242036882;
    13830554286096812690; 4573724215515480177; 4607182376410422530; 4569220649180767418; 13792592686035543226;
    4607182376410422530; 4604524701268679793; 4604563781218984604; 13827935818073760412; 4604524701268679793;
    4606486172460753999; 4600616459743653188; 13823988496598428996; 4606486172460753999; 4600514338912178239;
    4606507322377452870; 13829879359232228678; 4600514338912178239; 4607003915349878877; 4596305267720071930;
    13819677304574847738; 4607003915349878877; 4603156351203636159; 4605679749231851918; 13829051786086627726;
    4603156351203636159; 4605649044311923410; 4603202304363743346; 13826574341218519154; 4605649044311923410;
    4596088445927168004; 4607014697483910382; 13830386734338686190; 4596088445927168004; 4607136295912168606;
    4591947271803021404; 13815319308657797212; 4607136295912168606; 4603867938232615808; 4605155376589456981;
    13828527413444232789; 4603867938232615808; 4606105796280968177; 4602212250118051877; 13825584286972827685;
    4606105796280968177; 4598848011564831930; 4606802552898869248; 13830174589753645056; 4598848011564831930;
    4606786509620734768; 4598953786765296928; 13822325823620072736; 4606786509620734768; 4602114767134999006;
    4606131849150971908; 13829503886005747716; 4602114767134999006; 4605120315324767624; 4603910660507251362;
    13827282697362027170; 4605120315324767624; 4591507261658050721; 4607141713064252300; 13830513749919028108;
    4591507261658050721; 4607170170974224083; 4587673791460508439; 13811045828315284247; 4607170170974224083;
    4604203581176243359; 4604867640218014515; 13828239677072790323; 4604203581176243359; 4606305777984577632;
    4601423692641949331; 13824795729496725139; 4606305777984577632; 4599688422741010356; 4606665164148251002;
    13830037201003026810; 4599688422741010356; 4606905728766014348; 4598029484874872834; 13821401521729648642;
    4606905728766014348; 4602782121393764535; 4605915122243179241; 13829287159097955049; 4602782121393764535;
    4605393374401988274; 4603562972219549215; 13826935009074325023; 4605393374401988274; 4594345179472540681;
    4607088942243446236; 13830460979098222044; 4594345179472540681; 4607080832832247697; 4594563856311064231;
    13817935893165840039; 4607080832832247697; 4603518581031047189; 4605426297151190466; 13828798334005966274;
    4603518581031047189; 4605886709123365959; 4602829525820289164; 13826201562675064972; 4605886709123365959;
    4597815040470278984; 4606919157647773535; 13830291194502549343; 4597815040470278984; 4606646545123403481;
    4599792496117920694; 13823164532972696502; 4606646545123403481; 4601323770373937522; 4606329407841126011;
    13829701444695901819; 4601323770373937522; 4604830524903495634; 4604244531615310815; 13827616568470086623;
    4604830524903495634; 4586790578280679046; 4607172882816799076; 13830544919671574884; 4586790578280679046;
    4607178985458280057; 4583614727651146525; 13806986764505922333; 4607178985458280057; 4604366005771528720;
    4604717681185626434; 13828089718040402242; 4604366005771528720; 4606398451906509788; 4601022290077223616;
    13824394326931999424; 4606398451906509788; 4600103317933788342; 4606588777269136769; 13829960814123912577;
    4600103317933788342; 4606957467106717424; 4597169786279785693; 13820541823134561501; 4606957467106717424;
    4602970680601913687; 4605799732098147061; 13829171768952922869; 4602970680601913687; 4605523422498301790;
    4603384207141321914; 13826756243996097722; 4605523422498301790; 4595218635031890910; 4607054494135176056;
    13830426530989951864; 4595218635031890910; 4607111255739239816; 4593688012422887515; 13817060049277663323;
    4607111255739239816; 4603694922063032361; 4605292980606880364; 13828665017461656172; 4603694922063032361;
    4605998608960791335; 4602598930031891166; 13825970966886666974; 4605998608960791335; 4598423001813699022;
    4606863472012527185; 13830235508867302993; 4598423001813699022; 4606719100629313491; 4599374859150636784;
    13822746896005412592; 4606719100629313491; 4601721693286060937; 4606233055365547081; 13829605092220322889;
    4601721693286060937; 4604977468824438271; 4604079374282302598; 13827451411137078406; 4604977468824438271;
    4589744810590291021; 4607160003989618959; 13830532040844394767; 4589744810590291021; 4607155938267770208;
    4590185751760970393; 13813557788615746201; 4607155938267770208; 4604037525321326463; 4605013567986435066;
    13828385604841210874; 4604037525321326463; 4606208206518262803; 4601820425647934753; 13825192462502710561;
    4606208206518262803; 4599269903251194481; 4606736437002195879; 13830108473856971687; 4599269903251194481;
    4606848731493011465; 4598529532600161144; 13821901569454936952; 4606848731493011465; 4602502755147763107;
    4606025850160239809; 13829397887015015617; 4602502755147763107; 4605258978359093269; 4603738491917026584;
    13827110528771802392; 4605258978359093269; 4593265590854265407; 4607118021058468598; 13830490057913244406;
    4593265590854265407; 4607045045516813836; 4595436449949385485; 13818808486804161293; 4607045045516813836;
    4603339021357904144; 4605555245917486022; 13828927282772261830; 4603339021357904144; 4605770164172969910;
    4603017373458244943; 13826389410313020751; 4605770164172969910; 4596954088216812973; 4606969576261663845;
    13830341613116439653; 4596954088216812973; 4606568886807728474; 4600206446098256018; 13823578482953031826;
    4606568886807728474; 4600921238092511730; 4606420848538580260; 13829792885393356068; 4600921238092511730;
    4604679572075463103; 4604406033021674239; 13827778069876450047; 4604679572075463103; 4581846703643734566;
    4607180341788068727; 13830552378642844535; 4581846703643734566; 4607181359080094673; 4579996072175835083;
    13803368109030610891; 4607181359080094673; 4604445825685214043; 4604641218080103285; 13828013254934879093;
    4604445825685214043; 4606442934727379583; 4600819913163773071; 13824191950018548879; 4606442934727379583;
    4600309328230211502; 4606548680329491866; 13829920717184267674; 4600309328230211502; 4606981354314050484;
    4596738097012783531; 13820110133867559339; 4606981354314050484; 4603063884010218172; 4605740310302420207;
    13829112347157196015; 4603063884010218172; 4605586791482848547; 4603293641160266722; 13826665678015042530;
    4605586791482848547; 4595654028864046335; 4607035262954517034; 13830407299809292842; 4595654028864046335;
    4607124449686274900; 4592826452951465409; 13816198489806241217; 4607124449686274900; 4603781852316960384;
    4605224709411790590; 13828596746266566398; 4603781852316960384; 4606052795787882823; 4602406247776385022;
    13825778284631160830; 4606052795787882823; 4598635880488956483; 4606833664420673202; 13830205701275449010;
    4598635880488956483; 4606753451050079834; 4599164736579548843; 13822536773434324651; 4606753451050079834;
    4601918851211878557; 4606183055233559255; 13829555092088335063; 4601918851211878557; 4605049409688478101;
    4603995455647851249; 13827367492502627057; 4605049409688478101; 4590626485056654602; 4607151534426937478;
    13830523571281713286; 4590626485056654602; 4607163731439411601; 4589303678145802340; 13812675715000578148;
    4607163731439411601; 4604121000955189926; 4604941113561600762; 13828313150416376570; 4604121000955189926;
    4606257600839867033; 4601622657843474729; 13824994694698250537; 4606257600839867033; 4599479600326345459;
    4606701442584137310; 13830073479438913118; 4599479600326345459; 4606877885424248132; 4598316292140394014;
    13821688328995169822; 4606877885424248132; 4602686793990243041; 4605971073215153165; 13829343110069928973;
    4602686793990243041; 4605326714874986465; 4603651144395358093; 13827023181250133901; 4605326714874986465;
    4593907249284540294; 4607104153983298999; 13830476190838074807; 4593907249284540294; 4607063608453868552;
    4595000592312171144; 13818372629166946952; 4607063608453868552; 4603429196809300824; 4605491322423429598;
    13828863359278205406; 4603429196809300824; 4605829012964735987; 4602923807199184054; 13826295844053959862;
    4605829012964735987; 4597385183080791534; 4606945027305114062; 13830317064159889870; 4597385183080791534;
    4606608350964852124; 4599999947619525579; 13823371984474301387; 4606608350964852124; 4601123065313358619;
    4606375745674388705; 13829747782529164513; 4601123065313358619; 4604755543975806820; 4604325745441780828;
    13827697782296556636; 4604755543975806820; 4585023436363055487; 4607177290141793710; 13830549326996569518;
    4585023436363055487; 4607175255902437396; 4585907115494236537; 13809279152349012345; 4607175255902437396;
    4604285253548209224; 4604793159020491611; 13828165195875267419; 4604285253548209224; 4606352730697093817;
    4601223560006786057; 13824595596861561865; 4606352730697093817; 4599896339047301634; 4606627607157935956;
    13829999644012711764; 4599896339047301634; 4606932257325205256; 4597600270510262682; 13820972307365038490;
    4606932257325205256; 4602876755014813164; 4605858005670328613; 13829230042525104421; 4602876755014813164;
    4605458946901419122; 4603473988668005304; 13826846025522781112; 4605458946901419122; 4594782329999411347;
    4607072388129742377; 13830444424984518185; 4594782329999411347; 4607096716058023245; 4594126307716900071;
    13817498344571675879; 4607096716058023245; 4603607160562208225; 4605360179893335444; 13828732216748111252;
    4603607160562208225; 4605943243960030558; 4602734543519989142; 13826106580374764950; 4605943243960030558;
    4598209407597805010; 4606891971185517504; 13830264008040293312; 4598209407597805010; 4606683463531482757;
    4599584122834874440; 13822956159689650248; 4606683463531482757; 4601523323048804569; 4606281842017099424;
    13829653878871875232; 4601523323048804569; 4604904503566677638; 4604162403772767740; 13827534440627543548;
    4604904503566677638; 4588556721781247689; 4607167120476811757; 13830539157331587565; 4588556721781247689;
    4607146792632922887; 4591066993883984169; 13814439030738759977; 4607146792632922887; 4603953166845776383;
    4605084992581147553; 13828457029435923361; 4603953166845776383; 4606157602458368090; 4602016966272225497;
    13825389003127001305; 4606157602458368090; 4599059363095165615; 4606770142132396069; 13830142178987171877;
    4599059363095165615; 4606818271362779153; 4598742041476147134; 13822114078330922942; 4606818271362779153;
    4602309411551204896; 4606079444829232727; 13829451481684008535; 4602309411551204896; 4605190175055178825;
    4603825001630339212; 13827197038485115020; 4605190175055178825; 4592387007752762956; 4607130541380624519;
    13830502578235400327; 4592387007752762956; 4607025146816593591; 4595871363584150300; 13819243400438926108;
    4607025146816593591; 4603248068256948438; 4605618058006716661; 13828990094861492469; 4603248068256948438;
    4605710171610479304; 4603110210506737381; 13826482247361513189; 4605710171610479304; 4596521820799644122;
    4606992800820440327; 13830364837675216135; 4596521820799644122; 4606528158595189433; 4600411960456200676;
    13823783997310976484; 4606528158595189433; 4600718319105833937; 4606464709641375231; 13829836746496151039;
    4600718319105833937; 4604602620643553229; 4604485382263976838; 13827857419118752646; 4604602620643553229;
    4576459225186735875; 4607182037296057423; 13830554074150833231; 4576459225186735875; 4607182037296057423;
    4576459225186735875; 13799831262041511683; 4607182037296057423; 4604485382263976838; 4604602620643553229;
    13827974657498329037; 4604485382263976838; 4606464709641375231; 4600718319105833937; 13824090355960609745;
    4606464709641375231; 4600411960456200676; 4606528158595189433; 13829900195449965241; 4600411960456200676;
    4606992800820440327; 4596521820799644122; 13819893857654419930; 4606992800820440327; 4603110210506737381;
    4605710171610479304; 13829082208465255112; 4603110210506737381; 4605618058006716661; 4603248068256948438;
    13826620105111724246; 4605618058006716661; 4595871363584150300; 4607025146816593591; 13830397183671369399;
    4595871363584150300; 4607130541380624519; 4592387007752762956; 13815759044607538764; 4607130541380624519;
    4603825001630339212; 4605190175055178825; 13828562211909954633; 4603825001630339212; 4606079444829232727;
    4602309411551204896; 13825681448405980704; 4606079444829232727; 4598742041476147134; 4606818271362779153;
    13830190308217554961; 4598742041476147134; 4606770142132396069; 4599059363095165615; 13822431399949941423;
    4606770142132396069; 4602016966272225497; 4606157602458368090; 13829529639313143898; 4602016966272225497;
    4605084992581147553; 4603953166845776383; 13827325203700552191; 4605084992581147553; 4591066993883984169;
    4607146792632922887; 13830518829487698695; 4591066993883984169; 4607167120476811757; 4588556721781247689;
    13811928758636023497; 4607167120476811757; 4604162403772767740; 4604904503566677638; 13828276540421453446;
    4604162403772767740; 4606281842017099424; 4601523323048804569; 13824895359903580377; 4606281842017099424;
    4599584122834874440; 4606683463531482757; 13830055500386258565; 4599584122834874440; 4606891971185517504;
    4598209407597805010; 13821581444452580818; 4606891971185517504; 4602734543519989142; 4605943243960030558;
    13829315280814806366; 4602734543519989142; 4605360179893335444; 4603607160562208225; 13826979197416984033;
    4605360179893335444; 4594126307716900071; 4607096716058023245; 13830468752912799053; 4594126307716900071;
    4607072388129742377; 4594782329999411347; 13818154366854187155; 4607072388129742377; 4603473988668005304;
    4605458946901419122; 13828830983756194930; 4603473988668005304; 4605858005670328613; 4602876755014813164;
    13826248791869588972; 4605858005670328613; 4597600270510262682; 4606932257325205256; 13830304294179981064;
    4597600270510262682; 4606627607157935956; 4599896339047301634; 13823268375902077442; 4606627607157935956;
    4601223560006786057; 4606352730697093817; 13829724767551869625; 4601223560006786057; 4604793159020491611;
    4604285253548209224; 13827657290402985032; 4604793159020491611; 4585907115494236537; 4607175255902437396;
    13830547292757213204; 4585907115494236537; 4607177290141793710; 4585023436363055487; 13808395473217831295;
    4607177290141793710; 4604325745441780828; 4604755543975806820; 13828127580830582628; 4604325745441780828;
    4606375745674388705; 4601123065313358619; 13824495102168134427; 4606375745674388705; 4599999947619525579;
    4606608350964852124; 13829980387819627932; 4599999947619525579; 4606945027305114062; 4597385183080791534;
    13820757219935567342; 4606945027305114062; 4602923807199184054; 4605829012964735987; 13829201049819511795;
    4602923807199184054; 4605491322423429598; 4603429196809300824; 13826801233664076632; 4605491322423429598;
    4595000592312171144; 4607063608453868552; 13830435645308644360; 4595000592312171144; 4607104153983298999;
    4593907249284540294; 13817279286139316102; 4607104153983298999; 4603651144395358093; 4605326714874986465;
    13828698751729762273; 4603651144395358093; 4605971073215153165; 4602686793990243041; 13826058830845018849;
    4605971073215153165; 4598316292140394014; 4606877885424248132; 13830249922279023940; 4598316292140394014;
    4606701442584137310; 4599479600326345459; 13822851637181121267; 4606701442584137310; 4601622657843474729;
    4606257600839867033; 13829629637694642841; 4601622657843474729; 4604941113561600762; 4604121000955189926;
    13827493037809965734; 4604941113561600762; 4589303678145802340; 4607163731439411601; 13830535768294187409;
    4589303678145802340; 4607151534426937478; 4590626485056654602; 13813998521911430410; 4607151534426937478;
    4603995455647851249; 4605049409688478101; 13828421446543253909; 4603995455647851249; 4606183055233559255;
    4601918851211878557; 13825290888066654365; 4606183055233559255; 4599164736579548843; 4606753451050079834;
    13830125487904855642; 4599164736579548843; 4606833664420673202; 4598635880488956483; 13822007917343732291;
    4606833664420673202; 4602406247776385022; 4606052795787882823; 13829424832642658631; 4602406247776385022;
    4605224709411790590; 4603781852316960384; 13827153889171736192; 4605224709411790590; 4592826452951465409;
    4607124449686274900; 13830496486541050708; 4592826452951465409; 4607035262954517034; 4595654028864046335;
    13819026065718822143; 4607035262954517034; 4603293641160266722; 4605586791482848547; 13828958828337624355;
    4603293641160266722; 4605740310302420207; 4603063884010218172; 13826435920864993980; 4605740310302420207;
    4596738097012783531; 4606981354314050484; 13830353391168826292; 4596738097012783531; 4606548680329491866;
    4600309328230211502; 13823681365084987310; 4606548680329491866; 4600819913163773071; 4606442934727379583;
    13829814971582155391; 4600819913163773071; 4604641218080103285; 4604445825685214043; 13827817862539989851;
    4604641218080103285; 4579996072175835083; 4607181359080094673; 13830553395934870481; 4579996072175835083;
    4607180341788068727; 4581846703643734566; 13805218740498510374; 4607180341788068727; 4604406033021674239;
    4604679572075463103; 13828051608930238911; 4604406033021674239; 4606420848538580260; 4600921238092511730;
    13824293274947287538; 4606420848538580260; 4600206446098256018; 4606568886807728474; 13829940923662504282;
    4600206446098256018; 4606969576261663845; 4596954088216812973; 13820326125071588781; 4606969576261663845;
    4603017373458244943; 4605770164172969910; 13829142201027745718; 4603017373458244943; 4605555245917486022;
    4603339021357904144; 13826711058212679952; 4605555245917486022; 4595436449949385485; 4607045045516813836;
    13830417082371589644; 4595436449949385485; 4607118021058468598; 4593265590854265407; 13816637627709041215;
    4607118021058468598; 4603738491917026584; 4605258978359093269; 13828631015213869077; 4603738491917026584;
    4606025850160239809; 4602502755147763107; 13825874792002538915; 4606025850160239809; 4598529532600161144;
    4606848731493011465; 13830220768347787273; 4598529532600161144; 4606736437002195879; 4599269903251194481;
    13822641940105970289; 4606736437002195879; 4601820425647934753; 4606208206518262803; 13829580243373038611;
    4601820425647934753; 4605013567986435066; 4604037525321326463; 13827409562176102271; 4605013567986435066;
    4590185751760970393; 4607155938267770208; 13830527975122546016; 4590185751760970393; 4607160003989618959;
    4589744810590291021; 13813116847445066829; 4607160003989618959; 4604079374282302598; 4604977468824438271;
    13828349505679214079; 4604079374282302598; 4606233055365547081; 4601721693286060937; 13825093730140836745;
    4606233055365547081; 4599374859150636784; 4606719100629313491; 13830091137484089299; 4599374859150636784;
    4606863472012527185; 4598423001813699022; 13821795038668474830; 4606863472012527185; 4602598930031891166;
    4605998608960791335; 13829370645815567143; 4602598930031891166; 4605292980606880364; 4603694922063032361;
    13827066958917808169; 4605292980606880364; 4593688012422887515; 4607111255739239816; 13830483292594015624;
    4593688012422887515; 4607054494135176056; 4595218635031890910; 13818590671886666718; 4607054494135176056;
    4603384207141321914; 4605523422498301790; 13828895459353077598; 4603384207141321914; 4605799732098147061;
    4602970680601913687; 13826342717456689495; 4605799732098147061; 4597169786279785693; 4606957467106717424;
    13830329503961493232; 4597169786279785693; 4606588777269136769; 4600103317933788342; 13823475354788564150;
    4606588777269136769; 4601022290077223616; 4606398451906509788; 13829770488761285596; 4601022290077223616;
    4604717681185626434; 4604366005771528720; 13827738042626304528; 4604717681185626434; 4583614727651146525;
    4607178985458280057; 13830551022313055865; 4583614727651146525; 4607172882816799076; 4586790578280679046;
    13810162615135454854; 4607172882816799076; 4604244531615310815; 4604830524903495634; 13828202561758271442;
    4604244531615310815; 4606329407841126011; 4601323770373937522; 13824695807228713330; 4606329407841126011;
    4599792496117920694; 4606646545123403481; 13830018581978179289; 4599792496117920694; 4606919157647773535;
    4597815040470278984; 13821187077325054792; 4606919157647773535; 4602829525820289164; 4605886709123365959;
    13829258745978141767; 4602829525820289164; 4605426297151190466; 4603518581031047189; 13826890617885822997;
    4605426297151190466; 4594563856311064231; 4607080832832247697; 13830452869687023505; 4594563856311064231;
    4607088942243446236; 4594345179472540681; 13817717216327316489; 4607088942243446236; 4603562972219549215;
    4605393374401988274; 13828765411256764082; 4603562972219549215; 4605915122243179241; 4602782121393764535;
    13826154158248540343; 4605915122243179241; 4598029484874872834; 4606905728766014348; 13830277765620790156;
    4598029484874872834; 4606665164148251002; 4599688422741010356; 13823060459595786164; 4606665164148251002;
    4601423692641949331; 4606305777984577632; 13829677814839353440; 4601423692641949331; 4604867640218014515;
    4604203581176243359; 13827575618031019167; 4604867640218014515; 4587673791460508439; 4607170170974224083;
    13830542207828999891; 4587673791460508439; 4607141713064252300; 4591507261658050721; 13814879298512826529;
    4607141713064252300; 4603910660507251362; 4605120315324767624; 13828492352179543432; 4603910660507251362;
    4606131849150971908; 4602114767134999006; 13825486803989774814; 4606131849150971908; 4598953786765296928;
    4606786509620734768; 13830158546475510576; 4598953786765296928; 4606802552898869248; 4598848011564831930;
    13822220048419607738; 4606802552898869248; 4602212250118051877; 4606105796280968177; 13829477833135743985;
    4602212250118051877; 4605155376589456981; 4603867938232615808; 13827239975087391616; 4605155376589456981;
    4591947271803021404; 4607136295912168606; 13830508332766944414; 4591947271803021404; 4607014697483910382;
    4596088445927168004; 13819460482781943812; 4607014697483910382; 4603202304363743346; 4605649044311923410;
    13829021081166699218; 4603202304363743346; 4605679749231851918; 4603156351203636159; 13826528388058411967;
    4605679749231851918; 4596305267720071930; 4607003915349878877; 13830375952204654685; 4596305267720071930;
    4606507322377452870; 4600514338912178239; 13823886375766954047; 4606507322377452870; 4600616459743653188;
    4606486172460753999; 13829858209315529807; 4600616459743653188; 4604563781218984604; 4604524701268679793;
    13827896738123455601; 4604563781218984604; 4569220649180767418; 4607182376410422530; 13830554413265198338;
    4569220649180767418 ].

Definition fpr_p2_tab : list Z := [
    4611686018427387904; 4607182418800017408; 4602678819172646912; 4598175219545276416; 4593671619917905920;
    4589168020290535424; 4584664420663164928; 4580160821035794432; 4575657221408423936; 4571153621781053440;
    4566650022153682944 ].

Definition fpr_zero : Z := 0.

#[export] Instance fpr_reals : Reals Z := {|
  r_zero := fpr_zero; r_add := fpr_add; r_sub := fpr_sub; r_mul := fpr_mul; r_neg := fpr_neg; r_half := fpr_half;
  r_double := fpr_double; r_sqr := fpr_sqr; r_inv := fpr_inv;
  gm_tab k := fpr_gm_tab !!! k; p2_tab k := fpr_p2_tab !!! k
|}.

(** The constants that the callers use. *)
Definition fpr_q : Z := 4667981563525332992.
Definition fpr_inverse_of_q : Z := 4545632735260551042.
Definition fpr_bnorm_max : Z := 4670353323383631276.
Definition fpr_one : Z := 4607182418800017408.
Definition fpr_two : Z := 4611686018427387904.
Definition fpr_onehalf : Z := 4602678819172646912.
Definition fpr_ptwo31 : Z := 4746794007248502784.
Definition fpr_ptwo31m1 : Z := 4746794007244308480.
Definition fpr_mtwo31m1 : Z := 13970166044099084288.
Definition fpr_ptwo63m1 : Z := 4890909195324358656.
Definition fpr_mtwo63m1 : Z := 14114281232179134464.
