(* ===== verification/FftAccuracy.v ===== *)
(** FftAccuracy: the tables of [fpr.c] against the exact values of [FftSpec].

    An entry is a square root of another one up to the errors of rounding, which are computed; the bound
    passes from an entry to its square roots in the first quadrant, where the error is divided. *)

From Stdlib Require Import ZArith Lia Reals Lra Psatz.
From stdpp Require Import base numbers list.
From S2P Require Import Prelude Rounding Fpr Pass Fft FftTable FftSpec.

#[local] Open Scope R_scope.

(** The real number that an encoding stands for. *)
Definition fpr_real (x : Z) : R := IZR (value x) / IZR (2 ^ 1074).

(** The table entry [k], as a complex number. *)
Definition gm_real (k : nat) : C := (fpr_real (fpr_gm_tab !!! (2 * k)%nat), fpr_real (fpr_gm_tab !!! (2 * k + 1)%nat)).

(** * The entries as multiples of 2^-62 *)

Definition fixed62 (x : Z) : Z :=
  (if fpr_exp x =? 0 then 0 else (if fpr_sign x then -1 else 1) * ((2 ^ 52 + fpr_man x) * 2 ^ (fpr_exp x - 1013)))%Z.

Definition is_fixed62 (x : Z) : bool := ((fpr_exp x =? 0) || (1013 <=? fpr_exp x))%Z.

Lemma value_fixed62 x : is_fixed62 x = true -> value x = (fixed62 x * 2 ^ 1012)%Z.
Proof.
  intros H. unfold is_fixed62 in H. unfold value, magnitude, fixed62. destruct (Z.eqb_spec (fpr_exp x) 0) as [_|Hne]; [now destruct (fpr_sign x)|].
  apply Z.leb_le in H.
  replace (fpr_exp x - 1)%Z with (fpr_exp x - 1013 + 1012)%Z by lia. rewrite Z.pow_add_r by lia. destruct (fpr_sign x); lia.
Qed.

#[local] Abbreviation S62 := (IZR (2 ^ 62)).

Lemma S62_pos : 0 < S62.
Proof. apply IZR_lt. reflexivity. Qed.

Lemma fpr_real_fixed62 x : is_fixed62 x = true -> fpr_real x = IZR (fixed62 x) / S62.
Proof.
  intros H. unfold fpr_real. rewrite (value_fixed62 x H), mult_IZR. replace (2 ^ 1074)%Z with (2 ^ 62 * 2 ^ 1012)%Z by reflexivity.
  rewrite mult_IZR. assert (0 < IZR (2 ^ 1012)) as H0 by (apply IZR_lt; reflexivity). pose proof S62_pos. field. split; lra.
Qed.

Definition gm_fixed (k : nat) : Z * Z := (fixed62 (fpr_gm_tab !!! (2 * k)%nat), fixed62 (fpr_gm_tab !!! (2 * k + 1)%nat)).

(** The children of entry [k]: in the first quadrant, of norm above 0.99, a square root of the entry up to
    the errors of rounding; and that root times i. *)
Definition children_ok (k : nat) : bool :=
  let '(a, b) := gm_fixed (2 * k) in
  let '(c, d) := gm_fixed k in
  let '(a', b') := gm_fixed (2 * k + 1) in
  let x := (a * a - b * b - c * 2 ^ 62)%Z in
  let y := (2 * a * b - d * 2 ^ 62)%Z in
  ((0 <=? a) && (0 <=? b) && (99 * 2 ^ 124 <=? 100 * (a * a + b * b)) && (x * x + y * y <=? 5 * 2 ^ 141) && (a' =? - b) && (b' =? a))%Z.

Lemma table_checked :
  forallb is_fixed62 fpr_gm_tab && forallb children_ok (seq 1 511) = true.
Proof. vm_compute. reflexivity. Qed.

(** * Errors *)

Definition norm2 (z : C) : R := z.1 * z.1 + z.2 * z.2.

Lemma norm2_mul z w : norm2 (z * w)%C = norm2 z * norm2 w.
Proof. unfold norm2, FPC_MUL. cbn. ring. Qed.

Lemma norm2_add z w : norm2 (z + w)%C <= 4 * norm2 z + 4 / 3 * norm2 w.
Proof.
  unfold norm2, FPC_ADD. destruct z as [a b], w as [c d]. cbn.
  pose proof (Rle_0_sqr (3 * a - c)) as H1. pose proof (Rle_0_sqr (3 * b - d)) as H2. unfold Rsqr in *. lra.
Qed.

#[local] Abbreviation eps := (/ IZR (2 ^ 102)).

(** Entry [k] is at distance at most 2^-51 of the exact one. *)
Definition near (k : nat) : Prop := norm2 (gm_real k - gm k)%C <= eps.

Lemma gm_angle_range k : 0 < gm_angle k < PI.
Proof. pose proof PI_RGT_0 as H. induction k as [k IH|k IH|]; cbn [gm_angle]; lra. Qed.

Lemma fixed_entry k : (k < 1024)%nat -> gm_real k = (IZR (gm_fixed k).1 / S62, IZR (gm_fixed k).2 / S62).
Proof.
  intros Hk. pose proof table_checked as H. apply andb_true_iff in H as [H _]. rewrite forallb_forall in H.
  unfold gm_real, gm_fixed. cbn [fst snd]. assert (length fpr_gm_tab = 2048%nat) as Hl by reflexivity.
  rewrite !fpr_real_fixed62 by (apply H, list_elem_of_In, list_elem_of_lookup_total_2; rewrite Hl; lia). done.
Qed.

Lemma children_checked k : (1 <= k < 512)%nat -> children_ok k = true.
Proof.
  intros Hk. pose proof table_checked as H. apply andb_true_iff in H as [_ H]. rewrite forallb_forall in H. apply H, in_seq. lia.
Qed.

(** Two numbers of the first quadrant, one of norm above 0.99 and the other of norm 1: their sum is long. *)
Lemma quadrant_sum z u : 0 <= z.1 -> 0 <= z.2 -> 0 <= u.1 -> 0 <= u.2 -> 99 / 100 <= norm2 z -> norm2 u = 1 -> 199 / 100 <= norm2 (z + u)%C.
Proof.
  unfold norm2, FPC_ADD. destruct z as [a b], u as [c d]. cbn. intros Ha Hb Hc Hd Hz Hu.
  pose proof (Rmult_le_pos a c Ha Hc). pose proof (Rmult_le_pos b d Hb Hd). nra.
Qed.

Lemma le_div x y s : 0 < s -> x * s <= y -> x <= y / s.
Proof. intros Hs H. apply (Rmult_le_reg_r s); [exact Hs|]. unfold Rdiv. rewrite Rmult_assoc, Rinv_l; lra. Qed.

Lemma div_inv a b c : (0 < a)%Z -> (b = a * c)%Z -> IZR a / IZR b = / IZR c.
Proof. intros Ha ->. rewrite mult_IZR. pose proof (IZR_lt 0 a Ha). unfold Rdiv. rewrite Rinv_mult, <- Rmult_assoc, Rinv_r by lra. apply Rmult_1_l. Qed.

Lemma norm2_pos z : 0 <= norm2 z.
Proof. unfold norm2. pose proof (Rle_0_sqr z.1). pose proof (Rle_0_sqr z.2). unfold Rsqr in *. lra. Qed.

(** A square root of an approximation approximates the square root. *)
Lemma near_root z u w e : 0 <= z.1 -> 0 <= z.2 -> 0 <= u.1 -> 0 <= u.2 -> 99 / 100 <= norm2 z -> norm2 u = 1 ->
  norm2 (z * z - w)%C <= 5 / 32 * e -> norm2 (w - u * u)%C <= e -> norm2 (z - u)%C <= e.
Proof.
  intros Hz1 Hz2 Hu1 Hu2 Hz Hu H1 H2. pose proof (quadrant_sum z u Hz1 Hz2 Hu1 Hu2 Hz Hu) as Hs.
  pose proof (norm2_add (z * z - w)%C (w - u * u)%C) as Ht.
  replace (z * z - w + (w - u * u))%C with ((z - u) * (z + u))%C in Ht by ring. rewrite norm2_mul in Ht.
  pose proof (norm2_pos (z - u)%C) as Hp. pose proof (Rmult_le_compat_l _ _ _ Hp Hs). lra.
Qed.

(** The exact entries: a square root in the first quadrant, and that root times i. *)
Lemma gm_exact_children k : (1 <= k)%nat ->
  (gm (2 * k) * gm (2 * k))%C = gm k /\ gm (2 * k + 1) = (Ci * gm (2 * k))%C /\
  0 <= (gm (2 * k)).1 /\ 0 <= (gm (2 * k)).2 /\ norm2 (gm (2 * k)) = 1.
Proof.
  intros Hk. rewrite !gm_cexp. destruct (of_nat_double k Hk) as [-> ->]. cbn [gm_angle]. pose proof (gm_angle_range (Pos.of_nat k)) as Ha.
  set (t := gm_angle _) in *. split; [rewrite <- cexp_add; f_equal; lra|]. split; [rewrite Rplus_comm, cexp_add; unfold cexp at 1; now rewrite cos_PI2, sin_PI2|].
  unfold cexp, norm2. cbn [fst snd]. pose proof (sin2_cos2 (t / 2)) as H. unfold Rsqr in H.
  split; [apply cos_ge_0; lra|]. split; [apply sin_ge_0; lra | lra].
Qed.

Lemma near_children k : (1 <= k < 512)%nat -> near k -> near (2 * k) /\ near (2 * k + 1).
Proof.
  intros Hk Hn. pose proof (children_checked k Hk) as Hc. unfold children_ok in Hc.
  pose proof (fixed_entry k ltac:(lia)) as E0. pose proof (fixed_entry (2 * k) ltac:(lia)) as E1. pose proof (fixed_entry (2 * k + 1) ltac:(lia)) as E2.
  destruct (gm_exact_children k ltac:(lia)) as (X1 & X2 & X3 & X4 & X5). unfold near in *.
  destruct (gm_fixed (2 * k)) as [a b], (gm_fixed k) as [c d], (gm_fixed (2 * k + 1)) as [a' b']. cbn [fst snd] in *.
  repeat (apply andb_true_iff in Hc as [Hc ?]). repeat match goal with H : (_ <=? _)%Z = true |- _ => apply Z.leb_le, IZR_le in H | H : (_ =? _)%Z = true |- _ => apply Z.eqb_eq in H end.
  subst a' b'. pose proof S62_pos as HS. assert (0 < S62 * S62) as HS2 by now apply Rmult_lt_0_compat. rewrite opp_IZR in E2.
  assert (norm2 (gm_real (2 * k) - gm (2 * k))%C <= eps) as Hnear.
  - apply (near_root _ _ (gm_real k)); rewrite ?X1; try assumption.
    + rewrite E1. cbn [fst]. now apply Rle_mult_inv_pos.
    + rewrite E1. cbn [snd]. now apply Rle_mult_inv_pos.
    + rewrite E1. unfold norm2. cbn [fst snd]. 
      replace (2 ^ 124)%Z with (2 ^ 62 * 2 ^ 62)%Z in * by reflexivity. rewrite ?mult_IZR, ?plus_IZR, ?mult_IZR in *.
      replace (IZR a / S62 * (IZR a / S62) + IZR b / S62 * (IZR b / S62)) with ((IZR a * IZR a + IZR b * IZR b) / (S62 * S62)) by (field; lra).
      apply le_div; [exact HS2 | lra].
    + rewrite E0, E1. unfold norm2, FPC_MUL, FPC_SUB. cbn [fst snd r_sub r_mul r_add exact_reals].
      replace (/ IZR (2 ^ 102)) with (IZR (2 ^ 146) / (S62 * S62 * (S62 * S62))) by (rewrite <- !mult_IZR; apply div_inv; [lia | reflexivity]).
      replace (2 * a * b)%Z with (a * b + b * a)%Z in * by ring. rewrite ?plus_IZR, ?mult_IZR, ?minus_IZR, ?plus_IZR, ?mult_IZR in *.
      set (A := IZR a) in *. set (B := IZR b) in *. set (x := IZR c) in *. set (y := IZR d) in *. set (s := S62) in *.
      match goal with |- ?l <= _ => replace l with (((A * A - B * B - x * s) * (A * A - B * B - x * s) + (A * B + B * A - y * s) * (A * B + B * A - y * s)) / (s * s * (s * s))) by (field; lra) end.
      unfold Rdiv at 1 3. rewrite <- (Rmult_assoc (5 / 32)). apply Rmult_le_compat_r; [left; apply Rinv_0_lt_compat; now apply Rmult_lt_0_compat|].
      replace (2 ^ 146)%Z with (32 * 2 ^ 141)%Z by reflexivity. rewrite mult_IZR. lra.
  - split; [exact Hnear|]. rewrite X2.
    replace (gm_real (2 * k + 1)) with (Ci * gm_real (2 * k))%C.
    + replace (Ci * gm_real (2 * k) - Ci * gm (2 * k))%C with (Ci * (gm_real (2 * k) - gm (2 * k)))%C by ring.
      rewrite norm2_mul. replace (norm2 Ci) with 1 by (unfold norm2, Ci; cbn; ring). lra.
    + rewrite E1, E2. unfold FPC_MUL, Ci. cbn. f_equal; field; lra.
Qed.

Lemma near_entry k : (1 <= k < 1024)%nat -> near k.
Proof.
  induction k as [k IH] using lt_wf_ind. intros Hk. destruct (decide (k = 1)%nat) as [->|Hne].
  - unfold near. rewrite fixed_entry, gm_cexp by lia. change (gm_fixed 1) with (0, 2 ^ 62)%Z. change (gm_angle (Pos.of_nat 1)) with (PI / 2).
    unfold cexp. rewrite cos_PI2, sin_PI2. cbn [fst snd]. pose proof S62_pos. replace (0 / S62) with 0 by (field; lra). replace (S62 / S62) with 1 by (field; lra).
    unfold norm2, FPC_SUB. cbn [fst snd r_sub exact_reals]. rewrite !Rminus_diag, !Rmult_0_l, Rplus_0_l. left. apply Rinv_0_lt_compat, IZR_lt. reflexivity.
  - pose proof (Nat.div_mod_eq k 2). pose proof (Nat.mod_upper_bound k 2 ltac:(lia)).
    destruct (near_children (k / 2) ltac:(lia) (IH (k / 2)%nat ltac:(lia) ltac:(lia))) as [H1 H2].
    assert (k = 2 * (k / 2) \/ k = 2 * (k / 2) + 1)%nat as [Hc|Hc] by lia; rewrite Hc; assumption.
Qed.

Lemma square_le x e : 0 <= e -> x * x <= e * e -> Rabs x <= e.
Proof. intros He H. rewrite <- (Rabs_pos_eq e) by exact He. now apply Rsqr_le_abs_0. Qed.

Lemma p2_exact k : (k <= 10)%nat -> fpr_real (fpr_p2_tab !!! k) = 2 / 2 ^ k.
Proof.
  intros Hk. pose proof S62_pos as HS.
  assert (forallb (fun k => is_fixed62 (fpr_p2_tab !!! k) && (fixed62 (fpr_p2_tab !!! k) * 2 ^ Z.of_nat k =? 2 ^ 63)%Z) (seq 0 11) = true) as H by (vm_compute; reflexivity).
  rewrite forallb_forall in H. specialize (H k). rewrite in_seq in H. specialize (H ltac:(lia)). apply andb_true_iff in H as [H1 H2].
  apply Z.eqb_eq, (f_equal IZR) in H2. rewrite fpr_real_fixed62 by exact H1. rewrite mult_IZR, <- pow_IZR in H2.
  replace (2 ^ 63)%Z with (2 * 2 ^ 62)%Z in H2 by reflexivity. rewrite mult_IZR in H2. set (s := S62) in *.
  assert (2 ^ k <> 0) as Hp by (apply pow_nonzero; lra). set (p := 2 ^ k) in *. apply (Rmult_eq_reg_r (s * p)); [|nra]. field_simplify; lra.
Qed.

(** C30 (bounds).  The tables of the transform: entry k of the table of roots, for k in 1..1023, is within
    2^-51 of the cosine and the sine of its argument, pi times the reversed bits of k over 1024; and the table
    of powers is exact. *)
Theorem fft_tables_accurate k :
  (1 <= k < 1024)%nat ->
  Rabs (fpr_real (fpr_gm_tab !!! (2 * k)%nat) - cos (gm_angle (Pos.of_nat k))) <= / 2 ^ 51 /\
  Rabs (fpr_real (fpr_gm_tab !!! (2 * k + 1)%nat) - sin (gm_angle (Pos.of_nat k))) <= / 2 ^ 51 /\
  ((k <= 10)%nat -> fpr_real (fpr_p2_tab !!! k) = 2 / 2 ^ k).
Proof.
  intros Hk. pose proof (near_entry k Hk) as H. unfold near in H. rewrite gm_cexp in H. unfold norm2, FPC_SUB, cexp, gm_real in H. cbn [fst snd r_sub exact_reals] in H.
  assert (/ 2 ^ 51 * / 2 ^ 51 = / IZR (2 ^ 102)) as He.
  { rewrite <- Rinv_mult, <- pow_add. f_equal. apply (pow_IZR 2 102). }
  assert (0 <= / 2 ^ 51) as Hp by (left; apply Rinv_0_lt_compat, pow_lt; lra). rewrite <- He in H.
  set (x := fpr_real _ - cos _) in *. set (y := fpr_real _ - sin _) in *. set (e := / 2 ^ 51) in *. clearbody x y e.
  split; [|split; [|apply p2_exact]]; (apply square_le; [exact Hp|]); nra.
Qed.

Lemma fft_tables_accurate_witness :
  Rabs (fpr_real 4604544271217802189 - cos (PI / 4)) <= / 2 ^ 51 /\ fpr_real 4602678819172646912 = 1 / 2.
Proof.
  replace (PI / 4) with (gm_angle (Pos.of_nat 2)) by (change (gm_angle (Pos.of_nat 2)) with (PI / 2 / 2); lra).
  replace (1 / 2) with (2 / 2 ^ 2) by lra.
  destruct (fft_tables_accurate 2 ltac:(lia)) as (H1 & _ & H2). split; [exact H1 | apply H2; lia].
Defined.
