(* ===== verification/PolyBig.v ===== *)
(** PolyBig: polynomials with big coefficients in [keygen.c] (lines 1881 to 2197).

    Scaled additions of big integers, conversions of polynomials of big integers to emulated floating
    point and to small integers, and the subtraction of k f from F, by the quadratic algorithm and by
    the number theoretic transform.  A polynomial is an array of n integers, each [stride] words apart. *)

From Stdlib Require Import ZArith Lia.
From stdpp Require Import base numbers list.
From S2P Require Import Prelude NumberTheory Polynomial Butterfly Modp Primes ModpNtt Zint Crt Fpr Fft FftTable.

(** * Scaled additions *)

(** The word [v] of the signed integer [y], and its sign word past the end. *)
Definition scaled_word (y : list Z) (ylen : nat) (ysign : Z) (v : nat) : Z :=
  if (v <? ylen)%nat then y !!! v else ysign.

Definition zint_add_scaled_mul_small (x : list Z) (xlen : nat) (y : list Z) (ylen : nat) (k : Z) (sch : nat) (scl : Z) : list Z :=
  if (ylen =? 0)%nat then x
  else
    let ysign := u32 (- ((y !!! (ylen - 1)%nat) .>> 30)) .>> 1 in
    (for_up sch xlen (fun u '(tw, cc, x) =>
       let wy := scaled_word y ylen ysign (u - sch) in
       let wys := (u32 (wy .<< scl) .& 0x7FFFFFFF) .| tw in
       let tw := wy .>> (31 - scl) in
       let z := u64 (i64 (wys * k + x !!! u + cc)) in
       (tw, i32 (u32 (z .>> 31)), <[u := u32 z .& 0x7FFFFFFF]> x)) (0, 0, x)).2.

Definition zint_sub_scaled (x : list Z) (xlen : nat) (y : list Z) (ylen : nat) (sch : nat) (scl : Z) : list Z :=
  if (ylen =? 0)%nat then x
  else
    let ysign := u32 (- ((y !!! (ylen - 1)%nat) .>> 30)) .>> 1 in
    (for_up sch xlen (fun u '(tw, cc, x) =>
       let wy := scaled_word y ylen ysign (u - sch) in
       let wys := (u32 (wy .<< scl) .& 0x7FFFFFFF) .| tw in
       let tw := wy .>> (31 - scl) in
       let w := u32 (x !!! u - wys - cc) in
       (tw, w .>> 31, <[u := w .& 0x7FFFFFFF]> x)) (0, 0, x)).2.

Definition zint_one_to_plain (x : list Z) : Z :=
  let w := x !!! 0%nat in
  let w := w .| u32 ((w .& 0x40000000) .<< 1) in
  i32 w.

(** * Conversions *)

Definition poly_big_to_fp (f : list Z) (flen fstride logn : nat) : list Z :=
  let n := (2 ^ logn)%nat in
  if (flen =? 0)%nat then replicate n fpr_zero
  else
    (fun u =>
       let f := drop (u * fstride) f in
       let neg := u32 (- ((f !!! (flen - 1)%nat) .>> 30)) in
       let xm := neg .>> 1 in
       let cc := neg .& 1 in
       (for_up 0 flen (fun v '(cc, x, fsc) =>
          let w := u32 ((f !!! v .^ xm) + cc) in
          let cc := w .>> 31 in
          let w := w .& 0x7FFFFFFF in
          let w := u32 (w - (u32 (w .<< 1) .& neg)) in
          (cc, fpr_add x (fpr_mul (fpr_of (i32 w)) fsc), fpr_mul fsc fpr_ptwo31)) (cc, fpr_zero, fpr_one)).1.2) <$> seq 0 n.

(** The loop from [u] on: [None] when a coefficient is out of range (the function then returns 0 and
    the part of [d] already written is not used). *)
Fixpoint big_to_small_loop (todo u : nat) (s : list Z) (lim : Z) : option (list Z) :=
  match todo with
  | O => Some []
  | S todo =>
      let z := zint_one_to_plain (drop u s) in
      if (z <? - lim) || (lim <? z) then None
      else d ← big_to_small_loop todo (S u) s lim; Some (i8 z :: d)
  end.

Definition poly_big_to_small (s : list Z) (lim : Z) (logn : nat) : option (list Z) := big_to_small_loop (2 ^ logn) 0 s lim.

(** * Subtraction of k f *)

Definition poly_sub_scaled (F : list Z) (Flen Fstride : nat) (f : list Z) (flen fstride : nat) (k : list Z)
    (sch : nat) (scl : Z) (logn : nat) : list Z :=
  let n := (2 ^ logn)%nat in
  for_up 0 n (fun u F =>
    let kf := i32 (- (k !!! u)) in
    (for_up 0 n (fun v '(kf, x, F) =>
       let F := splice x (fun x => zint_add_scaled_mul_small x Flen (drop (v * fstride) f) flen kf sch scl) F in
       if (u + v =? n - 1)%nat then (i32 (- kf), 0%nat, F) else (kf, (x + Fstride)%nat, F))
     (kf, (u * Fstride)%nat, F)).2) F.

(** [modp_Rx] as a value: its loop ends within the 32 turns that the model allows. *)
Definition modp_Rx_value (x p p0i R2 : Z) : Z := default 0 (modp_Rx x p p0i R2).

(** One prime of the loop: [k * f] modulo [p], in column [u] of [fk]. *)
Definition sub_scaled_prime (f : list Z) (flen fstride : nat) (k : list Z) (logn tlen u : nat) (fk : list Z) : list Z :=
  let n := (2 ^ logn)%nat in
  let p := sp_p (PRIMES !!! u) in
  let p0i := modp_ninv31 p in
  let R2 := modp_R2 p p0i in
  let Rx := modp_Rx_value (Z.of_nat flen) p p0i R2 in
  let '(gm, igm) := modp_mkgm2 (replicate n 0) (replicate n 0) logn (sp_g (PRIMES !!! u)) p p0i in
  let t1 := (fun v => modp_set (k !!! v) p) <$> seq 0 n in
  let t1 := modp_NTT2 t1 gm logn p p0i in
  let fk := for_up 0 n (fun v fk =>
    <[(u + v * tlen)%nat := zint_mod_small_signed (drop (v * fstride) f) flen p p0i R2 Rx]> fk) fk in
  let fk := splice u (fun x => modp_NTT2_ext x tlen gm logn p p0i) fk in
  let fk := for_up 0 n (fun v fk =>
    <[(u + v * tlen)%nat := modp_montymul (modp_montymul (t1 !!! v) (fk !!! (u + v * tlen)%nat) p p0i) R2 p p0i]> fk) fk in
  splice u (fun x => modp_iNTT2_ext x tlen igm logn p p0i) fk.

Definition poly_sub_scaled_ntt (F : list Z) (Flen Fstride : nat) (f : list Z) (flen fstride : nat) (k : list Z)
    (sch : nat) (scl : Z) (logn : nat) : list Z :=
  let n := (2 ^ logn)%nat in
  let tlen := (flen + 1)%nat in
  let fk := for_up 0 tlen (fun u fk => sub_scaled_prime f flen fstride k logn tlen u fk) (replicate (n * tlen) 0) in
  let '(fk, _) := zint_rebuild_CRT fk tlen tlen n PRIMES true (replicate tlen 0) in
  for_up 0 n (fun u F => splice (u * Fstride) (fun x => zint_sub_scaled x Flen (drop (u * tlen) fk) tlen sch scl) F) F.

(** Both subtractions compute F - k f 2^sc: here 2^31 times (1 + X) (3 - X), in degree 2 and two words. *)
Example sub_scaled_smoke :
  poly_sub_scaled [5; 0; 7; 0] 2 2 [3; 2147483647] 1 1 [1; 1] 1 0 1 = poly_sub_scaled_ntt [5; 0; 7; 0] 2 2 [3; 2147483647] 1 1 [1; 1] 1 0 1 /\
  zsigned <$> [take 2 (poly_sub_scaled [5; 0; 7; 0] 2 2 [3; 2147483647] 1 1 [1; 1] 1 0 1); drop 2 (poly_sub_scaled [5; 0; 7; 0] 2 2 [3; 2147483647] 1 1 [1; 1] 1 0 1)] =
    [5 - 2 ^ 31 * 4; 7 - 2 ^ 31 * 2].
Proof. vm_compute. split; reflexivity. Qed.
