(* ===== verification/Ntru.v ===== *)
(** Ntru: the solver of the NTRU equation f G - g F = 12289 in [keygen.c] (lines 2300 to 3920).

    The temporary buffer of the source holds arrays one after the other; here each array is a list, and
    the moves that make room are elided.  A polynomial with big coefficients is a flat list of words, the
    integers in order; in RNS form the words of an integer are its residues modulo the first primes.
    A function that can reject its input returns an [outcome]: [Fail] is the return value 0. *)

From Stdlib Require Import ZArith Lia.
From stdpp Require Import base numbers list.
From S2P Require Import Prelude NumberTheory Polynomial Butterfly Modp Primes ModpNtt Zint Crt Bezout Fpr Fft FftTable PolyBig.

Definition MAX_BL_SMALL : list nat := [1; 1; 2; 2; 4; 7; 14; 27; 53; 106; 209]%nat.
Definition MAX_BL_LARGE : list nat := [2; 2; 5; 7; 12; 21; 40; 78; 157; 308]%nat.
Definition BITLENGTH : list (Z * Z) :=
  [(4, 0); (11, 1); (24, 1); (50, 1); (102, 1); (202, 2); (401, 4); (794, 5); (1577, 8); (3138, 13); (6308, 25)].
Definition DEPTH_INT_FG : nat := 4.

(** * The polynomials f and g at each depth *)

(** [modp_set] on every coefficient. *)
Definition residues (f : list Z) (n : nat) (p : Z) : list Z := (fun u => modp_set (f !!! u) p) <$> seq 0 n.

(** The products of the values at opposite points, in column [u] of [fd]. *)
Definition norm_column (t1 : list Z) (hn tlen u : nat) (p p0i R2 : Z) (fd : list Z) : list Z :=
  for_up 0 hn (fun v fd =>
    let w0 := t1 !!! (2 * v + 0)%nat in
    let w1 := t1 !!! (2 * v + 1)%nat in
    <[(u + v * tlen)%nat := modp_montymul (modp_montymul w0 w1 p p0i) R2 p p0i]> fd) fd.

(** The first words of f (or g): the input residues are used directly. *)
Definition fg_first (in_ntt out_ntt : bool) (logn slen tlen u : nat) (st : list Z * list Z) : list Z * list Z :=
  let '(fs, fd) := st in
  let n := (2 ^ logn)%nat in
  let hn := (n / 2)%nat in
  let p := sp_p (PRIMES !!! u) in
  let p0i := modp_ninv31 p in
  let R2 := modp_R2 p p0i in
  let '(gm, igm) := modp_mkgm2 (replicate n 0) (replicate n 0) logn (sp_g (PRIMES !!! u)) p p0i in
  let t1 := (fun v => fs !!! (u + v * slen)%nat) <$> seq 0 n in
  let t1 := if in_ntt then t1 else modp_NTT2 t1 gm logn p p0i in
  let fd := norm_column t1 hn tlen u p p0i R2 fd in
  let fs := if in_ntt then splice u (fun x => modp_iNTT2_ext x slen igm logn p p0i) fs else fs in
  let fd := if out_ntt then fd else splice u (fun x => modp_iNTT2_ext x tlen igm (logn - 1) p p0i) fd in
  (fs, fd).

(** The remaining words: reductions of the rebuilt integers. *)
Definition fg_next (out_ntt : bool) (logn slen tlen : nat) (fs : list Z) (u : nat) (fd : list Z) : list Z :=
  let n := (2 ^ logn)%nat in
  let hn := (n / 2)%nat in
  let p := sp_p (PRIMES !!! u) in
  let p0i := modp_ninv31 p in
  let R2 := modp_R2 p p0i in
  let Rx := modp_Rx_value (Z.of_nat slen) p p0i R2 in
  let '(gm, igm) := modp_mkgm2 (replicate n 0) (replicate n 0) logn (sp_g (PRIMES !!! u)) p p0i in
  let t1 := (fun v => zint_mod_small_signed (drop (v * slen) fs) slen p p0i R2 Rx) <$> seq 0 n in
  let t1 := modp_NTT2 t1 gm logn p p0i in
  let fd := norm_column t1 hn tlen u p p0i R2 fd in
  if out_ntt then fd else splice u (fun x => modp_iNTT2_ext x tlen igm (logn - 1) p p0i) fd.

(** One of the two polynomials: the source interleaves the same work on f and on g. *)
Definition make_fg_step_one (fs : list Z) (logn depth : nat) (in_ntt out_ntt : bool) : list Z :=
  let n := (2 ^ logn)%nat in
  let hn := (n / 2)%nat in
  let slen := MAX_BL_SMALL !!! depth in
  let tlen := MAX_BL_SMALL !!! (depth + 1)%nat in
  let '(fs, fd) := for_up 0 slen (fg_first in_ntt out_ntt logn slen tlen) (fs, replicate (hn * tlen) 0) in
  let '(fs, _) := zint_rebuild_CRT fs slen slen n PRIMES true (replicate slen 0) in
  for_up slen tlen (fg_next out_ntt logn slen tlen fs) fd.

Definition make_fg_step (fg : list Z * list Z) (logn depth : nat) (in_ntt out_ntt : bool) : list Z * list Z :=
  (make_fg_step_one fg.1 logn depth in_ntt out_ntt, make_fg_step_one fg.2 logn depth in_ntt out_ntt).

Definition make_fg (f g : list Z) (logn depth : nat) (out_ntt : bool) : list Z * list Z :=
  let n := (2 ^ logn)%nat in
  let p := sp_p (PRIMES !!! 0%nat) in
  let ft := residues f n p in
  let gt := residues g n p in
  if (depth =? 0)%nat then
    if out_ntt then
      let p0i := modp_ninv31 p in
      let '(gm, igm) := modp_mkgm2 (replicate n 0) (replicate n 0) logn (sp_g (PRIMES !!! 0%nat)) p p0i in
      (modp_NTT2 ft gm logn p p0i, modp_NTT2 gt gm logn p p0i)
    else (ft, gt)
  else if (depth =? 1)%nat then make_fg_step (ft, gt) logn 0 false out_ntt
  else
    let fg := make_fg_step (ft, gt) logn 0 false true in
    let fg := for_up 1 (depth - 1) (fun d fg => make_fg_step fg (logn - d) d true true) fg in
    make_fg_step fg (logn - depth + 1) (depth - 1) true out_ntt.

(** * The deepest level *)

Definition solve_NTRU_deepest (logn_top : nat) (f g : list Z) : outcome (list Z * list Z) :=
  let len := MAX_BL_SMALL !!! logn_top in
  let '(fp, gp) := make_fg f g logn_top logn_top false in
  let '(fgp, _) := zint_rebuild_CRT (fp ++ gp) len len 2 PRIMES false (replicate len 0) in
  let fp := take len fgp in
  let gp := drop len fgp in
  '(r, Gp, Fp) ← no_fail (zint_bezout fp gp len);
  fail_if (r =? 0);;
  let '(cc, Fp) := zint_mul_small Fp len 12289 in
  fail_if (negb (cc =? 0));;
  let '(cc, Gp) := zint_mul_small Gp len 12289 in
  fail_if (negb (cc =? 0));;
  Done (Fp, Gp).

(** * Unreduced F and G *)

(** The integers of [Fd], reduced modulo the first [llen] primes, as [hn] integers of [llen] words. *)
Definition reduce_deeper (Fd : list Z) (n hn dlen llen : nat) : list Z :=
  for_up 0 llen (fun u Ft =>
    let p := sp_p (PRIMES !!! u) in
    let p0i := modp_ninv31 p in
    let R2 := modp_R2 p p0i in
    let Rx := modp_Rx_value (Z.of_nat dlen) p p0i R2 in
    for_up 0 hn (fun v Ft => <[(u + v * llen)%nat := zint_mod_small_signed (drop (v * dlen) Fd) dlen p p0i R2 Rx]> Ft) Ft)
    (replicate (n * llen) 0).

(** Column [u] of [Ft] becomes F'(x^2) times the values [gx] of the other polynomial at the opposite
    points, and is transformed back. *)
Definition lift_column (gx gm igm : list Z) (logn llen u : nat) (p p0i R2 : Z) (Ft : list Z) : list Z :=
  let hn := (2 ^ logn / 2)%nat in
  let Fp := (fun v => Ft !!! (u + v * llen)%nat) <$> seq 0 hn in
  let Fp := modp_NTT2 Fp gm (logn - 1) p p0i in
  let Ft := for_up 0 hn (fun v Ft =>
    let gtA := gx !!! (2 * v + 0)%nat in
    let gtB := gx !!! (2 * v + 1)%nat in
    let mFp := modp_montymul (Fp !!! v) R2 p p0i in
    let x := (u + 2 * v * llen)%nat in
    let Ft := <[x := modp_montymul gtB mFp p p0i]> Ft in
    <[(x + llen)%nat := modp_montymul gtA mFp p p0i]> Ft) Ft in
  splice u (fun x => modp_iNTT2_ext x llen igm logn p p0i) Ft.

(** One prime of the loop of [solve_NTRU_intermediate]. *)
Definition intermediate_prime (logn slen llen u : nat) (st : list Z * list Z * list Z * list Z) : list Z * list Z * list Z * list Z :=
  let '(ft, gt, Ft, Gt') := st in
  let n := (2 ^ logn)%nat in
  let p := sp_p (PRIMES !!! u) in
  let p0i := modp_ninv31 p in
  let R2 := modp_R2 p p0i in
  let '(ft, gt) :=
    if (u =? slen)%nat
    then ((zint_rebuild_CRT ft slen slen n PRIMES true (replicate slen 0)).1, (zint_rebuild_CRT gt slen slen n PRIMES true (replicate slen 0)).1)
    else (ft, gt) in
  let '(gm, igm) := modp_mkgm2 (replicate n 0) (replicate n 0) logn (sp_g (PRIMES !!! u)) p p0i in
  let '(fx, gx, ft, gt) :=
    if (u <? slen)%nat then
      ((fun v => ft !!! (u + v * slen)%nat) <$> seq 0 n, (fun v => gt !!! (u + v * slen)%nat) <$> seq 0 n,
       splice u (fun x => modp_iNTT2_ext x slen igm logn p p0i) ft, splice u (fun x => modp_iNTT2_ext x slen igm logn p p0i) gt)
    else
      let Rx := modp_Rx_value (Z.of_nat slen) p p0i R2 in
      let fx := (fun v => zint_mod_small_signed (drop (v * slen) ft) slen p p0i R2 Rx) <$> seq 0 n in
      let gx := (fun v => zint_mod_small_signed (drop (v * slen) gt) slen p p0i R2 Rx) <$> seq 0 n in
      (modp_NTT2 fx gm logn p p0i, modp_NTT2 gx gm logn p p0i, ft, gt) in
  (ft, gt, lift_column gx gm igm logn llen u p p0i R2 Ft, lift_column fx gm igm logn llen u p p0i R2 Gt').

(** * Babai's reduction *)

(** [while (dc != 0)]: [pt] to the power [dc]. *)
Fixpoint pow_loop (fuel : nat) (dc pt pdc : Z) : Z :=
  match fuel with
  | O => pdc
  | S fuel =>
      if dc =? 0 then pdc
      else
        let pdc := if negb ((dc .& 1) =? 0) then fpr_mul pdc pt else pdc in
        pow_loop fuel (dc .>> 1) (fpr_sqr pt) pdc
  end.

(** The rounded coefficients of k: [None] when one is out of the range of 32 bits. *)
Fixpoint round_k (rt2 : list Z) (pdc : Z) : option (list Z) :=
  match rt2 with
  | [] => Some []
  | z :: rt2 =>
      let xv := fpr_mul z pdc in
      if (fpr_lt fpr_mtwo31m1 xv =? 0) || (fpr_lt xv fpr_ptwo31m1 =? 0) then None
      else k ← round_k rt2 pdc; Some (i32 (fpr_rint xv) :: k)
  end.

Definition truncated_length (len : nat) : nat := if (10 <? len)%nat then 10%nat else len.

(** [for (;;)]: the scale of k goes down by 25 at each turn. *)
Fixpoint babai_loop (fuel : nat) (logn depth slen llen : nat) (ft gt rt3 rt4 rt5 : list Z) (scale_fg maxbl_fg : Z)
    (FGlen : nat) (maxbl_FG scale_k : Z) (Ft Gt' : list Z) : outcome (nat * list Z * list Z) :=
  match fuel with
  | O => Stuck
  | S fuel =>
      let rlen := truncated_length FGlen in
      let scale_FG := 31 * Z.of_nat (FGlen - rlen) in
      let rt1 := poly_big_to_fp (drop (FGlen - rlen) Ft) rlen llen logn in
      let rt2 := poly_big_to_fp (drop (FGlen - rlen) Gt') rlen llen logn in
      let rt1 := FFT rt1 logn in
      let rt2 := FFT rt2 logn in
      let rt1 := poly_mul_fft rt1 rt3 logn in
      let rt2 := poly_mul_fft rt2 rt4 logn in
      let rt2 := poly_add rt2 rt1 logn in
      let rt2 := poly_mul_autoadj_fft rt2 rt5 logn in
      let rt2 := iFFT rt2 logn in
      let dc := scale_k - scale_FG + scale_fg in
      let '(dc, pt) := if dc <? 0 then (- dc, fpr_two) else (dc, fpr_onehalf) in
      let pdc := pow_loop 32 dc pt fpr_one in
      match round_k rt2 pdc with
      | None => Fail
      | Some k =>
          let sch := Z.to_nat (scale_k / 31) in
          let scl := scale_k mod 31 in
          let '(Ft, Gt') :=
            if (depth <=? DEPTH_INT_FG)%nat
            then (poly_sub_scaled_ntt Ft FGlen llen ft slen slen k sch scl logn,
                  poly_sub_scaled_ntt Gt' FGlen llen gt slen slen k sch scl logn)
            else (poly_sub_scaled Ft FGlen llen ft slen slen k sch scl logn,
                  poly_sub_scaled Gt' FGlen llen gt slen slen k sch scl logn) in
          let new_maxbl_FG := scale_k + maxbl_fg + 10 in
          let '(maxbl_FG, FGlen) :=
            if new_maxbl_FG <? maxbl_FG
            then (new_maxbl_FG, if new_maxbl_FG + 31 <=? Z.of_nat FGlen * 31 then (FGlen - 1)%nat else FGlen)
            else (maxbl_FG, FGlen) in
          if scale_k <=? 0 then Done (FGlen, Ft, Gt')
          else babai_loop fuel logn depth slen llen ft gt rt3 rt4 rt5 scale_fg maxbl_fg FGlen maxbl_FG (Z.max (scale_k - 25) 0) Ft Gt'
      end
  end.

(** Sign extension up to [slen] words, and compression to [slen] words per integer. *)
Definition compress (F : list Z) (n FGlen slen llen : nat) : list Z :=
  u ← seq 0 n;
  let x := take llen (drop (u * llen) F) in
  let sw := u32 (- ((x !!! (FGlen - 1)%nat) .>> 30)) .>> 1 in
  take slen (for_up FGlen slen (fun v x => <[v := sw]> x) x).

Definition solve_NTRU_intermediate (logn_top : nat) (f g : list Z) (depth : nat) (FGd : list Z * list Z) : outcome (list Z * list Z) :=
  let '(Fd, Gd) := FGd in
  let logn := (logn_top - depth)%nat in
  let n := (2 ^ logn)%nat in
  let hn := (n / 2)%nat in
  let slen := MAX_BL_SMALL !!! depth in
  let dlen := MAX_BL_SMALL !!! (depth + 1)%nat in
  let llen := MAX_BL_LARGE !!! depth in
  let '(ft, gt) := make_fg f g logn_top depth true in
  let Ft := reduce_deeper Fd n hn dlen llen in
  let Gt' := reduce_deeper Gd n hn dlen llen in
  let '(ft, gt, Ft, Gt') := for_up 0 llen (intermediate_prime logn slen llen) (ft, gt, Ft, Gt') in
  let '(Ft, _) := zint_rebuild_CRT Ft llen llen n PRIMES true (replicate llen 0) in
  let '(Gt', _) := zint_rebuild_CRT Gt' llen llen n PRIMES true (replicate llen 0) in
  let rlen := truncated_length slen in
  let rt3 := poly_big_to_fp (drop (slen - rlen) ft) rlen slen logn in
  let rt4 := poly_big_to_fp (drop (slen - rlen) gt) rlen slen logn in
  let scale_fg := 31 * Z.of_nat (slen - rlen) in
  let minbl_fg := (BITLENGTH !!! depth).1 - 6 * (BITLENGTH !!! depth).2 in
  let maxbl_fg := (BITLENGTH !!! depth).1 + 6 * (BITLENGTH !!! depth).2 in
  let rt3 := FFT rt3 logn in
  let rt4 := FFT rt4 logn in
  let rt5 := poly_invnorm2_fft (replicate hn fpr_zero) rt3 rt4 logn in
  let rt3 := poly_adj_fft rt3 logn in
  let rt4 := poly_adj_fft rt4 logn in
  let maxbl_FG := 31 * Z.of_nat llen in
  let scale_k := maxbl_FG - minbl_fg in
  '(FGlen, Ft, Gt') ← babai_loop (Z.to_nat scale_k + 1) logn depth slen llen ft gt rt3 rt4 rt5 scale_fg maxbl_fg llen maxbl_FG scale_k Ft Gt';
  Done (compress Ft n FGlen slen llen, compress Gt' n FGlen slen llen).

(** * Depth 1 *)

(** f (or g) modulo [p] in degree n_top, transformed and brought down to degree n = n_top / 2. *)
Definition depth1_values (f gm : list Z) (logn_top logn : nat) (p p0i R2 : Z) : list Z :=
  let fx := residues f (2 ^ logn_top) p in
  let fx := modp_NTT2 fx gm logn_top p p0i in
  let fx := for_up 0 (logn_top - logn) (fun i fx => modp_poly_rec_res fx (logn_top - i) p p0i R2) fx in
  take (2 ^ logn) fx.

(** One prime of the loop of [solve_NTRU_binary_depth1]. *)
Definition depth1_prime (f g : list Z) (logn_top slen llen u : nat) (st : list Z * list Z * list Z * list Z) : list Z * list Z * list Z * list Z :=
  let '(ft, gt, Ft, Gt') := st in
  let logn := (logn_top - 1)%nat in
  let n_top := (2 ^ logn_top)%nat in
  let n := (2 ^ logn)%nat in
  let p := sp_p (PRIMES !!! u) in
  let p0i := modp_ninv31 p in
  let R2 := modp_R2 p p0i in
  let '(gm, igm) := modp_mkgm2 (replicate n_top 0) (replicate n_top 0) logn_top (sp_g (PRIMES !!! u)) p p0i in
  let fx := depth1_values f gm logn_top logn p p0i R2 in
  let gx := depth1_values g gm logn_top logn p p0i R2 in
  let gm := take n gm in
  let igm := take n igm in
  let Ft := lift_column gx gm igm logn llen u p p0i R2 Ft in
  let Gt' := lift_column fx gm igm logn llen u p p0i R2 Gt' in
  if (u <? slen)%nat then
    let fx := modp_iNTT2 fx igm logn p p0i in
    let gx := modp_iNTT2 gx igm logn p p0i in
    (for_up 0 n (fun v ft => <[(u + v * slen)%nat := fx !!! v]> ft) ft,
     for_up 0 n (fun v gt => <[(u + v * slen)%nat := gx !!! v]> gt) gt, Ft, Gt')
  else (ft, gt, Ft, Gt').

(** [fpr_of(fpr_rint(z))] for each coefficient: [None] when one is out of the range of 64 bits. *)
Fixpoint round_all (rt : list Z) : option (list Z) :=
  match rt with
  | [] => Some []
  | z :: rt =>
      if (fpr_lt z fpr_ptwo63m1 =? 0) || (fpr_lt fpr_mtwo63m1 z =? 0) then None
      else r ← round_all rt; Some (fpr_of (fpr_rint z) :: r)
  end.

Definition solve_NTRU_binary_depth1 (logn_top : nat) (f g : list Z) (FGd : list Z * list Z) : outcome (list Z * list Z) :=
  let '(Fd, Gd) := FGd in
  let depth := 1%nat in
  let logn := (logn_top - depth)%nat in
  let n := (2 ^ logn)%nat in
  let hn := (n / 2)%nat in
  let slen := MAX_BL_SMALL !!! depth in
  let dlen := MAX_BL_SMALL !!! (depth + 1)%nat in
  let llen := MAX_BL_LARGE !!! depth in
  let Ft := reduce_deeper Fd n hn dlen llen in
  let Gt' := reduce_deeper Gd n hn dlen llen in
  let ft := replicate (n * slen) 0 in
  let '(ft, gt, Ft, Gt') := for_up 0 llen (depth1_prime f g logn_top slen llen) (ft, ft, Ft, Gt') in
  let '(FGt, _) := zint_rebuild_CRT (Ft ++ Gt') llen llen (2 * n) PRIMES true (replicate llen 0) in
  let '(fgt, _) := zint_rebuild_CRT (ft ++ gt) slen slen (2 * n) PRIMES true (replicate slen 0) in
  let rt1 := poly_big_to_fp FGt llen llen logn in
  let rt2 := poly_big_to_fp (drop (llen * n) FGt) llen llen logn in
  let rt3 := poly_big_to_fp fgt slen slen logn in
  let rt4 := poly_big_to_fp (drop (slen * n) fgt) slen slen logn in
  let rt1 := FFT rt1 logn in
  let rt2 := FFT rt2 logn in
  let rt3 := FFT rt3 logn in
  let rt4 := FFT rt4 logn in
  let rt5 := poly_add_muladj_fft (replicate n fpr_zero) rt1 rt2 rt3 rt4 logn in
  let rt6 := poly_invnorm2_fft (replicate hn fpr_zero) rt3 rt4 logn in
  let rt5 := poly_mul_autoadj_fft rt5 rt6 logn in
  let rt5 := iFFT rt5 logn in
  match round_all rt5 with
  | None => Fail
  | Some rt5 =>
      let rt5 := FFT rt5 logn in
      let rt3 := poly_mul_fft rt3 rt5 logn in
      let rt4 := poly_mul_fft rt4 rt5 logn in
      let rt1 := poly_sub rt1 rt3 logn in
      let rt2 := poly_sub rt2 rt4 logn in
      let rt1 := iFFT rt1 logn in
      let rt2 := iFFT rt2 logn in
      Done ((fun u => u32 (fpr_rint (rt1 !!! u))) <$> seq 0 n, (fun u => u32 (fpr_rint (rt2 !!! u))) <$> seq 0 n)
  end.

(** * Depth 0 *)

(** The adjoint: f[0], -f[n-1], ..., -f[1]. *)
Definition adjoint_residues (f : list Z) (n : nat) (p : Z) : list Z :=
  for_up 1 n (fun u t5 => <[(n - u)%nat := modp_set (- (f !!! u)) p]> t5) (<[0%nat := modp_set (f !!! 0%nat) p]> (replicate n 0)).

Definition solve_NTRU_binary_depth0 (logn : nat) (f g : list Z) (FGd : list Z * list Z) : outcome (list Z * list Z) :=
  let '(Fd, Gd) := FGd in
  let n := (2 ^ logn)%nat in
  let hn := (n / 2)%nat in
  let p := sp_p (PRIMES !!! 0%nat) in
  let p0i := modp_ninv31 p in
  let R2 := modp_R2 p p0i in
  let '(gm, igm) := modp_mkgm2 (replicate n 0) (replicate n 0) logn (sp_g (PRIMES !!! 0%nat)) p p0i in
  let mul a b := modp_montymul a b p p0i in
  (* F' and G' *)
  let Fp := (fun u => modp_set (zint_one_to_plain (drop u Fd)) p) <$> seq 0 hn in
  let Gp := (fun u => modp_set (zint_one_to_plain (drop u Gd)) p) <$> seq 0 hn in
  let Fp := modp_NTT2 Fp gm (logn - 1) p p0i in
  let Gp := modp_NTT2 Gp gm (logn - 1) p p0i in
  let ft := modp_NTT2 (residues f n p) gm logn p p0i in
  let gt := modp_NTT2 (residues g n p) gm logn p p0i in
  (* the unreduced F and G *)
  let '(ft, gt) := for_up 0 hn (fun v '(ft, gt) =>
    let u := (2 * v)%nat in
    let ftA := ft !!! (u + 0)%nat in
    let ftB := ft !!! (u + 1)%nat in
    let gtA := gt !!! (u + 0)%nat in
    let gtB := gt !!! (u + 1)%nat in
    let mFp := mul (Fp !!! v) R2 in
    let mGp := mul (Gp !!! v) R2 in
    (<[(u + 1)%nat := mul gtA mFp]> (<[(u + 0)%nat := mul gtB mFp]> ft),
     <[(u + 1)%nat := mul ftA mGp]> (<[(u + 0)%nat := mul ftB mGp]> gt))) (ft, gt) in
  let Fp := modp_iNTT2 ft igm logn p p0i in
  let Gp := modp_iNTT2 gt igm logn p p0i in
  (* F adj(f) + G adj(g) and f adj(f) + g adj(g) *)
  let Fp := modp_NTT2 Fp gm logn p p0i in
  let Gp := modp_NTT2 Gp gm logn p p0i in
  let t4 := modp_NTT2 (residues f n p) gm logn p p0i in
  let t5 := modp_NTT2 (adjoint_residues f n p) gm logn p p0i in
  let t2 := (fun u => mul (mul (t5 !!! u) R2) (Fp !!! u)) <$> seq 0 n in
  let t3 := (fun u => mul (mul (t5 !!! u) R2) (t4 !!! u)) <$> seq 0 n in
  let t4 := modp_NTT2 (residues g n p) gm logn p p0i in
  let t5 := modp_NTT2 (adjoint_residues g n p) gm logn p p0i in
  let t2 := (fun u => modp_add (t2 !!! u) (mul (mul (t5 !!! u) R2) (Gp !!! u)) p) <$> seq 0 n in
  let t3 := (fun u => modp_add (t3 !!! u) (mul (mul (t5 !!! u) R2) (t4 !!! u)) p) <$> seq 0 n in
  let t2 := modp_iNTT2 t2 igm logn p p0i in
  let t3 := modp_iNTT2 t3 igm logn p p0i in
  let t1 := (fun u => modp_norm (t2 !!! u) p) <$> seq 0 n in
  let t2 := (fun u => modp_norm (t3 !!! u) p) <$> seq 0 n in
  (* their quotient, rounded *)
  let rt2 := take hn (FFT ((fun u => fpr_of (t2 !!! u)) <$> seq 0 n) logn) in
  let rt3 := FFT ((fun u => fpr_of (t1 !!! u)) <$> seq 0 n) logn in
  let rt3 := poly_div_autoadj_fft rt3 rt2 logn in
  let rt3 := iFFT rt3 logn in
  let t1 := (fun u => modp_set (i32 (fpr_rint (rt3 !!! u))) p) <$> seq 0 n in
  (* F - k f and G - k g *)
  let t1 := modp_NTT2 t1 gm logn p p0i in
  let t4 := modp_NTT2 (residues f n p) gm logn p p0i in
  let t5 := modp_NTT2 (residues g n p) gm logn p p0i in
  let Fp := (fun u => modp_sub (Fp !!! u) (mul (mul (t1 !!! u) R2) (t4 !!! u)) p) <$> seq 0 n in
  let Gp := (fun u => modp_sub (Gp !!! u) (mul (mul (t1 !!! u) R2) (t5 !!! u)) p) <$> seq 0 n in
  let Fp := modp_iNTT2 Fp igm logn p p0i in
  let Gp := modp_iNTT2 Gp igm logn p p0i in
  Done ((fun u => u32 (modp_norm (Fp !!! u) p)) <$> seq 0 n, (fun u => u32 (modp_norm (Gp !!! u) p)) <$> seq 0 n).

(** * The whole solver *)

(** [while (depth -- > stop)]. *)
Fixpoint intermediate_levels (logn : nat) (f g : list Z) (depth stop : nat) (FG : list Z * list Z) : outcome (list Z * list Z) :=
  match depth with
  | O => Done FG
  | S d =>
      if (stop <? depth)%nat
      then FG ← solve_NTRU_intermediate logn f g d FG; intermediate_levels logn f g d stop FG
      else Done FG
  end.

(** F and G, one word per coefficient, before they are checked. *)
Definition solve_steps (logn : nat) (f g : list Z) : outcome (list Z * list Z) :=
  FG ← solve_NTRU_deepest logn f g;
  if (logn <=? 2)%nat then intermediate_levels logn f g logn 0 FG
  else
    FG ← intermediate_levels logn f g logn 2 FG;
    FG ← solve_NTRU_binary_depth1 logn f g FG;
    solve_NTRU_binary_depth0 logn f g FG.

(** The final check: [false] when the equation does not hold at some point. *)
Definition ntru_equation_holds (logn : nat) (f g F G : list Z) : bool :=
  let n := (2 ^ logn)%nat in
  let p := sp_p (PRIMES !!! 0%nat) in
  let p0i := modp_ninv31 p in
  let '(gm, _) := modp_mkgm2 (replicate n 0) (replicate n 0) logn (sp_g (PRIMES !!! 0%nat)) p p0i in
  let Gt' := residues G n p in
  let ft := residues f n p in
  let gt := residues g n p in
  let Ft := residues F n p in
  let ft := modp_NTT2 ft gm logn p p0i in
  let gt := modp_NTT2 gt gm logn p p0i in
  let Ft := modp_NTT2 Ft gm logn p p0i in
  let Gt' := modp_NTT2 Gt' gm logn p p0i in
  let r := modp_montymul 12289 1 p p0i in
  forallb (fun u =>
    let z := modp_sub (modp_montymul (ft !!! u) (Gt' !!! u) p p0i) (modp_montymul (gt !!! u) (Ft !!! u) p p0i) p in
    z =? r) (seq 0 n).

Definition solve_NTRU (logn : nat) (f g : list Z) (lim : Z) : outcome (list Z * list Z) :=
  '(Ft, Gt') ← solve_steps logn f g;
  match poly_big_to_small Ft lim logn, poly_big_to_small Gt' lim logn with
  | Some F, Some G => if ntru_equation_holds logn f g F G then Done (F, G) else Fail
  | _, _ => Fail
  end.
