(* ===== verification/NtruSpec.v ===== *)
(** NtruSpec: what a successful run of the NTRU solver establishes.

    The solver is a numeric search that may fail; its result is checked, modulo one prime and at the
    points of the transform.  The check is exact: coefficients are too small for the equation to hold
    modulo the prime and not over the integers ([ntru_equation_iff]). *)

From Stdlib Require Import ZArith Lia.
From stdpp Require Import base numbers list.
From S2P Require Import Prelude NumberTheory Polynomial Butterfly Modp Primes ModpNtt Zint Crt Bezout PolyBig Ntru.

(** f G - g F = 12289 in Z[X]/(X^n + 1), over the integers. *)
Definition ntru_equation (logn : nat) (f g F G : list Z) : Prop :=
  let n := (2 ^ logn)%nat in
  psub (ring_mul n f G) (ring_mul n g F) = 12289 :: replicate (n - 1) 0.

(** Polynomials of degree below n with coefficients in -127..127. *)
Definition byte_poly (logn : nat) (f : list Z) : Prop := length f = (2 ^ logn)%nat /\ pbound 127 f.

Abbreviation p := (sp_p (PRIMES !!! 0%nat)).
Abbreviation p0i := (modp_ninv31 p).
Abbreviation gen := (sp_g (PRIMES !!! 0%nat)).

Lemma first_entry : (0 < num_primes)%nat.
Proof. apply Nat.ltb_lt. reflexivity. Qed.

Lemma p_range : 2 ^ 30 < p < 2 ^ 31.
Proof. exact (entry_range 0 first_entry). Qed.

#[local] Opaque PRIMES modp_mkgm2.

Section Check.
Context (logn : nat) (Hlogn : (logn <= 10)%nat).
Abbreviation n := (2 ^ logn)%nat.
Abbreviation rho k := (tree_root (mtw gen) (n + k)).

Lemma residues_spec f : length f = n -> pbound 127 f -> pok p n (residues f n p) /\ pcong p (residues f n p) f.
Proof using Type. clear Hlogn.
  intros Hl Hf. pose proof p_range as Hp.
  assert (forall k, (k < n)%nat -> residues f n p !!! k = f !!! k mod p) as Hk.
  { intros k Hk. unfold residues. rewrite (@list_lookup_total_fmap nat Z (fun u => modp_set (f !!! u) p) _ _) by now rewrite length_seq.
    rewrite lookup_total_seq_lt by done. apply modp_set_spec; [exact Hp|]. unfold pbound in Hf. rewrite Forall_lookup_total in Hf.
    specialize (Hf k ltac:(lia)). cbn beta in Hf. lia. }
  assert (length (residues f n p) = n) as Hrl by (unfold residues; now rewrite length_fmap, length_seq).
  split.
  - apply pok_intro; [done|]. intros k Hkn. rewrite Hk by done. apply Z.mod_pos_bound. lia.
  - apply pcong_lookup; [lia|]. intros k Hkn. rewrite Hk by lia. apply cong_mod. lia.
Qed.

(** The transform of a small polynomial holds its values. *)
Lemma residues_values gm igm f : tables_ok p gen logn gm igm -> byte_poly logn f ->
  pok p n (modp_NTT2 (residues f n p) gm logn p p0i) /\
  forall k, (k < n)%nat -> modp_NTT2 (residues f n p) gm logn p p0i !!! k ≡[p] peval f (rho k).
Proof using Hlogn.
  intros Ht [Hl Hb]. destruct (residues_spec f Hl Hb) as [Hok Hc].
  destruct (entry_NTT2 0 first_entry logn Hlogn gm igm Ht _ Hok) as [Hr Hv]. split; [exact Hr|].
  intros k Hk. rewrite Hv by done. rewrite Hc. reflexivity.
Qed.

(** A point passes the test when the equation holds there. *)
Lemma point_test fa ga Fa Ga f g F G : residue p fa -> residue p ga -> residue p Fa -> residue p Ga ->
  fa ≡[p] f -> ga ≡[p] g -> Fa ≡[p] F -> Ga ≡[p] G ->
  (modp_sub (modp_montymul fa Ga p p0i) (modp_montymul ga Fa p p0i) p =? modp_montymul 12289 1 p p0i) = true <->
  f * G - g * F ≡[p] 12289.
Proof using Type. clear Hlogn.
  intros Hf Hg HF HG Ef Eg EF EG. pose proof p_range as Hp. pose proof (entry_ninv 0 first_entry) as Hn. unfold residue in *.
  destruct (modp_montymul_spec p p0i Hp Hn fa Ga) as [R1 C1]; [lia | lia | nia |].
  destruct (modp_montymul_spec p p0i Hp Hn ga Fa) as [R2 C2]; [lia | lia | nia |].
  destruct (modp_montymul_spec p p0i Hp Hn 12289 1) as [R3 C3]; [lia | lia | nia |].
  rewrite (modp_sub_spec p Hp _ _ R1 R2). set (m1 := modp_montymul fa Ga p p0i) in *. set (m2 := modp_montymul ga Fa p p0i) in *.
  set (r := modp_montymul 12289 1 p p0i) in *. clearbody m1 m2 r. rewrite Ef, EG in C1. rewrite Eg, EF in C2. rewrite Z.eqb_eq.
  assert ((m1 - m2) mod p = r <-> m1 - m2 ≡[p] r) as ->.
  { rewrite cong_mod_iff by lia. now rewrite (Z.mod_small r) by (unfold residue in R3; lia). }
  assert ((m1 - m2) * 2 ^ 31 ≡[p] f * G - g * F) as Hd.
  { transitivity (m1 * 2 ^ 31 - m2 * 2 ^ 31); [apply (cong_intro _ _ _ 0); ring|]. rewrite C1, C2. reflexivity. }
  rewrite <- Hd. split.
  - intros ->. rewrite C3. reflexivity.
  - intros H. apply (two31_cancel p p0i Hn). rewrite H, C3. reflexivity.
Qed.

Lemma constant_value x : peval (12289 :: replicate (n - 1) 0) x = 12289.
Proof using Type. clear Hlogn. rewrite peval_cons, peval_zeros. ring. Qed.

(** The check decides the equation. *)
Lemma ntru_equation_iff f g F G : byte_poly logn f -> byte_poly logn g -> byte_poly logn F -> byte_poly logn G ->
  ntru_equation_holds logn f g F G = true <-> ntru_equation logn f g F G.
Proof using Hlogn.
  intros Hf Hg HF HG. pose proof p_range as Hp. pose proof (n_at_most logn Hlogn) as Hn. unfold ntru_equation_holds.
  pose proof (entry_tables 0 first_entry logn (replicate n 0) (replicate n 0) Hlogn ltac:(apply length_replicate) ltac:(apply length_replicate)) as (_ & _ & Ht).
  destruct (modp_mkgm2 _ _ _ _ _ _) as [gm igm]. cbn [fst snd] in Ht. cbv zeta.
  destruct (residues_values gm igm f Ht Hf) as [Of Vf]. destruct (residues_values gm igm g Ht Hg) as [Og Vg].
  destruct (residues_values gm igm F Ht HF) as [OF VF]. destruct (residues_values gm igm G Ht HG) as [OG VG].
  set (ft := modp_NTT2 (residues f n p) gm logn p p0i) in *. set (gt := modp_NTT2 (residues g n p) gm logn p p0i) in *.
  set (Ft := modp_NTT2 (residues F n p) gm logn p p0i) in *. set (Gt' := modp_NTT2 (residues G n p) gm logn p p0i) in *.
  clearbody ft gt Ft Gt'.
  assert (forall k, (k < n)%nat -> peval (psub (ring_mul n f G) (ring_mul n g F)) (rho k) ≡[p]
    peval f (rho k) * peval G (rho k) - peval g (rho k) * peval F (rho k)) as Hval.
  { intros k Hk. pose proof (mpoint_root p gen Hp (entry_prime 0 first_entry) (entry_half_turn 0 first_entry) logn Hlogn k Hk) as Hroot.
    rewrite peval_psub by (rewrite !length_ring_mul; apply HF || apply HG || done).
    rewrite !(peval_ring_mul p n) by (apply HF || apply HG || exact Hroot || lia). reflexivity. }
  rewrite forallb_forall. transitivity (forall k, (k < n)%nat -> peval (psub (ring_mul n f G) (ring_mul n g F)) (rho k) ≡[p] 12289).
  - split.
    + intros H k Hk. rewrite Hval by done. apply (point_test (ft !!! k) (gt !!! k) (Ft !!! k) (Gt' !!! k)); try (now apply (pok_lookup p n)); try (now auto).
      apply H, in_seq. lia.
    + intros H k Hk%in_seq. assert (k < n)%nat as Hkn by lia. specialize (H k Hkn). rewrite Hval in H by done.
      refine (proj2 (point_test _ _ _ _ _ _ _ _ _ _ _ _ (Vf k Hkn) (Vg k Hkn) (VF k Hkn) (VG k Hkn)) H); now apply (pok_lookup p n).
  - unfold ntru_equation. split; [|intros -> k _; rewrite constant_value; reflexivity].
    intros H. apply (pcong_small p (1024 * (127 * 127) + 1024 * (127 * 127)) 12289).
    + pose proof p_range. lia.
    + assert (forall a b, byte_poly logn a -> byte_poly logn b -> pbound (1024 * (127 * 127)) (ring_mul n a b)) as Hb.
      { intros a b [Hla Ha] [Hlb Hb]. eapply Forall_impl; [exact (pbound_ring_mul 127 127 n a b ltac:(lia) ltac:(lia) Ha Hb)|].
        cbn beta. intros c Hc. rewrite Hla in Hc. lia. }
      apply pbound_psub; now apply Hb.
    + constructor; [lia|]. apply Forall_replicate. lia.
    + apply (mpoints_determine p gen Hp (entry_prime 0 first_entry) (entry_half_turn 0 first_entry) logn Hlogn).
      * unfold psub. rewrite length_zip_with, !length_ring_mul by (apply HF || apply HG). lia.
      * cbn [length]. rewrite length_replicate. lia.
      * intros k Hk. rewrite constant_value. now apply H.
Qed.
End Check.

(** * The coefficients that are returned *)

Lemma big_to_small_loop_spec todo : forall u s lim d, 0 <= lim <= 127 ->
  big_to_small_loop todo u s lim = Some d -> length d = todo /\ pbound lim d.
Proof.
  induction todo as [|todo IH]; intros u s lim d Hlim H; cbn [big_to_small_loop] in H.
  - injection H as <-. split; [done | constructor].
  - destruct (Z.ltb_spec (zint_one_to_plain (drop u s)) (- lim)); [done|]. destruct (Z.ltb_spec lim (zint_one_to_plain (drop u s))); [done|].
    cbn [orb] in H. destruct (big_to_small_loop todo (S u) s lim) as [d'|] eqn:E; [|done]. injection H as <-.
    destruct (IH _ _ _ _ Hlim E) as [Hl Hb]. split; [cbn [length]; lia|]. constructor; [|exact Hb].
    rewrite sext_small by lia. lia.
Qed.

(** A successful run returns a small solution of the equation. *)
Lemma solve_NTRU_spec logn f g lim F G :
  (logn <= 10)%nat -> 0 <= lim <= 127 -> byte_poly logn f -> byte_poly logn g ->
  solve_NTRU logn f g lim = Done (F, G) ->
  length F = (2 ^ logn)%nat /\ length G = (2 ^ logn)%nat /\ pbound lim F /\ pbound lim G /\ ntru_equation logn f g F G.
Proof.
  intros Hl Hlim Hf Hg H. unfold solve_NTRU in H. apply bind_Done in H as ([Ft Gt'] & _ & H).
  unfold poly_big_to_small in H. destruct (big_to_small_loop (2 ^ logn) 0 Ft lim) as [F'|] eqn:EF; [|done].
  destruct (big_to_small_loop (2 ^ logn) 0 Gt' lim) as [G'|] eqn:EG; [|done].
  destruct (ntru_equation_holds logn f g F' G') eqn:Eq; [|done]. injection H as <- <-.
  destruct (big_to_small_loop_spec _ _ _ _ _ Hlim EF) as [LF BF]. destruct (big_to_small_loop_spec _ _ _ _ _ Hlim EG) as [LG BG].
  split; [exact LF|]. split; [exact LG|]. split; [exact BF|]. split; [exact BG|].
  apply (ntru_equation_iff logn Hl); [exact Hf | exact Hg | | | exact Eq]; (split; [assumption|]);
    (eapply Forall_impl; [eassumption|]); cbn beta; lia.
Qed.

(** * The solver always returns *)

(** The scale of k decreases to zero. *)
Lemma babai_loop_returns fuel : forall logn depth slen llen ft gt rt3 rt4 rt5 scale_fg maxbl_fg FGlen maxbl_FG scale_k Ft Gt',
  (Z.to_nat scale_k < fuel)%nat ->
  babai_loop fuel logn depth slen llen ft gt rt3 rt4 rt5 scale_fg maxbl_fg FGlen maxbl_FG scale_k Ft Gt' <> Stuck.
Proof.
  induction fuel as [|fuel IH]; intros * Hf; [lia|]. cbn [babai_loop]. cbv zeta. repeat (case_match; subst); first [done | apply IH; lia].
Qed.

Lemma small_lengths : forallb (fun len => (len <=? 209)%nat) MAX_BL_SMALL = true.
Proof. reflexivity. Qed.

Lemma small_length_at d : (MAX_BL_SMALL !!! d <= 209)%nat.
Proof.
  destruct (decide (d < length MAX_BL_SMALL)%nat) as [Hd|Hd].
  - pose proof small_lengths as H. rewrite forallb_forall in H. apply Nat.leb_le, H, list_elem_of_In, list_elem_of_lookup_total_2, Hd.
  - rewrite list_lookup_total_alt, lookup_ge_None_2 by lia. cbn. lia.
Qed.

Lemma solve_NTRU_deepest_returns logn f g : solve_NTRU_deepest logn f g <> Stuck.
Proof.
  unfold solve_NTRU_deepest. pose proof (small_length_at logn) as Hlen. cbv zeta. destruct (make_fg _ _ _ _ _). destruct (zint_rebuild_CRT _ _ _ _ _ _ _).
  match goal with |- context [zint_bezout ?x ?y ?len] => destruct (zint_bezout_returns x y len) as [[[r Gp] Fp] ->]; [lia|] end.
  cbn [no_fail mbind outcome_bind]. apply fail_if_defined. destruct (zint_mul_small Fp _ _). apply fail_if_defined.
  destruct (zint_mul_small Gp _ _). now apply fail_if_defined.
Qed.

Lemma solve_NTRU_intermediate_returns logn f g depth FG : solve_NTRU_intermediate logn f g depth FG <> Stuck.
Proof.
  unfold solve_NTRU_intermediate. destruct FG. cbv zeta. repeat (case_match; subst).
  apply bind_defined; [apply babai_loop_returns; lia|]. now intros [[? ?] ?] _.
Qed.

Lemma intermediate_levels_returns logn f g stop depth : forall FG, intermediate_levels logn f g depth stop FG <> Stuck.
Proof.
  induction depth as [|d IH]; intros FG; cbn [intermediate_levels]; [done|]. destruct (stop <? S d)%nat; [|done].
  apply bind_defined; [apply solve_NTRU_intermediate_returns|]. intros FG' _. apply IH.
Qed.

Lemma solve_NTRU_binary_depth1_returns logn f g FG : solve_NTRU_binary_depth1 logn f g FG <> Stuck.
Proof. unfold solve_NTRU_binary_depth1. destruct FG. cbv zeta. repeat (case_match; subst); done. Qed.

Lemma solve_NTRU_binary_depth0_returns logn f g FG : solve_NTRU_binary_depth0 logn f g FG <> Stuck.
Proof. unfold solve_NTRU_binary_depth0. destruct FG. cbv zeta. repeat (case_match; subst); done. Qed.

Lemma solve_NTRU_returns logn f g lim : solve_NTRU logn f g lim <> Stuck.
Proof.
  unfold solve_NTRU. apply bind_defined; [|intros [Ft Gt'] _; repeat case_match; done].
  unfold solve_steps. apply bind_defined; [apply solve_NTRU_deepest_returns|]. intros FG _. destruct (logn <=? 2)%nat; [apply intermediate_levels_returns|].
  apply bind_defined; [apply intermediate_levels_returns|]. intros FG' _.
  apply bind_defined; [apply solve_NTRU_binary_depth1_returns|]. intros FG'' _. apply solve_NTRU_binary_depth0_returns.
Qed.

(** C12 (functional).  The NTRU solver always returns, and its result is right: when it succeeds, F and G
    have n coefficients within the limit and f G - g F = 12289 in Z[X]/(X^n + 1).  Its last check, made
    modulo a single prime and at the points of the transform, decides the equation over the integers. *)
Theorem solve_NTRU_correct logn (f g : list Z) lim :
  (logn <= 10)%nat -> 0 <= lim <= 127 -> byte_poly logn f -> byte_poly logn g ->
  solve_NTRU logn f g lim <> Stuck /\
  (forall F G, solve_NTRU logn f g lim = Done (F, G) ->
     length F = (2 ^ logn)%nat /\ length G = (2 ^ logn)%nat /\ pbound lim F /\ pbound lim G /\ ntru_equation logn f g F G) /\
  (forall F G, byte_poly logn F -> byte_poly logn G -> ntru_equation_holds logn f g F G = true <-> ntru_equation logn f g F G).
Proof.
  intros Hl Hlim Hf Hg. split; [apply solve_NTRU_returns|]. split.
  - intros F G H. exact (solve_NTRU_spec logn f g lim F G Hl Hlim Hf Hg H).
  - intros F G HF HG. exact (ntru_equation_iff logn Hl f g F G Hf Hg HF HG).
Qed.

Lemma solve_NTRU_correct_witness :
  byte_poly 2 [23; -38; -62; -44] /\ byte_poly 2 [-5; 18; -34; 54] /\
  solve_NTRU 2 [23; -38; -62; -44] [-5; 18; -34; 54] 127 = Done ([20; 79; -80; -1], [1; 25; 52; 23]) /\
  ntru_equation 2 [23; -38; -62; -44] [-5; 18; -34; 54] [20; 79; -80; -1] [1; 25; 52; 23].
Proof.
  assert (byte_poly 2 [23; -38; -62; -44]) as Hf by (split; [reflexivity | unfold pbound; by_decide]).
  assert (byte_poly 2 [-5; 18; -34; 54]) as Hg by (split; [reflexivity | unfold pbound; by_decide]). split; [exact Hf|]. split; [exact Hg|].
  assert (solve_NTRU 2 [23; -38; -62; -44] [-5; 18; -34; 54] 127 = Done ([20; 79; -80; -1], [1; 25; 52; 23])) as E by (vm_compute; reflexivity).
  split; [exact E|]. apply (proj1 (proj2 (solve_NTRU_correct 2 _ _ 127 ltac:(lia) ltac:(lia) Hf Hg)) _ _ E).
Defined.
