(* ===== verification/Gauss.v ===== *)
(** Gauss: the random polynomials f and g of key generation ([keygen.c], lines 2186 to 2306, 2405 to 2421
    and 4036 to 4077).

    A coefficient is the sum of 2^(10 - logn) draws from a table of tail probabilities scaled by 2^63;
    [poly_small_mkgauss] draws again until the coefficient fits in 8 bits and the sum of the polynomial
    is odd. *)

From Stdlib Require Import ZArith Lia.
From stdpp Require Import base numbers list.
From S2P Require Import Prelude Norm Shake HashToPoint.

(** * The operations *)

Definition get_rng_u64 (rng : inc_ctx) : option (inc_ctx * Z) :=
  '(rng, tmp) ← shake256_inc_squeeze 8 rng;
  Some (rng, (tmp !!! 0%nat) .| u64 ((tmp !!! 1%nat) .<< 8) .| u64 ((tmp !!! 2%nat) .<< 16) .| u64 ((tmp !!! 3%nat) .<< 24)
    .| u64 ((tmp !!! 4%nat) .<< 32) .| u64 ((tmp !!! 5%nat) .<< 40) .| u64 ((tmp !!! 6%nat) .<< 48) .| u64 ((tmp !!! 7%nat) .<< 56)).

Definition gauss_1024_12289 : list Z :=
  [1283868770400643928; 6416574995475331444; 4078260278032692663; 2353523259288686585; 1227179971273316331; 575931623374121527;
   242543240509105209; 91437049221049666; 30799446349977173; 9255276791179340; 2478152334826140; 590642893610164;
   125206034929641; 23590435911403; 3948334035941; 586753615614; 77391054539; 9056793210; 940121950; 86539696; 7062824;
   510971; 32764; 1862; 94; 4; 0].

(** The value drawn from two random words. *)
Definition gauss_value (r1 r2 : Z) : Z :=
  let neg := u32 (r1 .>> 63) in
  let r := r1 .& u64 (Z.lnot (1 .<< 63)) in
  let f := u32 (u64 (r - gauss_1024_12289 !!! 0%nat) .>> 63) in
  let r := r2 .& u64 (Z.lnot (1 .<< 63)) in
  let '(v, _) := for_up 1 (length gauss_1024_12289) (fun k '(v, f) =>
    let t := u32 (u64 (r - gauss_1024_12289 !!! k) .>> 63) .^ 1 in
    (v .| (Z.of_nat k .& u32 (- (t .& (f .^ 1)))), f .| t)) (0, f) in
  let v := u32 ((v .^ u32 (- neg)) + neg) in
  i32 v.

Fixpoint gauss_sum (todo : nat) (rng : inc_ctx) (val : Z) : option (inc_ctx * Z) :=
  match todo with
  | O => Some (rng, val)
  | S todo =>
      '(rng, r1) ← get_rng_u64 rng;
      '(rng, r2) ← get_rng_u64 rng;
      gauss_sum todo rng (i32 (val + gauss_value r1 r2))
  end.

Definition mkgauss (rng : inc_ctx) (logn : nat) : option (inc_ctx * Z) := gauss_sum (2 ^ (10 - logn)) rng 0.

(** The loops of [poly_small_mkgauss], [fuel] bounding the number of draws; [u] coefficients are done. *)
Fixpoint mkgauss_loop (fuel : nat) (rng : inc_ctx) (u n logn : nat) (mod2 : Z) (f : list Z) : option (inc_ctx * list Z) :=
  if (n <=? u)%nat then Some (rng, f)
  else
    match fuel with
    | O => None
    | S fuel =>
        '(rng, s) ← mkgauss rng logn;
        if (s <? -127) || (127 <? s) then mkgauss_loop fuel rng u n logn mod2 f
        else if (u =? n - 1)%nat then
          if (mod2 .^ (s .& 1)) =? 0 then mkgauss_loop fuel rng u n logn mod2 f
          else mkgauss_loop fuel rng (S u) n logn mod2 (<[u := i8 s]> f)
        else mkgauss_loop fuel rng (S u) n logn (mod2 .^ (s .& 1)) (<[u := i8 s]> f)
    end.

Definition poly_small_mkgauss (fuel : nat) (rng : inc_ctx) (logn : nat) : option (inc_ctx * list Z) :=
  let n := (2 ^ logn)%nat in mkgauss_loop fuel rng 0 n logn 0 (replicate n 0).

Definition poly_small_sqnorm (f : list Z) (logn : nat) : Z :=
  let '(s, ng) := for_up 0 (2 ^ logn) (fun u '(s, ng) =>
    let z := f !!! u in
    let s := u32 (s + u32 (z * z)) in
    (s, ng .| s)) (0, 0) in
  s .| u32 (- (ng .>> 31)).

(** * One draw *)

Abbreviation tail k := (gauss_1024_12289 !!! k%nat).

(** [m] is the first entry, from the first on, not above [b]: b is in the interval of probability of m. *)
Definition gauss_interval (b : Z) (m : nat) : Prop :=
  (1 <= m <= 26)%nat /\ tail m <= b /\ (forall j, (1 <= j < m)%nat -> b < tail j).

Lemma tail_range k : (k < 27)%nat -> 0 <= tail k < 2 ^ 63.
Proof.
  intros Hk. assert (forallb (fun x => (0 <=? x) && (x <? 2 ^ 63)) gauss_1024_12289 = true) as H by reflexivity.
  rewrite forallb_forall in H. specialize (H (tail k)). rewrite andb_true_iff, Z.leb_le, Z.ltb_lt in H. apply H.
  apply list_elem_of_In, list_elem_of_lookup_total_2. exact Hk.
Qed.

(** The comparison of two words of 63 bits. *)
Lemma below_flag r t : 0 <= r < 2 ^ 63 -> 0 <= t < 2 ^ 63 -> u32 (u64 (r - t) .>> 63) = bit (r <? t).
Proof.
  intros Hr Ht. rewrite (top_bit_flag 64) by (try apply wrap_range; lia).
  assert ((2 ^ (64 - 1) <=? u64 (r - t)) = (r <? t)) as ->; [|now destruct (r <? t)].
  rewrite wrap_mod by lia. destruct (Z.ltb_spec r t) as [H|H].
  - rewrite <- (Z.mod_unique (r - t) (2 ^ 64) (-1) (r - t + 2 ^ 64)) by lia. apply Z.leb_le. lia.
  - rewrite Z.mod_small by lia. apply Z.leb_gt. lia.
Qed.

Lemma clear_top r : in_width 64 r -> r .& u64 (Z.lnot (1 .<< 63)) = r mod 2 ^ 63.
Proof. intros Hr. change (u64 (Z.lnot (1 .<< 63))) with (Z.ones 63). now apply Z.land_ones. Qed.

(** The state of the loop before entry [k]. *)
Definition gauss_state (f0 : bool) (b : Z) (k : nat) (st : Z * Z) : Prop :=
  let '(v, f) := st in
  if f0 then v = 0 /\ f = 1
  else (f = 0 /\ v = 0 /\ forall j, (1 <= j < k)%nat -> b < tail j) \/
       (f = 1 /\ exists m, (m < k)%nat /\ v = Z.of_nat m /\ gauss_interval b m).

Lemma gauss_loop_spec (f0 : bool) b : 0 <= b < 2 ^ 63 ->
  gauss_state f0 b 27 (for_up 1 27 (fun k '(v, f) =>
    let t := u32 (u64 (b - tail k) .>> 63) .^ 1 in
    (v .| (Z.of_nat k .& u32 (- (t .& (f .^ 1)))), f .| t)) (0, bit f0)).
Proof.
  intros Hb. apply (for_up_inv _ (gauss_state f0 b)); [lia | |].
  - unfold gauss_state. destruct f0; [done|]. left. split; [done|]. split; [done|]. intros; lia.
  - intros k [v f] Hk H. cbv zeta. rewrite below_flag by (try apply tail_range; lia).
    assert (bit (b <? tail k) .^ 1 = bit (tail k <=? b)) as ->.
    { destruct (Z.ltb_spec b (tail k)), (Z.leb_spec (tail k) b); try lia; reflexivity. }
    unfold gauss_state in *. destruct f0.
    + destruct H as [-> ->]. change (1 .^ 1) with 0. rewrite Z.land_0_r, Z.lor_0_l. change (u32 (- 0)) with 0. rewrite Z.land_0_r.
      split; [done|]. now destruct (tail k <=? b).
    + destruct H as [(-> & -> & H)|(-> & m & Hm & -> & H)].
      * change (0 .^ 1) with 1. rewrite !Z.lor_0_l. destruct (Z.leb_spec (tail k) b) as [Hle|Hgt]; cbn [bit].
        -- right. split; [done|]. exists k. change (u32 (- (1 .& 1))) with (Z.ones 32). rewrite Z.land_ones, Z.mod_small by lia.
           split; [lia|]. split; [done|]. split; [lia|]. split; [done | exact H].
        -- left. split; [done|]. change (u32 (- (0 .& 1))) with 0. rewrite Z.land_0_r. split; [done|].
           intros j Hj. destruct (decide (j = k)) as [->|]; [done | apply H; lia].
      * change (1 .^ 1) with 0. rewrite Z.land_0_r. change (u32 (- 0)) with 0. rewrite Z.land_0_r, Z.lor_0_r. right.
        split; [now destruct (tail k <=? b)|]. exists m. split; [lia|]. split; [done | exact H].
Qed.

(** Conditional negation, on 32 bits. *)
Lemma apply_sign (neg : bool) m : 0 <= m < 2 ^ 31 -> i32 (u32 ((m .^ u32 (- bit neg)) + bit neg)) = if neg then - m else m.
Proof.
  intros Hm. unfold sext. rewrite wrap_idem by lia. destruct neg; cbn [bit].
  - change (u32 (- (1))) with (Z.ones 32). rewrite (lxor_ones 32) by (unfold in_width; lia).
    replace (2 ^ 32 - 1 - m + 1) with (2 ^ 32 - m) by ring. rewrite wrap_mod by lia.
    destruct (decide (m = 0)) as [->|H0]; [reflexivity|]. rewrite Z.mod_small by lia.
    destruct (Z.ltb_spec (2 ^ 32 - m) (2 ^ (32 - 1))); lia.
  - change (u32 (- 0)) with 0. rewrite Z.lxor_0_r, Z.add_0_r, wrap_small by (unfold in_width; lia).
    destruct (Z.ltb_spec m (2 ^ (32 - 1))); lia.
Qed.

(** The value of a draw: zero with probability [tail 0] / 2^63, and otherwise the index of the interval
    of the second word, with the sign of the first. *)
Lemma gauss_value_spec r1 r2 : in_width 64 r1 -> in_width 64 r2 ->
  (r1 mod 2 ^ 63 < tail 0 -> gauss_value r1 r2 = 0) /\
  (tail 0 <= r1 mod 2 ^ 63 -> exists m, gauss_interval (r2 mod 2 ^ 63) m /\
     gauss_value r1 r2 = if 2 ^ 63 <=? r1 then - Z.of_nat m else Z.of_nat m).
Proof.
  intros H1 H2. unfold gauss_value. rewrite !clear_top by done.
  assert (0 <= r1 mod 2 ^ 63 < 2 ^ 63) as Ha by (apply Z.mod_pos_bound; lia).
  assert (0 <= r2 mod 2 ^ 63 < 2 ^ 63) as Hb by (apply Z.mod_pos_bound; lia).
  set (a := r1 mod 2 ^ 63) in *. set (b := r2 mod 2 ^ 63) in *. rewrite below_flag by (try apply tail_range; lia).
  rewrite (top_bit_flag 64) by (done || lia). change (2 ^ (64 - 1)) with (2 ^ 63).
  assert (u32 (bit (2 ^ 63 <=? r1)) = bit (2 ^ 63 <=? r1)) as -> by now destruct (2 ^ 63 <=? r1).
  pose proof (gauss_loop_spec (a <? tail 0) b Hb) as H. cbv zeta in H |- *. change (length gauss_1024_12289) with 27%nat.
  destruct (for_up 1 27 _ _) as [v f]. unfold gauss_state in H. split.
  - intros Hlt. destruct (Z.ltb_spec a (tail 0)); [|lia]. destruct H as [-> _]. rewrite apply_sign by lia. now destruct (2 ^ 63 <=? r1).
  - intros Hge. destruct (Z.ltb_spec a (tail 0)); [lia|]. destruct H as [(_ & _ & H)|(_ & m & Hm & -> & H)].
    + exfalso. specialize (H 26%nat ltac:(lia)). change (tail 26) with 0 in H. lia.
    + exists m. split; [exact H|]. apply apply_sign. lia.
Qed.

(** The intervals: entry m has probability (tail (m - 1) - tail m) / 2^63, with 2^63 before the first. *)
Lemma tail_decreasing : forallb (fun j => tail (S j) <? tail j) (seq 1 25) = true.
Proof. reflexivity. Qed.

Lemma tail_antitone i j : (1 <= i <= j)%nat -> (j <= 26)%nat -> tail j <= tail i.
Proof.
  intros Hi. induction j as [|j IH]; intros Hj; [lia|]. destruct (decide (i = S j)) as [->|]; [lia|].
  specialize (IH ltac:(lia)). pose proof tail_decreasing as H. rewrite forallb_forall in H.
  specialize (H j ltac:(apply in_seq; lia)). apply Z.ltb_lt in H. lia.
Qed.

Lemma gauss_interval_iff b m : (1 <= m <= 26)%nat ->
  gauss_interval b m <-> tail m <= b /\ (m <> 1%nat -> b < tail (m - 1)).
Proof.
  intros Hm. unfold gauss_interval. split.
  - intros (_ & H1 & H2). split; [exact H1|]. intros Hne. apply H2. lia.
  - intros [H1 H2]. split; [done|]. split; [done|]. intros j Hj. specialize (H2 ltac:(lia)).
    pose proof (tail_antitone j (m - 1) ltac:(lia) ltac:(lia)). lia.
Qed.

(** * Draws and sums *)

Lemma squeeze_total n sc : sc_ok sc ->
  exists sc' t, shake256_inc_squeeze n sc = Some (sc', t) /\ sc_ok sc' /\ length t = n /\ Forall (in_width 8) t.
Proof.
  intros Hsc. assert (0 < SHAKE256_RATE)%nat as Hr by (unfold SHAKE256_RATE; lia).
  unfold shake256_inc_squeeze. rewrite (keccak_inc_squeeze_spec _ Hr) by exact Hsc.
  pose proof (squeeze_bytes_count SHAKE256_RATE Hr n (ctx_state sc) Hsc) as Hc.
  pose proof (squeeze_stream_length SHAKE256_RATE Hr n (ctx_state sc)) as Hl.
  pose proof (squeeze_bytes_bytes SHAKE256_RATE n (ctx_state sc)) as Hb.
  destruct (squeeze_bytes SHAKE256_RATE n (ctx_state sc)) as [st t]. exists (of_state st), t. split; [reflexivity|]. now split.
Qed.

Lemma get_rng_u64_total rng : sc_ok rng -> exists rng' r, get_rng_u64 rng = Some (rng', r) /\ sc_ok rng' /\ in_width 64 r.
Proof.
  intros H. destruct (squeeze_total 8 rng H) as (rng' & t & E & Hok & Hl & Hb). unfold get_rng_u64. rewrite E. cbn [mbind option_bind].
  eexists _, _. split; [reflexivity|]. split; [exact Hok|]. repeat (apply lor_width; [lia | | apply wrap_range; lia]).
  apply (in_width_le 8); [lia|]. rewrite Forall_lookup_total in Hb. apply Hb. lia.
Qed.

Lemma gauss_value_bound r1 r2 : in_width 64 r1 -> in_width 64 r2 -> Z.abs (gauss_value r1 r2) <= 26.
Proof.
  intros H1 H2. destruct (gauss_value_spec r1 r2 H1 H2) as [Hz Hn]. destruct (Z.lt_ge_cases (r1 mod 2 ^ 63) (tail 0)) as [H|H].
  - rewrite (Hz H). cbn. lia.
  - destruct (Hn H) as (m & (Hm & _) & ->). destruct (2 ^ 63 <=? r1); lia.
Qed.

(** The exact sums of the draws of [mkgauss]. *)
Lemma gauss_sum_total todo : forall rng val, sc_ok rng -> Z.abs val + 26 * Z.of_nat todo < 2 ^ 31 ->
  exists rng' s, gauss_sum todo rng val = Some (rng', s) /\ sc_ok rng' /\ Z.abs s <= Z.abs val + 26 * Z.of_nat todo.
Proof.
  induction todo as [|todo IH]; intros rng val Hok Hv; cbn [gauss_sum]; [exists rng, val; split; [done|]; split; [done|lia]|].
  destruct (get_rng_u64_total rng Hok) as (rng1 & r1 & -> & Hok1 & W1). cbn [mbind option_bind].
  destruct (get_rng_u64_total rng1 Hok1) as (rng2 & r2 & -> & Hok2 & W2). cbn [mbind option_bind].
  pose proof (gauss_value_bound r1 r2 W1 W2). rewrite sext_small by lia.
  destruct (IH rng2 (val + gauss_value r1 r2) Hok2 ltac:(lia)) as (rng' & s & E & Hok' & Hs). exists rng', s.
  split; [exact E|]. split; [exact Hok' | lia].
Qed.

Lemma mkgauss_total rng logn : sc_ok rng -> exists rng' s, mkgauss rng logn = Some (rng', s) /\ sc_ok rng' /\ Z.abs s <= 26 * 2 ^ 10.
Proof.
  intros Hok. assert (2 ^ (10 - logn) <= 2 ^ 10)%nat as Hp by (apply Nat.pow_le_mono_r; lia). change (2 ^ 10)%nat with 1024%nat in Hp.
  destruct (gauss_sum_total (2 ^ (10 - logn)) rng 0 Hok ltac:(lia)) as (rng' & s & E & Hok' & Hs).
  exists rng', s. split; [exact E|]. split; [exact Hok' | lia].
Qed.

(** * The polynomials *)

(** Coefficients in -127..127 and an odd sum. *)
Definition odd_poly (logn : nat) (f : list Z) : Prop :=
  length f = (2 ^ logn)%nat /\ Forall (fun c => Z.abs c <= 127) f /\ Z.odd (foldr Z.add 0 f) = true.

Definition parity (f : list Z) : Z := foldr Z.add 0 f mod 2.

Lemma fold_add_app a b : foldr Z.add 0 (a ++ b) = foldr Z.add 0 a + foldr Z.add 0 b.
Proof. induction a as [|x a IH]; cbn [app foldr]; [lia|]. rewrite IH. lia. Qed.

Lemma parity_step acc s : acc = 0 \/ acc = 1 -> acc .^ (s .& 1) = (acc + s) mod 2.
Proof.
  intros Hacc. change 1 with (Z.ones 1) at 1. rewrite Z.land_ones by lia. change (2 ^ 1) with 2.
  rewrite Z.add_mod by lia. pose proof (Z.mod_pos_bound s 2 ltac:(lia)) as Hs.
  assert (s mod 2 = 0 \/ s mod 2 = 1) as [->| ->] by lia; destruct Hacc as [-> | ->]; reflexivity.
Qed.

Lemma take_insert_next (f : list Z) u x : (u < length f)%nat -> take (S u) (<[u := x]> f) = take u f ++ [x].
Proof.
  intros Hu. rewrite (take_S_r _ u x) by (apply list_lookup_insert_eq; done). f_equal. apply take_insert_ge. lia.
Qed.

Lemma mkgauss_loop_spec fuel : forall rng u n logn mod2 f rng' f', (u <= n)%nat -> (0 < n)%nat -> length f = n ->
  Forall (fun c => Z.abs c <= 127) (take u f) ->
  ((u < n)%nat -> mod2 = parity (take u f)) -> (u = n -> Z.odd (foldr Z.add 0 f) = true) ->
  mkgauss_loop fuel rng u n logn mod2 f = Some (rng', f') ->
  length f' = n /\ Forall (fun c => Z.abs c <= 127) f' /\ Z.odd (foldr Z.add 0 f') = true.
Proof.
  induction fuel as [|fuel IH]; intros rng u n logn mod2 f rng' f' Hu Hn Hl Hb Hm Hend H; cbn [mkgauss_loop] in H;
    (destruct (Nat.leb_spec n u); [assert (u = n) as -> by lia; rewrite <- Hl, take_ge in Hb by lia; injection H as <- <-; auto|]); [done|].
  destruct (mkgauss rng logn) as [[rng1 s]|]; [|done]. cbn [mbind option_bind] in H.
  destruct (Z.ltb_spec s (-127)); [now apply IH in H|]. destruct (Z.ltb_spec 127 s); [now apply IH in H|]. cbn [orb] in H.
  specialize (Hm ltac:(lia)). assert (mod2 = 0 \/ mod2 = 1) as Hm01 by (pose proof (Z.mod_pos_bound (foldr Z.add 0 (take u f)) 2 ltac:(lia)); unfold parity in Hm; lia).
  rewrite (sext_small 8 s) in H by lia. rewrite parity_step in H by done.
  assert (Forall (fun c => Z.abs c <= 127) (take (S u) (<[u := s]> f))) as Hb'.
  { rewrite take_insert_next by lia. apply Forall_app_2; [done|]. constructor; [lia | constructor]. }
  assert (parity (take (S u) (<[u := s]> f)) = (mod2 + s) mod 2) as Hp'.
  { rewrite take_insert_next by lia. unfold parity. rewrite fold_add_app, Hm. unfold parity. cbn [foldr]. rewrite Z.add_0_r. symmetry. apply Zplus_mod_idemp_l. }
  destruct (Nat.eqb_spec u (n - 1)) as [Hlast|Hlast].
  - destruct (Z.eqb_spec ((mod2 + s) mod 2) 0) as [Hz|Hz]; [now apply IH in H|].
    apply IH in H; [exact H | lia | done | now rewrite length_insert | exact Hb' | lia |].
    intros _. rewrite <- (take_ge (<[u:=s]> f) (S u)) by (rewrite length_insert; lia). unfold parity in Hp'. rewrite <- Hp', Zmod_odd in Hz.
    by destruct (Z.odd (foldr Z.add 0 (take _ _))).
  - apply IH in H; [exact H | lia | done | now rewrite length_insert | exact Hb' | now rewrite Hp' | lia].
Qed.

(** What [poly_small_mkgauss] returns. *)
Lemma poly_small_mkgauss_spec fuel rng logn rng' f :
  poly_small_mkgauss fuel rng logn = Some (rng', f) -> odd_poly logn f.
Proof.
  intros H. unfold poly_small_mkgauss in H. pose proof (pow2_nat_pos logn).
  apply mkgauss_loop_spec in H; [exact H | lia | done | apply length_replicate | constructor | done | lia].
Qed.

(** A result does not depend on the number of draws allowed. *)
Lemma mkgauss_loop_more fuel fuel' : (fuel <= fuel')%nat -> forall rng u n logn mod2 f r,
  mkgauss_loop fuel rng u n logn mod2 f = Some r -> mkgauss_loop fuel' rng u n logn mod2 f = Some r.
Proof.
  revert fuel'. induction fuel as [|fuel IH]; intros [|fuel'] Hf rng u n logn mod2 f r H; try lia; cbn [mkgauss_loop] in *;
    destruct (n <=? u)%nat; try done.
  destruct (mkgauss rng logn) as [[rng1 s]|]; [|done]. cbn [mbind option_bind] in *. specialize (IH fuel' ltac:(lia)).
  destruct ((s <? -127) || (127 <? s)); [now apply IH|]. destruct (u =? n - 1)%nat; [|now apply IH].
  destruct (mod2 .^ (s .& 1) =? 0); now apply IH.
Qed.

(** * Norms *)

Lemma small_square z : Z.abs z <= 127 -> 0 <= z * z <= 127 * 127.
Proof. intros H. rewrite <- (Z.abs_square z). nia. Qed.

(** The squared norm of a vector of signed bytes is exact. *)
Lemma poly_small_sqnorm_exact f logn : (logn <= 10)%nat -> length f = (2 ^ logn)%nat -> Forall (fun c => Z.abs c <= 127) f ->
  poly_small_sqnorm f logn = norm2 f /\ 0 <= norm2 f <= 1024 * (127 * 127).
Proof.
  intros Hlogn Hl Hb. set (n := (2 ^ logn)%nat) in *. assert (n <= 1024)%nat as Hn by (change 1024%nat with (2 ^ 10)%nat; apply Nat.pow_le_mono_r; lia).
  assert (forall k, (k <= n)%nat -> 0 <= norm2 (take k f) <= Z.of_nat k * (127 * 127)) as Hr.
  { induction k as [|k IH]; intros Hk; [change (norm2 (take 0 f)) with 0; lia|]. rewrite norm2_take_S by lia. specialize (IH ltac:(lia)).
    rewrite Forall_lookup_total in Hb. specialize (Hb k ltac:(lia)). cbn beta in Hb. pose proof (small_square _ Hb). lia. }
  pose proof (Hr n ltac:(lia)) as Hfull. rewrite take_ge in Hfull by lia.
  split; [|lia]. unfold poly_small_sqnorm. fold n. set (body := fun (u : nat) (st : Z * Z) => _).
  pose (inv (k : nat) (st : Z * Z) := st.1 = norm2 (take k f) /\ 0 <= st.2 < 2 ^ 31).
  assert (inv n (for_up 0 n body (0, 0))) as H.
  { apply (for_up_inv _ inv); [lia | split; cbn; [done | lia] |]. intros k [s ng] Hk [H1 H2]. cbn [fst snd] in H1, H2. unfold body. cbv zeta.
    assert (u32 (s + u32 (f !!! k * f !!! k)) = norm2 (take (S k) f)) as ->.
    { rewrite norm2_take_S, <- H1 by lia. pose proof (Hr k ltac:(lia)) as H0. rewrite <- H1 in H0.
      rewrite Forall_lookup_total in Hb. specialize (Hb k ltac:(lia)). cbn beta in Hb. pose proof (small_square _ Hb).
      rewrite !wrap_small; unfold in_width; lia || (rewrite wrap_small; unfold in_width; lia). }
    split; [done|]. cbn [snd]. pose proof (Hr (S k) ltac:(lia)). apply (lor_width 31); unfold in_width; lia. }
  destruct (for_up 0 n body (0, 0)) as [s ng]. destruct H as [H1 H2]. cbn [fst snd] in H1, H2.
  rewrite Z.shiftr_div_pow2, Z.div_small by lia. change (u32 (- 0)) with 0. rewrite Z.lor_0_r, H1. now rewrite take_ge by lia.
Qed.

(** The random polynomials.  A draw inverts a table of tail probabilities: with 63 bits of
    its first word below the first entry it is 0, and otherwise it is the index m of the interval between
    entries m and m - 1 (from entry 1 up) that holds 63 bits of the second word, negated when the top bit of
    the first word is set.  A coefficient, the sum of 2^(10 - logn) draws, always returns and never
    overflows; a polynomial has n coefficients in -127..127 whose sum is odd. *)
Theorem mkgauss_correct (r1 r2 : Z) (rng : inc_ctx) (logn : nat) :
  in_width 64 r1 -> in_width 64 r2 -> sc_ok rng ->
  ((r1 mod 2 ^ 63 < tail 0 -> gauss_value r1 r2 = 0) /\
   (tail 0 <= r1 mod 2 ^ 63 -> exists m, (1 <= m <= 26)%nat /\ tail m <= r2 mod 2 ^ 63 /\ (m <> 1%nat -> r2 mod 2 ^ 63 < tail (m - 1)) /\
      gauss_value r1 r2 = if 2 ^ 63 <=? r1 then - Z.of_nat m else Z.of_nat m)) /\
  (exists rng' s, mkgauss rng logn = Some (rng', s) /\ sc_ok rng' /\ Z.abs s <= 26 * 2 ^ 10) /\
  (forall fuel rng' f, poly_small_mkgauss fuel rng logn = Some (rng', f) -> odd_poly logn f).
Proof.
  intros H1 H2 Hok. destruct (gauss_value_spec r1 r2 H1 H2) as [Hz Hn]. split; [split; [exact Hz|]|].
  - intros H. destruct (Hn H) as (m & Hm & E). pose proof Hm as (Hr & _). apply gauss_interval_iff in Hm as [H3 H4]; [|exact Hr].
    exists m. split; [exact Hr|]. split; [exact H3|]. split; [exact H4 | exact E].
  - split; [exact (mkgauss_total rng logn Hok)|]. intros fuel rng' f. exact (poly_small_mkgauss_spec fuel rng logn rng' f).
Qed.

(** The first word says "not zero, negative", the second falls in the third interval. *)
Lemma mkgauss_correct_witness : gauss_value (2 ^ 63 + 2 ^ 62) 3000000000000000000 = -3 /\
  exists m, (1 <= m <= 26)%nat /\ gauss_value (2 ^ 63 + 2 ^ 62) 3000000000000000000 = - Z.of_nat m.
Proof.
  split; [reflexivity|].
  destruct (proj2 (proj1 (mkgauss_correct (2 ^ 63 + 2 ^ 62) 3000000000000000000 shake256_inc_init 9 ltac:(by_decide) ltac:(by_decide) (Nat.le_0_l _)))) as (m & Hm & _ & _ & E).
  - vm_compute. discriminate.
  - exists m. split; [exact Hm | exact E].
Defined.
