(* ===== verification/Keygen.v ===== *)
(** Keygen: key generation of [keygen.c], the function [keygen] and what it promises. *)

From Stdlib Require Import ZArith Lia.
From stdpp Require Import base numbers list.
From S2P Require Import Prelude NumberTheory CodecFixed Mq Polynomial Butterfly Poly Ntt Norm Vrfy Shake Modp Primes ModpNtt Zint Fpr Fft FftTable PolyBig Ntru NtruSpec Gauss.

Definition poly_small_to_fp (f : list Z) (logn : nat) : list Z := (fun u => fpr_of (f !!! u)) <$> seq 0 (2 ^ logn).

(** The squared norm of the orthogonalised vector (q adj(f), q adj(g)) / (f adj(f) + g adj(g)). *)
Definition orthogonal_norm (f g : list Z) (logn : nat) : Z :=
  let rt1 := poly_small_to_fp f logn in
  let rt2 := poly_small_to_fp g logn in
  let rt1 := FFT rt1 logn in
  let rt2 := FFT rt2 logn in
  let rt3 := poly_invnorm2_fft (replicate (2 ^ logn / 2) fpr_zero) rt1 rt2 logn in
  let rt1 := poly_adj_fft rt1 logn in
  let rt2 := poly_adj_fft rt2 logn in
  let rt1 := poly_mulconst rt1 fpr_q logn in
  let rt2 := poly_mulconst rt2 fpr_q logn in
  let rt1 := poly_mul_autoadj_fft rt1 rt3 logn in
  let rt2 := poly_mul_autoadj_fft rt2 rt3 logn in
  let rt1 := iFFT rt1 logn in
  let rt2 := iFFT rt2 logn in
  for_up 0 (2 ^ logn) (fun u bnorm => fpr_add (fpr_add bnorm (fpr_sqr (rt1 !!! u))) (fpr_sqr (rt2 !!! u))) fpr_zero.

(** The body of the loop after the sampling of f and g: [Fail] is [continue]. *)
Definition keygen_try (f g : list Z) (logn : nat) : outcome (list Z * list Z * list Z) :=
  let lim := 2 ^ (Z.of_nat (max_fg_bits !!! logn) - 1) in
  fail_if (existsb (fun u => (lim <=? f !!! u) || (f !!! u <=? - lim) || (lim <=? g !!! u) || (g !!! u <=? - lim)) (seq 0 (2 ^ logn)));;
  let normf := poly_small_sqnorm f logn in
  let normg := poly_small_sqnorm g logn in
  let norm := u32 (normf + normg) .| u32 (- ((normf .| normg) .>> 31)) in
  fail_if (16823 <=? norm);;
  fail_if (fpr_lt (orthogonal_norm f g logn) fpr_bnorm_max =? 0);;
  match compute_public f g logn with
  | None => Fail
  | Some h =>
      let lim := 2 ^ (Z.of_nat (max_FG_bits !!! logn) - 1) - 1 in
      '(F, G) ← solve_NTRU logn f g lim;
      Done (F, G, h)
  end.

(** [for (;;)]: [fuel] bounds the turns and [draws] the draws for each polynomial. *)
Fixpoint keygen_loop (fuel draws : nat) (rng : inc_ctx) (logn : nat) : option (list Z * list Z * list Z * list Z * list Z) :=
  match fuel with
  | O => None
  | S fuel =>
      '(rng, f) ← poly_small_mkgauss draws rng logn;
      '(rng, g) ← poly_small_mkgauss draws rng logn;
      match keygen_try f g logn with
      | Done (F, G, h) => Some (f, g, F, G, h)
      | Fail => keygen_loop fuel draws rng logn
      | Stuck => None
      end
  end.

(** * The tests *)

Lemma bytes_small f : Forall (fun c => Z.abs c <= 127) f -> small f.
Proof. intros H. eapply Forall_impl; [exact H|]. unfold Q. cbn beta. intros; lia. Qed.

(** The coefficient test. *)
Lemma range_test f g logn lim : length f = (2 ^ logn)%nat -> length g = (2 ^ logn)%nat ->
  existsb (fun u => (lim <=? f !!! u) || (f !!! u <=? - lim) || (lim <=? g !!! u) || (g !!! u <=? - lim)) (seq 0 (2 ^ logn)) = false <->
  Forall (fun c => Z.abs c < lim) f /\ Forall (fun c => Z.abs c < lim) g.
Proof.
  intros Hf Hg. rewrite !Forall_lookup_total, Hf, Hg. set (n := (2 ^ logn)%nat). clearbody n.
  assert (forall u, ((lim <=? f !!! u) || (f !!! u <=? - lim) || (lim <=? g !!! u) || (g !!! u <=? - lim)) = false <->
    Z.abs (f !!! u) < lim /\ Z.abs (g !!! u) < lim) as Hu by (intros u; rewrite !orb_false_iff, !Z.leb_gt; lia).
  rewrite <- not_true_iff_false, existsb_exists. split.
  - intros H. assert (forall u, (u < n)%nat -> Z.abs (f !!! u) < lim /\ Z.abs (g !!! u) < lim) as Ha; [|split; intros u Hun; now apply Ha].
    intros u Hun. apply Hu, not_true_iff_false. intros E. apply H. exists u. split; [apply in_seq; lia | exact E].
  - intros [H1 H2] (u & Hun%in_seq & E). rewrite (proj2 (Hu u)) in E; [done|]. split; [apply H1 | apply H2]; lia.
Qed.

(** The norm of the pair, computed without overflow. *)
Lemma norm_test f g logn : (logn <= 10)%nat -> odd_poly logn f -> odd_poly logn g ->
  u32 (poly_small_sqnorm f logn + poly_small_sqnorm g logn) .| u32 (- ((poly_small_sqnorm f logn .| poly_small_sqnorm g logn) .>> 31))
  = norm2 f + norm2 g.
Proof.
  intros Hl (Lf & Bf & _) (Lg & Bg & _). destruct (poly_small_sqnorm_exact f logn Hl Lf Bf) as [-> Nf].
  destruct (poly_small_sqnorm_exact g logn Hl Lg Bg) as [-> Ng]. rewrite wrap_small by (unfold in_width; lia).
  assert (in_width 31 (norm2 f .| norm2 g)) as [H1 H2] by (apply lor_width; unfold in_width; lia).
  rewrite Z.shiftr_div_pow2, Z.div_small by (lia || split; assumption). change (u32 (- 0)) with 0. apply Z.lor_0_r.
Qed.

(** * One candidate *)

(** What makes f and g a candidate that is kept: short, of short orthogonalised norm by the computed
    value, and with a public key. *)
Definition good_candidate (logn : nat) (f g h : list Z) : Prop :=
  let lim := 2 ^ (Z.of_nat (max_fg_bits !!! logn) - 1) in
  Forall (fun c => Z.abs c < lim) f /\ Forall (fun c => Z.abs c < lim) g /\ norm2 f + norm2 g < 16823 /\
  fpr_lt (orthogonal_norm f g logn) fpr_bnorm_max <> 0 /\
  invertible logn f /\ poly_ok (2 ^ logn) h /\ poly_cong (ring_mul (2 ^ logn) f h) g.

Definition FG_limit (logn : nat) : Z := 2 ^ (Z.of_nat (max_FG_bits !!! logn) - 1) - 1.

#[local] Opaque solve_NTRU orthogonal_norm fpr_lt compute_public poly_small_sqnorm max_fg_bits.

Lemma keygen_try_spec logn f g : (1 <= logn <= 10)%nat -> odd_poly logn f -> odd_poly logn g ->
  keygen_try f g logn <> Stuck /\
  forall F G h, keygen_try f g logn = Done (F, G, h) <-> good_candidate logn f g h /\ solve_NTRU logn f g (FG_limit logn) = Done (F, G).
Proof.
  intros Hlogn Hf Hg. destruct Hf as (Lf & Bf & Of) eqn:Ef. destruct Hg as (Lg & Bg & Og) eqn:Eg.
  pose proof (compute_public_correct f g logn ltac:(lia) Lf (bytes_small f Bf) Lg (bytes_small g Bg)) as [_ Hh].
  unfold keygen_try, good_candidate. cbv zeta. pose proof (range_test f g logn (2 ^ (Z.of_nat (max_fg_bits !!! logn) - 1)) Lf Lg) as Hr.
  rewrite (norm_test f g logn) by (lia || assumption). fold (FG_limit logn). split.
  - do 3 apply fail_if_defined. destruct (compute_public f g logn) as [h|]; [|done].
    apply bind_defined; [apply solve_NTRU_returns|]. now intros [F G] _.
  - intros F G h. destruct (existsb _ _) eqn:E1; cbn [fail_if mbind outcome_bind].
    { split; [done|]. intros ((H1 & H2 & _) & _). destruct Hr as [_ Hr]. specialize (Hr (conj H1 H2)). done. }
    destruct (Z.leb_spec 16823 (norm2 f + norm2 g)); cbn [fail_if mbind outcome_bind]; [split; [done | intros ((_ & _ & ? & _) & _); lia]|].
    destruct (Z.eqb_spec (fpr_lt (orthogonal_norm f g logn) fpr_bnorm_max) 0) as [E3|E3]; cbn [fail_if mbind outcome_bind];
      [split; [done | intros ((_ & _ & _ & ? & _) & _); contradiction]|].
    destruct (compute_public f g logn) as [h'|] eqn:E4.
    + rewrite bind_Done. specialize (Hh h). destruct (proj1 Hr eq_refl). split.
      * intros ([F' G'] & HS & [= <- <- <-]). destruct (proj1 Hh eq_refl) as (? & ? & ?). split; [|exact HS]. do 6 (split; [assumption|]). assumption.
      * intros ((_ & _ & _ & _ & Hi & Hp & Hc) & HS). exists (F, G). split; [exact HS|].
        pose proof (proj2 Hh (conj Hi (conj Hp Hc))) as [= ->]. reflexivity.
    + split; [done|]. intros ((_ & _ & _ & _ & Hi & Hp & Hc) & _). pose proof (proj2 (Hh h) (conj Hi (conj Hp Hc))). done.
Qed.

(** * Key pairs *)

(** What key generation promises of f, g, F, G and the public key h. *)
Record key_pair (logn : nat) (f g F G h : list Z) : Prop := {
  kp_f : odd_poly logn f;
  kp_g : odd_poly logn g;
  kp_good : good_candidate logn f g h;
  kp_F : length F = (2 ^ logn)%nat /\ pbound (FG_limit logn) F;
  kp_G : length G = (2 ^ logn)%nat /\ pbound (FG_limit logn) G;
  kp_ntru : ntru_equation logn f g F G
}.

Lemma FG_limit_range logn : (1 <= logn <= 10)%nat -> FG_limit logn = 127.
Proof. intros H. do 11 (destruct logn as [|logn]; try lia; try reflexivity). Qed.

Lemma keygen_try_key_pair logn f g F G h : (1 <= logn <= 10)%nat -> odd_poly logn f -> odd_poly logn g ->
  keygen_try f g logn = Done (F, G, h) -> key_pair logn f g F G h.
Proof.
  intros Hlogn Hf Hg H. apply keygen_try_spec in H as [Hgood HS]; [|assumption..].
  destruct Hf as (Lf & Bf & Of) eqn:Ef. destruct Hg as (Lg & Bg & Og) eqn:Eg.
  apply solve_NTRU_spec in HS as (LF & LG & BF & BG & He); [| lia | rewrite FG_limit_range by lia; lia | now split | now split].
  constructor; auto.
Qed.

(** F and G are what the completion of the private key finds: f G = g F modulo q. *)
Lemma psub_constant q k p : forall p', (q | k) -> length p = length p' -> psub p p' = k :: replicate (length p - 1) 0 -> pcong q p p'.
Proof.
  destruct p as [|c p]; intros [|c' p'] Hk Hl H; try done. cbn [length] in H, Hl. change (psub (c :: p) (c' :: p')) with (c - c' :: psub p p') in H.
  injection H as Hc H. constructor; [unfold cong; now rewrite Hc|]. rewrite Nat.sub_0_r in H. assert (length p = length p') as Hl' by lia.
  clear - Hl' H. revert p' Hl' H. induction p as [|c p IH]; intros [|c' p'] Hl H; try done.
  cbn [length replicate] in H. change (psub (c :: p) (c' :: p')) with (c - c' :: psub p p') in H. injection H as Hc H.
  constructor; [apply (cong_intro _ _ _ 0); lia | apply IH; [cbn [length] in Hl; lia | exact H]].
Qed.

Lemma key_pair_completes logn f g F G h : (1 <= logn <= 10)%nat -> key_pair logn f g F G h ->
  complete_private f g F logn = Some G.
Proof.
  intros Hlogn [(Lf & Bf & _) (Lg & Bg & _) (_ & _ & _ & _ & Hi & _) [LF BF] [LG BG] He]. rewrite FG_limit_range in BF, BG by lia.
  apply (complete_private_iff logn ltac:(lia) f g F G); auto using bytes_small. split; [exact Hi|]. split; [exact LG|].
  split; [eapply Forall_impl; [exact BG|]; cbn beta; intros; lia|]. unfold ntru_equation in He. apply (psub_constant Q 12289).
  - exists 1. reflexivity.
  - rewrite !length_ring_mul; auto.
  - rewrite length_ring_mul by auto. exact He.
Qed.

(** * The loop *)

(** The [k]-th pair drawn from [rng], with the generator that drew it. *)
Fixpoint nth_candidate (k draws : nat) (rng : inc_ctx) (logn : nat) : option (list Z * list Z) :=
  '(rng, f) ← poly_small_mkgauss draws rng logn;
  '(rng, g) ← poly_small_mkgauss draws rng logn;
  match k with O => Some (f, g) | S k => nth_candidate k draws rng logn end.

Lemma nth_candidate_odd k : forall draws rng logn f g, nth_candidate k draws rng logn = Some (f, g) -> odd_poly logn f /\ odd_poly logn g.
Proof.
  induction k as [|k IH]; intros draws rng logn f g H; cbn [nth_candidate] in H;
    destruct (poly_small_mkgauss draws rng logn) as [[rng1 f']|] eqn:E1; try done; cbn [mbind option_bind] in H;
    destruct (poly_small_mkgauss draws rng1 logn) as [[rng2 g']|] eqn:E2; try done; cbn [mbind option_bind] in H.
  - injection H as <- <-. split; eapply poly_small_mkgauss_spec; eassumption.
  - now apply IH in H.
Qed.

(** Candidate [k] is the first that is not rejected. *)
Definition first_success (k draws : nat) (rng : inc_ctx) (logn : nat) (f g F G h : list Z) : Prop :=
  nth_candidate k draws rng logn = Some (f, g) /\ keygen_try f g logn = Done (F, G, h) /\
  forall j, (j < k)%nat -> exists fj gj, nth_candidate j draws rng logn = Some (fj, gj) /\ keygen_try fj gj logn = Fail.

#[local] Opaque keygen_try poly_small_mkgauss.

Lemma keygen_loop_iff fuel : forall draws rng logn f g F G h,
  keygen_loop fuel draws rng logn = Some (f, g, F, G, h) <-> exists k, (k < fuel)%nat /\ first_success k draws rng logn f g F G h.
Proof.
  unfold first_success. induction fuel as [|fuel IH]; intros draws rng logn f g F G h; cbn [keygen_loop]; [split; [done | intros (k & Hk & _); lia]|].
  destruct (poly_small_mkgauss draws rng logn) as [[rng1 f']|] eqn:E1; cbn [mbind option_bind].
  2: { split; [done|]. intros (k & _ & H & _). destruct k; cbn [nth_candidate] in H; rewrite E1 in H; done. }
  destruct (poly_small_mkgauss draws rng1 logn) as [[rng2 g']|] eqn:E2; cbn [mbind option_bind].
  2: { split; [done|]. intros (k & _ & H & _). destruct k; cbn [nth_candidate] in H; rewrite E1 in H; cbn [mbind option_bind] in H; rewrite E2 in H; done. }
  assert (nth_candidate 0 draws rng logn = Some (f', g')) as N0 by (cbn [nth_candidate]; rewrite E1; cbn [mbind option_bind]; now rewrite E2).
  assert (forall k, nth_candidate (S k) draws rng logn = nth_candidate k draws rng2 logn) as NS by (intros k; cbn [nth_candidate]; rewrite E1; cbn [mbind option_bind]; now rewrite E2).
  destruct (keygen_try f' g' logn) as [[[F' G'] h']| |] eqn:ET.
  - split.
    + intros [= <- <- <- <- <-]. exists 0%nat. split; [lia|]. split; [exact N0|]. split; [exact ET|]. intros; lia.
    + intros ([|k] & Hk & H1 & H2 & H3); [rewrite N0 in H1; injection H1 as <- <-; congruence|].
      destruct (H3 0%nat ltac:(lia)) as (fj & gj & H4 & H5). rewrite N0 in H4. injection H4 as <- <-. congruence.
  - rewrite IH. split.
    + intros (k & Hk & H1 & H2 & H3). exists (S k). split; [lia|]. rewrite NS. split; [exact H1|]. split; [exact H2|].
      intros [|j] Hj; [exists f', g'; split; assumption|]. rewrite NS. apply H3. lia.
    + intros ([|k] & Hk & H1 & H2 & H3); [rewrite N0 in H1; injection H1 as <- <-; congruence|]. exists k. split; [lia|].
      rewrite NS in H1. split; [exact H1|]. split; [exact H2|]. intros j Hj. destruct (H3 (S j) ltac:(lia)) as (fj & gj & H4 & H5).
      rewrite NS in H4. now exists fj, gj.
  - split; [done|]. intros ([|k] & Hk & H1 & H2 & H3); [rewrite N0 in H1; injection H1 as <- <-; congruence|].
    destruct (H3 0%nat ltac:(lia)) as (fj & gj & H4 & H5). rewrite N0 in H4. injection H4 as <- <-. congruence.
Qed.

(** What a run returns. *)
Lemma keygen_loop_key_pair fuel draws rng logn f g F G h : (1 <= logn <= 10)%nat ->
  keygen_loop fuel draws rng logn = Some (f, g, F, G, h) -> key_pair logn f g F G h.
Proof.
  intros Hlogn H. apply keygen_loop_iff in H as (k & _ & Hn & Ht & _). destruct (nth_candidate_odd k draws rng logn f g Hn) as [Hf Hg].
  exact (keygen_try_key_pair logn f g F G h Hlogn Hf Hg Ht).
Qed.

#[local] Transparent keygen_try.

(** C11 (functional).  One turn of key generation always returns.  It keeps a candidate exactly when f and g
    are in range, their squared norm is below 16823, the computed norm of the orthogonalised vector is below
    its bound, f has an inverse (h is then the quotient g / f) and the NTRU solver succeeds; what it keeps is
    a key pair: f G - g F = 12289 over the integers with every coefficient of F and G in -127..127, and G is
    the polynomial the completion of the private key finds. *)
Theorem keygen_try_correct logn f g :
  (1 <= logn <= 10)%nat -> odd_poly logn f -> odd_poly logn g ->
  keygen_try f g logn <> Stuck /\
  (forall F G h, keygen_try f g logn = Done (F, G, h) <-> good_candidate logn f g h /\ solve_NTRU logn f g (FG_limit logn) = Done (F, G)) /\
  (forall F G h, keygen_try f g logn = Done (F, G, h) -> key_pair logn f g F G h /\ complete_private f g F logn = Some G).
Proof.
  intros Hlogn Hf Hg. destruct (keygen_try_spec logn f g Hlogn Hf Hg) as [Hret Hiff]. split; [exact Hret|]. split; [exact Hiff|].
  intros F G h H. pose proof (keygen_try_key_pair logn f g F G h Hlogn Hf Hg H) as Hk. split; [exact Hk|].
  exact (key_pair_completes logn f g F G h Hlogn Hk).
Qed.

Lemma keygen_try_correct_witness :
  odd_poly 1 [73; -2] /\ odd_poly 1 [38; -63] /\ key_pair 1 [73; -2] [38; -63] [-73; -69] [70; 29] [3116; 9175] /\
  ntru_equation 1 [73; -2] [38; -63] [-73; -69] [70; 29].
Proof.
  assert (odd_poly 1 [73; -2]) as Hf by (unfold odd_poly; split; [reflexivity|]; split; [by_decide | reflexivity]).
  assert (odd_poly 1 [38; -63]) as Hg by (unfold odd_poly; split; [reflexivity|]; split; [by_decide | reflexivity]).
  split; [exact Hf|]. split; [exact Hg|]. split; [|reflexivity].
  apply (proj1 (proj2 (proj2 (keygen_try_correct 1 [73; -2] [38; -63] ltac:(lia) Hf Hg)) [-73; -69] [70; 29] [3116; 9175] ltac:(vm_compute; reflexivity))).
Defined.

(** C19 (refinement).  Key generation refines the search for the first candidate that is kept: it returns a
    key exactly when, of the first [fuel] pairs of polynomials drawn, one is kept and those before it are
    rejected; and the polynomials it returns are always a key pair. *)
Theorem keygen_correct fuel draws rng logn :
  (1 <= logn <= 10)%nat ->
  (forall f g F G h, keygen_loop fuel draws rng logn = Some (f, g, F, G, h) <->
     exists k, (k < fuel)%nat /\ first_success k draws rng logn f g F G h) /\
  (forall f g F G h, keygen_loop fuel draws rng logn = Some (f, g, F, G, h) ->
     key_pair logn f g F G h /\ complete_private f g F logn = Some G).
Proof.
  intros Hlogn. split; [intros; apply keygen_loop_iff|]. intros f g F G h H.
  apply keygen_loop_key_pair in H as Hk; [|exact Hlogn]. split; [exact Hk|]. exact (key_pair_completes logn f g F G h Hlogn Hk).
Qed.

Lemma complete_example : complete_private [73; -2] [38; -63] [-73; -69] 1 = Some [70; 29].
Proof. vm_compute. reflexivity. Qed.

Lemma keygen_correct_witness :
  (keygen_loop 20 5000 shake256_inc_init 1 = Some ([73; -2], [38; -63], [-73; -69], [70; 29], [3116; 9175]) <->
     exists k, (k < 20)%nat /\ first_success k 5000 shake256_inc_init 1 [73; -2] [38; -63] [-73; -69] [70; 29] [3116; 9175]) /\
  keygen_loop 20 5000 shake256_inc_init 1 <> Some ([73; -2], [38; -63], [-73; -69], [70; 30], [3116; 9175]).
Proof.
  split; [apply (keygen_correct 20 5000 shake256_inc_init 1 ltac:(lia))|].
  intros H. apply (proj2 (keygen_correct 20 5000 shake256_inc_init 1 ltac:(lia))) in H. destruct H as [_ H].
  pose proof (eq_trans (eq_sym complete_example) H). discriminate.
Defined.
