(* ===== verification/Sign.v ===== *)
(** Sign: the Falcon tree and fast Fourier sampling of [sign.c] (lines 41 to 953 and 1167 to 1248).

    The operations on polynomials are those of [Fft] on emulated floats.  A tree is the flat array of the
    source.  The sampler is a parameter of the functions that take it as a function pointer; the last two,
    [sign_tree] and [sign_dyn], call them with the sampler of [Sampler].  [None] is a sampler, or a loop of
    attempts, that ran out of fuel. *)

From Stdlib Require Import ZArith Lia.
From stdpp Require Import base numbers list.
From S2P Require Import Prelude NumberTheory Norm Shake HashToPoint Prng Fpr FprPack FprArith FprAdd FprConv Fft FftTable Sampler.

Definition fpr_inv_sigma : list Z :=
  [0; 4574611497772390042; 4574501679055810265; 4574396282908341804; 4574245855758572086; 4574103865040221165;
   4573969550563515544; 4573842244705920822; 4573721358406441454; 4573606369665796042; 4573496814039276259].
Definition fpr_invsqrt2 : Z := 4604544271217802189.
Definition fpr_invsqrt8 : Z := 4600040671590431693.

(** * The tree *)

Definition ffLDL_treesize (logn : nat) : nat := (logn + 1) * 2 ^ logn.

(** [n] cells to be written. *)
Abbreviation room n := (replicate n fpr_zero).

Fixpoint ffLDL_fft_inner (g0 g1 : list Z) (logn : nat) : list Z :=
  match logn with
  | O => [g0 !!! 0%nat]
  | S logn' =>
      let n := (2 ^ logn)%nat in
      let hn := (n / 2)%nat in
      let '(d11, l10) := poly_LDLmv_fft (room n) (room n) g0 g1 g0 logn in
      let '(d00_0, d00_1) := poly_split_fft (room hn) (room hn) g0 logn in
      let '(d11_0, d11_1) := poly_split_fft (room hn) (room hn) d11 logn in
      l10 ++ ffLDL_fft_inner d00_0 d00_1 logn' ++ ffLDL_fft_inner d11_0 d11_1 logn'
  end.

Definition ffLDL_fft (g00 g01 g11 : list Z) (logn : nat) : list Z :=
  match logn with
  | O => [g00 !!! 0%nat]
  | S logn' =>
      let n := (2 ^ logn)%nat in
      let hn := (n / 2)%nat in
      let '(d11, l10) := poly_LDLmv_fft (room n) (room n) g00 g01 g11 logn in
      let '(d00_0, d00_1) := poly_split_fft (room hn) (room hn) g00 logn in
      let '(d11_0, d11_1) := poly_split_fft (room hn) (room hn) d11 logn in
      l10 ++ ffLDL_fft_inner d00_0 d00_1 logn' ++ ffLDL_fft_inner d11_0 d11_1 logn'
  end.

Fixpoint ffLDL_binary_normalize (tree : list Z) (orig_logn logn : nat) : list Z :=
  match logn with
  | O => [fpr_mul (fpr_sqrt (tree !!! 0%nat)) (fpr_inv_sigma !!! orig_logn)]
  | S logn' =>
      let n := (2 ^ logn)%nat in
      let sub := ffLDL_treesize logn' in
      take n tree ++ ffLDL_binary_normalize (take sub (drop n tree)) orig_logn logn'
      ++ ffLDL_binary_normalize (drop (n + sub) tree) orig_logn logn'
  end.

(** * The expanded key *)

Definition smallints_to_fpr (t : list Z) (logn : nat) : list Z := (fun u => fpr_of (t !!! u)) <$> seq 0 (2 ^ logn).

Definition skoff_b00 (logn : nat) : nat := 0.
Definition skoff_b01 (logn : nat) : nat := 2 ^ logn.
Definition skoff_b10 (logn : nat) : nat := 2 * 2 ^ logn.
Definition skoff_b11 (logn : nat) : nat := 3 * 2 ^ logn.
Definition skoff_tree (logn : nat) : nat := 4 * 2 ^ logn.

(** The basis [[g, -f], [G, -F]] in FFT representation. *)
Record basis := mk_basis { b00 : list Z; b01 : list Z; b10 : list Z; b11 : list Z }.

Definition load_basis (f g F G : list Z) (logn : nat) : basis :=
  let rf := poly_neg (FFT (smallints_to_fpr f logn) logn) logn in
  let rg := FFT (smallints_to_fpr g logn) logn in
  let rF := poly_neg (FFT (smallints_to_fpr F logn) logn) logn in
  let rG := FFT (smallints_to_fpr G logn) logn in
  mk_basis rg rf rG rF.

(** The Gram matrix of the expanded key: g00, g01 and g11. *)
Definition gram (b : basis) (logn : nat) : list Z * list Z * list Z :=
  let g00 := poly_mulselfadj_fft (b00 b) logn in
  let gxx := poly_mulselfadj_fft (b01 b) logn in
  let g00 := poly_add g00 gxx logn in
  let g01 := poly_muladj_fft (b00 b) (b10 b) logn in
  let gxx := poly_muladj_fft (b01 b) (b11 b) logn in
  let g01 := poly_add g01 gxx logn in
  let g11 := poly_mulselfadj_fft (b10 b) logn in
  let gxx := poly_mulselfadj_fft (b11 b) logn in
  let g11 := poly_add g11 gxx logn in
  (g00, g01, g11).

Definition expand_privkey (f g F G : list Z) (logn : nat) : list Z :=
  let b := load_basis f g F G logn in
  let '(g00, g01, g11) := gram b logn in
  let tree := ffLDL_fft g00 g01 g11 logn in
  let tree := ffLDL_binary_normalize tree logn logn in
  b00 b ++ b01 b ++ b10 b ++ b11 b ++ tree.

(** * Sampling *)

Section Sampling.
Context {C : Type} (samp : C -> Z -> Z -> option (C * Z)).

(** Two samples with the same deviation, converted. *)
Definition samp2 (ctx : C) (x0 x1 sigma : Z) : option (C * Z * Z) :=
  '(ctx, v0) ← samp ctx x0 sigma;
  '(ctx, v1) ← samp ctx x1 sigma;
  Some (ctx, fpr_of v0, fpr_of v1).

Fixpoint ffSampling_fft_dyntree (ctx : C) (t0 t1 g00 g01 g11 : list Z) (orig_logn logn : nat) : option (C * list Z * list Z) :=
  match logn with
  | O =>
      let leaf := fpr_mul (fpr_sqrt (g00 !!! 0%nat)) (fpr_inv_sigma !!! orig_logn) in
      '(ctx, z0, z1) ← samp2 ctx (t0 !!! 0%nat) (t1 !!! 0%nat) leaf;
      Some (ctx, [z0], [z1])
  | S logn' =>
      let n := (2 ^ logn)%nat in
      let hn := (n / 2)%nat in
      let '(l10, d11) := poly_LDL_fft g00 g01 g11 logn in
      let '(d00_0, d00_1) := poly_split_fft (room hn) (room hn) g00 logn in
      let '(d11_0, d11_1) := poly_split_fft (room hn) (room hn) d11 logn in
      (* the right sub-tree *)
      let '(t1_0, t1_1) := poly_split_fft (room hn) (room hn) t1 logn in
      '(ctx, z1_0, z1_1) ← ffSampling_fft_dyntree ctx t1_0 t1_1 d11_0 d11_1 d11_0 orig_logn logn';
      let z1 := poly_merge_fft (room n) z1_0 z1_1 logn in
      (* tb0 = t0 + (t1 - z1) * l10 *)
      let tb0 := poly_add t0 (poly_mul_fft l10 (poly_sub t1 z1 logn) logn) logn in
      (* the left sub-tree *)
      let '(tb0_0, tb0_1) := poly_split_fft (room hn) (room hn) tb0 logn in
      '(ctx, z0_0, z0_1) ← ffSampling_fft_dyntree ctx tb0_0 tb0_1 d00_0 d00_1 d00_0 orig_logn logn';
      Some (ctx, poly_merge_fft tb0 z0_0 z0_1 logn, z1)
  end.

(** The last two levels, inlined: the split of a target, *)
Definition split2 (t : list Z) : (Z * Z) * (Z * Z) :=
  let a := (t !!! 0%nat, t !!! 2%nat) in
  let b := (t !!! 1%nat, t !!! 3%nat) in
  let c := FPC_ADD a b in
  let w01 := (fpr_half c.1, fpr_half c.2) in
  let c := FPC_SUB a b in
  (w01, (fpr_mul (fpr_add c.1 c.2) fpr_invsqrt8, fpr_mul (fpr_sub c.2 c.1) fpr_invsqrt8)).

(** the four samples under the sub-tree [tree], *)
Definition sample2 (ctx : C) (tree : list Z) (w01 w23 : Z * Z) : option (C * (Z * Z) * (Z * Z)) :=
  let x := w23 in
  '(ctx, w2, w3) ← samp2 ctx x.1 x.2 (tree !!! 3%nat);
  let a := (fpr_sub x.1 w2, fpr_sub x.2 w3) in
  let c := FPC_MUL a (tree !!! 0%nat, tree !!! 1%nat) in
  let x := FPC_ADD c w01 in
  '(ctx, w0, w1) ← samp2 ctx x.1 x.2 (tree !!! 2%nat);
  Some (ctx, (w0, w1), (w2, w3)).

(** and the merge. *)
Definition merge2 (a b : Z * Z) : list Z :=
  let c := (fpr_mul (fpr_sub b.1 b.2) fpr_invsqrt2, fpr_mul (fpr_add b.1 b.2) fpr_invsqrt2) in
  let p := FPC_ADD a c in
  let q := FPC_SUB a c in
  [p.1; q.1; p.2; q.2].

(** Case [logn = 2]. *)
Definition ffSampling_fft_2 (ctx : C) (tree t0 t1 : list Z) : option (C * list Z * list Z) :=
  let tree0 := drop 4 tree in
  let tree1 := drop 8 tree in
  let '(w01, w23) := split2 t1 in
  '(ctx, w01, w23) ← sample2 ctx tree1 w01 w23;
  let z1 := merge2 w01 w23 in
  let at2 (l : list Z) j := cget 2 l j in
  let diff j := FPC_SUB (at2 t1 j) (at2 z1 j) in
  let w j := FPC_ADD (FPC_MUL (diff j) (at2 tree j)) (at2 t0 j) in
  let '(w01, w23) := split2 [(w 0%nat).1; (w 1%nat).1; (w 0%nat).2; (w 1%nat).2] in
  '(ctx, w01, w23) ← sample2 ctx tree0 w01 w23;
  Some (ctx, merge2 w01 w23, z1).

(** Case [logn = 1]. *)
Definition ffSampling_fft_1 (ctx : C) (tree t0 t1 : list Z) : option (C * list Z * list Z) :=
  '(ctx, z0, z1) ← sample2 ctx tree (t0 !!! 0%nat, t0 !!! 1%nat) (t1 !!! 0%nat, t1 !!! 1%nat);
  Some (ctx, [z0.1; z0.2], [z1.1; z1.2]).

(** [z0] and [z1]; the case [logn = 0] is a comment in the source. *)
Fixpoint ffSampling_fft (ctx : C) (tree t0 t1 : list Z) (logn : nat) : option (C * list Z * list Z) :=
  match logn with
  | O => None
  | 1%nat => ffSampling_fft_1 ctx tree t0 t1
  | 2%nat => ffSampling_fft_2 ctx tree t0 t1
  | S logn' =>
      let n := (2 ^ logn)%nat in
      let hn := (n / 2)%nat in
      let tree0 := drop n tree in
      let tree1 := drop (n + ffLDL_treesize logn') tree in
      let '(t1_0, t1_1) := poly_split_fft (room hn) (room hn) t1 logn in
      '(ctx, z1_0, z1_1) ← ffSampling_fft ctx tree1 t1_0 t1_1 logn';
      let z1 := poly_merge_fft (room n) z1_0 z1_1 logn in
      let tb0 := poly_add (poly_mul_fft (poly_sub t1 z1 logn) tree logn) t0 logn in
      let '(tb0_0, tb0_1) := poly_split_fft (room hn) (room hn) tb0 logn in
      '(ctx, z0_0, z0_1) ← ffSampling_fft ctx tree0 tb0_0 tb0_1 logn';
      Some (ctx, poly_merge_fft (room n) z0_0 z0_1 logn, z1)
  end.

(** * One attempt *)

(** The target vector: hm in the basis, over q. *)
Definition target (hm b01 b11 : list Z) (logn : nat) : list Z * list Z :=
  let t0 := (fun u => fpr_of (hm !!! u)) <$> seq 0 (2 ^ logn) in
  let t0 := FFT t0 logn in
  let ni := fpr_inverse_of_q in
  let t1 := poly_mul_fft t0 b01 logn in
  let t1 := poly_mulconst t1 (fpr_neg ni) logn in
  let t0 := poly_mul_fft t0 b11 logn in
  let t0 := poly_mulconst t0 ni logn in
  (t0, t1).

(** The lattice point of the sampled vector. *)
Definition lattice_point (b : basis) (tx ty : list Z) (logn : nat) : list Z * list Z :=
  let t0 := tx in
  let t1 := ty in
  let tx := poly_mul_fft tx (b00 b) logn in
  let ty := poly_mul_fft ty (b10 b) logn in
  let tx := poly_add tx ty logn in
  let ty := poly_mul_fft t0 (b01 b) logn in
  let t0 := tx in
  let t1 := poly_mul_fft t1 (b11 b) logn in
  let t1 := poly_add t1 ty logn in
  (iFFT t0 logn, iFFT t1 logn).

(** The coefficient [u] of hm minus the point, in 32 bits. *)
Definition s1_coefficient (hm t0 : list Z) (u : nat) : Z := i32 (hm !!! u - i32 (fpr_rint (t0 !!! u))).

(** The squared norm of s1, saturated. *)
Definition s1_norm (hm t0 : list Z) (logn : nat) : Z :=
  let '(sqn, ng) := for_up 0 (2 ^ logn) (fun u '(sqn, ng) =>
    let z := s1_coefficient hm t0 u in
    let sqn := u32 (sqn + u32 (z * z)) in
    (sqn, ng .| sqn)) (0, 0) in
  sqn .| u32 (- (ng .>> 31)).

Definition s2_vector (t1 : list Z) (logn : nat) : list Z := (fun u => i16 (- fpr_rint (t1 !!! u))) <$> seq 0 (2 ^ logn).

(** The vector s2 when it is short enough with s1. *)
Definition short_signature (hm t0 t1 : list Z) (logn : nat) : option (list Z) :=
  let sqn := s1_norm hm t0 logn in
  let s2 := s2_vector t1 logn in
  if negb (is_short_half sqn s2 logn =? 0) then Some s2 else None.

(** The point found with the tree: the sampling of [do_sign_tree]. *)
Definition tree_point (ctx : C) (expanded_key hm : list Z) (logn : nat) : option (C * list Z * list Z) :=
  let n := (2 ^ logn)%nat in
  let part off := take n (drop off expanded_key) in
  let b := mk_basis (part (skoff_b00 logn)) (part (skoff_b01 logn)) (part (skoff_b10 logn)) (part (skoff_b11 logn)) in
  let tree := drop (skoff_tree logn) expanded_key in
  let '(t0, t1) := target hm (b01 b) (b11 b) logn in
  '(ctx, tx, ty) ← ffSampling_fft ctx tree t0 t1 logn;
  let '(t0, t1) := lattice_point b tx ty logn in
  Some (ctx, t0, t1).

(** The result is [None] inside when the attempt must be repeated. *)
Definition do_sign_tree (ctx : C) (expanded_key hm : list Z) (logn : nat) : option (C * option (list Z)) :=
  '(ctx, t0, t1) ← tree_point ctx expanded_key hm logn;
  Some (ctx, short_signature hm t0 t1 logn).

(** g01 is summed in the other order. *)
Definition gram_dyn (b : basis) (logn : nat) : list Z * list Z * list Z :=
  let t0 := poly_mulselfadj_fft (b01 b) logn in
  let t1 := poly_muladj_fft (b00 b) (b10 b) logn in
  let g00 := poly_add (poly_mulselfadj_fft (b00 b) logn) t0 logn in
  let g01 := poly_add (poly_muladj_fft (b01 b) (b11 b) logn) t1 logn in
  let t1 := poly_mulselfadj_fft (b11 b) logn in
  let g11 := poly_add (poly_mulselfadj_fft (b10 b) logn) t1 logn in
  (g00, g01, g11).

(** The point found from f, g, F and G: the sampling of [do_sign_dyn]. *)
Definition dyn_point (ctx : C) (f g F G hm : list Z) (logn : nat) : option (C * list Z * list Z) :=
  let b := load_basis f g F G logn in
  let '(g00, g01, g11) := gram_dyn b logn in
  let '(t0, t1) := target hm (b01 b) (b11 b) logn in
  '(ctx, t0, t1) ← ffSampling_fft_dyntree ctx t0 t1 g00 g01 g11 logn logn;
  let b := load_basis f g F G logn in
  let '(t0, t1) := lattice_point b t0 t1 logn in
  Some (ctx, t0, t1).

Definition do_sign_dyn (ctx : C) (f g F G hm : list Z) (logn : nat) : option (C * option (list Z)) :=
  '(ctx, t0, t1) ← dyn_point ctx f g F G hm logn;
  Some (ctx, short_signature hm t0 t1 logn).
End Sampling.

(** * Signatures *)

(** The memory of [spc.p] before [prng_init]. *)
Definition fresh_prng : prng := mk_prng (replicate 512 0) 0 (replicate 64 0).

(** One turn of the loop of [sign_tree] and [sign_dyn], [attempt] being what the turn calls. *)
Definition sign_turn (attempt : sampler_context -> option (sampler_context * option (list Z))) (logn : nat) (rng : inc_ctx) :
    option (inc_ctx * option (list Z)) :=
  '(rng, p) ← prng_init fresh_prng rng;
  '(_, s) ← attempt (mk_sampler_context p (fpr_sigma_min !!! logn));
  Some (rng, s).

Fixpoint sign_turns (fuel : nat) (turn : inc_ctx -> option (inc_ctx * option (list Z))) (rng : inc_ctx) : option (inc_ctx * list Z) :=
  match fuel with
  | O => None
  | S fuel =>
      '(rng, s) ← turn rng;
      match s with
      | Some s2 => Some (rng, s2)
      | None => sign_turns fuel turn rng
      end
  end.

(** [tries] bounds the candidates of each call of the sampler and [fuel] the attempts. *)
Definition tree_turn (tries : nat) (expanded_key hm : list Z) (logn : nat) : inc_ctx -> option (inc_ctx * option (list Z)) :=
  sign_turn (fun spc => do_sign_tree (sampler tries) spc expanded_key hm logn) logn.

Definition dyn_turn (tries : nat) (f g F G hm : list Z) (logn : nat) : inc_ctx -> option (inc_ctx * option (list Z)) :=
  sign_turn (fun spc => do_sign_dyn (sampler tries) spc f g F G hm logn) logn.

Definition sign_tree (fuel tries : nat) (rng : inc_ctx) (expanded_key hm : list Z) (logn : nat) : option (inc_ctx * list Z) :=
  sign_turns fuel (tree_turn tries expanded_key hm logn) rng.

Definition sign_dyn (fuel tries : nat) (rng : inc_ctx) (f g F G hm : list Z) (logn : nat) : option (inc_ctx * list Z) :=
  sign_turns fuel (dyn_turn tries f g F G hm logn) rng.

Example sign_smoke : sign_dyn 1 100 shake256_inc_init [73; -2] [38; -63] [-73; -69] [70; 29] [1000; 12000] 1 <> None.
Proof. vm_compute. discriminate. Qed.

(** * The norm test *)

(** The vector s1 = hm - (first half of the point). *)
Definition s1_vector (hm t0 : list Z) (logn : nat) : list Z := s1_coefficient hm t0 <$> seq 0 (2 ^ logn).

Lemma s1_vector_at hm t0 logn u : (u < 2 ^ logn)%nat -> s1_vector hm t0 logn !!! u = s1_coefficient hm t0 u.
Proof.
  intros Hu. unfold s1_vector. rewrite (@list_lookup_total_fmap nat Z (s1_coefficient hm t0) _ _) by now rewrite length_seq.
  now rewrite lookup_total_seq_lt.
Qed.

Lemma s1_norm_tracks hm t0 logn : Forall in_i16 (s1_vector hm t0 logn) ->
  exists s ng, s1_norm hm t0 logn = s .| u32 (- (ng .>> 31)) /\ tracks (norm2 (s1_vector hm t0 logn)) (s, ng).
Proof.
  intros Hb. assert (length (s1_vector hm t0 logn) = (2 ^ logn)%nat) as Hl by (unfold s1_vector; now rewrite length_fmap, length_seq).
  rewrite Forall_lookup_total, Hl in Hb. unfold s1_norm. set (body := fun (u : nat) (st : Z * Z) => _).
  assert (tracks (norm2 (take (2 ^ logn) (s1_vector hm t0 logn))) (for_up 0 (2 ^ logn) body (0, 0))) as Ht.
  { apply (for_up_inv _ (fun u st => tracks (norm2 (take u (s1_vector hm t0 logn))) st)); [lia | |].
    - split; [done|]. split; [done|]. split; [done|]. now left.
    - intros u [s ng] Hu Hst. rewrite norm2_take_S by lia. rewrite s1_vector_at by lia. specialize (Hb u ltac:(lia)). rewrite s1_vector_at in Hb by lia.
      exact (norm_step_tracks _ _ _ Hb Hst). }
  rewrite take_ge in Ht by lia. destruct (for_up 0 (2 ^ logn) body (0, 0)) as [s ng]. exists s, ng. now split.
Qed.

Lemma s2_vector_ok t1 logn : length (s2_vector t1 logn) = (2 ^ logn)%nat /\ Forall in_i16 (s2_vector t1 logn).
Proof.
  unfold s2_vector. split; [now rewrite length_fmap, length_seq|]. apply Forall_fmap, Forall_true. intros u.
  unfold compose, in_i16. apply (sext_range 16). lia.
Qed.

Lemma tracks_compare e s ng b : tracks e (s, ng) -> 0 <= b < 2 ^ 31 -> s .| u32 (- (ng .>> 31)) <= b <-> e <= b.
Proof. intros Ht Hb. pose proof (saturate_compare e s ng b Ht Hb) as H. rewrite <- !Z.leb_le. now rewrite H. Qed.

Lemma tracks_saturated e s ng : tracks e (s, ng) -> in_width 32 (s .| u32 (- (ng .>> 31))).
Proof. intros (Hs & _). apply lor_width; [lia | exact Hs | apply wrap_range; lia]. Qed.

(** An attempt succeeds exactly when the whole vector is within the bound of the verifier. *)
Lemma short_signature_iff hm t0 t1 logn s2 : (logn <= 10)%nat -> Forall in_i16 (s1_vector hm t0 logn) ->
  short_signature hm t0 t1 logn = Some s2 <->
  s2 = s2_vector t1 logn /\ norm2 (s1_vector hm t0 logn) + norm2 s2 <= l2bound !!! logn.
Proof.
  intros Hl Hb. destruct (s1_norm_tracks hm t0 logn Hb) as (s & ng & Es & Ht). destruct (s2_vector_ok t1 logn) as [L2 B2].
  pose proof (l2bound_range logn Hl) as Hbound. pose proof (norm2_nonneg (s2_vector t1 logn)) as H2. pose proof (norm2_nonneg (s1_vector hm t0 logn)) as H1.
  unfold short_signature. rewrite Es, is_short_half_exact by (try apply (tracks_saturated _ _ _ Ht); assumption).
  set (sqn := s .| u32 (- (ng .>> 31))) in *. set (e := norm2 (s1_vector hm t0 logn)) in *. set (e2 := norm2 (s2_vector t1 logn)) in *.
  assert (sqn + e2 <= l2bound !!! logn <-> e + e2 <= l2bound !!! logn) as Hiff.
  { pose proof (tracks_saturated _ _ _ Ht) as [Hq _]. fold sqn in Hq. split; intros H.
    - pose proof (proj1 (tracks_compare e s ng sqn Ht ltac:(lia)) ltac:(unfold sqn; lia)). lia.
    - pose proof (proj2 (tracks_compare e s ng e Ht ltac:(lia)) ltac:(lia)). fold sqn in H0. lia. }
  destruct (Z.leb_spec (sqn + e2) (l2bound !!! logn)); cbn [bit Z.eqb negb].
  - split; [intros [= <-]; split; [done | now apply Hiff] | intros [-> _]; done].
  - split; [done|]. intros [-> H']. apply Hiff in H'. lia.
Qed.

(** Whatever the values, a signature vector is within the bound by itself. *)
Lemma short_signature_bound hm t0 t1 logn s2 : (logn <= 10)%nat -> short_signature hm t0 t1 logn = Some s2 ->
  length s2 = (2 ^ logn)%nat /\ Forall in_i16 s2 /\ norm2 s2 <= l2bound !!! logn.
Proof.
  intros Hl. unfold short_signature. destruct (s2_vector_ok t1 logn) as [L2 B2].
  assert (in_width 32 (s1_norm hm t0 logn)) as Hw.
  { unfold s1_norm. set (body := fun (u : nat) (st : Z * Z) => _).
    assert (in_width 32 (for_up 0 (2 ^ logn) body (0, 0)).1) as H.
    { apply (for_up_inv _ (fun _ st => in_width 32 st.1)); [lia | unfold in_width; cbn; lia|]. intros u [s ng] _ _. cbn [fst body]. apply wrap_range. lia. }
    destruct (for_up 0 (2 ^ logn) body (0, 0)) as [s ng]. apply lor_width; [lia | exact H | apply wrap_range; lia]. }
  rewrite is_short_half_exact by assumption. destruct (Z.leb_spec (s1_norm hm t0 logn + norm2 (s2_vector t1 logn)) (l2bound !!! logn)); [|done].
  intros [= <-]. destruct Hw. split; [exact L2|]. split; [exact B2 | lia].
Qed.

(** * The loop of attempts *)

Section Turns.
Context (turn : inc_ctx -> option (inc_ctx * option (list Z))).

(** The result of turn [k], the generator running on from one turn to the next. *)
Fixpoint turn_at (k : nat) (rng : inc_ctx) : option (inc_ctx * option (list Z)) :=
  match k with
  | O => turn rng
  | S k => '(rng, _) ← turn rng; turn_at k rng
  end.

(** The first turn with a vector. *)
Definition first_short (k : nat) (rng rng' : inc_ctx) (s2 : list Z) : Prop :=
  turn_at k rng = Some (rng', Some s2) /\ forall j, (j < k)%nat -> exists r, turn_at j rng = Some (r, None).

Lemma sign_turns_iff fuel : forall rng rng' s2,
  sign_turns fuel turn rng = Some (rng', s2) <-> exists k, (k < fuel)%nat /\ first_short k rng rng' s2.
Proof using Type.
  unfold first_short. induction fuel as [|fuel IH]; intros rng rng' s2; cbn [sign_turns]; [split; [done | intros (k & Hk & _); lia]|].
  destruct (turn rng) as [[rng1 s]|] eqn:E; cbn [mbind option_bind].
  2: { split; [done|]. intros ([|k] & _ & H & _); cbn [turn_at] in H; rewrite E in H; done. }
  assert (forall k, turn_at (S k) rng = turn_at k rng1) as Hs by (intros k; cbn [turn_at]; now rewrite E).
  destruct s as [s|].
  - split.
    + intros [= <- <-]. exists 0%nat. split; [lia|]. split; [exact E | intros; lia].
    + intros ([|k] & _ & H & Hn); [cbn [turn_at] in H; rewrite E in H; congruence|]. destruct (Hn 0%nat ltac:(lia)) as [r Hr]. cbn [turn_at] in Hr. congruence.
  - rewrite IH. split.
    + intros (k & Hk & H & Hn). exists (S k). split; [lia|]. rewrite Hs. split; [exact H|]. intros [|j] Hj; [exists rng1; exact E|].
      rewrite Hs. apply Hn. lia.
    + intros ([|k] & Hk & H & Hn); [cbn [turn_at] in H; congruence|]. exists k. split; [lia|]. rewrite Hs in H. split; [exact H|].
      intros j Hj. destruct (Hn (S j) ltac:(lia)) as [r Hr]. rewrite Hs in Hr. now exists r.
Qed.

Lemma turn_at_turn k : forall rng rng' s, turn_at k rng = Some (rng', s) -> exists r, turn r = Some (rng', s).
Proof using Type.
  induction k as [|k IH]; intros rng rng' s H; cbn [turn_at] in H; [now exists rng|].
  destruct (turn rng) as [[rng1 s1]|]; [|done]. exact (IH _ _ _ H).
Qed.
End Turns.

(** A turn seeds a sampler and makes one attempt. *)
Lemma sign_turn_attempt attempt logn rng rng' s : sign_turn attempt logn rng = Some (rng', s) ->
  exists p spc', attempt (mk_sampler_context p (fpr_sigma_min !!! logn)) = Some (spc', s).
Proof.
  unfold sign_turn. destruct (prng_init fresh_prng rng) as [[rng1 p]|]; [|done]. cbn [mbind option_bind].
  destruct (attempt (mk_sampler_context p (fpr_sigma_min !!! logn))) as [[spc' s']|] eqn:E; [|done]. cbn [mbind option_bind].
  intros [= _ ->]. now exists p, spc'.
Qed.

(** What a signature vector comes from: the lattice point ([t0], [t1]), rounded. *)
Definition vector_of_point (logn : nat) (hm t0 t1 s2 : list Z) : Prop :=
  short_signature hm t0 t1 logn = Some s2 /\ s2 = s2_vector t1 logn /\ length s2 = (2 ^ logn)%nat /\ Forall in_i16 s2 /\ norm2 s2 <= l2bound !!! logn /\
  (Forall in_i16 (s1_vector hm t0 logn) -> norm2 (s1_vector hm t0 logn) + norm2 s2 <= l2bound !!! logn).

Lemma short_signature_vector hm t0 t1 logn s2 : (logn <= 10)%nat -> short_signature hm t0 t1 logn = Some s2 -> vector_of_point logn hm t0 t1 s2.
Proof.
  intros Hl H. destruct (short_signature_bound hm t0 t1 logn s2 Hl H) as (H1 & H2 & H3).
  assert (s2 = s2_vector t1 logn) as E by (unfold short_signature in H; destruct (negb _); [now injection H as <- | done]).
  split; [exact H|]. split; [exact E|]. split; [exact H1|]. split; [exact H2|]. split; [exact H3|]. intros Hb. now apply (short_signature_iff hm t0 t1 logn s2 Hl Hb) in H.
Qed.

#[local] Opaque dyn_point tree_point short_signature prng_init.

Lemma dyn_turn_vector tries f g F G hm logn rng rng' s2 : (logn <= 10)%nat ->
  dyn_turn tries f g F G hm logn rng = Some (rng', Some s2) ->
  exists p spc' t0 t1, dyn_point (sampler tries) (mk_sampler_context p (fpr_sigma_min !!! logn)) f g F G hm logn = Some (spc', t0, t1) /\
    vector_of_point logn hm t0 t1 s2.
Proof.
  intros Hl H. apply sign_turn_attempt in H as (p & spc' & H). exists p, spc'. unfold do_sign_dyn in H.
  destruct (dyn_point _ _ _ _ _ _ _ _) as [[[spc1 t0] t1]|]; [|done]. cbn [mbind option_bind] in H. injection H as <- H.
  exists t0, t1. split; [reflexivity | exact (short_signature_vector hm t0 t1 logn s2 Hl H)].
Qed.

Lemma tree_turn_vector tries key hm logn rng rng' s2 : (logn <= 10)%nat ->
  tree_turn tries key hm logn rng = Some (rng', Some s2) ->
  exists p spc' t0 t1, tree_point (sampler tries) (mk_sampler_context p (fpr_sigma_min !!! logn)) key hm logn = Some (spc', t0, t1) /\
    vector_of_point logn hm t0 t1 s2.
Proof.
  intros Hl H. apply sign_turn_attempt in H as (p & spc' & H). exists p, spc'. unfold do_sign_tree in H.
  destruct (tree_point _ _ _ _ _) as [[[spc1 t0] t1]|]; [|done]. cbn [mbind option_bind] in H. injection H as <- H.
  exists t0, t1. split; [reflexivity | exact (short_signature_vector hm t0 t1 logn s2 Hl H)].
Qed.

(** What the two functions return. *)
Lemma sign_dyn_vector fuel tries rng f g F G hm logn rng' s2 : (logn <= 10)%nat ->
  sign_dyn fuel tries rng f g F G hm logn = Some (rng', s2) ->
  exists p spc' t0 t1, dyn_point (sampler tries) (mk_sampler_context p (fpr_sigma_min !!! logn)) f g F G hm logn = Some (spc', t0, t1) /\
    vector_of_point logn hm t0 t1 s2.
Proof.
  intros Hl H. apply sign_turns_iff in H as (k & _ & H & _). apply turn_at_turn in H as [r H].
  exact (dyn_turn_vector _ _ _ _ _ _ _ _ _ _ Hl H).
Qed.

Lemma sign_tree_vector fuel tries rng key hm logn rng' s2 : (logn <= 10)%nat ->
  sign_tree fuel tries rng key hm logn = Some (rng', s2) ->
  exists p spc' t0 t1, tree_point (sampler tries) (mk_sampler_context p (fpr_sigma_min !!! logn)) key hm logn = Some (spc', t0, t1) /\
    vector_of_point logn hm t0 t1 s2.
Proof.
  intros Hl H. apply sign_turns_iff in H as (k & _ & H & _). apply turn_at_turn in H as [r H].
  exact (tree_turn_vector _ _ _ _ _ _ _ Hl H).
Qed.

(** C13 (safety).  The two signing functions return the vector of their first attempt whose point is short
    enough, each attempt with a sampler seeded from the generator that the previous one left; the vector is
    the negated rounding of the second half of the sampled lattice point, has n coefficients of 16 bits, and
    is never longer than the bound of the verifier; with the difference s1 between the hashed message and
    the first half, when it fits in 16 bits, it is still within that bound, although the squared norm of s1
    is summed in 32 bits. *)
Theorem sign_correct fuel tries rng (f g F G key hm : list Z) logn :
  (logn <= 10)%nat ->
  (forall rng' s2, sign_dyn fuel tries rng f g F G hm logn = Some (rng', s2) <->
     exists k, (k < fuel)%nat /\ first_short (dyn_turn tries f g F G hm logn) k rng rng' s2) /\
  (forall rng' s2, sign_tree fuel tries rng key hm logn = Some (rng', s2) <->
     exists k, (k < fuel)%nat /\ first_short (tree_turn tries key hm logn) k rng rng' s2) /\
  (forall rng' s2, sign_dyn fuel tries rng f g F G hm logn = Some (rng', s2) ->
     exists p spc' t0 t1, dyn_point (sampler tries) (mk_sampler_context p (fpr_sigma_min !!! logn)) f g F G hm logn = Some (spc', t0, t1) /\
       vector_of_point logn hm t0 t1 s2) /\
  (forall rng' s2, sign_tree fuel tries rng key hm logn = Some (rng', s2) ->
     exists p spc' t0 t1, tree_point (sampler tries) (mk_sampler_context p (fpr_sigma_min !!! logn)) key hm logn = Some (spc', t0, t1) /\
       vector_of_point logn hm t0 t1 s2).
Proof.
  intros Hl. split; [intros; apply sign_turns_iff|]. split; [intros; apply sign_turns_iff|]. split; intros rng' s2 H.
  - exact (sign_dyn_vector _ _ _ _ _ _ _ _ _ _ _ Hl H).
  - exact (sign_tree_vector _ _ _ _ _ _ _ _ Hl H).
Qed.

#[local] Transparent dyn_point tree_point short_signature prng_init.

Lemma sign_correct_witness : exists rng' s2,
  sign_dyn 1 100 shake256_inc_init [73; -2] [38; -63] [-73; -69] [70; 29] [1000; 12000] 1 = Some (rng', s2) /\
  norm2 s2 <= l2bound !!! 1%nat.
Proof.
  destruct (sign_dyn 1 100 shake256_inc_init [73; -2] [38; -63] [-73; -69] [70; 29] [1000; 12000] 1) as [[rng' s2]|] eqn:E; [|destruct (sign_smoke E)].
  exists rng', s2. split; [reflexivity|].
  destruct (proj1 (proj2 (proj2 (sign_correct 1 100 shake256_inc_init [73; -2] [38; -63] [-73; -69] [70; 29] [] [1000; 12000] 1 ltac:(lia)))) rng' s2 E)
    as (p & spc' & t0 & t1 & _ & H). apply H.
Defined.
