(* ===== verification/SignSpec.v ===== *)
(** SignSpec: signatures made with a generated key are accepted by the verifier.

    The sampled point is computed in floating point.  Whenever its rounded halves are a point of the
    lattice of the private key, [verify_raw] accepts the vector s2: the Falcon equation follows from
    f h = g and f G = g F modulo q, and the norm test of the signer is at least as strict as the
    verifier's. *)

From Stdlib Require Import ZArith Lia.
From stdpp Require Import base numbers list.
From S2P Require Import Prelude NumberTheory Mq Polynomial Butterfly Poly Ntt Norm Vrfy Shake HashToPoint Prng Fpr Ntru NtruSpec Gauss Keygen Sampler Sign.

(** * Norms *)

Lemma norm2_term s u : (u < length s)%nat -> (s !!! u) * (s !!! u) <= norm2 s.
Proof.
  revert u. induction s as [|z s IH]; intros u Hu; [cbn in Hu; lia|]. cbn [norm2 foldr]. fold (norm2 s).
  pose proof (norm2_nonneg s). destruct u as [|u]; [cbn; nia|]. change ((z :: s) !!! S u) with (s !!! u).
  specialize (IH u ltac:(cbn in Hu; lia)). nia.
Qed.

(** A vector within the bound has coefficients below q. *)
Lemma short_small s logn : (logn <= 10)%nat -> norm2 s <= l2bound !!! logn -> small s.
Proof.
  intros Hl Hs. assert (l2bound !!! logn < 12289 * 12289) as Hb by (do 11 (destruct logn as [|logn]; [reflexivity|]); lia).
  apply Forall_lookup_total. intros u Hu. pose proof (norm2_term s u Hu). unfold Q. nia.
Qed.

(** Centred representatives are the shortest. *)
Lemma centered_shortest c d : c ≡[Q] d -> centered c * centered c <= d * d.
Proof.
  intros H. destruct (centered_spec c) as [Hr _]. destruct (decide (Z.abs d <= 6144)) as [Hd|Hd]; [|nia].
  rewrite <- (centered_unique c d); [lia | lia | now symmetry].
Qed.

Lemma centered_norm p s : poly_cong p s -> norm2 (centered <$> p) <= norm2 s.
Proof.
  intros H. induction H as [|c d p s Hc _ IH]; [done|]. rewrite fmap_cons. cbn [norm2 foldr]. fold (norm2 (centered <$> p)) (norm2 s).
  pose proof (centered_shortest c d Hc). lia.
Qed.

(** * The lattice *)

Lemma length_padd n p p' : length p = n -> length p' = n -> length (padd p p') = n.
Proof. intros H1 H2. unfold padd. rewrite length_zip_with. lia. Qed.

Section Lattice.
Context (logn : nat) (Hlogn : (logn <= 10)%nat) (f g F G h : list Z).
Abbreviation n := (2 ^ logn)%nat.
Context (Lf : length f = n) (Lg : length g = n) (LF : length F = n) (LG : length G = n).
Context (Hf : invertible logn f) (Hh : poly_ok n h) (Hfh : poly_cong (ring_mul n f h) g).
Context (HfG : poly_cong (ring_mul n f G) (ring_mul n g F)).

(** G = F h. *)
Lemma lattice_G k : (k < n)%nat -> peval G (root (n + k)) ≡[Q] peval F (root (n + k)) * peval h (root (n + k)).
Proof using All.
  intros Hk. pose proof (proj1 (invertible_iff logn Hlogn f Lf) Hf k Hk) as Hnz. apply (q_cancel _ _ (peval f (root (n + k)))); [exact Hnz|].
  pose proof (ring_mul_values logn f G k Hlogn LG Hk) as H1. pose proof (ring_mul_values logn g F k Hlogn LF Hk) as H2.
  pose proof (ring_mul_values logn f h k Hlogn (proj1 Hh) Hk) as H3. rewrite Hfh in H3. rewrite HfG, H2, H3 in H1.
  rewrite Z.mul_comm, <- H1. apply (cong_intro _ _ _ 0). ring.
Qed.

(** The point of the lattice of coordinates z0 and z1 in the basis [[g, -f], [G, -F]]. *)
Definition point_0 (z0 z1 : list Z) : list Z := padd (ring_mul n z0 g) (ring_mul n z1 G).
Definition point_1 (z0 z1 : list Z) : list Z := Z.opp <$> padd (ring_mul n z0 f) (ring_mul n z1 F).

(** The distance from (hm, 0) to the point satisfies the Falcon equation. *)
Lemma falcon_equation hm z0 z1 : length hm = n ->
  poly_cong (psub hm (ring_mul n (padd (ring_mul n z0 f) (ring_mul n z1 F)) h)) (psub hm (point_0 z0 z1)).
Proof using All.
  intros Hm. unfold point_0. assert (length h = n) as Lh by apply Hh.
  assert (forall a b, length a = n -> length b = n -> length (psub a b) = n) as Hsub by (intros a b Ha Hb; unfold psub; rewrite length_zip_with; lia).
  apply (points_determine logn Hlogn); [apply Hsub; [exact Hm | now apply length_ring_mul] | apply Hsub; [exact Hm | apply length_padd; now apply length_ring_mul] |].
  intros k Hk. rewrite !peval_psub by (rewrite Hm; symmetry; apply length_padd || idtac; now apply length_ring_mul).
  rewrite (ring_mul_values logn _ h k Hlogn Lh Hk). rewrite !peval_padd by (rewrite !length_ring_mul; done).
  rewrite (ring_mul_values logn z0 f k Hlogn Lf Hk), (ring_mul_values logn z1 F k Hlogn LF Hk).
  rewrite (ring_mul_values logn z0 g k Hlogn Lg Hk), (ring_mul_values logn z1 G k Hlogn LG Hk), (lattice_G k Hk).
  pose proof (ring_mul_values logn f h k Hlogn Lh Hk) as H3. rewrite Hfh in H3. rewrite H3. apply (cong_intro _ _ _ 0). ring.
Qed.
End Lattice.

(** * Acceptance *)

(** The rounded halves of the point are a point of the lattice, and its distance to (hm, 0) fits the
    types of the source: no conversion of [short_signature] loses anything. *)
Definition exact_point (logn : nat) (f g F G hm t0 t1 : list Z) : Prop :=
  exists z0 z1, length z0 = (2 ^ logn)%nat /\ length z1 = (2 ^ logn)%nat /\
    forall u, (u < 2 ^ logn)%nat ->
      fpr_rint (t0 !!! u) = point_0 logn g G z0 z1 !!! u /\ fpr_rint (t1 !!! u) = point_1 logn f F z0 z1 !!! u /\
      - 2 ^ 15 < point_1 logn f F z0 z1 !!! u <= 2 ^ 15 /\ in_i16 (hm !!! u - point_0 logn g G z0 z1 !!! u).

Section Accept.
Context (logn : nat) (Hlogn : (1 <= logn <= 10)%nat) (f g F G h hm : list Z).
Context (Hkey : key_pair logn f g F G h) (Hhm : poly_ok (2 ^ logn) hm).
Abbreviation n := (2 ^ logn)%nat.

Lemma exact_s1 t0 t1 : exact_point logn f g F G hm t0 t1 -> exists z0 z1,
  s1_vector hm t0 logn = psub hm (point_0 logn g G z0 z1) /\
  s2_vector t1 logn = padd (ring_mul n z0 f) (ring_mul n z1 F) /\ Forall in_i16 (s1_vector hm t0 logn).
Proof using All.
  intros (z0 & z1 & Lz0 & Lz1 & H). exists z0, z1. destruct Hkey as [[Lf _] [Lg _] _ [LF _] [LG _] _]. destruct Hhm as [Lm Bm].
  assert (length (point_0 logn g G z0 z1) = n) as L0 by (apply length_padd; now apply length_ring_mul).
  assert (length (padd (ring_mul n z0 f) (ring_mul n z1 F)) = n) as L1 by (apply length_padd; now apply length_ring_mul).
  assert (length (s1_vector hm t0 logn) = n) as Ls by (unfold s1_vector; now rewrite length_fmap, length_seq).
  assert (forall u, (u < n)%nat -> s1_vector hm t0 logn !!! u = hm !!! u - point_0 logn g G z0 z1 !!! u) as Hs1.
  { intros u Hu. rewrite s1_vector_at by exact Hu. unfold s1_coefficient. destruct (H u Hu) as (-> & _ & _ & Hr).
    rewrite Forall_lookup_total in Bm. specialize (Bm u ltac:(lia)). unfold in_q, Q in Bm. unfold in_i16 in Hr.
    rewrite !sext_small by (rewrite ?sext_small by lia; lia). reflexivity. }
  split; [|split].
  - apply list_eq_total; [unfold psub; rewrite length_zip_with; lia|]. intros u Hu. rewrite Hs1 by lia. unfold psub.
    now rewrite (lookup_total_zip_with _ _ _ _) by lia.
  - destruct (s2_vector_ok t1 logn) as [L2 _]. apply list_eq_total; [lia|]. intros u Hu. unfold s2_vector.
    rewrite (@list_lookup_total_fmap nat Z (fun u => i16 (- fpr_rint (t1 !!! u))) _ _) by (rewrite length_seq; lia).
    rewrite lookup_total_seq_lt by lia. cbn [Nat.add]. destruct (H u ltac:(lia)) as (_ & -> & Hr & _). unfold point_1 in *.
    rewrite (@list_lookup_total_fmap Z Z Z.opp _ _) in * by lia. rewrite sext_small by lia. lia.
  - apply Forall_lookup_total. intros u Hu. rewrite Hs1 by lia. now apply H; lia.
Qed.

(** The Falcon relation holds of s2. *)
Lemma exact_point_short t0 t1 s2 : exact_point logn f g F G hm t0 t1 -> short_signature hm t0 t1 logn = Some s2 ->
  norm2 (centered <$> psub hm (ring_mul n s2 h)) + norm2 s2 <= l2bound !!! logn.
Proof using All.
  intros He Hs. destruct (exact_s1 t0 t1 He) as (z0 & z1 & E1 & E2 & B1).
  apply (short_signature_iff hm t0 t1 logn s2 ltac:(lia) B1) in Hs as [-> Hnorm]. destruct Hkey as [[Lf Bf] [Lg Bg] (_ & _ & _ & _ & Hi & Hh & Hfh) [LF BF] [LG BG] Hn].
  pose proof (key_pair_completes logn f g F G h Hlogn Hkey) as Hc.
  apply complete_private_iff in Hc; [|lia | exact Lf | apply bytes_small, Bf | exact Lg | apply bytes_small, Bg | exact LF |].
  2: { apply bytes_small. rewrite FG_limit_range in BF by lia. exact BF. }
  destruct Hc as (_ & _ & _ & HfG). pose proof (falcon_equation logn ltac:(lia) f g F G h Lf Lg LF LG Hi Hh Hfh HfG hm z0 z1 (proj1 Hhm)) as Heq.
  rewrite E2 in *. rewrite <- E1 in Heq. pose proof (centered_norm _ _ Heq) as Hle. lia.
Qed.

Lemma exact_point_accepted t0 t1 s2 : exact_point logn f g F G hm t0 t1 -> short_signature hm t0 t1 logn = Some s2 ->
  verify_raw hm s2 (to_ntt_monty h logn) logn = 1.
Proof using All.
  intros He Hs. destruct (short_signature_bound hm t0 t1 logn s2 ltac:(lia) Hs) as (L2 & _ & N2).
  pose proof (exact_point_short t0 t1 s2 He Hs) as Hle. destruct Hkey as [_ _ (_ & _ & _ & _ & _ & Hh & _) _ _ _].
  rewrite verify_raw_spec; [|lia | exact Hhm | exact L2 | exact (short_small _ logn ltac:(lia) N2) | exact Hh].
  apply Z.leb_le in Hle. now rewrite Hle.
Qed.
End Accept.

(** C4 (roundtrip).  Signatures verify.  For a generated key pair and a hashed message, in both signing
    functions: when the rounded halves of the sampled point are a point of the lattice of the private key
    (what floating point is meant to achieve) at a distance that fits 16 bits, the vector that is returned
    is accepted by [verify_raw] under the public key. *)
Theorem signature_verifies {C : Type} (samp : C -> Z -> Z -> option (C * Z)) (ctx ctx' : C) logn (f g F G h hm t0 t1 s2 : list Z) :
  (1 <= logn <= 10)%nat -> key_pair logn f g F G h -> poly_ok (2 ^ logn) hm -> exact_point logn f g F G hm t0 t1 ->
  (dyn_point samp ctx f g F G hm logn = Some (ctx', t0, t1) /\ do_sign_dyn samp ctx f g F G hm logn = Some (ctx', Some s2)) \/
  (tree_point samp ctx (expand_privkey f g F G logn) hm logn = Some (ctx', t0, t1) /\
   do_sign_tree samp ctx (expand_privkey f g F G logn) hm logn = Some (ctx', Some s2)) ->
  verify_raw hm s2 (to_ntt_monty h logn) logn = 1.
Proof.
  intros Hlogn Hkey Hm He H. apply (exact_point_accepted logn Hlogn f g F G h hm Hkey Hm t0 t1 s2 He).
  destruct H as [[Hp H]|[Hp H]]; [unfold do_sign_dyn in H | unfold do_sign_tree in H]; rewrite Hp in H; cbn [mbind option_bind] in H; now injection H.
Qed.

Definition demo_sampler : sampler_context := mk_sampler_context (mk_prng (replicate 512 77) 0 (replicate 64 0)) (fpr_sigma_min !!! 1%nat).

Lemma demo_point : match dyn_point (sampler 100) demo_sampler [73; -2] [38; -63] [-73; -69] [70; 29] [1000; 12000] 1 with
  | Some (_, t0, t1) => (fpr_rint <$> t0, fpr_rint <$> t1, short_signature [1000; 12000] t0 t1 1) = ([1120; 11998], [-10; 278], Some [10; -278])
  | None => False
  end.
Proof. vm_compute. reflexivity. Qed.

(** The point of coordinates z0 = [-60; 76] and z1 = [10; 72]. *)
Lemma demo_exact t0 t1 : fpr_rint <$> t0 = [1120; 11998] -> fpr_rint <$> t1 = [-10; 278] ->
  exact_point 1 [73; -2] [38; -63] [-73; -69] [70; 29] [1000; 12000] t0 t1.
Proof.
  intros R0 R1. exists [-60; 76], [10; 72]. split; [reflexivity|]. split; [reflexivity|]. intros u Hu.
  change (point_0 1 [38; -63] [70; 29] [-60; 76] [10; 72]) with [1120; 11998].
  change (point_1 1 [73; -2] [-73; -69] [-60; 76] [10; 72]) with [-10; 278].
  destruct t0 as [|x0 [|x1 [|]]]; try discriminate R0. destruct t1 as [|y0 [|y1 [|]]]; try discriminate R1.
  injection R0 as R00 R01. injection R1 as R10 R11. unfold in_i16.
  destruct u as [|[|u]]; [| |cbn in Hu; lia]; cbn [lookup_total list_lookup_total]; lia.
Qed.

Lemma demo_key : key_pair 1 [73; -2] [38; -63] [-73; -69] [70; 29] [3116; 9175].
Proof.
  apply keygen_try_key_pair; [lia | | | vm_compute; reflexivity]; unfold odd_poly; (split; [reflexivity|]; split; [by_decide | reflexivity]).
Qed.

Lemma signature_verifies_witness :
  exists ctx' s2, do_sign_dyn (sampler 100) demo_sampler [73; -2] [38; -63] [-73; -69] [70; 29] [1000; 12000] 1 = Some (ctx', Some s2) /\
    verify_raw [1000; 12000] s2 (to_ntt_monty [3116; 9175] 1) 1 = 1.
Proof.
  assert (poly_ok (2 ^ 1) [1000; 12000]) as Hm by (split; [reflexivity | unfold in_q; by_decide]). pose proof demo_point as D.
  destruct (dyn_point (sampler 100) demo_sampler [73; -2] [38; -63] [-73; -69] [70; 29] [1000; 12000] 1) as [[[ctx' t0] t1]|] eqn:E; [|destruct D].
  injection D as R0 R1 S. exists ctx', [10; -278].
  assert (do_sign_dyn (sampler 100) demo_sampler [73; -2] [38; -63] [-73; -69] [70; 29] [1000; 12000] 1 = Some (ctx', Some [10; -278])) as Hs.
  { unfold do_sign_dyn. rewrite E. cbn [mbind option_bind]. now rewrite S. }
  split; [exact Hs|]. exact (signature_verifies (sampler 100) demo_sampler ctx' 1 _ _ _ _ _ _ t0 t1 _ ltac:(lia) demo_key Hm (demo_exact t0 t1 R0 R1) (or_introl (Logic.conj E Hs))).
Defined.
