(* ===== verification/Falcon.v ===== *)
(** Falcon: the key, signature and verification functions common to [falcon.c] and [pqclean.c].

    The two files differ in the hash of nonce and message, which is the interface [PointHash]; key
    generation and the lattice sampler are the interface [Core].  Buffers are byte lists whose length
    is the C length argument; results are an [outcome]: [Done] for the return value 0 with the bytes
    written, [Fail] for -1. *)

From Stdlib Require Import ZArith Lia.
From stdpp Require Import base numbers list option.
From S2P Require Import Prelude NumberTheory Bits CodecFixed CodecComp Mq Polynomial Butterfly Poly Ntt Norm Vrfy Shake.

Definition NONCELEN : nat := 40.
Definition CRYPTO_SECRETKEYBYTES : nat := 1281.
Definition CRYPTO_PUBLICKEYBYTES : nat := 897.
Definition CRYPTO_BYTES : nat := 666.

(** The signature value may take 623 bytes, whatever key and message. *)
Definition value_max : nat := CRYPTO_BYTES - NONCELEN - 3.

(** The bytes the operating system will deliver, in order. *)
Definition entropy : Type := nat -> Z.

Definition randombytes (n : nat) (os : entropy) : list Z * entropy :=
  (os <$> seq 0 n, fun i => os (n + i)%nat).

(** * Interfaces *)

(** Hashing nonce and message to a polynomial modulo 12289 of degree 512: [hashable] is where the
    result is one. *)
Class PointHash := {
  point_hash : list Z -> list Z -> outcome (list Z);
  hashable : list Z -> list Z -> Prop;
  point_hash_ok nonce m :
    length nonce = NONCELEN -> Forall (in_width 8) nonce -> Forall (in_width 8) m -> hashable nonce m ->
    exists hm, point_hash nonce m = Done hm /\ poly_ok (2 ^ 9) hm
}.

(** Key generation and signing of a hashed message, drawing from a SHAKE256 context: [None] is a run
    that does not return.  The laws are the sizes and types of the arrays they fill. *)
Class Core := {
  keygen : inc_ctx -> option (list Z * list Z * list Z * list Z);
  sign_dyn : inc_ctx -> list Z -> list Z -> list Z -> list Z -> list Z -> option (inc_ctx * list Z);
  keygen_shape rng f g F h : keygen rng = Some (f, g, F, h) ->
    length f = (2 ^ 9)%nat /\ length g = (2 ^ 9)%nat /\ length F = (2 ^ 9)%nat /\
    length h = (2 ^ 9)%nat /\ Forall (in_width 16) h;
  sign_dyn_shape sc f g F G hm sc' sig : sign_dyn sc f g F G hm = Some (sc', sig) -> length sig = (2 ^ 9)%nat
}.

(** * Keys *)

Definition encode_private_key (f g F : list Z) : outcome (list Z) :=
  let u := 1%nat in
  let '(v, fb) := trim_i8_encode (Some (CRYPTO_SECRETKEYBYTES - u)%nat) f 9 (max_fg_bits !!! 9%nat) in
  fail_if (v =? 0)%nat;;
  let u := (u + v)%nat in
  let '(v, gb) := trim_i8_encode (Some (CRYPTO_SECRETKEYBYTES - u)%nat) g 9 (max_fg_bits !!! 9%nat) in
  fail_if (v =? 0)%nat;;
  let u := (u + v)%nat in
  let '(v, Fb) := trim_i8_encode (Some (CRYPTO_SECRETKEYBYTES - u)%nat) F 9 (max_FG_bits !!! 9%nat) in
  fail_if (v =? 0)%nat;;
  let u := (u + v)%nat in
  fail_if (negb (u =? CRYPTO_SECRETKEYBYTES)%nat);;
  Done (0x59 :: fb ++ gb ++ Fb).

Definition encode_public_key (h : list Z) : outcome (list Z) :=
  let '(v, hb) := modq_encode (Some (CRYPTO_PUBLICKEYBYTES - 1)%nat) h 9 in
  fail_if (negb (v =? CRYPTO_PUBLICKEYBYTES - 1)%nat);;
  Done (0x09 :: hb).

(** The decoding at the head of [do_sign]. *)
Definition decode_private_key (sk : list Z) : outcome (list Z * list Z * list Z) :=
  b ← no_fail (sk !! 0%nat);
  fail_if (negb (b =? 0x50 + 9));;
  let u := 1%nat in
  '(v, f) ← trim_i8_decode 9 (max_fg_bits !!! 9%nat) (drop u sk) (CRYPTO_SECRETKEYBYTES - u);
  let u := (u + v)%nat in
  '(v, g) ← trim_i8_decode 9 (max_fg_bits !!! 9%nat) (drop u sk) (CRYPTO_SECRETKEYBYTES - u);
  let u := (u + v)%nat in
  '(v, F) ← trim_i8_decode 9 (max_FG_bits !!! 9%nat) (drop u sk) (CRYPTO_SECRETKEYBYTES - u);
  let u := (u + v)%nat in
  fail_if (negb (u =? CRYPTO_SECRETKEYBYTES)%nat);;
  Done (f, g, F).

(** The decoding at the head of [do_verify]. *)
Definition decode_public_key (pk : list Z) : outcome (list Z) :=
  b ← no_fail (pk !! 0%nat);
  fail_if (negb (b =? 0x00 + 9));;
  '(v, h) ← modq_decode 9 (drop 1 pk) (CRYPTO_PUBLICKEYBYTES - 1);
  fail_if (negb (v =? CRYPTO_PUBLICKEYBYTES - 1)%nat);;
  Done h.

(** [inner_shake256_init; inner_shake256_inject(seed); inner_shake256_flip]. *)
Definition seeded (seed : list Z) : outcome inc_ctx :=
  sc ← no_fail (shake256_inc_absorb shake256_inc_init seed);
  Done (shake256_inc_finalize sc).

Section Falcon.
Context `{PH : PointHash} `{C : Core}.

(** The tail of both key-pair functions: [seed] is what they inject. *)
Definition keypair_from (seed : list Z) : outcome (list Z * list Z) :=
  rng ← seeded seed;
  '(f, g, F, h) ← no_fail (keygen rng);
  sk ← encode_private_key f g F;
  pk ← encode_public_key h;
  Done (pk, sk).

(** [for (;;)] of [do_sign]: the signature value, at most [max] bytes. *)
Fixpoint sign_loop (fuel : nat) (sc : inc_ctx) (f g F G hm : list Z) (max : nat) : outcome (list Z) :=
  match fuel with
  | O => Stuck
  | S fuel =>
      '(sc, sig) ← no_fail (sign_dyn sc f g F G hm);
      let '(v, sigbuf) := comp_encode (Some max) sig 9 in
      if negb (v =? 0)%nat then Done (take v sigbuf) else sign_loop fuel sc f g F G hm max
  end.

(** The nonce and the signature value. *)
Definition do_sign (fuel : nat) (os : entropy) (sigbuflen : nat) (m sk : list Z) : outcome (list Z * list Z) :=
  '(f, g, F) ← decode_private_key sk;
  match complete_private f g F 9 with
  | None => Fail
  | Some G =>
      let '(nonce, os) := randombytes NONCELEN os in
      hm ← point_hash nonce m;
      let '(seed, os) := randombytes 48 os in
      sc ← seeded seed;
      value ← sign_loop fuel sc f g F G hm sigbuflen;
      Done (nonce, value)
  end.

Definition do_verify (nonce sigbuf m pk : list Z) : outcome unit :=
  h ← decode_public_key pk;
  let h := to_ntt_monty h 9 in
  fail_if (length sigbuf =? 0)%nat;;
  '(v, sig) ← comp_decode 9 sigbuf (length sigbuf);
  fail_if (negb (v =? length sigbuf)%nat);;
  hm ← point_hash nonce m;
  fail_if (verify_raw hm sig h 9 =? 0).

Definition crypto_sign_signature (fuel : nat) (os : entropy) (m sk : list Z) : outcome (list Z) :=
  '(nonce, value) ← do_sign fuel os (CRYPTO_BYTES - NONCELEN - 3) m sk;
  Done (0x39 :: nonce ++ value).

Definition crypto_sign_verify (sig m pk : list Z) : outcome unit :=
  fail_if (length sig <? 1 + NONCELEN)%nat;;
  b ← no_fail (sig !! 0%nat);
  fail_if (negb (b =? 0x30 + 9));;
  do_verify (take NONCELEN (drop 1 sig)) (drop (1 + NONCELEN) sig) m pk.
End Falcon.

(** * Keys: decoding is the inverse of encoding *)

Abbreviation bytes := (Forall (in_width 8)).

Lemma out_len_public : out_len (2 ^ 9) 14 = 896%nat.
Proof. reflexivity. Qed.

Lemma out_len_fg : out_len (2 ^ 9) (max_fg_bits !!! 9%nat) = 384%nat.
Proof. reflexivity. Qed.

Lemma out_len_FG : out_len (2 ^ 9) (max_FG_bits !!! 9%nat) = 512%nat.
Proof. reflexivity. Qed.

(** A public key of the right size is rejected or is the encoding of the one polynomial it decodes to. *)
Lemma decode_public_key_spec pk :
  bytes pk -> length pk = CRYPTO_PUBLICKEYBYTES ->
  decode_public_key pk <> Stuck /\
  forall h, decode_public_key pk = Done h <-> poly_ok (2 ^ 9) h /\ encode_public_key h = Done pk.
Proof.
  intros Hb Hl. destruct pk as [|b rest]; [done|]. apply Forall_cons_iff in Hb as [_ Hb].
  assert (length rest = 896%nat) as Hr by (unfold CRYPTO_PUBLICKEYBYTES in Hl; simpl in Hl; lia).
  assert (forall h, encode_public_key h = Done (b :: rest) <->
    b = 9 /\ modq_encode (Some 896%nat) h 9 = (896%nat, rest)) as Henc.
  { intros h. unfold encode_public_key. change (CRYPTO_PUBLICKEYBYTES - 1)%nat with 896%nat.
    destruct (modq_encode _ h 9) as [v hb]. destruct (Nat.eqb_spec v 896) as [->|Hv]; cbn [negb fail_if mbind outcome_bind].
    - split; [intros [= <- ->]; done | intros [-> [= ->]]; done].
    - split; [done|]. intros [_ [= -> _]]. done. }
  unfold decode_public_key. change (drop 1 (b :: rest)) with (drop 0 rest). rewrite drop_0.
  change ((b :: rest) !! 0%nat) with (Some b). cbn [no_fail mbind outcome_bind].
  change (CRYPTO_PUBLICKEYBYTES - 1)%nat with 896%nat. change (0 + 9) with 9.
  destruct (Z.eqb_spec b 9) as [->|Hne]; cbn [negb fail_if mbind outcome_bind].
  2: { split; [done|]. intros h. split; [done|]. intros [_ H%Henc]. now destruct H. }
  pose proof (fun h => modq_decode_iff rest 9 896 h Hb ltac:(rewrite out_len_public; lia)) as Hiff.
  rewrite !out_len_public in Hiff. rewrite (take_ge rest) in Hiff by lia.
  assert (forall h, poly_ok (2 ^ 9) h /\ encode_public_key h = Done (9 :: rest) <-> modq_decode 9 rest 896 = Done (896%nat, h)) as Hd.
  { intros h. rewrite (Henc h), (Hiff h). unfold poly_ok. tauto. }
  destruct (modq_decode_total rest 9 896 Hb ltac:(lia)) as [E|[x E]]; rewrite ?out_len_public in E; rewrite E; cbn [mbind outcome_bind].
  - split; [done|]. intros h. rewrite Hd, E. done.
  - rewrite Nat.eqb_refl. cbn [negb fail_if mbind outcome_bind]. split; [done|]. intros h. rewrite Hd, E.
    split; [intros [= ->] | intros [= ->]]; done.
Qed.

(** One field of the private key, [L] bytes at [u]: the decoder stays in bounds, accepts an encoding,
    and only that. *)
Definition field_ok (sk : list Z) (u bits max L : nat) (x : list Z) : Prop :=
  trim_i8_decode 9 bits (drop u sk) max <> Stuck /\
  (forall v, trim_i8_decode 9 bits (drop u sk) max = Done (v, x) ->
     v = L /\ length x = (2 ^ 9)%nat /\ trim_i8_encode (Some max) x 9 bits = (L, take L (drop u sk))) /\
  (forall b, length x = (2 ^ 9)%nat -> trim_i8_encode (Some max) x 9 bits = (L, b) -> b = take L (drop u sk) -> L <> 0%nat ->
     trim_i8_decode 9 bits (drop u sk) max = Done (L, x)).

Lemma private_field sk u bits max L x :
  (1 <= bits <= 8)%nat -> bytes sk -> (u + max = length sk)%nat -> out_len (2 ^ 9) bits = L -> (L <= max)%nat ->
  field_ok sk u bits max L x.
Proof.
  intros Hb Hsk Hu HL HLm. assert (bytes (drop u sk)) as Hd by now apply Forall_drop.
  assert (length (drop u sk) = max) as Hld by (rewrite length_drop; lia).
  pose proof (trim_i8_decode_iff (drop u sk) 9 bits max x Hb Hd ltac:(rewrite HL; lia)) as Hiff. rewrite HL in Hiff.
  split; [|split].
  - destruct (trim_i8_decode_total (drop u sk) 9 bits max Hb Hd ltac:(lia)) as [->|[? ->]]; done.
  - intros v H. assert (v = L) as ->.
    { destruct (trim_i8_decode_total (drop u sk) 9 bits max Hb Hd ltac:(lia)) as [E|[y E]]; rewrite E in H; [done|].
      injection H as <- _. exact HL. }
    apply Hiff in H as (Hl & Hv & He). split; [done|]. split; [done|].
    destruct (trim_i8_encode_cases x 9 bits max Hb Hl ltac:(rewrite HL; lia)) as [-> _]. rewrite HL. exact He.
  - intros b Hl He -> HL0. apply Hiff. split; [done|].
    destruct (trim_i8_encode_cases x 9 bits max Hb Hl ltac:(rewrite HL; lia)) as [Hsame [[_ E]|[Hv _]]].
    + rewrite E in He. injection He as He _. congruence.
    + split; [done|]. rewrite <- HL, <- Hsame, HL. exact He.
Qed.

(** Encoding a private key succeeds exactly on coefficients in range. *)
Definition private_ok (f g F : list Z) : Prop :=
  length f = (2 ^ 9)%nat /\ length g = (2 ^ 9)%nat /\ length F = (2 ^ 9)%nat /\
  Forall (trim_valid 6) f /\ Forall (trim_valid 6) g /\ Forall (trim_valid 8) F.

Lemma fail_if_bind {A} b (o : outcome A) : (fail_if b ;; o) = if b then Fail else o.
Proof. now destruct b. Qed.

Lemma encode_private_key_spec f g F :
  length f = (2 ^ 9)%nat -> length g = (2 ^ 9)%nat -> length F = (2 ^ 9)%nat ->
  (encode_private_key f g F = Fail /\ ~ private_ok f g F) \/
  (private_ok f g F /\ exists fb gb Fb, encode_private_key f g F = Done (0x59 :: fb ++ gb ++ Fb) /\
     trim_i8_encode (Some 1280%nat) f 9 6 = (384%nat, fb) /\ length fb = 384%nat /\ bytes fb /\
     trim_i8_encode (Some 896%nat) g 9 6 = (384%nat, gb) /\ length gb = 384%nat /\ bytes gb /\
     trim_i8_encode (Some 512%nat) F 9 8 = (512%nat, Fb) /\ length Fb = 512%nat /\ bytes Fb).
Proof.
  intros Hf Hg HF. unfold encode_private_key, private_ok.
  change (max_fg_bits !!! 9%nat) with 6%nat. change (max_FG_bits !!! 9%nat) with 8%nat.
  change (CRYPTO_SECRETKEYBYTES - 1)%nat with 1280%nat.
  destruct (trim_i8_encode_cases f 9 6 1280 ltac:(lia) Hf ltac:(vm_compute; lia)) as [_ [[Hn ->]|(Hv1 & fb & -> & Hl1 & Hb1)]];
    [left; split; [done | tauto]|].
  change (out_len (2 ^ 9) 6) with 384%nat in *. rewrite fail_if_bind. cbn [Nat.eqb].
  change (CRYPTO_SECRETKEYBYTES - (1 + 384))%nat with 896%nat.
  destruct (trim_i8_encode_cases g 9 6 896 ltac:(lia) Hg ltac:(vm_compute; lia)) as [_ [[Hn ->]|(Hv2 & gb & -> & Hl2 & Hb2)]];
    [left; split; [done | tauto]|].
  change (out_len (2 ^ 9) 6) with 384%nat in *. rewrite fail_if_bind. cbn [Nat.eqb].
  change (CRYPTO_SECRETKEYBYTES - (1 + 384 + 384))%nat with 512%nat.
  destruct (trim_i8_encode_cases F 9 8 512 ltac:(lia) HF ltac:(vm_compute; lia)) as [_ [[Hn ->]|(Hv3 & Fb & -> & Hl3 & Hb3)]];
    [left; split; [done | tauto]|].
  change (out_len (2 ^ 9) 8) with 512%nat in *. rewrite fail_if_bind. cbn [Nat.eqb].
  right. split; [tauto|]. exists fb, gb, Fb. done.
Qed.

#[local] Opaque trim_i8_encode trim_i8_decode.

Section PrivateKey.
Context (sk : list Z) (Hb : bytes sk) (Hl : length sk = 1281%nat).

Lemma private_split : drop 1 sk = take 384 (drop 1 sk) ++ take 384 (drop 385 sk) ++ take 512 (drop 769 sk).
Proof using Hl.
  rewrite (take_ge (drop 769 sk)) by (rewrite length_drop; lia).
  replace (drop 769 sk) with (drop 384 (drop 385 sk)) by (now rewrite drop_drop). rewrite take_drop.
  replace (drop 385 sk) with (drop 384 (drop 1 sk)) by (now rewrite drop_drop). now rewrite take_drop.
Qed.

Lemma field_f x : field_ok sk 1 6 1280 384 x.
Proof using Hb Hl. apply private_field; reflexivity || lia || done. Qed.
Lemma field_g x : field_ok sk 385 6 896 384 x.
Proof using Hb Hl. apply private_field; reflexivity || lia || done. Qed.
Lemma field_F x : field_ok sk 769 8 512 512 x.
Proof using Hb Hl. apply private_field; reflexivity || lia || done. Qed.

(** The code after the header test, with the offsets computed. *)
Lemma decode_private_key_offsets :
  decode_private_key sk =
    b ← no_fail (sk !! 0%nat);
    if negb (b =? 0x59) then Fail else
    '(_, f) ← trim_i8_decode 9 6 (drop 1 sk) 1280;
    '(_, g) ← trim_i8_decode 9 6 (drop 385 sk) 896;
    '(_, F) ← trim_i8_decode 9 8 (drop 769 sk) 512;
    Done (f, g, F).
Proof using Hb Hl.
  unfold decode_private_key. destruct (sk !! 0%nat) as [b|]; [|done]. cbn [no_fail mbind outcome_bind].
  rewrite fail_if_bind. change (0x50 + 9) with 0x59. destruct (negb (b =? 0x59)); [done|].
  change (max_fg_bits !!! 9%nat) with 6%nat. change (max_FG_bits !!! 9%nat) with 8%nat.
  change (CRYPTO_SECRETKEYBYTES - 1)%nat with 1280%nat.
  destruct (trim_i8_decode 9 6 (drop 1 sk) 1280) as [[v1 f]| |] eqn:D1; [|done|done].
  destruct (proj1 (proj2 (field_f f)) v1 D1) as [-> _]. cbn [mbind outcome_bind].
  change (CRYPTO_SECRETKEYBYTES - (1 + 384))%nat with 896%nat. change (1 + 384)%nat with 385%nat.
  destruct (trim_i8_decode 9 6 (drop 385 sk) 896) as [[v2 g]| |] eqn:D2; [|done|done].
  destruct (proj1 (proj2 (field_g g)) v2 D2) as [-> _]. cbn [mbind outcome_bind].
  change (CRYPTO_SECRETKEYBYTES - (385 + 384))%nat with 512%nat. change (385 + 384)%nat with 769%nat.
  destruct (trim_i8_decode 9 8 (drop 769 sk) 512) as [[v3 F]| |] eqn:D3; [|done|done].
  destruct (proj1 (proj2 (field_F F)) v3 D3) as [-> _]. done.
Qed.

Lemma decode_private_key_defined : decode_private_key sk <> Stuck.
Proof using Hb Hl.
  rewrite decode_private_key_offsets. destruct (sk !! 0%nat) as [b|] eqn:E0; [|apply lookup_ge_None in E0; lia].
  cbn [no_fail mbind outcome_bind]. destruct (negb _); [done|].
  pose proof (proj1 (field_f [])). pose proof (proj1 (field_g [])). pose proof (proj1 (field_F [])).
  destruct (trim_i8_decode 9 6 (drop 1 sk) 1280) as [[? ?]| |]; [|done..]. cbn [mbind outcome_bind].
  destruct (trim_i8_decode 9 6 (drop 385 sk) 896) as [[? ?]| |]; [|done..]. cbn [mbind outcome_bind].
  now destruct (trim_i8_decode 9 8 (drop 769 sk) 512) as [[? ?]| |].
Qed.

Lemma decode_private_key_encoded f g F :
  private_ok f g F -> encode_private_key f g F = Done sk -> decode_private_key sk = Done (f, g, F).
Proof using Hb Hl.
  intros (Hf & Hg & HF & _) He.
  destruct (encode_private_key_spec f g F Hf Hg HF) as [[E _]|(_ & fb & gb & Fb & E & E1 & L1 & _ & E2 & L2 & _ & E3 & L3 & _)];
    [congruence|].
  rewrite E in He. injection He as He. clear E.
  assert (drop 1 sk = fb ++ gb ++ Fb) as Hd by now rewrite <- He. rewrite private_split in Hd.
  apply app_inj_1 in Hd as [Hd1 Hd]; [|rewrite length_take, length_drop; lia].
  apply app_inj_1 in Hd as [Hd2 Hd3]; [|rewrite length_take, length_drop; lia].
  rewrite decode_private_key_offsets. rewrite <- He at 1. cbn [lookup list_lookup no_fail mbind outcome_bind negb Z.eqb Pos.eqb].
  rewrite (proj2 (proj2 (field_f f)) fb Hf E1 (eq_sym Hd1)) by done. cbn [mbind outcome_bind].
  rewrite (proj2 (proj2 (field_g g)) gb Hg E2 (eq_sym Hd2)) by done. cbn [mbind outcome_bind].
  now rewrite (proj2 (proj2 (field_F F)) Fb HF E3 (eq_sym Hd3)) by done.
Qed.

Lemma decode_private_key_sound f g F :
  decode_private_key sk = Done (f, g, F) -> private_ok f g F /\ encode_private_key f g F = Done sk.
Proof using Hb Hl.
  rewrite decode_private_key_offsets. intros H. apply bind_Done in H as (b & E0%no_fail_Done & H).
  destruct (Z.eqb_spec b 0x59) as [->|]; [|done]. cbn [negb] in H.
  apply bind_Done in H as ([v1 f'] & D1 & H). destruct (proj1 (proj2 (field_f f')) v1 D1) as (-> & L1 & E1).
  apply bind_Done in H as ([v2 g'] & D2 & H). destruct (proj1 (proj2 (field_g g')) v2 D2) as (-> & L2 & E2).
  apply bind_Done in H as ([v3 F'] & D3 & H). destruct (proj1 (proj2 (field_F F')) v3 D3) as (-> & L3 & E3).
  injection H as -> -> ->.
  destruct (encode_private_key_spec f g F L1 L2 L3) as [[_ Hn]|(Hok & fb & gb & Fb & E & E1' & _ & _ & E2' & _ & _ & E3' & _)].
  - exfalso. apply Hn. split; [done|]. split; [done|]. split; [done|].
    destruct (trim_i8_encode_cases f 9 6 1280 ltac:(lia) L1 ltac:(vm_compute; lia)) as [_ [[_ E]|[V1 _]]]; [congruence|].
    destruct (trim_i8_encode_cases g 9 6 896 ltac:(lia) L2 ltac:(vm_compute; lia)) as [_ [[_ E]|[V2 _]]]; [congruence|].
    destruct (trim_i8_encode_cases F 9 8 512 ltac:(lia) L3 ltac:(vm_compute; lia)) as [_ [[_ E]|[V3 _]]]; [congruence | done].
  - split; [done|]. rewrite E. rewrite E1 in E1'. rewrite E2 in E2'. rewrite E3 in E3'.
    injection E1' as <-. injection E2' as <-. injection E3' as <-. rewrite <- private_split.
    destruct sk as [|b sk']; [done|]. injection E0 as ->. cbn [drop]. now rewrite drop_0.
Qed.
End PrivateKey.

(** A private key of the right size is rejected or is the encoding of the one key it decodes to. *)
Lemma decode_private_key_spec sk :
  bytes sk -> length sk = CRYPTO_SECRETKEYBYTES ->
  decode_private_key sk <> Stuck /\
  forall f g F, decode_private_key sk = Done (f, g, F) <-> private_ok f g F /\ encode_private_key f g F = Done sk.
Proof.
  intros Hb Hl. split; [now apply decode_private_key_defined|]. intros f g F. split.
  - now apply decode_private_key_sound.
  - intros [Hok He]. now apply decode_private_key_encoded.
Qed.

(** * Verification *)

(** The Falcon equation for degree 512. *)
Definition falcon_accepts (hm h s2 : list Z) : Prop :=
  norm2 (centered <$> psub hm (ring_mul (2 ^ 9) s2 h)) + norm2 s2 <= l2bound !!! 9%nat.

(** [sb] is the whole encoding of the vector [s2]. *)
Definition signature_value (s2 sb : list Z) : Prop :=
  length s2 = (2 ^ 9)%nat /\ Forall comp_valid s2 /\ comp_encode (Some (comp_len s2)) s2 9 = (comp_len s2, sb).

(** A coefficient takes at least nine bits. *)
Lemma comp_len_lower s2 : (9 * length s2 <= 8 * comp_len s2)%nat.
Proof.
  unfold comp_len. assert (9 * length s2 <= length (comp_bits s2))%nat.
  { unfold comp_bits. induction s2 as [|x s2 IH]; [done|]. cbn [mbind list_bind length]. rewrite length_app.
    unfold code_bits at 1. cbn [length]. rewrite !length_app, bits_of_length, length_replicate. cbn [length]. lia. }
  pose proof (Nat.div_mod_eq (length (comp_bits s2) + 7) 8). pose proof (Nat.mod_upper_bound (length (comp_bits s2) + 7) 8). lia.
Qed.

Lemma signature_value_spec s2 sb :
  bytes sb -> signature_value s2 sb <-> comp_decode 9 sb (length sb) = Done (length sb, s2).
Proof.
  intros Hsb. rewrite comp_decode_iff by done. unfold signature_value. split.
  - intros (Hl & Hv & He). split; [done|]. split; [done|].
    assert (length sb = comp_len s2) as ->; [|done].
    destruct (comp_encode_cases s2 9 (comp_len s2) Hl) as [(_ & _ & b & E & Hb & _)|[Hn _]]; [|now destruct Hn].
    rewrite E in He. now injection He as ->.
  - intros (Hl & Hv & He & Hlen). rewrite Hlen in He. done.
Qed.

Lemma comp_valid_small s2 : Forall comp_valid s2 -> small s2.
Proof. intros H. eapply Forall_impl; [|exact H]. unfold comp_valid, Q. simpl. lia. Qed.

#[local] Opaque comp_encode comp_decode modq_encode modq_decode verify_raw to_ntt_monty complete_private.

Section Properties.
Context `{PH : PointHash} `{C : Core}.

Lemma do_verify_spec nonce sb m pk :
  bytes nonce -> length nonce = NONCELEN -> bytes sb -> bytes m -> bytes pk -> length pk = CRYPTO_PUBLICKEYBYTES ->
  hashable nonce m ->
  do_verify nonce sb m pk <> Stuck /\
  (do_verify nonce sb m pk = Done tt <-> exists h s2 hm,
     poly_ok (2 ^ 9) h /\ encode_public_key h = Done pk /\ signature_value s2 sb /\
     point_hash nonce m = Done hm /\ falcon_accepts hm h s2).
Proof.
  intros Hn Hnl Hsb Hm Hpk Hpkl Hh. unfold do_verify.
  destruct (decode_public_key_spec pk Hpk Hpkl) as [Hdef Hkey].
  destruct (decode_public_key pk) as [h| |]; [| |done]; cbn [mbind outcome_bind].
  2: { split; [done|]. split; [done|]. intros (h & s2 & hm & Hok & He & _). assert (@Fail (list Z) = Done h) as [=] by now apply Hkey. }
  assert (forall h', poly_ok (2 ^ 9) h' /\ encode_public_key h' = Done pk <-> h' = h) as Huniq.
  { intros h'. rewrite <- Hkey. split; congruence. } clear Hkey.
  rewrite fail_if_bind. destruct (Nat.eqb_spec (length sb) 0) as [H0|H0].
  { split; [done|]. split; [done|]. intros (h' & s2 & hm & _ & _ & Hs & _).
    apply signature_value_spec in Hs as Hd; [|done]. apply comp_decode_iff in Hd as (Hl & _ & _ & Hlen); [|done].
    pose proof (comp_len_lower s2). rewrite Hl in H. change (2 ^ 9)%nat with 512%nat in H. lia. }
  assert (forall s2, signature_value s2 sb <-> comp_decode 9 sb (length sb) = Done (length sb, s2)) as Hsig
    by (intros s2; now apply signature_value_spec).
  pose proof (proj1 (comp_decode_sound sb 9 (length sb) Hsb ltac:(lia))) as Hns.
  destruct (comp_decode 9 sb (length sb)) as [[v s2]| |] eqn:Ed; [| |done]; cbn [mbind outcome_bind].
  2: { split; [done|]. split; [done|]. intros (h' & s2 & hm & _ & _ & Hs%Hsig & _). done. }
  rewrite fail_if_bind. destruct (Nat.eqb_spec v (length sb)) as [->|Hv]; cbn [negb].
  2: { split; [done|]. split; [done|]. intros (h' & s2' & hm & _ & _ & Hs%Hsig & _). congruence. }
  destruct (point_hash_ok nonce m Hnl Hn Hm Hh) as (hm & Ehm & Hhm). rewrite Ehm. cbn [mbind outcome_bind].
  destruct (proj2 (Huniq h) eq_refl) as [Hok He].
  assert (signature_value s2 sb) as Hs2 by (apply Hsig; done). destruct Hs2 as (Hl2 & Hv2 & _).
  rewrite (verify_raw_spec 9 ltac:(lia) hm s2 h Hhm Hl2 (comp_valid_small s2 Hv2) Hok).
  split; [now destruct (_ =? 0)|]. rewrite fail_if_Done.
  assert (falcon_accepts hm h s2 <-> (norm2 (centered <$> psub hm (ring_mul (2 ^ 9) s2 h)) + norm2 s2 <=? l2bound !!! 9%nat) = true)
    as Hacc by (symmetry; apply Z.leb_le).
  split.
  - intros Hb. exists h, s2, hm. split; [done|]. split; [done|]. split; [now apply Hsig|]. split; [done|].
    apply Hacc. now destruct (_ <=? _).
  - intros (h' & s2' & hm' & H1 & H2 & H3%Hsig & H4 & H5).
    assert (h' = h) as -> by (apply Huniq; done). injection H3 as <-.
    injection H4 as <-. apply Hacc in H5. now rewrite H5.
Qed.

Lemma crypto_sign_verify_spec sig m pk :
  bytes sig -> bytes m -> bytes pk -> length pk = CRYPTO_PUBLICKEYBYTES ->
  ((1 + NONCELEN <= length sig)%nat -> hashable (take NONCELEN (drop 1 sig)) m) ->
  crypto_sign_verify sig m pk <> Stuck /\
  (crypto_sign_verify sig m pk = Done tt <-> exists nonce sb h s2 hm,
     sig = 0x39 :: nonce ++ sb /\ length nonce = NONCELEN /\
     poly_ok (2 ^ 9) h /\ encode_public_key h = Done pk /\ signature_value s2 sb /\
     point_hash nonce m = Done hm /\ falcon_accepts hm h s2).
Proof.
  intros Hsig Hm Hpk Hpkl Hh. unfold crypto_sign_verify. rewrite fail_if_bind.
  destruct (Nat.ltb_spec (length sig) (1 + NONCELEN)) as [Hlt|Hge].
  { split; [done|]. split; [done|]. intros (nonce & sb & h & s2 & hm & -> & Hnl & _). cbn [length] in Hlt.
    rewrite length_app in Hlt. lia. }
  specialize (Hh Hge). destruct sig as [|b rest]; [cbn in Hge; lia|]. apply Forall_cons_iff in Hsig as [_ Hrest].
  cbn [lookup list_lookup no_fail mbind outcome_bind]. rewrite fail_if_bind. change (0x30 + 9) with 0x39.
  destruct (Z.eqb_spec b 0x39) as [->|Hb]; cbn [negb].
  2: { split; [done|]. split; [done|]. intros (nonce & sb & h & s2 & hm & [= -> _] & _). done. }
  change (drop 1 (57 :: rest)) with (drop 0 rest) in *. change (drop (1 + NONCELEN) (57 :: rest)) with (drop NONCELEN rest).
  rewrite drop_0 in *. cbn [length] in Hge.
  assert (length (take NONCELEN rest) = NONCELEN) as Hnl by (rewrite length_take; lia).
  destruct (do_verify_spec (take NONCELEN rest) (drop NONCELEN rest) m pk) as [Hs Hd];
    [now apply Forall_take | done | now apply Forall_drop | done | done | done | done |].
  split; [done|]. rewrite Hd. split.
  - intros (h & s2 & hm & H). exists (take NONCELEN rest), (drop NONCELEN rest), h, s2, hm. now rewrite take_drop.
  - intros (nonce & sb & h & s2 & hm & [= E] & Hl & H). rewrite E.
    rewrite take_app_length', drop_app_length' by done. now exists h, s2, hm.
Qed.

(** * Signing *)

(** The [k]-th vector the sampler draws. *)
Fixpoint nth_signature (k : nat) (sc : inc_ctx) (f g F G hm : list Z) : option (list Z) :=
  '(sc, sig) ← sign_dyn sc f g F G hm;
  match k with
  | O => Some sig
  | S k => nth_signature k sc f g F G hm
  end.

(** The vectors [comp_encode] can write in [max] bytes. *)
Definition fits (max : nat) (sig : list Z) : Prop := Forall comp_valid sig /\ (comp_len sig <= max)%nat.

(** [sig] is the first vector that fits, and its index is [k]. *)
Definition first_fit (max k : nat) (sc : inc_ctx) (f g F G hm sig : list Z) : Prop :=
  nth_signature k sc f g F G hm = Some sig /\ fits max sig /\
  forall j, (j < k)%nat -> exists s, nth_signature j sc f g F G hm = Some s /\ ~ fits max s.

(** What [comp_encode] reports of a sampled vector. *)
Lemma encode_sampled max sig :
  length sig = (2 ^ 9)%nat ->
  (fits max sig /\ exists v sb, comp_encode (Some max) sig 9 = (v, sb) /\ v <> 0%nat /\ take v sb = sb /\
     bytes sb /\ length sb = v /\ (v <= max)%nat /\ signature_value sig sb) \/
  (~ fits max sig /\ exists sb, comp_encode (Some max) sig 9 = (0%nat, sb)).
Proof.
  intros Hl. destruct (comp_encode_cases sig 9 max Hl) as [(Hv & Hm & b & E & Hb & Hby & Hd)|H]; [left | now right].
  split; [done|]. exists (comp_len sig), b. split; [done|].
  pose proof (comp_len_lower sig) as Hlow. rewrite Hl in Hlow. change (2 ^ 9)%nat with 512%nat in Hlow.
  split; [lia|]. split; [apply take_ge; lia|]. split; [done|]. split; [done|]. split; [done|].
  now apply signature_value_spec.
Qed.

Lemma sign_loop_spec fuel : forall sc f g F G hm max,
  match sign_loop fuel sc f g F G hm max with
  | Done value => exists k sig, (k < fuel)%nat /\ first_fit max k sc f g F G hm sig /\
      signature_value sig value /\ bytes value /\ (length value <= max)%nat
  | Fail => False
  | Stuck => forall k sig, (k < fuel)%nat -> ~ first_fit max k sc f g F G hm sig
  end.
Proof.
  induction fuel as [|fuel IH]; intros sc f g F G hm max; cbn [sign_loop]; [intros k sig Hk; lia|].
  destruct (sign_dyn sc f g F G hm) as [[sc' sig]|] eqn:E; cbn [no_fail mbind outcome_bind].
  2: { intros k sig _ (H & _). destruct k; cbn in H; rewrite E in H; done. }
  pose proof (sign_dyn_shape _ _ _ _ _ _ _ _ E) as Hl.
  destruct (encode_sampled max sig Hl) as [(Hfit & v & sb & -> & Hv & Ht & Hb & Hsl & Hm & Hs)|(Hfit & sb & ->)].
  - destruct (Nat.eqb_spec v 0) as [|_]; [done|]. cbn [negb]. rewrite Ht. exists 0%nat, sig. split; [lia|].
    split; [|split; [done|]; split; [done|]; lia]. split; [cbn; now rewrite E|]. split; [done|]. intros j Hj; lia.
  - cbn [Nat.eqb negb]. specialize (IH sc' f g F G hm max).
    assert (forall k s, first_fit max (S k) sc f g F G hm s <-> first_fit max k sc' f g F G hm s) as Hshift.
    { intros k s. unfold first_fit. cbn [nth_signature]. rewrite E. cbn [mbind option_bind]. split; intros (H1 & H2 & H3); (split; [done|]; split; [done|]).
      - intros j Hj. specialize (H3 (S j) ltac:(lia)). cbn [nth_signature] in H3. now rewrite E in H3.
      - intros [|j] Hj; cbn [nth_signature]; rewrite E; cbn [mbind option_bind]; [now exists sig | apply H3; lia]. }
    destruct (sign_loop fuel sc' f g F G hm max) as [value| |]; [|done|].
    + destruct IH as (k & s & Hk & Hff & H). exists (S k), s. split; [lia|]. split; [now apply Hshift | done].
    + intros [|k] s Hk H; [|apply Hshift in H; apply (IH k s); [lia | done]].
      destruct H as (H & Hf & _). cbn [nth_signature] in H. rewrite E in H. now injection H as ->.
Qed.

Lemma seeded_total seed : exists sc, seeded seed = Done sc.
Proof.
  unfold seeded, shake256_inc_absorb. rewrite keccak_inc_absorb_spec by (unfold SHAKE256_RATE; cbn; lia).
  eexists. reflexivity.
Qed.

Lemma first_fit_unique max k k' sc f g F G hm s s' :
  first_fit max k sc f g F G hm s -> first_fit max k' sc f g F G hm s' -> k = k' /\ s = s'.
Proof.
  intros (H1 & H2 & H3) (H1' & H2' & H3'). assert (k = k') as ->.
  { destruct (Nat.lt_trichotomy k k') as [Hlt|[->|Hlt]]; [|done|].
    - destruct (H3' k Hlt) as (t & Ht & Hn). rewrite H1 in Ht. injection Ht as <-. done.
    - destruct (H3 k' Hlt) as (t & Ht & Hn). rewrite H1' in Ht. injection Ht as <-. done. }
  split; [done|]. rewrite H1 in H1'. now injection H1'.
Qed.

#[local] Opaque seeded.

(** A private key [sk] that decodes and completes. *)
Definition signing_key (sk f g F G : list Z) : Prop :=
  private_ok f g F /\ encode_private_key f g F = Done sk /\ complete_private f g F 9 = Some G.

(** The inputs of the sampler: the hashed message and the context seeded after the nonce was drawn. *)
Definition sampler_inputs (os : entropy) (m nonce hm : list Z) (sc : inc_ctx) : Prop :=
  nonce = (randombytes NONCELEN os).1 /\ point_hash nonce m = Done hm /\
  seeded (randombytes 48 (randombytes NONCELEN os).2).1 = Done sc.

Lemma randombytes_bytes n os : (forall i, in_width 8 (os i)) -> bytes (randombytes n os).1.
Proof. intros Hos. apply Forall_fmap, Forall_true. intros i. apply Hos. Qed.

Lemma randombytes_length n os : length (randombytes n os).1 = n.
Proof. cbn. now rewrite length_fmap, length_seq. Qed.

Lemma do_sign_spec fuel os max m sk :
  (forall i, in_width 8 (os i)) -> bytes m -> bytes sk -> length sk = CRYPTO_SECRETKEYBYTES ->
  hashable (randombytes NONCELEN os).1 m ->
  (do_sign fuel os max m sk = Fail <-> ~ exists f g F G, signing_key sk f g F G) /\
  (forall f g F G, signing_key sk f g F G -> exists nonce hm sc, sampler_inputs os m nonce hm sc /\ poly_ok (2 ^ 9) hm /\
     do_sign fuel os max m sk =
       (value ← sign_loop fuel sc f g F G hm max; Done (nonce, value))).
Proof.
  intros Hos Hm Hsk Hskl Hh. destruct (decode_private_key_spec sk Hsk Hskl) as [Hdef Hkey].
  destruct (point_hash_ok _ m (randombytes_length NONCELEN os) (randombytes_bytes _ _ Hos) Hm Hh) as (hm & Ehm & Hhm).
  destruct (seeded_total (randombytes 48 (randombytes NONCELEN os).2).1) as [sc Esc].
  assert (forall f g F G, signing_key sk f g F G -> do_sign fuel os max m sk =
    (value ← sign_loop fuel sc f g F G hm max; Done ((randombytes NONCELEN os).1, value))) as Hrun.
  { intros f g F G (Hok & He & HG). unfold do_sign. rewrite (proj2 (Hkey f g F) (conj Hok He)). cbn [mbind outcome_bind].
    rewrite HG. destruct (randombytes NONCELEN os) as [nonce os']. cbn [fst snd] in *. rewrite Ehm. cbn [mbind outcome_bind].
    destruct (randombytes 48 os') as [seed os'']. cbn [fst snd] in *. now rewrite Esc. }
  split.
  - split.
    + intros H (f & g & F & G & Hk). rewrite (Hrun f g F G Hk) in H.
      pose proof (sign_loop_spec fuel sc f g F G hm max) as Hl. now destruct (sign_loop fuel sc f g F G hm max).
    + intros Hno. unfold do_sign. destruct (decode_private_key sk) as [[[f g] F]| |] eqn:E; [|done|done]. cbn [mbind outcome_bind].
      destruct (complete_private f g F 9) as [G|] eqn:EG; [|reflexivity]. destruct Hno. exists f, g, F, G.
      destruct (proj1 (Hkey f g F) eq_refl) as [H1 H2]. exact (conj H1 (conj H2 EG)).
  - intros f g F G Hk. exists (randombytes NONCELEN os).1, hm, sc.
    split; [exact (conj eq_refl (conj Ehm Esc))|]. split; [exact Hhm | exact (Hrun f g F G Hk)].
Qed.
End Properties.

(** * Key pairs *)

(** Encoding a public key succeeds exactly on polynomials modulo 12289. *)
Lemma encode_public_key_spec h :
  length h = (2 ^ 9)%nat -> Forall (in_width 16) h ->
  (encode_public_key h = Fail /\ ~ poly_ok (2 ^ 9) h) \/
  (poly_ok (2 ^ 9) h /\ exists pk, encode_public_key h = Done pk /\ length pk = CRYPTO_PUBLICKEYBYTES /\ bytes pk).
Proof.
  intros Hl Hw. unfold encode_public_key.
  assert (Forall (fun v => 0 <= v) h) as Hn by (eapply Forall_impl; [|exact Hw]; unfold in_width; simpl; lia).
  pose proof (modq_range_spec h (2 ^ 9) Hl Hn) as Hr.
  destruct (existsb (fun u => 12289 <=? h !!! u) (seq 0 (2 ^ 9))) eqn:E.
  - left. assert (modq_encode (Some (CRYPTO_PUBLICKEYBYTES - 1)%nat) h 9 = (0%nat, [])) as -> by (with_strategy transparent [modq_encode] unfold modq_encode; now rewrite E).
    split; [done|]. intros [_ H]. destruct Hr as [_ Hr]. specialize (Hr H). done.
  - right. assert (Forall (fun v => 0 <= v < 12289) h) as Hv by now apply Hr. split; [now split|].
    destruct (modq_decode_encoded h [] 9 896 896 Hl Hv ltac:(constructor) ltac:(rewrite out_len_public; lia) ltac:(rewrite out_len_public; lia))
      as (b & He & Hbl & Hbb & _). rewrite out_len_public in *.
    change (CRYPTO_PUBLICKEYBYTES - 1)%nat with 896%nat. rewrite He. eexists. split; [reflexivity|].
    cbn [length]. rewrite Hbl. split; [reflexivity|]. constructor; [unfold in_width; lia | done].
Qed.

Lemma encode_private_key_bytes f g F sk :
  private_ok f g F -> encode_private_key f g F = Done sk -> length sk = CRYPTO_SECRETKEYBYTES /\ bytes sk.
Proof.
  intros (Hf & Hg & HF & _) He.
  destruct (encode_private_key_spec f g F Hf Hg HF) as [[E _]|(_ & fb & gb & Fb & E & _ & L1 & B1 & _ & L2 & B2 & _ & L3 & B3)];
    rewrite E in He; [done|]. injection He as <-. split.
  - cbn [length]. rewrite !length_app, L1, L2, L3. reflexivity.
  - constructor; [unfold in_width; lia|]. rewrite !Forall_app. done.
Qed.

Section KeyPair.
Context `{C : Core}.

Lemma keypair_from_spec seed rng f g F h :
  seeded seed = Done rng -> keygen rng = Some (f, g, F, h) ->
  (keypair_from seed = Fail /\ ~ (private_ok f g F /\ poly_ok (2 ^ 9) h)) \/
  (private_ok f g F /\ poly_ok (2 ^ 9) h /\ exists pk sk, keypair_from seed = Done (pk, sk) /\
     encode_private_key f g F = Done sk /\ encode_public_key h = Done pk).
Proof.
  intros Hs Hk. destruct (keygen_shape _ _ _ _ _ Hk) as (Hf & Hg & HF & Hh & Hw).
  unfold keypair_from. rewrite Hs. cbn [mbind outcome_bind]. rewrite Hk. cbn [no_fail mbind outcome_bind].
  destruct (encode_private_key_spec f g F Hf Hg HF) as [[-> Hn]|(Hok & fb & gb & Fb & E & _)].
  { left. split; [done|]. intros [H _]. exact (Hn H). }
  rewrite E. cbn [mbind outcome_bind].
  destruct (encode_public_key_spec h Hh Hw) as [[-> Hn]|(Hpk & pk & E' & _)].
  { left. split; [done|]. intros [_ H]. exact (Hn H). }
  rewrite E'. right. split; [exact Hok|]. split; [exact Hpk|]. do 2 eexists. split; [reflexivity|]. now split.
Qed.
End KeyPair.

(** * Uniqueness, for the callers *)

Lemma encode_public_key_bytes h pk :
  poly_ok (2 ^ 9) h -> encode_public_key h = Done pk -> length pk = CRYPTO_PUBLICKEYBYTES /\ bytes pk.
Proof.
  intros Hh He. assert (Forall (in_width 16) h) as Hw.
  { eapply Forall_impl; [|apply Hh]. unfold in_q, in_width, Q. simpl. lia. }
  destruct (encode_public_key_spec h (proj1 Hh) Hw) as [[_ H]|(_ & pk' & E & Hl & Hb)]; [now destruct H|].
  rewrite E in He. injection He as <-. now split.
Qed.

Lemma encode_public_key_inj h h' pk :
  poly_ok (2 ^ 9) h -> poly_ok (2 ^ 9) h' -> encode_public_key h = Done pk -> encode_public_key h' = Done pk -> h = h'.
Proof.
  intros Hh Hh' He He'. destruct (encode_public_key_bytes h pk Hh He) as [Hl Hb].
  pose proof (proj2 (decode_public_key_spec pk Hb Hl)) as H.
  assert (@Done (list Z) h = Done h') as [= <-]; [|reflexivity].
  transitivity (decode_public_key pk); [symmetry; apply H | apply H]; now split.
Qed.

Lemma signature_value_bytes s2 sb : signature_value s2 sb -> bytes sb.
Proof.
  intros (Hl & Hv & He). destruct (comp_encode_cases s2 9 (comp_len s2) Hl) as [(_ & _ & b & E & _ & Hb & _)|[Hn _]].
  - rewrite E in He. now injection He as <-.
  - now destruct Hn.
Qed.

Lemma signature_value_inj s2 s2' sb : signature_value s2 sb -> signature_value s2' sb -> s2 = s2'.
Proof.
  intros H H'. pose proof (signature_value_bytes s2 sb H) as Hb.
  apply (signature_value_spec s2 sb Hb) in H. apply (signature_value_spec s2' sb Hb) in H'. rewrite H in H'.
  now injection H'.
Qed.

Lemma sampler_inputs_unique `{PH : PointHash} os m nonce c sc nonce' c' sc' :
  sampler_inputs os m nonce c sc -> sampler_inputs os m nonce' c' sc' -> nonce = nonce' /\ c = c' /\ sc = sc'.
Proof.
  intros (H1 & H2 & H3) (H1' & H2' & H3'). subst nonce nonce'. rewrite H2 in H2'. rewrite H3 in H3'.
  injection H2' as ->. injection H3' as ->. now split.
Qed.

(** Whether a private key is good is decidable. *)
Lemma signing_key_dec sk :
  bytes sk -> length sk = CRYPTO_SECRETKEYBYTES ->
  (exists f g F G, signing_key sk f g F G) \/ ~ exists f g F G, signing_key sk f g F G.
Proof.
  intros Hb Hl. destruct (decode_private_key_spec sk Hb Hl) as [Hdef Hkey].
  destruct (decode_private_key sk) as [[[f g] F]| |] eqn:E; [| |now destruct Hdef].
  - destruct (proj1 (Hkey f g F) eq_refl) as [Hok He]. destruct (complete_private f g F 9) as [G|] eqn:EG.
    + left. exists f, g, F, G. exact (conj Hok (conj He EG)).
    + right. intros (f' & g' & F' & G' & Hok' & He' & EG'). assert (Done (f, g, F) = Done (f', g', F')) as H by (apply Hkey; exact (conj Hok' He')).
      injection H as <- <- <-. congruence.
  - right. intros (f & g & F & G & Hok & He & _). assert (@Fail (list Z * list Z * list Z) = Done (f, g, F)) as H by (apply Hkey; exact (conj Hok He)).
    discriminate H.
Qed.

Lemma signing_key_inj sk f g F G f' g' F' G' :
  bytes sk -> length sk = CRYPTO_SECRETKEYBYTES ->
  signing_key sk f g F G -> signing_key sk f' g' F' G' -> (f, g, F, G) = (f', g', F', G').
Proof.
  intros Hb Hl (H1 & H2 & H3) (H1' & H2' & H3'). destruct (decode_private_key_spec sk Hb Hl) as [_ Hkey].
  pose proof (proj2 (Hkey f g F) (conj H1 H2)) as E. pose proof (proj2 (Hkey f' g' F') (conj H1' H2')) as E'.
  rewrite E in E'. injection E' as <- <- <-. rewrite H3 in H3'. injection H3' as <-. reflexivity.
Qed.

(** A detached signature of the right shape. *)
Lemma signature_shape nonce value max :
  length nonce = NONCELEN -> bytes nonce -> bytes value -> (length value <= max)%nat ->
  bytes (0x39 :: nonce ++ value) /\ (length (0x39%Z :: nonce ++ value) <= 1 + NONCELEN + max)%nat.
Proof.
  intros Hl Hn Hv Hm. split.
  - constructor; [unfold in_width; lia|]. apply Forall_app. now split.
  - cbn [length]. rewrite length_app. lia.
Qed.

Lemma signature_value_nonempty s2 sb : signature_value s2 sb -> (0 < length sb)%nat.
Proof.
  intros H. pose proof (signature_value_bytes s2 sb H) as Hb. apply (signature_value_spec s2 sb Hb) in H.
  apply (comp_decode_iff sb 9 s2 Hb) in H as (Hl & _ & _ & Hlen). pose proof (comp_len_lower s2) as Hlow.
  rewrite Hl in Hlow. change (2 ^ 9)%nat with 512%nat in Hlow. lia.
Qed.

(** The header and the nonce of a detached signature are stripped. *)
Lemma verify_detached `{PH : PointHash} nonce sb m pk :
  length nonce = NONCELEN -> crypto_sign_verify (0x39 :: nonce ++ sb) m pk = do_verify nonce sb m pk.
Proof.
  intros Hn. unfold crypto_sign_verify. rewrite fail_if_bind. cbn [length]. rewrite length_app, Hn.
  destruct (Nat.ltb_spec (S (NONCELEN + length sb)) (1 + NONCELEN)); [lia|].
  change (no_fail ((0x39 :: nonce ++ sb) !! 0%nat)) with (Done 0x39). cbn [mbind outcome_bind]. rewrite fail_if_bind.
  change (negb (57 =? 0x30 + 9)) with false. cbv iota.
  change (drop 1 (57 :: nonce ++ sb)) with (drop 0 (nonce ++ sb)). change (drop (1 + NONCELEN) (57 :: nonce ++ sb)) with (drop NONCELEN (nonce ++ sb)).
  rewrite drop_0, take_app_length', drop_app_length' by done. reflexivity.
Qed.

(** Verification is defined whenever the hash is. *)
Lemma do_verify_total `{PH : PointHash} nonce sb m pk :
  bytes pk -> length pk = CRYPTO_PUBLICKEYBYTES -> bytes sb -> (exists c, point_hash nonce m = Done c) ->
  do_verify nonce sb m pk = Done tt \/ do_verify nonce sb m pk = Fail.
Proof.
  intros Hpk Hl Hsb [c Hc]. unfold do_verify. destruct (decode_public_key_spec pk Hpk Hl) as [Hdef _].
  destruct (decode_public_key pk) as [h| |]; [|now right | now destruct Hdef]. cbn [mbind outcome_bind]. rewrite fail_if_bind.
  destruct (length sb =? 0)%nat; [now right|]. pose proof (proj1 (comp_decode_sound sb 9 (length sb) Hsb ltac:(lia))) as Hns.
  destruct (comp_decode 9 sb (length sb)) as [[v s2]| |]; [|now right | now destruct Hns]. cbn [mbind outcome_bind]. rewrite fail_if_bind.
  destruct (negb _); [now right|]. rewrite Hc. cbn [mbind outcome_bind]. unfold fail_if. destruct (_ =? 0); [now right | now left].
Qed.
