(* ===== verification/FalconDemo.v ===== *)
(** FalconDemo: a concrete key, randomness and core at which the witnesses of the Falcon interfaces
    apply their theorems.  The sampler always answers the polynomial 1. *)

From Stdlib Require Import ZArith Lia.
From stdpp Require Import base numbers list option.
From S2P Require Import Prelude NumberTheory Bits CodecFixed CodecComp Mq Polynomial Butterfly Poly Ntt Norm Vrfy Shake Falcon.

Abbreviation bytes := (Forall (in_width 8)).

Definition demo_poly : list Z := 1 :: replicate 511 0.
Definition demo_zero : list Z := replicate 512 0.
Definition demo_os : entropy := fun _ => 0.

#[export] Instance demo_core : Core.
Proof.
  refine {| keygen _ := Some (demo_poly, demo_zero, demo_zero, demo_zero);
            sign_dyn sc _ _ _ _ _ := Some (sc, demo_poly) |}.
  - intros rng f g F h H. injection H as <- <- <- <-. repeat split. unfold demo_zero. apply Forall_replicate. by_decide.
  - intros sc f g F G hm sc' sig H. injection H as <- <-. reflexivity.
Defined.

Definition demo_sk : list Z := match encode_private_key demo_poly demo_zero demo_zero with Done sk => sk | _ => [] end.

Lemma demo_os_bytes i : in_width 8 (demo_os i).
Proof. unfold demo_os, in_width. lia. Qed.

Lemma demo_private_ok : private_ok demo_poly demo_zero demo_zero.
Proof. unfold private_ok, trim_valid. repeat (split; [by_decide|]). by_decide. Qed.

Lemma demo_signing_key : signing_key demo_sk demo_poly demo_zero demo_zero demo_zero.
Proof. split; [exact demo_private_ok|]. split; vm_compute; reflexivity. Qed.

Lemma demo_sk_shape : length demo_sk = CRYPTO_SECRETKEYBYTES /\ bytes demo_sk.
Proof. split; [vm_compute; reflexivity | by_decide]. Qed.

(** The first vector drawn fits. *)
Lemma demo_first_fit sc hm : first_fit value_max 0 sc demo_poly demo_zero demo_zero demo_zero hm demo_poly.
Proof.
  split; [reflexivity|]. split; [|intros j Hj; lia]. unfold fits, comp_valid. split; [by_decide|].
  apply Nat.leb_le. vm_compute. reflexivity.
Qed.

(** X^0 signs a point under the key equal to the point. *)
Lemma demo_accepts c : length c = (2 ^ 9)%nat -> falcon_accepts c c demo_poly.
Proof.
  intros Hl. unfold falcon_accepts, demo_poly. rewrite ring_mul_constant by exact Hl.
  assert (centered <$> psub c (Z.mul 1 <$> c) = replicate (length c) 0) as ->.
  { unfold psub. clear. induction c as [|x c IH]; [done|]. cbn [zip_with fmap list_fmap length replicate].
    cbn [fmap list_fmap] in IH. rewrite IH. f_equal. rewrite Z.mul_1_l, Z.sub_diag. reflexivity. }
  rewrite Hl. vm_compute. discriminate.
Qed.

Definition demo_value : list Z := (comp_encode (Some value_max) demo_poly 9).2.
Definition demo_nonce : list Z := replicate 40 0.

(** The demo key signs the empty message at the first iteration. *)
Lemma demo_do_sign `{PH : PointHash} :
  hashable (randombytes NONCELEN demo_os).1 [] ->
  exists nonce value, do_sign 1 demo_os value_max [] demo_sk = Done (nonce, value).
Proof.
  intros Hh. destruct (proj2 (do_sign_spec 1 demo_os value_max [] demo_sk demo_os_bytes ltac:(constructor) (proj2 demo_sk_shape)
    (proj1 demo_sk_shape) Hh) _ _ _ _ demo_signing_key) as (nonce & c & sc & _ & _ & E).
  rewrite E. pose proof (sign_loop_spec 1 sc demo_poly demo_zero demo_zero demo_zero c value_max) as H.
  destruct (sign_loop 1 sc demo_poly demo_zero demo_zero demo_zero c value_max) as [value| |];
    [eexists _, _; reflexivity | destruct H | destruct (H 0%nat demo_poly ltac:(lia) (demo_first_fit sc c))].
Qed.
