(* ===== verification/FalconRpo.v ===== *)
(** FalconRpo: [falcon.c], Falcon-512 with the RPO hash of nonce and message. *)

From Stdlib Require Import ZArith Lia.
From stdpp Require Import base numbers list option.
From S2P Require Import Prelude NumberTheory Bits CodecFixed CodecComp Mq Polynomial Butterfly Poly Ntt Norm Vrfy RpoSponge Keccak Shake Sponge Falcon FalconDemo.

(** The 64-byte buffer: the nonce in eight chunks of five bytes, each in a word of eight. *)
Definition nonce_block (nonce : list Z) : list Z :=
  for_up 0 8 (fun i buffer =>
    <[(8 * i + 4)%nat := nonce !!! (5 * i + 4)%nat]> (<[(8 * i + 3)%nat := nonce !!! (5 * i + 3)%nat]>
    (<[(8 * i + 2)%nat := nonce !!! (5 * i + 2)%nat]> (<[(8 * i + 1)%nat := nonce !!! (5 * i + 1)%nat]>
    (<[(8 * i)%nat := nonce !!! (5 * i)%nat]> buffer))))) (replicate 64 0).

(** Hashing nonce and message, in [do_sign] and [do_verify]. *)
Definition point_hash_rpo (nonce m : list Z) : outcome (list Z) :=
  rc ← no_fail (rpo128_absorb rpo128_init (nonce_block nonce));
  rc ← no_fail (rpo128_absorb rc m);
  '(rc, hm) ← no_fail (hash_to_point_rpo (rpo128_finalize rc) 9);
  Done hm.

Lemma nonce_block_ok nonce :
  length nonce = NONCELEN -> Forall (in_width 8) nonce ->
  length (nonce_block nonce) = 64%nat /\ Forall (in_width 8) (nonce_block nonce).
Proof.
  intros Hl Hb. unfold nonce_block.
  apply (for_up_inv _ (fun _ b => length b = 64%nat /\ Forall (in_width 8) b)); [lia | split; [done | by_decide] |].
  intros i b Hi [Hbl Hbb]. rewrite !length_insert. split; [done|].
  rewrite Forall_lookup_total in Hb. unfold NONCELEN in Hl.
  repeat (apply Forall_insert; [|apply Hb; lia]). exact Hbb.
Qed.

Lemma point_hash_rpo_ok nonce m :
  length nonce = NONCELEN -> Forall (in_width 8) nonce -> Forall (in_width 8) m ->
  exists hm, point_hash_rpo nonce m = Done hm /\ poly_ok (2 ^ 9) hm.
Proof.
  intros Hl Hn Hm. destruct (nonce_block_ok nonce Hl Hn) as [_ Hbb]. unfold point_hash_rpo.
  destruct (absorb_spec rpo128_init (nonce_block nonce) wf_init Hbb) as [-> Hw1]. cbn [no_fail mbind outcome_bind].
  destruct (absorb_spec _ m Hw1 Hm) as [-> Hw2]. cbn [no_fail mbind outcome_bind].
  destruct (hash_to_point_spec _ 9 Hw2) as [rc' ->]. cbn [no_fail mbind outcome_bind].
  eexists. split; [reflexivity|]. split; [now rewrite length_fmap, length_seq|].
  apply Forall_fmap, Forall_true. intros k. apply Z.mod_pos_bound. reflexivity.
Qed.

#[export] Instance rpo_hash : PointHash := {|
  point_hash := point_hash_rpo;
  hashable _ _ := True;
  point_hash_ok nonce m Hl Hn Hm _ := point_hash_rpo_ok nonce m Hl Hn Hm
|}.

(** [sizeof seed] where [seed] is a parameter of pointer type, on a 64-bit target. *)
Definition sizeof_pointer : nat := 8.

Section Api.
Context `{C : Core}.

Definition crypto_sign_keypair_from_seed_rpo (seed : list Z) : outcome (list Z * list Z) :=
  keypair_from (take sizeof_pointer seed).

Definition crypto_sign_keypair_rpo (os : entropy) : outcome (list Z * list Z) :=
  let '(seed, os) := randombytes 48 os in
  crypto_sign_keypair_from_seed_rpo seed.

Definition crypto_sign_signature_rpo (fuel : nat) (os : entropy) (m sk : list Z) : outcome (list Z) :=
  crypto_sign_signature fuel os m sk.
End Api.

Definition crypto_sign_verify_rpo (sig m pk : list Z) : outcome unit := crypto_sign_verify sig m pk.

(** * Properties *)

Abbreviation bytes := (Forall (in_width 8)).

(** C1 (functional).  Verification decides the Falcon relation on encoded data.  On any signature and
    message and a public key of 897 bytes, [crypto_sign_verify_rpo] stays within its buffers and
    returns 0 or -1; it returns 0 exactly when the signature is the header 0x39, a 40-byte nonce and
    the whole compressed encoding of a vector s2, the key is the header 9 and the encoding of a
    polynomial h modulo 12289, and (c - s2 h, s2) is within the norm bound, where c is the RPO hash of
    nonce and message. *)
Theorem verify_rpo_correct (sig m pk : list Z) :
  bytes sig -> bytes m -> bytes pk -> length pk = CRYPTO_PUBLICKEYBYTES ->
  (crypto_sign_verify_rpo sig m pk = Done tt \/ crypto_sign_verify_rpo sig m pk = Fail) /\
  (crypto_sign_verify_rpo sig m pk = Done tt <-> exists nonce sb h s2 c,
     sig = 0x39 :: nonce ++ sb /\ length nonce = NONCELEN /\
     poly_ok (2 ^ 9) h /\ encode_public_key h = Done pk /\ signature_value s2 sb /\
     point_hash_rpo nonce m = Done c /\ falcon_accepts c h s2).
Proof.
  intros Hs Hm Hpk Hl. unfold crypto_sign_verify_rpo.
  destruct (crypto_sign_verify_spec (PH := rpo_hash) sig m pk Hs Hm Hpk Hl (fun _ => I)) as [Hdef Hiff]. split; [|exact Hiff].
  destruct (crypto_sign_verify sig m pk) as [[]| |]; [now left | now right | done].
Qed.

(** The generator of a seed of eight bytes *)

(** Lane 0 is the word injected; the domain byte follows it, and the last byte of the block ends the padding. *)
Definition seed_context (w : Z) : inc_ctx :=
  mk_inc (<[16%nat := 2 ^ 63]> (<[1%nat := 0x1F]> (<[0%nat := w]> (replicate 25 0)))) 0.

Lemma seed_context_inj w w' : seed_context w = seed_context w' -> w = w'.
Proof. intros H. apply (f_equal (fun ctx => inc_s ctx !!! 0%nat)) in H. exact H. Qed.

Lemma seeded_word (s : list Z) : length s = 8%nat -> bytes s -> seeded s = Done (seed_context (le_load s)).
Proof.
  intros Hl Hb. unfold seeded, shake256_inc_absorb. rewrite keccak_inc_absorb_spec by (unfold SHAKE256_RATE; cbn; lia). cbn [no_fail mbind outcome_bind].
  pose proof (absorb_partial SHAKE256_RATE ltac:(unfold SHAKE256_RATE; lia) s (replicate 25 0) 0 8 ltac:(unfold SHAKE256_RATE; lia) ltac:(lia)) as E.
  rewrite take_ge in E by lia. change (ctx_state shake256_inc_init) with (replicate 25 0, 0%nat). rewrite E.
  pose proof (xor_block_bytes 1 (replicate 25 0) s ltac:(cbn; lia) ltac:(lia) Hb) as X. change (8 * 1)%nat with 8%nat in X.
  change (for_up 0 8 (fun i s0 => xor_byte s0 (0 + i) (s !!! i)) (replicate 25 0)) with (for_up 0 8 (fun i s0 => xor_byte s0 i (s !!! i)) (replicate 25 0)).
  rewrite <- X. change (for_up 0 1 ?body ?st) with (body 0%nat st). cbn beta. rewrite drop_0, take_ge by lia.
  rewrite (load64_value s Hl Hb). change (lane_value s) with (le_load s). reflexivity.
Qed.

Lemma seed_stream (s : list Z) n : length s = 8%nat -> bytes s -> exists rng, shake256_inc_squeeze n (seed_context (le_load s)) = Some (rng, SHAKE256 s n).
Proof.
  intros Hl Hb. pose proof (seeded_word s Hl Hb) as E. unfold seeded, shake256_inc_absorb in E. rewrite keccak_inc_absorb_spec in E by (unfold SHAKE256_RATE; cbn; lia).
  cbn [no_fail mbind outcome_bind] in E. assert (forall a b : inc_ctx, Done a = Done b -> a = b) as D by (intros a b H; now injection H). apply D in E. rewrite <- E.
  unfold shake256_inc_squeeze, SHAKE256. rewrite keccak_inc_squeeze_spec by (unfold SHAKE256_RATE; cbn; lia).
  rewrite <- (sponge_correct 17 ltac:(lia) 0x1F s n ltac:(lia) Hb). change (8 * 17)%nat with SHAKE256_RATE.
  change (ctx_state shake256_inc_init) with (replicate 25 0, 0%nat). unfold shake256_inc_finalize.
  destruct (squeeze_bytes SHAKE256_RATE n _) as [st h]. exists (of_state st). reflexivity.
Qed.

#[local] Opaque do_sign sign_loop seeded complete_private point_hash_rpo encode_private_key encode_public_key
  decode_private_key crypto_sign_verify verify_raw.

Section Signing.
Context `{C : Core}.

Lemma sign_rpo_fails (fuel : nat) (os : entropy) (m sk : list Z) :
  (forall i, in_width 8 (os i)) -> bytes m -> bytes sk -> length sk = CRYPTO_SECRETKEYBYTES ->
  crypto_sign_signature_rpo fuel os m sk = Fail <-> ~ exists f g F G, signing_key sk f g F G.
Proof.
  intros Hos Hm Hsk Hl. refine (iff_trans _ (proj1 (do_sign_spec (PH := rpo_hash) fuel os value_max m sk Hos Hm Hsk Hl I))).
  unfold crypto_sign_signature_rpo, crypto_sign_signature. fold value_max.
  destruct (do_sign fuel os value_max m sk) as [[? ?]| |]; (split; intros H; discriminate H || reflexivity).
Qed.

(** Where a signature comes from. *)
Lemma signature_origin (fuel : nat) (os : entropy) (m sk sig : list Z) :
  (forall i, in_width 8 (os i)) -> bytes m -> bytes sk -> length sk = CRYPTO_SECRETKEYBYTES ->
  crypto_sign_signature_rpo fuel os m sk = Done sig ->
  exists f g F G nonce c sc k s2 value, signing_key sk f g F G /\ sampler_inputs os m nonce c sc /\ poly_ok (2 ^ 9) c /\
    first_fit value_max k sc f g F G c s2 /\ signature_value s2 value /\ sig = 0x39 :: nonce ++ value /\
    length nonce = NONCELEN /\ bytes sig /\ (length sig <= 1 + NONCELEN + value_max)%nat.
Proof.
  intros Hos Hm Hsk Hl Hd. unfold crypto_sign_signature_rpo, crypto_sign_signature in Hd. fold value_max in Hd.
  destruct (do_sign_spec (PH := rpo_hash) fuel os value_max m sk Hos Hm Hsk Hl I) as [Herr Hrun].
  destruct (signing_key_dec sk Hsk Hl) as [(f & g & F & G & Hk)|Hno]; [|now rewrite (proj2 Herr Hno) in Hd].
  destruct (Hrun f g F G Hk) as (nonce & c & sc & Hin & Hc & E). rewrite E in Hd.
  pose proof (sign_loop_spec fuel sc f g F G c value_max) as Hloop.
  destruct (sign_loop fuel sc f g F G c value_max) as [value| |]; [|done|done]. injection Hd as <-.
  destruct Hloop as (k & s2 & _ & Hff & Hv & Hvb & Hvl). pose proof Hin as (Hnonce & _ & _).
  pose proof (randombytes_length NONCELEN os) as Hnl. pose proof (randombytes_bytes NONCELEN os Hos) as Hnb. rewrite <- Hnonce in Hnl, Hnb.
  destruct (signature_shape nonce value value_max Hnl Hnb Hvb Hvl) as [Hsb Hlen]. exists f, g, F, G, nonce, c, sc, k, s2, value.
  do 6 (split; [first [assumption | reflexivity]|]). split; [exact Hnl|]. split; [exact Hsb | exact Hlen].
Qed.

(** The verifier accepts a signature exactly when its vector satisfies the relation. *)
Lemma verify_signed (nonce m value s2 c h pk : list Z) :
  length nonce = NONCELEN -> bytes (0x39 :: nonce ++ value) -> bytes m -> point_hash_rpo nonce m = Done c -> signature_value s2 value ->
  poly_ok (2 ^ 9) h -> encode_public_key h = Done pk ->
  crypto_sign_verify_rpo (0x39 :: nonce ++ value) m pk = Done tt <-> falcon_accepts c h s2.
Proof.
  intros Hnl Hsb Hm Hpt Hv Hh Hpk. destruct (encode_public_key_bytes h pk Hh Hpk) as [Hpl Hpb].
  refine (iff_trans (proj2 (crypto_sign_verify_spec (PH := rpo_hash) (0x39 :: nonce ++ value) m pk Hsb Hm Hpb Hpl (fun _ => I))) _).
  split.
  - intros (nonce' & sb & h' & s2' & c' & Heq & Hnl' & Hh' & Hpk' & Hsv & Hc' & Hacc). injection Heq as Heq.
    apply app_inj_1 in Heq as [<- <-]; [|congruence]. cbn [point_hash rpo_hash] in Hc'. rewrite Hpt in Hc'. injection Hc' as <-.
    rewrite (encode_public_key_inj h' h pk) in Hacc by assumption.
    now rewrite (signature_value_inj s2' s2 value) in Hacc by assumption.
  - intros Hacc. exists nonce, value, h, s2, c. repeat (split; [first [reflexivity | assumption]|]). exact Hacc.
Qed.

(** C31 (error).  Signing returns -1 exactly for a private key that is not the encoding of a triple
  (f, g, F) in range which [complete_private] extends: a wrong header, a coefficient out of range, a
  nonzero padding bit or a G that does not exist.  The message, the randomness and the number of
  loop iterations do not matter, and the triple is unique. *)
Theorem sign_rpo_error (fuel : nat) (os : entropy) (m sk : list Z) :
(forall i, in_width 8 (os i)) -> bytes m -> bytes sk -> length sk = CRYPTO_SECRETKEYBYTES ->
(crypto_sign_signature_rpo fuel os m sk = Fail <-> ~ exists f g F G, signing_key sk f g F G) /\
(forall f g F G f' g' F' G', signing_key sk f g F G -> signing_key sk f' g' F' G' -> (f, g, F, G) = (f', g', F', G')).
Proof.
intros Hos Hm Hsk Hl. split; [exact (sign_rpo_fails fuel os m sk Hos Hm Hsk Hl)|].
intros f g F G f' g' F' G'. exact (signing_key_inj sk f g F G f' g' F' G' Hsk Hl).
Qed.

(** C26 (liveness).  Signing with a good private key returns as soon as the sampler draws a vector whose
  encoding fits: with [s2] the first such vector, at index [k], every run of more than [k]
  iterations returns that vector's signature and no shorter one returns.  With less than 576 bytes
  for the value no vector ever fits, and the loop of [do_sign] never returns. *)
Theorem sign_rpo_terminates (os : entropy) (m sk f g F G : list Z) :
(forall i, in_width 8 (os i)) -> bytes m -> bytes sk -> length sk = CRYPTO_SECRETKEYBYTES ->
signing_key sk f g F G ->
exists nonce c sc, sampler_inputs os m nonce c sc /\
(forall k s2 fuel, first_fit value_max k sc f g F G c s2 ->
   ((k < fuel)%nat -> exists sb, crypto_sign_signature_rpo fuel os m sk = Done (0x39 :: nonce ++ sb) /\ signature_value s2 sb) /\
   ((fuel <= k)%nat -> crypto_sign_signature_rpo fuel os m sk = Stuck)) /\
(forall max fuel, (max < 576)%nat -> do_sign fuel os max m sk = Stuck).
Proof.
intros Hos Hm Hsk Hl Hk.
destruct (proj2 (do_sign_spec (PH := rpo_hash) 0 os value_max m sk Hos Hm Hsk Hl I) f g F G Hk) as (nonce & c & sc & Hin & _ & _).
exists nonce, c, sc. split; [done|].
assert (forall fuel max, do_sign fuel os max m sk = (value ← sign_loop fuel sc f g F G c max; Done (nonce, value))) as Hrun.
{ intros fuel max. destruct (proj2 (do_sign_spec (PH := rpo_hash) fuel os max m sk Hos Hm Hsk Hl I) f g F G Hk) as (nonce' & c' & sc' & Hin' & _ & ->).
  destruct (sampler_inputs_unique _ _ _ _ _ _ _ _ Hin Hin') as (<- & <- & <-). reflexivity. }
split.
- intros k s2 fuel Hff. unfold crypto_sign_signature_rpo, crypto_sign_signature. fold value_max. rewrite Hrun.
  pose proof (sign_loop_spec fuel sc f g F G c value_max) as Hloop.
  destruct (sign_loop fuel sc f g F G c value_max) as [value| |]; [|done|].
  + destruct Hloop as (k' & s2' & Hk' & Hff' & Hv & _). destruct (first_fit_unique _ _ _ _ _ _ _ _ _ _ _ Hff Hff') as [<- <-].
    split; [intros _; exists value; split; [reflexivity | exact Hv] | lia].
  + split; [intros Hf; destruct (Hloop k s2 Hf Hff) | reflexivity].
- intros max fuel Hmax. rewrite Hrun. pose proof (sign_loop_spec fuel sc f g F G c max) as Hloop.
  destruct (sign_loop fuel sc f g F G c max) as [value| |]; [|done|done].
  destruct Hloop as (k & s2 & _ & (_ & [_ Hfit] & _) & (Hs2 & _) & _). pose proof (comp_len_lower s2) as Hlow.
  rewrite Hs2 in Hlow. change (2 ^ 9)%nat with 512%nat in Hlow. lia.
Qed.

(** C7 (roundtrip).  What is signed verifies: a signature that [crypto_sign_signature_rpo] returns has at
  most 664 bytes and carries the first vector s2 of the sampler that fits, and
  [crypto_sign_verify_rpo] accepts it for a message and a public key h exactly when s2 satisfies the
  Falcon equation for the hash the signer computed. *)
Theorem sign_then_verify_rpo (fuel : nat) (os : entropy) (m sk sig : list Z) :
(forall i, in_width 8 (os i)) -> bytes m -> bytes sk -> length sk = CRYPTO_SECRETKEYBYTES ->
crypto_sign_signature_rpo fuel os m sk = Done sig ->
(length sig <= CRYPTO_BYTES - 2)%nat /\ bytes sig /\
exists f g F G nonce c sc k s2, signing_key sk f g F G /\ sampler_inputs os m nonce c sc /\
  first_fit value_max k sc f g F G c s2 /\
  forall h pk, poly_ok (2 ^ 9) h -> encode_public_key h = Done pk ->
    (crypto_sign_verify_rpo sig m pk = Done tt <-> falcon_accepts c h s2).
Proof.
intros Hos Hm Hsk Hl Hd.
destruct (signature_origin fuel os m sk sig Hos Hm Hsk Hl Hd) as (f & g & F & G & nonce & c & sc & k & s2 & value & Hk & Hin & _ & Hff & Hv & -> & Hnl & Hsb & Hlen).
split; [exact Hlen|]. split; [exact Hsb|]. exists f, g, F, G, nonce, c, sc, k, s2. split; [exact Hk|]. split; [exact Hin|]. split; [exact Hff|].
intros h pk Hh Hpk. exact (verify_signed nonce m value s2 c h pk Hnl Hsb Hm (proj1 (proj2 Hin)) Hv Hh Hpk).
Qed.
End Signing.

Section Keys.
Context `{C : Core}.

(** Key pairs: when key generation returns (f, g, F, h) for the seeded generator,
  [crypto_sign_keypair_from_seed_rpo] returns -1 exactly when a coefficient is out of the range of its
  encoding, and otherwise keys of exactly 897 and 1281 bytes which decode, at the head of verification
  and of signing, to h and to (f, g, F). *)
Theorem keypair_rpo_correct (seed : list Z) rng (f g F h : list Z) :
seeded (take sizeof_pointer seed) = Done rng -> keygen rng = Some (f, g, F, h) ->
(crypto_sign_keypair_from_seed_rpo seed = Fail <-> ~ (private_ok f g F /\ poly_ok (2 ^ 9) h)) /\
(private_ok f g F /\ poly_ok (2 ^ 9) h -> exists pk sk,
   crypto_sign_keypair_from_seed_rpo seed = Done (pk, sk) /\
   length pk = CRYPTO_PUBLICKEYBYTES /\ length sk = CRYPTO_SECRETKEYBYTES /\ bytes pk /\ bytes sk /\
   decode_public_key pk = Done h /\ decode_private_key sk = Done (f, g, F)).
Proof.
intros Hs Hk. unfold crypto_sign_keypair_from_seed_rpo.
destruct (keypair_from_spec _ _ _ _ _ _ Hs Hk) as [[-> Hn]|(Hok & Hh & pk & sk & E & Hsk & Hpk)].
- split; [split; [intros _; exact Hn | reflexivity] | intros H; destruct (Hn H)].
- rewrite E. split; [split; [intros H; discriminate H | intros H; destruct (H (conj Hok Hh))]|]. intros _. exists pk, sk.
  destruct (encode_public_key_bytes h pk Hh Hpk) as [Hpl Hpb]. destruct (encode_private_key_bytes f g F sk Hok Hsk) as [Hsl Hsb].
  split; [reflexivity|]. split; [exact Hpl|]. split; [exact Hsl|]. split; [exact Hpb|]. split; [exact Hsb|]. split.
  + apply (proj2 (decode_public_key_spec pk Hpb Hpl) h). exact (conj Hh Hpk).
  + apply (proj2 (decode_private_key_spec sk Hsb Hsl) f g F). exact (conj Hok Hsk).
Qed.

(** C37 (safety).  Only eight bytes of the seed are used: [sizeof seed] is the size of a pointer, eight on a
  64-bit target.  With w the number that the first eight bytes of the 48-byte seed write, little-endian, the
  function is key generation and encoding on the generator whose state is w, then the padding: the generator
  that yields SHAKE256 of those eight bytes.  So two seeds with the same first eight bytes give the same
  result, whatever the other forty; and the generators of two words are different, so that the whole of the
  word matters: there are 2^64 of them, not 2^384. *)
Theorem keypair_seed_truncated (seed : list Z) :
bytes seed -> length seed = 48%nat ->
let w := le_load (take 8 seed) in
in_width 64 w /\
crypto_sign_keypair_from_seed_rpo seed =
  ('(f, g, F, h) ← no_fail (keygen (seed_context w)); sk ← encode_private_key f g F; pk ← encode_public_key h; Done (pk, sk)) /\
(forall n, exists rng, shake256_inc_squeeze n (seed_context w) = Some (rng, SHAKE256 (take 8 seed) n)) /\
(forall seed', bytes seed' -> length seed' = 48%nat -> take 8 seed' = take 8 seed ->
   crypto_sign_keypair_from_seed_rpo seed' = crypto_sign_keypair_from_seed_rpo seed) /\
(forall w', seed_context w' = seed_context w -> w' = w).
Proof.
intros Hb Hl w. assert (length (take 8 seed) = 8%nat) as H8 by (rewrite length_take; lia). assert (bytes (take 8 seed)) as Hb8 by now apply Forall_take.
assert (in_width 64 w) as Hw by (pose proof (le_load_range _ Hb8) as H; rewrite H8 in H; exact H).
split; [exact Hw|]. split; [|split; [|split]].
- unfold crypto_sign_keypair_from_seed_rpo, keypair_from. now rewrite (seeded_word (take sizeof_pointer seed) H8 Hb8).
- intros n. exact (seed_stream (take 8 seed) n H8 Hb8).
- intros seed' _ _ E. unfold crypto_sign_keypair_from_seed_rpo. change sizeof_pointer with 8%nat. now rewrite E.
- intros w'. apply seed_context_inj.
Qed.
End Keys.

(** * Witnesses *)

#[local] Existing Instance demo_core.

Lemma verify_rpo_correct_witness :
  exists c pk, point_hash_rpo demo_nonce [] = Done c /\ encode_public_key c = Done pk /\
    crypto_sign_verify_rpo (0x39 :: demo_nonce ++ demo_value) [] pk = Done tt.
Proof.
  assert (bytes demo_nonce) as Hn by by_decide. assert (bytes []) as Hm by constructor.
  destruct (point_hash_rpo_ok demo_nonce [] eq_refl Hn Hm) as (c & Hc & Hok).
  assert (Forall (in_width 16) c) as Hw by (eapply Forall_impl; [|apply Hok]; unfold in_q, in_width, Q; simpl; lia).
  destruct (encode_public_key_spec c (proj1 Hok) Hw) as [[_ H]|(_ & pk & E & Hl & Hb)]; [destruct (H Hok)|].
  exists c, pk. split; [exact Hc|]. split; [exact E|].
  assert (bytes (0x39 :: demo_nonce ++ demo_value)) as Hs by by_decide.
  refine (proj2 (proj2 (verify_rpo_correct _ [] pk Hs Hm Hb Hl)) _).
  exists demo_nonce, demo_value, c, demo_poly, c. split; [reflexivity|]. split; [reflexivity|]. split; [exact Hok|].
  split; [exact E|]. split; [|split; [exact Hc | exact (demo_accepts c (proj1 Hok))]].
  split; [reflexivity|]. split; [unfold comp_valid; by_decide | vm_compute; reflexivity].
Defined.

Lemma sign_rpo_error_witness : crypto_sign_signature_rpo 3 demo_os [] (replicate 1281 0) = Fail.
Proof.
  assert (bytes (replicate 1281 0)) as Hb by by_decide.
  refine (proj2 (proj1 (sign_rpo_error 3 demo_os [] (replicate 1281 0) demo_os_bytes ltac:(constructor) Hb eq_refl)) _).
  intros (f & g & F & G & Hok & He & _). destruct Hok as (Hf & Hg & HF & Hr).
  destruct (encode_private_key_spec f g F Hf Hg HF) as [[E _]|(_ & fb & gb & Fb & E & _)]; rewrite E in He; discriminate He.
Defined.

Lemma sign_rpo_terminates_witness :
  exists nonce sb, crypto_sign_signature_rpo 1 demo_os [] demo_sk = Done (0x39 :: nonce ++ sb) /\ signature_value demo_poly sb.
Proof.
  destruct (sign_rpo_terminates demo_os [] demo_sk demo_poly demo_zero demo_zero demo_zero demo_os_bytes ltac:(constructor)
    (proj2 demo_sk_shape) (proj1 demo_sk_shape) demo_signing_key) as (nonce & c & sc & _ & H & _).
  destruct (H 0%nat demo_poly 1%nat (demo_first_fit sc c)) as [Hret _]. destruct (Hret ltac:(lia)) as (sb & E & Hs).
  exists nonce, sb. split; [exact E | exact Hs].
Defined.

Lemma demo_signs : exists sig, crypto_sign_signature_rpo 1 demo_os [] demo_sk = Done sig.
Proof.
  destruct (demo_do_sign (PH := rpo_hash) I) as (nonce & value & E). exists (0x39 :: nonce ++ value).
  unfold crypto_sign_signature_rpo, crypto_sign_signature. fold value_max. rewrite E. reflexivity.
Qed.

Lemma sign_then_verify_rpo_witness :
  exists sig, crypto_sign_signature_rpo 1 demo_os [] demo_sk = Done sig /\ (length sig <= 664)%nat.
Proof.
  destruct demo_signs as [sig E]. exists sig. split; [exact E|].
  exact (proj1 (sign_then_verify_rpo 1 demo_os [] demo_sk sig demo_os_bytes ltac:(constructor) (proj2 demo_sk_shape)
    (proj1 demo_sk_shape) E)).
Defined.

Lemma keypair_rpo_correct_witness :
  exists pk sk, crypto_sign_keypair_from_seed_rpo (replicate 48 7) = Done (pk, sk) /\
    decode_private_key sk = Done (demo_poly, demo_zero, demo_zero).
Proof.
  destruct (seeded_total (take sizeof_pointer (replicate 48 7))) as [rng Hs].
  destruct (proj2 (keypair_rpo_correct (C := demo_core) (replicate 48 7) rng demo_poly demo_zero demo_zero demo_zero Hs eq_refl)) as (pk & sk & E & _ & _ & _ & _ & _ & Hd).
  - split; [exact demo_private_ok|]. split; [reflexivity | unfold in_q; by_decide].
  - exists pk, sk. split; [exact E | exact Hd].
Defined.

Lemma keypair_seed_truncated_witness :
  crypto_sign_keypair_from_seed_rpo (replicate 8 7 ++ replicate 40 0) = crypto_sign_keypair_from_seed_rpo (replicate 48 7) /\
  exists rng, shake256_inc_squeeze 5 (seed_context 0x0707070707070707) = Some (rng, SHAKE256 (replicate 8 7) 5).
Proof.
  destruct (keypair_seed_truncated (replicate 48 7) ltac:(by_decide) eq_refl) as (_ & _ & H1 & H2 & _).
  split; [apply H2; [by_decide | reflexivity | reflexivity] | exact (H1 5%nat)].
Defined.
