(* ===== verification/Pqclean.v ===== *)
(** Pqclean: [pqclean.c], the PQClean interface of Falcon-512, which hashes with SHAKE256, and the
    signed-message objects of [crypto_sign] and [crypto_sign_open]. *)

From Stdlib Require Import ZArith Lia.
From stdpp Require Import base numbers list option.
From S2P Require Import Prelude NumberTheory Bits CodecFixed CodecComp Mq Polynomial Butterfly Poly Ntt Norm Vrfy Keccak Shake HashToPoint Falcon FalconDemo.

Abbreviation bytes := (Forall (in_width 8)).

(** The context after [inner_shake256_init], the two injections and [inner_shake256_flip]. *)
Definition hash_context (nonce m : list Z) : outcome inner_shake256_context :=
  sc ← no_fail (shake256_inc_absorb shake256_inc_init nonce);
  sc ← no_fail (shake256_inc_absorb sc m);
  Done (shake256_inc_finalize sc).

(** Hashing nonce and message, in [do_sign] and [do_verify]: [work] is what the arrays [hm], [tmp] and
    the stack of [hash_to_point_ct] hold before the call. *)
Definition point_hash_shake (work : ct_bufs) (nonce m : list Z) : outcome (list Z) :=
  sc ← hash_context nonce m;
  '(sc, hm) ← no_fail (hash_to_point_ct sc 9 work);
  Done hm.

(** Enough of the 717 samples drawn are accepted. *)
Definition samples_suffice (nonce m : list Z) : Prop :=
  forall sc, hash_context nonce m = Done sc -> (512 <= length (accepted (samples 717 sc)))%nat.

Lemma hash_context_total nonce m : exists sc, hash_context nonce m = Done sc /\ sc_ok sc.
Proof.
  unfold hash_context, shake256_inc_absorb. assert (0 < SHAKE256_RATE)%nat as Hr by (unfold SHAKE256_RATE; lia).
  rewrite keccak_inc_absorb_spec by (cbn; exact Hr). cbn [no_fail mbind outcome_bind].
  rewrite keccak_inc_absorb_spec by (exact Hr || exact (absorb_bytes_count SHAKE256_RATE Hr nonce (ctx_state shake256_inc_init) Hr)). cbn [no_fail mbind outcome_bind].
  eexists. split; [reflexivity|]. unfold sc_ok. cbn. lia.
Qed.

Lemma point_hash_shake_ok work nonce m :
  bufs_ok 512 717 work -> samples_suffice nonce m ->
  exists sc hm, hash_context nonce m = Done sc /\ point_hash_shake work nonce m = Done hm /\
    hm = take 512 (accepted (samples 717 sc)) /\ poly_ok (2 ^ 9) hm.
Proof.
  intros Hw Hs. destruct (hash_context_total nonce m) as (sc & E & Hsc). specialize (Hs sc E).
  unfold point_hash_shake. rewrite E. cbn [mbind outcome_bind].
  destruct (ct_result sc 9 work Hsc ltac:(lia) Hw Hs) as [sc' ->]. cbn [no_fail mbind outcome_bind].
  eexists sc, _. split; [reflexivity|]. split; [reflexivity|]. split; [reflexivity|]. now apply take_accepted_ok.
Qed.

Section Api.
Context (work : ct_bufs) (Hwork : bufs_ok 512 717 work).

#[local] Instance shake_hash : PointHash.
Proof using work Hwork.
  refine {| point_hash := point_hash_shake work; hashable nonce m := samples_suffice nonce m |}.
  intros nonce m _ _ _ Hs. destruct (point_hash_shake_ok work nonce m Hwork Hs) as (sc & hm & _ & E & _ & Hok).
  exists hm. now split.
Defined.

Context `{C : Core}.

Definition crypto_sign_keypair (os : entropy) : outcome (list Z * list Z) :=
  let '(seed, os) := randombytes 48 os in
  keypair_from seed.

(** The static functions of the file: those of [Falcon] with the SHAKE hash. *)
Definition do_sign_shake (fuel : nat) (os : entropy) (sigbuflen : nat) (m sk : list Z) : outcome (list Z * list Z) :=
  do_sign fuel os sigbuflen m sk.

Definition do_verify_shake (nonce sigbuf m pk : list Z) : outcome unit := do_verify nonce sigbuf m pk.

Definition crypto_sign_signature_shake (fuel : nat) (os : entropy) (m sk : list Z) : outcome (list Z) :=
  crypto_sign_signature fuel os m sk.

Definition crypto_sign_verify_shake (sig m pk : list Z) : outcome unit := crypto_sign_verify sig m pk.

(** The signed message: length, nonce, message, header, value. *)
Definition crypto_sign (fuel : nat) (os : entropy) (m sk : list Z) : outcome (list Z) :=
  '(nonce, value) ← do_sign_shake fuel os (CRYPTO_BYTES - NONCELEN - 3) m sk;
  let sigbuflen := Z.of_nat (length value) + 1 in
  Done (u8 (sigbuflen .>> 8) :: u8 sigbuflen :: nonce ++ m ++ 0x29 :: value).

Definition crypto_sign_open (sm pk : list Z) : outcome (list Z) :=
  let smlen := length sm in
  fail_if (smlen <? 3 + NONCELEN)%nat;;
  b0 ← no_fail (sm !! 0%nat);
  b1 ← no_fail (sm !! 1%nat);
  let sigbuflen := Z.to_nat ((b0 .<< 8) .| b1) in
  fail_if ((sigbuflen <? 2) || (smlen - NONCELEN - 2 <? sigbuflen))%nat;;
  let sigbuflen := (sigbuflen - 1)%nat in
  let pmlen := (smlen - NONCELEN - 3 - sigbuflen)%nat in
  b ← no_fail (sm !! (2 + NONCELEN + pmlen)%nat);
  fail_if (negb (b =? 0x20 + 9));;
  let sigbuf := take sigbuflen (drop (2 + NONCELEN + pmlen + 1) sm) in
  let m := take pmlen (drop (2 + NONCELEN) sm) in
  do_verify_shake (take NONCELEN (drop 2 sm)) sigbuf m pk;;
  Done m.
End Api.

(** * The signed message *)

(** [sm] carries the message [m], the nonce and a nonempty signature value [sb]. *)
Definition signed_message (sm nonce m sb : list Z) : Prop :=
  length nonce = NONCELEN /\ (0 < length sb)%nat /\ Z.of_nat (length sb) + 1 < 2 ^ 16 /\
  let len := Z.of_nat (length sb) + 1 in
  sm = u8 (len .>> 8) :: u8 len :: nonce ++ m ++ 0x29 :: sb.

(** The two length bytes read back. *)
Lemma length_header len : 0 <= len < 2 ^ 16 -> (u8 (len .>> 8) .<< 8) .| u8 len = len.
Proof.
  intros Hl. rewrite Z.shiftr_div_pow2, (wrap_small 8 (len / 2 ^ 8)), wrap_mod by
    (lia || (split; [apply Z.div_pos; lia | apply Z.div_lt_upper_bound; lia])).
  rewrite lor_shiftl_add by (lia || (apply Z.mod_pos_bound; lia)). pose proof (Z.div_mod len (2 ^ 8)). lia.
Qed.

Lemma header_length b0 b1 :
  in_width 8 b0 -> in_width 8 b1 ->
  let len := (b0 .<< 8) .| b1 in
  0 <= len < 2 ^ 16 /\ u8 (len .>> 8) = b0 /\ u8 len = b1.
Proof.
  intros H0 H1. cbv zeta. unfold in_width in *. rewrite lor_shiftl_add by lia. split; [lia|].
  rewrite Z.shiftr_div_pow2, !wrap_mod by lia. split.
  - replace ((b0 * 2 ^ 8 + b1) / 2 ^ 8) with b0 by (apply (Z.div_unique _ _ _ b1); lia). apply Z.mod_small. lia.
  - symmetry. apply (Z.mod_unique _ _ b0); lia.
Qed.

Section Open.
Context (work : ct_bufs) (Hwork : bufs_ok 512 717 work).
#[local] Existing Instance shake_hash.
Abbreviation PH := (shake_hash work Hwork).

Lemma open_signed sm nonce m sb pk :
  signed_message sm nonce m sb ->
  crypto_sign_open work Hwork sm pk = (do_verify (PH := PH) nonce sb m pk;; Done m).
Proof.
  intros (Hn & Hsb & Hlen & Hsm). set (len := Z.of_nat (length sb) + 1) in *. cbv zeta in Hsm.
  assert (length sm = 43 + length m + length sb)%nat as Hl.
  { rewrite Hsm. cbn [length]. rewrite !length_app, Hn. cbn [length]. unfold NONCELEN. lia. }
  unfold crypto_sign_open, do_verify_shake. rewrite Hl, fail_if_bind. destruct (Nat.ltb_spec (43 + length m + length sb) (3 + NONCELEN)); [unfold NONCELEN in *; lia|].
  assert (sm !! 0%nat = Some (u8 (len .>> 8))) as -> by now rewrite Hsm.
  assert (sm !! 1%nat = Some (u8 len)) as -> by now rewrite Hsm.
  cbn [no_fail mbind outcome_bind]. rewrite length_header by lia.
  assert (Z.to_nat len = S (length sb)) as -> by lia. rewrite fail_if_bind.
  assert (((S (length sb) <? 2) || (43 + length m + length sb - NONCELEN - 2 <? S (length sb)))%nat = false) as ->.
  { apply orb_false_iff. unfold NONCELEN. split; apply Nat.ltb_ge; lia. }
  cbn [Nat.sub]. rewrite Nat.sub_0_r.
  assert (43 + length m + length sb - NONCELEN - 3 - length sb = length m)%nat as -> by (unfold NONCELEN; lia).
  assert (drop (2 + NONCELEN) sm = m ++ 0x29 :: sb) as Hd.
  { rewrite Hsm. change (2 + NONCELEN)%nat with (S (S NONCELEN)). cbn [drop]. now rewrite drop_app_length' by done. }
  assert (sm !! (2 + NONCELEN + length m)%nat = Some 0x29) as ->.
  { rewrite <- lookup_drop, Hd. now apply list_lookup_middle. }
  cbn [no_fail mbind outcome_bind negb]. rewrite fail_if_bind. change (negb (41 =? 32 + 9)) with false. cbv iota.
  rewrite Hd, take_app_length.
  assert (drop (2 + NONCELEN + length m + 1) sm = sb) as ->.
  { replace (2 + NONCELEN + length m + 1)%nat with (2 + NONCELEN + (length m + 1))%nat by lia.
    rewrite <- drop_drop, Hd, drop_app_ge by lia. replace (length m + 1 - length m)%nat with 1%nat by lia. apply drop_0. }
  rewrite (take_ge sb) by done.
  assert (take NONCELEN (drop 2 sm) = nonce) as ->; [|reflexivity].
  rewrite Hsm. cbn [drop]. rewrite drop_0. now rewrite take_app_length' by done.
Qed.

Lemma open_shape sm pk :
  bytes sm -> crypto_sign_open work Hwork sm pk = Fail \/ exists nonce m sb, signed_message sm nonce m sb.
Proof.
  intros Hb. unfold crypto_sign_open. rewrite fail_if_bind.
  destruct (Nat.ltb_spec (length sm) (3 + NONCELEN)) as [|Hge]; [now left|].
  destruct sm as [|b0 [|b1 rest]]; try (cbn in Hge; lia).
  apply Forall_cons_iff in Hb as [H0 Hb]. apply Forall_cons_iff in Hb as [H1 Hb].
  destruct (header_length b0 b1 H0 H1) as (Hr & E0 & E1). change ((b0 :: b1 :: rest) !! 0%nat) with (Some b0).
  change ((b0 :: b1 :: rest) !! 1%nat) with (Some b1). cbn [no_fail mbind outcome_bind length] in *.
  set (len := (b0 .<< 8) .| b1) in *. rewrite fail_if_bind.
  destruct ((Z.to_nat len <? 2)%nat || _) eqn:E; [now left|]. apply orb_false_iff in E as [E2%Nat.ltb_ge E3%Nat.ltb_ge].
  set (sl := (Z.to_nat len - 1)%nat). set (pm := (S (S (length rest)) - NONCELEN - 3 - sl)%nat).
  assert (NONCELEN + pm + 1 + sl = length rest)%nat as Hlen by (unfold NONCELEN in *; lia).
  change ((b0 :: b1 :: rest) !! (2 + NONCELEN + pm)%nat) with (rest !! (NONCELEN + pm)%nat).
  destruct (rest !! (NONCELEN + pm)%nat) as [b|] eqn:Eb; [|apply lookup_ge_None in Eb; lia].
  cbn [no_fail mbind outcome_bind]. rewrite fail_if_bind. change (0x20 + 9) with 0x29.
  destruct (Z.eqb_spec b 0x29) as [->|]; [|now left]. cbn [negb]. right.
  exists (take NONCELEN rest), (take pm (drop NONCELEN rest)), (drop (S (NONCELEN + pm)) rest).
  assert (length (drop (S (NONCELEN + pm)) rest) = sl) as Hsl by (rewrite length_drop; lia).
  unfold signed_message. rewrite Hsl. split; [rewrite length_take; lia|]. split; [lia|].
  assert (Z.of_nat sl + 1 = len) as -> by lia. split; [lia|]. cbv zeta. rewrite E0, E1. do 2 f_equal.
  rewrite <- (take_drop NONCELEN rest) at 1. f_equal.
  rewrite <- (take_drop_middle (drop NONCELEN rest) pm 0x29) at 1 by now rewrite lookup_drop.
  f_equal. f_equal. rewrite drop_drop. f_equal.
Qed.

Lemma signed_message_bytes sm nonce m sb :
  bytes sm -> signed_message sm nonce m sb -> length nonce = NONCELEN /\ bytes nonce /\ bytes m /\ bytes sb.
Proof using.
  intros Hb (Hn & _ & _ & E). cbv zeta in E. rewrite E in Hb. apply Forall_cons_iff in Hb as [_ Hb].
  apply Forall_cons_iff in Hb as [_ Hb]. apply Forall_app in Hb as [Hnb Hb]. apply Forall_app in Hb as [Hmb Hb].
  apply Forall_cons_iff in Hb as [_ Hb]. done.
Qed.

Lemma signed_message_inj sm nonce m sb nonce' m' sb' :
  signed_message sm nonce m sb -> signed_message sm nonce' m' sb' -> nonce = nonce' /\ m = m' /\ sb = sb'.
Proof.
  intros (Hn & _ & Hlen & E) (Hn' & _ & Hlen' & E'). cbv zeta in E, E'. rewrite E in E'. injection E' as Eh El Eb.
  assert (Z.of_nat (length sb) + 1 = Z.of_nat (length sb') + 1) as Hs.
  { rewrite <- (length_header (Z.of_nat (length sb) + 1)), <- (length_header (Z.of_nat (length sb') + 1)) by lia. now rewrite Eh, El. }
  apply app_inj_1 in Eb as [-> Eb]; [|congruence]. split; [done|].
  assert (length m = length m') as Hm by (apply (f_equal length) in Eb; rewrite !length_app in Eb; cbn [length] in Eb; lia).
  apply app_inj_1 in Eb as [-> Eb]; [|done]. injection Eb as ->. done.
Qed.

#[local] Opaque do_sign do_verify sign_loop seeded complete_private point_hash_shake encode_private_key encode_public_key
  decode_private_key comp_encode verify_raw.

(** C32 (functional).  Opening a signed message: for any bytes and a public key of 897 bytes, when the
  sampling of the point suffices, [crypto_sign_open] stays within the object and returns -1 or a
  message, and it returns [m] exactly when the object is the two length bytes, a nonce, [m], the
  header 0x29 and the whole encoding of a vector s2 that satisfies the Falcon equation for the SHAKE
  hash of nonce and message under the key the public key encodes.  What the working memory of the
  hash held before does not matter. *)
Theorem open_correct (sm pk : list Z) :
bytes sm -> bytes pk -> length pk = CRYPTO_PUBLICKEYBYTES ->
(forall nonce m sb, signed_message sm nonce m sb -> samples_suffice nonce m) ->
crypto_sign_open work Hwork sm pk <> Stuck /\
forall m, crypto_sign_open work Hwork sm pk = Done m <-> exists nonce sb h s2 sc c,
  signed_message sm nonce m sb /\ poly_ok (2 ^ 9) h /\ encode_public_key h = Done pk /\ signature_value s2 sb /\
  hash_context nonce m = Done sc /\ c = take 512 (accepted (samples 717 sc)) /\ falcon_accepts c h s2.
Proof using.
intros Hsm Hpk Hpl Hs.
assert (forall nonce m sb, signed_message sm nonce m sb ->
  crypto_sign_open work Hwork sm pk <> Stuck /\ forall m', crypto_sign_open work Hwork sm pk = Done m' <->
    m' = m /\ exists h s2 c, poly_ok (2 ^ 9) h /\ encode_public_key h = Done pk /\ signature_value s2 sb /\
      point_hash_shake work nonce m = Done c /\ falcon_accepts c h s2) as Hsigned.
{ intros nonce m sb Hm. rewrite (open_signed sm nonce m sb pk Hm). destruct (signed_message_bytes _ _ _ _ Hsm Hm) as (Hnl & Hnb & Hmb & Hsb).
  destruct (do_verify_spec (PH := PH) nonce sb m pk Hnb Hnl Hsb Hmb Hpk Hpl (Hs _ _ _ Hm)) as [Hdef Hv].
  destruct (do_verify (PH := PH) nonce sb m pk) as [[]| |]; [| |now destruct Hdef]; cbn [mbind outcome_bind].
  - split; [discriminate|]. intros m'. split.
    + intros H. injection H as <-. split; [reflexivity|]. exact (proj1 Hv eq_refl).
    + intros [-> _]. reflexivity.
  - split; [discriminate|]. intros m'. split; [intros H; discriminate H|]. intros [_ H]. discriminate (proj2 Hv H). }
destruct (open_shape sm pk Hsm) as [Hf|(nonce & m & sb & Hm)].
- rewrite Hf. split; [discriminate|]. intros m. split; [intros H; discriminate H|].
  intros (nonce & sb & h & s2 & sc & c & Hm & H1 & H2 & H3 & H4 & -> & H5).
  destruct (point_hash_shake_ok work nonce m Hwork (Hs _ _ _ Hm)) as (sc' & c' & E & Ec & -> & _).
  rewrite H4 in E. injection E as <-.
  assert (crypto_sign_open work Hwork sm pk = Done m) as H; [|congruence].
  apply (proj2 (Hsigned nonce m sb Hm) m). split; [reflexivity|]. eexists h, s2, _. exact (conj H1 (conj H2 (conj H3 (conj Ec H5)))).
- destruct (Hsigned nonce m sb Hm) as [Hdef Hiff]. split; [exact Hdef|]. intros m'. refine (iff_trans (Hiff m') _).
  destruct (point_hash_shake_ok work nonce m Hwork (Hs _ _ _ Hm)) as (sc' & c' & E & Ec & -> & _). split.
  + intros (-> & h & s2 & c & H1 & H2 & H3 & H4 & H5). rewrite Ec in H4. injection H4 as <-.
    exists nonce, sb, h, s2, sc'. eexists. exact (conj Hm (conj H1 (conj H2 (conj H3 (conj E (conj eq_refl H5)))))).
  + intros (nonce' & sb' & h & s2 & sc & c & Hm' & H1 & H2 & H3 & H4 & -> & H5).
    destruct (signed_message_inj _ _ _ _ _ _ _ Hm Hm') as (<- & <- & <-). split; [reflexivity|].
    rewrite H4 in E. injection E as <-. eexists h, s2, _. exact (conj H1 (conj H2 (conj H3 (conj Ec H5)))).
Qed.

Context `{C : Core}.

(** A successful [do_sign], in terms of the sampler. *)
Lemma do_sign_value fuel os m sk nonce value :
  (forall i, in_width 8 (os i)) -> bytes m -> bytes sk -> length sk = CRYPTO_SECRETKEYBYTES ->
  samples_suffice (randombytes NONCELEN os).1 m ->
  do_sign (PH := PH) fuel os (CRYPTO_BYTES - NONCELEN - 3) m sk = Done (nonce, value) ->
  nonce = (randombytes NONCELEN os).1 /\ length nonce = NONCELEN /\ bytes nonce /\ bytes value /\
  (length value <= CRYPTO_BYTES - NONCELEN - 3)%nat /\
  exists s2 c, signature_value s2 value /\ point_hash_shake work nonce m = Done c.
Proof using Hwork.
  intros Hos Hm Hsk Hl Hs Hd.
  destruct (do_sign_spec (PH := PH) fuel os (CRYPTO_BYTES - NONCELEN - 3) m sk Hos Hm Hsk Hl Hs) as [Herr Hrun].
  destruct (signing_key_dec sk Hsk Hl) as [(f & g & F & G & Hk)|Hno]; [|rewrite (proj2 Herr Hno) in Hd; discriminate Hd].
  destruct (Hrun f g F G Hk) as (n & c & sc & (Hn & Hpt & _) & _ & E). rewrite E in Hd.
  pose proof (sign_loop_spec fuel sc f g F G c (CRYPTO_BYTES - NONCELEN - 3)) as Hloop.
  destruct (sign_loop fuel sc f g F G c _) as [v| |]; [|discriminate Hd|discriminate Hd]. injection Hd as <- <-.
  destruct Hloop as (k & s2 & _ & _ & Hv & Hvb & Hvl). split; [exact Hn|]. rewrite Hn at 1 2.
  split; [apply randombytes_length|]. split; [exact (randombytes_bytes _ _ Hos)|]. split; [exact Hvb|].
  split; [exact Hvl|]. exists s2, c. exact (conj Hv Hpt).
Qed.

(** [crypto_sign] and [crypto_sign_open]: a signed message is at most 666 bytes longer
  than the message, carries it and the very nonce and value that [crypto_sign_signature] returns for
  the same randomness, and under any public key [crypto_sign_open] gives the message back exactly
  when [crypto_sign_verify] accepts that detached signature, and returns -1 otherwise. *)
Theorem sign_open_roundtrip (fuel : nat) (os : entropy) (m sk sm : list Z) :
(forall i, in_width 8 (os i)) -> bytes m -> bytes sk -> length sk = CRYPTO_SECRETKEYBYTES ->
samples_suffice (randombytes NONCELEN os).1 m ->
crypto_sign work Hwork fuel os m sk = Done sm ->
(length sm <= length m + CRYPTO_BYTES)%nat /\ bytes sm /\
exists value, let nonce := (randombytes NONCELEN os).1 in
  signed_message sm nonce m value /\
  crypto_sign_signature_shake work Hwork fuel os m sk = Done (0x39 :: nonce ++ value) /\
  forall pk, bytes pk -> length pk = CRYPTO_PUBLICKEYBYTES ->
    (crypto_sign_verify_shake work Hwork (0x39 :: nonce ++ value) m pk = Done tt /\ crypto_sign_open work Hwork sm pk = Done m) \/
    (crypto_sign_verify_shake work Hwork (0x39 :: nonce ++ value) m pk = Fail /\ crypto_sign_open work Hwork sm pk = Fail).
Proof using.
intros Hos Hm Hsk Hl Hs Hd. unfold crypto_sign, do_sign_shake in Hd. unfold crypto_sign_signature_shake, crypto_sign_signature.
destruct (do_sign (PH := PH) fuel os (CRYPTO_BYTES - NONCELEN - 3) m sk) as [[nonce value]| |] eqn:E; [|discriminate Hd|discriminate Hd].
cbn [mbind outcome_bind] in *.
destruct (do_sign_value fuel os m sk nonce value Hos Hm Hsk Hl Hs E) as (Hnonce & Hn & Hnb & Hvb & Hvl & s2 & c & Hv & Hc).
pose proof (f_equal (fun o => match o with Done x => x | _ => [] end) Hd) as Hsm. cbv beta iota zeta in Hsm. clear Hd.
rewrite <- Hnonce. clear Hnonce E.
assert (0 < length value)%nat as Hv0 by exact (signature_value_nonempty s2 value Hv).
assert (signed_message sm nonce m value) as Hsigned.
{ split; [exact Hn|]. split; [exact Hv0|]. unfold CRYPTO_BYTES, NONCELEN in Hvl. split; [lia|]. symmetry. exact Hsm. }
split; [|split].
- rewrite <- Hsm. cbn [length]. rewrite !length_app, Hn. cbn [length]. unfold CRYPTO_BYTES, NONCELEN in *. lia.
- rewrite <- Hsm. repeat (constructor; [apply wrap_range; lia|]). apply Forall_app. split; [exact Hnb|].
  apply Forall_app. split; [exact Hm|]. constructor; [unfold in_width; lia | exact Hvb].
- exists value. cbv zeta. split; [exact Hsigned|]. split; [reflexivity|]. intros pk Hpk Hpl.
  rewrite (open_signed sm nonce m value pk Hsigned).
  assert (crypto_sign_verify_shake work Hwork (0x39 :: nonce ++ value) m pk = do_verify (PH := PH) nonce value m pk) as ->
    by (exact (verify_detached nonce value m pk Hn)).
  destruct (do_verify_total (PH := PH) nonce value m pk Hpk Hpl Hvb) as [->| ->];
    [now exists c | left | right]; split; reflexivity.
Qed.
End Open.

(** * Witnesses *)

Definition demo_work : ct_bufs := mk_bufs (replicate 512 7) (replicate 512 7) (replicate 63 7).

Lemma demo_work_ok : bufs_ok 512 717 demo_work.
Proof. split; [reflexivity|]. split; [reflexivity|]. apply Nat.leb_le. vm_compute. reflexivity. Qed.

Lemma demo_suffice : samples_suffice (randombytes NONCELEN demo_os).1 [].
Proof.
  intros sc H. assert (Some sc = match hash_context (randombytes NONCELEN demo_os).1 [] with Done sc => Some sc | _ => None end) as E by now rewrite H.
  assert (match match hash_context (randombytes NONCELEN demo_os).1 [] with Done sc => Some sc | _ => None end with
    | Some sc => (512 <=? length (accepted (samples 717 sc)))%nat | None => true end = true) as Hb by (vm_compute; reflexivity).
  rewrite <- E in Hb. now apply Nat.leb_le.
Qed.

Definition demo_sm : list Z :=
  let len := Z.of_nat (length demo_value) + 1 in
  u8 (len .>> 8) :: u8 len :: demo_nonce ++ [] ++ 0x29 :: demo_value.

Lemma demo_signed : signed_message demo_sm demo_nonce [] demo_value.
Proof.
  split; [reflexivity|]. split; [apply Nat.ltb_lt; vm_compute; reflexivity|]. split; [vm_compute; reflexivity | reflexivity].
Qed.

Lemma open_correct_witness :
  exists pk, length pk = CRYPTO_PUBLICKEYBYTES /\ crypto_sign_open demo_work demo_work_ok demo_sm pk = Done [].
Proof.
  destruct (point_hash_shake_ok demo_work demo_nonce [] demo_work_ok demo_suffice) as (sc & c & Hsc & _ & Hc & Hok).
  assert (Forall (in_width 16) c) as Hw by (eapply Forall_impl; [|apply Hok]; unfold in_q, in_width, Q; simpl; lia).
  destruct (encode_public_key_spec c (proj1 Hok) Hw) as [[_ H]|(_ & pk & E & Hl & Hb)]; [destruct (H Hok)|].
  exists pk. split; [exact Hl|]. assert (bytes demo_sm) as Hs by by_decide.
  refine (proj2 (proj2 (open_correct demo_work demo_work_ok demo_sm pk Hs Hb Hl _) []) _).
  - intros nonce m sb H. destruct (signed_message_inj _ _ _ _ _ _ _ demo_signed H) as (<- & <- & _). exact demo_suffice.
  - exists demo_nonce, demo_value, c, demo_poly, sc, c. split; [exact demo_signed|]. split; [exact Hok|]. split; [exact E|].
    split; [|split; [exact Hsc | split; [exact Hc | exact (demo_accepts c (proj1 Hok))]]].
    split; [reflexivity|]. split; [unfold comp_valid; by_decide | vm_compute; reflexivity].
Defined.

Lemma sign_open_roundtrip_witness :
  exists sm, crypto_sign demo_work demo_work_ok 1 demo_os [] demo_sk = Done sm /\ (length sm <= 666)%nat.
Proof.
  destruct (demo_do_sign (PH := shake_hash demo_work demo_work_ok) demo_suffice) as (nonce & value & E).
  assert (exists sm, crypto_sign demo_work demo_work_ok 1 demo_os [] demo_sk = Done sm) as [sm Hs].
  { unfold crypto_sign, do_sign_shake. fold value_max. rewrite E. eexists. reflexivity. }
  exists sm. split; [exact Hs|].
  exact (proj1 (sign_open_roundtrip demo_work demo_work_ok 1 demo_os [] demo_sk sm demo_os_bytes ltac:(constructor)
    (proj2 demo_sk_shape) (proj1 demo_sk_shape) demo_suffice Hs)).
Defined.
