(* ===== verification/FalconSystem.v ===== *)
(** FalconSystem: the components put together.

    [falcon_core] instantiates the interface of the signature API with the models of key generation and
    of signing; the theorem follows a key pair from its seed to the verification of a signature. *)

From Stdlib Require Import ZArith Lia.
From stdpp Require Import base numbers list.
From S2P Require Import Prelude NumberTheory CodecFixed CodecComp Mq Polynomial Butterfly Poly Ntt Norm Vrfy Shake HashToPoint Ntru NtruSpec Gauss Keygen Sampler Sign SignSpec Falcon FalconDemo FalconRpo.

Abbreviation bytes := (Forall (in_width 8)).

(** * The interface implemented *)

Definition core_keygen (fuel draws : nat) (rng : inc_ctx) : option (list Z * list Z * list Z * list Z) :=
  '(f, g, F, G, h) ← keygen_loop fuel draws rng 9; Some (f, g, F, h).

Lemma core_keygen_iff fuel draws rng f g F h :
  core_keygen fuel draws rng = Some (f, g, F, h) <-> exists G, keygen_loop fuel draws rng 9 = Some (f, g, F, G, h).
Proof.
  unfold core_keygen. destruct (keygen_loop fuel draws rng 9) as [[[[[f' g'] F'] G'] h']|]; cbn [mbind option_bind].
  - split; [intros [= <- <- <- <-]; now exists G' | intros [G [= <- <- <- <- <-]]; reflexivity].
  - split; [done | now intros [G H]].
Qed.

#[local] Opaque keygen_loop Sign.sign_dyn.

Lemma core_keygen_shape fuel draws rng f g F h : core_keygen fuel draws rng = Some (f, g, F, h) ->
  length f = (2 ^ 9)%nat /\ length g = (2 ^ 9)%nat /\ length F = (2 ^ 9)%nat /\ length h = (2 ^ 9)%nat /\ Forall (in_width 16) h.
Proof.
  intros H. apply core_keygen_iff in H as [G H]. apply (keygen_loop_key_pair _ _ _ 9 _ _ _ _ _ ltac:(lia)) in H as [[Lf _] [Lg _] (_ & _ & _ & _ & _ & [Lh Bh] & _) [LF _] _ _].
  split; [exact Lf|]. split; [exact Lg|]. split; [exact LF|]. split; [exact Lh|]. eapply Forall_impl; [exact Bh|]. cbn beta. unfold in_q, Q, in_width. lia.
Qed.

Lemma core_sign_shape fuel tries sc f g F G hm sc' sig : Sign.sign_dyn fuel tries sc f g F G hm 9 = Some (sc', sig) ->
  length sig = (2 ^ 9)%nat /\ norm2 sig <= l2bound !!! 9%nat.
Proof.
  intros H. destruct (sign_dyn_vector _ _ _ _ _ _ _ _ 9 _ _ ltac:(lia) H) as (p & spc & t0 & t1 & _ & Hv). split; apply Hv.
Qed.

(** [kfuel] and [draws] bound key generation, [sfuel] and [tries] each call of the signer. *)
Definition falcon_core (kfuel draws sfuel tries : nat) : Core := {|
  keygen := core_keygen kfuel draws;
  Falcon.sign_dyn sc f g F G hm := Sign.sign_dyn sfuel tries sc f g F G hm 9;
  keygen_shape := core_keygen_shape kfuel draws;
  sign_dyn_shape sc f g F G hm sc' sig H := proj1 (core_sign_shape sfuel tries sc f g F G hm sc' sig H)
|}.

(** * Key pairs are signing keys *)

Lemma Forall_abs_trim bits B l : B <= 2 ^ (Z.of_nat bits - 1) -> Forall (fun c => Z.abs c < B) l -> Forall (trim_valid bits) l.
Proof. intros HB H. eapply Forall_impl; [exact H|]. cbn beta. unfold trim_valid. intros c Hc. lia. Qed.

Lemma key_pair_private_ok f g F G h : key_pair 9 f g F G h -> private_ok f g F /\ poly_ok (2 ^ 9) h.
Proof.
  intros [[Lf _] [Lg _] (Bf & Bg & _ & _ & _ & Hh & _) [LF BF] _ _]. split; [|exact Hh].
  split; [exact Lf|]. split; [exact Lg|]. split; [exact LF|].
  split; [apply (Forall_abs_trim 6 _ _ (Z.le_refl _) Bf)|]. split; [apply (Forall_abs_trim 6 _ _ (Z.le_refl _) Bg)|].
  rewrite FG_limit_range in BF by lia. eapply Forall_impl; [exact BF|]. cbn beta. unfold trim_valid. change (2 ^ (Z.of_nat 8 - 1)) with 128. intros c Hc. lia.
Qed.

Lemma key_pair_signing_key f g F G h sk : key_pair 9 f g F G h -> encode_private_key f g F = Done sk -> signing_key sk f g F G.
Proof.
  intros Hk He. split; [exact (proj1 (key_pair_private_ok f g F G h Hk))|]. split; [exact He|].
  exact (key_pair_completes 9 f g F G h ltac:(lia) Hk).
Qed.

(** A vector of the signer comes from a sampled point. *)
Definition sampled_vector (tries : nat) (f g F G c s2 t0 t1 : list Z) : Prop :=
  (exists spc spc', dyn_point (sampler tries) spc f g F G c 9 = Some (spc', t0, t1)) /\ vector_of_point 9 c t0 t1 s2.

Lemma nth_signature_sampled kfuel draws sfuel tries k : forall sc f g F G c s2,
  nth_signature (C := falcon_core kfuel draws sfuel tries) k sc f g F G c = Some s2 ->
  exists t0 t1, sampled_vector tries f g F G c s2 t0 t1.
Proof.
  induction k as [|k IH]; intros sc f g F G c s2 H; cbn [nth_signature Falcon.sign_dyn falcon_core] in H;
    destruct (Sign.sign_dyn sfuel tries sc f g F G c 9) as [[sc' sig]|] eqn:E; try done; cbn [mbind option_bind] in H.
  - injection H as ->. destruct (sign_dyn_vector _ _ _ _ _ _ _ _ 9 _ _ ltac:(lia) E) as (p & spc' & t0 & t1 & Hp & Hv).
    exists t0, t1. split; [|exact Hv]. do 2 eexists. exact Hp.
  - exact (IH _ _ _ _ _ _ _ H).
Qed.

(** C3 (refinement).  The whole system, with the models of key generation and signing: the key pair made
    from a seed never fails to encode; its public key decodes to h with f h = g and its private key is one
    that signing completes to (f, g, F, G) with f G - g F = 12289; signing with it never returns -1; and a
    signature carries a vector s2 that comes from a sampled point, is never longer than the verifier's
    bound, and is accepted for the public key as soon as that point, rounded, is in the lattice. *)
Theorem system_correct (kfuel draws sfuel tries : nat) (seed : list Z) :
  let C := falcon_core kfuel draws sfuel tries in
  exists rng, seeded (take sizeof_pointer seed) = Done rng /\
  forall f g F G h, keygen_loop kfuel draws rng 9 = Some (f, g, F, G, h) ->
  key_pair 9 f g F G h /\
  exists pk sk, crypto_sign_keypair_from_seed_rpo (C := C) seed = Done (pk, sk) /\
    length pk = CRYPTO_PUBLICKEYBYTES /\ length sk = CRYPTO_SECRETKEYBYTES /\ bytes pk /\ bytes sk /\
    decode_public_key pk = Done h /\ signing_key sk f g F G /\
    forall fuel os m, (forall i, in_width 8 (os i)) -> bytes m ->
      crypto_sign_signature_rpo (C := C) fuel os m sk <> Fail /\
      forall sig, crypto_sign_signature_rpo (C := C) fuel os m sk = Done sig ->
        exists c s2 t0 t1, sampled_vector tries f g F G c s2 t0 t1 /\
          (crypto_sign_verify_rpo sig m pk = Done tt <-> falcon_accepts c h s2) /\
          (exact_point 9 f g F G c t0 t1 -> crypto_sign_verify_rpo sig m pk = Done tt).
Proof.
  cbv zeta. destruct (seeded_total (take sizeof_pointer seed)) as [rng Hrng]. exists rng. split; [exact Hrng|]. intros f g F G h Hk.
  pose proof (keygen_loop_key_pair _ _ _ 9 _ _ _ _ _ ltac:(lia) Hk) as Hkey. split; [exact Hkey|]. set (C := falcon_core kfuel draws sfuel tries).
  destruct (key_pair_private_ok f g F G h Hkey) as [Hok Hh].
  assert (keygen (Core := C) rng = Some (f, g, F, h)) as Hgen by (apply core_keygen_iff; now exists G).
  destruct (keypair_from_spec (C := C) _ _ _ _ _ _ Hrng Hgen) as [[_ Hn]|(_ & _ & pk & sk & E & Hsk & Hpk)]; [destruct (Hn (Logic.conj Hok Hh))|].
  pose proof (key_pair_signing_key f g F G h sk Hkey Hsk) as Hsign.
  destruct (encode_public_key_bytes h pk Hh Hpk) as [Lp Bp]. destruct (encode_private_key_bytes f g F sk Hok Hsk) as [Ls Bs].
  exists pk, sk. split; [exact E|]. split; [exact Lp|]. split; [exact Ls|]. split; [exact Bp|]. split; [exact Bs|].
  split; [apply (proj2 (decode_public_key_spec pk Bp Lp) h); exact (Logic.conj Hh Hpk)|]. split; [exact Hsign|].
  intros fuel os m Hos Hm. split.
  - intros Hf. apply (sign_rpo_fails (C := C) fuel os m sk Hos Hm Bs Ls) in Hf. apply Hf. now exists f, g, F, G.
  - intros sig Hsig. destruct (signature_origin (C := C) fuel os m sk sig Hos Hm Bs Ls Hsig)
      as (f' & g' & F' & G' & nonce & c & sc & k & s2 & value & Hsign' & Hin & Hc & Hff & Hv & -> & Hnl & Hsb & _).
    pose proof (signing_key_inj sk _ _ _ _ _ _ _ _ Bs Ls Hsign Hsign') as [= <- <- <- <-].
    destruct (nth_signature_sampled kfuel draws sfuel tries k _ _ _ _ _ _ _ (proj1 Hff)) as (t0 & t1 & Hsv). exists c, s2, t0, t1. split; [exact Hsv|].
    pose proof (verify_signed nonce m value s2 c h pk Hnl Hsb Hm (proj1 (proj2 Hin)) Hv Hh Hpk) as Hiff. split; [exact Hiff|].
    intros Hex. apply Hiff. exact (exact_point_short 9 ltac:(lia) f g F G h c Hkey Hc t0 t1 s2 Hex (proj1 (proj2 Hsv))).
Qed.
